(* ===== verification/_CoqProject ===== *)
-Q . S2P
Prelude.v
Coordinator.v
RespCoord.v
TurnCoord.v
ConnCoord.v
CompactCoord.v
TTSCoord.v
RespSink.v
CommitOrder.v
RealtimeSession.v
ProposalFlow.v
ProposalInv.v
ProposalTraces.v
ExecutionStatus.v
ExecutionTraces.v
GoMonad.v
GoTime.v
FailoverConfig.v
FailoverClassify.v
FailoverManager.v
FailoverSync.v
FailoverInv.v
FailoverSafety.v
FailoverProps.v
FailoverHealth.v
FailoverRequests.v
FailoverShare.v
FailoverDemo.v
RadixTree.v
PrefixIndex.v
PrefixRouting.v
PegTypes.v
PegTrie.v
PegJson.v
PegJsonGrammar.v
PegParser.v
PegTotal.v
PegBuilder.v
PegBuilt.v
GoJson.v
PegMapper.v
PegText.v
PegMapping.v
PegArguments.v
PegChat.v
PegIntegration.v
PegChatTotal.v
PegDemo.v
RealtimeProtocols.v
AddonTraces.v
