(* ===== verification/Prelude.v ===== *)
(** * LocalAI: a verification library for its stateful core

    LocalAI serves models behind an OpenAI-style API.  Most of its Go code
    moves data between clients, databases and inference engines; what decides
    whether a request is answered once, by whom, and with whose permission is
    a small number of state machines.  This library models those machines as
    they are written and proves what each promises.  It covers five parts of
    the program, which share this prelude and [GoMonad].

    ** Realtime sessions (core/http/endpoints/openai)

    A realtime session reacts to a client, to voice activity and to its own
    responses at the same time.  The code gives each concern a pure transition
    function [Next] and one generic [Coordinator] that applies it under a
    mutex and performs the resulting effects while holding it.

    - [Coordinator]: coordinator/coordinator.go.  [Apply] as a function, and
      its body statement by statement for any number of goroutines; whatever
      the interleaving, the calls that returned are a sequence of [Apply], and
      they never deadlock.
    - [RespCoord], [TurnCoord], [ConnCoord], [CompactCoord], [TTSCoord]: the
      five machines respcoord, turncoord, conncoord, compactcoord, ttscoord.
      Each file has the transition function and the protocol its effects
      speak, as a monitor that accepts the effects of every run.
    - [RespSink]: realtime_respcoord.go, the sink that turns the effects of
      [RespCoord] into goroutines with their contexts, cancel functions and
      registered bodies.  At most one response is live, each body runs once,
      nothing outlives a shutdown, and the join of a shutdown returns.
    - [CommitOrder]: the commit slots of realtime.go.  Transcriptions run in
      parallel, user items are appended in the order of the turns.
    - [RealtimeProtocols]: the protocols of the five machines in one theorem.
    - [RealtimeSession]: realtime_conncoord.go and realtime_compactcoord.go
      with [RespSink] inside: the session goroutine, its channels, its wait
      group and the ordered teardown.  No child outlives the session (but see
      [decode_outlives_session]), the teardown gives every goroutine it waits
      for its stop signal before it waits and is never taken back, no channel
      is closed twice.

    ** Reducers of the add-on host (pkg/addons/model)

    The host keeps two reducers as executable models of what its gateway must
    do, with a bounded search as their test.  The theorems hold for every
    history, without the bound.

    - [ProposalFlow]: proposalflow/reduce.go: states, events, effects, the
      rule table and [Reduce], one function per state; [None] is the panic.
    - [ProposalInv]: proposalflow/explore.go: the checks [CheckState] and
      [CheckTransition] as boolean functions.  They never fail; a dispatch
      needs a confirmed and admitted proposal; a request is sent at most once;
      the persisted rows follow the state, but for the row that a dropped
      proposal leaves behind; every state has a way out.
    - [ProposalTraces]: proposalflow/traces.go: the scenarios, replayed.
    - [ExecutionStatus], [ExecutionTraces]: executionstatus: the reducer of
      an observed isolation status, its checks and its fixtures.
    - [AddonTraces]: the models replay all recorded scenarios and fixtures.

    ** Failover chains (core/services/failover)

    A chain is a model name that redirects to the first healthy of several
    targets.  [Manager] keeps the health of the targets, the active target of
    each chain, pins, and what it shares with the other frontends.

    - [GoMonad], [GoTime]: Go methods that may panic as functions on the state
      behind the mutex, with a total-correctness predicate [wp]; instants,
      saturating durations and [time.ParseDuration].
    - [FailoverConfig]: core/config/model_config_failover.go.
    - [FailoverClassify]: classify.go, which errors another target may cure.
    - [FailoverManager]: types.go and manager.go: transitions of targets, the
      recomputation of chains, config syncs, plans, reports, [Do].
    - [FailoverSync]: statesync.go, schedule.go and the rest of manager.go:
      pins, snapshots of other frontends, the leader gate, probes.
    - [FailoverInv], [FailoverSafety]: the invariant, and that every operation
      keeps it without a panic; the class [EnvLaws] is what the theorems ask of
      the environment and [ValidConfigs] what they ask of the configuration.
    - [FailoverProps] (any sequence of operations, plans), [FailoverRequests]
      (what [Do] calls, reports and returns, a cancelled context included), [FailoverHealth] (trips and recovery),
      [FailoverShare] (switching, followers, pins, warm set, probes).
    - [FailoverDemo]: the theorems applied to a concrete deployment.

    ** Prefix-cache routing (pkg/radixtree, core/services/nodes/prefixcache)

    Requests that share a prompt prefix go to the replica that has it cached,
    unless that replica is overloaded.

    - [RadixTree]: radixtree.go, the compressed tree from chains of hashes to
      values with expiry and eviction.  It refines a map of prefixes over any
      sequence of operations and keeps its structural invariants.
    - [PrefixIndex]: index.go, reported.go, provider.go, sync.go.  The class of
      providers has laws that both implementations meet; decisions are checked
      against a register per prefix, and [Sync] forgets what it is told to.
    - [PrefixRouting]: extractor.go, config.go, policy.go, pipeline.go,
      select.go.  [Select] against the routing policy stated on its own: the
      load guard, the hot replica, the cold order, the least loaded.

    ** Tool calls from a model's answer (pkg/functions/peg, peg_integration.go)

    The program builds a grammar for the tools of a request, parses the answer
    of the model, also while it is still streaming, and maps the tree to calls.

    - [PegTypes], [PegTrie], [PegJson]: types.go, trie.go and the JSON parser
      of parser.go, each against its specification: the UTF-8 encoder, a search
      through the delimiters, a grammar.  [PegJsonGrammar] has the grammar:
      RFC 8259 is one instance, the dialect that the code accepts another; it
      lets unescaped control characters into strings and refuses U+FFFD.
    - [PegParser], [PegTotal]: arena.go and every parser of parser.go; a
      grammar without left recursion parses every input, in bounds, with a
      well-nested tree.
    - [PegBuilder], [PegBuilt]: builder.go, character classes and the ready-made
      grammars; building changes no parse.
    - [GoJson]: what encoding/json does, on lists of bytes.
    - [PegMapper], [PegMapping], [PegText], [PegArguments]: the mapper of
      chat.go over a store with its pointers and slices, a specification
      without pointers that it refines, what it may do to a text, and what the
      arguments of a call then are.
    - [PegChat], [PegIntegration], [PegChatTotal]: the tool grammars of chat.go,
      the formats, presets and markers of peg_integration.go and parse.go, and
      that all of them parse every answer.
    - [PegDemo]: answers from text to calls, witnesses and counterexamples.

    ** Conventions

    A property of the program is a theorem whose comment starts with its
    number (C1, C2, ...).  Definitions keep the names of the source; a name
    that differs in a prime, an underscore or a prefix does so because Rocq
    has one name space where Go has several.  Strings are [string], machine
    integers [Z] with the wrap written out where a counter can reach it
    ([wrap64]), maps [gmap], sets [gset].

    Concurrency is at the grain of the critical sections: a mutex held over a
    whole method makes the method one step, and [Coordinator] proves that for
    the one lock that is held over callbacks.  An operation of the failover
    manager with several critical sections ([Do], a round of probes) runs as a
    whole inside one operation of [FailoverManager.exec].  What the code asks of the
    outside (the clock, the configuration, the order in which Go walks a map,
    the answers of probes and of the pin store) is a field of the class [Env],
    answered anew at every question; response bodies, transcriptions and
    request functions are arbitrary.

    ** Bounds

    [do_loop] has fuel, the number of targets of the plan, and [failover_do]
    shows that it never runs out, since each round uses up a target.
    [live_loop] of [ExecutionStatus] has the depth of the source as its fuel.
    [parse_units] recurses on the length of its input.  The loops of the JSON
    parser have [json_fuel], those of the PEG machine the fuel that a rank of
    the grammar gives; both are proved enough.  [select_policy] covers up to 32
    replicas and 32 cold targets: the scores are 64-bit floats, compared by
    computation.  [RespSink] counts
    response ids in [N]: the 64-bit counter of the source wraps after 2^64
    responses of one session, which no session reaches.  The success counter
    of [failover_recovers] is bounded by 2^63 and wraps in the model as in the
    source.

    ** Not modelled

    Audio, transcription, the event loop that dispatches client messages, the
    any-to-any path and WebRTC (input and output around the machines above);
    the deletion, eviction and trimming of conversation items; the searches
    [Explore] of the two reducers (the theorems hold for all the histories they
    sample); the prober and the distributed stores of the
    failover manager (answers of [Env]); [ValidateScorerWeights] and the pressure
    counter of the prefix cache; the regular-expression and stack parsers that
    [ParseFunctionCall] tries around the PEG path, and the text of grammars;
    JSON and YAML bindings.  Of the rest of the program the next candidates
    are the turn sink of the realtime session, the contract of add-on execution
    requests and the eviction of the model loader. *)
From stdpp Require Export base gmap strings pretty relations functions.
From stdpp Require Export list.

(** ** Notations *)

Declare Scope go_scope.
Delimit Scope go_scope with go.

(** [slices.Contains] on a list with decidable equality. *)
Notation "x 'in?' l" := (bool_decide (x ∈ l)) (at level 70) : go_scope.
Open Scope go_scope.

(** ** Tactics *)

(** Case split on the first match or conditional of the goal or of a
    hypothesis, keeping the equation. *)
Ltac split_match :=
  match goal with
  | |- context [match ?x with _ => _ end] => destruct x eqn:?
  | H : context [match ?x with _ => _ end] |- _ => destruct x eqn:?
  end.

Ltac split_matches := repeat (split_match; simplify_eq/=).

(** Close the goals of a case analysis that need no idea. *)
Ltac crush :=
  repeat (simplify_eq/=; try done; try lia; try split_match);
  try done; try lia.

(** Turn boolean hypotheses into propositions. *)
Ltac bool_hyps :=
  repeat match goal with
  | H : negb _ = false |- _ => apply negb_false_iff in H
  | H : negb _ = true |- _ => apply negb_true_iff in H
  | H : _ && _ = true |- _ => apply andb_true_iff in H as [??]
  | H : _ || _ = false |- _ => apply orb_false_iff in H as [??]
  | H : bool_decide _ = true |- _ => apply bool_decide_eq_true in H
  | H : bool_decide _ = false |- _ => apply bool_decide_eq_false in H
  | H : String.eqb _ _ = true |- _ => apply String.eqb_eq in H
  | H : String.eqb _ _ = false |- _ => apply String.eqb_neq in H
  end; subst.

Create HintDb localai.

(** ** Folding a partial step function

    [foldM f a l] runs a step that may refuse: [None] is the refusal.  The
    monitors of the components are of this shape. *)
Section FoldM.
Context {A B : Type}.

Fixpoint foldM (f : A → B → option A) (a : A) (l : list B) : option A :=
  match l with
  | [] => Some a
  | b :: l' => a' ← f a b; foldM f a' l'
  end.

Lemma foldM_app (f : A → B → option A) a l1 l2 :
  foldM f a (l1 ++ l2) = a' ← foldM f a l1; foldM f a' l2.
Proof.
  revert a. induction l1 as [|b l1 IH]; intros a; simpl; [done|].
  destruct (f a b); simpl; [apply IH|done].
Qed.

Lemma foldM_app_Some (f : A → B → option A) a a1 a2 l1 l2 :
  foldM f a l1 = Some a1 → foldM f a1 l2 = Some a2 →
  foldM f a (l1 ++ l2) = Some a2.
Proof. intros H1 H2. rewrite foldM_app, H1. exact H2. Qed.

(** A refusal is final, so every prefix of an accepted list is accepted. *)
Lemma foldM_prefix (f : A → B → option A) a l1 l2 a2 :
  foldM f a (l1 ++ l2) = Some a2 → ∃ a1, foldM f a l1 = Some a1.
Proof. rewrite foldM_app. destruct (foldM f a l1); simpl; eauto; done. Qed.
End FoldM.

#[export] Hint Resolve foldM_app_Some : localai.

(** ** Invariants of a step relation *)

Lemma rtc_invariant {A} (R : relation A) (I : A → Prop) x y :
  (∀ a b, I a → R a b → I b) → rtc R x y → I x → I y.
Proof. intros Hstep. induction 1; eauto. Qed.
