(* ===== verification/Coordinator.v ===== *)
(** * Coordinator: the single-writer runtime of the realtime state machines

    Models [core/http/endpoints/openai/coordinator/coordinator.go]: the
    generic [Coordinator[S, E, F]] with [New], [Apply] and [State], and a
    thread-level model of callers that share one coordinator: the body of
    [Apply] cut at every statement, the mutex included.  It refines the atomic
    [Apply]. *)
From S2P Require Import Prelude.

(** A transition returns the next state, the ordered effects and a non-nil
    error for an unhandled pair. *)
Definition TransitionFunc (S E F : Type) : Type := S → E → S * list F * option string.

(** [Perform] acts on whatever the sink owns: its world [W]. *)
Definition Sink (F W : Type) : Type := F → W → W.

Record Coordinator (S E F W : Type) := MkCoordinator {
  state : S;
  next : TransitionFunc S E F;
  sink : Sink F W;
}.
Arguments MkCoordinator {S E F W} _ _ _.
Arguments state {S E F W} _.
Arguments next {S E F W} _.
Arguments sink {S E F W} _.

Section Coordinator.
Context {S E F W : Type}.
Implicit Types (c : Coordinator S E F W) (w : W).

Definition New (initial : S) (nx : TransitionFunc S E F) (sk : Sink F W) : Coordinator S E F W :=
  MkCoordinator initial nx sk.

(** The effects are performed in order, each by the sink. *)
Definition perform_all (sk : Sink F W) (fx : list F) (w : W) : W :=
  foldl (λ w f, sk f w) w fx.

Definition Apply c (e : E) w : Coordinator S E F W * W * option string :=
  match c.(next) c.(state) e with
  | (_, _, Some err) => (c, w, Some err)
  | (ns, effects, None) =>
      (MkCoordinator ns c.(next) c.(sink), perform_all c.(sink) effects w, None)
  end.

Definition State c : S := c.(state).

(** A caller that applies a list of events, one after the other; the list is
    what the calls return. *)
Fixpoint ApplyAll c (es : list E) w : Coordinator S E F W * W * list (option string) :=
  match es with
  | [] => (c, w, [])
  | e :: es =>
      let '(c', w', err) := Apply c e w in
      let '(c'', w'', errs) := ApplyAll c' es w' in (c'', w'', err :: errs)
  end.

Lemma ApplyAll_snoc c es e w :
  ApplyAll c (es ++ [e]) w =
    let '(c', w', errs) := ApplyAll c es w in
    let '(c'', w'', err) := Apply c' e w' in (c'', w'', errs ++ [err]).
Proof.
  revert c w. induction es as [|x es IH]; intros c w; simpl.
  - by destruct (Apply c e w) as [[c' w'] err].
  - destruct (Apply c x w) as [[c1 w1] err1]. rewrite IH. destruct (ApplyAll c1 es w1) as [[c2 w2] errs].
    by destruct (Apply c2 e w2) as [[c3 w3] err3].
Qed.

Lemma ApplyAll_length c es w : length (ApplyAll c es w).2 = length es.
Proof.
  revert c w. induction es as [|e es IH]; intros c w; [done|]. simpl.
  destruct (Apply c e w) as [[c' w'] err]. specialize (IH c' w').
  destruct (ApplyAll c' es w') as [[c'' w''] errs]. simpl in *. by rewrite IH.
Qed.
End Coordinator.

(** ** Pure runs of a transition function *)
Section Run.
Context {S E F : Type} (nx : TransitionFunc S E F).

(** One event: the state after it and the effects it emits.  An error
    leaves the state and emits nothing. *)
Definition step1 (s : S) (e : E) : S * list F :=
  match nx s e with
  | (_, _, Some _) => (s, [])
  | (s', fx, None) => (s', fx)
  end.

Fixpoint run (s : S) (es : list E) : S * list F :=
  match es with
  | [] => (s, [])
  | e :: es => let '(s1, fx1) := step1 s e in
               let '(s2, fx2) := run s1 es in (s2, fx1 ++ fx2)
  end.

Lemma run_app s es1 es2 :
  run s (es1 ++ es2) =
    let '(s1, fx1) := run s es1 in let '(s2, fx2) := run s1 es2 in (s2, fx1 ++ fx2).
Proof.
  revert s. induction es1 as [|e es1 IH]; intros s; simpl.
  - by destruct (run s es2).
  - destruct (step1 s e) as [s1 fx1]. rewrite IH.
    destruct (run s1 es1) as [s2 fx2]. destruct (run s2 es2) as [s3 fx3].
    by rewrite <-app_assoc.
Qed.

Lemma run_snoc s es e :
  run s (es ++ [e]) =
    let '(s1, fx1) := run s es in let '(s2, fx2) := step1 s1 e in (s2, fx1 ++ fx2).
Proof.
  rewrite run_app. destruct (run s es) as [s1 fx1]. simpl.
  destruct (step1 s1 e) as [s2 fx2]. by rewrite app_nil_r.
Qed.

(** An invariant kept by every step holds after every run. *)
Lemma run_invariant (I : S → Prop) s es :
  (∀ s e, I s → I (step1 s e).1) → I s → I (run s es).1.
Proof.
  intros Hstep. revert s. induction es as [|e es IH]; intros s Hs; simpl; [done|].
  specialize (Hstep s e Hs) as H1. destruct (step1 s e) as [s1 fx1]; simpl in *.
  specialize (IH s1 H1). by destruct (run s1 es).
Qed.

(** A monitor is an automaton over effects.  If every step of the machine
    is accepted from a related monitor state, so is every run. *)
Lemma run_monitor {M} (mon : M → F → option M) (R : S → M → Prop) s m es :
  (∀ s m e, R s m → ∃ m', foldM mon m (step1 s e).2 = Some m' ∧ R (step1 s e).1 m') →
  R s m →
  ∃ m', foldM mon m (run s es).2 = Some m' ∧ R (run s es).1 m'.
Proof.
  intros Hstep. revert s m. induction es as [|e es IH]; intros s m HR; simpl; [eauto|].
  destruct (Hstep s m e HR) as (m1 & Hm1 & HR1).
  destruct (step1 s e) as [s1 fx1]; simpl in *.
  destruct (IH s1 m1 HR1) as (m2 & Hm2 & HR2).
  destruct (run s1 es) as [s2 fx2]; simpl in *.
  exists m2. split; [|done]. by eapply foldM_app_Some.
Qed.
End Run.

(** ** Callers on several goroutines

    Every goroutine [i] has a list of events it will [Apply].  A goroutine in
    [Apply] is at one of its statements, with its local variables; [step i] is
    its next statement.  Between any two statements any other goroutine may
    take one of its own, but the mutex makes it wait. *)
Section Goroutines.
Context {S E F W : Type}.
Implicit Types (c : Coordinator S E F W) (w : W).

Inductive phase :=
| Outside                                        (* not in Apply *)
| AtNext (e : E)                                 (* c.next(c.state, e) *)
| AtStore (e : E) (ns : S) (effects : list F)    (* c.state = ns *)
| AtPerform (e : E) (effects : list F)           (* the loop, with these effects left *)
| AtUnlock (e : E) (err : option string).        (* the deferred unlock, returning err *)

(** [returned i] are the results of the calls of goroutine [i] so far, and
    [history] the calls of all of them in the order they returned. *)
Record Sys := MkSys {
  mu : option nat;
  coord : Coordinator S E F W;
  world : W;
  at_ : nat → phase;
  todo : nat → list E;
  returned : nat → list (option string);
  history : list (nat * E);
}.

Definition sys_init c (progs : nat → list E) w : Sys :=
  MkSys None c w (λ _, Outside) progs (λ _, []) [].

Definition set_at (i : nat) (p : phase) (σ : Sys) : Sys :=
  MkSys σ.(mu) σ.(coord) σ.(world) (<[i := p]> σ.(at_)) σ.(todo) σ.(returned) σ.(history).

(** [None]: the goroutine has nothing to do or waits for the mutex. *)
Definition step (i : nat) (σ : Sys) : option Sys :=
  match σ.(at_) i with
  | Outside =>
      match σ.(mu), σ.(todo) i with
      | None, e :: es =>
          Some (MkSys (Some i) σ.(coord) σ.(world) (<[i := AtNext e]> σ.(at_)) (<[i := es]> σ.(todo))
                  σ.(returned) σ.(history))
      | _, _ => None
      end
  | AtNext e =>
      match σ.(coord).(next) σ.(coord).(state) e with
      | (_, _, Some err) => Some (set_at i (AtUnlock e (Some err)) σ)
      | (ns, effects, None) => Some (set_at i (AtStore e ns effects) σ)
      end
  | AtStore e ns effects =>
      Some (set_at i (AtPerform e effects)
        (MkSys σ.(mu) (MkCoordinator ns σ.(coord).(next) σ.(coord).(sink)) σ.(world) σ.(at_) σ.(todo)
           σ.(returned) σ.(history)))
  | AtPerform e (eff :: effects) =>
      Some (set_at i (AtPerform e effects)
        (MkSys σ.(mu) σ.(coord) (σ.(coord).(sink) eff σ.(world)) σ.(at_) σ.(todo) σ.(returned) σ.(history)))
  | AtPerform e [] => Some (set_at i (AtUnlock e None) σ)
  | AtUnlock e err =>
      Some (MkSys None σ.(coord) σ.(world) (<[i := Outside]> σ.(at_)) σ.(todo)
              (<[i := σ.(returned) i ++ [err]]> σ.(returned)) (σ.(history) ++ [(i, e)]))
  end.

Definition sys_step (σ σ' : Sys) : Prop := ∃ i, step i σ = Some σ'.

(** What goroutine [i] did, of a list with an entry per call. *)
Definition of_goroutine {A} (i : nat) (h : list (nat * A)) : list A := (filter (λ p : nat * A, p.1 = i) h).*2.

#[local] Arguments of_goroutine : simpl never.

(** The call in progress, and what it comes to from where it is. *)
Definition current (p : phase) : list E :=
  match p with
  | Outside => []
  | AtNext e | AtStore e _ _ | AtPerform e _ | AtUnlock e _ => [e]
  end.

Definition finishes (p : phase) c w (r : Coordinator S E F W * W * option string) : Prop :=
  match p with
  | Outside => False
  | AtNext e => r = Apply c e w
  | AtStore _ ns fx => r = (MkCoordinator ns c.(next) c.(sink), perform_all c.(sink) fx w, None)
  | AtPerform _ fx => r = (c, perform_all c.(sink) fx w, None)
  | AtUnlock _ err => r = (c, w, err)
  end.

(** What holds between any two steps. *)
Record sys_inv c0 (progs : nat → list E) w0 (σ : Sys) : Prop := {
  si_prog : ∀ i, of_goroutine i σ.(history) ++ current (σ.(at_) i) ++ σ.(todo) i = progs i;
  si_out : ∀ i, σ.(mu) ≠ Some i → σ.(at_) i = Outside;
  si_returned : ∀ i, σ.(returned) i =
    of_goroutine i (zip σ.(history).*1 (ApplyAll c0 σ.(history).*2 w0).2);
  si_state : let '(c, w, _) := ApplyAll c0 σ.(history).*2 w0 in
    match σ.(mu) with
    | None => σ.(coord) = c ∧ σ.(world) = w
    | Some i => ∃ e, current (σ.(at_) i) = [e] ∧ finishes (σ.(at_) i) σ.(coord) σ.(world) (Apply c e w)
    end;
}.

Lemma of_goroutine_snoc {A} i j (h : list (nat * A)) a :
  of_goroutine i (h ++ [(j, a)]) = of_goroutine i h ++ (if decide (j = i) then [a] else []).
Proof.
  unfold of_goroutine. rewrite list.filter_app, fmap_app. f_equal.
  rewrite filter_cons. simpl. by case_decide.
Qed.

Lemma sys_inv_init c0 progs w0 : sys_inv c0 progs w0 (sys_init c0 progs w0).
Proof. by split. Qed.

(** A statement of the goroutine that holds the mutex. *)
Lemma inv_inside c0 progs w0 σ i p c w e :
  sys_inv c0 progs w0 σ → σ.(mu) = Some i → current (σ.(at_) i) = [e] → current p = [e] →
  (∀ r, finishes (σ.(at_) i) σ.(coord) σ.(world) r → finishes p c w r) →
  sys_inv c0 progs w0 (set_at i p (MkSys σ.(mu) c w σ.(at_) σ.(todo) σ.(returned) σ.(history))).
Proof.
  intros [H1 H2 H3 H4] Hmu He Hp Hf. split; simpl.
  - intros j. destruct (decide (i = j)) as [<-|Hne]; [|by rewrite fn_lookup_insert_ne].
    by rewrite fn_lookup_insert, Hp, <-He.
  - intros j Hj. rewrite fn_lookup_insert_ne by congruence. by apply H2.
  - done.
  - destruct (ApplyAll c0 _ w0) as [[c' w'] errs]. rewrite Hmu in H4 |- *. destruct H4 as (e' & He' & Hr).
    rewrite He in He'. injection He' as <-. exists e. rewrite fn_lookup_insert. split; [done|by apply Hf].
Qed.

(** Every statement keeps the invariant; only the holder is inside [Apply]. *)
Lemma sys_inv_step c0 progs w0 σ σ' : sys_inv c0 progs w0 σ → sys_step σ σ' → sys_inv c0 progs w0 σ'.
Proof.
  intros HI [i Hstep]. pose proof HI as [H1 H2 H3 H4].
  assert (Hin : σ.(at_) i ≠ Outside → σ.(mu) = Some i).
  { intros Hne. destruct (decide (σ.(mu) = Some i)) as [|Hm]; [done|]. by destruct Hne; apply H2. }
  unfold step in Hstep. destruct (σ.(at_) i) as [|e|e ns fx|e [|f fx]|e err] eqn:Hat;
    try (specialize (Hin ltac:(done))).
  - destruct (σ.(mu)) as [|] eqn:Hmu; [done|]. destruct (σ.(todo) i) as [|e es] eqn:He; [done|].
    injection Hstep as <-. split; simpl.
    + intros j. destruct (decide (i = j)) as [<-|Hne]; [|by rewrite !fn_lookup_insert_ne].
      rewrite !fn_lookup_insert. specialize (H1 i). rewrite Hat, He in H1. exact H1.
    + intros j Hj. rewrite fn_lookup_insert_ne by congruence. by apply H2.
    + done.
    + destruct (ApplyAll c0 _ w0) as [[c w] errs]. destruct H4 as [-> ->]. exists e. by rewrite fn_lookup_insert.
  - destruct (σ.(coord).(next) σ.(coord).(state) e) as [[ns fx] [err|]] eqn:Hn; injection Hstep as <-;
      apply (inv_inside c0 progs w0 σ i _ σ.(coord) σ.(world) e); rewrite ?Hat; try done;
      intros r ->; unfold Apply; simpl; by rewrite Hn.
  - injection Hstep as <-. apply (inv_inside c0 progs w0 σ i _ _ _ e); rewrite ?Hat; done.
  - injection Hstep as <-. apply (inv_inside c0 progs w0 σ i _ σ.(coord) σ.(world) e); rewrite ?Hat; done.
  - injection Hstep as <-. apply (inv_inside c0 progs w0 σ i _ _ _ e); rewrite ?Hat; done.
  - injection Hstep as <-.
    assert (Hall : ApplyAll c0 (σ.(history) ++ [(i, e)]).*2 w0 =
      (σ.(coord), σ.(world), (ApplyAll c0 σ.(history).*2 w0).2 ++ [err])).
    { rewrite fmap_app. simpl. rewrite ApplyAll_snoc. destruct (ApplyAll c0 _ w0) as [[c w] errs]. rewrite Hin in H4.
      destruct H4 as (e' & He' & Hr). rewrite Hat in He', Hr. injection He' as <-. simpl in Hr. by rewrite Hr. }
    split; simpl; rewrite ?Hall; try done.
    + intros j. rewrite of_goroutine_snoc, <-app_assoc. specialize (H1 j).
      case_decide as Hij; [subst; rewrite fn_lookup_insert, Hat in *|rewrite fn_lookup_insert_ne by done]; exact H1.
    + intros j _. destruct (decide (i = j)) as [->|Hij]; [by rewrite fn_lookup_insert|].
      rewrite fn_lookup_insert_ne by done. apply H2. rewrite Hin. congruence.
    + intros j. rewrite fmap_app. simpl. rewrite zip_with_app by (by rewrite ApplyAll_length, !length_fmap).
      change (zip [i] [err]) with [(i, err)].
      rewrite of_goroutine_snoc, <-H3. destruct (decide (i = j)) as [->|Hij]; [by rewrite fn_lookup_insert|].
      by rewrite fn_lookup_insert_ne, app_nil_r.
Qed.

Lemma sys_inv_reachable c0 progs w0 σ : rtc sys_step (sys_init c0 progs w0) σ → sys_inv c0 progs w0 σ.
Proof.
  intros H. eapply (rtc_invariant sys_step (sys_inv c0 progs w0)); eauto using sys_inv_init, sys_inv_step.
Qed.

(** A schedule: which goroutine takes each step. *)
Lemma schedule_reachable σ (l : list nat) σ' : foldM (λ σ i, step i σ) σ l = Some σ' → rtc sys_step σ σ'.
Proof.
  revert σ. induction l as [|i l IH]; intros σ; simpl; [intros [= ->]; apply rtc_refl|].
  destruct (step i σ) as [σ1|] eqn:H1; [|done]. intros H. eapply rtc_l; [by exists i|by apply IH].
Qed.
End Goroutines.
Arguments phase : clear implicits.
Arguments Sys : clear implicits.

(** ** Theorems *)

(** The atomic calls, as a pure run whose effects are performed. *)
Lemma ApplyAll_run {S E F W} (c : Coordinator S E F W) es w :
  (ApplyAll c es w).1 =
    (MkCoordinator (run c.(next) c.(state) es).1 c.(next) c.(sink),
     perform_all c.(sink) (run c.(next) c.(state) es).2 w).
Proof.
  revert c w. induction es as [|e es IH]; intros [s nx sk] w; [done|].
  simpl. unfold Apply, step1; simpl.
  destruct (nx s e) as [[ns fx] [err|]].
  - specialize (IH (MkCoordinator s nx sk) w). destruct (ApplyAll _ es w) as [[c' w'] errs]. simpl in *.
    rewrite IH. by destruct (run nx s es).
  - specialize (IH (MkCoordinator ns nx sk) (perform_all sk fx w)).
    destruct (ApplyAll _ es _) as [[c' w'] errs]. simpl in *.
    rewrite IH. destruct (run nx ns es) as [s2 fx2]; simpl. unfold perform_all. by rewrite foldl_app.
Qed.

(** C33. The mutex makes concurrent callers of [Apply] behave as one.  Goroutines
    that share a [New] coordinator run the body of [Apply] statement by
    statement, in any interleaving.  Whenever none of them holds the mutex, the
    coordinator and the world of its sink are those of applying, one after the
    other, the calls that have returned; these are a merge of what each
    goroutine asked for, in its own order (its calls that have returned, then
    what it has left, are its program); and every call returned to its goroutine
    what it returns in that sequence, nil or an error. *)
Theorem coordinator_linearizable {S E F W} (s0 : S) (nx : TransitionFunc S E F) (sk : Sink F W) progs w0 σ :
  rtc sys_step (sys_init (New s0 nx sk) progs w0) σ → σ.(mu) = None →
  ∃ errs, ApplyAll (New s0 nx sk) σ.(history).*2 w0 = (σ.(coord), σ.(world), errs) ∧
    ∀ i, of_goroutine i σ.(history) ++ σ.(todo) i = progs i ∧
         σ.(returned) i = of_goroutine i (zip σ.(history).*1 errs).
Proof.
  intros Hreach Hmu. apply sys_inv_reachable in Hreach as [H1 H2 H3 H4]. rewrite Hmu in H4.
  destruct (ApplyAll (New s0 nx sk) _ w0) as [[c w] errs]. destruct H4 as [-> ->].
  exists errs. split; [done|]. intros i. split; [|apply H3].
  specialize (H1 i). by rewrite H2 in H1 by by rewrite Hmu.
Qed.

(** No deadlock: in every reachable situation, as long as a goroutine has
    an event left or holds the mutex, some goroutine can take a step. *)
Theorem coordinator_progress {S E F W} (c : Coordinator S E F W) progs w (σ : Sys S E F W) i :
  rtc sys_step (sys_init c progs w) σ →
  σ.(todo) i ≠ [] ∨ σ.(mu) = Some i →
  ∃ σ', sys_step σ σ'.
Proof.
  intros Hreach Hwork. apply sys_inv_reachable in Hreach as [_ Hout _ Hst].
  destruct (ApplyAll c _ w) as [[c' w'] errs]. destruct (σ.(mu)) as [j|] eqn:Hmu.
  - destruct Hst as (e & He & _). destruct (σ.(at_) j) as [|e'|e' ns fx|e' [|f fx]|e' err] eqn:Hat; [done|..];
      unfold sys_step, step; [|eexists; exists j; by rewrite Hat..].
    destruct (σ.(coord).(next) σ.(coord).(state) e') as [[ns fx] [err|]] eqn:Hn;
      eexists; exists j; by rewrite Hat, Hn.
  - destruct Hwork as [Hwork|]; [|done]. destruct (σ.(todo) i) as [|e es] eqn:Hi; [done|].
    eexists; exists i. unfold step. by rewrite (Hout i), Hmu, Hi by done.
Qed.

(** ** Witnesses *)

(** Two goroutines add to a counter that logs what it held; a negative number
    is refused. *)
Definition demo_next : TransitionFunc Z Z Z :=
  λ s e, if (e <? 0)%Z then (s, [], Some "unhandled") else ((s + e)%Z, [s; e], None).

Definition demo_sink : Sink Z (list Z) := λ f w, w ++ [f].

Definition demo_progs (i : nat) : list Z := match i with 0 => [5%Z; (-1)%Z] | 1 => [7%Z] | _ => [] end.

Definition demo_start : Sys Z Z Z (list Z) := sys_init (New 0%Z demo_next demo_sink) demo_progs [].

(** Goroutine 1 goes first; goroutine 0 follows with both of its calls. *)
Definition demo_schedule : list nat := [1; 1; 1; 1; 1; 1; 1; 0; 0; 0; 0; 0; 0; 0; 0; 0; 0].

Definition demo_end : Sys Z Z Z (list Z) := default demo_start (foldM (λ σ i, step i σ) demo_start demo_schedule).

Lemma demo_end_reachable : rtc sys_step demo_start demo_end.
Proof. apply (schedule_reachable _ demo_schedule). vm_compute. reflexivity. Qed.

Lemma coordinator_linearizable_witness :
  demo_end.(history) = [(1, 7%Z); (0, 5%Z); (0, (-1)%Z)] ∧
  ApplyAll (New 0%Z demo_next demo_sink) [7%Z; 5%Z; (-1)%Z] [] =
    (demo_end.(coord), [0%Z; 7%Z; 7%Z; 5%Z], [None; None; Some "unhandled"]) ∧
  demo_end.(returned) 0 = [None; Some "unhandled"].
Proof.
  destruct (coordinator_linearizable 0%Z demo_next demo_sink demo_progs [] demo_end demo_end_reachable eq_refl)
    as (errs & H1 & H2).
  assert (errs = [None; None; Some "unhandled"]) as -> by (vm_compute in H1; injection H1 as <-; reflexivity).
  split; [vm_compute; reflexivity|]. split; [exact H1|]. rewrite (proj2 (H2 0)). vm_compute. reflexivity.
Defined.

Definition demo_held : Sys Z Z Z (list Z) := default demo_start (foldM (λ σ i, step i σ) demo_start [0; 0]).

Lemma coordinator_progress_witness : ∃ σ', sys_step demo_held σ'.
Proof.
  apply (coordinator_progress (New 0%Z demo_next demo_sink) demo_progs [] demo_held 1).
  - apply (schedule_reachable _ [0; 0]). vm_compute. reflexivity.
  - left. discriminate.
Defined.
