(* ===== verification/RespCoord.v ===== *)
(** * RespCoord: response coordination (machine M3)

    Models [core/http/endpoints/openai/respcoord/respcoord.go]: the sealed
    sums [State], [Event], [Effect], the transition function [Next] and the
    coordinator [New].  A Go interface value can also be nil; the constructors
    [NilState] and [NilEvent] stand for it, and they are what the final error
    return of [Next] is for. *)
From S2P Require Import Prelude Coordinator.

(** uint64 ids: the caller mints them. *)
Abbreviation ResponseID := N.

(** [SourceOther] is any other value of the Go int. *)
Inductive Source := SourceClient | SourceVAD | SourceOther (n : Z).

Definition Source_String (s : Source) : string :=
  match s with
  | SourceClient => "client"
  | SourceVAD => "vad"
  | SourceOther n => "Source(" +:+ pretty n +:+ ")"
  end.

Inductive Status := StatusCompleted | StatusCancelled | StatusOther (n : Z).

Definition Status_String (s : Status) : string :=
  match s with
  | StatusCompleted => "completed"
  | StatusCancelled => "cancelled"
  | StatusOther n => "Status(" +:+ pretty n +:+ ")"
  end.

Inductive State :=
| Idle
| Active (ID : ResponseID)
| Terminated
| NilState.

(** What [%s] prints for the value. *)
Definition State_String (s : State) : string :=
  match s with
  | Idle => "Idle"
  | Active i => "Active(" +:+ pretty i +:+ ")"
  | Terminated => "Terminated"
  | NilState => "%!s(<nil>)"
  end.

Inductive Event :=
| Start (ID : ResponseID) (src : Source) (IfIdle : bool)
| Finished (ID : ResponseID)
| Cancel (src : Source)
| Shutdown
| NilEvent.

Definition Event_String (e : Event) : string :=
  match e with
  | Start i s _ => "Start(" +:+ pretty i +:+ "," +:+ Source_String s +:+ ")"
  | Finished i => "Finished(" +:+ pretty i +:+ ")"
  | Cancel s => "Cancel(" +:+ Source_String s +:+ ")"
  | Shutdown => "Shutdown"
  | NilEvent => "%!s(<nil>)"
  end.

Inductive Effect :=
| CancelResponse (ID : ResponseID)
| StartResponse (ID : ResponseID)
| SkipResponse (ID : ResponseID)
| EmitTerminal (ID : ResponseID) (st : Status).

Definition Effect_String (e : Effect) : string :=
  match e with
  | CancelResponse i => "CancelResponse(" +:+ pretty i +:+ ")"
  | StartResponse i => "StartResponse(" +:+ pretty i +:+ ")"
  | SkipResponse i => "SkipResponse(" +:+ pretty i +:+ ")"
  | EmitTerminal i s => "EmitTerminal(" +:+ pretty i +:+ "," +:+ Status_String s +:+ ")"
  end.

Definition unhandled (s : State) (e : Event) : State * list Effect * option string :=
  (s, [], Some ("respcoord: unhandled transition " +:+ State_String s +:+ " <- " +:+ Event_String e)).

Definition Next (s : State) (e : Event) : State * list Effect * option string :=
  match s with
  | Idle =>
      match e with
      | Start i _ _ => (Active i, [StartResponse i], None)
      | Cancel _ => (Idle, [], None)
      | Finished _ => (Idle, [], None)
      | Shutdown => (Terminated, [], None)
      | NilEvent => unhandled s e
      end
  | Active cur =>
      match e with
      | Start i _ IfIdle =>
          if IfIdle then (Active cur, [SkipResponse i], None)
          else (Active i, [CancelResponse cur; EmitTerminal cur StatusCancelled; StartResponse i], None)
      | Finished i =>
          if (i =? cur)%N then (Idle, [EmitTerminal cur StatusCompleted], None)
          else (Active cur, [], None)
      | Cancel _ => (Idle, [CancelResponse cur; EmitTerminal cur StatusCancelled], None)
      | Shutdown => (Terminated, [CancelResponse cur; EmitTerminal cur StatusCancelled], None)
      | NilEvent => unhandled s e
      end
  | Terminated =>
      match e with
      | Start _ _ _ | Finished _ | Cancel _ | Shutdown => (Terminated, [], None)
      | NilEvent => unhandled s e
      end
  | NilState => unhandled s e
  end.

Definition New {W} (sk : Sink Effect W) : Coordinator State Event Effect W :=
  Coordinator.New Idle Next sk.

(** ** Specification: what the rest of the session may see

    The monitor keeps the one live response.  It refuses a start while one is
    live, a terminal or a cancel for anything but the live one, and a skip
    while none is live. *)
Definition live_monitor (live : option ResponseID) (f : Effect) : option (option ResponseID) :=
  match f, live with
  | StartResponse i, None => Some (Some i)
  | EmitTerminal i _, Some j => if (i =? j)%N then Some None else None
  | CancelResponse i, Some j => if (i =? j)%N then Some (Some j) else None
  | SkipResponse _, Some j => Some (Some j)
  | _, _ => None
  end.

Definition live_of (s : State) : option ResponseID :=
  match s with Active i => Some i | _ => None end.

(** Ids the events of a list ask to start. *)
Definition start_ids (es : list Event) : list ResponseID :=
  omap (λ e, match e with Start i _ _ => Some i | _ => None end) es.

Definition started (fx : list Effect) : list ResponseID :=
  omap (λ f, match f with StartResponse i => Some i | _ => None end) fx.

Definition terminals (fx : list Effect) : list ResponseID :=
  omap (λ f, match f with EmitTerminal i _ => Some i | _ => None end) fx.

(** ** Lemmas *)

Lemma started_app fx1 fx2 : started (fx1 ++ fx2) = started fx1 ++ started fx2.
Proof. apply omap_app. Qed.

Lemma terminals_app fx1 fx2 : terminals (fx1 ++ fx2) = terminals fx1 ++ terminals fx2.
Proof. apply omap_app. Qed.

Lemma resp_step_monitor s e :
  foldM live_monitor (live_of s) (step1 Next s e).2 = Some (live_of (step1 Next s e).1).
Proof.
  unfold step1. destruct s as [|i| |], e as [j src []|j| | |]; simpl; try done;
    rewrite ?N.eqb_refl; simpl; rewrite ?N.eqb_refl; try done.
  all: by destruct (j =? i)%N; simpl; rewrite ?N.eqb_refl.
Qed.

(** An accepted trace starts and ends responses alternately. *)
Lemma monitor_alternates live fx live' :
  foldM live_monitor live fx = Some live' →
  option_list live ++ started fx = terminals fx ++ option_list live'.
Proof.
  revert live. induction fx as [|f fx IH]; intros live H; simpl in *.
  - simplify_eq. by rewrite app_nil_r.
  - destruct (live_monitor live f) as [m|] eqn:Hm; simpl in H; [|done].
    specialize (IH m H). destruct f, live as [j|]; simpl in *; try done;
      try (destruct (N.eqb_spec ID j) as [->|]; [|done]); simplify_eq/=; try done.
    by rewrite IH.
Qed.

Lemma started_sublist_start_ids s es : sublist (started (run Next s es).2) (start_ids es).
Proof.
  revert s. induction es as [|e es IH]; intros s; simpl; [constructor|].
  destruct (step1 Next s e) as [s1 fx1] eqn:H1. specialize (IH s1).
  destruct (run Next s1 es) as [s2 fx2]; simpl in *. rewrite started_app.
  unfold step1 in H1. destruct s, e as [? ? []| | | |]; simplify_eq/=;
    try (by repeat constructor); try (destruct (_ =? _)%N; simplify_eq/=);
    try (by repeat constructor).
Qed.

Lemma terminated_run es : run Next Terminated es = (Terminated, []).
Proof.
  induction es as [|e es IH]; simpl; [done|].
  destruct e; unfold step1; simpl; by rewrite IH.
Qed.

Lemma shutdown_terminates s : s ≠ NilState → (step1 Next s Shutdown).1 = Terminated.
Proof. by destruct s. Qed.

Lemma run_not_nil s es : s ≠ NilState → (run Next s es).1 ≠ NilState.
Proof.
  apply (run_invariant Next (λ s, s ≠ NilState)). intros s' e Hs. unfold step1.
  destruct s', e as [? ? []| | | |]; simpl; try done. by destruct (_ =? _)%N.
Qed.

Lemma resp_run_accepted es :
  foldM live_monitor None (run Next Idle es).2 = Some (live_of (run Next Idle es).1).
Proof.
  destruct (run_monitor Next live_monitor (λ s m, m = live_of s) Idle None es) as (m & Hm & ->);
    [|done|done].
  intros s m e ->. eauto using resp_step_monitor.
Qed.

Lemma run_started es :
  started (run Next Idle es).2 =
    terminals (run Next Idle es).2 ++ option_list (live_of (run Next Idle es).1).
Proof. apply (monitor_alternates None), resp_run_accepted. Qed.

(** ** Theorems *)

(** At every instant of every run of the response coordinator at most one
    response is live: the whole effect trace is accepted by the one-live-response
    monitor, which ends with exactly the active response of the state. *)
Theorem resp_one_live es :
  foldM live_monitor None (run Next Idle es).2 = Some (live_of (run Next Idle es).1).
Proof. apply resp_run_accepted. Qed.

(** Exactly one terminal per started response: with fresh ids, the
    responses started are those that got their terminal, in the same order and
    each once, followed by the one still active, if any. *)
Theorem resp_one_terminal es :
  NoDup (start_ids es) →
  started (run Next Idle es).2 =
    terminals (run Next Idle es).2 ++ option_list (live_of (run Next Idle es).1) ∧
  NoDup (terminals (run Next Idle es).2) ∧
  NoDup (started (run Next Idle es).2).
Proof.
  intros Hnd. pose proof (run_started es) as Heq.
  assert (NoDup (started (run Next Idle es).2)) as Hst.
  { eapply sublist_NoDup; [exact Hnd|apply started_sublist_start_ids]. }
  split_and!; [done| |done]. rewrite Heq in Hst. by apply list.NoDup_app in Hst as [? _].
Qed.

Definition wit_events : list Event :=
  [Start 1%N SourceClient false; Start 2%N SourceVAD true; Start 3%N SourceVAD false; Finished 1%N;
   Cancel SourceVAD; Start 4%N SourceClient false].

Lemma resp_one_terminal_witness :
  NoDup (start_ids wit_events) ∧ terminals (run Next Idle wit_events).2 = [1; 3]%N ∧
  NoDup (terminals (run Next Idle wit_events).2).
Proof.
  assert (NoDup (start_ids wit_events)) as H by (by apply (bool_decide_unpack _); vm_compute).
  split; [exact H|]. split; [reflexivity|]. apply (resp_one_terminal wit_events H).
Defined.

(** No resurrection: a shutdown from any state of a session leaves no live
    response, every response started so far has its terminal, and no later
    event has any effect. *)
Theorem resp_shutdown_final es1 es2 :
  run Next (run Next Idle (es1 ++ [Shutdown])).1 es2 = (Terminated, []) ∧
  started (run Next Idle (es1 ++ Shutdown :: es2)).2 =
    terminals (run Next Idle (es1 ++ Shutdown :: es2)).2.
Proof.
  assert ((run Next Idle (es1 ++ [Shutdown])).1 = Terminated) as Hterm.
  { rewrite run_snoc. pose proof (run_not_nil Idle es1) as Hn.
    destruct (run Next Idle es1) as [s1 fx1]; simpl in *.
    pose proof (shutdown_terminates s1 (Hn ltac:(done))).
    by destruct (step1 Next s1 Shutdown). }
  split; [rewrite Hterm; apply terminated_run|].
  rewrite run_started.
  replace (es1 ++ Shutdown :: es2) with ((es1 ++ [Shutdown]) ++ es2) by (by rewrite <-app_assoc).
  rewrite run_app. destruct (run Next Idle (es1 ++ [Shutdown])) as [s1 fx1]; simpl in *; subst s1.
  rewrite terminated_run. simpl. by rewrite app_nil_r.
Qed.
