(* ===== verification/TurnCoord.v ===== *)
(** * TurnCoord: turn detection (machine M2)

    Models [core/http/endpoints/openai/turncoord/turncoord.go].  As in
    [RespCoord], [NilState] and [NilEvent] are the nil interface values. *)
From S2P Require Import Prelude Coordinator.

Definition TurnID : Type := string.

Inductive AbortReason := AbortNoSpeech | AbortTeardown | AbortOther (n : Z).

Definition AbortReason_String (r : AbortReason) : string :=
  match r with
  | AbortNoSpeech => "no_speech"
  | AbortTeardown => "teardown"
  | AbortOther n => "AbortReason(" +:+ pretty n +:+ ")"
  end.

Inductive State :=
| Idle
| Speaking (Turn : TurnID)
| NilState.

Definition State_String (s : State) : string :=
  match s with
  | Idle => "Idle"
  | Speaking t => "Speaking(" +:+ t +:+ ")"
  | NilState => "%!s(<nil>)"
  end.

Inductive Event :=
| Onset (Turn : TurnID)
| Silence
| Abort (Reason : AbortReason)
| NilEvent.

Definition Event_String (e : Event) : string :=
  match e with
  | Onset t => "Onset(" +:+ t +:+ ")"
  | Silence => "Silence"
  | Abort r => "Abort(" +:+ AbortReason_String r +:+ ")"
  | NilEvent => "%!s(<nil>)"
  end.

Inductive Effect :=
| BargeIn
| OpenTurn (Turn : TurnID)
| EmitSpeechStarted
| EmitSpeechStopped
| CommitTurn (Turn : TurnID)
| DiscardTurn (Turn : TurnID).

Definition Effect_String (e : Effect) : string :=
  match e with
  | BargeIn => "BargeIn"
  | OpenTurn t => "OpenTurn(" +:+ t +:+ ")"
  | EmitSpeechStarted => "EmitSpeechStarted"
  | EmitSpeechStopped => "EmitSpeechStopped"
  | CommitTurn t => "CommitTurn(" +:+ t +:+ ")"
  | DiscardTurn t => "DiscardTurn(" +:+ t +:+ ")"
  end.

Definition unhandled (s : State) (e : Event) : State * list Effect * option string :=
  (s, [], Some ("turncoord: unhandled transition " +:+ State_String s +:+ " <- " +:+ Event_String e)).

Definition Next (s : State) (e : Event) : State * list Effect * option string :=
  match s with
  | Idle =>
      match e with
      | Onset t => (Speaking t, [OpenTurn t; BargeIn; EmitSpeechStarted], None)
      | Silence => (Idle, [], None)
      | Abort _ => (Idle, [], None)
      | NilEvent => unhandled s e
      end
  | Speaking cur =>
      match e with
      | Onset _ => (Speaking cur, [], None)
      | Silence => (Idle, [EmitSpeechStopped; CommitTurn cur], None)
      | Abort _ => (Idle, [DiscardTurn cur], None)
      | NilEvent => unhandled s e
      end
  | NilState => unhandled s e
  end.

Definition New {W} (sk : Sink Effect W) : Coordinator State Event Effect W :=
  Coordinator.New Idle Next sk.

(** ** Specification

    What a client hears of one turn, as an automaton: a turn is opened, then
    the previous response is barged in on, then [speech_started] is sent; it
    ends either by [speech_stopped] followed by the commit of the same turn, or
    by a discard of the same turn. *)
Inductive TurnPhase :=
| NoTurn
| Opened (t : TurnID)      (* opened, barge-in not done *)
| Barged (t : TurnID)      (* barge-in done, speech_started not sent *)
| Talking (t : TurnID)     (* speech_started sent *)
| Stopped (t : TurnID).    (* speech_stopped sent, commit due *)

Definition turn_monitor (p : TurnPhase) (f : Effect) : option TurnPhase :=
  match p, f with
  | NoTurn, OpenTurn t => Some (Opened t)
  | Opened t, BargeIn => Some (Barged t)
  | Barged t, EmitSpeechStarted => Some (Talking t)
  | Talking t, EmitSpeechStopped => Some (Stopped t)
  | Stopped t, CommitTurn t' => if decide (t = t') then Some NoTurn else None
  | Talking t, DiscardTurn t' => if decide (t = t') then Some NoTurn else None
  | _, _ => None
  end.

Definition phase_of (s : State) : TurnPhase :=
  match s with Speaking t => Talking t | _ => NoTurn end.

(** Turns opened, and turns ended (committed or discarded), in order. *)
Definition opened (fx : list Effect) : list TurnID :=
  omap (λ f, match f with OpenTurn t => Some t | _ => None end) fx.

Definition ended (fx : list Effect) : list TurnID :=
  omap (λ f, match f with CommitTurn t | DiscardTurn t => Some t | _ => None end) fx.

Definition open_turn (p : TurnPhase) : option TurnID :=
  match p with NoTurn => None | Opened t | Barged t | Talking t | Stopped t => Some t end.

(** ** Lemmas *)

Lemma turn_step_monitor s e :
  foldM turn_monitor (phase_of s) (step1 Next s e).2 = Some (phase_of (step1 Next s e).1).
Proof.
  unfold step1. destruct s, e; simpl; try done; by rewrite decide_True.
Qed.

Lemma turn_run_accepted es :
  foldM turn_monitor NoTurn (run Next Idle es).2 = Some (phase_of (run Next Idle es).1).
Proof.
  destruct (run_monitor Next turn_monitor (λ s m, m = phase_of s) Idle NoTurn es) as (m & Hm & ->);
    [|done|done].
  intros s m e ->. eauto using turn_step_monitor.
Qed.

Lemma monitor_opened_ended p fx p' :
  foldM turn_monitor p fx = Some p' →
  option_list (open_turn p) ++ opened fx = ended fx ++ option_list (open_turn p').
Proof.
  revert p. induction fx as [|f fx IH]; intros p H; simpl in *.
  - simplify_eq. by rewrite app_nil_r.
  - destruct (turn_monitor p f) as [m|] eqn:Hm; simpl in H; [|done].
    specialize (IH m H). destruct p, f; simplify_eq/=; try done; try case_decide; simplify_eq/=;
      by rewrite IH.
Qed.

(** ** Theorems *)

(** Speech and the open turn cannot fall out of step: every run of the turn
    coordinator speaks the per-turn protocol (open, barge-in, speech started,
    then stop and commit, or discard, of that same turn), and it ends in the
    phase the state says. *)
Theorem turn_protocol es :
  foldM turn_monitor NoTurn (run Next Idle es).2 = Some (phase_of (run Next Idle es).1).
Proof. apply turn_run_accepted. Qed.

(** Every opened turn is committed or discarded exactly once, in the order
    of opening; only the turn the state is speaking in is still open. *)
Theorem turn_ended_once es :
  opened (run Next Idle es).2 =
    ended (run Next Idle es).2 ++ option_list (open_turn (phase_of (run Next Idle es).1)).
Proof. apply (monitor_opened_ended NoTurn), turn_run_accepted. Qed.
