(* ===== verification/ConnCoord.v ===== *)
(** * ConnCoord: the connection lifecycle (machine M1)

    Models [core/http/endpoints/openai/conncoord/conncoord.go].  [NilState]
    and [NilEvent] are the nil interface values. *)
From S2P Require Import Prelude Coordinator.

Inductive State :=
| Live (VADRunning : bool)
| Torn
| NilState.

Definition show_bool (b : bool) : string := if b then "true" else "false".

Definition State_String (s : State) : string :=
  match s with
  | Live b => "Live(vad=" +:+ show_bool b +:+ ")"
  | Torn => "Torn"
  | NilState => "%!s(<nil>)"
  end.

Inductive Event :=
| SetVAD (Active : bool)
| Close
| NilEvent.

Definition Event_String (e : Event) : string :=
  match e with
  | SetVAD b => "SetVAD(" +:+ show_bool b +:+ ")"
  | Close => "Close"
  | NilEvent => "%!s(<nil>)"
  end.

Inductive Effect := StartVAD | StopVAD | Teardown.

Definition Effect_String (e : Effect) : string :=
  match e with
  | StartVAD => "StartVAD"
  | StopVAD => "StopVAD"
  | Teardown => "Teardown"
  end.

Definition unhandled (s : State) (e : Event) : State * list Effect * option string :=
  (s, [], Some ("conncoord: unhandled transition " +:+ State_String s +:+ " <- " +:+ Event_String e)).

Definition Next (s : State) (e : Event) : State * list Effect * option string :=
  match s with
  | Live running =>
      match e with
      | SetVAD active =>
          if active && negb running then (Live true, [StartVAD], None)
          else if negb active && running then (Live false, [StopVAD], None)
          else (Live running, [], None)
      | Close =>
          if running then (Torn, [StopVAD; Teardown], None)
          else (Torn, [Teardown], None)
      | NilEvent => unhandled s e
      end
  | Torn =>
      match e with
      | SetVAD _ => (Torn, [], None)
      | Close => (Torn, [], None)
      | NilEvent => unhandled s e
      end
  | NilState => unhandled s e
  end.

Definition New {W} (sk : Sink Effect W) : Coordinator State Event Effect W :=
  Coordinator.New (Live false) Next sk.

(** ** Specification

    The done channel of the VAD goroutine and the teardown, as an automaton:
    a start makes a channel only when there is none, a stop closes an existing
    one, teardown comes once with no VAD running, and nothing follows it. *)
Inductive ConnPhase := VadOff | VadOn | Gone.

#[export] Instance ConnPhase_eq_dec : EqDecision ConnPhase.
Proof. solve_decision. Defined.

Definition conn_monitor (p : ConnPhase) (f : Effect) : option ConnPhase :=
  match p, f with
  | VadOff, StartVAD => Some VadOn
  | VadOn, StopVAD => Some VadOff
  | VadOff, Teardown => Some Gone
  | _, _ => None
  end.

Definition phase_of (s : State) : ConnPhase :=
  match s with Live true => VadOn | Live false => VadOff | _ => Gone end.

#[export] Instance Effect_eq_dec : EqDecision Effect.
Proof. solve_decision. Defined.

Definition teardowns (fx : list Effect) : nat :=
  length (filter (λ f, f = Teardown) fx).

(** ** Lemmas *)

Lemma conn_step_monitor s e :
  foldM conn_monitor (phase_of s) (step1 Next s e).2 = Some (phase_of (step1 Next s e).1).
Proof. unfold step1. by destruct s as [[]| |], e as [[]| |]. Qed.

Lemma conn_run_accepted es :
  foldM conn_monitor VadOff (run Next (Live false) es).2 = Some (phase_of (run Next (Live false) es).1).
Proof.
  destruct (run_monitor Next conn_monitor (λ s m, m = phase_of s) (Live false) VadOff es)
    as (m & Hm & ->); [|done|done].
  intros s m e ->. eauto using conn_step_monitor.
Qed.

Lemma torn_run es : run Next Torn es = (Torn, []).
Proof. induction es as [|[[]| |] es IH]; simpl; [done|..]; unfold step1; simpl; by rewrite IH. Qed.

Lemma monitor_teardowns p fx p' :
  foldM conn_monitor p fx = Some p' →
  (teardowns fx + (if decide (p = Gone) then 1 else 0) = if decide (p' = Gone) then 1 else 0)%nat.
Proof.
  revert p. induction fx as [|f fx IH]; intros p H; simpl in *; [by simplify_eq|].
  destruct (conn_monitor p f) as [m|] eqn:Hm; simpl in H; [|done].
  specialize (IH m H). unfold teardowns in *. rewrite filter_cons.
  destruct p, f; simplify_eq/=; lia.
Qed.

(** ** Theorems *)

(** Over the whole life of a connection the VAD goroutine is started only
    when none runs and stopped only when one runs, teardown comes after the
    last stop and nothing follows it; the state says which phase this is. *)
Theorem conn_vad_protocol es :
  foldM conn_monitor VadOff (run Next (Live false) es).2 =
    Some (phase_of (run Next (Live false) es).1).
Proof. apply conn_run_accepted. Qed.

(** Teardown runs exactly once when the session was closed, however often
    and on however many exit paths, and not at all otherwise; after the first
    close no event has an effect. *)
Theorem conn_teardown_once es es' :
  teardowns (run Next (Live false) (es ++ Close :: es')).2 = 1%nat ∧
  run Next (run Next (Live false) (es ++ [Close])).1 es' = (Torn, []).
Proof.
  assert ((run Next (Live false) (es ++ [Close])).1 = Torn) as Htorn.
  { rewrite run_snoc.
    assert ((run Next (Live false) es).1 ≠ NilState) as Hn.
    { apply (run_invariant Next (λ s, s ≠ NilState)); [|done]. clear.
      intros s e Hs. unfold step1. by destruct s as [[]| |], e as [[]| |]. }
    destruct (run Next (Live false) es) as [s1 fx1]; simpl in *. by destruct s1 as [[]| |]. }
  split; [|rewrite Htorn; apply torn_run].
  pose proof (conn_run_accepted (es ++ Close :: es')) as Hacc.
  apply monitor_teardowns in Hacc. simpl in Hacc. rewrite Nat.add_0_r in Hacc. rewrite Hacc.
  replace (es ++ Close :: es') with ((es ++ [Close]) ++ es') by (by rewrite <-app_assoc).
  rewrite run_app. destruct (run Next (Live false) (es ++ [Close])) as [s1 fx1]; simpl in *.
  subst s1. rewrite torn_run. done.
Qed.
