(* ===== verification/CompactCoord.v ===== *)
(** * CompactCoord: conversation compaction (machine M4)

    Models [core/http/endpoints/openai/compactcoord/compactcoord.go].
    [NilState] and [NilEvent] are the nil interface values. *)
From S2P Require Import Prelude Coordinator.

Inductive State := Idle | Running | Terminated | NilState.

Definition State_String (s : State) : string :=
  match s with
  | Idle => "Idle"
  | Running => "Running"
  | Terminated => "Terminated"
  | NilState => "%!s(<nil>)"
  end.

Inductive Event := Trigger | Finished | Shutdown | NilEvent.

Definition Event_String (e : Event) : string :=
  match e with
  | Trigger => "Trigger"
  | Finished => "Finished"
  | Shutdown => "Shutdown"
  | NilEvent => "%!s(<nil>)"
  end.

Inductive Effect := StartCompaction.

Definition Effect_String (e : Effect) : string :=
  match e with StartCompaction => "StartCompaction" end.

Definition unhandled (s : State) (e : Event) : State * list Effect * option string :=
  (s, [], Some ("compactcoord: unhandled transition " +:+ State_String s +:+ " <- " +:+ Event_String e)).

Definition Next (s : State) (e : Event) : State * list Effect * option string :=
  match s with
  | Idle =>
      match e with
      | Trigger => (Running, [StartCompaction], None)
      | Finished => (Idle, [], None)
      | Shutdown => (Terminated, [], None)
      | NilEvent => unhandled s e
      end
  | Running =>
      match e with
      | Trigger => (Running, [], None)
      | Finished => (Idle, [], None)
      | Shutdown => (Terminated, [], None)
      | NilEvent => unhandled s e
      end
  | Terminated =>
      match e with
      | Trigger | Finished | Shutdown => (Terminated, [], None)
      | NilEvent => unhandled s e
      end
  | NilState => unhandled s e
  end.

Definition New {W} (sk : Sink Effect W) : Coordinator State Event Effect W :=
  Coordinator.New Idle Next sk.

(** ** Specification

    The events and the effects of a run, interleaved in the order the
    coordinator sees and performs them, judged by an automaton: a compaction
    starts only when none is in flight, and never after a shutdown. *)
Inductive Phase := NoneRunning | OneRunning | Ended.

Definition flight_monitor (p : Phase) (x : Event + Effect) : option Phase :=
  match p, x with
  | NoneRunning, inr StartCompaction => Some OneRunning
  | OneRunning, inl Finished => Some NoneRunning
  | _, inl Shutdown => Some Ended
  | p, inl _ => Some p
  | _, inr StartCompaction => None
  end.

Fixpoint history (s : State) (es : list Event) : list (Event + Effect) :=
  match es with
  | [] => []
  | e :: es => inl e :: (inr <$> (step1 Next s e).2) ++ history (step1 Next s e).1 es
  end.

Definition phase_of (s : State) : Phase :=
  match s with Idle => NoneRunning | Running => OneRunning | _ => Ended end.

(** ** Lemmas *)

Lemma step_flight s e :
  s ≠ NilState →
  foldM flight_monitor (phase_of s) (inl e :: (inr <$> (step1 Next s e).2)) =
    Some (phase_of (step1 Next s e).1).
Proof. intros ?. by destruct s, e. Qed.

Lemma step_not_nil s e : s ≠ NilState → (step1 Next s e).1 ≠ NilState.
Proof. by destruct s, e. Qed.

Lemma history_accepted s es :
  s ≠ NilState →
  foldM flight_monitor (phase_of s) (history s es) = Some (phase_of (run Next s es).1).
Proof.
  revert s. induction es as [|e es IH]; intros s Hs; [done|].
  pose proof (step_flight s e Hs) as Hstep. pose proof (step_not_nil s e Hs) as Hn.
  simpl run. simpl history. destruct (step1 Next s e) as [s1 fx1]; simpl fst in *; simpl snd in *.
  specialize (IH s1 Hn). destruct (run Next s1 es) as [s2 fx2]; simpl fst in *.
  rewrite app_comm_cons. by eapply foldM_app_Some.
Qed.

(** ** Theorems *)

(** Single flight: whatever the order of triggers, completions and the
    shutdown, a compaction is started only while none is in flight and never
    after the shutdown. *)
Theorem compact_single_flight es :
  foldM flight_monitor NoneRunning (history Idle es) = Some (phase_of (run Next Idle es).1).
Proof. by apply (history_accepted Idle). Qed.
