(* ===== verification/TTSCoord.v ===== *)
(** * TTSCoord: the TTS pipeline lifecycle (machine M5)

    Models [core/http/endpoints/openai/ttscoord/ttscoord.go].  [NilState] and
    [NilEvent] are the nil interface values. *)
From S2P Require Import Prelude Coordinator.

Inductive State := Open | Closing | Closed | NilState.

Definition State_String (s : State) : string :=
  match s with
  | Open => "Open"
  | Closing => "Closing"
  | Closed => "Closed"
  | NilState => "%!s(<nil>)"
  end.

Inductive Event := Close | WorkerExited | NilEvent.

Definition Event_String (e : Event) : string :=
  match e with
  | Close => "Close"
  | WorkerExited => "WorkerExited"
  | NilEvent => "%!s(<nil>)"
  end.

Inductive Effect := Wake.

Definition Effect_String (e : Effect) : string := match e with Wake => "Wake" end.

Definition unhandled (s : State) (e : Event) : State * list Effect * option string :=
  (s, [], Some ("ttscoord: unhandled transition " +:+ State_String s +:+ " <- " +:+ Event_String e)).

Definition Next (s : State) (e : Event) : State * list Effect * option string :=
  match s with
  | Open =>
      match e with
      | Close => (Closing, [Wake], None)
      | WorkerExited => (Closed, [], None)
      | NilEvent => unhandled s e
      end
  | Closing =>
      match e with
      | Close => (Closing, [], None)
      | WorkerExited => (Closed, [], None)
      | NilEvent => unhandled s e
      end
  | Closed =>
      match e with
      | Close => (Closed, [], None)
      | WorkerExited => (Closed, [], None)
      | NilEvent => unhandled s e
      end
  | NilState => unhandled s e
  end.

Definition New {W} (sk : Sink Effect W) : Coordinator State Event Effect W :=
  Coordinator.New Open Next sk.

(** ** Specification: the order of the lifecycle *)
Definition rank (s : State) : nat :=
  match s with Open => 0 | Closing => 1 | Closed => 2 | NilState => 3 end.

(** ** Lemmas *)

Lemma step_wakes s e :
  length (step1 Next s e).2 + (if decide (rank s = 0) then 0 else 1) ≤
    (if decide (rank (step1 Next s e).1 = 0) then 0 else 1)%nat.
Proof. destruct s, e; vm_compute; lia. Qed.

Lemma step_rank s e : rank s ≤ rank (step1 Next s e).1.
Proof. destruct s, e; vm_compute; lia. Qed.

Lemma run_rank s es : rank s ≤ rank (run Next s es).1.
Proof.
  revert s. induction es as [|e es IH]; intros s; simpl; [done|].
  pose proof (step_rank s e) as H. destruct (step1 Next s e) as [s1 fx1]; simpl in H.
  specialize (IH s1). destruct (run Next s1 es); simpl in *. lia.
Qed.

Lemma run_wakes s es :
  length (run Next s es).2 + (if decide (rank s = 0) then 0 else 1) ≤
    (if decide (rank (run Next s es).1 = 0) then 0 else 1)%nat.
Proof.
  revert s. induction es as [|e es IH]; intros s; simpl; [done|].
  pose proof (step_wakes s e) as H. destruct (step1 Next s e) as [s1 fx1]; simpl in H.
  specialize (IH s1). destruct (run Next s1 es) as [s2 fx2]; simpl in *.
  rewrite length_app. lia.
Qed.

(** ** Theorems *)

(** The TTS lifecycle only moves forward (a prefix of the events never
    leaves a later phase than the whole run), and the worker is woken at most
    once, and only when the pipeline has left Open. *)
Theorem tts_wake_once es es' :
  rank (run Next Open es).1 ≤ rank (run Next Open (es ++ es')).1 ∧
  length (run Next Open es).2 ≤ 1 ∧
  (length (run Next Open es).2 = 1%nat → (run Next Open es).1 ≠ Open).
Proof.
  split_and!.
  - rewrite run_app. destruct (run Next Open es) as [s1 fx1]; simpl.
    pose proof (run_rank s1 es'). by destruct (run Next s1 es').
  - pose proof (run_wakes Open es) as H. simpl in H. case_decide; lia.
  - intros H1 H2. pose proof (run_wakes Open es) as H. rewrite H2 in H. simpl in H. lia.
Qed.
