(* ===== verification/RespSink.v ===== *)
(** * RespSink: the response goroutines behind the response coordinator

    Models [realtime_respcoord.go]: the [responseSink] that performs the
    effects of [RespCoord] by running response bodies in goroutines.  A
    response's context is kept with its goroutine.  The system's steps are the
    critical sections of every goroutine: the coordinator's [Apply] is one of
    them (module Coordinator proves that concurrent callers may be taken so),
    the registration of a body and the removal of a cancel function are
    others. *)
From S2P Require Import Prelude Coordinator RespCoord.

(** ** The sink *)

(** A context that is not a response's own, such as the client's or a VAD
    run's; [context.Background()] is never cancelled. *)
Inductive Parent := Background | Context (n : nat).

#[export] Instance Parent_eq_dec : EqDecision Parent.
Proof. solve_decision. Defined.

(** Where a response goroutine is: in its body, past the removal of its cancel
    function, past its report to the coordinator. *)
Inductive GPhase := InBody | Unregistered | Reported.

#[export] Instance GPhase_eq_dec : EqDecision GPhase.
Proof. solve_decision. Defined.

Record goroutine := MkGoroutine {
  g_skipped : bool;
  g_parent : Parent;
  g_cancelled : bool;
  g_at : GPhase;
}.

(** [cancels] holds the ids with a cancel function, [wg] the goroutines of the
    wait group; [dead] are the parent contexts already cancelled, and [ran]
    the bodies run so far. *)
Record responseSink := MkSink {
  cancels : gset ResponseID;
  bodies : gmap ResponseID Parent;
  seq : N;
  wg : gmap ResponseID goroutine;
  dead : gset nat;
  ran : list ResponseID;
}.

Definition is_dead (s : responseSink) (p : Parent) : bool :=
  match p with Background => false | Context n => bool_decide (n ∈ s.(dead)) end.

Definition cancel_goroutine (g : goroutine) : goroutine :=
  MkGoroutine g.(g_skipped) g.(g_parent) true g.(g_at).

Definition runBody (id : ResponseID) (skipped : bool) (s : responseSink) : responseSink :=
  let parent := default Background (s.(bodies) !! id) in
  MkSink (if skipped then s.(cancels) else {[ id ]} ∪ s.(cancels)) (delete id s.(bodies)) s.(seq)
    (<[id := MkGoroutine skipped parent (skipped || is_dead s parent) InBody]> s.(wg))
    s.(dead) (s.(ran) ++ [id]).

Definition Perform (e : Effect) (s : responseSink) : responseSink :=
  match e with
  | StartResponse id => runBody id false s
  | SkipResponse id => runBody id true s
  | CancelResponse id =>
      if bool_decide (id ∈ s.(cancels))
      then MkSink s.(cancels) s.(bodies) s.(seq) (alter cancel_goroutine id s.(wg)) s.(dead) s.(ran)
      else s
  | EmitTerminal _ _ => s
  end.

(** The sink with its coordinator. *)
Definition RS : Type := Coordinator State Event Effect responseSink * responseSink.

Definition newResponseSink : RS := (New Perform, MkSink ∅ ∅ 0 ∅ ∅ []).

(** [s.coord.Apply(e)], its error logged. *)
Definition apply (e : Event) (s : RS) : RS := let '(c, w, _) := Apply s.1 e s.2 in (c, w).

(** [issueWithPolicy] up to the [Apply]: the id minted and its body registered.
    The counter is a uint64.  The source adds to it atomically and then, under
    the lock, registers the body; here this is one step: between the two no
    other goroutine knows the id. *)
Definition mint (parent : Parent) (w : responseSink) : ResponseID * responseSink :=
  let id := ((w.(seq) + 1) mod 2 ^ 64)%N in
  (id, MkSink w.(cancels) (<[id := parent]> w.(bodies)) id w.(wg) w.(dead) w.(ran)).

(** A call of [issueWithPolicy] with nothing in between. *)
Definition issueWithPolicy (parent : Parent) (src : Source) (ifIdle : bool) (s : RS) : RS :=
  let '(id, w) := mint parent s.2 in apply (Start id src ifIdle) (s.1, w).

Definition issue (parent : Parent) (src : Source) (s : RS) : RS := issueWithPolicy parent src false s.

Definition cancel (src : Source) (s : RS) : RS := apply (Cancel src) s.

(** The deferred function of a goroutine, in its two critical sections. *)
Definition unregister (id : ResponseID) (w : responseSink) : responseSink :=
  MkSink (w.(cancels) ∖ {[ id ]}) w.(bodies) w.(seq)
    (alter (λ g, MkGoroutine g.(g_skipped) g.(g_parent) g.(g_cancelled) Unregistered) id w.(wg))
    w.(dead) w.(ran).

Definition set_wg (f : gmap ResponseID goroutine → gmap ResponseID goroutine) (w : responseSink) : responseSink :=
  MkSink w.(cancels) w.(bodies) w.(seq) (f w.(wg)) w.(dead) w.(ran).

Definition report (id : ResponseID) (g : goroutine) (s : RS) : RS :=
  let s := if g.(g_skipped) then s else apply (Finished id) s in
  (s.1, set_wg (alter (λ g, MkGoroutine g.(g_skipped) g.(g_parent) g.(g_cancelled) Reported) id) s.2).

(** A parent context is cancelled, and the contexts derived from it. *)
Definition cancel_parent (n : nat) (w : responseSink) : responseSink :=
  MkSink w.(cancels) w.(bodies) w.(seq)
    ((λ g, if decide (g.(g_parent) = Context n) then cancel_goroutine g else g) <$> w.(wg))
    ({[ n ]} ∪ w.(dead)) w.(ran).

(** ** The goroutines of a session

    [issuing] are the calls of [issueWithPolicy] between the registration and
    the [Apply].  Fewer than [2^64] responses are issued. *)
Record Sys := MkSys { rs : RS; issuing : list (ResponseID * Source * bool) }.

Inductive sys_step : relation Sys :=
| step_mint σ parent src ifIdle :
    (σ.(rs).2.(seq) + 1 < 2 ^ 64)%N →
    sys_step σ (let '(id, w) := mint parent σ.(rs).2 in
                MkSys (σ.(rs).1, w) (σ.(issuing) ++ [(id, src, ifIdle)]))
| step_start σ id src ifIdle l1 l2 :
    σ.(issuing) = l1 ++ (id, src, ifIdle) :: l2 →
    sys_step σ (MkSys (apply (Start id src ifIdle) σ.(rs)) (l1 ++ l2))
| step_cancel σ src : sys_step σ (MkSys (apply (Cancel src) σ.(rs)) σ.(issuing))
| step_parent σ n : sys_step σ (MkSys (σ.(rs).1, cancel_parent n σ.(rs).2) σ.(issuing))
| step_return σ id g :
    σ.(rs).2.(wg) !! id = Some g → g.(g_at) = InBody →
    sys_step σ (MkSys (σ.(rs).1, unregister id σ.(rs).2) σ.(issuing))
| step_report σ id g :
    σ.(rs).2.(wg) !! id = Some g → g.(g_at) = Unregistered →
    sys_step σ (MkSys (report id g σ.(rs)) σ.(issuing))
| step_exit σ id g :
    σ.(rs).2.(wg) !! id = Some g → g.(g_at) = Reported →
    sys_step σ (MkSys (σ.(rs).1, set_wg (delete id) σ.(rs).2) σ.(issuing))
| step_shutdown σ : sys_step σ (MkSys (apply Shutdown σ.(rs)) σ.(issuing)).

Definition sys_init : Sys := MkSys newResponseSink [].

Definition reachable (σ : Sys) : Prop := rtc sys_step sys_init σ.

(** The state of the coordinator. *)
Definition coord (σ : Sys) : State := σ.(rs).1.(state).

(** [wait] returns when the wait group is empty. *)
Definition joined (σ : Sys) : Prop := σ.(rs).2.(wg) = ∅.

(** ** Invariant

    [live] is the response the coordinator counts as active and [iss] the ids
    registered by calls still to [Apply]. *)
Definition g_ok (live : option ResponseID) (w : responseSink) (id : ResponseID) (g : goroutine) : Prop :=
  id ∈ w.(ran) ∧
  (id ∈ w.(cancels) ↔ g.(g_skipped) = false ∧ g.(g_at) = InBody) ∧
  (g.(g_skipped) = true → g.(g_cancelled) = true) ∧
  (is_dead w g.(g_parent) = true → g.(g_cancelled) = true) ∧
  (g.(g_at) = InBody → live ≠ Some id → g.(g_cancelled) = true).

Record sink_inv (live : option ResponseID) (iss : list ResponseID) (w : responseSink) : Prop := {
  si_ran : NoDup w.(ran);
  si_iss : NoDup iss;
  si_ran_ids : ∀ id, id ∈ w.(ran) → (1 ≤ id ≤ w.(seq))%N ∧ w.(bodies) !! id = None;
  si_iss_bodies : ∀ id, id ∈ iss → is_Some (w.(bodies) !! id);
  si_bodies_ids : ∀ id, is_Some (w.(bodies) !! id) → (1 ≤ id ≤ w.(seq))%N;
  si_all : ∀ id, (1 ≤ id ≤ w.(seq))%N → id ∈ w.(ran) ∨ is_Some (w.(bodies) !! id);
  si_cancels : ∀ id, id ∈ w.(cancels) → is_Some (w.(wg) !! id);
  si_wg : map_Forall (g_ok live w) w.(wg);
  si_live : ∀ i, live = Some i → ∃ g, w.(wg) !! i = Some g ∧ g.(g_skipped) = false ∧ g.(g_at) ≠ Reported;
}.

Lemma iss_not_ran live iss w id : sink_inv live iss w → id ∈ iss → id ∉ w.(ran).
Proof.
  intros HI Hi Hr. destruct (si_ran_ids _ _ _ HI id Hr) as [_ Hn].
  destruct (si_iss_bodies _ _ _ HI id Hi) as [p Hp]. by rewrite Hn in Hp.
Qed.

Lemma iss_not_wg live iss w id : sink_inv live iss w → id ∈ iss → w.(wg) !! id = None.
Proof.
  intros HI Hi. apply eq_None_not_Some. intros [g Hg].
  destruct (si_wg _ _ _ HI id g Hg) as [Hr _]. by eapply iss_not_ran.
Qed.

(** Minting an id and registering its body. *)
Lemma inv_mint live iss w parent :
  (w.(seq) + 1 < 2 ^ 64)%N → sink_inv live iss w →
  sink_inv live (iss ++ [(mint parent w).1]) (mint parent w).2 ∧
  ∀ id, is_Some ((mint parent w).2.(bodies) !! id) → id = (mint parent w).1 ∨ is_Some (w.(bodies) !! id).
Proof.
  intros Hlt HI. unfold mint. rewrite N.mod_small by done. cbv zeta. simpl.
  remember (w.(seq) + 1)%N as n eqn:Hn1.
  assert (Hfresh : w.(bodies) !! n = None).
  { apply eq_None_not_Some. intros Hs. apply (si_bodies_ids _ _ _ HI) in Hs. lia. }
  assert (Hb : ∀ id, is_Some (<[n := parent]> w.(bodies) !! id) → id = n ∨ is_Some (w.(bodies) !! id)).
  { intros id Hs. apply lookup_insert_is_Some' in Hs as [->|?]; auto. }
  split; [|done]. split; simpl.
  - apply HI.
  - apply NoDup_app. split_and!; [apply HI| |apply NoDup_singleton].
    intros id Hid Hn. apply list_elem_of_singleton in Hn.
    destruct (si_iss_bodies _ _ _ HI id Hid) as [p Hp]. congruence.
  - intros id Hid. destruct (si_ran_ids _ _ _ HI id Hid) as [? Hn]. split; [lia|].
    rewrite lookup_insert_ne; [done|lia].
  - intros id [Hid|Hid]%elem_of_app; apply lookup_insert_is_Some'.
    + right. by apply (si_iss_bodies _ _ _ HI).
    + left. by apply list_elem_of_singleton in Hid.
  - intros id [->|Hs]%Hb; [lia|]. apply (si_bodies_ids _ _ _ HI) in Hs. lia.
  - intros id Hid. destruct (decide (id = n)) as [->|Hne]; [right; rewrite lookup_insert_eq; eauto|].
    rewrite lookup_insert_ne by done. apply (si_all _ _ _ HI). lia.
  - apply HI.
  - exact (si_wg _ _ _ HI).
  - apply HI.
Qed.

(** Changing one goroutine. *)
Lemma inv_wg_change live live' iss w w' id g g' :
  sink_inv live iss w → w.(wg) !! id = Some g →
  w'.(wg) = <[id := g']> w.(wg) → w'.(ran) = w.(ran) → w'.(bodies) = w.(bodies) → w'.(seq) = w.(seq) →
  w'.(dead) = w.(dead) → (∀ x, x ≠ id → x ∈ w'.(cancels) ↔ x ∈ w.(cancels)) →
  g_ok live' w' id g' →
  (∀ x, x ≠ id → live' = Some x ↔ live = Some x) →
  (live' = Some id → g'.(g_skipped) = false ∧ g'.(g_at) ≠ Reported) →
  sink_inv live' iss w'.
Proof.
  intros HI Hg Hwg Hran Hb Hs Hd Hc Hg' Hl Hl'. split; rewrite ?Hran, ?Hb, ?Hs, ?Hwg; try apply HI.
  - intros x Hx. rewrite lookup_insert_is_Some'. destruct (decide (id = x)); [by left|right].
    apply (si_cancels _ _ _ HI). by apply Hc.
  - intros x gx. rewrite lookup_insert_Some. intros [[<- <-]|[Hne Hgx]]; [done|].
    destruct (si_wg _ _ _ HI x gx Hgx) as (H1 & H2 & H3 & H4 & H5). unfold g_ok, is_dead in *.
    rewrite Hran, Hd, Hc by done. split_and!; try done.
    intros Hat Hlx. apply H5; [done|]. by rewrite <-Hl.
  - intros i Hi. destruct (decide (i = id)) as [->|Hne].
    + exists g'. rewrite lookup_insert_eq. by destruct (Hl' Hi).
    + rewrite lookup_insert_ne by done. apply (si_live _ _ _ HI). by apply Hl.
Qed.

(** The active response is given up: its context is cancelled when it is still
    in its body. *)
Lemma inv_cancel i iss w :
  sink_inv (Some i) iss w → sink_inv None iss (Perform (CancelResponse i) w).
Proof.
  intros HI. destruct (si_live _ _ _ HI i eq_refl) as (g & Hg & Hsk & Hat).
  destruct (si_wg _ _ _ HI i g Hg) as (H1 & H2 & H3 & H4 & H5). simpl. case_bool_decide as Hc.
  - eapply (inv_wg_change (Some i) None _ w _ i g (cancel_goroutine g)); try done; simpl.
    + by apply alter_alt_Some.
    + intros x Hx. split; [done|]. by intros [= ->].
  - eapply (inv_wg_change (Some i) None _ w w i g g); try done.
    + by rewrite insert_id.
    + split; [done|]. split; [done|]. split; [done|]. split; [done|]. intros Hb. destruct Hc. by apply H2.
    + intros x Hx. split; [done|]. by intros [= ->].
Qed.

(** A registered body is run. *)
Lemma inv_run live iss w id skipped l1 l2 :
  sink_inv live iss w → iss = l1 ++ id :: l2 → (skipped = false → live = None) →
  sink_inv (if skipped then live else Some id) (l1 ++ l2) (runBody id skipped w).
Proof.
  intros HI Hiss Hl. pose proof (si_iss _ _ _ HI) as Hnd.
  assert (Hid : id ∈ iss) by (rewrite Hiss, elem_of_app; right; by left).
  pose proof (iss_not_ran _ _ _ _ HI Hid) as Hnr. pose proof (iss_not_wg _ _ _ _ HI Hid) as Hnw.
  destruct (si_iss_bodies _ _ _ HI id Hid) as [p Hp].
  assert (Hnd' : NoDup (l1 ++ l2) ∧ id ∉ l1 ++ l2).
  { rewrite Hiss in Hnd. apply NoDup_app in Hnd as (N1 & N2 & N3). apply NoDup_cons in N3 as [N3 N4].
    split; [apply NoDup_app; split_and!; [done| |done]|].
    - intros x Hx Hx2. apply (N2 x Hx). by right.
    - rewrite elem_of_app. intros [Hx|?]; [|done]. apply (N2 id Hx). by left. }
  destruct Hnd' as [Hnd' Hni].
  assert (Hnc : id ∉ w.(cancels)).
  { intros Hc. apply (si_cancels _ _ _ HI) in Hc as [g Hg]. by rewrite Hnw in Hg. }
  set (g := MkGoroutine skipped (default Background (w.(bodies) !! id))
              (skipped || is_dead w (default Background (w.(bodies) !! id))) InBody).
  split; simpl.
  - apply NoDup_app. split_and!; [apply HI| |apply NoDup_singleton].
    intros x Hx Hx'. apply list_elem_of_singleton in Hx' as ->. done.
  - done.
  - intros x [Hx|Hx]%elem_of_app.
    + destruct (si_ran_ids _ _ _ HI x Hx) as [? Hn]. split; [done|].
      destruct (decide (x = id)) as [->|]; [apply lookup_delete_eq|by rewrite lookup_delete_ne].
    + apply list_elem_of_singleton in Hx as ->. split; [|apply lookup_delete_eq].
      apply (si_bodies_ids _ _ _ HI). by exists p.
  - intros x Hx. assert (x ≠ id) by (by intros ->). rewrite lookup_delete_ne by done.
    apply (si_iss_bodies _ _ _ HI). rewrite Hiss, elem_of_app in *. rewrite elem_of_cons. tauto.
  - intros x. rewrite lookup_delete_is_Some. intros [_ Hx]. by apply (si_bodies_ids _ _ _ HI).
  - intros x Hx. rewrite elem_of_app, lookup_delete_is_Some.
    destruct (decide (x = id)) as [->|Hne]; [left; right; by left|].
    destruct (si_all _ _ _ HI x Hx); [by left; left|by right].
  - intros x Hx. apply lookup_insert_is_Some'. destruct (decide (id = x)); [by left|right].
    apply (si_cancels _ _ _ HI). destruct skipped; [done|].
    apply elem_of_union in Hx as [Hx%elem_of_singleton|?]; [congruence|done].
  - intros x gx. rewrite lookup_insert_Some. intros [[<- <-]|[Hne Hgx]].
    + unfold g_ok. simpl. split; [apply elem_of_app; right; by left|]. split; [|split; [|split]].
      * destruct skipped; [split; [done|by intros []]|]. split; [done|]. intros _. apply elem_of_union. left.
        by apply elem_of_singleton.
      * by intros ->.
      * unfold is_dead. simpl. intros Hd. by rewrite Hd, orb_true_r.
      * intros _ Hlx. by destruct skipped.
    + destruct (si_wg _ _ _ HI x gx Hgx) as (H1 & H2 & H3 & H4 & H5). unfold g_ok. simpl.
      split; [apply elem_of_app; by left|]. split; [|split; [done|split; [done|]]].
      * rewrite <-H2. destruct skipped; [done|]. rewrite elem_of_union, elem_of_singleton.
        split; [intros [?|?]; congruence|by right].
      * intros Hat Hlx. apply H5; [done|]. destruct skipped; [done|]. by rewrite Hl.
  - intros i Hi. destruct skipped; [|injection Hi as <-].
    + destruct (si_live _ _ _ HI i Hi) as (gi & Hgi & ?). exists gi. rewrite lookup_insert_ne; [done|].
      intros ->. by rewrite Hnw in Hgi.
    + exists g. by rewrite lookup_insert_eq.
Qed.

(** A call whose start has no effect. *)
Lemma inv_refused live iss w id l1 l2 :
  sink_inv live iss w → iss = l1 ++ id :: l2 → sink_inv live (l1 ++ l2) w.
Proof.
  intros HI ->. pose proof (si_iss _ _ _ HI) as Hnd. split; try apply HI.
  - apply NoDup_app in Hnd as (N1 & N2 & N3). apply NoDup_cons in N3 as [N3 N4].
    apply NoDup_app; split_and!; [done| |done]. intros x Hx Hx2. apply (N2 x Hx). by right.
  - intros x Hx. apply (si_iss_bodies _ _ _ HI). rewrite elem_of_app in *. rewrite elem_of_cons. tauto.
Qed.

Lemma inv_parent live iss w n : sink_inv live iss w → sink_inv live iss (cancel_parent n w).
Proof.
  intros HI. split; simpl; try apply HI.
  - intros x Hx. rewrite lookup_fmap. apply fmap_is_Some. by apply (si_cancels _ _ _ HI).
  - intros x gx. rewrite lookup_fmap_Some. intros (g & <- & Hg).
    destruct (si_wg _ _ _ HI x g Hg) as (H1 & H2 & H3 & H4 & H5). unfold g_ok. simpl.
    split; [done|]. split; [by case_decide|]. split; [case_decide; simpl; auto|]. split; [|case_decide; simpl; auto].
    unfold is_dead. simpl. case_decide as Hp; simpl; [done|]. destruct (g.(g_parent)) as [|k] eqn:Hk; [done|].
    intros Hd%bool_decide_eq_true. apply H4. unfold is_dead. apply bool_decide_eq_true.
    apply elem_of_union in Hd as [->%elem_of_singleton|?]; [|done]. congruence.
  - intros i Hi. destruct (si_live _ _ _ HI i Hi) as (g & Hg & Hs & Ha).
    exists (if decide (g.(g_parent) = Context n) then cancel_goroutine g else g).
    rewrite lookup_fmap, Hg. split; [done|]. by case_decide.
Qed.

Lemma inv_unregister live iss w id g :
  sink_inv live iss w → w.(wg) !! id = Some g → g.(g_at) = InBody → sink_inv live iss (unregister id w).
Proof.
  intros HI Hg Hat. destruct (si_wg _ _ _ HI id g Hg) as (H1 & H2 & H3 & H4 & H5).
  eapply (inv_wg_change live live _ w _ id g); try done; simpl.
  - by apply alter_alt_Some.
  - intros x Hx. rewrite elem_of_difference, elem_of_singleton. tauto.
  - split; [done|]. simpl. split; [|split; [done|split; [done|done]]].
    rewrite elem_of_difference, elem_of_singleton. split; [tauto|by intros []].
  - intros Hl. destruct (si_live _ _ _ HI id Hl) as (g' & Hg' & ? & ?). by simplify_eq.
Qed.

Lemma inv_reported live live' iss w id g :
  sink_inv live iss w → w.(wg) !! id = Some g → g.(g_at) = Unregistered →
  live' = (if decide (live = Some id) then None else live) →
  sink_inv live' iss (set_wg (alter (λ g, MkGoroutine g.(g_skipped) g.(g_parent) g.(g_cancelled) Reported) id) w).
Proof.
  intros HI Hg Hat Hl. destruct (si_wg _ _ _ HI id g Hg) as (H1 & H2 & H3 & H4 & H5).
  eapply (inv_wg_change live live' _ w _ id g); try done; simpl.
  - by apply alter_alt_Some.
  - split; [done|]. simpl. split; [|split; [done|split; [done|done]]].
    rewrite H2, Hat. split; by intros [].
  - intros x Hx. rewrite Hl. case_decide as Hd; [|done]. rewrite Hd. split; congruence.
  - rewrite Hl. case_decide; done.
Qed.

Lemma inv_exit live iss w id g :
  sink_inv live iss w → w.(wg) !! id = Some g → g.(g_at) = Reported →
  sink_inv live iss (set_wg (delete id) w).
Proof.
  intros HI Hg Hat. destruct (si_wg _ _ _ HI id g Hg) as (H1 & H2 & _).
  split; simpl; try apply HI.
  - intros x Hx. rewrite lookup_delete_is_Some. split; [|by apply (si_cancels _ _ _ HI)].
    intros <-. apply H2 in Hx as [_ Hx]. congruence.
  - intros x gx. rewrite lookup_delete_Some. intros [Hne Hgx].
    exact (si_wg _ _ _ HI x gx Hgx).
  - intros i Hi. destruct (si_live _ _ _ HI i Hi) as (g' & Hg' & Hs & Ha). exists g'.
    rewrite lookup_delete_ne; [done|]. intros ->. simplify_eq.
Qed.

(** ** The system *)

Definition ids (l : list (ResponseID * Source * bool)) : list ResponseID := map (λ x, x.1.1) l.

Record sys_inv (σ : Sys) : Prop := {
  sys_coord : σ.(rs).1 = MkCoordinator (coord σ) Next Perform;
  sys_not_nil : coord σ ≠ NilState;
  sys_sink : sink_inv (live_of (coord σ)) (ids σ.(issuing)) σ.(rs).2;
  sys_bodies : coord σ ≠ Terminated → ∀ id, is_Some (σ.(rs).2.(bodies) !! id) → id ∈ ids σ.(issuing);
}.

Lemma apply_step c w e :
  apply e (MkCoordinator c Next Perform, w) =
    (MkCoordinator (step1 Next c e).1 Next Perform, perform_all Perform (step1 Next c e).2 w).
Proof.
  unfold apply, Apply, step1. simpl. by destruct (Next c e) as [[c' fx] [msg|]].
Qed.

(** The system after an event. *)
Lemma sys_inv_mk c w iss :
  c ≠ NilState → sink_inv (live_of c) (ids iss) w →
  (c ≠ Terminated → ∀ id, is_Some (w.(bodies) !! id) → id ∈ ids iss) →
  sys_inv (MkSys (MkCoordinator c Next Perform, w) iss).
Proof. by split. Qed.

Lemma sys_inv_cancel c w iss e :
  c ≠ NilState → sink_inv (live_of c) (ids iss) w →
  (c ≠ Terminated → ∀ id, is_Some (w.(bodies) !! id) → id ∈ ids iss) →
  e = Shutdown ∨ (∃ src, e = Cancel src) →
  sys_inv (MkSys (apply e (MkCoordinator c Next Perform, w)) iss).
Proof.
  intros Hn HI Hb He. rewrite apply_step.
  destruct c as [|i| |]; [| | |done]; destruct He as [->|[src ->]]; unfold step1; simpl;
    apply sys_inv_mk; try done; try (by apply inv_cancel); auto.
  - intros _ id. change (perform_all Perform _ w) with (Perform (CancelResponse i) w).
    simpl. case_bool_decide; by apply Hb.
Qed.

Lemma sys_inv_start c w iss id src ifIdle l1 l2 :
  c ≠ NilState → sink_inv (live_of c) (ids iss) w →
  (c ≠ Terminated → ∀ id, is_Some (w.(bodies) !! id) → id ∈ ids iss) →
  iss = l1 ++ (id, src, ifIdle) :: l2 →
  sys_inv (MkSys (apply (Start id src ifIdle) (MkCoordinator c Next Perform, w)) (l1 ++ l2)).
Proof.
  intros Hn HI Hb ->. rewrite apply_step. unfold ids in *. rewrite map_app in *. simpl in *.
  assert (Hb' : ∀ skipped, c ≠ Terminated → ∀ x, is_Some ((runBody id skipped w).(bodies) !! x) →
                 x ∈ map (λ x, x.1.1) (l1 ++ l2)).
  { intros skipped Ht x. simpl. rewrite lookup_delete_is_Some, map_app. intros [Hne Hx].
    specialize (Hb Ht x Hx). rewrite elem_of_app in *. rewrite elem_of_cons in Hb.
    destruct Hb as [?|[->|?]]; auto; done. }
  destruct c as [|i| |]; [| | |done]; unfold step1; simpl.
  - apply sys_inv_mk; [done| |intros _; by apply (Hb' false)]. unfold ids. rewrite map_app.
    by apply (inv_run None _ w id false _ _ HI).
  - destruct ifIdle; simpl; apply sys_inv_mk; try done.
    + unfold ids. rewrite map_app. by apply (inv_run (Some i) _ w id true _ _ HI).
    + by apply (Hb' true).
    + unfold ids. rewrite map_app. change (perform_all Perform _ w) with (runBody id false (Perform (CancelResponse i) w)).
      by apply (inv_run None _ _ id false _ _ (inv_cancel _ _ _ HI)).
    + intros Ht x. change (perform_all Perform _ w) with (runBody id false (Perform (CancelResponse i) w)).
      intros Hx. apply (Hb' false); [done|]. simpl in *. by case_bool_decide.
  - apply sys_inv_mk; try done. unfold ids. rewrite map_app. by eapply inv_refused.
Qed.

Lemma sys_inv_report c w iss id g :
  c ≠ NilState → sink_inv (live_of c) (ids iss) w →
  (c ≠ Terminated → ∀ id, is_Some (w.(bodies) !! id) → id ∈ ids iss) →
  w.(wg) !! id = Some g → g.(g_at) = Unregistered →
  sys_inv (MkSys (report id g (MkCoordinator c Next Perform, w)) iss).
Proof.
  intros Hn HI Hb Hg Hat. unfold report. destruct g.(g_skipped) eqn:Hsk; simpl.
  - apply sys_inv_mk; try done. eapply inv_reported; [done|done|done|].
    case_decide as Hd; [|done]. destruct (si_live _ _ _ HI id Hd) as (g' & Hg' & ? & _). congruence.
  - rewrite apply_step.
    destruct c as [|i| |]; [| | |done]; unfold step1; simpl; try (destruct (N.eqb_spec id i) as [->|Hne]; simpl);
      (apply sys_inv_mk; [done| |by intros; apply Hb]);
      (eapply inv_reported; [done|done|done|]); simpl; try case_decide; done || congruence.
Qed.

Lemma sink_inv_step σ σ' : sys_inv σ → sys_step σ σ' → sys_inv σ'.
Proof.
  intros [Hc Hn HI Hb] Hstep. unfold coord in *. destruct σ as [[[s nx sk] w] iss]. simpl in *.
  injection Hc as -> ->.
  inversion Hstep; subst; simpl in *.
  - destruct (inv_mint _ _ w parent H HI) as [HI' Hb']. unfold mint in HI', Hb'. simpl in HI', Hb'.
    apply sys_inv_mk; [done| |].
    + unfold ids. by rewrite map_app.
    + intros Ht id [->|Hs]%Hb'; unfold ids; rewrite map_app, elem_of_app;
        [right; apply list_elem_of_singleton; done|left; by apply Hb].
  - by eapply sys_inv_start.
  - apply sys_inv_cancel; eauto.
  - apply sys_inv_mk; [done|by apply inv_parent|done].
  - apply sys_inv_mk; [done|by eapply inv_unregister|done].
  - by apply sys_inv_report.
  - apply sys_inv_mk; [done|by eapply inv_exit|done].
  - apply sys_inv_cancel; eauto.
Qed.

Lemma sink_inv_init : sys_inv sys_init.
Proof.
  split; [done|done| |].
  - split; simpl; try (by constructor); try done.
    all: intros id Hid; try (by apply not_elem_of_nil in Hid); try (by apply not_elem_of_empty in Hid).
    + by destruct Hid.
    + lia.
  - intros _ id. simpl. by intros [].
Qed.

Lemma sink_reachable_inv σ : reachable σ → sys_inv σ.
Proof. intros Hr. eapply (rtc_invariant sys_step sys_inv); eauto using sink_inv_step, sink_inv_init. Qed.

(** ** Shutdown *)

(** The steps of the response goroutines, once their bodies return. *)
Inductive g_step : relation Sys :=
| g_return σ id g :
    σ.(rs).2.(wg) !! id = Some g → g.(g_at) = InBody →
    g_step σ (MkSys (σ.(rs).1, unregister id σ.(rs).2) σ.(issuing))
| g_report σ id g :
    σ.(rs).2.(wg) !! id = Some g → g.(g_at) = Unregistered →
    g_step σ (MkSys (report id g σ.(rs)) σ.(issuing))
| g_exit σ id g :
    σ.(rs).2.(wg) !! id = Some g → g.(g_at) = Reported →
    g_step σ (MkSys (σ.(rs).1, set_wg (delete id) σ.(rs).2) σ.(issuing)).

Lemma g_step_sys σ σ' : g_step σ σ' → sys_step σ σ'.
Proof. intros []; [by eapply step_return|by eapply step_report|by eapply step_exit]. Qed.

(** The steps a goroutine has left, and all of them. *)
Definition weight (g : goroutine) : nat :=
  match g.(g_at) with InBody => 3 | Unregistered => 2 | Reported => 1 end.

Definition work (m : gmap ResponseID goroutine) : nat := sum_list (map (λ p, weight p.2) (map_to_list m)).

Lemma sum_list_perm (l l' : list nat) : l ≡ₚ l' → sum_list l = sum_list l'.
Proof. induction 1; simpl; lia. Qed.

Lemma work_delete m id g : m !! id = Some g → work m = weight g + work (delete id m).
Proof.
  intros Hg. unfold work. rewrite (sum_list_perm _ (map (λ p, weight p.2) ((id, g) :: map_to_list (delete id m)))); [done|].
  apply Permutation_map. symmetry. by apply map_to_list_delete.
Qed.

Lemma work_insert m id g g' : m !! id = Some g → weight g + work (<[id := g']> m) = weight g' + work m.
Proof.
  intros Hg. rewrite (work_delete m id g) by done.
  rewrite (work_delete (<[id := g']> m) id g') by apply lookup_insert_eq. rewrite delete_insert_eq. lia.
Qed.

Lemma work_empty m : work m = 0 ↔ m = ∅.
Proof.
  split; [|by intros ->]. intros Hw. apply map_empty. intros id. apply eq_None_not_Some. intros [g Hg].
  rewrite (work_delete _ _ _ Hg) in Hw. unfold weight in Hw. by destruct g.(g_at).
Qed.

(** A shutdown terminates. *)
Lemma shutdown_coord σ :
  sys_inv σ → coord (MkSys (apply Shutdown σ.(rs)) σ.(issuing)) = Terminated.
Proof.
  intros [Hco Hn _ _]. destruct σ as [[c w] iss]. unfold coord in *. simpl in *. rewrite Hco.
  rewrite apply_step. by destruct (c.(state)).
Qed.

(** What the coordinator does once terminated: nothing. *)
Lemma apply_terminated e w :
  apply e (MkCoordinator Terminated Next Perform, w) = (MkCoordinator Terminated Next Perform, w).
Proof. by destruct e. Qed.

(** A goroutine that is left can step. *)
Lemma goroutine_left σ : ¬ joined σ → ∃ σ', g_step σ σ'.
Proof.
  intros Hj. destruct (map_choose σ.(rs).2.(wg) Hj) as (id & g & Hg).
  destruct g.(g_at) eqn:Hat; eexists; [by eapply g_return|by eapply g_report|by eapply g_exit].
Qed.

(** The system after the shutdown: no body starts, and a step either is of a
    goroutine or leaves the wait group's size. *)
Definition shut_from (σ σ' : Sys) : Prop :=
  coord σ' = Terminated ∧ σ'.(rs).2.(ran) = σ.(rs).2.(ran) ∧
  dom σ'.(rs).2.(wg) ⊆ dom σ.(rs).2.(wg) ∧ work σ'.(rs).2.(wg) ≤ work σ.(rs).2.(wg).

#[local] Instance shut_from_trans : Transitive shut_from.
Proof.
  intros σ1 σ2 σ3 (_ & H2 & H3 & H4) (G1 & G2 & G3 & G4). split_and!; [done|congruence| |lia].
  by etransitivity.
Qed.

Lemma work_parent n (m : gmap ResponseID goroutine) :
  work ((λ g, if decide (g.(g_parent) = Context n) then cancel_goroutine g else g) <$> m) = work m.
Proof.
  unfold work. rewrite map_to_list_fmap, map_map. f_equal. apply map_ext. intros [id g]. simpl.
  by case_decide.
Qed.

Lemma shut_alter id f σ w' iss :
  coord σ = Terminated → (∀ g, σ.(rs).2.(wg) !! id = Some g → weight (f g) < weight g) →
  is_Some (σ.(rs).2.(wg) !! id) → w'.(wg) = alter f id σ.(rs).2.(wg) → w'.(ran) = σ.(rs).2.(ran) →
  shut_from σ (MkSys (σ.(rs).1, w') iss) ∧ work w'.(wg) < work σ.(rs).2.(wg).
Proof.
  intros Hc Hf [g Hg] Hw Hr. specialize (Hf g Hg). rewrite (alter_alt_Some _ _ _ _ Hg) in Hw.
  pose proof (work_insert σ.(rs).2.(wg) id g (f g) Hg). unfold shut_from. simpl. rewrite Hw, Hr.
  split; [|lia]. split_and!; [done|done| |lia]. rewrite dom_insert.
  apply union_subseteq. split; [|done]. apply singleton_subseteq_l, elem_of_dom. by exists g.
Qed.

Lemma shut_g_step σ σ' :
  sys_inv σ → coord σ = Terminated → g_step σ σ' →
  shut_from σ σ' ∧ work σ'.(rs).2.(wg) < work σ.(rs).2.(wg).
Proof.
  intros [Hco _ _ _] Hc Hstep. rewrite Hc in Hco.
  inversion Hstep as [? id g Hg Hat|? id g Hg Hat|? id g Hg Hat]; subst.
  - apply (shut_alter id (λ g, MkGoroutine g.(g_skipped) g.(g_parent) g.(g_cancelled) Unregistered));
      [done| |by exists g|done|done].
    intros g0 Hg0. simplify_eq. unfold weight. rewrite Hat. simpl. lia.
  - assert (Hrep : (if g.(g_skipped) then σ.(rs) else apply (Finished id) σ.(rs)) = σ.(rs)).
    { destruct σ as [[c w] iss]. simpl in Hco. subst c. by destruct g.(g_skipped). }
    unfold report. rewrite Hrep. cbn [rs snd].
    apply (shut_alter id (λ g, MkGoroutine g.(g_skipped) g.(g_parent) g.(g_cancelled) Reported));
      [done| |by exists g|done|done].
    intros g0 Hg0. simplify_eq. unfold weight. rewrite Hat. simpl. lia.
  - simpl. pose proof (work_delete _ _ _ Hg) as Hw.
    assert (Hlt : work (delete id σ.(rs).2.(wg)) < work σ.(rs).2.(wg)).
    { rewrite Hw. unfold weight. rewrite Hat. lia. }
    split; [|done]. unfold shut_from. simpl. split_and!; [done|done| |lia]. rewrite dom_delete.
    by apply subseteq_difference_l.
Qed.

Lemma shut_step σ σ' : sys_inv σ → coord σ = Terminated → sys_step σ σ' → shut_from σ σ'.
Proof.
  intros HI Hc Hstep. pose proof (sys_coord _ HI) as Hco. rewrite Hc in Hco.
  assert (Hid : ∀ w iss, w.(wg) = σ.(rs).2.(wg) → w.(ran) = σ.(rs).2.(ran) → shut_from σ (MkSys (σ.(rs).1, w) iss)).
  { intros w iss Hw Hr. unfold shut_from. simpl. by rewrite Hw, Hr. }
  assert (Hap : ∀ e iss, shut_from σ (MkSys (apply e σ.(rs)) iss)).
  { intros e iss. destruct σ as [[c w] iss0]. simpl in *. subst c. rewrite apply_terminated. by apply Hid. }
  inversion Hstep; subst; try apply Hap; try (by apply Hid).
  - unfold shut_from. simpl. rewrite work_parent, dom_fmap. by split_and!.
  - eapply shut_g_step; [done|done|by eapply g_return].
  - eapply shut_g_step; [done|done|by eapply g_report].
  - eapply shut_g_step; [done|done|by eapply g_exit].
Qed.

Lemma shut_steps σ σ' : sys_inv σ → coord σ = Terminated → rtc sys_step σ σ' → shut_from σ σ'.
Proof.
  intros HI Hc Hr. induction Hr as [σ|σ σ1 σ2 Hs Hr IH]; [by split_and!|].
  pose proof (shut_step _ _ HI Hc Hs) as H1. etransitivity; [exact H1|].
  apply IH; [by eapply sink_inv_step|]. by destruct H1.
Qed.

(** ** Theorems *)

(** C28. One live response: of all the response goroutines of a session, the
    superseded, skipped and draining ones included, at most one runs its body
    with a live context, and it is the coordinator's active one. *)
Theorem resp_sink_one_live σ id g :
  reachable σ → σ.(rs).2.(wg) !! id = Some g → g.(g_at) = InBody → g.(g_cancelled) = false →
  coord σ = Active id ∧ g.(g_skipped) = false.
Proof.
  intros Hr Hg Hat Hc. apply sink_reachable_inv in Hr as [_ _ HI _].
  destruct (si_wg _ _ _ HI id g Hg) as (_ & _ & H3 & _ & H5). split.
  - destruct (decide (live_of (coord σ) = Some id)) as [Hl|Hl].
    + unfold live_of in Hl. destruct (coord σ); congruence.
    + specialize (H5 Hat Hl). congruence.
  - destruct g.(g_skipped); [|done]. specialize (H3 eq_refl). congruence.
Qed.

(** C29. Every body runs at most once, and none is lost: an id that was minted
    has run, or its body is still registered, and that only while its call is
    about to start it or because the session is already terminated. *)
Theorem resp_sink_each_once σ id :
  reachable σ → (1 ≤ id ≤ σ.(rs).2.(seq))%N →
  NoDup σ.(rs).2.(ran) ∧
  (id ∈ σ.(rs).2.(ran) ∧ σ.(rs).2.(bodies) !! id = None ∨
   (id ∉ σ.(rs).2.(ran)) ∧ is_Some (σ.(rs).2.(bodies) !! id) ∧ (id ∈ ids σ.(issuing) ∨ coord σ = Terminated)).
Proof.
  intros Hr Hid. apply sink_reachable_inv in Hr as [_ _ HI Hb]. split; [by apply HI|].
  destruct (si_all _ _ _ HI id Hid) as [Hran|Hs].
  - left. split; [done|]. by apply (si_ran_ids _ _ _ HI).
  - right. split_and!; [|done|].
    + intros Hran. destruct (si_ran_ids _ _ _ HI id Hran) as [_ Hn]. destruct Hs. congruence.
    + destruct (coord σ) eqn:Hc; [left; by apply Hb|left; by apply Hb|by right|left; by apply Hb].
Qed.

(** Nothing outlives a shutdown: from then on, whatever is issued or
    cancelled, the coordinator stays terminated, no body starts, every body
    still running has a cancelled context, and a session whose goroutines
    were once joined has none again. *)
Theorem resp_sink_shutdown σ σ' :
  reachable σ → rtc sys_step (MkSys (apply Shutdown σ.(rs)) σ.(issuing)) σ' →
  coord σ' = Terminated ∧ σ'.(rs).2.(ran) = σ.(rs).2.(ran) ∧
  (∀ id g, σ'.(rs).2.(wg) !! id = Some g → g.(g_at) = InBody → g.(g_cancelled) = true) ∧
  (joined σ' → ∀ σ'', rtc sys_step σ' σ'' → joined σ'').
Proof.
  intros Hr Hsteps. set (σ1 := MkSys (apply Shutdown σ.(rs)) σ.(issuing)) in *.
  pose proof (sink_reachable_inv _ Hr) as HI.
  assert (HI1 : sys_inv σ1) by (eapply sink_inv_step; [done|apply step_shutdown]).
  assert (Hc1 : coord σ1 = Terminated ∧ σ1.(rs).2.(ran) = σ.(rs).2.(ran)).
  { destruct HI as [Hco Hn _ _]. subst σ1. destruct σ as [[c w] iss]. unfold coord in *. simpl in *. rewrite Hco.
    rewrite apply_step. destruct (c.(state)); unfold step1; simpl; try done. by case_bool_decide. }
  destruct Hc1 as [Hc1 Hran1]. destruct (shut_steps _ _ HI1 Hc1 Hsteps) as (Hc' & Hran' & Hdom & _).
  assert (HI' : sys_inv σ') by (eapply (rtc_invariant sys_step sys_inv); eauto using sink_inv_step).
  split_and!; [done|congruence| |].
  - intros id g Hg Hat. destruct (si_wg _ _ _ (sys_sink _ HI') id g Hg) as (_ & _ & _ & _ & H5).
    apply H5; [done|]. by rewrite Hc'.
  - intros Hj σ'' Hs. destruct (shut_steps _ _ HI' Hc' Hs) as (_ & _ & Hd & _).
    unfold joined in *. rewrite Hj, dom_empty_L in Hd. apply dom_empty_inv_L. set_solver.
Qed.

(** The join at the end of a shutdown returns: as long as a goroutine is
    left one of them can step (its body returns, it reports, it exits), such
    a step always shrinks the work left, and no step of anyone else makes it
    grow again. *)
Theorem resp_sink_join σ :
  reachable σ → coord σ = Terminated →
  (joined σ ↔ work σ.(rs).2.(wg) = 0) ∧
  (¬ joined σ → ∃ σ', g_step σ σ') ∧
  (∀ σ', g_step σ σ' → work σ'.(rs).2.(wg) < work σ.(rs).2.(wg)) ∧
  (∀ σ', sys_step σ σ' → coord σ' = Terminated ∧ work σ'.(rs).2.(wg) ≤ work σ.(rs).2.(wg)).
Proof.
  intros Hr Hc. apply sink_reachable_inv in Hr. split_and!.
  - symmetry. apply work_empty.
  - apply goroutine_left.
  - intros σ' Hs. by eapply shut_g_step.
  - intros σ' Hs. destruct (shut_step _ _ Hr Hc Hs) as (? & _ & _ & ?). by split.
Qed.

(** ** Witnesses *)

Lemma reachable_issue parent src ifIdle σ :
  reachable σ → σ.(issuing) = [] → (σ.(rs).2.(seq) + 1 < 2 ^ 64)%N →
  reachable (MkSys (issueWithPolicy parent src ifIdle σ.(rs)) []).
Proof.
  intros Hr Hi Hs. eapply rtc_r; [eapply rtc_r; [exact Hr|by apply (step_mint _ parent src ifIdle)]|].
  rewrite Hi. unfold issueWithPolicy. destruct (mint parent σ.(rs).2) as [id w]. simpl.
  by apply (step_start (MkSys (σ.(rs).1, w) [(id, src, ifIdle)]) id src ifIdle [] []).
Qed.

(** A client response superseded by a VAD turn. *)
Definition demo_sys : Sys :=
  MkSys (issueWithPolicy (Context 7) SourceVAD false (issue Background SourceClient newResponseSink)) [].

Lemma demo_sys_reachable : reachable demo_sys.
Proof.
  apply (reachable_issue _ _ _ (MkSys (issue Background SourceClient newResponseSink) [])); [|done|done].
  apply (reachable_issue Background SourceClient false sys_init); [apply rtc_refl|done|done].
Qed.

Definition demo_shut : Sys := MkSys (apply Shutdown demo_sys.(rs)) [].

Lemma demo_shut_reachable : reachable demo_shut.
Proof. eapply rtc_r; [apply demo_sys_reachable|apply (step_shutdown demo_sys)]. Qed.

Lemma resp_sink_one_live_witness :
  demo_sys.(rs).2.(wg) !! 2%N = Some (MkGoroutine false (Context 7) false InBody) ∧ coord demo_sys = Active 2.
Proof.
  assert (Hg : demo_sys.(rs).2.(wg) !! 2%N = Some (MkGoroutine false (Context 7) false InBody))
    by (vm_compute; reflexivity).
  split; [exact Hg|]. exact (proj1 (resp_sink_one_live demo_sys 2%N _ demo_sys_reachable Hg eq_refl eq_refl)).
Defined.

Lemma resp_sink_each_once_witness : NoDup demo_sys.(rs).2.(ran) ∧ demo_sys.(rs).2.(ran) = [1; 2]%N.
Proof.
  split; [|vm_compute; reflexivity].
  apply (resp_sink_each_once demo_sys 1%N demo_sys_reachable). vm_compute. split; discriminate.
Defined.

Lemma resp_sink_shutdown_witness : coord demo_shut = Terminated ∧ demo_shut.(rs).2.(ran) = [1; 2]%N.
Proof.
  destruct (resp_sink_shutdown demo_sys demo_shut demo_sys_reachable) as (H1 & H2 & _); [apply rtc_refl|].
  split; [exact H1|exact H2].
Defined.

Lemma resp_sink_join_witness : ∃ σ', g_step demo_shut σ'.
Proof.
  apply (resp_sink_join demo_shut demo_shut_reachable eq_refl). vm_compute. discriminate.
Defined.
