(* ===== verification/CommitOrder.v ===== *)
(** * CommitOrder: committed turns are appended in speech order

    Models the commit slots of [realtime.go]: [commitSlot],
    [nextCommitSlotLocked], the slot claim of [issueCommit], the append gate
    and the release gate of [commitUtteranceWithTranscript], and the wait of
    [issueClientResponse].  A slot is its position in the chain: the slot
    before it is its [prevDone].  The transcriptions run in parallel and may
    fail, be refused or be slow, so the steps of the commits interleave
    freely.  Only the user items of the commits are followed: items a client
    adds by hand, and the commits of an any-to-any session (which answers the
    audio itself), are not modelled. *)
From Stdlib Require Import Sorted.
From S2P Require Import Prelude.

(** Where a commit body is: before the append gate, past it with its user item
    appended, at the deferred release, and with [done] closed. *)
Inductive SlotPhase := Working | Appended | Leaving | Done.

#[export] Instance SlotPhase_eq_dec : EqDecision SlotPhase.
Proof. solve_decision. Defined.

(** The slots in the order of [commitTail]; [items] are the slots whose user
    item was put into the conversation, in the order of the appends: a log that
    only grows, while the source also deletes, evicts and trims items elsewhere; [sctx_done] says
    whether the session context is cancelled; [waits] are the client responses
    waiting for a slot; [started] are those that reached [triggerResponse],
    with the number of commits issued before them and the items they saw;
    [refused] are the slots whose waiting response was closed as failed,
    because the commit had appended nothing. *)
Record Commits := MkCommits {
  slots : list SlotPhase;
  items : list nat;
  sctx_done : bool;
  waits : list nat;
  started : list (nat * list nat);
  refused : list nat;
}.

Definition commits_init : Commits := MkCommits [] [] false [] [] [].

(** [commitTail]: the newest slot. *)
Definition commitTail (s : Commits) : option nat := pred <$> (if decide (s.(slots) = []) then None else Some (length s.(slots))).

(** [slot.prevDone] is nil or closed. *)
Definition prev_done (s : Commits) (i : nat) : bool :=
  match i with
  | 0 => true
  | S j => bool_decide (s.(slots) !! j = Some Done)
  end.

Definition set_slot (i : nat) (p : SlotPhase) (s : Commits) : Commits :=
  MkCommits (<[i := p]> s.(slots)) s.(items) s.(sctx_done) s.(waits) s.(started) s.(refused).

(** [nextCommitSlotLocked] *)
Definition nextCommitSlotLocked (s : Commits) : Commits :=
  MkCommits (s.(slots) ++ [Working]) s.(items) s.(sctx_done) s.(waits) s.(started) s.(refused).

(** The item appended by slot [i]. *)
Definition appendUserItem (i : nat) (s : Commits) : Commits :=
  MkCommits (<[i := Appended]> s.(slots)) (s.(items) ++ [i]) s.(sctx_done) s.(waits) s.(started) s.(refused).

(** [slot.appended]: the goroutine of the commit sets it as it appends. *)
Definition slot_appended (s : Commits) (t : nat) : bool := bool_decide (t ∈ s.(items)).

(** [triggerResponse], for a response that had [n] commits before it. *)
Definition start_response (n : nat) (w : list nat) (s : Commits) : Commits :=
  MkCommits s.(slots) s.(items) s.(sctx_done) w (s.(started) ++ [(n, s.(items))]) s.(refused).

Inductive commit_step : relation Commits :=
| step_issueCommit s : commit_step s (nextCommitSlotLocked s)
(* the empty utterance, a transcription error, a refused speaker, an empty
   transcript *)
| step_return s i :
    s.(slots) !! i = Some Working → commit_step s (set_slot i Leaving s)
(* the append gate: the previous slot is done *)
| step_append s i :
    s.(slots) !! i = Some Working → prev_done s i = true → commit_step s (appendUserItem i s)
(* or the session context is *)
| step_abort s i :
    s.(slots) !! i = Some Working → s.(sctx_done) = true → i ≠ 0 → commit_step s (set_slot i Leaving s)
(* the response, or its refusal, after the append *)
| step_generated s i :
    s.(slots) !! i = Some Appended → commit_step s (set_slot i Leaving s)
(* the release gate *)
| step_release s i :
    s.(slots) !! i = Some Leaving → prev_done s i = true ∨ s.(sctx_done) = true →
    commit_step s (set_slot i Done s)
| step_teardown s :
    commit_step s (MkCommits s.(slots) s.(items) true s.(waits) s.(started) s.(refused))
(* issueClientResponse: the response waits for the tail when it is pending *)
| step_client_wait s t :
    commitTail s = Some t → s.(slots) !! t ≠ Some Done →
    commit_step s (MkCommits s.(slots) s.(items) s.(sctx_done) (s.(waits) ++ [t]) s.(started) s.(refused))
(* and otherwise goes straight to the LLM *)
| step_client_now s :
    (∀ t, commitTail s = Some t → s.(slots) !! t = Some Done) →
    commit_step s (start_response (length s.(slots)) s.(waits) s)
(* [tail.done] is closed: the response runs when [tail.appended] *)
| step_client_run s t l1 l2 :
    s.(waits) = l1 ++ t :: l2 → s.(slots) !! t = Some Done → slot_appended s t = true →
    commit_step s (start_response (S t) (l1 ++ l2) s)
| step_client_fail s t l1 l2 :
    s.(waits) = l1 ++ t :: l2 → s.(slots) !! t = Some Done → slot_appended s t = false →
    commit_step s (MkCommits s.(slots) s.(items) s.(sctx_done) (l1 ++ l2) s.(started) (s.(refused) ++ [t]))
(* its own context is cancelled while it waits *)
| step_client_cancel s t l1 l2 :
    s.(waits) = l1 ++ t :: l2 →
    commit_step s (MkCommits s.(slots) s.(items) s.(sctx_done) (l1 ++ l2) s.(started) s.(refused)).

Definition reachable (s : Commits) : Prop := rtc commit_step commits_init s.

(** ** Invariant *)

(** A slot that is done comes after done ones only. *)
Definition done_prefix (l : list SlotPhase) : Prop :=
  ∀ i j, (j < i)%nat → l !! i = Some Done → l !! j = Some Done.

(** What a slot past the append gate left, and what an earlier slot needs. *)
Record ordered (s : Commits) : Prop := {
  ord_done : done_prefix s.(slots);
  ord_sorted : StronglySorted lt s.(items);
  ord_items : ∀ i, i ∈ s.(items) → ∃ p, s.(slots) !! i = Some p ∧ p ≠ Working ∧ ∀ j, (j < i)%nat → s.(slots) !! j = Some Done;
  ord_appended : ∀ i, s.(slots) !! i = Some Appended → i ∈ s.(items);
}.

(** The session lives, or lived when the invariant last mattered. *)
Definition commit_inv (s : Commits) : Prop := s.(sctx_done) = false → ordered s.

Lemma lookup_set_slot i j p (l : list SlotPhase) q :
  <[i := p]> l !! j = Some q → j ≠ i ∧ l !! j = Some q ∨ j = i ∧ q = p.
Proof.
  rewrite list_lookup_insert_Some. intros [(-> & -> & _)|[Hne Hl]]; [by right|left]. by split.
Qed.

(** A slot that is not done leaves its phase. *)
Lemma ordered_set s i p q :
  ordered s → s.(slots) !! i = Some p → p ≠ Done → q ≠ Working → q ≠ Appended →
  (q = Done → prev_done s i = true) → ordered (set_slot i q s).
Proof.
  intros [H1 H2 H3 H4] Hi Hp Hq1 Hq2 Hprev.
  assert (Hlen : i < length s.(slots)) by (eapply lookup_lt_Some; done).
  assert (Hkeep : ∀ j, s.(slots) !! j = Some Done → <[i := q]> s.(slots) !! j = Some Done).
  { intros j Hj. rewrite list_lookup_insert_ne; [done|]. intros ->. congruence. }
  split; simpl; [|done| |].
  - intros x j Hlt Hx. apply lookup_set_slot in Hx as [[Hne Hx]|[-> <-]].
    + apply Hkeep. by eapply H1.
    + specialize (Hprev eq_refl). destruct i as [|i]; [lia|]. simpl in Hprev. apply bool_decide_eq_true in Hprev.
      apply Hkeep. destruct (decide (j = i)) as [->|]; [done|]. eapply H1; [|done]. lia.
  - intros x Hx. destruct (H3 x Hx) as (px & Hpx & Hpw & Hbefore).
    destruct (decide (x = i)) as [->|Hne].
    + exists q. rewrite list_lookup_insert_eq by done. split_and!; auto.
    + exists px. rewrite list_lookup_insert_ne by done. split_and!; auto.
  - intros x Hx. apply lookup_set_slot in Hx as [[Hne Hx]|[-> ?]]; [by apply H4|done].
Qed.

Lemma StronglySorted_snoc (l : list nat) x :
  StronglySorted lt l → (∀ y, y ∈ l → y < x) → StronglySorted lt (l ++ [x]).
Proof.
  induction l as [|y l IH]; intros Hs Hx; simpl; [repeat constructor|].
  apply StronglySorted_inv in Hs as [Hs Hy]. constructor.
  - apply IH; [done|]. intros z Hz. apply Hx. by right.
  - apply Forall_app. split; [done|]. constructor; [|constructor]. apply Hx. by left.
Qed.

Lemma ordered_append s i :
  ordered s → s.(slots) !! i = Some Working → prev_done s i = true → ordered (appendUserItem i s).
Proof.
  intros [H1 H2 H3 H4] Hi Hprev.
  assert (Hlen : i < length s.(slots)) by (eapply lookup_lt_Some; done).
  assert (Hbefore : ∀ j, j < i → s.(slots) !! j = Some Done).
  { intros j Hj. destruct i as [|i]; [lia|]. simpl in Hprev. apply bool_decide_eq_true in Hprev.
    destruct (decide (j = i)) as [->|]; [done|]. eapply H1; [|done]. lia. }
  assert (Hkeep : ∀ j, s.(slots) !! j = Some Done → <[i := Appended]> s.(slots) !! j = Some Done).
  { intros j Hj. rewrite list_lookup_insert_ne; [done|]. intros ->. congruence. }
  split; simpl.
  - intros x j Hlt Hx. apply lookup_set_slot in Hx as [[Hne Hx]|[-> ?]]; [|done].
    apply Hkeep. by eapply H1.
  - apply StronglySorted_snoc; [done|]. intros y Hy. destruct (H3 y Hy) as (p & Hp & Hpw & Hby).
    destruct (Nat.lt_trichotomy y i) as [?|[->|Hgt]]; [done|congruence|].
    specialize (Hby i Hgt). congruence.
  - intros x [Hx|Hx]%elem_of_app.
    + destruct (H3 x Hx) as (p & Hp & Hpw & Hbx). exists p.
      rewrite list_lookup_insert_ne by congruence. split_and!; auto.
    + apply list_elem_of_singleton in Hx as ->. exists Appended.
      rewrite list_lookup_insert_eq by done. split_and!; auto.
  - intros x Hx. rewrite elem_of_app. apply lookup_set_slot in Hx as [[Hne Hx]|[-> _]].
    + left. by apply H4.
    + right. by apply list_elem_of_singleton.
Qed.

Lemma ordered_next s : ordered s → ordered (nextCommitSlotLocked s).
Proof.
  intros [H1 H2 H3 H4]. split; simpl; [|done| |].
  - intros i j Hlt Hi. apply lookup_app_Some in Hi as [Hi|[Hge Hi]].
    + apply lookup_app_l_Some. by eapply H1.
    + by apply list_lookup_singleton_Some in Hi as [_ ?].
  - intros i Hi. destruct (H3 i Hi) as (p & Hp & Hpw & Hb). exists p.
    split_and!; [by apply lookup_app_l_Some|done|]. intros j Hj. apply lookup_app_l_Some. auto.
  - intros i Hi. apply lookup_app_Some in Hi as [Hi|[_ Hi]]; [by apply H4|].
    by apply list_lookup_singleton_Some in Hi as [_ ?].
Qed.

Lemma commit_inv_step s s' : commit_inv s → commit_step s s' → commit_inv s'.
Proof.
  intros HI Hstep. unfold commit_inv in *. inversion Hstep; subst; simpl; intros Hs.
  - by apply ordered_next, HI.
  - eapply ordered_set; try done. by apply HI.
  - apply ordered_append; [by apply HI|done|done].
  - congruence.
  - eapply ordered_set; try done. by apply HI.
  - eapply ordered_set; [by apply HI|done|done|done|done|]. intros _. destruct H0; congruence.
  - done.
  - destruct (HI Hs). by split.
  - destruct (HI Hs). by split.
  - destruct (HI Hs). by split.
  - destruct (HI Hs). by split.
  - destruct (HI Hs). by split.
Qed.

Lemma commits_reachable_inv s : reachable s → commit_inv s.
Proof.
  intros Hr. eapply (rtc_invariant commit_step commit_inv); eauto using commit_inv_step.
  intros _. split; simpl; try done; [constructor|]. intros i Hi. by apply not_elem_of_nil in Hi.
Qed.

(** ** Client responses *)

(** The items of the first [n] slots. *)
Definition upto (n : nat) (l : list nat) : list nat := filter (λ i, i < n) l.

(** A response that started saw everything the [n] commits before it will ever
    append; a refused one waited for a commit that will never append. *)
Record responses_ok (s : Commits) : Prop := {
  ro_done : ∀ n seen t, (n, seen) ∈ s.(started) → t < n → s.(slots) !! t = Some Done;
  ro_seen : ∀ n seen, (n, seen) ∈ s.(started) → upto n s.(items) = upto n seen;
  ro_refused : ∀ t, t ∈ s.(refused) → s.(slots) !! t = Some Done ∧ t ∉ s.(items);
}.

Lemma responses_ok_slots s s' :
  responses_ok s → s'.(started) = s.(started) → s'.(refused) = s.(refused) → s'.(items) = s.(items) →
  (∀ t, s.(slots) !! t = Some Done → s'.(slots) !! t = Some Done) → responses_ok s'.
Proof.
  intros [H1 H2 H3] Hst Hre Hit Hsl. split; rewrite ?Hst, ?Hre, ?Hit; eauto.
  intros t Ht. destruct (H3 t Ht). auto.
Qed.

Lemma set_slot_done (l : list SlotPhase) i p q t :
  l !! i = Some p → p ≠ Done → l !! t = Some Done → <[i := q]> l !! t = Some Done.
Proof. intros Hi Hp Ht. rewrite list_lookup_insert_ne; [done|]. intros ->. congruence. Qed.

Lemma responses_ok_append s i :
  responses_ok s → s.(slots) !! i = Some Working → responses_ok (appendUserItem i s).
Proof.
  intros [H1 H2 H3] Hi. split; simpl.
  - intros n seen t Hin Ht. eapply set_slot_done; eauto.
  - intros n seen Hin. rewrite <- (H2 n seen Hin). unfold upto.
    rewrite list.filter_app, filter_cons_False; [by rewrite filter_nil, app_nil_r|].
    intros Hlt. specialize (H1 n seen i Hin Hlt). congruence.
  - intros t Ht. destruct (H3 t Ht) as [Hd Hn]. split; [by eapply set_slot_done|].
    rewrite not_elem_of_app, list_elem_of_singleton. split; [done|]. intros ->. congruence.
Qed.

Lemma responses_ok_start s n w :
  responses_ok s → (∀ t, t < n → s.(slots) !! t = Some Done) → responses_ok (start_response n w s).
Proof.
  intros [H1 H2 H3] Hn. split; simpl; [| |done].
  - intros m seen t [Hin|Hin]%elem_of_app Ht; [by eapply H1|].
    apply list_elem_of_singleton in Hin as [= -> ->]. auto.
  - intros m seen [Hin|Hin]%elem_of_app; [by apply H2|]. by apply list_elem_of_singleton in Hin as [= -> ->].
Qed.

(** When a slot is done so is every slot before it. *)
Lemma done_below s t : ordered s → s.(slots) !! t = Some Done → ∀ i, i < S t → s.(slots) !! i = Some Done.
Proof.
  intros HO Ht i Hi. destruct (decide (i = t)) as [->|]; [done|]. eapply (ord_done _ HO); [|done]. lia.
Qed.

Lemma commitTail_last s t : commitTail s = Some t → length s.(slots) = S t.
Proof. unfold commitTail. case_decide as Hd; [done|]. destruct (slots s); naive_solver. Qed.

Lemma responses_ok_step s s' :
  commit_inv s → (s.(sctx_done) = false → responses_ok s) → commit_step s s' →
  s'.(sctx_done) = false → responses_ok s'.
Proof.
  intros HO HS Hstep Hs. assert (s.(sctx_done) = false) as Hs0 by (inversion Hstep; subst; simpl in *; congruence).
  specialize (HS Hs0). specialize (HO Hs0).
  inversion Hstep; subst; simpl in *;
    try (eapply responses_ok_slots; [done|done|done|done|]; intros t0 Ht0; simpl;
         solve [done | by apply lookup_app_l_Some | by eapply set_slot_done]).
  - by apply responses_ok_append.
  - apply responses_ok_start; [done|]. intros t Ht. destruct (commitTail s) as [t'|] eqn:Htail.
    + rewrite (commitTail_last _ _ Htail) in Ht. eapply done_below; eauto.
    + unfold commitTail in Htail. case_decide as Hd; [|done]. rewrite Hd in Ht. simpl in Ht. lia.
  - apply responses_ok_start; [done|]. by apply done_below.
  - destruct HS as [HR1 HR2 HR3]. split; simpl; [done|done|].
    intros x [Hx|Hx]%elem_of_app; [by apply HR3|]. apply list_elem_of_singleton in Hx as ->.
    split; [done|]. by eapply bool_decide_eq_false_1.
Qed.

Lemma reachable_responses s : reachable s → s.(sctx_done) = false → responses_ok s.
Proof.
  intros Hr. apply (rtc_invariant commit_step (λ s, commit_inv s ∧ (s.(sctx_done) = false → responses_ok s))
    commits_init s) in Hr as [_ ?]; [done| |].
  - intros a b [H1 H2] Hs. split; [by eapply commit_inv_step|]. by eapply responses_ok_step.
  - split; [apply commits_reachable_inv, rtc_refl|].
    intros _. split; simpl; intros *; intros Hin; by apply not_elem_of_nil in Hin.
Qed.

(** ** Theorems *)

(** C32. As long as the session lives, the conversation holds the user items
    of the committed turns in the order in which the turns were issued,
    whatever the order in which their transcriptions end; every response a
    client asked for saw exactly the items that the commits issued before it
    will ever append; and a response closed as failed waited for a commit
    that appends nothing. *)
Theorem commit_order s :
  reachable s → s.(sctx_done) = false →
  StronglySorted lt s.(items) ∧
  (∀ n seen, (n, seen) ∈ s.(started) →
     upto n s.(items) = upto n seen ∧ ∀ t, t < n → s.(slots) !! t = Some Done) ∧
  ∀ t, t ∈ s.(refused) → s.(slots) !! t = Some Done ∧ t ∉ s.(items).
Proof.
  intros Hr Hs. destruct (reachable_responses s Hr Hs) as [H1 H2 H3].
  split_and!; [by apply (commits_reachable_inv s Hr Hs)| |done]. eauto.
Qed.

(** The steps a commit has left. *)
Definition steps_left (p : SlotPhase) : nat :=
  match p with Working => 3 | Appended => 2 | Leaving => 1 | Done => 0 end.

(** No commit waits forever: while some commit has not finished, the first
    of them can take a step of its own that brings it closer to the end, and
    once the session context is cancelled every one of them can, whatever the
    others do. *)
Theorem commit_progress s i p :
  s.(slots) !! i = Some p → p ≠ Done →
  s.(sctx_done) = true ∨ (∀ j, j < i → s.(slots) !! j = Some Done) →
  ∃ s' p', commit_step s s' ∧ s'.(slots) !! i = Some p' ∧ steps_left p' < steps_left p.
Proof.
  intros Hi Hp Hor. assert (Hlen : i < length s.(slots)) by (eapply lookup_lt_Some; done).
  assert (Hset : ∀ q, (set_slot i q s).(slots) !! i = Some q)
    by (intros q; simpl; by apply list_lookup_insert_eq).
  destruct p; [| | |done].
  - exists (set_slot i Leaving s), Leaving. split_and!; [by apply step_return|apply Hset|simpl; lia].
  - exists (set_slot i Leaving s), Leaving. split_and!; [by apply step_generated|apply Hset|simpl; lia].
  - exists (set_slot i Done s), Done. split_and!; [|apply Hset|simpl; lia].
    apply step_release; [done|]. destruct Hor as [?|Hb]; [by right|left].
    destruct i as [|i]; [done|]. simpl. apply bool_decide_eq_true. apply Hb. lia.
Qed.

(** ** Witnesses *)

(** Two commits whose transcriptions end in the other order. *)
Definition demo_commits : Commits := MkCommits [Done; Leaving] [0; 1] false [] [(1, [0])] [].

Lemma demo_commits_reachable : reachable demo_commits.
Proof.
  eapply rtc_l; [apply step_issueCommit|].
  eapply rtc_l; [eapply (step_client_wait _ 0); [done|done]|].
  eapply rtc_l; [apply step_issueCommit|].
  eapply rtc_l; [apply (step_append _ 0); done|].
  eapply rtc_l; [apply (step_generated _ 0); done|].
  eapply rtc_l; [apply (step_release _ 0); [done|by left]|].
  eapply rtc_l; [apply (step_client_run _ 0 [] []); done|].
  eapply rtc_l; [apply (step_append _ 1); done|].
  eapply rtc_l; [apply (step_generated _ 1); done|]. apply rtc_refl.
Qed.

Lemma commit_order_witness : demo_commits.(sctx_done) = false ∧ StronglySorted lt demo_commits.(items).
Proof. split; [reflexivity|]. apply (commit_order demo_commits demo_commits_reachable eq_refl). Defined.

Lemma commit_progress_witness :
  ∃ s' p', commit_step demo_commits s' ∧ s'.(slots) !! 1 = Some p' ∧ steps_left p' < steps_left Leaving.
Proof.
  apply (commit_progress demo_commits 1 Leaving eq_refl); [discriminate|]. right.
  intros [|j] Hj; [reflexivity|lia].
Defined.
