(* ===== verification/RealtimeSession.v ===== *)
(** * RealtimeSession: the teardown of a realtime session

    Models [realtime_conncoord.go] and [realtime_compactcoord.go] and puts the
    machines of a session together: the connection coordinator, driven by the
    session goroutine, the input goroutines it starts, the response sink
    ([RespSink]) and one compaction sink per conversation.  [Teardown] blocks,
    so it is the program of the session goroutine, one step per blocking
    operation; everything else runs in between. *)
From S2P Require Import Prelude Coordinator.
From S2P Require ConnCoord CompactCoord RespCoord RespSink.

(** ** The compaction sink *)

(** [c_running] goroutines are in [run], [c_reported] have applied [Finished]
    and not yet left the wait group. *)
Record compactionSink := MkCompaction {
  c_coord : CompactCoord.State;
  c_cancelled : bool;
  c_running : nat;
  c_reported : nat;
}.

Definition newCompactionSink : compactionSink := MkCompaction CompactCoord.Idle false 0 0.

Definition c_perform (e : CompactCoord.Effect) (s : compactionSink) : compactionSink :=
  match e with
  | CompactCoord.StartCompaction => MkCompaction s.(c_coord) s.(c_cancelled) (S s.(c_running)) s.(c_reported)
  end.

Definition c_apply (e : CompactCoord.Event) (s : compactionSink) : compactionSink :=
  let '(c, w, _) := Apply (MkCoordinator s.(c_coord) CompactCoord.Next c_perform) e s in
  MkCompaction c.(state) w.(c_cancelled) w.(c_running) w.(c_reported).

Definition trigger : compactionSink → compactionSink := c_apply CompactCoord.Trigger.

(** The goroutine: [Finished] applied, then the wait group left. *)
Definition c_finish (s : compactionSink) : compactionSink :=
  let s := c_apply CompactCoord.Finished s in
  MkCompaction s.(c_coord) s.(c_cancelled) (pred s.(c_running)) (S s.(c_reported)).

Definition c_done (s : compactionSink) : compactionSink :=
  MkCompaction s.(c_coord) s.(c_cancelled) s.(c_running) (pred s.(c_reported)).

(** [shutdown] in its three steps; the second waits for [c_joined]. *)
Definition c_cancel (s : compactionSink) : compactionSink :=
  MkCompaction s.(c_coord) true s.(c_running) s.(c_reported).

Definition c_joined (s : compactionSink) : Prop := s.(c_running) = 0 ∧ s.(c_reported) = 0.

Definition c_shutdown : compactionSink → compactionSink := c_apply CompactCoord.Shutdown.

(** ** The session *)

(** Where the session goroutine is: in its loop, in [Teardown], past it. *)
Inductive ShutdownPc := CCancel | CJoin | CShutdown.

Inductive MainPc :=
| MLoop
| MJoinInputs
| MCancelSession
| MShutdownResp
| MJoinResp
| MCompact (k : nat) (pc : ShutdownPc)
| MDelete
| MGone.

(** [chans] are the done channels made so far, closed or not, [wg] the input
    goroutines of the wait group, each known by its channel; the opus decode
    goroutine is outside the wait group. *)
Record Session := MkSession {
  conn : ConnCoord.State;
  chans : list bool;
  vadDone : option nat;
  soundWindowDone : option nat;
  decodeDone : option nat;
  wg : gset nat;
  decoding : bool;
  sessionCancelled : bool;
  resp : RespSink.Sys;
  comps : list compactionSink;
  main : MainPc;
  registered : bool;
}.

Definition newSession (conversations : nat) : Session :=
  MkSession (ConnCoord.Live false) [] None None None ∅ false false RespSink.sys_init
    (replicate conversations newCompactionSink) MLoop true.

(** [close(ch)]: a nil or a closed channel panics. *)
Definition close_chan (ch : option nat) (s : Session) : option Session :=
  n ← ch;
  match s.(chans) !! n with
  | Some false =>
      Some (MkSession s.(conn) (<[n := true]> s.(chans)) s.(vadDone) s.(soundWindowDone) s.(decodeDone)
              s.(wg) s.(decoding) s.(sessionCancelled) s.(resp) s.(comps) s.(main) s.(registered))
  | _ => None
  end.

(** [if ch != nil { close(ch) }] *)
Definition close_if (ch : option nat) (s : Session) : option Session :=
  match ch with None => Some s | Some _ => close_chan ch s end.

Definition set_vadDone (v : option nat) (s : Session) : Session :=
  MkSession s.(conn) s.(chans) v s.(soundWindowDone) s.(decodeDone) s.(wg) s.(decoding)
    s.(sessionCancelled) s.(resp) s.(comps) s.(main) s.(registered).

Definition set_main (v : MainPc) (s : Session) : Session :=
  MkSession s.(conn) s.(chans) s.(vadDone) s.(soundWindowDone) s.(decodeDone) s.(wg) s.(decoding)
    s.(sessionCancelled) s.(resp) s.(comps) v s.(registered).

Definition set_comps (v : list compactionSink) (s : Session) : Session :=
  MkSession s.(conn) s.(chans) s.(vadDone) s.(soundWindowDone) s.(decodeDone) s.(wg) s.(decoding)
    s.(sessionCancelled) s.(resp) v s.(main) s.(registered).

Definition set_resp (v : RespSink.Sys) (s : Session) : Session :=
  MkSession s.(conn) s.(chans) s.(vadDone) s.(soundWindowDone) s.(decodeDone) s.(wg) s.(decoding)
    s.(sessionCancelled) v s.(comps) s.(main) s.(registered).

Definition set_conn (v : ConnCoord.State) (s : Session) : Session :=
  MkSession v s.(chans) s.(vadDone) s.(soundWindowDone) s.(decodeDone) s.(wg) s.(decoding)
    s.(sessionCancelled) s.(resp) s.(comps) s.(main) s.(registered).

(** [connSink.Perform]; [Teardown] up to its first wait. *)
Definition Perform (s : Session) (e : ConnCoord.Effect) : option Session :=
  match e with
  | ConnCoord.StartVAD =>
      let n := length s.(chans) in
      Some (MkSession s.(conn) (s.(chans) ++ [false]) (Some n) s.(soundWindowDone) s.(decodeDone)
              ({[ n ]} ∪ s.(wg)) s.(decoding) s.(sessionCancelled) s.(resp) s.(comps) s.(main) s.(registered))
  | ConnCoord.StopVAD => s ← close_chan s.(vadDone) s; Some (set_vadDone None s)
  | ConnCoord.Teardown =>
      s ← close_if s.(decodeDone) s;
      s ← close_if s.(soundWindowDone) s;
      Some (set_main MJoinInputs s)
  end.

(** [s.coord.Apply(e)]: the state is stored, then the effects are performed. *)
Definition conn_apply (e : ConnCoord.Event) (s : Session) : option Session :=
  match ConnCoord.Next s.(conn) e with
  | (_, _, Some _) => Some s
  | (c, fx, None) => foldM Perform (set_conn c s) fx
  end.

Definition setVAD (active : bool) : Session → option Session := conn_apply (ConnCoord.SetVAD active).
Definition close : Session → option Session := conn_apply ConnCoord.Close.

(** An input goroutine of the wait group returns. *)
Definition exit_input (n : nat) (s : Session) : Session :=
  MkSession s.(conn) s.(chans) s.(vadDone) s.(soundWindowDone) s.(decodeDone) (s.(wg) ∖ {[ n ]}) s.(decoding)
    s.(sessionCancelled) s.(resp) s.(comps) s.(main) s.(registered).

(** A response goroutine is in its body. *)
Definition responding (s : Session) : Prop :=
  ∃ id g, s.(resp).(RespSink.rs).2.(RespSink.wg) !! id = Some g ∧ g.(RespSink.g_at) = RespSink.InBody.

(** All that can happen: the handler's choice of input goroutines before its
    loop; a step of the session goroutine; and the steps of the others.  A
    goroutine may return at any time, for a reason of its own (an error of the
    transport, the end of its work); [bound_step] below has those that it must
    take.  Responses are issued, cancelled and run as in [RespSink], by anyone; a
    compaction is triggered at the end of a response, in its goroutine. *)
Inductive session_step : relation Session :=
| s_decode s :
    s.(main) = MLoop → s.(decodeDone) = None →
    session_step s (MkSession s.(conn) (s.(chans) ++ [false]) s.(vadDone) s.(soundWindowDone)
      (Some (length s.(chans))) s.(wg) true s.(sessionCancelled) s.(resp) s.(comps) s.(main) s.(registered))
| s_sound s :
    s.(main) = MLoop → s.(soundWindowDone) = None →
    session_step s (MkSession s.(conn) (s.(chans) ++ [false]) s.(vadDone) (Some (length s.(chans)))
      s.(decodeDone) ({[ length s.(chans) ]} ∪ s.(wg)) s.(decoding) s.(sessionCancelled) s.(resp) s.(comps)
      s.(main) s.(registered))
| s_setVAD s s' active : s.(main) = MLoop → setVAD active s = Some s' → session_step s s'
| s_close s s' : s.(main) = MLoop → close s = Some s' → session_step s s'
| s_join_inputs s : s.(main) = MJoinInputs → s.(wg) = ∅ → session_step s (set_main MCancelSession s)
| s_cancel_session s :
    s.(main) = MCancelSession →
    session_step s (MkSession s.(conn) s.(chans) s.(vadDone) s.(soundWindowDone) s.(decodeDone) s.(wg)
      s.(decoding) true s.(resp) s.(comps) MShutdownResp s.(registered))
| s_shutdown_resp s :
    s.(main) = MShutdownResp →
    session_step s (set_main MJoinResp (set_resp
      (RespSink.MkSys (RespSink.apply RespCoord.Shutdown s.(resp).(RespSink.rs)) s.(resp).(RespSink.issuing)) s))
| s_join_resp s :
    s.(main) = MJoinResp → RespSink.joined s.(resp) → session_step s (set_main (MCompact 0 CCancel) s)
| s_c_cancel s k c :
    s.(main) = MCompact k CCancel → s.(comps) !! k = Some c →
    session_step s (set_main (MCompact k CJoin) (set_comps (<[k := c_cancel c]> s.(comps)) s))
| s_c_join s k c :
    s.(main) = MCompact k CJoin → s.(comps) !! k = Some c → c_joined c →
    session_step s (set_main (MCompact k CShutdown) s)
| s_c_shutdown s k c :
    s.(main) = MCompact k CShutdown → s.(comps) !! k = Some c →
    session_step s (set_main (MCompact (S k) CCancel) (set_comps (<[k := c_shutdown c]> s.(comps)) s))
| s_compacted s k :
    s.(main) = MCompact k CCancel → s.(comps) !! k = None → session_step s (set_main MDelete s)
| s_delete s :
    s.(main) = MDelete →
    session_step s (MkSession s.(conn) s.(chans) s.(vadDone) s.(soundWindowDone) s.(decodeDone) s.(wg)
      s.(decoding) s.(sessionCancelled) s.(resp) s.(comps) MGone false)
| s_input_exit s n :
    n ∈ s.(wg) → session_step s (exit_input n s)
| s_decode_exit s :
    s.(decoding) = true → session_step s (MkSession s.(conn) s.(chans) s.(vadDone) s.(soundWindowDone)
      s.(decodeDone) s.(wg) false s.(sessionCancelled) s.(resp) s.(comps) s.(main) s.(registered))
| s_resp s σ : RespSink.sys_step s.(resp) σ → session_step s (set_resp σ s)
| s_trigger s k c :
    responding s → s.(comps) !! k = Some c → session_step s (set_comps (<[k := trigger c]> s.(comps)) s)
| s_c_finish s k c :
    s.(comps) !! k = Some c → c.(c_running) ≠ 0 → session_step s (set_comps (<[k := c_finish c]> s.(comps)) s)
| s_c_done s k c :
    s.(comps) !! k = Some c → c.(c_reported) ≠ 0 → session_step s (set_comps (<[k := c_done c]> s.(comps)) s).

Definition reachable (s : Session) : Prop := ∃ n, rtc session_step (newSession n) s.

(** ** Invariant *)

(** Single flight, seen from the goroutines. *)
Definition comp_ok (c : compactionSink) : Prop :=
  match c.(c_coord) with
  | CompactCoord.Idle | CompactCoord.Terminated => c.(c_running) = 0
  | CompactCoord.Running => c.(c_running) = 1
  | CompactCoord.NilState => False
  end.

(** A conversation whose compaction is over for good. *)
Definition c_over (c : compactionSink) : Prop := c.(c_coord) = CompactCoord.Terminated ∧ c_joined c.

(** The open done channels, all different. *)
Definition open_chan (s : Session) (n : nat) : Prop := s.(chans) !! n = Some false.

Record chans_ok (s : Session) : Prop := {
  ch_vad : match s.(conn) with
           | ConnCoord.Live true => ∃ n, s.(vadDone) = Some n ∧ open_chan s n
           | ConnCoord.Live false => s.(vadDone) = None
           | _ => False
           end;
  ch_sound : ∀ n, s.(soundWindowDone) = Some n → open_chan s n ∧ s.(vadDone) ≠ Some n;
  ch_decode : ∀ n, s.(decodeDone) = Some n → open_chan s n ∧ s.(vadDone) ≠ Some n ∧ s.(soundWindowDone) ≠ Some n;
}.

(** How far the teardown is. *)
Definition stage (pc : MainPc) : nat :=
  match pc with
  | MLoop => 0 | MJoinInputs => 1 | MCancelSession => 2 | MShutdownResp => 3 | MJoinResp => 4
  | MCompact _ _ => 5 | MDelete => 6 | MGone => 7
  end.

Definition compacted (s : Session) : nat :=
  match s.(main) with MCompact k _ => k | MDelete | MGone => length s.(comps) | _ => 0 end.

Record sess_inv (s : Session) : Prop := {
  se_resp : RespSink.sys_inv s.(resp);
  se_comps : ∀ k c, s.(comps) !! k = Some c → comp_ok c;
  se_loop : s.(main) = MLoop → chans_ok s;
  se_torn : s.(main) ≠ MLoop → s.(conn) = ConnCoord.Torn;
  se_inputs : 2 ≤ stage s.(main) → s.(wg) = ∅;
  se_term : 4 ≤ stage s.(main) → RespSink.coord s.(resp) = RespCoord.Terminated;
  se_joined : 5 ≤ stage s.(main) → RespSink.joined s.(resp);
  se_over : ∀ k c, k < compacted s → s.(comps) !! k = Some c → c_over c;
  se_shut : ∀ k c, s.(main) = MCompact k CShutdown → s.(comps) !! k = Some c → c_joined c;
  se_gone : s.(main) = MGone → s.(registered) = false;
}.

(** A change of one compaction sink, by a goroutine or by the teardown. *)
Lemma comps_change s k c c' pc :
  sess_inv s → s.(comps) !! k = Some c → comp_ok c' → (c_over c → c_over c') →
  s.(main) ≠ MLoop ∨ pc = MLoop → stage s.(main) = stage pc →
  (∀ j, j < compacted (set_main pc (set_comps (<[k := c']> s.(comps)) s)) → j < compacted s ∨ j = k ∧ c_over c') →
  (∀ j x, pc = MCompact j CShutdown → <[k := c']> s.(comps) !! j = Some x → c_joined x) →
  (pc = MGone → s.(main) = MGone) →
  sess_inv (set_main pc (set_comps (<[k := c']> s.(comps)) s)).
Proof.
  intros HI Hk Hok Ho Hloop Hst Hcomp Hsh Hg. split; simpl.
  - apply HI.
  - intros j x. rewrite list_lookup_insert_Some. intros [(-> & <- & _)|[_ Hx]]; [done|by eapply se_comps].
  - intros ->. destruct (se_loop s HI) as [H1 H2 H3]; [by destruct (s.(main))|]. by split.
  - intros Hpc. apply (se_torn s HI). destruct Hloop; [done|congruence].
  - rewrite <-Hst. apply HI.
  - rewrite <-Hst. apply HI.
  - rewrite <-Hst. apply HI.
  - intros j x Hj' Hx. apply list_lookup_insert_Some in Hx as [(Heq & <- & _)|[Hne Hx]];
      destruct (Hcomp j Hj') as [Hlt|[? ?]]; subst; try done; [|by eapply se_over].
    apply Ho. by eapply se_over.
  - done.
  - intros ->. by apply HI, Hg.
Qed.

Lemma comps_change_same s k c c' :
  sess_inv s → s.(comps) !! k = Some c → comp_ok c' →
  (c_joined c → c_joined c') → (c_over c → c_over c') →
  sess_inv (set_comps (<[k := c']> s.(comps)) s).
Proof.
  intros HI Hk Hok Hj Ho. apply (comps_change s k c c' s.(main)); try done.
  - destruct (s.(main)); auto.
  - intros j. unfold compacted. simpl. rewrite length_insert. by left.
  - intros j x Hm. rewrite list_lookup_insert_Some. intros [(-> & <- & _)|[_ Hx]]; [|by eapply se_shut].
    apply Hj. by eapply se_shut.
Qed.

(** The response goroutines are gone once joined. *)
Lemma joined_not_responding s : RespSink.joined s.(resp) → ¬ responding s.
Proof. unfold RespSink.joined. intros Hj (id & g & Hg & _). by rewrite Hj in Hg. Qed.

(** The session goroutine advances without touching the rest. *)
Lemma main_change s pc :
  sess_inv s → s.(main) ≠ MLoop → pc ≠ MLoop → pc ≠ MGone →
  (2 ≤ stage pc → s.(wg) = ∅) → (4 ≤ stage pc → RespSink.coord s.(resp) = RespCoord.Terminated) →
  (5 ≤ stage pc → RespSink.joined s.(resp)) →
  (∀ k c, k < compacted (set_main pc s) → s.(comps) !! k = Some c → c_over c) →
  (∀ k c, pc = MCompact k CShutdown → s.(comps) !! k = Some c → c_joined c) →
  sess_inv (set_main pc s).
Proof.
  intros HI Hm Hl Hg H2 H4 H5 Ho Hs. split; simpl; try done; try apply HI; auto.
  intros _. by apply (se_torn s HI).
Qed.

(** A connection event in the loop: nothing panics, and a [Close] starts the
    teardown. *)
Lemma close_chan_open n s :
  open_chan s n → close_chan (Some n) s =
    Some (MkSession s.(conn) (<[n := true]> s.(chans)) s.(vadDone) s.(soundWindowDone) s.(decodeDone)
            s.(wg) s.(decoding) s.(sessionCancelled) s.(resp) s.(comps) s.(main) s.(registered)).
Proof. unfold close_chan, open_chan. simpl. by intros ->. Qed.

Lemma open_insert n m (l : list bool) : n ≠ m → l !! m = Some false → <[n := true]> l !! m = Some false.
Proof. intros Hne Hm. by rewrite list_lookup_insert_ne. Qed.

(** The invariant of a session still in its loop. *)
Lemma loop_inv s s' :
  sess_inv s → s.(main) = MLoop → s'.(main) = MLoop → s'.(resp) = s.(resp) → s'.(comps) = s.(comps) →
  chans_ok s' → sess_inv s'.
Proof.
  intros HI Hm Hm' Hr Hc Hch. split; rewrite ?Hm', ?Hr, ?Hc; simpl; try done; try lia; try apply HI.
  unfold compacted. rewrite Hm'. lia.
Qed.

Lemma setVAD_ok s active :
  sess_inv s → s.(main) = MLoop → ∃ s', setVAD active s = Some s' ∧ s'.(main) = MLoop ∧ sess_inv s'.
Proof.
  intros HI Hm. pose proof (se_loop s HI Hm) as [H1 H2 H3]. unfold setVAD, conn_apply, ConnCoord.Next.
  destruct (s.(conn)) as [running| |] eqn:Hc; [|done|done].
  destruct running, active; simpl.
  - eexists. split; [done|]. split; [done|]. eapply loop_inv; try done.
  - destruct H1 as (n & Hv & Ho). rewrite Hv. rewrite (close_chan_open n) by done. simpl.
    eexists. split; [done|]. split; [done|]. eapply loop_inv; try done. split; simpl; [done| |].
    + intros m Hm'. destruct (H2 m Hm'). split; [|done]. apply open_insert; [congruence|done].
    + intros m Hm'. destruct (H3 m Hm') as (? & ? & ?). split; [|by split]. apply open_insert; [congruence|done].
  - eexists. split; [done|]. split; [done|]. eapply loop_inv; try done.
    assert (Hnew : ∀ m, open_chan s m → m ≠ length s.(chans) ∧ (s.(chans) ++ [false]) !! m = Some false).
    { intros m Ho. unfold open_chan in Ho. pose proof (lookup_lt_Some _ _ _ Ho). split; [lia|].
      by apply lookup_app_l_Some. }
    split; simpl.
    + eexists. split; [done|]. unfold open_chan. simpl. by rewrite lookup_app_r, Nat.sub_diag by lia.
    + intros m Hm'. destruct (H2 m Hm') as [Ho _]. destruct (Hnew m Ho). split; [done|congruence].
    + intros m Hm'. destruct (H3 m Hm') as (Ho & _ & ?). destruct (Hnew m Ho). split; [done|]. split; [congruence|done].
  - eexists. split; [done|]. split; [done|]. eapply loop_inv; try done.
Qed.

(** The end of a [Close]: the input channels closed, the first wait ahead. *)
Definition torn_from (s s' : Session) : Prop :=
  s'.(conn) = ConnCoord.Torn ∧ s'.(main) = MJoinInputs ∧ s'.(resp) = s.(resp) ∧ s'.(comps) = s.(comps).

Lemma torn_inv s s' : sess_inv s → s.(main) = MLoop → torn_from s s' → sess_inv s'.
Proof.
  intros HI Hm (Hc & Hm' & Hr & Hcs). split; rewrite ?Hm', ?Hr, ?Hcs; simpl; try done; try lia; try apply HI.
  unfold compacted. rewrite Hm'. lia.
Qed.

Lemma close_if_open ch s :
  (∀ n, ch = Some n → open_chan s n) →
  ∃ l, close_if ch s = Some (MkSession s.(conn) l s.(vadDone) s.(soundWindowDone) s.(decodeDone)
            s.(wg) s.(decoding) s.(sessionCancelled) s.(resp) s.(comps) s.(main) s.(registered)) ∧
       ∀ m, ch ≠ Some m → open_chan s m → l !! m = Some false.
Proof.
  intros Ho. destruct ch as [n|]; unfold close_if.
  - rewrite (close_chan_open n) by auto. eexists. split; [done|]. intros m Hne Hm. apply open_insert; [congruence|done].
  - exists s.(chans). split; [by destruct s|]. done.
Qed.

Lemma teardown_ok s :
  (∀ n, s.(soundWindowDone) = Some n → open_chan s n) →
  (∀ n, s.(decodeDone) = Some n → open_chan s n ∧ s.(soundWindowDone) ≠ Some n) →
  s.(conn) = ConnCoord.Torn →
  ∃ s', Perform s ConnCoord.Teardown = Some s' ∧ torn_from s s'.
Proof.
  intros H2 H3 Hc. unfold Perform.
  destruct (close_if_open s.(decodeDone) s) as (l & -> & Hl); [intros n Hn; by apply H3|]. simpl.
  set (s1 := MkSession _ _ _ _ _ _ _ _ _ _ _ _).
  destruct (close_if_open s.(soundWindowDone) s1) as (l' & -> & _).
  { intros n Hn. apply Hl; [|by apply H2]. intros Hd. by destruct (H3 n Hd). }
  simpl. eexists. split; [done|]. by split_and!.
Qed.

Lemma stop_ok s n :
  s.(vadDone) = Some n → open_chan s n → ∃ s', Perform s ConnCoord.StopVAD = Some s' ∧
    s'.(conn) = s.(conn) ∧ s'.(main) = s.(main) ∧ s'.(resp) = s.(resp) ∧ s'.(comps) = s.(comps) ∧
    s'.(soundWindowDone) = s.(soundWindowDone) ∧ s'.(decodeDone) = s.(decodeDone) ∧
    ∀ m, m ≠ n → open_chan s m → open_chan s' m.
Proof.
  intros Hv Ho. unfold Perform. rewrite Hv, (close_chan_open n) by done. simpl.
  eexists. split; [done|]. split_and!; try done. intros m Hne Hm. by apply open_insert.
Qed.

Lemma close_ok s : sess_inv s → s.(main) = MLoop → ∃ s', close s = Some s' ∧ torn_from s s'.
Proof.
  intros HI Hm. pose proof (se_loop s HI Hm) as [H1 H2 H3]. unfold close, conn_apply, ConnCoord.Next.
  set (s0 := set_conn ConnCoord.Torn s).
  destruct (s.(conn)) as [running| |] eqn:Hc; [|done|done]. destruct running; cbn [foldM]; fold s0.
  - destruct H1 as (n & Hv & Ho).
    destruct (stop_ok s0 n) as (s1 & -> & E1 & E2 & E3 & E4 & E5 & E6 & Hopen); [done|done|].
    cbn [mbind option_bind].
    destruct (teardown_ok s1) as (s' & -> & T1 & T2 & T3 & T4).
    + intros m. rewrite E5. intros Hm'. destruct (H2 m Hm'). apply Hopen; [congruence|done].
    + intros m. rewrite E5, E6. intros Hm'. destruct (H3 m Hm') as (? & ? & ?). split; [|done].
      apply Hopen; [congruence|done].
    + by rewrite E1.
    + simpl. eexists. split; [done|]. split_and!; [done|done|by rewrite T3, E3|by rewrite T4, E4].
  - destruct (teardown_ok s0) as (s' & -> & T1 & T2 & T3 & T4);
      [by intros; apply H2|by intros n Hn; destruct (H3 n Hn) as (? & _ & ?)|done|].
    simpl. eexists. split; [done|]. by split_and!.
Qed.

(** The steps on one compaction sink. *)
Ltac comp_cases c :=
  destruct c as [[] cc r p]; unfold comp_ok, c_over, c_joined; simpl; intros;
  intuition (try congruence; try lia).

Lemma trigger_ok c : comp_ok c → comp_ok (trigger c) ∧ (c_over c → c_over (trigger c)).
Proof. comp_cases c. Qed.

Lemma finish_ok c :
  comp_ok c → c.(c_running) ≠ 0 →
  comp_ok (c_finish c) ∧ (c_joined c → c_joined (c_finish c)) ∧ (c_over c → c_over (c_finish c)).
Proof. comp_cases c. Qed.

Lemma done_ok c :
  comp_ok c → comp_ok (c_done c) ∧ (c_joined c → c_joined (c_done c)) ∧ (c_over c → c_over (c_done c)).
Proof. comp_cases c. Qed.

Lemma shutdown_ok c : comp_ok c → c_joined c → comp_ok (c_shutdown c) ∧ c_over (c_shutdown c).
Proof. comp_cases c. Qed.

Lemma cancel_ok c : comp_ok c → comp_ok (c_cancel c) ∧ (c_over c → c_over (c_cancel c)).
Proof. comp_cases c. Qed.

(** A change outside what the invariant says of the session's end. *)
Lemma frame_inv s s' :
  sess_inv s → s'.(main) = s.(main) → s'.(conn) = s.(conn) → s'.(comps) = s.(comps) → s'.(registered) = s.(registered) →
  (s.(main) = MLoop → chans_ok s') → (2 ≤ stage s.(main) → s'.(wg) = ∅) → RespSink.sys_inv s'.(resp) →
  (4 ≤ stage s.(main) → RespSink.coord s'.(resp) = RespCoord.Terminated) →
  (5 ≤ stage s.(main) → RespSink.joined s'.(resp)) → sess_inv s'.
Proof.
  intros HI Hm Hc Hcs Hg Hch Hw Hr Ht Hj. unfold compacted in *.
  split; rewrite ?Hm, ?Hc, ?Hcs, ?Hg; try done; try apply HI.
  unfold compacted. rewrite Hm, Hcs. apply HI.
Qed.

(** The session goroutine moves to the next wait. *)
Ltac advance H :=
  eapply main_change; [done|congruence|done|done|..]; unfold compacted in *; simpl in *; rewrite ?H in *; simpl in *;
  try done; try (intros; lia); auto.

Lemma sess_inv_step s s' : sess_inv s → session_step s s' → sess_inv s'.
Proof.
  intros HI Hstep. pose proof HI as [H1 H2 H3 H4 H5 H6 H7 H8 H9 H10]. destruct Hstep.
  - (* s_decode *) eapply frame_inv; try done. intros _. destruct (H3 H) as [V S D].
    assert (Hnew : ∀ m, open_chan s m → m ≠ length s.(chans) ∧ (s.(chans) ++ [false]) !! m = Some false).
    { intros m Ho. unfold open_chan in Ho. pose proof (lookup_lt_Some _ _ _ Ho). split; [lia|].
      by apply lookup_app_l_Some. }
    split; simpl.
    + destruct (s.(conn)) as [[]| |]; try done. destruct V as (n & Hv & Ho). exists n. split; [done|]. by apply Hnew.
    + intros m Hm. destruct (S m Hm) as [Ho ?]. split; [by apply Hnew|done].
    + intros m [= <-]. unfold open_chan. simpl. split; [by rewrite lookup_app_r, Nat.sub_diag by lia|]. split.
      * intros Hv. destruct (s.(conn)) as [[]| |]; try congruence; try done. destruct V as (n & Hv' & Ho).
        destruct (Hnew n Ho). congruence.
      * intros Hs. destruct (S _ Hs) as [Ho _]. by destruct (Hnew _ Ho).
  - (* s_sound *) eapply frame_inv; try done; [|by rewrite H; simpl; lia]. intros _. destruct (H3 H) as [V S D].
    assert (Hnew : ∀ m, open_chan s m → m ≠ length s.(chans) ∧ (s.(chans) ++ [false]) !! m = Some false).
    { intros m Ho. unfold open_chan in Ho. pose proof (lookup_lt_Some _ _ _ Ho). split; [lia|].
      by apply lookup_app_l_Some. }
    split; simpl.
    + destruct (s.(conn)) as [[]| |]; try done. destruct V as (n & Hv & Ho). exists n. split; [done|]. by apply Hnew.
    + intros m [= <-]. unfold open_chan. simpl. split; [by rewrite lookup_app_r, Nat.sub_diag by lia|].
      intros Hv. destruct (s.(conn)) as [[]| |]; try congruence; try done. destruct V as (n & Hv' & Ho).
      destruct (Hnew n Ho). congruence.
    + intros m Hm. destruct (D m Hm) as (Ho & ? & ?). destruct (Hnew m Ho). split; [done|]. split; [done|congruence].
  - (* s_setVAD *) destruct (setVAD_ok s active HI H) as (s1 & Hs1 & _ & ?). congruence.
  - (* s_close *) destruct (close_ok s HI H) as (s1 & Hs1 & Ht). assert (s1 = s') as -> by congruence.
    by eapply torn_inv.
  - (* s_join_inputs *) advance H.
  - (* s_cancel_session *)
    assert (HI' : sess_inv (set_main MShutdownResp s))
      by (advance H; intros _; apply H5; lia).
    eapply frame_inv; [exact HI'|..]; try done; simpl; try lia. intros _. apply H5. rewrite H. simpl. lia.
  - (* s_shutdown_resp *)
    set (σ := RespSink.MkSys _ _).
    assert (Hstep : RespSink.sys_step s.(resp) σ) by apply RespSink.step_shutdown.
    assert (Hσ : RespSink.sys_inv σ) by (by eapply RespSink.sink_inv_step).
    assert (Hterm : RespSink.coord σ = RespCoord.Terminated) by (by apply RespSink.shutdown_coord).
    assert (HI' : sess_inv (set_resp σ s)).
    { eapply frame_inv; try done; rewrite H; simpl; intros; done || lia || (apply H5; rewrite H; simpl; lia). }
    assert (H' : (set_resp σ s).(main) = MShutdownResp) by done. advance H'.
  - (* s_join_resp *) advance H.
  - (* s_c_cancel *) destruct (cancel_ok c (H2 _ _ H0)) as (Q1 & Q3).
    eapply comps_change; try done; rewrite ?H; simpl; try done; [by left|].
    intros j. unfold compacted. simpl. rewrite H. by left.
  - (* s_c_join *) advance H. intros j x [= <-] Hx. congruence.
  - (* s_c_shutdown *) destruct (shutdown_ok c (H2 _ _ H0) (H9 _ _ H H0)) as (Q1 & Q2).
    eapply comps_change; try done; rewrite ?H; simpl; try done.
    + by left.
    + intros j. unfold compacted. simpl. rewrite H. intros Hj.
      destruct (decide (j = k)) as [->|]; [by right|left; lia].
  - (* s_compacted *) advance H; try (intros _; (apply H5 || apply H6 || apply H7); lia).
    intros j x _ Hx. apply (H8 j); [|done].
    pose proof (lookup_lt_Some _ _ _ Hx). apply lookup_ge_None in H0. lia.
  - (* s_delete *)
    split; unfold compacted in *; simpl; rewrite ?H in *; simpl in *; try done; auto;
      intros _; (apply H5 || apply H6 || apply H7); lia.
  - (* s_input_exit *) eapply frame_inv; try done; simpl.
    + intros Hm. destruct (H3 Hm) as [V S D]. by split.
    + intros Hst. rewrite (H5 Hst). apply set_eq. intros x. rewrite elem_of_difference.
      split; [tauto|]. intros Hx. by apply not_elem_of_empty in Hx.
  - (* s_decode_exit *) eapply frame_inv; try done. intros Hm. destruct (H3 Hm) as [V S D]. by split.
  - (* s_resp *)
    assert (Hσ : RespSink.sys_inv σ) by (by eapply RespSink.sink_inv_step).
    eapply frame_inv; try done; simpl.
    + intros Hm. destruct (H3 Hm) as [V S D]. by split.
    + intros Hst. by destruct (RespSink.shut_step _ _ H1 (H6 Hst) H).
    + intros Hst. destruct (RespSink.shut_step _ _ H1 (H6 ltac:(lia)) H) as (_ & _ & Hd & _).
      specialize (H7 Hst). unfold RespSink.joined in *. rewrite H7, dom_empty_L in Hd.
      apply dom_empty_inv_L. apply set_eq. intros x. split; [apply Hd|intros Hx; by apply not_elem_of_empty in Hx].
  - (* s_trigger *) destruct (trigger_ok c (H2 _ _ H0)) as (Q1 & Q3).
    assert (Hst : stage s.(main) ≤ 4).
    { destruct (decide (5 ≤ stage s.(main))) as [Hge|]; [|lia]. exfalso.
      by apply (joined_not_responding s); [apply H7|]. }
    apply (comps_change s k c (trigger c) s.(main)); try done.
    + destruct (s.(main)); auto.
    + intros j. unfold compacted. simpl. rewrite length_insert. by left.
    + intros j x Hm. rewrite Hm in Hst. simpl in Hst. lia.
  - (* s_c_finish *) destruct (finish_ok c (H2 _ _ H) H0) as (Q1 & Q2 & Q3). by eapply comps_change_same.
  - (* s_c_done *) destruct (done_ok c (H2 _ _ H)) as (Q1 & Q2 & Q3). by eapply comps_change_same.
Qed.

Lemma sess_inv_init n : sess_inv (newSession n).
Proof.
  split; simpl; try done; try lia.
  - apply RespSink.sink_inv_init.
  - intros k c Hk. by apply lookup_replicate in Hk as [-> _].
  - intros k c Hk. unfold compacted in Hk. simpl in Hk. lia.
Qed.

Lemma session_reachable_inv s : reachable s → sess_inv s.
Proof.
  intros [n Hr]. eapply (rtc_invariant session_step sess_inv); eauto using sess_inv_step, sess_inv_init.
Qed.

Lemma gone_step s s' : s.(main) = MGone → session_step s s' → s'.(main) = MGone.
Proof. intros Hm Hstep. inversion Hstep; subst; simpl in *; congruence. Qed.

Lemma gone_steps s s' : s.(main) = MGone → rtc session_step s s' → s'.(main) = MGone.
Proof. intros Hm Hr. eapply (rtc_invariant session_step (λ s, s.(main) = MGone)); eauto using gone_step. Qed.

(** How far the session goroutine is in its teardown, and what it waits for. *)
Definition position (s : Session) : nat :=
  match s.(main) with
  | MCompact k CCancel => 5 + 3 * k
  | MCompact k CJoin => 6 + 3 * k
  | MCompact k CShutdown => 7 + 3 * k
  | MDelete => 6 + 3 * length s.(comps)
  | MGone => 7 + 3 * length s.(comps)
  | pc => stage pc
  end.

Definition waiting (s : Session) : nat :=
  match s.(main) with
  | MJoinInputs => size s.(wg)
  | MJoinResp => RespSink.work s.(resp).(RespSink.rs).2.(RespSink.wg)
  | MCompact k CJoin => match s.(comps) !! k with Some c => 2 * c.(c_running) + c.(c_reported) | None => 0 end
  | _ => 0
  end.

(** The index of the compaction loop is in range while it waits. *)
Definition compact_range (s : Session) : Prop :=
  match s.(main) with
  | MCompact k CCancel => k ≤ length s.(comps)
  | MCompact k _ => k < length s.(comps)
  | _ => True
  end.

Lemma compact_range_step s s' : compact_range s → sess_inv s → session_step s s' → compact_range s'.
Proof.
  intros Hr HI Hstep. unfold compact_range in *.
  destruct Hstep; simpl; rewrite ?H in *; simpl in *; rewrite ?length_insert; try done; try lia.
  - destruct (setVAD_ok s active HI H) as (s1 & Hs1 & Hm & _). assert (s1 = s') as -> by congruence. by rewrite Hm.
  - destruct (close_ok s HI H) as (s1 & Hs1 & _ & Hm & _). assert (s1 = s') as -> by congruence. by rewrite Hm.
  - by eapply lookup_lt_Some.
Qed.

Lemma reachable_range s : reachable s → compact_range s.
Proof.
  intros [n Hr]. apply (rtc_invariant session_step (λ s, compact_range s ∧ sess_inv s) (newSession n) s);
    [|done|split; [done|apply sess_inv_init]].
  intros a b [H1 H2] Hs. split; [by eapply compact_range_step|by eapply sess_inv_step].
Qed.

(** ** Stop signals *)

(** The steps that do not wait for anything else to happen: those of the
    session goroutine, and those of a goroutine that has been told to stop and
    those after its body.  An input goroutine is told by its done channel, a
    response body by its context and, for a transcription in it, that of the
    session, a compaction by the context of its sink. *)
Inductive bound_step : relation Session :=
| b_main s s' : session_step s s' → s'.(main) ≠ s.(main) → bound_step s s'
| b_input s n : n ∈ s.(wg) → s.(chans) !! n = Some true → bound_step s (exit_input n s)
| b_body s id g :
    s.(resp).(RespSink.rs).2.(RespSink.wg) !! id = Some g → g.(RespSink.g_at) = RespSink.InBody →
    g.(RespSink.g_cancelled) = true → s.(sessionCancelled) = true →
    bound_step s (set_resp (RespSink.MkSys (s.(resp).(RespSink.rs).1,
      RespSink.unregister id s.(resp).(RespSink.rs).2) s.(resp).(RespSink.issuing)) s)
| b_report s id g :
    s.(resp).(RespSink.rs).2.(RespSink.wg) !! id = Some g → g.(RespSink.g_at) = RespSink.Unregistered →
    bound_step s (set_resp (RespSink.MkSys (RespSink.report id g s.(resp).(RespSink.rs)) s.(resp).(RespSink.issuing)) s)
| b_exit s id g :
    s.(resp).(RespSink.rs).2.(RespSink.wg) !! id = Some g → g.(RespSink.g_at) = RespSink.Reported →
    bound_step s (set_resp (RespSink.MkSys (s.(resp).(RespSink.rs).1,
      RespSink.set_wg (delete id) s.(resp).(RespSink.rs).2) s.(resp).(RespSink.issuing)) s)
| b_compact s k c :
    s.(comps) !! k = Some c → c.(c_running) ≠ 0 → c.(c_cancelled) = true →
    bound_step s (set_comps (<[k := c_finish c]> s.(comps)) s)
| b_done s k c :
    s.(comps) !! k = Some c → c.(c_reported) ≠ 0 → bound_step s (set_comps (<[k := c_done c]> s.(comps)) s).

Lemma bound_session s s' : bound_step s s' → session_step s s'.
Proof.
  intros []; [done|by apply s_input_exit|..].
  - by eapply s_resp, RespSink.step_return.
  - by eapply s_resp, RespSink.step_report.
  - by eapply s_resp, RespSink.step_exit.
  - by apply s_c_finish.
  - by apply s_c_done.
Qed.

(** A done channel of the wait group is closed, or the session still holds it
    to close it. *)
Definition closable (s : Session) : Prop :=
  ∀ n, n ∈ s.(wg) → s.(chans) !! n = Some true ∨ s.(vadDone) = Some n ∨ s.(soundWindowDone) = Some n.

Definition all_closed (s : Session) : Prop := ∀ n, n ∈ s.(wg) → s.(chans) !! n = Some true.

Record signal_inv (s : Session) : Prop := {
  sg_loop : s.(main) = MLoop → closable s;
  sg_inputs : s.(main) ≠ MLoop → all_closed s;
  sg_session : 3 ≤ stage s.(main) → s.(sessionCancelled) = true;
  sg_compact : ∀ k c, s.(main) = MCompact k CJoin → s.(comps) !! k = Some c → c.(c_cancelled) = true;
}.

(** Every goroutine the session goroutine waits for has been told to stop. *)
Definition told (s : Session) : Prop :=
  match s.(main) with
  | MJoinInputs => all_closed s
  | MJoinResp => s.(sessionCancelled) = true ∧
      ∀ id g, s.(resp).(RespSink.rs).2.(RespSink.wg) !! id = Some g → g.(RespSink.g_at) = RespSink.InBody →
        g.(RespSink.g_cancelled) = true
  | MCompact k CJoin => ∀ c, s.(comps) !! k = Some c → c.(c_cancelled) = true
  | _ => True
  end.

Lemma close_chan_spec ch s s' :
  close_chan ch s = Some s' → ∃ n, ch = Some n ∧
    s' = MkSession s.(conn) (<[n := true]> s.(chans)) s.(vadDone) s.(soundWindowDone) s.(decodeDone)
           s.(wg) s.(decoding) s.(sessionCancelled) s.(resp) s.(comps) s.(main) s.(registered) ∧
    n < length s.(chans).
Proof.
  unfold close_chan. destruct ch as [n|]; [|done]. simpl. destruct (s.(chans) !! n) as [[]|] eqn:Hn; [done| |done].
  intros [= <-]. exists n. split_and!; [done|done|]. by eapply lookup_lt_Some.
Qed.

(** Closed channels stay closed. *)
Lemma close_insert n m (l : list bool) : n < length l → m = n ∨ l !! m = Some true → <[n := true]> l !! m = Some true.
Proof.
  intros Hn. rewrite list_lookup_insert_Some. destruct (decide (m = n)) as [->|Hne]; [auto|].
  intros [?|Hm]; [done|]. right. by split; [congruence|].
Qed.

(** What a close leaves: its channel closed, and those that were. *)
Lemma close_if_spec ch s s' :
  close_if ch s = Some s' →
  s'.(wg) = s.(wg) ∧ s'.(vadDone) = s.(vadDone) ∧ s'.(soundWindowDone) = s.(soundWindowDone) ∧
  ∀ m, ch = Some m ∨ s.(chans) !! m = Some true → s'.(chans) !! m = Some true.
Proof.
  unfold close_if. destruct ch as [n|]; [|intros [= <-]; split_and!; try done; by intros m [|]].
  intros (x & [= <-] & -> & Hlt)%close_chan_spec. split_and!; try done. simpl.
  intros m [[= ->]|Hm]; apply close_insert; auto.
Qed.

Lemma teardown_closes s s' :
  Perform s ConnCoord.Teardown = Some s' →
  (∀ n, n ∈ s.(wg) → s.(chans) !! n = Some true ∨ s.(soundWindowDone) = Some n) → all_closed s'.
Proof.
  unfold Perform. destruct (close_if s.(decodeDone) s) as [s1|] eqn:H1; [|done]. cbn [mbind option_bind].
  destruct (close_if s1.(soundWindowDone) s1) as [s2|] eqn:H2; [|done]. cbn [mbind option_bind]. intros [= <-] Hc.
  apply close_if_spec in H1 as (W1 & _ & S1 & C1). apply close_if_spec in H2 as (W2 & _ & S2 & C2).
  intros n. simpl. rewrite W2, W1. intros [Hn|Hn]%Hc; apply C2; [right; apply C1; auto|left; by rewrite S1].
Qed.

Lemma stop_closes s s' :
  Perform s ConnCoord.StopVAD = Some s' → closable s →
  s'.(wg) = s.(wg) ∧ s'.(soundWindowDone) = s.(soundWindowDone) ∧
  ∀ n, n ∈ s'.(wg) → s'.(chans) !! n = Some true ∨ s'.(soundWindowDone) = Some n.
Proof.
  unfold Perform. destruct (close_chan s.(vadDone) s) as [s1|] eqn:H1; [|done]. cbn [mbind option_bind]. intros [= <-] Hc.
  apply close_chan_spec in H1 as (n & Hv & -> & Hlt). split_and!; [done|done|]. simpl.
  intros m [Hm|[Hm|Hm]]%Hc; [left; apply close_insert; auto|left; apply close_insert; [done|left; congruence]|by right].
Qed.

Lemma setVAD_closable s s' active :
  sess_inv s → s.(main) = MLoop → closable s → setVAD active s = Some s' → closable s'.
Proof.
  intros HI Hm Hc. pose proof (se_loop s HI Hm) as [H1 _ _]. unfold setVAD, conn_apply, ConnCoord.Next.
  destruct (s.(conn)) as [running| |] eqn:Hconn; [|done|done]. destruct running, active; cbn -[Perform].
  - by intros [= <-].
  - destruct (Perform (set_conn (ConnCoord.Live false) s) ConnCoord.StopVAD) as [s1|] eqn:Hp; [|done]. cbn [mbind option_bind]. intros [= <-].
    apply stop_closes in Hp as (_ & _ & Hcl); [|done]. intros n Hn. destruct (Hcl n Hn); auto.
  - simpl. intros [= <-] n. simpl. intros [->%elem_of_singleton|Hn]%elem_of_union; [by auto|].
    destruct (Hc n Hn) as [Ht|[Hv|Hs]]; [|congruence|by auto].
    left. by apply lookup_app_l_Some.
  - by intros [= <-].
Qed.

Lemma close_all_closed s s' :
  sess_inv s → s.(main) = MLoop → closable s → close s = Some s' → all_closed s'.
Proof.
  intros HI Hm Hc. pose proof (se_loop s HI Hm) as [H1 _ _]. unfold close, conn_apply, ConnCoord.Next.
  destruct (s.(conn)) as [running| |] eqn:Hconn; [|done|done]. destruct running; cbn [foldM].
  - destruct (Perform (set_conn ConnCoord.Torn s) ConnCoord.StopVAD) as [s1|] eqn:Hp; [|done]. cbn [mbind option_bind].
    apply stop_closes in Hp as (_ & _ & Hcl); [|done].
    destruct (Perform s1 ConnCoord.Teardown) as [s2|] eqn:Ht; [|done]. cbn [mbind option_bind]. intros [= <-].
    by eapply teardown_closes.
  - destruct (Perform (set_conn ConnCoord.Torn s) ConnCoord.Teardown) as [s2|] eqn:Ht; [|done]. cbn [mbind option_bind]. intros [= <-].
    eapply teardown_closes; [done|]. intros n Hn. destruct (Hc n Hn) as [?|[Hv|?]]; [by left| |by right].
    simpl in Hv. congruence.
Qed.

(** A step that leaves the inputs and the session context alone. *)
Lemma signal_frame s s' :
  signal_inv s → s'.(main) = s.(main) → s'.(wg) ⊆ s.(wg) → s'.(chans) = s.(chans) → s'.(vadDone) = s.(vadDone) →
  s'.(soundWindowDone) = s.(soundWindowDone) → s'.(sessionCancelled) = s.(sessionCancelled) →
  (∀ k c, s'.(comps) !! k = Some c → ∃ c0, s.(comps) !! k = Some c0 ∧ (c0.(c_cancelled) = true → c.(c_cancelled) = true)) →
  signal_inv s'.
Proof.
  intros [H1 H2 H3 H4] Hm Hw Hch Hv Hs Hc Hcs. split; unfold closable, all_closed; rewrite Hm, ?Hch, ?Hv, ?Hs, ?Hc; auto.
  - intros Hl n Hn. by apply H1, Hw.
  - intros Hl n Hn. by apply H2, Hw.
  - intros k c Hk Hl. destruct (Hcs k c Hl) as (c0 & Hl0 & Hi). by eapply Hi, H4.
Qed.

Lemma comps_kept (l : list compactionSink) k c c' :
  l !! k = Some c → (c.(c_cancelled) = true → c'.(c_cancelled) = true) →
  ∀ j x, <[k := c']> l !! j = Some x → ∃ c0, l !! j = Some c0 ∧ (c0.(c_cancelled) = true → x.(c_cancelled) = true).
Proof.
  intros Hk Hc j x [(<- & <- & _)|[_ Hx]]%list_lookup_insert_Some; [by exists c|by exists x].
Qed.

Lemma c_apply_cancelled e c : (c_apply e c).(c_cancelled) = c.(c_cancelled).
Proof. destruct c as [[] cc r p], e; done. Qed.

Lemma signal_inv_step s s' : sess_inv s → signal_inv s → session_step s s' → signal_inv s'.
Proof.
  intros HI HS Hstep. pose proof HS as [H1 H2 H3 H4]. destruct Hstep.
  - (* s_decode *) split; simpl; rewrite ?H; simpl; try done; try lia. intros _ n Hn. simpl in *.
    destruct (H1 H n Hn) as [?|?]; [left; by apply lookup_app_l_Some|by right].
  - (* s_sound *) split; simpl; rewrite ?H; simpl; try done; try lia. intros _ n. simpl.
    intros [->%elem_of_singleton|Hn]%elem_of_union; [by auto|].
    destruct (H1 H n Hn) as [?|[?|?]]; [left; by apply lookup_app_l_Some|by auto|congruence].
  - (* s_setVAD *) destruct (setVAD_ok s active HI H) as (s1 & Hs1 & Hm & _). assert (s1 = s') as -> by congruence.
    split; rewrite Hm; simpl; try done; try lia. intros _. eapply setVAD_closable; eauto.
  - (* s_close *) destruct (close_ok s HI H) as (s1 & Hs1 & _ & Hm & _). assert (s1 = s') as -> by congruence.
    split; rewrite Hm; simpl; try done; try lia. intros _. eapply close_all_closed; eauto.
  - (* s_join_inputs *) split; simpl; try done; try lia. intros _ n. simpl. rewrite H0. set_solver.
  - (* s_cancel_session *) split; simpl; try done. intros _. apply H2. congruence.
  - (* s_shutdown_resp *) split; simpl; try done; [intros _; apply H2; congruence|intros _; apply H3; rewrite H; simpl; lia].
  - (* s_join_resp *) split; simpl; try done; [intros _; apply H2; congruence|intros _; apply H3; rewrite H; simpl; lia].
  - (* s_c_cancel *) split; simpl; try done; [intros _; apply H2; congruence|intros _; apply H3; rewrite H; simpl; lia|].
    intros j x [= <-] Hx. apply list_lookup_insert_Some in Hx as [(_ & <- & _)|[? _]]; done.
  - (* s_c_join *) split; simpl; try done; [intros _; apply H2; congruence|intros _; apply H3; rewrite H; simpl; lia].
  - (* s_c_shutdown *) split; simpl; try done; [intros _; apply H2; congruence|intros _; apply H3; rewrite H; simpl; lia].
  - (* s_compacted *) split; simpl; try done; [intros _; apply H2; congruence|intros _; apply H3; rewrite H; simpl; lia].
  - (* s_delete *) split; simpl; try done; [intros _; apply H2; congruence|intros _; apply H3; rewrite H; simpl; lia].
  - (* s_input_exit *) eapply signal_frame; try done; simpl; [by apply subseteq_difference_l|eauto].
  - (* s_decode_exit *) eapply signal_frame; try done; simpl; eauto.
  - (* s_resp *) eapply signal_frame; try done; simpl; eauto.
  - (* s_trigger *) eapply signal_frame; try done. simpl. eapply comps_kept; [done|]. by rewrite <-(c_apply_cancelled CompactCoord.Trigger c).
  - (* s_c_finish *) eapply signal_frame; try done. simpl. eapply comps_kept; [done|]. simpl. by rewrite c_apply_cancelled.
  - (* s_c_done *) eapply signal_frame; try done. simpl. by eapply comps_kept.
Qed.

Lemma reachable_signals s : reachable s → signal_inv s.
Proof.
  intros [n Hr]. apply (rtc_invariant session_step (λ s, sess_inv s ∧ signal_inv s) (newSession n) s); [|done|].
  - intros a b [Ha Hb] Hs. split; [by eapply sess_inv_step|by eapply signal_inv_step].
  - split; [apply sess_inv_init|]. split; simpl; try done; lia.
Qed.

Lemma reachable_told s : reachable s → told s.
Proof.
  intros Hr. pose proof (reachable_signals s Hr) as [_ H2 H3 H4]. apply session_reachable_inv in Hr. unfold told.
  destruct (s.(main)) as [| | | | |k [| |]| |] eqn:Hm; try done.
  - by apply H2.
  - split; [apply H3; simpl; lia|]. intros id g Hg Hat.
    assert (Ht : RespSink.coord s.(resp) = RespCoord.Terminated) by (apply (se_term s Hr); rewrite Hm; simpl; lia).
    destruct (RespSink.si_wg _ _ _ (RespSink.sys_sink _ (se_resp s Hr)) id g Hg) as (_ & _ & _ & _ & H5).
    apply H5; [done|]. by rewrite Ht.
  - intros c. by apply H4.
Qed.

(** A goroutine told to stop can always step, and that shrinks the wait. *)
Lemma comp_goroutine c :
  ¬ c_joined c → (c.(c_running) ≠ 0 ∧ 2 * (c_finish c).(c_running) + (c_finish c).(c_reported) < 2 * c.(c_running) + c.(c_reported)) ∨
                 (c.(c_reported) ≠ 0 ∧ 2 * (c_done c).(c_running) + (c_done c).(c_reported) < 2 * c.(c_running) + c.(c_reported)).
Proof.
  unfold c_joined. destruct c as [cs cc r p]. simpl. intros Hj. destruct p as [|p]; [left|right; lia].
  destruct r as [|r]; [by destruct Hj|]. destruct cs; simpl; lia.
Qed.

Lemma resp_goroutine s :
  sess_inv s → s.(main) = MJoinResp → told s → ¬ RespSink.joined s.(resp) →
  ∃ s', bound_step s s' ∧ s'.(main) = s.(main) ∧ waiting s' < waiting s.
Proof.
  intros HI Hm Ht Hj. unfold told in Ht. rewrite Hm in Ht. destruct Ht as [Hsc Ht].
  assert (Hlt : ∀ σ, RespSink.g_step s.(resp) σ → (set_resp σ s).(main) = s.(main) ∧ waiting (set_resp σ s) < waiting s).
  { intros σ Hσ. split; [done|]. unfold waiting. simpl. rewrite Hm. eapply RespSink.shut_g_step; [apply HI| |done].
    apply (se_term s HI). rewrite Hm. simpl. lia. }
  destruct (map_choose _ Hj) as (id & g & Hg). destruct (g.(RespSink.g_at)) eqn:Hat; eexists; (split; [|apply Hlt]).
  - eapply b_body; eauto.
  - by eapply RespSink.g_return.
  - by eapply b_report.
  - by eapply RespSink.g_report.
  - by eapply b_exit.
  - by eapply RespSink.g_exit.
Qed.

Lemma input_shrinks s n : n ∈ s.(wg) → size (s.(wg) ∖ {[ n ]}) < size s.(wg).
Proof.
  intros Hn. rewrite size_difference by (by apply singleton_subseteq_l).
  pose proof (subseteq_size {[ n ]} s.(wg) ltac:(by apply singleton_subseteq_l)) as Hle.
  rewrite size_singleton in *. lia.
Qed.

(** The session goroutine goes on. *)
Tactic Notation "goes_on" ident(Hm) "by" tactic(tac) :=
  eexists; split; [apply b_main; [solve [tac]|simpl; rewrite Hm; congruence]|left; unfold position; simpl; rewrite Hm; simpl].

(** No step of anyone takes the teardown back or makes its wait longer. *)
Lemma no_regress s s' :
  sess_inv s → compact_range s → s.(main) ≠ MLoop → session_step s s' →
  position s < position s' ∨ s'.(main) = s.(main) ∧ waiting s' ≤ waiting s.
Proof.
  intros HI Hr Hl Hstep. unfold compact_range in Hr.
  assert (Hcomp : ∀ k c c', s.(comps) !! k = Some c →
    (s.(main) = MCompact k CJoin → 2 * c'.(c_running) + c'.(c_reported) ≤ 2 * c.(c_running) + c.(c_reported)) →
    waiting (set_comps (<[k := c']> s.(comps)) s) ≤ waiting s).
  { intros k c c' Hk Hle. unfold waiting. simpl. destruct (s.(main)) as [| | | | |j [| |]| |]; try done.
    destruct (decide (j = k)) as [->|Hne]; [|by rewrite list_lookup_insert_ne].
    rewrite list_lookup_insert_eq, Hk by (by eapply lookup_lt_Some). by apply Hle. }
  destruct Hstep; try done; try (left; unfold position; simpl; rewrite H in *; simpl; lia).
  - right. split; [done|]. unfold waiting. simpl. destruct (s.(main)); try done. by apply Nat.lt_le_incl, input_shrinks.
  - right. by split.
  - right. split; [done|]. unfold waiting. simpl. destruct (s.(main)) as [| | | | |j [| |]| |] eqn:Hm; try done.
    apply (RespSink.shut_step _ _ (se_resp s HI)); [|done]. apply (se_term s HI). rewrite Hm. simpl. lia.
  - right. split; [done|]. apply (Hcomp k c _ H0). intros Hm. exfalso. eapply joined_not_responding; [|done].
    apply (se_joined s HI). rewrite Hm. simpl. lia.
  - right. split; [done|]. apply (Hcomp k c _ H). intros _. destruct c as [[] ? [|r] p]; simpl; done || lia.
  - right. split; [done|]. apply (Hcomp k c _ H). intros _. destruct c as [? ? r [|p]]; simpl; done || lia.
Qed.

(** ** Theorems *)

(** C30. No child outlives its session: once the session goroutine is past its
    teardown, the connection machine is torn, every input goroutine of the
    wait group has returned, the response coordinator is terminated with
    every response goroutine joined, every conversation's compaction machine
    is terminated with its goroutine gone, and the session is unregistered;
    and that is so for good. *)
Theorem session_children_die s s' :
  reachable s → s.(main) = MGone → rtc session_step s s' →
  s'.(main) = MGone ∧ s'.(conn) = ConnCoord.Torn ∧ s'.(wg) = ∅ ∧
  RespSink.coord s'.(resp) = RespCoord.Terminated ∧ RespSink.joined s'.(resp) ∧
  (∀ k c, s'.(comps) !! k = Some c → c_over c) ∧ s'.(registered) = false.
Proof.
  intros Hr Hm Hs. pose proof (gone_steps s s' Hm Hs) as Hm'.
  assert (Hr' : reachable s') by (destruct Hr as [n Hr]; exists n; by transitivity s).
  apply session_reachable_inv in Hr' as [H1 H2 H3 H4 H5 H6 H7 H8 H9 H10]. unfold compacted in H8.
  rewrite Hm' in *. simpl in *. split_and!; try done; [by apply H4|apply H5; lia|apply H6; lia|apply H7; lia| |by apply H10].
  intros k c Hk. apply (H8 k); [|done]. by eapply lookup_lt_Some.
Qed.

(** C31. The teardown always ends: from the [Close] on, as long as it is not
    over, every goroutine the session goroutine waits for has been told to stop
    (its done channel closed; its response's context and the session's
    cancelled; its compaction's context cancelled), and the session goroutine
    can go on or one of those goroutines can take a step that shrinks the wait:
    returning, having been told, or going on after its body.  No step of anyone
    takes the teardown back or makes its wait longer. *)
Theorem session_teardown_ends s :
  reachable s → s.(main) ≠ MLoop → s.(main) ≠ MGone →
  told s ∧
  (∃ s', bound_step s s' ∧ (position s < position s' ∨ s'.(main) = s.(main) ∧ waiting s' < waiting s)) ∧
  (∀ s', session_step s s' → position s < position s' ∨ s'.(main) = s.(main) ∧ waiting s' ≤ waiting s).
Proof.
  intros Hr Hl Hg. pose proof (reachable_range s Hr) as Hrange. pose proof (reachable_told s Hr) as Ht.
  apply session_reachable_inv in Hr. split; [done|]. split; [|intros s' Hs; by apply no_regress].
  pose proof Ht as Ht0. unfold compact_range in Hrange. unfold told in Ht.
  destruct (s.(main)) as [| | | | |k [| |]| |] eqn:Hm; try done.
  - destruct (decide (s.(wg) = ∅)) as [Hw|Hw].
    + goes_on Hm by (by apply s_join_inputs). lia.
    + destruct (set_choose_L _ Hw) as [n Hn]. exists (exit_input n s). split; [by apply b_input, Ht|]. right.
      split; [done|]. unfold waiting. simpl. rewrite Hm. by apply input_shrinks.
  - goes_on Hm by (by apply s_cancel_session). lia.
  - goes_on Hm by (by apply s_shutdown_resp). lia.
  - destruct (decide (RespSink.joined s.(resp))) as [Hj|Hj].
    + goes_on Hm by (by apply s_join_resp). lia.
    + destruct (resp_goroutine s Hr Hm Ht0 Hj) as (s' & Hb & Hm' & Hlt). exists s'. rewrite <-Hm. auto.
  - destruct (s.(comps) !! k) as [c|] eqn:Hk.
    + goes_on Hm by (by eapply s_c_cancel). lia.
    + goes_on Hm by (by eapply s_compacted). apply lookup_ge_None in Hk. lia.
  - destruct (lookup_lt_is_Some_2 _ _ Hrange) as [c Hk].
    destruct (decide (c.(c_running) = 0 ∧ c.(c_reported) = 0)) as [Hj|Hj].
    + goes_on Hm by (by eapply s_c_join). lia.
    + assert (Hw : ∀ c', waiting (set_comps (<[k := c']> s.(comps)) s) = 2 * c'.(c_running) + c'.(c_reported)).
      { intros c'. unfold waiting. simpl. by rewrite Hm, list_lookup_insert_eq. }
      assert (Hw0 : waiting s = 2 * c.(c_running) + c.(c_reported)) by (unfold waiting; by rewrite Hm, Hk).
      destruct (comp_goroutine c Hj) as [[Hne Hlt]|[Hne Hlt]].
      * exists (set_comps (<[k := c_finish c]> s.(comps)) s). split; [by apply b_compact; auto|].
        right. split; [done|]. by rewrite Hw, Hw0.
      * exists (set_comps (<[k := c_done c]> s.(comps)) s). split; [by apply b_done|].
        right. split; [done|]. by rewrite Hw, Hw0.
  - destruct (lookup_lt_is_Some_2 _ _ Hrange) as [c Hk].
    goes_on Hm by (by eapply s_c_shutdown). lia.
  - goes_on Hm by (by apply s_delete). lia.
Qed.

(** The session loop never closes a nil or a closed channel: toggling turn
    detection and closing the session always succeed. *)
Theorem session_no_panic s :
  reachable s → s.(main) = MLoop →
  (∀ active, ∃ s', setVAD active s = Some s' ∧ s'.(main) = MLoop) ∧
  ∃ s', close s = Some s' ∧ s'.(main) = MJoinInputs.
Proof.
  intros Hr Hm. apply session_reachable_inv in Hr. split.
  - intros active. destruct (setVAD_ok s active Hr Hm) as (s' & ? & ? & _). by exists s'.
  - destruct (close_ok s Hr Hm) as (s' & ? & _ & ? & _). by exists s'.
Qed.

(** ** Witnesses *)

(** A WebRTC session with turn detection and one conversation, torn down. *)
Definition demo_torn : Session :=
  MkSession ConnCoord.Torn [true; true] None None (Some 0) {[ 1 ]} true false RespSink.sys_init
    [newCompactionSink] MJoinInputs true.

Definition demo_gone : Session :=
  MkSession ConnCoord.Torn [true; true] None None (Some 0) ({[ 1 ]} ∖ {[ 1 ]}) true true
    (RespSink.MkSys (RespSink.apply RespCoord.Shutdown RespSink.newResponseSink) [])
    [c_shutdown (c_cancel newCompactionSink)] MGone false.

Definition demo_live : Session :=
  MkSession (ConnCoord.Live true) [false; false] (Some 1) None (Some 0) {[ 1 ]} true false RespSink.sys_init
    [newCompactionSink] MLoop true.

Lemma demo_live_reachable : reachable demo_live.
Proof.
  exists 1. eapply rtc_l; [by apply s_decode|].
  eapply rtc_l; [by apply (s_setVAD _ demo_live true)|]. apply rtc_refl.
Qed.

Lemma demo_torn_reachable : reachable demo_torn.
Proof.
  destruct demo_live_reachable as [n Hr]. exists n. eapply rtc_r; [exact Hr|].
  by apply (s_close demo_live demo_torn).
Qed.

Lemma demo_gone_reachable : reachable demo_gone.
Proof.
  destruct demo_torn_reachable as [n Hr]. exists n. etransitivity; [exact Hr|].
  eapply rtc_l; [apply (s_input_exit _ 1); simpl; by apply elem_of_singleton|].
  eapply rtc_l; [by apply s_join_inputs|].
  eapply rtc_l; [by apply s_cancel_session|].
  eapply rtc_l; [by apply s_shutdown_resp|].
  eapply rtc_l; [by apply s_join_resp|].
  eapply rtc_l; [by eapply s_c_cancel|].
  eapply rtc_l; [by eapply s_c_join|].
  eapply rtc_l; [by eapply s_c_shutdown|].
  eapply rtc_l; [by eapply s_compacted|].
  eapply rtc_l; [by apply s_delete|]. apply rtc_refl.
Qed.

(** The opus decode goroutine is told to stop but is not in the wait group: it
    may still run when the teardown is over. *)
Lemma decode_outlives_session : ∃ s, reachable s ∧ s.(main) = MGone ∧ s.(decoding) = true.
Proof. exists demo_gone. split; [exact demo_gone_reachable|done]. Qed.

Lemma session_children_die_witness :
  demo_gone.(conn) = ConnCoord.Torn ∧ RespSink.coord demo_gone.(resp) = RespCoord.Terminated ∧
  RespSink.joined demo_gone.(resp).
Proof.
  destruct (session_children_die demo_gone demo_gone demo_gone_reachable eq_refl (rtc_refl _ _))
    as (_ & H1 & _ & H2 & H3 & _). split; [exact H1|]. split; [exact H2|exact H3].
Defined.

Lemma session_teardown_ends_witness :
  all_closed demo_torn ∧ demo_torn.(wg) = {[ 1 ]} ∧ ∃ s', bound_step demo_torn s'.
Proof.
  destruct (session_teardown_ends demo_torn demo_torn_reachable) as (H1 & (s' & H2 & _) & _);
    [discriminate|discriminate|]. split; [exact H1|]. split; [reflexivity|]. exists s'. exact H2.
Defined.

Lemma session_no_panic_witness : ∃ s', close demo_live = Some s' ∧ s'.(main) = MJoinInputs.
Proof. apply (session_no_panic demo_live demo_live_reachable eq_refl). Defined.
