(* ===== verification/ProposalFlow.v ===== *)
(** * ProposalFlow: the add-on proposal flow

    Models [pkg/addons/model/proposalflow/reduce.go]: the state, event and
    effect types, the rule table and the reducer.  Go's int enums may hold any
    int: the constructor [...Other n] of each stands for a value no constant
    names.  A panic of the Go code is [None]. *)
From S2P Require Import Prelude.

Definition MaxLookups : Z := 2.

(** ** Enumerations *)

Inductive Role := RoleNone | RoleViewer | RoleEditor | RoleOwner | RoleOther (n : Z).

Definition Role_String (r : Role) : string :=
  match r with
  | RoleNone => "none"
  | RoleViewer => "viewer"
  | RoleEditor => "editor"
  | RoleOwner => "owner"
  | RoleOther n => "role(" +:+ pretty n +:+ ")"
  end.

(** [func (r Role) rank() int { return int(r) }] *)
Definition rank (r : Role) : Z :=
  match r with
  | RoleNone => 0
  | RoleViewer => 1
  | RoleEditor => 2
  | RoleOwner => 3
  | RoleOther n => n
  end.

Inductive ToolKind := KindUndeclared | KindRead | KindWrite | KindSchema | KindOther (n : Z).

Definition ToolKind_String (k : ToolKind) : string :=
  match k with
  | KindUndeclared => "undeclared"
  | KindRead => "read"
  | KindWrite => "write"
  | KindSchema => "schema"
  | KindOther n => "kind(" +:+ pretty n +:+ ")"
  end.

Inductive Action := ActionNone | ActionWrite | ActionSchema | ActionOther (n : Z).

Definition Action_String (a : Action) : string :=
  match a with
  | ActionNone => "none"
  | ActionWrite => "write"
  | ActionSchema => "schema"
  | ActionOther n => "action(" +:+ pretty n +:+ ")"
  end.

Definition ActionOf (k : ToolKind) : Action :=
  match k with
  | KindWrite => ActionWrite
  | KindSchema => ActionSchema
  | KindUndeclared | KindRead => ActionNone
  | KindOther _ => ActionNone
  end.

Definition Required (a : Action) : Role :=
  match a with
  | ActionWrite => RoleEditor
  | ActionSchema => RoleOwner
  | ActionNone => RoleOwner
  | ActionOther _ => RoleOwner
  end.

Inductive RefuseWhy :=
| RefuseUndeclaredTool | RefuseNotAMutation | RefuseInsufficientRole | RefuseStaleGeneration
| RefuseOther (n : Z).

Definition RefuseWhy_String (w : RefuseWhy) : string :=
  match w with
  | RefuseUndeclaredTool => "undeclared-tool"
  | RefuseNotAMutation => "not-a-mutation"
  | RefuseInsufficientRole => "insufficient-role"
  | RefuseStaleGeneration => "stale-generation"
  | RefuseOther n => "refuse(" +:+ pretty n +:+ ")"
  end.

Inductive RejectWhy := RejectReceipt | RejectRefused | RejectConflict | RejectOther (n : Z).

Definition RejectWhy_String (w : RejectWhy) : string :=
  match w with
  | RejectReceipt => "rejected-receipt"
  | RejectRefused => "addon-refused"
  | RejectConflict => "revision-conflict"
  | RejectOther n => "reject(" +:+ pretty n +:+ ")"
  end.

Inductive CancelWhy := CancelByProposer | CancelByHold | CancelByAuthority | CancelByOther (n : Z).

Definition CancelWhy_String (w : CancelWhy) : string :=
  match w with
  | CancelByProposer => "proposer"
  | CancelByHold => "hold"
  | CancelByAuthority => "authority-lowered"
  | CancelByOther n => "cancel(" +:+ pretty n +:+ ")"
  end.

Inductive AdmitCause :=
| CauseHeld | CauseForbidden | CauseUnavailable | CauseBlocked | CauseCaller | CauseOther (n : Z).

Definition AdmitCause_String (c : AdmitCause) : string :=
  match c with
  | CauseHeld => "held"
  | CauseForbidden => "forbidden"
  | CauseUnavailable => "unavailable"
  | CauseBlocked => "blocked"
  | CauseCaller => "caller-gone"
  | CauseOther n => "cause(" +:+ pretty n +:+ ")"
  end.

Inductive NotSentCause :=
| NotSentSlots | NotSentInvalid | NotSentWithdrawn | NotSentHold | NotSentAuthority
| NotSentSuperseded | NotSentOther (n : Z).

Definition NotSentCause_String (c : NotSentCause) : string :=
  match c with
  | NotSentSlots => "no-free-slot"
  | NotSentInvalid => "invalid-envelope"
  | NotSentWithdrawn => "withdrawn"
  | NotSentHold => "hold"
  | NotSentAuthority => "authority-lowered"
  | NotSentSuperseded => "superseded"
  | NotSentOther n => "notsent(" +:+ pretty n +:+ ")"
  end.

Inductive ApplyOutcome :=
| ApplyCommitted | ApplyRejected | ApplyRefused | ApplyConflict | ApplyUnsettled
| ApplyTransportError | ApplyTimeout | ApplyOther (n : Z).

Definition ApplyOutcome_String (o : ApplyOutcome) : string :=
  match o with
  | ApplyCommitted => "committed"
  | ApplyRejected => "rejected"
  | ApplyRefused => "refused"
  | ApplyConflict => "conflict"
  | ApplyUnsettled => "unsettled"
  | ApplyTransportError => "transport-error"
  | ApplyTimeout => "timeout"
  | ApplyOther n => "apply(" +:+ pretty n +:+ ")"
  end.

Inductive ReceiptAnswer :=
| ReceiptCommitted | ReceiptRejected | ReceiptNotCommitted | ReceiptUnsettled | ReceiptOther (n : Z).

Definition ReceiptAnswer_String (a : ReceiptAnswer) : string :=
  match a with
  | ReceiptCommitted => "committed"
  | ReceiptRejected => "rejected"
  | ReceiptNotCommitted => "not-committed"
  | ReceiptUnsettled => "unsettled"
  | ReceiptOther n => "receipt(" +:+ pretty n +:+ ")"
  end.

(** ** States *)

(** The Go type is named [Prop]. *)
Record Proposal := MkProposal {
  ID : string;
  Proposer : string;
  ProposerRole : Role;
  Kind : ToolKind;
  Gen : Z;
  ExpiresAt : Z;
}.

(** [func (p Prop) Action() Action] *)
Definition Proposal_Action (p : Proposal) : Action := ActionOf p.(Kind).

Inductive State :=
| Unproposed
| Refused (Why : RefuseWhy)
| Pending (P : Proposal)
| Admitting (P : Proposal) (By : string)
| ExecPrepared (P : Proposal)
| ExecSent (P : Proposal)
| OutcomeUnknown (P : Proposal) (Lookups : Z)
| UnknownManual (P : Proposal)
| Abandoned (P : Proposal)
| Applied (P : Proposal)
| Rejected (P : Proposal) (Why : RejectWhy)
| NotApplied (P : Proposal)
| Cancelled (P : Proposal) (Why : CancelWhy)
| Expired (P : Proposal)
| Stale (P : Proposal)
| Dropped (P : Proposal).

Definition State_Name (s : State) : string :=
  match s with
  | Unproposed => "Unproposed"
  | Refused _ => "Refused"
  | Pending _ => "Pending"
  | Admitting _ _ => "Admitting"
  | ExecPrepared _ => "ExecPrepared"
  | ExecSent _ => "ExecSent"
  | OutcomeUnknown _ _ => "OutcomeUnknown"
  | UnknownManual _ => "UnknownManual"
  | Abandoned _ => "Abandoned"
  | Applied _ => "Applied"
  | Rejected _ _ => "Rejected"
  | NotApplied _ => "NotApplied"
  | Cancelled _ _ => "Cancelled"
  | Expired _ => "Expired"
  | Stale _ => "Stale"
  | Dropped _ => "Dropped"
  end.

Definition Durable (s : State) : string :=
  match s with
  | Unproposed => ""
  | Refused _ => ""
  | Pending _ => "pending"
  | Admitting _ _ => "pending"
  | ExecPrepared _ => "executing"
  | ExecSent _ => "executing"
  | OutcomeUnknown _ _ => "outcome-unknown"
  | UnknownManual _ => "outcome-unknown"
  | Abandoned _ => "abandoned-unknown"
  | Applied _ => "applied"
  | Rejected _ _ => "rejected"
  | NotApplied _ => "rejected"
  | Cancelled _ _ => "cancelled"
  | Expired _ => "expired"
  | Stale _ => "rejected"
  | Dropped _ => ""
  end.

(** ** Events *)

Record ProposeArgs := MkPropose {
  pr_ID : string;
  pr_Actor : string;
  pr_Role : Role;
  pr_Tool : ToolKind;
  pr_Claimed : Action;
  pr_Gen : Z;
  pr_RuntimeGen : Z;
  pr_ExpiresAt : Z;
  pr_Now : Z;
  pr_Held : bool;
  pr_Blocked : bool;
}.

Record ConfirmArgs := MkConfirm {
  cf_Actor : string;
  cf_Role : Role;
  cf_Human : bool;
  cf_DigestOK : bool;
  cf_Now : Z;
}.

Record ResolveArgs := MkResolve {
  or_Role : Role;
  or_Human : bool;
  or_Reason : bool;
  or_Held : bool;
}.

Inductive Event :=
| Propose (a : ProposeArgs)
| Confirm (a : ConfirmArgs)
| Cancel (Actor : string)
| Tick (Now : Z)
| AdmitGranted (Now RuntimeGen : Z)
| AdmitRefused (Cause : AdmitCause)
| SendStarted
| NotSent (Cause : NotSentCause)
| ApplyResult (Outcome : ApplyOutcome)
| LookupDue
| ReceiptResult (Answer : ReceiptAnswer)
| OwnerResolve (a : ResolveArgs)
| HoldAcquired
| HoldReleased
| GenerationChanged (New : Z)
| AuthorityLowered
| Restart
| RetentionElapsed.

Definition Event_Name (e : Event) : string :=
  match e with
  | Propose _ => "Propose"
  | Confirm _ => "Confirm"
  | Cancel _ => "Cancel"
  | Tick _ => "Tick"
  | AdmitGranted _ _ => "AdmitGranted"
  | AdmitRefused _ => "AdmitRefused"
  | SendStarted => "SendStarted"
  | NotSent _ => "NotSent"
  | ApplyResult _ => "ApplyResult"
  | LookupDue => "LookupDue"
  | ReceiptResult _ => "ReceiptResult"
  | OwnerResolve _ => "OwnerResolve"
  | HoldAcquired => "HoldAcquired"
  | HoldReleased => "HoldReleased"
  | GenerationChanged _ => "GenerationChanged"
  | AuthorityLowered => "AuthorityLowered"
  | Restart => "Restart"
  | RetentionElapsed => "RetentionElapsed"
  end.

(** ** Effects *)

(** A string type in Go; only these constants are ever built. *)
Inductive ReplyCode :=
| ReplyCreated | ReplyExisting | ReplyForbidden | ReplyClosed | ReplyExpired | ReplyChanged
| ReplyBusy | ReplyUnavailable | ReplyBlocked | ReplyStale | ReplyApplied | ReplyRejected
| ReplyUnknown | ReplyCancelled | ReplyResolved | ReplyRefused.

Definition ReplyCode_string (c : ReplyCode) : string :=
  match c with
  | ReplyCreated => "created"
  | ReplyExisting => "existing"
  | ReplyForbidden => "forbidden"
  | ReplyClosed => "closed"
  | ReplyExpired => "expired"
  | ReplyChanged => "changed"
  | ReplyBusy => "busy"
  | ReplyUnavailable => "unavailable"
  | ReplyBlocked => "blocked"
  | ReplyStale => "stale"
  | ReplyApplied => "applied"
  | ReplyRejected => "rejected"
  | ReplyUnknown => "outcome-unknown"
  | ReplyCancelled => "cancelled"
  | ReplyResolved => "resolved"
  | ReplyRefused => "refused"
  end.

Inductive Effect :=
| Reply (Code : ReplyCode)
| Persist (To : string)
| Admit (a : Action)
| Dispatch
| CancelDispatch (Why : NotSentCause)
| CancelSend
| LookupReceipt
| Alarm (Msg : string).

Definition Effect_String (e : Effect) : string :=
  match e with
  | Reply c => "reply:" +:+ ReplyCode_string c
  | Persist to => "persist:" +:+ to
  | Admit a => "admit:" +:+ Action_String a
  | Dispatch => "dispatch"
  | CancelDispatch w => "cancel-dispatch:" +:+ NotSentCause_String w
  | CancelSend => "cancel-send"
  | LookupReceipt => "lookup-receipt"
  | Alarm m => "alarm:" +:+ m
  end.

(** ** Rules *)

Inductive RuleKind := KindTransition | KindIgnored | KindViolation.

Record Rule := MkRule { rule_ID : string; rule_Kind : RuleKind; rule_Text : string }.

Definition Rules : list Rule := [
  MkRule "R1" KindTransition
    "Propose while the add-on is held: nothing stored, reply unavailable, retryable";
  MkRule "R2" KindTransition
    "Propose with a tool the add-on did not declare: Refused";
  MkRule "R3" KindTransition
    "Propose with a read tool: Refused, a read is never a proposal";
  MkRule "R4" KindTransition
    "Propose where the actor's role is below what the derived action needs: Refused (an editor cannot propose a schema tool)";
  MkRule "R5" KindTransition
    "Propose against a generation that is not the runtime's: Refused";
  MkRule "R6" KindTransition
    "Propose while another outcome on the resource is unresolved: nothing stored, reply blocked";
  MkRule "R7" KindTransition
    "Propose with no usable expiry: nothing stored, reply unavailable";
  MkRule "R8" KindTransition
    "Propose stored: Pending. The action comes from the tool kind";
  MkRule "R9" KindTransition
    "Propose repeated for a stored proposal: the stored proposal is returned, nothing changes";
  MkRule "R10" KindTransition
    "Confirm by another user than the proposer: forbidden, no change";
  MkRule "R11" KindTransition
    "Confirm from a credential that is not a human surface: forbidden, no change";
  MkRule "R12" KindTransition
    "Confirm whose digest is not the stored one: changed, no change";
  MkRule "R13" KindTransition
    "Confirm after expiry: Expired";
  MkRule "R14" KindTransition
    "Confirm whose live role no longer covers the derived action: forbidden, stays Pending";
  MkRule "R15" KindTransition
    "Confirm accepted: Admitting, ask for the admission decision";
  MkRule "R16" KindTransition
    "Confirm while a confirmation is being admitted: busy, no change";
  MkRule "R17" KindTransition
    "Confirm of an executing or unresolved proposal: look the receipt up, never apply again";
  MkRule "R18" KindTransition
    "Confirm of an Applied proposal: the stored answer, nothing runs";
  MkRule "R19" KindTransition
    "Confirm of a Rejected, NotApplied or Stale proposal: the stored answer, nothing runs";
  MkRule "R20" KindTransition
    "Confirm of a Cancelled or Dropped proposal: closed, nothing runs";
  MkRule "R21" KindTransition
    "Confirm of an Expired proposal: expired, nothing runs";
  MkRule "R22" KindTransition
    "Any caller request for a proposal that was never stored: forbidden";
  MkRule "R23" KindTransition
    "Cancel by another user than the proposer: forbidden, no change";
  MkRule "R24" KindTransition
    "Cancel of a Pending proposal: Cancelled";
  MkRule "R25" KindTransition
    "Cancel while a confirmation is in admission: Cancelled, the late admission answer finds it closed";
  MkRule "R26" KindTransition
    "Cancel of a proposal that is not pending: closed, no change";
  MkRule "R27" KindTransition
    "Cancel of a Cancelled proposal: the same answer again";
  MkRule "R28" KindTransition
    "Tick past expiry of a Pending or Admitting proposal: Expired";
  MkRule "R29" KindTransition
    "Admission refused (held, forbidden, unavailable, blocked, caller gone): back to Pending, retryable. Nothing was persisted or sent";
  MkRule "R30" KindTransition
    "Admission granted after expiry: Expired";
  MkRule "R31" KindTransition
    "Admission granted for another generation than the proposal's: Stale";
  MkRule "R32" KindTransition
    "Admission granted: ExecPrepared, persist executing, then dispatch once";
  MkRule "R33" KindTransition
    "SendStarted: ExecSent. From here an error is not proof of anything";
  MkRule "R34" KindTransition
    "NotSent for a retryable cause (no slot, invalid envelope, withdrawn): back to Pending. The add-on never saw it";
  MkRule "R35" KindTransition
    "NotSent because a hold or lowered authority cancelled the dispatch: Cancelled";
  MkRule "R36" KindTransition
    "NotSent because the generation moved: Stale";
  MkRule "R37" KindTransition
    "Apply answered committed: Applied";
  MkRule "R38" KindTransition
    "Apply answered rejected, refused or conflict: Rejected, the add-on definitely did not apply";
  MkRule "R39" KindTransition
    "Apply ended with no evidence (unsettled, transport error, timeout) after a send: OutcomeUnknown";
  MkRule "R40" KindTransition
    "Receipt lookup says committed: Applied";
  MkRule "R41" KindTransition
    "Receipt lookup says rejected: Rejected";
  MkRule "R42" KindTransition
    "Receipt lookup says not-committed: NotApplied";
  MkRule "R43" KindTransition
    "Receipt lookup unsettled with lookups left: stay OutcomeUnknown, count it";
  MkRule "R44" KindTransition
    "Receipt lookup unsettled and the bound reached: UnknownManual";
  MkRule "R45" KindTransition
    "Lookup timer fired for an unresolved or abandoned outcome: look the receipt up";
  MkRule "R46" KindTransition
    "Owner resolution from a non-owner, a non-human credential or without a reason: forbidden";
  MkRule "R47" KindTransition
    "Owner resolution while the add-on is held: unavailable, no change";
  MkRule "R48" KindTransition
    "Owner resolution of an unresolved outcome: Abandoned, one last lookup";
  MkRule "R49" KindTransition
    "Owner resolution of a proposal that is not unresolved: closed, no change";
  MkRule "R50" KindTransition
    "Owner resolution of a settled or abandoned proposal: the stored answer";
  MkRule "R51" KindTransition
    "Hold on a Pending or Admitting proposal: Cancelled";
  MkRule "R52" KindTransition
    "Hold on a prepared dispatch: ask the shell to cancel it, wait for NotSent or SendStarted";
  MkRule "R53" KindTransition
    "Hold on a sent request: abort its context and wait for the apply result";
  MkRule "R54" KindTransition
    "Proposer's authority lowered on a Pending or Admitting proposal: Cancelled";
  MkRule "R55" KindTransition
    "Proposer's authority lowered on a prepared dispatch: ask the shell to cancel it";
  MkRule "R56" KindTransition
    "Proposer's authority lowered on a sent request: abort its context and wait";
  MkRule "R57" KindTransition
    "Generation changed under a Pending or Admitting proposal: Stale";
  MkRule "R58" KindTransition
    "Generation changed under a prepared dispatch: ask the shell to cancel it";
  MkRule "R59" KindTransition
    "Restart while a confirmation is in admission: Pending, admission is volatile";
  MkRule "R60" KindTransition
    "Restart with an executing proposal: OutcomeUnknown, a crash may have followed the send";
  MkRule "R61" KindTransition
    "Retention elapsed for an abandoned outcome: Dropped";
  MkRule "I1" KindIgnored
    "no proposal is stored yet, so the event has nothing to act on";
  MkRule "I2" KindIgnored
    "the proposal is closed (terminal): the event changes nothing";
  MkRule "I3" KindIgnored
    "late or out-of-order reply for an operation that is not executing: no new information, no change";
  MkRule "I4" KindIgnored
    "environment fact with no effect on this situation (hold released, lifted hold, nothing to retry)";
  MkRule "I5" KindIgnored
    "the answer carries no new evidence: the outcome stays as it is";
  MkRule "I6" KindIgnored
    "the live call decides: its own result moves the proposal";
  MkRule "I7" KindIgnored
    "the automatic lookups are over or not due; only an explicit lookup or resolution remains";
  MkRule "I8" KindIgnored
    "the time has not reached expiry";
  MkRule "I9" KindIgnored
    "the stored state already is what the event would make it";
  MkRule "I10" KindIgnored
    "the generation moved but this situation is decided by the result of its own call or lookup";
  MkRule "V1" KindViolation
    "SendStarted with no prepared dispatch: the shell broke its contract, raise an alarm and change nothing"
].

(** The first rule of the table with the id. *)
Definition RuleByID (id : string) : option Rule :=
  head (filter (λ r, r.(rule_ID) = id) Rules).

(** ** The reducer

    The result is the next state, the effects and the rule id; [None] is a
    panic. *)
Definition Step : Type := State * list Effect * string.

Definition move (next : State) (rule : string) (fx : list Effect) : Step :=
  let d := Durable next in
  (next, (if decide (d = "") then [] else [Persist d]) ++ fx, rule).

Definition stay (s : State) (rule : string) (fx : list Effect) : Step := (s, fx, rule).

Definition ignore (s : State) (rule : string) : Step := (s, [], rule).

Definition violation (s : State) : Step :=
  stay s "V1" [Alarm ("send started with no prepared dispatch in " +:+ State_Name s)].

Definition reduceUnproposed (e : Event) : Step :=
  let s := Unproposed in
  match e with
  | Propose ev =>
      let action := ActionOf ev.(pr_Tool) in
      if ev.(pr_Held) then stay s "R1" [Reply ReplyUnavailable]
      else match ev.(pr_Tool) with
      | KindUndeclared => move (Refused RefuseUndeclaredTool) "R2" [Reply ReplyRefused]
      | KindRead => move (Refused RefuseNotAMutation) "R3" [Reply ReplyRefused]
      | _ =>
        if (rank ev.(pr_Role) <? rank (Required action))%Z then
          move (Refused RefuseInsufficientRole) "R4" [Reply ReplyForbidden]
        else if negb (ev.(pr_Gen) =? ev.(pr_RuntimeGen))%Z then
          move (Refused RefuseStaleGeneration) "R5" [Reply ReplyStale]
        else if ev.(pr_Blocked) then stay s "R6" [Reply ReplyBlocked]
        else if (ev.(pr_ExpiresAt) <=? ev.(pr_Now))%Z then stay s "R7" [Reply ReplyUnavailable]
        else
          move (Pending (MkProposal ev.(pr_ID) ev.(pr_Actor) ev.(pr_Role) ev.(pr_Tool)
                           ev.(pr_Gen) ev.(pr_ExpiresAt))) "R8" [Reply ReplyCreated]
      end
  | Confirm _ | Cancel _ | OwnerResolve _ => stay s "R22" [Reply ReplyForbidden]
  | Tick _ | AdmitGranted _ _ | AdmitRefused _ | NotSent _ | ApplyResult _ | LookupDue
  | ReceiptResult _ | HoldAcquired | HoldReleased | GenerationChanged _ | AuthorityLowered
  | Restart | RetentionElapsed => ignore s "I1"
  | SendStarted => violation s
  end.

Definition reduceRefused (w : RefuseWhy) (e : Event) : Step :=
  let s := Refused w in
  match e with
  | Propose _ => stay s "R9" [Reply ReplyExisting]
  | Confirm _ | Cancel _ | OwnerResolve _ => stay s "R22" [Reply ReplyForbidden]
  | Tick _ | AdmitGranted _ _ | AdmitRefused _ | NotSent _ | ApplyResult _ | LookupDue
  | ReceiptResult _ | HoldAcquired | HoldReleased | GenerationChanged _ | AuthorityLowered
  | Restart | RetentionElapsed => ignore s "I1"
  | SendStarted => violation s
  end.

Definition reducePending (p : Proposal) (e : Event) : Step :=
  let s := Pending p in
  match e with
  | Propose _ => stay s "R9" [Reply ReplyExisting]
  | Confirm ev =>
      if negb ev.(cf_Human) then stay s "R11" [Reply ReplyForbidden]
      else if negb (bool_decide (ev.(cf_Actor) = p.(Proposer))) then
        stay s "R10" [Reply ReplyForbidden]
      else if negb ev.(cf_DigestOK) then stay s "R12" [Reply ReplyChanged]
      else if (p.(ExpiresAt) <=? ev.(cf_Now))%Z then
        move (Expired p) "R13" [Reply ReplyExpired]
      else if (rank ev.(cf_Role) <? rank (Required (Proposal_Action p)))%Z then
        stay s "R14" [Reply ReplyForbidden]
      else stay (Admitting p ev.(cf_Actor)) "R15" [Admit (Proposal_Action p)]
  | Cancel actor =>
      if negb (bool_decide (actor = p.(Proposer))) then stay s "R23" [Reply ReplyForbidden]
      else move (Cancelled p CancelByProposer) "R24" [Reply ReplyCancelled]
  | Tick now =>
      if (p.(ExpiresAt) <=? now)%Z then move (Expired p) "R28" [] else ignore s "I8"
  | OwnerResolve _ => stay s "R49" [Reply ReplyClosed]
  | HoldAcquired => move (Cancelled p CancelByHold) "R51" []
  | AuthorityLowered => move (Cancelled p CancelByAuthority) "R54" []
  | GenerationChanged _ => move (Stale p) "R57" []
  | Restart => ignore s "I9"
  | AdmitGranted _ _ | AdmitRefused _ | NotSent _ | ApplyResult _ | LookupDue | ReceiptResult _ =>
      ignore s "I3"
  | HoldReleased | RetentionElapsed => ignore s "I4"
  | SendStarted => violation s
  end.

Definition admitReply (c : AdmitCause) : ReplyCode :=
  match c with
  | CauseForbidden => ReplyForbidden
  | CauseBlocked => ReplyBlocked
  | CauseHeld | CauseUnavailable | CauseCaller => ReplyUnavailable
  | CauseOther _ => ReplyUnavailable
  end.

Definition reduceAdmitting (p : Proposal) (by_ : string) (e : Event) : Step :=
  let s := Admitting p by_ in
  match e with
  | Propose _ => stay s "R9" [Reply ReplyExisting]
  | Confirm _ => stay s "R16" [Reply ReplyBusy]
  | Cancel actor =>
      if negb (bool_decide (actor = p.(Proposer))) then stay s "R23" [Reply ReplyForbidden]
      else move (Cancelled p CancelByProposer) "R25" [Reply ReplyCancelled]
  | Tick now =>
      if (p.(ExpiresAt) <=? now)%Z then move (Expired p) "R28" [] else ignore s "I8"
  | AdmitRefused cause => stay (Pending p) "R29" [Reply (admitReply cause)]
  | AdmitGranted now runtimeGen =>
      if (p.(ExpiresAt) <=? now)%Z then move (Expired p) "R30" [Reply ReplyExpired]
      else if negb (runtimeGen =? p.(Gen))%Z then move (Stale p) "R31" [Reply ReplyStale]
      else move (ExecPrepared p) "R32" [Dispatch]
  | OwnerResolve _ => stay s "R49" [Reply ReplyClosed]
  | HoldAcquired => move (Cancelled p CancelByHold) "R51" []
  | AuthorityLowered => move (Cancelled p CancelByAuthority) "R54" []
  | GenerationChanged _ => move (Stale p) "R57" []
  | Restart => stay (Pending p) "R59" []
  | NotSent _ | ApplyResult _ | LookupDue | ReceiptResult _ => ignore s "I3"
  | HoldReleased | RetentionElapsed => ignore s "I4"
  | SendStarted => violation s
  end.

(** The answers that settle a sent proposal; [None] when the event is not
    evidence. *)
Definition evidence (p : Proposal) (e : Event) : option Step :=
  match e with
  | ApplyResult outcome =>
      match outcome with
      | ApplyCommitted => Some (move (Applied p) "R37" [Reply ReplyApplied])
      | ApplyRejected => Some (move (Rejected p RejectReceipt) "R38" [Reply ReplyRejected])
      | ApplyRefused => Some (move (Rejected p RejectRefused) "R38" [Reply ReplyRejected])
      | ApplyConflict => Some (move (Rejected p RejectConflict) "R38" [Reply ReplyRejected])
      | ApplyUnsettled | ApplyTransportError | ApplyTimeout => None
      | ApplyOther _ => None
      end
  | ReceiptResult answer =>
      match answer with
      | ReceiptCommitted => Some (move (Applied p) "R40" [])
      | ReceiptRejected => Some (move (Rejected p RejectReceipt) "R41" [])
      | ReceiptNotCommitted => Some (move (NotApplied p) "R42" [])
      | ReceiptUnsettled => None
      | ReceiptOther _ => None
      end
  | _ => None
  end.

Definition evidence_or (p : Proposal) (e : Event) (otherwise : Step) : Step :=
  match evidence p e with Some r => r | None => otherwise end.

Definition reducePrepared (p : Proposal) (e : Event) : option Step :=
  let s := ExecPrepared p in
  match e with
  | SendStarted => Some (stay (ExecSent p) "R33" [])
  | NotSent cause =>
      match cause with
      | NotSentSlots | NotSentInvalid | NotSentWithdrawn =>
          Some (move (Pending p) "R34" [Reply ReplyUnavailable])
      | NotSentHold => Some (move (Cancelled p CancelByHold) "R35" [Reply ReplyCancelled])
      | NotSentAuthority => Some (move (Cancelled p CancelByAuthority) "R35" [Reply ReplyCancelled])
      | NotSentSuperseded => Some (move (Stale p) "R36" [Reply ReplyStale])
      | NotSentOther _ => None
      end
  | ApplyResult _ =>
      Some (evidence_or p e (move (OutcomeUnknown p 0) "R39" [Reply ReplyUnknown]))
  | ReceiptResult _ => Some (evidence_or p e (ignore s "I5"))
  | Propose _ => Some (stay s "R9" [Reply ReplyExisting])
  | Confirm _ => Some (stay s "R17" [LookupReceipt; Reply ReplyUnknown])
  | Cancel _ => Some (stay s "R26" [Reply ReplyClosed])
  | OwnerResolve _ => Some (stay s "R49" [Reply ReplyClosed])
  | HoldAcquired => Some (stay s "R52" [CancelDispatch NotSentHold])
  | AuthorityLowered => Some (stay s "R55" [CancelDispatch NotSentAuthority])
  | GenerationChanged _ => Some (stay s "R58" [CancelDispatch NotSentSuperseded])
  | Restart => Some (move (OutcomeUnknown p 0) "R60" [])
  | Tick _ => Some (ignore s "I8")
  | AdmitGranted _ _ | AdmitRefused _ => Some (ignore s "I3")
  | LookupDue => Some (ignore s "I6")
  | HoldReleased | RetentionElapsed => Some (ignore s "I4")
  end.

Definition reduceSent (p : Proposal) (e : Event) : Step :=
  let s := ExecSent p in
  match e with
  | ApplyResult _ => evidence_or p e (move (OutcomeUnknown p 0) "R39" [Reply ReplyUnknown])
  | ReceiptResult _ => evidence_or p e (ignore s "I5")
  | Propose _ => stay s "R9" [Reply ReplyExisting]
  | Confirm _ => stay s "R17" [LookupReceipt; Reply ReplyUnknown]
  | Cancel _ => stay s "R26" [Reply ReplyClosed]
  | OwnerResolve _ => stay s "R49" [Reply ReplyClosed]
  | HoldAcquired => stay s "R53" [CancelSend]
  | AuthorityLowered => stay s "R56" [CancelSend]
  | Restart => move (OutcomeUnknown p 0) "R60" []
  | GenerationChanged _ => ignore s "I10"
  | Tick _ => ignore s "I8"
  | AdmitGranted _ _ | AdmitRefused _ | NotSent _ => ignore s "I3"
  | LookupDue => ignore s "I6"
  | SendStarted => ignore s "I9"
  | HoldReleased | RetentionElapsed => ignore s "I4"
  end.

Definition resolve (s : State) (p : Proposal) (ev : ResolveArgs) : Step :=
  if negb (match ev.(or_Role) with RoleOwner => true | _ => false end)
     || negb ev.(or_Human) || negb ev.(or_Reason)
  then stay s "R46" [Reply ReplyForbidden]
  else if ev.(or_Held) then stay s "R47" [Reply ReplyUnavailable]
  else move (Abandoned p) "R48" [LookupReceipt; Reply ReplyResolved].

Definition reduceUnknown (p : Proposal) (lookups : Z) (e : Event) : Step :=
  let s := OutcomeUnknown p lookups in
  match e with
  | ApplyResult _ => evidence_or p e (ignore s "I5")
  | ReceiptResult _ =>
      evidence_or p e
        (let n := (lookups + 1)%Z in
         if (MaxLookups <=? n)%Z then move (UnknownManual p) "R44" []
         else move (OutcomeUnknown p n) "R43" [])
  | LookupDue => stay s "R45" [LookupReceipt]
  | Confirm _ => stay s "R17" [LookupReceipt; Reply ReplyUnknown]
  | OwnerResolve ev => resolve s p ev
  | Propose _ => stay s "R9" [Reply ReplyExisting]
  | Cancel _ => stay s "R26" [Reply ReplyClosed]
  | GenerationChanged _ => ignore s "I10"
  | Restart => ignore s "I9"
  | Tick _ => ignore s "I8"
  | AdmitGranted _ _ | AdmitRefused _ | NotSent _ => ignore s "I3"
  | HoldAcquired | HoldReleased | AuthorityLowered | RetentionElapsed => ignore s "I4"
  | SendStarted => violation s
  end.

Definition reduceManual (p : Proposal) (e : Event) : Step :=
  let s := UnknownManual p in
  match e with
  | ApplyResult _ => evidence_or p e (ignore s "I5")
  | ReceiptResult _ => evidence_or p e (ignore s "I5")
  | LookupDue => ignore s "I7"
  | Confirm _ => stay s "R17" [LookupReceipt; Reply ReplyUnknown]
  | OwnerResolve ev => resolve s p ev
  | Propose _ => stay s "R9" [Reply ReplyExisting]
  | Cancel _ => stay s "R26" [Reply ReplyClosed]
  | GenerationChanged _ => ignore s "I10"
  | Restart => ignore s "I9"
  | Tick _ => ignore s "I8"
  | AdmitGranted _ _ | AdmitRefused _ | NotSent _ => ignore s "I3"
  | HoldAcquired | HoldReleased | AuthorityLowered | RetentionElapsed => ignore s "I4"
  | SendStarted => violation s
  end.

Definition reduceAbandoned (p : Proposal) (e : Event) : Step :=
  let s := Abandoned p in
  match e with
  | ApplyResult _ => evidence_or p e (ignore s "I5")
  | ReceiptResult _ => evidence_or p e (ignore s "I5")
  | LookupDue => stay s "R45" [LookupReceipt]
  | RetentionElapsed => move (Dropped p) "R61" []
  | Confirm _ => stay s "R17" [LookupReceipt; Reply ReplyUnknown]
  | OwnerResolve _ => stay s "R50" [Reply ReplyResolved]
  | Propose _ => stay s "R9" [Reply ReplyExisting]
  | Cancel _ => stay s "R26" [Reply ReplyClosed]
  | GenerationChanged _ => ignore s "I10"
  | Restart => ignore s "I9"
  | Tick _ => ignore s "I8"
  | AdmitGranted _ _ | AdmitRefused _ | NotSent _ => ignore s "I3"
  | HoldAcquired | HoldReleased | AuthorityLowered => ignore s "I4"
  | SendStarted => violation s
  end.

(** Called with the closed states only; the type switches on [s] panic on any
    other state. *)
Definition reduceClosed (s : State) (e : Event) : option Step :=
  match e with
  | Propose _ => Some (stay s "R9" [Reply ReplyExisting])
  | Confirm _ =>
      match s with
      | Applied _ => Some (stay s "R18" [Reply ReplyApplied])
      | Rejected _ _ | NotApplied _ | Stale _ => Some (stay s "R19" [Reply ReplyRejected])
      | Cancelled _ _ | Dropped _ => Some (stay s "R20" [Reply ReplyClosed])
      | Expired _ => Some (stay s "R21" [Reply ReplyExpired])
      | _ => None
      end
  | Cancel _ =>
      match s with
      | Cancelled _ _ => Some (stay s "R27" [Reply ReplyCancelled])
      | _ => Some (stay s "R26" [Reply ReplyClosed])
      end
  | OwnerResolve _ =>
      match s with
      | Applied _ | Rejected _ _ | NotApplied _ | Stale _ =>
          Some (stay s "R50" [Reply ReplyResolved])
      | Cancelled _ _ | Expired _ | Dropped _ => Some (stay s "R49" [Reply ReplyClosed])
      | _ => None
      end
  | AdmitGranted _ _ | AdmitRefused _ | NotSent _ | ApplyResult _ | ReceiptResult _ =>
      Some (ignore s "I3")
  | Tick _ | LookupDue | RetentionElapsed | Restart => Some (ignore s "I2")
  | HoldAcquired | HoldReleased | GenerationChanged _ | AuthorityLowered => Some (ignore s "I2")
  | SendStarted => Some (violation s)
  end.

Definition Reduce (s : State) (e : Event) : option Step :=
  match s with
  | Unproposed => Some (reduceUnproposed e)
  | Refused w => Some (reduceRefused w e)
  | Pending p => Some (reducePending p e)
  | Admitting p by_ => Some (reduceAdmitting p by_ e)
  | ExecPrepared p => reducePrepared p e
  | ExecSent p => Some (reduceSent p e)
  | OutcomeUnknown p n => Some (reduceUnknown p n e)
  | UnknownManual p => Some (reduceManual p e)
  | Abandoned p => Some (reduceAbandoned p e)
  | Applied _ | Rejected _ _ | NotApplied _ | Cancelled _ _ | Expired _ | Stale _ | Dropped _ =>
      reduceClosed s e
  end.

#[export] Instance Role_eq_dec : EqDecision Role.
Proof. solve_decision. Defined.
#[export] Instance ToolKind_eq_dec : EqDecision ToolKind.
Proof. solve_decision. Defined.
#[export] Instance Proposal_eq_dec : EqDecision Proposal.
Proof. solve_decision. Defined.
