(* ===== verification/ProposalInv.v ===== *)
(** * ProposalInv: the safety predicates of the proposal flow

    Models [pkg/addons/model/proposalflow/explore.go] (the classifiers, the
    keys, [CheckState] and [CheckTransition]) and [Run] of [traces.go], and
    proves over every event sequence what the Go code checks by a bounded
    search over a finite universe of events. *)
From S2P Require Import Prelude ProposalFlow.

(** ** Classifiers *)

Definition Terminal (s : State) : bool :=
  match s with
  | Refused _ | Applied _ | Rejected _ _ | NotApplied _ | Cancelled _ _ | Expired _ | Stale _
  | Dropped _ => true
  | Unproposed | Pending _ | Admitting _ _ | ExecPrepared _ | ExecSent _ | OutcomeUnknown _ _
  | UnknownManual _ | Abandoned _ => false
  end.

Definition Blocking (s : State) : bool :=
  match s with
  | ExecPrepared _ | ExecSent _ | OutcomeUnknown _ _ | UnknownManual _ => true
  | _ => false
  end.

Definition PropOf (s : State) : option Proposal :=
  match s with
  | Pending p | Admitting p _ | ExecPrepared p | ExecSent p | OutcomeUnknown p _
  | UnknownManual p | Abandoned p | Applied p | Rejected p _ | NotApplied p | Cancelled p _
  | Expired p | Stale p | Dropped p => Some p
  | Unproposed | Refused _ => None
  end.

Definition postSend (s : State) : bool :=
  match s with
  | ExecSent _ | OutcomeUnknown _ _ | UnknownManual _ | Abandoned _ => true
  | _ => false
  end.

Definition executing (s : State) : bool :=
  match s with ExecPrepared _ | ExecSent _ => true | _ => false end.

Definition isUnknown (s : State) : bool :=
  match s with OutcomeUnknown _ _ | UnknownManual _ => true | _ => false end.

(** ** Rendering

    What [fmt.Sprintf("%+v")] prints for these structs: field names and
    values in braces, the enums by their [String] method. *)

Definition show_bool (b : bool) : string := if b then "true" else "false".

Definition show_fields (l : list (string * string)) : string :=
  "{" +:+ String.concat " " (map (λ f, f.1 +:+ ":" +:+ f.2) l) +:+ "}".

Definition show_Proposal (p : Proposal) : string :=
  show_fields [("ID", p.(ID)); ("Proposer", p.(Proposer));
               ("ProposerRole", Role_String p.(ProposerRole)); ("Kind", ToolKind_String p.(Kind));
               ("Gen", pretty p.(Gen)); ("ExpiresAt", pretty p.(ExpiresAt))].

Definition show_State (s : State) : string :=
  match s with
  | Unproposed => show_fields []
  | Refused w => show_fields [("Why", RefuseWhy_String w)]
  | Admitting p by_ => show_fields [("P", show_Proposal p); ("By", by_)]
  | OutcomeUnknown p n => show_fields [("P", show_Proposal p); ("Lookups", pretty n)]
  | Rejected p w => show_fields [("P", show_Proposal p); ("Why", RejectWhy_String w)]
  | Cancelled p w => show_fields [("P", show_Proposal p); ("Why", CancelWhy_String w)]
  | Pending p | ExecPrepared p | ExecSent p | UnknownManual p | Abandoned p | Applied p
  | NotApplied p | Expired p | Stale p | Dropped p => show_fields [("P", show_Proposal p)]
  end.

Definition show_Event (e : Event) : string :=
  match e with
  | Propose a => show_fields
      [("ID", a.(pr_ID)); ("Actor", a.(pr_Actor)); ("Role", Role_String a.(pr_Role));
       ("Tool", ToolKind_String a.(pr_Tool)); ("Claimed", Action_String a.(pr_Claimed));
       ("Gen", pretty a.(pr_Gen)); ("RuntimeGen", pretty a.(pr_RuntimeGen));
       ("ExpiresAt", pretty a.(pr_ExpiresAt)); ("Now", pretty a.(pr_Now));
       ("Held", show_bool a.(pr_Held)); ("Blocked", show_bool a.(pr_Blocked))]
  | Confirm a => show_fields
      [("Actor", a.(cf_Actor)); ("Role", Role_String a.(cf_Role)); ("Human", show_bool a.(cf_Human));
       ("DigestOK", show_bool a.(cf_DigestOK)); ("Now", pretty a.(cf_Now))]
  | Cancel actor => show_fields [("Actor", actor)]
  | Tick now => show_fields [("Now", pretty now)]
  | AdmitGranted now g => show_fields [("Now", pretty now); ("RuntimeGen", pretty g)]
  | AdmitRefused c => show_fields [("Cause", AdmitCause_String c)]
  | NotSent c => show_fields [("Cause", NotSentCause_String c)]
  | ApplyResult o => show_fields [("Outcome", ApplyOutcome_String o)]
  | ReceiptResult a => show_fields [("Answer", ReceiptAnswer_String a)]
  | OwnerResolve a => show_fields
      [("Role", Role_String a.(or_Role)); ("Human", show_bool a.(or_Human));
       ("Reason", show_bool a.(or_Reason)); ("Held", show_bool a.(or_Held))]
  | GenerationChanged n => show_fields [("New", pretty n)]
  | SendStarted | LookupDue | HoldAcquired | HoldReleased | AuthorityLowered | Restart
  | RetentionElapsed => show_fields []
  end.

Definition Key (s : State) : string := State_Name s +:+ show_State s.

Definition describe (e : Event) : string := Event_Name e +:+ show_Event e.

Definition EffectNames (fx : list Effect) : list string := map Effect_String fx.

(** ** The checks *)

Definition is_owner (r : Role) : bool := match r with RoleOwner => true | _ => false end.
Definition is_none (a : Action) : bool := match a with ActionNone => true | _ => false end.
Definition is_schema (k : ToolKind) : bool := match k with KindSchema => true | _ => false end.

Definition CheckState (s : State) : list string :=
  match PropOf s with
  | Some p =>
      (if is_schema p.(Kind) && negb (is_owner p.(ProposerRole))
       then ["schema proposal held for a non-owner: " +:+ Key s] else []) ++
      (if is_none (Proposal_Action p)
       then ["proposal without a mutating action: " +:+ Key s] else [])
  | None => []
  end ++
  match s with
  | OutcomeUnknown _ n =>
      if (n <? 0)%Z || (MaxLookups <=? n)%Z
      then ["lookup counter out of bound: " +:+ show_State s] else []
  | _ => []
  end ++
  match s with
  | Abandoned _ => if Blocking s then ["an abandoned outcome must not block writes"] else []
  | _ => []
  end.

Definition flag (b : bool) (msg : string) : list string := if b then [msg] else [].

Definition check_S1 (from to : State) : list string :=
  flag (Terminal from && negb (bool_decide (Key from = Key to))) "S1 a terminal state changed".

Definition check_S2 (from : State) (e : Event) (to : State) : list string :=
  match from, to with
  | Applied _, _ => []
  | _, Applied _ =>
      let okEv := match e with
                  | ApplyResult ApplyCommitted | ReceiptResult ReceiptCommitted => true
                  | _ => false
                  end in
      flag (negb okEv) "S2 Applied without a committed answer"
  | _, _ => []
  end.

(** S3 and S4 look at the step that enters [Admitting]. *)
Definition valid_confirm (e : Event) (p : Proposal) : bool :=
  match e with
  | Confirm c =>
      bool_decide (c.(cf_Actor) = p.(Proposer)) && c.(cf_Human) && c.(cf_DigestOK)
      && negb (p.(ExpiresAt) <=? c.(cf_Now))%Z
      && negb (rank c.(cf_Role) <? rank (Required (Proposal_Action p)))%Z
  | _ => false
  end.

Definition check_S3_S4 (from : State) (e : Event) (to : State) : list string :=
  match from, to with
  | Admitting _ _, _ => []
  | _, Admitting p _ =>
      flag (match from with Pending _ => false | _ => true end)
        "S3 Admitting entered from outside Pending" ++
      flag (negb (valid_confirm e p)) "S3 Admitting without a valid confirmation" ++
      flag (match Proposal_Action p with ActionSchema => true | _ => false end
            && match e with Confirm c => negb (is_owner c.(cf_Role)) | _ => true end)
        "S4 schema action admitted for a non-owner"
  | _, _ => []
  end.

Definition check_S5 (from : State) (e : Event) (to : State) : list string :=
  match to with
  | ExecPrepared p =>
      match from with
      | Admitting _ _ =>
          flag (match e with
                | AdmitGranted now g =>
                    negb (g =? p.(Gen))%Z || (p.(ExpiresAt) <=? now)%Z
                | _ => true
                end) "S5 execution from a stale generation or expired proposal"
      | ExecPrepared _ => []
      | _ => ["S5 execution entered from outside Admitting"]
      end
  | _ => []
  end.

(** The loop over the effects; [prev] is the effect before the current one. *)
Fixpoint check_S6_loop (from : State) (prev : option Effect) (fx : list Effect) : list string :=
  match fx with
  | [] => []
  | f :: fx' =>
      match f with
      | Dispatch =>
          flag (match prev with
                | None => true
                | Some q => negb (bool_decide (Effect_String q = "persist:executing"))
                end) "S6 dispatch not preceded by persist:executing" ++
          flag (match from with Admitting _ _ => false | _ => true end)
            "S6 dispatch outside the admission step"
      | _ => []
      end ++ check_S6_loop from (Some f) fx'
  end.

Definition is_dispatch (f : Effect) : bool := match f with Dispatch => true | _ => false end.

Definition dispatches (fx : list Effect) : nat := length (List.filter is_dispatch fx).

Definition check_S6 (from : State) (fx : list Effect) : list string :=
  check_S6_loop from None fx ++
  flag (1 <? dispatches fx)%nat "S6 more than one dispatch in a step".

Definition check_S7 (from : State) (e : Event) (to : State) : list string :=
  (if postSend from then
     match to with
     | Unproposed | Pending _ | Admitting _ _ | ExecPrepared _ =>
         ["S7 a sent proposal returned to a state that can dispatch"]
     | _ => []
     end
   else []) ++
  match from, to with
  | ExecPrepared _, Pending _ =>
      match e with
      | NotSent NotSentSlots | NotSent NotSentInvalid | NotSent NotSentWithdrawn => []
      | _ => ["S7 prepared returned to Pending without a retryable not-sent answer"]
      end
  | _, _ => []
  end.

Definition check_S8 (from : State) (e : Event) (to : State) : list string :=
  if isUnknown to && negb (isUnknown from) then
    let okSrc := executing from &&
      match e with
      | ApplyResult ApplyUnsettled | ApplyResult ApplyTransportError
      | ApplyResult ApplyTimeout | Restart => true
      | _ => false
      end in
    flag (negb okSrc) "S8 unknown outcome without a send that may have reached the add-on"
  else [].

Definition check_S9 (from to : State) : list string :=
  flag (Blocking to && negb (Blocking from)
        && match from with Admitting _ _ => false | _ => true end)
    "S9 a blocking situation entered outside admission or recovery".

(** On an event of another type the Go code looks at a zero [Propose]. *)
Definition check_S10 (from : State) (e : Event) (to : State) : list string :=
  match from, to with
  | Unproposed, Pending _ =>
      let '(r, k) := match e with
                     | Propose a => (a.(pr_Role), a.(pr_Tool))
                     | _ => (RoleNone, KindUndeclared)
                     end in
      flag ((rank r <? rank (Required (ActionOf k)))%Z || is_none (ActionOf k))
        "S10 proposal stored with a role below the derived action"
  | _, _ => []
  end.

Definition CheckTransition (from : State) (e : Event) (to : State) (fx : list Effect) : list string :=
  map (λ m, m +:+ " [" +:+ Key from +:+ " --" +:+ describe e +:+ "--> " +:+ Key to +:+ "]")
    (check_S1 from to ++ check_S2 from e to ++ check_S3_S4 from e to ++ check_S5 from e to ++
     check_S6 from fx ++ check_S7 from e to ++ check_S8 from e to ++ check_S9 from to ++
     check_S10 from e to).

(** ** Runs *)

Record StepResult := MkStepResult {
  sr_Event : Event;
  sr_Before : State;
  sr_After : State;
  sr_Rule : string;
  sr_Effects : list Effect;
}.

(** [None] when the reducer panics on some step. *)
Fixpoint Run (start : State) (events : list Event) : option (list StepResult) :=
  match events with
  | [] => Some []
  | e :: es =>
      match Reduce start e with
      | None => None
      | Some (next, fx, rule) =>
          rest ← Run next es;
          Some (MkStepResult e start next rule fx :: rest)
      end
  end.

(** The state a run ends in. *)
Definition last_state (start : State) (rs : list StepResult) : State :=
  match list.last rs with Some r => r.(sr_After) | None => start end.

Definition all_effects (rs : list StepResult) : list Effect := concat (map sr_Effects rs).

(** ** Well-formed events

    The events whose enum fields hold one of the named constants. *)
Definition named_role (r : Role) : bool := match r with RoleOther _ => false | _ => true end.

Definition named (e : Event) : bool :=
  match e with
  | Propose a => named_role a.(pr_Role) && match a.(pr_Tool) with KindOther _ => false | _ => true end
  | Confirm a => named_role a.(cf_Role)
  | NotSent (NotSentOther _) => false
  | ApplyResult (ApplyOther _) => false
  | ReceiptResult (ReceiptOther _) => false
  | _ => true
  end.

(** ** Invariant *)

Definition prop_ok (p : Proposal) : Prop :=
  (p.(Kind) = KindWrite) ∨ (p.(Kind) = KindSchema ∧ p.(ProposerRole) = RoleOwner).

Definition state_ok (s : State) : Prop :=
  match PropOf s with Some p => prop_ok p | None => True end ∧
  match s with OutcomeUnknown _ n => (0 ≤ n < MaxLookups)%Z | _ => True end.

(** ** One step *)

(** Case analysis on a step of the reducer, with the branches of the event's
    own conditions. *)
Ltac reduce_cases H :=
  simpl in H;
  repeat first
    [ progress simplify_eq
    | progress unfold move, stay, ignore, violation, evidence_or, evidence, resolve in H; simpl in H
    | match type of H with
      | context [match ?x with _ => _ end] =>
          lazymatch x with
          | context [match _ with _ => _ end] => fail
          | _ => destruct x eqn:?; simpl in H
          end
      end ].

Lemma check_S1_same s : check_S1 s s = [].
Proof. unfold check_S1. rewrite bool_decide_true by done. by destruct (Terminal s). Qed.

Lemma terminal_stays s e s' fx r : Terminal s = true → Reduce s e = Some (s', fx, r) → s' = s.
Proof. intros Ht H. destruct s; try done; destruct e; reduce_cases H; done. Qed.

Lemma owner_of_rank r : named_role r = true → (rank r <? rank RoleOwner)%Z = false → r = RoleOwner.
Proof. by destruct r. Qed.

Lemma state_ok_step s e s' fx r :
  state_ok s → named e = true → Reduce s e = Some (s', fx, r) → state_ok s'.
Proof.
  intros Hok Hn H. destruct s; destruct e; reduce_cases H; try done;
    destruct Hok as [Hp Hl]; split; simpl in *; try done; unfold prop_ok, MaxLookups in *; simpl in *.
  all: try lia.
  - by left.
  - right. rewrite Heqt, andb_true_r in Hn. auto using owner_of_rank.
  - by rewrite Heqt, andb_false_r in Hn.
Qed.

Lemma check_state_ok s : state_ok s → CheckState s = [].
Proof.
  intros [Hp Hl]. unfold CheckState.
  assert (match s with
    | OutcomeUnknown _ n => if (n <? 0)%Z || (MaxLookups <=? n)%Z
        then ["lookup counter out of bound: " +:+ show_State s] else []
    | _ => []
    end = []) as ->.
  { destruct s; try done. destruct ((Lookups <? 0)%Z || (MaxLookups <=? Lookups)%Z) eqn:E; [|done].
    apply orb_true_iff in E. lia. }
  replace (match s with Abandoned _ => _ | _ => [] end) with (@nil string) by by destruct s.
  destruct (PropOf s) as [p|]; [|done].
  destruct Hp as [Hk|[Hk Ho]]; rewrite Hk, ?Ho; unfold Proposal_Action; by rewrite Hk.
Qed.

(** All checks but S1, without their rendering. *)
Lemma raw_checks_ok s e s' fx r :
  state_ok s → named e = true → Reduce s e = Some (s', fx, r) →
  check_S2 s e s' ++ check_S3_S4 s e s' ++ check_S5 s e s' ++ check_S6 s fx ++ check_S7 s e s' ++
  check_S8 s e s' ++ check_S9 s s' ++ check_S10 s e s' = [].
Proof.
  intros Hok Hn H. destruct s; destruct e; reduce_cases H; try done.
  - simpl. rewrite Heqt. simpl. by rewrite Heqb0.
  - simpl. rewrite Heqt. simpl. by rewrite Heqb0.
  - simpl in Hn. by rewrite Heqt, andb_false_r in Hn.
  - repeat match goal with E : negb _ = false |- _ => apply negb_false_iff in E end.
    simpl. rewrite Heqb, Heqb0, Heqb1, Heqb2, Heqb3. simpl.
    destruct (Proposal_Action P) eqn:HA; try done.
    by rewrite (owner_of_rank (cf_Role a)).
  - simpl. by rewrite Heqb, Heqb0.
Qed.

Lemma check_transition_ok s e s' fx r :
  state_ok s → named e = true → Reduce s e = Some (s', fx, r) → CheckTransition s e s' fx = [].
Proof.
  intros Hok Hn H. unfold CheckTransition. rewrite (raw_checks_ok s e s' fx r Hok Hn H), app_nil_r.
  destruct (Terminal s) eqn:Ht.
  - by rewrite (terminal_stays s e s' fx r Ht H), check_S1_same.
  - unfold check_S1. by rewrite Ht.
Qed.

(** The only panic: a prepared dispatch told "not sent" with a cause that no
    constant names. *)
Lemma reduce_panics s e :
  Reduce s e = None → ∃ p n, s = ExecPrepared p ∧ e = NotSent (NotSentOther n).
Proof. intros H. destruct s; destruct e; reduce_cases H; eauto. Qed.

Lemma named_no_panic s e : named e = true → ∃ s' fx r, Reduce s e = Some (s', fx, r).
Proof.
  intros Hn. destruct (Reduce s e) as [[[s' fx] r]|] eqn:H; [eauto|].
  apply reduce_panics in H as (p & n & -> & ->). done.
Qed.

(** ** Runs *)

Lemma Run_snoc s es e rs :
  Run s es = Some rs →
  Run s (es ++ [e]) =
    '(s', fx, r) ← Reduce (last_state s rs) e;
    Some (rs ++ [MkStepResult e (last_state s rs) s' r fx]).
Proof.
  revert s rs. induction es as [|e0 es IH]; intros s rs H; simpl in *.
  { simplify_eq. unfold last_state; simpl. by destruct (Reduce s e) as [[[??]?]|]. }
  destruct (Reduce s e0) as [[[s1 fx] r]|]; [|done].
  destruct (Run s1 es) as [rs1|] eqn:H1; simplify_eq/=.
  rewrite (IH s1 rs1 H1).
  replace (last_state s (MkStepResult e0 s s1 r fx :: rs1)) with (last_state s1 rs1).
  { by destruct (Reduce (last_state s1 rs1) e) as [[[??]?]|]. }
  unfold last_state. by destruct rs1 using rev_ind; rewrite ?app_comm_cons, ?last_snoc.
Qed.

Lemma last_state_snoc s rs r : last_state s (rs ++ [r]) = r.(sr_After).
Proof. unfold last_state. by rewrite last_snoc. Qed.

(** Induction over the runs that start unproposed: a property of the events
    and results that holds before any event and is kept by each step. *)
Lemma Run_ind (P : list Event → list StepResult → Prop) :
  P [] [] →
  (∀ es rs e s' fx r,
     P es rs → Run Unproposed es = Some rs →
     Reduce (last_state Unproposed rs) e = Some (s', fx, r) →
     P (es ++ [e]) (rs ++ [MkStepResult e (last_state Unproposed rs) s' r fx])) →
  ∀ es rs, Run Unproposed es = Some rs → P es rs.
Proof.
  intros H0 Hstep es. induction es as [|e es IH] using rev_ind; intros rs H.
  { by simplify_eq/=. }
  destruct (Run Unproposed es) as [rs0|] eqn:H1.
  - rewrite (Run_snoc _ _ _ _ H1) in H.
    destruct (Reduce (last_state Unproposed rs0) e) as [[[s' fx] r]|] eqn:HR; simplify_eq/=.
    apply Hstep; auto.
  - exfalso. clear -H H1. revert H H1. generalize Unproposed.
    revert rs. induction es as [|e0 es IH]; intros rs s H H1; simpl in *; [done|].
    destruct (Reduce s e0) as [[[s1 fx] r]|]; [|done].
    destruct (Run s1 (es ++ [e])) eqn:E1; [|done]. destruct (Run s1 es) eqn:E2; [done|]. eauto.
Qed.

Lemma all_effects_snoc rs r : all_effects (rs ++ [r]) = all_effects rs ++ r.(sr_Effects).
Proof. unfold all_effects. by rewrite map_app, concat_app; simpl; rewrite app_nil_r. Qed.

Lemma named_run_ok es s :
  state_ok s → forallb named es = true →
  ∃ rs, Run s es = Some rs ∧
    Forall (λ r, CheckTransition r.(sr_Before) r.(sr_Event) r.(sr_After) r.(sr_Effects) = [] ∧
                 CheckState r.(sr_After) = []) rs.
Proof.
  revert s. induction es as [|e es IH]; intros s Hok Hn; simpl in *; [eauto|].
  apply andb_true_iff in Hn as [Hn Hns].
  destruct (named_no_panic s e Hn) as (s' & fx & r & HR). rewrite HR.
  specialize (state_ok_step s e s' fx r Hok Hn HR) as Hok'.
  destruct (IH s' Hok' Hns) as (rs & -> & Hrs). eexists; split; [done|].
  constructor; [|done]. simpl. eauto using check_transition_ok, check_state_ok.
Qed.

(** ** Histories *)

(** What the store holds after the [Persist] effects, in order. *)
Definition stored_from (st : string) (fx : list Effect) : string :=
  foldl (λ st f, match f with Persist to => to | _ => st end) st fx.

Definition stored (fx : list Effect) : string := stored_from "" fx.

(** The row of the store that belongs to a state: its durable name.  A dropped
    proposal has no durable name, but nothing removes the row of the abandoned
    one it was. *)
Definition row (s : State) : string :=
  match s with Dropped p => Durable (Abandoned p) | s => Durable s end.

(** How a step may deal with the row: a new one is persisted before any other
    effect and is the only one persisted; an unchanged one is not written; and
    the drop of an abandoned proposal does nothing at all. *)
Definition persists (s s' : State) (fx : list Effect) (r : string) : Prop :=
  (∃ rest, fx = Persist (Durable s') :: rest ∧ (∀ to, Persist to ∉ rest) ∧ Durable s' ≠ "") ∨
  (Durable s' = Durable s ∧ ∀ to, Persist to ∉ fx) ∨
  (∃ p, s = Abandoned p ∧ s' = Dropped p ∧ r = "R61" ∧ fx = []).

Definition count_rule (rule : string) (rs : list StepResult) : nat :=
  length (List.filter (λ r, String.eqb r.(sr_Rule) rule) rs).

Lemma dispatches_app fx1 fx2 : dispatches (fx1 ++ fx2) = dispatches fx1 + dispatches fx2.
Proof. unfold dispatches. by rewrite List.filter_app, length_app. Qed.

(** Before the first send: the states that can still dispatch. *)
Definition before_send (s : State) : bool :=
  match s with
  | Unproposed | Refused _ | Pending _ | Admitting _ _ | ExecPrepared _ => true
  | _ => false
  end.

(** Upper bounds, by state, on the sends so far and on the dispatches not
    answered by a retryable "not sent". *)
Definition sends_max (s : State) : nat := if before_send s then 0 else 1.

Definition dispatches_max (s : State) : nat :=
  match s with Unproposed | Refused _ | Pending _ | Admitting _ _ => 0 | _ => 1 end.

Definition is_rule (rule r : string) : nat := if String.eqb r rule then 1 else 0.

Lemma count_rule_snoc rule rs r :
  count_rule rule (rs ++ [r]) = count_rule rule rs + is_rule rule r.(sr_Rule).
Proof.
  unfold count_rule. rewrite List.filter_app, length_app. f_equal. unfold is_rule. simpl. by destruct (String.eqb _ _).
Qed.

Lemma dispatch_step s e s' fx r :
  Reduce s e = Some (s', fx, r) →
  dispatches fx + dispatches_max s ≤ dispatches_max s' + is_rule "R34" r ∧
  is_rule "R33" r + sends_max s ≤ sends_max s'.
Proof. intros H. destruct s; destruct e; reduce_cases H; unfold sends_max, is_rule; split; simpl; lia. Qed.

(** The proposal a state has dispatched, if it has. *)
Definition dispatched (s : State) : option Proposal :=
  match s with
  | ExecPrepared p | ExecSent p | OutcomeUnknown p _ | UnknownManual p | Abandoned p | Applied p
  | Rejected p _ | NotApplied p | Dropped p => Some p
  | _ => None
  end.

(** The event that stored a proposal. *)
Definition proposed_by (p : Proposal) (e : Event) : bool :=
  match e with
  | Propose a =>
      bool_decide (p = MkProposal a.(pr_ID) a.(pr_Actor) a.(pr_Role) a.(pr_Tool) a.(pr_Gen) a.(pr_ExpiresAt))
      && negb (rank a.(pr_Role) <? rank (Required (ActionOf a.(pr_Tool))))%Z
      && negb a.(pr_Held) && negb a.(pr_Blocked)
      && (a.(pr_Gen) =? a.(pr_RuntimeGen))%Z && negb (a.(pr_ExpiresAt) <=? a.(pr_Now))%Z
  | _ => false
  end.

Definition valid_grant (p : Proposal) (e : Event) : bool :=
  match e with
  | AdmitGranted now g => (g =? p.(Gen))%Z && negb (p.(ExpiresAt) <=? now)%Z
  | _ => false
  end.

(** Where the proposal, the confirmation and the grant of a state come from. *)
Lemma history_step s e s' fx r :
  Reduce s e = Some (s', fx, r) →
  (∀ p, PropOf s' = Some p → PropOf s = Some p ∨ (s = Unproposed ∧ proposed_by p e = true)) ∧
  (∀ p b, s' = Admitting p b → s = s' ∨ (PropOf s = Some p ∧ valid_confirm e p = true)) ∧
  (∀ p, dispatched s' = Some p →
    dispatched s = Some p ∨ ((∃ b, s = Admitting p b) ∧ valid_grant p e = true)).
Proof.
  intros H. destruct s; destruct e; reduce_cases H; split_and!; intros; simplify_eq/=; auto.
  all: right; split; eauto; unfold valid_confirm, valid_grant, proposed_by.
  all: repeat match goal with E : negb _ = _ |- _ => apply negb_false_iff in E end.
  all: rewrite ?bool_decide_true by done; simpl in *.
  all: repeat match goal with E : _ = _ :> bool |- _ => rewrite E; clear E end; try done.
  all: rewrite Heqt, bool_decide_true by done; simpl in *; by rewrite Heqb0.
Qed.

(** What the events so far must contain, in this order, for a state. *)
Definition history (es : list Event) (s : State) : Prop :=
  (∀ p, PropOf s = Some p → ∃ a, proposed_by p a = true ∧ [a] `sublist_of` es) ∧
  (∀ p b, s = Admitting p b → ∃ a c, proposed_by p a = true ∧ valid_confirm c p = true ∧
     [a; c] `sublist_of` es) ∧
  (∀ p, dispatched s = Some p → ∃ a c g, proposed_by p a = true ∧ valid_confirm c p = true ∧
     valid_grant p g = true ∧ [a; c; g] `sublist_of` es).

Lemma Run_history es rs :
  Run Unproposed es = Some rs → history es (last_state Unproposed rs).
Proof.
  revert es rs. apply Run_ind.
  { by split_and!; intros; simplify_eq/=. }
  intros es rs e s' fx r (H1 & H2 & H3) _ HR. rewrite last_state_snoc; simpl.
  apply history_step in HR as (G1 & G2 & G3). split_and!.
  - intros p Hp. destruct (G1 p Hp) as [Hs|[_ Ha]].
    + destruct (H1 p Hs) as (a & ? & ?). exists a. auto using sublist_inserts_r.
    + exists e. auto using sublist_inserts_l.
  - intros p b Hp. destruct (G2 p b Hp) as [Hs|[Hs Hc]].
    + rewrite <-Hs in Hp. destruct (H2 p b Hp) as (a & c & ? & ? & ?).
      exists a, c. auto using sublist_inserts_r.
    + destruct (H1 p Hs) as (a & ? & ?). exists a, e. split_and!; auto.
      change [a; e] with ([a] ++ [e]). by apply sublist_app.
  - intros p Hp. destruct (G3 p Hp) as [Hs|[[b Hs] Hg]].
    + destruct (H3 p Hs) as (a & c & g & ? & ? & ? & ?).
      exists a, c, g. split_and!; auto using sublist_inserts_r.
    + destruct (H2 p b Hs) as (a & c & ? & ? & ?). exists a, c, e. split_and!; auto.
      change [a; c; e] with ([a; c] ++ [e]). by apply sublist_app.
Qed.

Lemma persist_step s e s' fx r : Reduce s e = Some (s', fx, r) → persists s s' fx r.
Proof.
  intros H. unfold persists. destruct s; destruct e; reduce_cases H;
    first [by right; left; split; [|intros to; rewrite ?not_elem_of_cons; split_and?; [done..|by apply not_elem_of_nil]]
          |by right; right; eexists
          |left; eexists; split_and!; [done|intros to; rewrite ?not_elem_of_cons; split_and?; [done..|by apply not_elem_of_nil]|done]].
Qed.

(** Effects without a [Persist] leave the store alone. *)
Lemma stored_from_none st fx : (∀ to, Persist to ∉ fx) → stored_from st fx = st.
Proof.
  unfold stored_from. revert st. induction fx as [|f fx IH]; intros st H; [done|]. simpl.
  rewrite IH; [|intros to Hin; apply (H to); by right]. destruct f as [|to| | | | | |]; try done. destruct (H to). by left.
Qed.

(** So the store follows the rows. *)
Lemma row_step s e s' fx r : Reduce s e = Some (s', fx, r) → stored_from (row s) fx = row s'.
Proof.
  intros HR. pose proof (persist_step s e s' fx r HR) as [(rest & -> & Hn & Hd)|[[Hd Hn]|(p & -> & -> & _ & ->)]]; [| |done].
  - unfold stored_from. simpl. fold (stored_from (Durable s') rest). rewrite stored_from_none by done. by destruct s'.
  - rewrite stored_from_none by done. clear Hn. revert Hd. destruct s; destruct e; reduce_cases HR; done.
Qed.

(** ** Theorems *)

(** C34. Safety of the whole flow: whatever named events arrive, in any order
    and number, the reducer never panics, and every step and every state
    passes all the checks S1 to S10 of explore.go.  The Go search shows this
    for the events of its finite universe; here it holds for all identities,
    times, generations and roles. *)
Theorem proposal_safety (events : list Event) :
  forallb named events = true →
  ∃ rs, Run Unproposed events = Some rs ∧
    Forall (λ r, CheckTransition r.(sr_Before) r.(sr_Event) r.(sr_After) r.(sr_Effects) = [] ∧
                 CheckState r.(sr_After) = []) rs.
Proof. apply named_run_ok. by split. Qed.

(** C35. No effect without authority: when a proposal has been dispatched (it
    is executing, or reached any state that only a dispatch leads to), the
    history contains, in this order, the proposal stored with a role covering
    the action of its tool, a confirmation by its own proposer from a human
    surface with the stored digest before expiry and with a live role
    covering the action, and an admission for its own generation before
    expiry. *)
Theorem proposal_authorized events rs p :
  Run Unproposed events = Some rs → dispatched (last_state Unproposed rs) = Some p →
  ∃ a c g, proposed_by p a = true ∧ valid_confirm c p = true ∧ valid_grant p g = true ∧
    [a; c; g] `sublist_of` events.
Proof. intros H Hd. by apply (Run_history events rs H). Qed.

(** C36. At most one send: in any history the request goes on the wire at most
    once (rule R33), each dispatch beyond the first follows a "not sent"
    answer that proved the add-on never saw the previous one (rule R34), and
    once the send has happened no state can dispatch again. *)
Theorem proposal_one_send events rs :
  Run Unproposed events = Some rs →
  count_rule "R33" rs ≤ 1 ∧
  dispatches (all_effects rs) ≤ count_rule "R34" rs + 1 ∧
  (count_rule "R33" rs = 1 → before_send (last_state Unproposed rs) = false).
Proof.
  intros H.
  cut (count_rule "R33" rs ≤ sends_max (last_state Unproposed rs) ∧
       dispatches (all_effects rs) ≤ count_rule "R34" rs + dispatches_max (last_state Unproposed rs)).
  { intros [H1 H2].
    destruct (last_state Unproposed rs); unfold sends_max in *; simpl in *;
      split_and!; intros; try lia; done. }
  revert events rs H. refine (Run_ind _ _ _); [by split|].
  intros es rs e s' fx r [H1 H2] _ HR.
  rewrite last_state_snoc, !count_rule_snoc, all_effects_snoc, dispatches_app. simpl.
  apply dispatch_step in HR as [G1 G2]. lia.
Qed.

(** C37. The store follows the state, as far as the reducer writes it: replaying
    the [Persist] effects of any history gives the durable name of the current
    state, except that a dropped proposal, which has none, still has the row
    [abandoned-unknown].  Every step persists the durable name of the state it
    enters before any other effect and nothing else, or leaves the durable name
    as it is and persists nothing, or is the drop of an abandoned proposal
    (rule R61), which has no effect at all. *)
Theorem proposal_durable events rs :
  Run Unproposed events = Some rs →
  stored (all_effects rs) =
    match last_state Unproposed rs with Dropped _ => "abandoned-unknown" | s => Durable s end ∧
  Forall (λ r, persists r.(sr_Before) r.(sr_After) r.(sr_Effects) r.(sr_Rule)) rs.
Proof.
  intros HR. cut (stored (all_effects rs) = row (last_state Unproposed rs) ∧
    Forall (λ r, persists r.(sr_Before) r.(sr_After) r.(sr_Effects) r.(sr_Rule)) rs).
  { intros [-> H]. split; [|done]. by destruct (last_state Unproposed rs). }
  revert events rs HR. refine (Run_ind _ _ _); [by split|].
  intros es rs e s' fx r [H1 H2] _ HR. rewrite last_state_snoc, all_effects_snoc. simpl. split.
  - unfold stored, stored_from in *. rewrite foldl_app, H1. by apply row_step in HR.
  - apply Forall_app. split; [done|]. constructor; [|done]. by eapply persist_step.
Qed.

(** The rule table is sound: every answer of the reducer names a rule of
    the table, exactly one row has that id, an ignored row changes nothing
    and emits nothing, a violation row changes nothing and raises exactly one
    alarm, and no transition row is silent about a change of the state. *)
Theorem proposal_rules s e s' fx r :
  Reduce s e = Some (s', fx, r) →
  ∃ rule, RuleByID r = Some rule ∧ List.filter (λ x, String.eqb x.(rule_ID) r) Rules = [rule] ∧
    match rule.(rule_Kind) with
    | KindTransition => s' ≠ s ∨ fx ≠ []
    | KindIgnored => s' = s ∧ fx = []
    | KindViolation => s' = s ∧ e = SendStarted ∧ ∃ msg, fx = [Alarm msg]
    end.
Proof.
  intros H. destruct s; destruct e; reduce_cases H; eexists; (split; [reflexivity|]);
    (split; [reflexivity|]); simpl; eauto; by (left; congruence) || by right.
Qed.

(** The reducer panics on exactly one kind of input: a prepared dispatch
    answered "not sent" with a cause that no constant names. *)
Theorem proposal_panics s e :
  Reduce s e = None ↔ ∃ p n, s = ExecPrepared p ∧ e = NotSent (NotSentOther n).
Proof. split; [apply reduce_panics|]. by intros (p & n & -> & ->). Qed.

(** For every state, events that lead to an end.  A proposal before its
    dispatch ends with the clock; one whose outcome may be unknown ends by a
    restart, the owner's resolution and the retention time, without any
    answer of the add-on. *)
Definition owner_resolve : Event := OwnerResolve (MkResolve RoleOwner true true false).

Definition way_out (s : State) : list Event :=
  match s with
  | Unproposed =>
      [Propose (MkPropose "" "" RoleNone KindUndeclared ActionNone 0 0 0 0 false false)]
  | Pending p | Admitting p _ => [Tick p.(ExpiresAt)]
  | ExecPrepared _ | ExecSent _ => [Restart; owner_resolve; RetentionElapsed]
  | OutcomeUnknown _ _ | UnknownManual _ => [owner_resolve; RetentionElapsed]
  | Abandoned _ => [RetentionElapsed]
  | _ => []
  end.

(** C38. No dead end: from every state, reachable or not, named events that
    need no answer of the add-on lead to a terminal state, in at most three
    steps; and a terminal state is left by no event. *)
Theorem proposal_no_dead_end s :
  (∃ rs, Run s (way_out s) = Some rs ∧ Terminal (last_state s rs) = true) ∧
  forallb named (way_out s) = true ∧ length (way_out s) ≤ 3 ∧
  (Terminal s = true → ∀ e s' fx r, Reduce s e = Some (s', fx, r) → s' = s).
Proof.
  split_and!; [|by destruct s|destruct s; simpl; lia|eauto using terminal_stays].
  destruct s; simpl; eauto; rewrite Z.leb_refl; simpl; eauto.
Qed.

(** ** Witnesses *)

Definition demo_proposal : Proposal := MkProposal "op" "alice" RoleOwner KindSchema 1 10.

Definition demo_events : list Event :=
  [Propose (MkPropose "op" "alice" RoleOwner KindSchema ActionWrite 1 1 10 0 false false);
   Confirm (MkConfirm "alice" RoleOwner true true 1);
   AdmitGranted 2 1; NotSent NotSentSlots;
   Confirm (MkConfirm "alice" RoleOwner true true 3);
   AdmitGranted 4 1; SendStarted; Restart; ReceiptResult ReceiptCommitted].

Definition demo_run : list StepResult :=
  match Run Unproposed demo_events with Some rs => rs | None => [] end.

Lemma proposal_safety_witness :
  ∃ rs, Run Unproposed demo_events = Some rs ∧
    Forall (λ r, CheckTransition r.(sr_Before) r.(sr_Event) r.(sr_After) r.(sr_Effects) = [] ∧
                 CheckState r.(sr_After) = []) rs.
Proof. apply proposal_safety. vm_compute. reflexivity. Defined.

Lemma proposal_authorized_witness :
  last_state Unproposed demo_run = Applied demo_proposal ∧
  ∃ a c g, proposed_by demo_proposal a = true ∧ valid_confirm c demo_proposal = true ∧
    valid_grant demo_proposal g = true ∧ [a; c; g] `sublist_of` demo_events.
Proof.
  split; [vm_compute; reflexivity|].
  apply (proposal_authorized demo_events demo_run demo_proposal); vm_compute; reflexivity.
Defined.

Lemma proposal_one_send_witness :
  count_rule "R33" demo_run = 1 ∧ dispatches (all_effects demo_run) = 2 ∧
  (count_rule "R33" demo_run ≤ 1 ∧
   dispatches (all_effects demo_run) ≤ count_rule "R34" demo_run + 1 ∧
   (count_rule "R33" demo_run = 1 → before_send (last_state Unproposed demo_run) = false)).
Proof.
  split; [vm_compute; reflexivity|]. split; [vm_compute; reflexivity|].
  apply (proposal_one_send demo_events demo_run). vm_compute. reflexivity.
Defined.

(** An outcome that stays unknown: abandoned by the owner, then dropped; the row
    stays. *)
Definition drop_events : list Event :=
  [Propose (MkPropose "op" "alice" RoleOwner KindSchema ActionWrite 1 1 10 0 false false);
   Confirm (MkConfirm "alice" RoleOwner true true 1);
   AdmitGranted 2 1; SendStarted; Restart; owner_resolve; RetentionElapsed].

Definition drop_run : list StepResult :=
  match Run Unproposed drop_events with Some rs => rs | None => [] end.

Lemma proposal_durable_witness :
  stored (all_effects demo_run) = "applied" ∧
  last_state Unproposed drop_run = Dropped demo_proposal ∧ stored (all_effects drop_run) = "abandoned-unknown".
Proof.
  destruct (proposal_durable demo_events demo_run ltac:(vm_compute; reflexivity)) as [H1 _].
  destruct (proposal_durable drop_events drop_run ltac:(vm_compute; reflexivity)) as [H2 _].
  split; [rewrite H1; vm_compute; reflexivity|]. split; [vm_compute; reflexivity|]. rewrite H2. vm_compute. reflexivity.
Defined.

Lemma proposal_rules_witness :
  ∃ rule, RuleByID "V1" = Some rule ∧ List.filter (λ x, String.eqb x.(rule_ID) "V1") Rules = [rule] ∧
    match rule.(rule_Kind) with
    | KindTransition =>
        Unproposed ≠ Unproposed ∨ (violation Unproposed).1.2 ≠ []
    | KindIgnored => Unproposed = Unproposed ∧ (violation Unproposed).1.2 = []
    | KindViolation => Unproposed = Unproposed ∧ SendStarted = SendStarted ∧
        ∃ msg, (violation Unproposed).1.2 = [Alarm msg]
    end.
Proof. apply (proposal_rules Unproposed SendStarted). reflexivity. Defined.
