(* ===== verification/ProposalTraces.v ===== *)
(** * ProposalTraces: the scenario traces of the proposal flow

    Models [pkg/addons/model/proposalflow/traces.go]: the trace format,
    [Verify], the building blocks and the scenarios themselves, one
    definition each, in the order of [Traces]. *)
From S2P Require Import Prelude ProposalFlow ProposalInv.

Record Step := MkStep { st_Event : Event; st_Rule : string; st_Effects : list string }.

Record Trace := MkTrace {
  Name : string;
  About : string;
  Steps : list Step;
  Final : State;
}.

Definition Events (t : Trace) : list Event := map st_Event t.(Steps).

(** [fmt] of a slice of strings. *)
Definition show_strings (l : list string) : string := "[" +:+ String.concat " " l +:+ "]".

(** The mismatches of one step; [n] is its number from 1. *)
Definition verify_step (t : Trace) (n : nat) (r : StepResult) (want : Step) : list string :=
  (if String.eqb r.(sr_Rule) want.(st_Rule) then []
   else [t.(Name) +:+ " step " +:+ pretty n +:+ " (" +:+ Event_Name r.(sr_Event) +:+ "): rule " +:+
         r.(sr_Rule) +:+ ", want " +:+ want.(st_Rule)]) ++
  let got := EffectNames r.(sr_Effects) in
  if bool_decide (got = want.(st_Effects)) then []
  else [t.(Name) +:+ " step " +:+ pretty n +:+ ": effects " +:+ show_strings got +:+ ", want " +:+
        show_strings want.(st_Effects)].

(** [None] when the reducer panics. *)
Definition Verify (t : Trace) : option (list string) :=
  res ← Run Unproposed (Events t);
  Some (concat (imap (λ i p, verify_step t (S i) p.1 p.2) (zip res t.(Steps))) ++
        match list.last res with
        | Some r =>
            if String.eqb (Key r.(sr_After)) (Key t.(Final)) then []
            else [t.(Name) +:+ ": final " +:+ Key r.(sr_After) +:+ ", want " +:+ Key t.(Final)]
        | None => []
        end).

(** ** Building blocks *)

Definition prop (k : ToolKind) (r : Role) : Proposal := MkProposal "op1" "alice" r k 1 10.

Definition propose (r : Role) (k : ToolKind) : Event :=
  Propose (MkPropose "op1" "alice" r k ActionWrite 1 1 10 0 false false).

Definition confirm : Event := Confirm (MkConfirm "alice" RoleOwner true true 1).

Definition granted : Event := AdmitGranted 1 1.

Definition st (e : Event) (rule : string) (fx : list string) : Step := MkStep e rule fx.

Definition ownerResolve : Event := OwnerResolve (MkResolve RoleOwner true true false).

Definition toSent : list Step := [
  st (propose RoleOwner KindWrite) "R8" ["persist:pending"; "reply:created"];
  st confirm "R15" ["admit:write"];
  st granted "R32" ["persist:executing"; "dispatch"];
  st SendStarted "R33" []
].

Definition with_ (prefix more : list Step) : list Step := prefix ++ more.

Definition w : Proposal := prop KindWrite RoleOwner.
Definition sch : Proposal := prop KindSchema RoleOwner.

(** ** The scenarios *)

Definition trace_happy_path : Trace := MkTrace
  "happy-path"
  "propose, confirm, admit, send, committed: Applied"
  (with_ toSent [
     st (ApplyResult ApplyCommitted) "R37" ["persist:applied"; "reply:applied"]])
  (Applied w).

Definition trace_retry_after_not_sent : Trace := MkTrace
  "retry-after-not-sent"
  "finding (a): the client refuses before the send (no free slot); the proposal returns to Pending and is retried, never OutcomeUnknown"
  ([
     st (propose RoleOwner KindWrite) "R8" ["persist:pending"; "reply:created"];
     st confirm "R15" ["admit:write"];
     st granted "R32" ["persist:executing"; "dispatch"];
     st (NotSent NotSentSlots) "R34" ["persist:pending"; "reply:unavailable"];
     st confirm "R15" ["admit:write"];
     st granted "R32" ["persist:executing"; "dispatch"];
     st SendStarted "R33" [];
     st (ApplyResult ApplyCommitted) "R37" ["persist:applied"; "reply:applied"]])
  (Applied w).

Definition trace_retry_after_admission_refused : Trace := MkTrace
  "retry-after-admission-refused"
  "finding (a): the admission says held; nothing was persisted or sent, so the proposal stays retryable"
  ([
     st (propose RoleOwner KindWrite) "R8" ["persist:pending"; "reply:created"];
     st confirm "R15" ["admit:write"];
     st (AdmitRefused CauseHeld) "R29" ["reply:unavailable"];
     st HoldReleased "I4" [];
     st confirm "R15" ["admit:write"];
     st (AdmitRefused CauseBlocked) "R29" ["reply:blocked"];
     st confirm "R15" ["admit:write"];
     st granted "R32" ["persist:executing"; "dispatch"];
     st SendStarted "R33" [];
     st (ApplyResult ApplyCommitted) "R37" ["persist:applied"; "reply:applied"]])
  (Applied w).

Definition trace_withdrawn_then_generation_moved : Trace := MkTrace
  "withdrawn-then-generation-moved"
  "finding (a): the client is withdrawn before the send (add-on replaced); retryable, then the generation check makes it Stale instead of unknown"
  ([
     st (propose RoleOwner KindWrite) "R8" ["persist:pending"; "reply:created"];
     st confirm "R15" ["admit:write"];
     st granted "R32" ["persist:executing"; "dispatch"];
     st (NotSent NotSentWithdrawn) "R34" ["persist:pending"; "reply:unavailable"];
     st (GenerationChanged 2) "R57" ["persist:rejected"];
     st confirm "R19" ["reply:rejected"]])
  (Stale w).

Definition trace_timeout_unknown_then_receipt_committed : Trace := MkTrace
  "timeout-unknown-then-receipt-committed"
  "finding (c): the apply times out after the send; lookups run; the receipt says committed"
  (with_ toSent [
     st (ApplyResult ApplyTimeout) "R39" ["persist:outcome-unknown"; "reply:outcome-unknown"];
     st LookupDue "R45" ["lookup-receipt"];
     st (ReceiptResult ReceiptUnsettled) "R43" ["persist:outcome-unknown"];
     st LookupDue "R45" ["lookup-receipt"];
     st (ReceiptResult ReceiptCommitted) "R40" ["persist:applied"]])
  (Applied w).

Definition trace_unknown_bounded_then_manual_resolution : Trace := MkTrace
  "unknown-bounded-then-manual-resolution"
  "finding (c): lookups stay unsettled up to the bound; UnknownManual; owner resolution abandons it; retention drops it. No state is stuck"
  (with_ toSent [
     st (ApplyResult ApplyTransportError) "R39" ["persist:outcome-unknown"; "reply:outcome-unknown"];
     st (ReceiptResult ReceiptUnsettled) "R43" ["persist:outcome-unknown"];
     st (ReceiptResult ReceiptUnsettled) "R44" ["persist:outcome-unknown"];
     st LookupDue "I7" [];
     st confirm "R17" ["lookup-receipt"; "reply:outcome-unknown"];
     st (OwnerResolve (MkResolve RoleEditor true true false)) "R46" ["reply:forbidden"];
     st (OwnerResolve (MkResolve RoleOwner true true true)) "R47" ["reply:unavailable"];
     st ownerResolve "R48" ["persist:abandoned-unknown"; "lookup-receipt"; "reply:resolved"];
     st LookupDue "R45" ["lookup-receipt"];
     st RetentionElapsed "R61" []])
  (Dropped w).

Definition trace_late_receipt_after_abandon : Trace := MkTrace
  "late-receipt-after-abandon"
  "an abandoned outcome that later turns out committed is recorded as Applied, not hidden"
  (with_ toSent [
     st (ApplyResult ApplyTimeout) "R39" ["persist:outcome-unknown"; "reply:outcome-unknown"];
     st ownerResolve "R48" ["persist:abandoned-unknown"; "lookup-receipt"; "reply:resolved"];
     st (ReceiptResult ReceiptCommitted) "R40" ["persist:applied"]])
  (Applied w).

Definition trace_two_actors_racing_confirm : Trace := MkTrace
  "two-actors-racing-confirm"
  "another user's confirm is forbidden; a second confirm by the proposer while admission runs is busy; a repeat during execution looks the receipt up and never applies twice"
  ([
     st (propose RoleOwner KindWrite) "R8" ["persist:pending"; "reply:created"];
     st (Confirm (MkConfirm "bob" RoleOwner true true 1)) "R10" ["reply:forbidden"];
     st confirm "R15" ["admit:write"];
     st confirm "R16" ["reply:busy"];
     st (Cancel "bob") "R23" ["reply:forbidden"];
     st granted "R32" ["persist:executing"; "dispatch"];
     st confirm "R17" ["lookup-receipt"; "reply:outcome-unknown"];
     st (Cancel "alice") "R26" ["reply:closed"];
     st SendStarted "R33" [];
     st (ApplyResult ApplyCommitted) "R37" ["persist:applied"; "reply:applied"]])
  (Applied w).

Definition trace_cancel_races_confirm : Trace := MkTrace
  "cancel-races-confirm"
  "cancel wins while the confirmation waits for admission; the late admission answer finds the proposal closed and nothing runs"
  ([
     st (propose RoleOwner KindWrite) "R8" ["persist:pending"; "reply:created"];
     st confirm "R15" ["admit:write"];
     st (Cancel "alice") "R25" ["persist:cancelled"; "reply:cancelled"];
     st granted "I3" [];
     st confirm "R20" ["reply:closed"]])
  (Cancelled w CancelByProposer).

Definition trace_hold_during_prepared_dispatch : Trace := MkTrace
  "hold-during-prepared-dispatch"
  "a hold arrives after executing is persisted but before the send: the dispatch is cancelled, nothing was sent, Cancelled"
  ([
     st (propose RoleOwner KindWrite) "R8" ["persist:pending"; "reply:created"];
     st confirm "R15" ["admit:write"];
     st granted "R32" ["persist:executing"; "dispatch"];
     st HoldAcquired "R52" ["cancel-dispatch:hold"];
     st (NotSent NotSentHold) "R35" ["persist:cancelled"; "reply:cancelled"];
     st HoldReleased "I2" []])
  (Cancelled w CancelByHold).

Definition trace_hold_too_late_to_cancel : Trace := MkTrace
  "hold-too-late-to-cancel"
  "the hold races the send and loses: the request is on the wire, so the proposal waits for the result instead of claiming it was cancelled"
  ([
     st (propose RoleOwner KindWrite) "R8" ["persist:pending"; "reply:created"];
     st confirm "R15" ["admit:write"];
     st granted "R32" ["persist:executing"; "dispatch"];
     st HoldAcquired "R52" ["cancel-dispatch:hold"];
     st SendStarted "R33" [];
     st HoldAcquired "R53" ["cancel-send"];
     st HoldReleased "I4" [];
     st (ApplyResult ApplyCommitted) "R37" ["persist:applied"; "reply:applied"]])
  (Applied w).

Definition trace_hold_during_sent_request : Trace := MkTrace
  "hold-during-sent-request"
  "a hold aborts the request in flight; the aborted call is OutcomeUnknown, and a not-committed answer settles it"
  (with_ toSent [
     st HoldAcquired "R53" ["cancel-send"];
     st (ApplyResult ApplyTransportError) "R39" ["persist:outcome-unknown"; "reply:outcome-unknown"];
     st LookupDue "R45" ["lookup-receipt"];
     st (ReceiptResult ReceiptNotCommitted) "R42" ["persist:rejected"]])
  (NotApplied w).

Definition trace_hold_on_pending : Trace := MkTrace
  "hold-on-pending"
  "a hold invalidates a pending proposal; a later confirm gets closed"
  ([
     st (propose RoleOwner KindWrite) "R8" ["persist:pending"; "reply:created"];
     st HoldAcquired "R51" ["persist:cancelled"];
     st confirm "R20" ["reply:closed"]])
  (Cancelled w CancelByHold).

Definition trace_generation_change_while_pending : Trace := MkTrace
  "generation-change-while-pending"
  "the add-on moves to a new generation: the pending proposal is Stale and never executes"
  ([
     st (propose RoleOwner KindWrite) "R8" ["persist:pending"; "reply:created"];
     st (GenerationChanged 2) "R57" ["persist:rejected"];
     st confirm "R19" ["reply:rejected"];
     st (Tick 20) "I2" []])
  (Stale w).

Definition trace_generation_seen_at_admission : Trace := MkTrace
  "generation-seen-at-admission"
  "the generation moved before the change event arrived: the admission check finds a runtime of another generation and the proposal is Stale"
  ([
     st (propose RoleOwner KindWrite) "R8" ["persist:pending"; "reply:created"];
     st confirm "R15" ["admit:write"];
     st (AdmitGranted 1 2) "R31" ["persist:rejected"; "reply:stale"]])
  (Stale w).

Definition trace_generation_change_while_prepared : Trace := MkTrace
  "generation-change-while-prepared"
  "the generation moves after executing is persisted: the dispatch is cancelled and the not-sent answer makes it Stale"
  ([
     st (propose RoleOwner KindWrite) "R8" ["persist:pending"; "reply:created"];
     st confirm "R15" ["admit:write"];
     st granted "R32" ["persist:executing"; "dispatch"];
     st (GenerationChanged 2) "R58" ["cancel-dispatch:superseded"];
     st (NotSent NotSentSuperseded) "R36" ["persist:rejected"; "reply:stale"]])
  (Stale w).

Definition trace_duplicate_confirm_after_applied : Trace := MkTrace
  "duplicate-confirm-after-applied"
  "a repeated confirm, propose or cancel after Applied returns the stored answer and runs nothing"
  (with_ toSent [
     st (ApplyResult ApplyCommitted) "R37" ["persist:applied"; "reply:applied"];
     st confirm "R18" ["reply:applied"];
     st (propose RoleOwner KindWrite) "R9" ["reply:existing"];
     st (Cancel "alice") "R26" ["reply:closed"]])
  (Applied w).

Definition trace_duplicate_confirm_while_unknown : Trace := MkTrace
  "duplicate-confirm-while-unknown"
  "a repeated confirm of an unknown outcome looks the receipt up and never applies again"
  (with_ toSent [
     st (ApplyResult ApplyTimeout) "R39" ["persist:outcome-unknown"; "reply:outcome-unknown"];
     st confirm "R17" ["lookup-receipt"; "reply:outcome-unknown"];
     st confirm "R17" ["lookup-receipt"; "reply:outcome-unknown"]])
  (OutcomeUnknown w 0).

Definition trace_editor_schema_propose_refused : Trace := MkTrace
  "editor-schema-propose-refused"
  "finding (b): an editor proposes a schema-kind tool while claiming the write action; the action comes from the tool kind, so it is Refused"
  ([
     st (propose RoleEditor KindSchema) "R4" ["reply:forbidden"];
     st (Confirm (MkConfirm "alice" RoleEditor true true 1)) "R22" ["reply:forbidden"]])
  (Refused RefuseInsufficientRole).

Definition trace_editor_confirm_of_schema_after_demotion : Trace := MkTrace
  "editor-confirm-of-schema-after-demotion"
  "finding (b): an owner proposes a schema change, is lowered to editor, and the confirm is forbidden; the proposal stays Pending"
  ([
     st (propose RoleOwner KindSchema) "R8" ["persist:pending"; "reply:created"];
     st (Confirm (MkConfirm "alice" RoleEditor true true 1)) "R14" ["reply:forbidden"];
     st confirm "R15" ["admit:schema"]])
  (Admitting sch "alice").

Definition trace_out_of_order_receipt : Trace := MkTrace
  "out-of-order-receipt"
  "a receipt reply for a proposal not yet sent is ignored; a committed receipt that beats the apply reply settles it, and the late apply error changes nothing"
  ([
     st (propose RoleOwner KindWrite) "R8" ["persist:pending"; "reply:created"];
     st (ReceiptResult ReceiptCommitted) "I3" [];
     st confirm "R15" ["admit:write"];
     st granted "R32" ["persist:executing"; "dispatch"];
     st SendStarted "R33" [];
     st (ReceiptResult ReceiptUnsettled) "I5" [];
     st (ReceiptResult ReceiptCommitted) "R40" ["persist:applied"];
     st (ApplyResult ApplyTransportError) "I3" []])
  (Applied w).

Definition trace_late_apply_reply_after_timeout : Trace := MkTrace
  "late-apply-reply-after-timeout"
  "the apply reply arrives after the timeout was recorded: the committed answer still settles it"
  (with_ toSent [
     st (ApplyResult ApplyTimeout) "R39" ["persist:outcome-unknown"; "reply:outcome-unknown"];
     st (ApplyResult ApplyCommitted) "R37" ["persist:applied"; "reply:applied"];
     st (ApplyResult ApplyTimeout) "I3" []])
  (Applied w).

Definition trace_restart_recovery : Trace := MkTrace
  "restart-recovery"
  "a restart in admission returns to Pending; a restart with an executing proposal is OutcomeUnknown and a lookup settles it"
  ([
     st (propose RoleOwner KindWrite) "R8" ["persist:pending"; "reply:created"];
     st confirm "R15" ["admit:write"];
     st Restart "R59" [];
     st confirm "R15" ["admit:write"];
     st granted "R32" ["persist:executing"; "dispatch"];
     st Restart "R60" ["persist:outcome-unknown"];
     st LookupDue "R45" ["lookup-receipt"];
     st (ReceiptResult ReceiptCommitted) "R40" ["persist:applied"]])
  (Applied w).

Definition trace_addon_conflict_is_rejected : Trace := MkTrace
  "addon-conflict-is-rejected"
  "a 409 answer is the add-on's definite answer, so Rejected, not OutcomeUnknown"
  (with_ toSent [
     st (ApplyResult ApplyConflict) "R38" ["persist:rejected"; "reply:rejected"]])
  (Rejected w RejectConflict).

Definition trace_expiry : Trace := MkTrace
  "expiry"
  "a tick before expiry changes nothing; a tick at expiry expires it; a confirm then gets expired"
  ([
     st (propose RoleOwner KindWrite) "R8" ["persist:pending"; "reply:created"];
     st (Tick 5) "I8" [];
     st (Tick 10) "R28" ["persist:expired"];
     st confirm "R21" ["reply:expired"]])
  (Expired w).

Definition trace_propose_while_held_then_retry : Trace := MkTrace
  "propose-while-held-then-retry"
  "a propose during a hold stores nothing and is retried after it"
  ([
     st (Propose (MkPropose "op1" "alice" RoleOwner KindWrite ActionWrite 1 1 10 0 true false)) "R1" ["reply:unavailable"];
     st (Propose (MkPropose "op1" "alice" RoleOwner KindWrite ActionWrite 1 1 10 0 false true)) "R6" ["reply:blocked"];
     st (Propose (MkPropose "op1" "alice" RoleOwner KindWrite ActionWrite 1 1 0 0 false false)) "R7" ["reply:unavailable"];
     st (propose RoleOwner KindWrite) "R8" ["persist:pending"; "reply:created"]])
  (Pending w).

Definition trace_propose_undeclared_tool : Trace := MkTrace
  "propose-undeclared-tool"
  "a tool the add-on did not declare is refused and nothing is stored"
  ([
     st (propose RoleOwner KindUndeclared) "R2" ["reply:refused"]])
  (Refused RefuseUndeclaredTool).

Definition trace_propose_read_tool : Trace := MkTrace
  "propose-read-tool"
  "a read tool is never a proposal"
  ([
     st (propose RoleOwner KindRead) "R3" ["reply:refused"]])
  (Refused RefuseNotAMutation).

Definition trace_propose_stale_generation : Trace := MkTrace
  "propose-stale-generation"
  "a preview made against another generation than the runtime's is refused"
  ([
     st (Propose (MkPropose "op1" "alice" RoleOwner KindWrite ActionWrite 1 2 10 0 false false)) "R5" ["reply:stale"]])
  (Refused RefuseStaleGeneration).

Definition trace_confirm_guards : Trace := MkTrace
  "confirm-guards"
  "a confirm from a non-human credential or with a changed digest is refused and changes nothing; a confirm after expiry expires the proposal"
  ([
     st (propose RoleOwner KindWrite) "R8" ["persist:pending"; "reply:created"];
     st (Confirm (MkConfirm "alice" RoleOwner false true 1)) "R11" ["reply:forbidden"];
     st (Confirm (MkConfirm "alice" RoleOwner true false 1)) "R12" ["reply:changed"];
     st (Confirm (MkConfirm "alice" RoleOwner true true 10)) "R13" ["persist:expired"; "reply:expired"]])
  (Expired w).

Definition trace_expiry_seen_at_admission : Trace := MkTrace
  "expiry-seen-at-admission"
  "the clock passes expiry while the confirmation waits for admission: Expired, nothing runs"
  ([
     st (propose RoleOwner KindWrite) "R8" ["persist:pending"; "reply:created"];
     st confirm "R15" ["admit:write"];
     st (AdmitGranted 10 1) "R30" ["persist:expired"; "reply:expired"]])
  (Expired w).

Definition trace_cancel_pending : Trace := MkTrace
  "cancel-pending"
  "the proposer cancels a pending proposal; an owner resolution and a confirm of it are closed"
  ([
     st (propose RoleOwner KindWrite) "R8" ["persist:pending"; "reply:created"];
     st ownerResolve "R49" ["reply:closed"];
     st (Cancel "alice") "R24" ["persist:cancelled"; "reply:cancelled"];
     st (Cancel "alice") "R27" ["reply:cancelled"];
     st confirm "R20" ["reply:closed"]])
  (Cancelled w CancelByProposer).

Definition trace_authority_lowered_while_pending : Trace := MkTrace
  "authority-lowered-while-pending"
  "the proposer loses authority: the pending proposal is cancelled"
  ([
     st (propose RoleOwner KindWrite) "R8" ["persist:pending"; "reply:created"];
     st AuthorityLowered "R54" ["persist:cancelled"]])
  (Cancelled w CancelByAuthority).

Definition trace_authority_lowered_before_send : Trace := MkTrace
  "authority-lowered-before-send"
  "authority is lowered after executing is persisted but before the send: the dispatch is cancelled, nothing was sent"
  ([
     st (propose RoleOwner KindWrite) "R8" ["persist:pending"; "reply:created"];
     st confirm "R15" ["admit:write"];
     st granted "R32" ["persist:executing"; "dispatch"];
     st AuthorityLowered "R55" ["cancel-dispatch:authority-lowered"];
     st (NotSent NotSentAuthority) "R35" ["persist:cancelled"; "reply:cancelled"]])
  (Cancelled w CancelByAuthority).

Definition trace_authority_lowered_after_send : Trace := MkTrace
  "authority-lowered-after-send"
  "authority is lowered while the request is on the wire: the call is aborted, the outcome is unknown, and a rejected receipt settles it"
  (with_ toSent [
     st AuthorityLowered "R56" ["cancel-send"];
     st (ApplyResult ApplyTransportError) "R39" ["persist:outcome-unknown"; "reply:outcome-unknown"];
     st (ReceiptResult ReceiptRejected) "R41" ["persist:rejected"];
     st ownerResolve "R50" ["reply:resolved"]])
  (Rejected w RejectReceipt).

Definition Traces : list Trace := [
  trace_happy_path;
  trace_retry_after_not_sent;
  trace_retry_after_admission_refused;
  trace_withdrawn_then_generation_moved;
  trace_timeout_unknown_then_receipt_committed;
  trace_unknown_bounded_then_manual_resolution;
  trace_late_receipt_after_abandon;
  trace_two_actors_racing_confirm;
  trace_cancel_races_confirm;
  trace_hold_during_prepared_dispatch;
  trace_hold_too_late_to_cancel;
  trace_hold_during_sent_request;
  trace_hold_on_pending;
  trace_generation_change_while_pending;
  trace_generation_seen_at_admission;
  trace_generation_change_while_prepared;
  trace_duplicate_confirm_after_applied;
  trace_duplicate_confirm_while_unknown;
  trace_editor_schema_propose_refused;
  trace_editor_confirm_of_schema_after_demotion;
  trace_out_of_order_receipt;
  trace_late_apply_reply_after_timeout;
  trace_restart_recovery;
  trace_addon_conflict_is_rejected;
  trace_expiry;
  trace_propose_while_held_then_retry;
  trace_propose_undeclared_tool;
  trace_propose_read_tool;
  trace_propose_stale_generation;
  trace_confirm_guards;
  trace_expiry_seen_at_admission;
  trace_cancel_pending;
  trace_authority_lowered_while_pending;
  trace_authority_lowered_before_send;
  trace_authority_lowered_after_send
].

(** ** Theorems *)

(** The rules that the replay of a trace fires. *)
Definition fired (t : Trace) : list string :=
  match Run Unproposed (Events t) with Some rs => map sr_Rule rs | None => [] end.

Definition fired_by_some (r : Rule) : bool :=
  match r.(rule_Kind) with
  | KindTransition => existsb (λ t, existsb (String.eqb r.(rule_ID)) (fired t)) Traces
  | _ => true
  end.

(** The scenarios are what the reducer does: replaying each of the traces
    finds no mismatch in any rule id, effect list or final state, and together
    they fire every transition rule of the table. *)
Theorem traces_verify :
  Forall (λ t, Verify t = Some []) Traces ∧
  ∀ r, In r Rules → r.(rule_Kind) = KindTransition →
       ∃ t, In t Traces ∧ In r.(rule_ID) (fired t).
Proof.
  split.
  - repeat (constructor; [vm_compute; reflexivity|]). constructor.
  - assert (H : forallb fired_by_some Rules = true) by (vm_compute; reflexivity).
    intros r Hr Hk. apply (proj1 (forallb_forall _ _) H) in Hr. unfold fired_by_some in Hr.
    rewrite Hk in Hr. apply existsb_exists in Hr as (t & Ht & Hr).
    apply existsb_exists in Hr as (x & Hx & Heq). apply String.eqb_eq in Heq as <-. eauto.
Qed.
