(* ===== verification/ExecutionStatus.v ===== *)
(** * ExecutionStatus: the observed status of one enclosing request

    Models [pkg/addons/model/executionstatus]: the types and [Reduce]
    ([types.go], [reducer.go]), the checks its bounded search makes on every
    step ([explore.go]), and the fixture traces ([traces.go]).  The theorems
    hold for every sequence of events, not for a bounded depth. *)
From S2P Require Import Prelude.

(** ** Types *)

Record Binding := MkBinding {
  Actor : string; Credential : string; Conversation : string; Mode : string; Addon : string;
  Generation : string; Incarnation : string; ExecutionTool : string; StatusTool : string;
}.

#[export] Instance Binding_eq_dec : EqDecision Binding.
Proof. solve_decision. Defined.

(** [ObservationID], [Cause], [Eligibility], [Readiness], [Isolation] and
    [Rule] are Go string types. *)
Definition Eligible : string := "eligible".
Definition Timeout_ : string := "timeout".
Definition Malformed : string := "malformed".

Definition Available : string := "available".
Definition Unavailable : string := "unavailable".
Definition UnknownReadiness : string := "unknown".
Definition Isolated : string := "isolated".
Definition Host : string := "host".
Definition UnknownIsolation : string := "unknown".

Record Value := MkValue { Readiness : string; Isolation : string }.

#[export] Instance Value_eq_dec : EqDecision Value.
Proof. solve_decision. Defined.

Definition Unknown : Value := MkValue UnknownReadiness UnknownIsolation.

Definition normalize (v : Value) : Value :=
  if bool_decide (v.(Readiness) = Available) then v else MkValue v.(Readiness) UnknownIsolation.

Record Payload := MkPayload { value : Value; valid : bool }.

Definition ValidPayload (v : Value) : Payload :=
  MkPayload v
    ((bool_decide (v.(Readiness) = Available) || bool_decide (v.(Readiness) = Unavailable)
      || bool_decide (v.(Readiness) = UnknownReadiness)) &&
     (bool_decide (v.(Isolation) = Isolated) || bool_decide (v.(Isolation) = Host)
      || bool_decide (v.(Isolation) = UnknownIsolation))).

Definition InvalidPayload : Payload := MkPayload (MkValue "" "") false.

Inductive State :=
| Unbound
| Unobserved (B : Binding) (Q : string)
| Pending (B : Binding) (Q : string) (Deadline : Z)
| Observed (B : Binding) (Q : string) (v : Value)
| SettledUnknown (B : Binding) (Q : string) (Cause : string)
| Withdrawn (Cause : string)
| Closed.

#[export] Instance State_eq_dec : EqDecision State.
Proof. solve_decision. Defined.

Inductive Event :=
| Bind (B : Binding) (Q : string) (Eligibility : string)
| Probe (B : Binding) (Q : string) (Now Deadline : Z)
| Reply (B : Binding) (Q : string) (p : Payload) (Now : Z)
| Failure (B : Binding) (Q : string) (Cause : string) (Now : Z)
| Tick (Now : Z)
| Invalidate (Cause : string)
| Close.

Inductive Effect :=
| Read (B : Binding) (Q : string) (Deadline : Z)
| Cancel (Q : string)
| Publish (v : Value) (Cause : string).

#[export] Instance Effect_eq_dec : EqDecision Effect.
Proof. solve_decision. Defined.

Record Transition := MkTransition {
  tr_State : State;
  tr_Effects : list Effect;
  tr_Rule : string;
  tr_Guard : string;
}.

Definition Rules : list string :=
  ["R1"; "R2"; "R3"; "R4"; "R5"; "R6"; "R7"; "R9"; "R10"; "R11"; "I"].

Definition identity (s : State) : option (Binding * string) :=
  match s with
  | Unobserved b q | Pending b q _ | Observed b q _ | SettledUnknown b q _ => Some (b, q)
  | Unbound | Withdrawn _ | Closed => None
  end.

Definition Project (s : State) : Value :=
  match s with
  | Observed _ _ v => normalize v
  | _ => Unknown
  end.

(** ** The reducer *)

Definition ignored (s : State) : Transition :=
  MkTransition s [] "I" "ignored: pair or identity guard".

Definition emit (next : State) (r g : string) (fx : list Effect) : Transition :=
  MkTransition next fx r g.

Definition withdraw (s next : State) (r g c : string) : Transition :=
  emit next r g
    (match s with Pending _ q _ => [Cancel q] | _ => [] end ++ [Publish Unknown c]).

Definition settle (b : Binding) (q : string) (r c : string) : Transition :=
  emit (SettledUnknown b q c) r "exact pending completion; deadline takes precedence"
    [Cancel q; Publish Unknown c].

Definition reduce_bind (s : State) (eb : Binding) (eq_ : string) (elig : string) : Transition :=
  match identity s with
  | Some (b, _) =>
      if bool_decide (b = eb) then ignored s
      else withdraw s (Withdrawn "binding-changed") "R11" "bound identity changed" "binding-changed"
  | None =>
      match s with
      | Unbound | Withdrawn _ =>
          if bool_decide (elig = Eligible)
          then emit (Unobserved eb eq_) "R1" "authoritative eligible bind" [Publish Unknown ""]
          else emit (SettledUnknown eb eq_ elig) "R1" "authoritative ineligible bind"
                 [Publish Unknown elig]
      | _ => ignored s
      end
  end.

Definition reduce_probe (s : State) (eb : Binding) (eq_ : string) (now deadline : Z) : Transition :=
  match identity s with
  | None => ignored s
  | Some (b, q) =>
      if negb (bool_decide (b = eb)) || negb (bool_decide (q = eq_)) then ignored s
      else match s with
      | Unobserved _ _ =>
          if (deadline <=? now)%Z
          then emit (SettledUnknown b q Timeout_) "R9" "probe already expired"
                 [Publish Unknown Timeout_]
          else emit (Pending b q deadline) "R2" "exact never-probed and future deadline"
                 [Read b q deadline; Publish Unknown ""]
      | Pending _ _ _ | Observed _ _ _ | SettledUnknown _ _ _ =>
          emit s "R7" "exact probe already attempted or settled" []
      | _ => ignored s
      end
  end.

Definition reduce_reply (s : State) (eb : Binding) (eq_ : string) (p : Payload) (now : Z) : Transition :=
  match s with
  | Pending b q deadline =>
      if bool_decide (b = eb) && bool_decide (q = eq_) then
        if (deadline <=? now)%Z then settle b q "R5" Timeout_
        else if negb p.(valid) then settle b q "R4" Malformed
        else let v := normalize p.(value) in
             emit (Observed b q v) "R3" "exact valid reply before deadline" [Publish v ""]
      else ignored s
  | _ => ignored s
  end.

Definition reduce_failure (s : State) (eb : Binding) (eq_ : string) (c : string) (now : Z) : Transition :=
  match s with
  | Pending b q deadline =>
      if bool_decide (b = eb) && bool_decide (q = eq_) then
        if (deadline <=? now)%Z then settle b q "R5" Timeout_ else settle b q "R4" c
      else ignored s
  | _ => ignored s
  end.

Definition reduce_tick (s : State) (now : Z) : Transition :=
  match s with
  | Pending b q deadline =>
      if (deadline <=? now)%Z then settle b q "R5" Timeout_ else ignored s
  | _ => ignored s
  end.

Definition Reduce (s : State) (e : Event) : Transition :=
  match s with
  | Closed => ignored s
  | _ =>
    match e with
    | Bind b q el => reduce_bind s b q el
    | Probe b q now deadline => reduce_probe s b q now deadline
    | Reply b q p now => reduce_reply s b q p now
    | Failure b q c now => reduce_failure s b q c now
    | Tick now => reduce_tick s now
    | Invalidate c => withdraw s (Withdrawn c) "R6" "lifecycle invalidation" c
    | Close => withdraw s Closed "R10" "enclosing request closed" ""
    end
  end.

(** ** The checks of the search *)

Record history := MkHistory {
  h_state : State;
  h_reads : Z;
  h_inflight : Z;
  h_now : Z;
}.

Definition eventTime (e : Event) : option Z :=
  match e with
  | Probe _ _ now _ | Reply _ _ _ now | Failure _ _ _ now | Tick now => Some now
  | Bind _ _ _ | Invalidate _ | Close => None
  end.

(** Go compares with the zero [Binding] and [ObservationID] when the state has
    no identity. *)
Definition zero_binding : Binding := MkBinding "" "" "" "" "" "" "" "" "".

Definition identity_or_zero (s : State) : Binding * string :=
  match identity s with Some bq => bq | None => (zero_binding, "") end.

(** The loop over the effects of one transition: counts the reads and
    cancellations; an error names the check that failed. *)
Fixpoint check_effects (from : State) (tr : Transition) (fx : list Effect) (reads inflight : Z) :
    (Z * Z) + string :=
  match fx with
  | [] => inl (reads, inflight)
  | f :: fx' =>
      match f with
      | Read b q _ =>
          let '(nb, nq) := identity_or_zero tr.(tr_State) in
          if negb (bool_decide (b = nb)) || negb (bool_decide (q = nq))
             || negb (String.eqb tr.(tr_Rule) "R2")
          then inr "read identity"
          else check_effects from tr fx' (reads + 1) (inflight + 1)
      | Cancel q =>
          let '(_, oq) := identity_or_zero from in
          if negb (bool_decide (q = oq)) || negb (inflight =? 1)%Z
          then inr "cancel without exact pending read"
          else check_effects from tr fx' reads (inflight - 1)
      | Publish v _ =>
          if bool_decide (v = Project tr.(tr_State)) then check_effects from tr fx' reads inflight
          else inr "publication differs from projection"
      end
  end.

Definition is_pending (s : State) : bool := match s with Pending _ _ _ => true | _ => false end.

(** The checks after the loop over the effects, in their order. *)
Definition check_step (from : State) (e : Event) (tr : Transition) (reads inflight : Z) : option string :=
  let to := tr.(tr_State) in
  if (1 <? reads)%Z || (1 <? inflight)%Z || (inflight <? 0)%Z then
    Some "one read per lifetime/in flight"
  else if negb (Bool.eqb (is_pending to) (inflight =? 1)%Z) then Some "pending/read correspondence"
  else if match from with
          | Closed => negb (bool_decide (from = to)) || negb (bool_decide (tr.(tr_Effects) = []))
                      || negb (String.eqb tr.(tr_Rule) "I")
          | _ => false end then Some "Closed absorbing"
  else if match from with
          | Withdrawn _ => bool_decide (is_Some (identity to)) && negb (String.eqb tr.(tr_Rule) "R1")
          | _ => false end then Some "rebind needs admission"
  else if negb (bool_decide ((Project to).(Readiness) = Available))
          && negb (bool_decide ((Project to).(Isolation) = UnknownIsolation)) then
    Some "nonavailable isolation"
  else if match to with
          | Observed ob oq _ =>
              negb (bool_decide (from = to)) &&
              match e, from with
              | Reply rb rq p now, Pending _ _ deadline =>
                  negb (bool_decide (rb = ob)) || negb (bool_decide (rq = oq))
                  || (deadline <=? now)%Z || negb p.(valid) || negb (String.eqb tr.(tr_Rule) "R3")
              | _, _ => true
              end
          | _ => false end then Some "positive without exact current reply"
  else if match identity from, identity to with
          | Some bq, Some bq' => negb (bool_decide (bq = bq'))
          | _, _ => false end then Some "binding mutation"
  else None.

(** One edge of the search: [None] when the event is skipped because time
    would run backwards, otherwise the next history or the failed check. *)
Definition advance (h : history) (e : Event) : option (history + string) :=
  if match eventTime e with Some now => (now <? h.(h_now))%Z | None => false end then None
  else
    let tr := Reduce h.(h_state) e in
    let reads0 := if String.eqb tr.(tr_Rule) "R1" then 0%Z else h.(h_reads) in
    Some match check_effects h.(h_state) tr tr.(tr_Effects) reads0 h.(h_inflight) with
    | inr err => inr err
    | inl (reads, inflight) =>
        let inflight := if String.eqb tr.(tr_Rule) "R3" then (inflight - 1)%Z else inflight in
        match check_step h.(h_state) e tr reads inflight with
        | Some err => inr err
        | None => inl (MkHistory tr.(tr_State) reads inflight
                         (match eventTime e with Some now => now | None => h.(h_now) end))
        end
    end.

Definition initial_history : history := MkHistory Unbound 0 0 0.

(** The history after a list of events; skipped events change nothing. *)
Fixpoint advance_all (h : history) (es : list Event) : history + string :=
  match es with
  | [] => inl h
  | e :: es =>
      match advance h e with
      | None => advance_all h es
      | Some (inr err) => inr err
      | Some (inl h') => advance_all h' es
      end
  end.

Definition pending_exits (deadline : Z) : list Event := [Tick deadline; Invalidate "disabled"; Close].

(** The checks on one exit of a pending state. *)
Definition check_exit (s : State) (e : Event) : State + string :=
  let t := Reduce s e in
  if is_pending t.(tr_State) then inr "pending exit failed"
  else match t.(tr_Effects) with
  | [Cancel _; _] => inl t.(tr_State)
  | [_; _] => inr "pending exit does not cancel first"
  | _ => inr "pending exit lacks cancel/publication"
  end.

Fixpoint check_exits (s : State) (es : list Event) : list State + string :=
  match es with
  | [] => inl []
  | e :: es =>
      match check_exit s e with
      | inr err => inr err
      | inl s' => match check_exits s es with inr err => inr err | inl l => inl (s' :: l) end
      end
  end.

(** The search of [live]: the outer [None] is fuel running out, [Some None]
    is no error.  [exits] are those of the start state. *)
Fixpoint live_loop (fuel : nat) (exits : list Event) (queue seen : list State) : option (option string) :=
  match fuel with
  | O => None
  | S fuel =>
      match queue with
      | [] => Some (Some "no settled/waiting state reachable")
      | s :: queue =>
          if bool_decide (s ∈ seen) then live_loop fuel exits queue seen
          else if negb (is_pending s) then Some None
          else match check_exits s exits with
               | inr err => Some (Some err)
               | inl nexts => live_loop fuel exits (queue ++ nexts) (s :: seen)
               end
      end
  end.

Definition live (fuel : nat) (s : State) : option (option string) :=
  match s with
  | Pending _ _ deadline => live_loop fuel (pending_exits deadline) [s] []
  | _ => Some None
  end.

(** ** Runs *)

Fixpoint RunTrace (initial : State) (events : list Event) : list Transition :=
  match events with
  | [] => []
  | e :: es => let t := Reduce initial e in t :: RunTrace t.(tr_State) es
  end.

Definition final_state (initial : State) (ts : list Transition) : State :=
  match list.last ts with Some t => t.(tr_State) | None => initial end.

Lemma final_cons s t ts : final_state s (t :: ts) = final_state t.(tr_State) ts.
Proof. unfold final_state. destruct ts using rev_ind; [done|]. by rewrite app_comm_cons, !last_snoc. Qed.

Lemma RunTrace_snoc s es e :
  RunTrace s (es ++ [e]) = RunTrace s es ++ [Reduce (final_state s (RunTrace s es)) e].
Proof.
  revert s. induction es as [|e0 es IH]; intros s; [done|].
  simpl. by rewrite IH, final_cons.
Qed.

Lemma final_snoc s es e :
  final_state s (RunTrace s (es ++ [e])) = (Reduce (final_state s (RunTrace s es)) e).(tr_State).
Proof. rewrite RunTrace_snoc. unfold final_state at 1. by rewrite last_snoc. Qed.

(** ** Lemmas on one step *)

Lemma normalize_idem v : normalize (normalize v) = normalize v.
Proof. unfold normalize. destruct (bool_decide (v.(Readiness) = Available)) eqn:E; simpl; by rewrite E. Qed.

(** Case analysis on a transition of the reducer. *)
Ltac status_cases :=
  unfold Reduce, reduce_bind, reduce_probe, reduce_reply, reduce_failure, reduce_tick in *; simpl in *;
  repeat (case_match; simplify_eq/=);
  repeat match goal with
  | H : bool_decide _ = true |- _ => apply bool_decide_eq_true in H
  | H : bool_decide _ = false |- _ => apply bool_decide_eq_false in H
  | H : _ && _ = true |- _ => apply andb_true_iff in H as [??]
  | H : _ || _ = false |- _ => apply orb_false_iff in H as [??]
  | H : negb _ = false |- _ => apply negb_false_iff in H
  | H : negb _ = true |- _ => apply negb_true_iff in H
  end; simplify_eq/=.

(** What the search's counters must be in each state, and that an observed
    value is normal. *)
Definition hist_ok (h : history) : Prop :=
  h.(h_inflight) = (if is_pending h.(h_state) then 1 else 0)%Z ∧
  match h.(h_state) with
  | Unbound | Unobserved _ _ => h.(h_reads) = 0%Z
  | Pending _ _ _ => h.(h_reads) = 1%Z
  | _ => (0 ≤ h.(h_reads) ≤ 1)%Z
  end ∧
  match h.(h_state) with Observed _ _ v => normalize v = v | _ => True end.

(** A transition is one of these; [p] is set when the state was pending. *)
Inductive step_spec (s : State) (e : Event) : Transition → Prop :=
| spec_ignored : step_spec s e (ignored s)
| spec_repeat : identity s ≠ None →
    step_spec s e (emit s "R7" "exact probe already attempted or settled" [])
| spec_bind b q : e = Bind b q Eligible → identity s = None → s ≠ Closed →
    step_spec s e (emit (Unobserved b q) "R1" "authoritative eligible bind" [Publish Unknown ""])
| spec_denied b q c : e = Bind b q c → c ≠ Eligible → identity s = None → s ≠ Closed →
    step_spec s e (emit (SettledUnknown b q c) "R1" "authoritative ineligible bind" [Publish Unknown c])
| spec_expired b q now deadline : e = Probe b q now deadline → (deadline ≤ now)%Z → s = Unobserved b q →
    step_spec s e (emit (SettledUnknown b q Timeout_) "R9" "probe already expired" [Publish Unknown Timeout_])
| spec_probe b q now deadline : e = Probe b q now deadline → (now < deadline)%Z → s = Unobserved b q →
    step_spec s e (emit (Pending b q deadline) "R2" "exact never-probed and future deadline"
      [Read b q deadline; Publish Unknown ""])
| spec_reply b q deadline p now : e = Reply b q p now → s = Pending b q deadline →
    (now < deadline)%Z → p.(valid) = true →
    step_spec s e (emit (Observed b q (normalize p.(value))) "R3" "exact valid reply before deadline"
      [Publish (normalize p.(value)) ""])
| spec_settle b q deadline r c : s = Pending b q deadline → (r = "R4" ∨ r = "R5") →
    step_spec s e (settle b q r c)
| spec_withdraw next r g c :
    s ≠ Closed → g ≠ "" → (r = "R6" ∧ next = Withdrawn c ∨ r = "R10" ∧ next = Closed ∨
                  r = "R11" ∧ next = Withdrawn c ∧ identity s ≠ None) →
    step_spec s e (withdraw s next r g c).

Lemma Reduce_spec s e : step_spec s e (Reduce s e).
Proof.
  destruct s; destruct e; status_cases; try by constructor.
  all: try (apply spec_ignored).
  all: try (eapply spec_bind; done).
  all: try (eapply spec_denied; done).
  all: try (eapply spec_expired; [done|lia|done]).
  all: try (eapply spec_probe; [done|lia|done]).
  all: try (eapply spec_reply; [done|done|lia|done]).
  all: try (eapply spec_settle; by auto).
  all: try (eapply spec_withdraw; by auto 6).
Qed.

(** The effects of a transition are accepted when the reads in flight match
    the state; the counts after the loop. *)
Lemma check_effects_ok s e reads :
  let tr := Reduce s e in
  check_effects s tr tr.(tr_Effects) reads (if is_pending s then 1 else 0)%Z =
    inl ((reads + if String.eqb tr.(tr_Rule) "R2" then 1 else 0)%Z,
         ((if is_pending tr.(tr_State) then 1 else 0) +
          (if String.eqb tr.(tr_Rule) "R3" then 1 else 0))%Z).
Proof.
  destruct (Reduce_spec s e) as [| | | | | | |b q d r c -> [-> | ->]|n r g c Hs Hg Hc]; subst;
    [| | | | | | | | |destruct Hc as [[-> ->]|[[-> ->]|[-> [-> _]]]]];
    unfold withdraw, settle, identity_or_zero; simpl; rewrite ?normalize_idem;
    rewrite ?bool_decide_true by done; simpl; try destruct s; simplify_eq/=;
    rewrite ?bool_decide_true by done; simpl; do 2 f_equal; lia.
Qed.

(** The checks after the effects pass when the counters are in range. *)
Lemma check_step_ok s e reads :
  let tr := Reduce s e in
  (reads ≤ 1)%Z → match s with Observed _ _ v => normalize v = v | _ => True end →
  check_step s e tr reads (if is_pending tr.(tr_State) then 1 else 0)%Z = None.
Proof.
  intros tr Hr Hv. unfold check_step.
  replace ((1 <? reads)%Z || _ || _) with false by (destruct (is_pending _); lia).
  replace (negb (Bool.eqb _ _)) with false by (by destruct (is_pending tr.(tr_State))).
  assert (Hp : negb (bool_decide ((Project tr.(tr_State)).(Readiness) = Available)) &&
               negb (bool_decide ((Project tr.(tr_State)).(Isolation) = UnknownIsolation)) = false).
  { destruct tr.(tr_State) as [| | | | ? ? v| |]; try done. simpl. unfold normalize.
    destruct (bool_decide (v.(Readiness) = Available)) eqn:E; simpl; by rewrite E. }
  rewrite Hp. clear Hp. subst tr.
  destruct (Reduce_spec s e) as [| | | | | | |b q d r c -> [-> | ->]|n r g c Hs Hg Hc]; subst;
    [| | | | | | | | |destruct Hc as [[-> ->]|[[-> ->]|[-> [-> Hi]]]]];
    unfold withdraw, settle; simpl; try destruct s; simplify_eq/=;
    rewrite ?bool_decide_true, ?bool_decide_false by (done || by apply is_Some_None); simpl; try done.
  match goal with H : (_ < _)%Z, V : valid _ = true |- _ =>
    rewrite V; by replace (_ <=? _)%Z with false by lia end.
Qed.

Lemma advance_ok h e h' : hist_ok h → advance h e = Some h' → ∃ h1, h' = inl h1 ∧ hist_ok h1.
Proof.
  destruct h as [s reads infl now]. intros (Hi & Hr & Hv) H. unfold advance in H. simpl in *.
  destruct (match eventTime e with Some n => (n <? now)%Z | None => false end); [done|].
  injection H as <-. subst infl.
  set (r0 := if String.eqb (tr_Rule (Reduce s e)) "R1" then 0%Z else reads).
  rewrite (check_effects_ok s e r0). simpl.
  replace (if String.eqb (tr_Rule (Reduce s e)) "R3" then _ else _)%Z
    with (if is_pending (tr_State (Reduce s e)) then 1 else 0)%Z
    by (destruct (String.eqb (tr_Rule (Reduce s e)) "R3"); lia).
  assert (Hc : hist_ok (MkHistory (tr_State (Reduce s e))
    (r0 + (if String.eqb (tr_Rule (Reduce s e)) "R2" then 1 else 0))%Z
    (if is_pending (tr_State (Reduce s e)) then 1 else 0)%Z
    (match eventTime e with Some n => n | None => now end))).
  { split; [done|]. subst r0. simpl. clear -Hr Hv.
    destruct (Reduce_spec s e) as [| | | | | | |b q d r c -> [-> | ->]|n r g c Hs Hg Hc]; subst;
      [| | | | | | | | |destruct Hc as [[-> ->]|[[-> ->]|[-> [-> Hi]]]]];
      simpl in *; rewrite ?normalize_idem; split; try done; try destruct s; simplify_eq/=; done || lia. }
  rewrite check_step_ok; [eauto| |done].
  destruct Hc as (_ & Hc & _). simpl in Hc. destruct (tr_State (Reduce s e)); lia.
Qed.

Lemma advance_all_ok es h : hist_ok h → ∃ h', advance_all h es = inl h' ∧ hist_ok h'.
Proof.
  revert h. induction es as [|e es IH]; intros h Hok; simpl; [eauto|].
  destruct (advance h e) as [r|] eqn:E; [|auto].
  destruct (advance_ok h e r Hok E) as (h1 & -> & Hok1). auto.
Qed.

Lemma live_ok s : live 2 s = Some None.
Proof.
  destruct s as [| |b q deadline| | | |]; try done. unfold live. simpl.
  unfold check_exit; simpl. by rewrite Z.leb_refl.
Qed.

(** What must have happened, in this order, for a state. *)
Definition status_history (es : list Event) (s : State) : Prop :=
  match s with
  | Unobserved b q => [Bind b q Eligible] `sublist_of` es
  | Pending b q deadline =>
      ∃ now, (now < deadline)%Z ∧ [Bind b q Eligible; Probe b q now deadline] `sublist_of` es
  | Observed b q v =>
      ∃ now deadline p now', (now < deadline)%Z ∧ (now' < deadline)%Z ∧ p.(valid) = true ∧
        v = normalize p.(value) ∧
        [Bind b q Eligible; Probe b q now deadline; Reply b q p now'] `sublist_of` es
  | _ => True
  end.

Lemma status_history_more es e s : status_history es s → status_history (es ++ [e]) s.
Proof.
  destruct s; simpl; auto using sublist_inserts_r.
  - intros (now & ? & ?). eauto using sublist_inserts_r.
  - intros (now & d & p & now' & ? & ? & ? & ? & ?). eauto 10 using sublist_inserts_r.
Qed.

Lemma RunTrace_history es : status_history es (final_state Unbound (RunTrace Unbound es)).
Proof.
  induction es as [|e es IH] using rev_ind; [done|]. rewrite final_snoc.
  revert IH. generalize (final_state Unbound (RunTrace Unbound es)). intros s IH.
  destruct (Reduce_spec s e) as [| | b q -> Hi Hs| | |b q now d -> Hd ->|b q d p now -> -> Hd Hv| |n r g c Hs Hg Hc];
    simpl; auto using status_history_more.
  - by apply sublist_inserts_l.
  - exists now. split; [done|]. simpl in IH.
    change [Bind b q Eligible; Probe b q now d] with ([Bind b q Eligible] ++ [Probe b q now d]).
    by apply sublist_app.
  - destruct IH as (now0 & Hd0 & IH). exists now0, d, p, now. split_and!; try done.
    change [Bind b q Eligible; Probe b q now0 d; Reply b q p now]
      with ([Bind b q Eligible; Probe b q now0 d] ++ [Reply b q p now]).
    by apply sublist_app.
  - by destruct Hc as [[_ ->]|[[_ ->]|[_ [-> _]]]].
Qed.

(** ** Theorems *)

(** The checks of the search hold without its depth bound: for every
    sequence of events, of any length and with any identities and times, no
    step fails a check (at most one read per admission and in flight, pending
    exactly while a read is in flight, every publication equals the
    projection, a withdrawn state rebinds only by admission, bindings never
    change, closed absorbs everything), and every state passes [live]: a
    pending read can be left by its deadline, by invalidation and by close,
    each cancelling it first. *)
Theorem status_checks_clean es :
  ∃ h, advance_all initial_history es = inl h ∧ hist_ok h ∧ live 2 h.(h_state) = Some None.
Proof.
  destruct (advance_all_ok es initial_history) as (h & -> & Hok); [done|].
  eauto using live_ok.
Qed.

(** C39. An observed status is never guessed: a run ends with a value observed
    for a binding and observation id only if the events contain, in order, an
    eligible authoritative bind of that identity, a probe of it with a future
    deadline and a valid reply to it before that deadline, and the value is
    the one of that reply (its isolation dropped unless it is available); and
    only such a state projects anything but unknown. *)
Theorem status_observed_only_by_reply es b q v :
  final_state Unbound (RunTrace Unbound es) = Observed b q v →
  Project (final_state Unbound (RunTrace Unbound es)) = v ∧
  ∃ now deadline p now', (now < deadline)%Z ∧ (now' < deadline)%Z ∧ p.(valid) = true ∧
    v = normalize p.(value) ∧
    [Bind b q Eligible; Probe b q now deadline; Reply b q p now'] `sublist_of` es.
Proof.
  intros H. specialize (RunTrace_history es) as Hh. rewrite H in *. simpl in Hh. split; [|done].
  destruct Hh as (now & d & p & now' & _ & _ & _ & -> & _). apply normalize_idem.
Qed.

(** The rule of a transition says what it may do: every rule is a listed
    one, I and R7 change nothing and emit nothing, a read is emitted by R2
    only, a cancellation only when leaving a pending state and before the
    publication, and every other rule publishes the projection of the new
    state exactly once, as its last effect. *)
Theorem status_rules s e :
  let t := Reduce s e in
  In t.(tr_Rule) Rules ∧ t.(tr_Guard) ≠ "" ∧
  (t.(tr_Rule) = "I" ∨ t.(tr_Rule) = "R7" → t.(tr_State) = s ∧ t.(tr_Effects) = []) ∧
  (t.(tr_Rule) ≠ "I" → t.(tr_Rule) ≠ "R7" → ∃ pre c,
     t.(tr_Effects) = pre ++ [Publish (Project t.(tr_State)) c] ∧
     pre = match s with
           | Pending _ q _ => if String.eqb t.(tr_Rule) "R3" then [] else [Cancel q]
           | _ => match t.(tr_State) with
                  | Pending b q d => [Read b q d]
                  | _ => []
                  end
           end).
Proof.
  intros t. subst t.
  destruct (Reduce_spec s e) as [| | | | | | |b q d r c -> [-> | ->]|n r g c Hs Hg Hc]; subst;
    [| | | | | | | | |destruct Hc as [[-> ->]|[[-> ->]|[-> [-> Hi]]]]];
    unfold withdraw, settle; simpl; split_and!; auto 20; try (intros [?|?]; done);
    intros; rewrite ?normalize_idem; try destruct s; simplify_eq/=;
    try done; eexists _, _; (split; [|reflexivity]); reflexivity.
Qed.

Lemma status_observed_only_by_reply_witness :
  let b := zero_binding in
  let es := [Bind b "q" Eligible; Probe b "q" 1 10; Tick 5;
             Reply b "q" (ValidPayload (MkValue Unavailable Host)) 9] in
  let v := MkValue Unavailable UnknownIsolation in
  Project (final_state Unbound (RunTrace Unbound es)) = v ∧
  ∃ now deadline p now', (now < deadline)%Z ∧ (now' < deadline)%Z ∧ p.(valid) = true ∧
    v = normalize p.(value) ∧
    [Bind b "q" Eligible; Probe b "q" now deadline; Reply b "q" p now'] `sublist_of` es.
Proof. apply (status_observed_only_by_reply _ zero_binding "q"). vm_compute. reflexivity. Defined.
