(* ===== verification/ExecutionTraces.v ===== *)
(** * ExecutionTraces: the fixture traces of the execution status model

    Models [Traces] of [pkg/addons/model/executionstatus/traces.go].  The Go
    function builds each trace by closures over a trace under construction
    and the state expected so far; here that pair is a [builder] and each
    closure a function on it. *)
From S2P Require Import Prelude ExecutionStatus.

Record Trace := MkTrace {
  Family : Z;
  Name : string;
  Events : list Event;
  Want : list Transition;
  FinalValue : Value;
}.

Definition sampleBinding : Binding :=
  MkBinding "actor-a" "credential-a" "conversation-a" "named-user" "provider-a" "generation-a"
    "incarnation-a" "execute-a" "status-a".

Definition AllStates : list State :=
  let b := sampleBinding in
  [Unbound; Unobserved b "q"; Pending b "q" 10; Observed b "q" (MkValue Available Isolated);
   SettledUnknown b "q" "failed"; Withdrawn "disabled"; Closed].

Definition AllEvents : list Event :=
  let b := sampleBinding in
  [Bind b "q" Eligible; Probe b "q" 1 10; Reply b "q" (ValidPayload (MkValue Available Isolated)) 2;
   Failure b "q" "failed" 2; Tick 10; Invalidate "disabled"; Close].

(** ** Building blocks *)

Record builder := MkBuilder { t : Trace; current : State }.

Definition start (f : Z) (name : string) : builder :=
  MkBuilder (MkTrace f name [] [] (MkValue "" "")) Unbound.

Definition step (e : Event) (r : string) (s : State) (fx : list Effect) (m : builder) : builder :=
  MkBuilder (MkTrace m.(t).(Family) m.(t).(Name) (m.(t).(Events) ++ [e])
               (m.(t).(Want) ++ [MkTransition s fx r ""]) m.(t).(FinalValue)) s.

Definition ignore (e : Event) (m : builder) : builder := step e "I" m.(current) [] m.

Definition finish (v : Value) (m : builder) : Trace :=
  MkTrace m.(t).(Family) m.(t).(Name) m.(t).(Events) m.(t).(Want) v.

Definition bind (b : Binding) (q : string) : builder → builder :=
  step (Bind b q Eligible) "R1" (Unobserved b q) [Publish Unknown ""].

Definition probe (b : Binding) (q : string) : builder → builder :=
  step (Probe b q 1 10) "R2" (Pending b q 10) [Read b q 10; Publish Unknown ""].

Definition reply (b : Binding) (q : string) (v : Value) : builder → builder :=
  let vnorm := if bool_decide (v.(Readiness) = Available) then v
               else MkValue v.(Readiness) UnknownIsolation in
  step (Reply b q (ValidPayload v) 2) "R3" (Observed b q vnorm) [Publish vnorm ""].

Definition repeat_ (b : Binding) (q : string) (m : builder) : builder :=
  step (Probe b q 1 10) "R7" m.(current) [] m.

Definition invalidate (c : string) (pending : bool) (q : string) : builder → builder :=
  step (Invalidate c) "R6" (Withdrawn c)
    ((if pending then [Cancel q] else []) ++ [Publish Unknown c]).

Notation "m |> f" := (f m) (at level 50, left associativity, only parsing) : go_scope.

Definition a : Binding := sampleBinding.
Definition b : Binding :=
  MkBinding "actor-a" "credential-a" "conversation-b" "named-user" "provider-b" "generation-a"
    "incarnation-a" "execute-b" "status-b".
Definition iso : Value := MkValue Available Isolated.
Definition host : Value := MkValue Available Host.
Definition unknown : Value := Unknown.

Definition with_Incarnation (x : Binding) (i : string) : Binding :=
  MkBinding x.(Actor) x.(Credential) x.(Conversation) x.(Mode) x.(Addon) x.(Generation) i
    x.(ExecutionTool) x.(StatusTool).

Definition with_Actor (x : Binding) (i : string) : Binding :=
  MkBinding i x.(Credential) x.(Conversation) x.(Mode) x.(Addon) x.(Generation) x.(Incarnation)
    x.(ExecutionTool) x.(StatusTool).

(** ** The traces *)

Definition trace_happy : Trace :=
  start 1 "happy path and duplicate" |> bind a "q" |> probe a "q" |> reply a "q" iso
  |> ignore (Reply a "q" (ValidPayload host) 3) |> finish iso.

Definition trace_racing : Trace :=
  start 2 "two racing consumers" |> bind a "q" |> probe a "q" |> repeat_ a "q"
  |> reply a "q" host |> repeat_ a "q" |> finish host.

Definition trace_timeout : Trace :=
  start 3 "timeout cannot retry or reset Q" |> bind a "q" |> probe a "q"
  |> step (Tick 10) "R5" (SettledUnknown a "q" Timeout_) [Cancel "q"; Publish unknown Timeout_]
  |> ignore (Reply a "q" (ValidPayload iso) 11) |> repeat_ a "q"
  |> ignore (Probe a "q2" 11 20) |> ignore (Bind a "q" Eligible) |> ignore (Bind a "q2" Eligible)
  |> finish unknown.

Definition trace_settles (failure : bool) : Trace :=
  let '(name, e, c) := if failure then ("failure", Failure a "q" "failed" 2, "failed")
                       else ("malformed", Reply a "q" InvalidPayload 2, Malformed) in
  start 4 (name +:+ " settles without retry") |> bind a "q" |> probe a "q"
  |> step e "R4" (SettledUnknown a "q" c) [Cancel "q"; Publish unknown c]
  |> repeat_ a "q" |> ignore (Reply a "q" (ValidPayload iso) 3) |> finish unknown.

Definition trace_fresh : Trace :=
  start 4 "fresh model succeeds" |> bind a "q" |> probe a "q" |> reply a "q" iso |> finish iso.

Definition trace_reenable : Trace :=
  start 5 "disable and authoritative re-enable" |> bind a "q" |> probe a "q"
  |> invalidate "disabled" true "q" |> ignore (Reply a "q" (ValidPayload iso) 2)
  |> ignore (Probe a "q" 2 10) |> bind a "q2" |> probe a "q2" |> reply a "q2" iso |> finish iso.

Definition trace_replacement (replacement : Binding) : Trace :=
  start 6 ("replacement " +:+ replacement.(Incarnation) +:+ replacement.(Addon))
  |> bind a "q" |> probe a "q" |> reply a "q" iso |> invalidate "replaced" false "q"
  |> bind replacement "q2" |> probe replacement "q2" |> ignore (Reply a "q" (ValidPayload iso) 2)
  |> reply replacement "q2" host |> finish host.

Definition trace_unexpected_bind (prior : string) : Trace :=
  let m := start 7 ("unexpected bind from " +:+ prior) |> bind a "q" |> probe a "q" in
  let m := if String.eqb prior "observed" then reply a "q" iso m else m in
  let m := if String.eqb prior "settled"
           then step (Failure a "q" "failed" 2) "R4" (SettledUnknown a "q" "failed")
                  [Cancel "q"; Publish unknown "failed"] m
           else m in
  let fx := (if String.eqb prior "pending" then [Cancel "q"] else []) ++
            [Publish unknown "binding-changed"] in
  m |> step (Bind b "q2" Eligible) "R11" (Withdrawn "binding-changed") fx
  |> ignore (Reply a "q" (ValidPayload iso) 2) |> bind b "q2" |> probe b "q2"
  |> reply b "q2" host |> finish host.

Definition trace_mismatches : Trace :=
  start 8 "mismatches and deadline equality" |> ignore (Probe a "q" 1 10)
  |> ignore (Reply a "q" (ValidPayload iso) 1) |> bind a "q" |> ignore (Probe a "q2" 1 10)
  |> ignore (Probe b "q" 1 10) |> ignore (Reply a "q" (ValidPayload iso) 1) |> probe a "q"
  |> ignore (Tick 9) |> ignore (Reply b "q" (ValidPayload iso) 10)
  |> step (Reply a "q" InvalidPayload 10) "R5" (SettledUnknown a "q" Timeout_)
       [Cancel "q"; Publish unknown Timeout_]
  |> finish unknown.

Definition trace_close_pending : Trace :=
  let m := start 9 "close pending then all events" |> bind a "q" |> probe a "q"
           |> step Close "R10" Closed [Cancel "q"; Publish unknown ""] in
  finish unknown (foldl (λ m e, ignore e m) m AllEvents).

(** [string(rune('0'+i))] for [i < 10]. *)
Definition digit (i : nat) : string := pretty i.

Definition trace_close_constructor (i : nat) (s : State) : Trace :=
  let m := start 9 ("close constructor " +:+ digit i) in
  let m := match s with
    | Unbound => m
    | Unobserved _ _ => bind a "q" m
    | Pending _ _ _ => m |> bind a "q" |> probe a "q"
    | Observed _ _ _ => m |> bind a "q" |> probe a "q" |> reply a "q" iso
    | SettledUnknown _ _ _ =>
        step (Bind a "q" "denied") "R1" (SettledUnknown a "q" "denied") [Publish unknown "denied"] m
    | Withdrawn _ => invalidate "disabled" false "q" m
    | Closed => step Close "R10" Closed [Publish unknown ""] m
    end in
  let m := match s with
    | Closed => ignore Close m
    | Pending _ _ _ => step Close "R10" Closed [Cancel "q"; Publish unknown ""] m
    | _ => step Close "R10" Closed [Publish unknown ""] m
    end in
  finish unknown (foldl (λ m e, ignore e m) m AllEvents).

Definition trace_ineligible (reason : string) : Trace :=
  start 10 reason
  |> step (Bind a "q" reason) "R1" (SettledUnknown a "q" reason) [Publish unknown reason]
  |> repeat_ a "q" |> ignore (Reply a "q" (ValidPayload iso) 2)
  |> ignore (Bind a "q" Eligible) |> ignore (Bind a "q2" Eligible) |> finish unknown.

Definition trace_expired_probe : Trace :=
  start 10 "expired probe" |> bind a "q"
  |> step (Probe a "q" 10 10) "R9" (SettledUnknown a "q" Timeout_) [Publish unknown Timeout_]
  |> repeat_ a "q" |> finish unknown.

Definition other : Binding := with_Actor a "actor-b".

Definition trace_actor_separation (actor : Binding) : Trace :=
  let foreign := if bool_decide (actor = other) then a else other in
  start 11 ("actor separation " +:+ actor.(Actor)) |> bind actor "q" |> probe actor "q"
  |> ignore (Reply foreign "q" (ValidPayload iso) 2)
  |> reply actor "q" (MkValue Unavailable Isolated)
  |> invalidate "permission-lost" false "q" |> finish unknown.

Definition trace_available_unknown : Trace :=
  start 11 "available unknown is not enforcement" |> bind a "q" |> probe a "q"
  |> reply a "q" (MkValue Available UnknownIsolation)
  |> finish (MkValue Available UnknownIsolation).

Definition Traces : list Trace :=
  [trace_happy; trace_racing; trace_timeout] ++ map trace_settles [false; true] ++
  [trace_fresh; trace_reenable] ++
  map trace_replacement [b; with_Incarnation a "incarnation-new"] ++
  map trace_unexpected_bind ["pending"; "observed"; "settled"] ++
  [trace_mismatches; trace_close_pending] ++ imap trace_close_constructor AllStates ++
  map trace_ineligible ["no-contract"; "denied"] ++ [trace_expired_probe] ++
  map trace_actor_separation [a; other] ++ [trace_available_unknown].

(** ** Theorems *)

(** What the Go test and the viewer compare: state, effects and rule of every
    step, a guard text, and the projection of the last state. *)
Definition step_matches (got want : Transition) : bool :=
  bool_decide (got.(tr_State) = want.(tr_State)) &&
  bool_decide (got.(tr_Effects) = want.(tr_Effects)) &&
  String.eqb got.(tr_Rule) want.(tr_Rule) && negb (String.eqb got.(tr_Guard) "").

Definition trace_matches (tr : Trace) : bool :=
  let got := RunTrace Unbound tr.(Events) in
  Nat.eqb (length got) (length tr.(Want)) &&
  forallb (λ p, step_matches p.1 p.2) (zip got tr.(Want)) &&
  bool_decide (Project (final_state Unbound got) = tr.(FinalValue)).

(** The expected matrix of rules over one state per constructor and one event
    per constructor. *)
Definition matrix : list (list string) :=
  [["R1"; "I"; "I"; "I"; "I"; "R6"; "R10"]; ["I"; "R2"; "I"; "I"; "I"; "R6"; "R10"];
   ["I"; "R7"; "R3"; "R4"; "R5"; "R6"; "R10"]; ["I"; "R7"; "I"; "I"; "I"; "R6"; "R10"];
   ["I"; "R7"; "I"; "I"; "I"; "R6"; "R10"]; ["R1"; "I"; "I"; "I"; "I"; "R6"; "R10"];
   ["I"; "I"; "I"; "I"; "I"; "I"; "I"]].

(** The fixtures are what the reducer does: every trace of all eleven
    families replays to its expected states, effects, rules and final
    projection, and the representative of each of the 49 state/event cells
    answers by the rule of the matrix. *)
Theorem status_traces_match :
  forallb trace_matches Traces = true ∧
  map (λ s, map (λ e, (Reduce s e).(tr_Rule)) AllEvents) AllStates = matrix ∧
  forallb (λ f, existsb (λ tr, (tr.(Family) =? f)%Z) Traces) (seqZ 1 11) = true.
Proof. split_and!; vm_compute; reflexivity. Qed.
