(* ===== verification/GoMonad.v ===== *)
(** * GoMonad: stateful Go code that may panic

    A method of a Go object is a function from the object's state to a result
    and a new state; [None] is a panic (an index out of range, a closed
    channel).  The object is protected by a mutex, so a method, or each of
    its critical sections, runs on the state alone.  [wp c Q s] says that [c],
    started in [s], does not panic and that its result and final state satisfy
    [Q]: total correctness. *)
From S2P Require Import Prelude.

Definition M (S A : Type) : Type := S → option (A * S).

#[export] Instance M_ret {S} : MRet (M S) := λ A a s, Some (a, s).

#[export] Instance M_bind {S} : MBind (M S) := λ A B k m s,
  match m s with
  | Some (a, s') => k a s'
  | None => None
  end.

Definition get {S} : M S S := λ s, Some (s, s).
Definition gets {S A} (f : S → A) : M S A := λ s, Some (f s, s).
Definition modify {S} (f : S → S) : M S unit := λ s, Some (tt, f s).
Definition panic {S A} : M S A := λ _, None.

Definition lift {S A} (o : option A) : M S A := match o with Some x => mret x | None => panic end.

(** Indexing a slice: a panic when out of range. *)
Definition index {S A} (l : list A) (i : Z) : M S A :=
  if (i <? 0)%Z then panic
  else match l !! Z.to_nat i with Some a => mret a | None => panic end.

(** [for _, a := range l] whose body returns nothing. *)
Fixpoint for_each {S A} (l : list A) (f : A → M S unit) : M S unit :=
  match l with
  | [] => mret tt
  | a :: l => _ ← f a; for_each l f
  end.

(** The same, collecting the results the bodies append. *)
Fixpoint collect {S A B} (l : list A) (f : A → M S (list B)) : M S (list B) :=
  match l with
  | [] => mret []
  | a :: l => x ← f a; y ← collect l f; mret (x ++ y)
  end.

Definition when {S} (b : bool) (c : M S unit) : M S unit := if b then c else mret tt.

(** ** Machine integers *)

Definition wrap64 (z : Z) : Z := ((z + 2 ^ 63) mod 2 ^ 64 - 2 ^ 63)%Z.

Lemma wrap64_id z : (- 2 ^ 63 ≤ z < 2 ^ 63)%Z → wrap64 z = z.
Proof. unfold wrap64. intros H. rewrite Z.mod_small; lia. Qed.

(** A loop that carries local variables. *)
Fixpoint for_acc {S A B} (l : list A) (b : B) (f : B → A → M S B) : M S B :=
  match l with
  | [] => mret b
  | a :: l => b ← f b a; for_acc l b f
  end.

(** ** Total correctness

    [wp c Q s]: run from [s], the method does not panic and its result and
    final state satisfy [Q]. *)
Definition wp {S A} (c : M S A) (Q : A → S → Prop) (s : S) : Prop :=
  match c s with Some (a, s') => Q a s' | None => False end.

Section WP.
Context {S : Type}.
Implicit Types s : S.

Lemma wp_ret {A} (a : A) Q s : Q a s → wp (mret a) Q s.
Proof. done. Qed.

Lemma wp_bind {A B} (c : M S A) (k : A → M S B) Q s :
  wp c (λ a, wp (k a) Q) s → wp (c ≫= k) Q s.
Proof. unfold wp, mbind, M_bind. by destruct (c s) as [[a s']|]. Qed.

(** The first of two nested calls runs first. *)
Lemma wp_assoc {A B C} (c : M S A) (k : A → M S B) (k' : B → M S C) Q s :
  wp c (λ a, wp (k a ≫= k') Q) s → wp ((c ≫= k) ≫= k') Q s.
Proof. unfold wp, mbind, M_bind. by destruct (c s) as [[a s']|]. Qed.

(** A method is deterministic. *)
Lemma wp_and {A} (c : M S A) Q1 Q2 s : wp c Q1 s → wp c Q2 s → wp c (λ a s, Q1 a s ∧ Q2 a s) s.
Proof. unfold wp. destruct (c s) as [[a s']|]; auto. Qed.

(** The result comes with the run it is the result of. *)
Lemma wp_run {A} (c : M S A) Q s : wp c Q s → wp c (λ a s', c s = Some (a, s') ∧ Q a s') s.
Proof. unfold wp. destruct (c s) as [[a s']|]; auto. Qed.

Lemma wp_get Q s : Q s s → wp get Q s.
Proof. done. Qed.

Lemma wp_gets {A} (f : S → A) Q s : Q (f s) s → wp (gets f) Q s.
Proof. done. Qed.

Lemma wp_modify f Q s : Q tt (f s) → wp (modify f) Q s.
Proof. done. Qed.

Lemma wp_when b c Q s :
  (b = true → wp c Q s) → (b = false → Q tt s) → wp (when b c) Q s.
Proof. destruct b; intros H1 H2; [by apply H1|by apply H2]. Qed.

Lemma wp_if {A} (b : bool) (c1 c2 : M S A) Q s :
  (b = true → wp c1 Q s) → (b = false → wp c2 Q s) → wp (if b then c1 else c2) Q s.
Proof. destruct b; auto. Qed.

Lemma wp_index {A} (l : list A) i a Q s :
  (0 ≤ i)%Z → l !! Z.to_nat i = Some a → Q a s → wp (index l i) Q s.
Proof. intros Hi Hl HQ. unfold index. destruct (Z.ltb_spec i 0); [lia|]. by rewrite Hl. Qed.

Lemma wp_mono {A} (c : M S A) (Q Q' : A → S → Prop) s :
  wp c Q s → (∀ a s', Q a s' → Q' a s') → wp c Q' s.
Proof. unfold wp. destruct (c s) as [[a s']|]; auto. Qed.

(** A loop with an invariant on the part of the list still to visit. *)
Lemma wp_for_each {A} (I : list A → S → Prop) (l : list A) f Q s :
  I l s →
  (∀ a l' s, I (a :: l') s → wp (f a) (λ _, I l') s) →
  (∀ s, I [] s → Q tt s) →
  wp (for_each l f) Q s.
Proof.
  intros HI Hstep HQ. revert s HI. induction l as [|a l IH]; intros s HI; simpl; [by apply wp_ret, HQ|].
  apply wp_bind. eapply wp_mono; [by apply Hstep|]. intros [] s' HI'. by apply IH.
Qed.

Lemma wp_for_acc {A B} (I : list A → B → S → Prop) (l : list A) (b : B) f Q s :
  I l b s →
  (∀ a l' b s, I (a :: l') b s → wp (f b a) (I l') s) →
  (∀ b s, I [] b s → Q b s) →
  wp (for_acc l b f) Q s.
Proof.
  intros HI Hstep HQ. revert b s HI. induction l as [|a l IH]; intros b s HI; simpl; [by apply wp_ret, HQ|].
  apply wp_bind. eapply wp_mono; [by apply Hstep|]. intros b' s' HI'. by apply IH.
Qed.

Lemma wp_collect {A B} (I : list A → list B → S → Prop) (l : list A) f Q s :
  I l [] s →
  (∀ a l' acc s, I (a :: l') acc s → wp (f a) (λ x, I l' (acc ++ x)) s) →
  (∀ acc s, I [] acc s → Q acc s) →
  wp (collect l f) Q s.
Proof.
  intros HI Hstep HQ.
  enough (∀ acc s, I l acc s → wp (collect l f) (λ y s', I [] (acc ++ y) s') s) as Hgen.
  { eapply wp_mono; [by apply (Hgen [])|]. intros y s'. apply HQ. }
  clear HI HQ Q s. revert Hstep. induction l as [|a l IH]; intros Hstep acc s HI; simpl.
  { apply wp_ret. by rewrite app_nil_r. }
  apply wp_bind. eapply wp_mono; [by apply Hstep|]. intros x s1 HI1. simpl.
  apply wp_bind. eapply wp_mono; [exact (IH Hstep _ _ HI1)|]. intros y s2 HI2. simpl in *.
  apply wp_ret. by rewrite app_assoc.
Qed.
End WP.

Lemma wp_Some {S A} (c : M S A) Q s : wp c Q s → ∃ a s', c s = Some (a, s') ∧ Q a s'.
Proof. unfold wp. destruct (c s) as [[a s']|]; [eauto|done]. Qed.

(** Apply the rules for the constructs that need no idea. *)
Ltac wp_step :=
  lazymatch goal with
  | |- wp (mret _) _ _ => apply wp_ret
  | |- wp (_ ≫= _) _ _ => apply wp_bind
  | |- wp get _ _ => apply wp_get
  | |- wp (gets _) _ _ => apply wp_gets
  | |- wp (modify _) _ _ => apply wp_modify
  | |- wp (when _ _) _ _ => apply wp_when; intros ?
  | |- wp (if _ then _ else _) _ _ => apply wp_if; intros ?
  | |- wp (let '(_, _) := ?p in _) _ _ => destruct p as [? ?] eqn:?
  | |- wp (let _ := _ in _) _ _ => cbv zeta
  | |- wp _ _ _ => fail "wp_step: no rule"
  | |- _ => progress cbv beta zeta
  end; cbv beta.
