(* ===== verification/GoTime.v ===== *)
(** * GoTime: the part of Go's time package the program uses

    Instants are nanoseconds since the zero [time.Time], so the zero value is
    [0] and [IsZero] is [t =? 0].  Durations are 64-bit nanosecond counts;
    [Sub] saturates as in Go.  [ParseDuration] follows the standard library,
    with its float64 fraction computed by the Standard Library's reference
    floats. *)
From Stdlib Require Import Ascii Floats.SpecFloat.
From S2P Require Import Prelude.

Definition Nanosecond : Z := 1.
Definition Microsecond : Z := 1000.
Definition Millisecond : Z := 1000000.
Definition Second : Z := 1000000000.
Definition Minute : Z := (60 * Second)%Z.
Definition Hour : Z := (60 * Minute)%Z.

Definition minDuration : Z := (- 2 ^ 63)%Z.
Definition maxDuration : Z := (2 ^ 63 - 1)%Z.

(** [t.Sub(u)] *)
Definition Sub (t u : Z) : Z := Z.max minDuration (Z.min maxDuration (t - u)).

(** [t.Add(d)]; instants are far from the ends of their range. *)
Definition Add (t d : Z) : Z := (t + d)%Z.

Definition IsZero (t : Z) : bool := (t =? 0)%Z.

(** ** ParseDuration *)

Definition is_digit (c : Ascii.ascii) : bool :=
  let n := Ascii.nat_of_ascii c in (48 <=? n)%nat && (n <=? 57)%nat.

Definition digit_value (c : Ascii.ascii) : Z := (Z.of_nat (Ascii.nat_of_ascii c) - 48)%Z.

(** The leading digits: [None] on overflow. *)
Fixpoint leadingInt (x : Z) (s : string) : option (Z * string) :=
  match s with
  | String c s' =>
      if is_digit c then
        if (2 ^ 63 / 10 <? x)%Z then None
        else let x := (x * 10 + digit_value c)%Z in
             if (2 ^ 63 <? x)%Z then None else leadingInt x s'
      else Some (x, s)
  | EmptyString => Some (x, s)
  end.

(** The digits of a fraction and the number of them that count. *)
Fixpoint leadingFraction (x : Z) (scale : nat) (overflow : bool) (s : string) : Z * nat * string :=
  match s with
  | String c s' =>
      if is_digit c then
        if overflow || ((2 ^ 63 - 1) / 10 <? x)%Z then leadingFraction x scale true s'
        else let y := (x * 10 + digit_value c)%Z in
             if (2 ^ 63 <? y)%Z then leadingFraction x scale true s'
             else leadingFraction y (S scale) false s'
      else (x, scale, s)
  | EmptyString => (x, scale, s)
  end.

(** The unit: everything up to the next digit or dot. *)
Fixpoint takeUnit (s : string) : string * string :=
  match s with
  | String c s' =>
      if is_digit c || Ascii.eqb c "."%char then ("", s)
      else let '(u, r) := takeUnit s' in (String c u, r)
  | EmptyString => ("", s)
  end.

Definition unitMap (u : string) : option Z :=
  if String.eqb u "ns" then Some Nanosecond
  else if String.eqb u "us" || String.eqb u "µs" || String.eqb u "μs" then Some Microsecond
  else if String.eqb u "ms" then Some Millisecond
  else if String.eqb u "s" then Some Second
  else if String.eqb u "m" then Some Minute
  else if String.eqb u "h" then Some Hour
  else None.

Definition float64 (z : Z) : spec_float := binary_normalize 53 1024 z 0 false.

(** Conversion of a non-negative float to uint64. *)
Definition truncate (f : spec_float) : Z :=
  match f with
  | S754_finite false m e => Z.shiftl (Zpos m) e
  | _ => 0
  end.

Definition fraction_ns (f : Z) (scale : nat) (unit : Z) : Z :=
  truncate (SFmul 53 1024 (float64 f) (SFdiv 53 1024 (float64 unit) (float64 (10 ^ Z.of_nat scale)))).

(** The loop over "number unit" pairs; the length of the string is fuel
    enough, since each round consumes a unit. *)
Fixpoint parse_units (fuel : nat) (d : Z) (s : string) : option Z :=
  match s, fuel with
  | EmptyString, _ => Some d
  | _, O => None
  | String c _, S fuel =>
      if negb (is_digit c || Ascii.eqb c "."%char) then None else
      '(v, s1) ← leadingInt 0 s;
      let pre := negb (String.length s1 =? String.length s)%nat in
      let '(f, scale, s2, post) :=
        match s1 with
        | String "."%char r =>
            let '(f, scale, s2) := leadingFraction 0 0 false r in
            (f, scale, s2, negb (String.length s2 =? String.length r)%nat)
        | _ => (0%Z, O, s1, false)
        end in
      if negb (pre || post) then None else
      let '(u, s3) := takeUnit s2 in
      if String.eqb u "" then None else
      unit ← unitMap u;
      if (2 ^ 63 / unit <? v)%Z then None else
      let v := (v * unit)%Z in
      let v := if (0 <? f)%Z then (v + fraction_ns f scale unit)%Z else v in
      if (2 ^ 63 <? v)%Z then None else
      if (2 ^ 63 <? d + v)%Z then None else
      parse_units fuel (d + v) s3
  end.

(** [None] is an error. *)
Definition ParseDuration (s : string) : option Z :=
  let '(neg, s) := match s with
                   | String "-"%char r => (true, r)
                   | String "+"%char r => (false, r)
                   | _ => (false, s)
                   end in
  if String.eqb s "0" then Some 0%Z
  else if String.eqb s "" then None
  else d ← parse_units (String.length s) 0 s;
       if neg : bool then Some (- d)%Z
       else if (maxDuration <? d)%Z then None else Some d.

Example parse_1m30s : ParseDuration "1m30s" = Some (90 * Second)%Z.
Proof. vm_compute. reflexivity. Qed.
Example parse_1_5h : ParseDuration "-1.5h" = Some (- 5400 * Second)%Z.
Proof. vm_compute. reflexivity. Qed.
Example parse_0_1s : ParseDuration "0.1s" = Some (100 * Millisecond)%Z.
Proof. vm_compute. reflexivity. Qed.
Example parse_bad : map ParseDuration [""; "15"; "s"; ".s"; "1x"; "9223372036854775808ns"] =
  [None; None; None; None; None; None].
Proof. vm_compute. reflexivity. Qed.

Lemma Sub_nonneg t u : (u ≤ t)%Z → (0 ≤ Sub t u)%Z.
Proof. unfold Sub, minDuration, maxDuration. lia. Qed.

Lemma Sub_small t u : (minDuration ≤ t - u ≤ maxDuration)%Z → Sub t u = (t - u)%Z.
Proof. unfold Sub. lia. Qed.
