(* ===== verification/FailoverConfig.v ===== *)
(** * FailoverConfig: the configuration of failover chains

    Models [core/config/model_config_failover.go] and the parts of
    [core/services/failover/types.go] that read configurations.  A
    [ModelConfig] holds the fields these read. *)
From S2P Require Import Prelude GoTime.

Record FailoverTarget := MkFailoverTarget { ft_Model : string; Warm : bool }.

Record FailoverProbe := MkFailoverProbe { Interval : string; Timeout : string }.

Record FailoverTrip := MkFailoverTrip { Errors : Z; Window : string }.

Record FailoverRecovery := MkFailoverRecovery { Probes : Z; MinDwell_ : string }.

Record FailoverConfig := MkFailoverConfig {
  Targets : list FailoverTarget;
  Probe : FailoverProbe;
  Trip : FailoverTrip;
  Recovery : FailoverRecovery;
}.

Record ModelConfig := MkModelConfig {
  Name : string;
  Alias : string;
  Backend : string;
  Model : string;
  Failover : option FailoverConfig;
}.

Definition DefaultFailoverProbeInterval : Z := (15 * Second)%Z.
Definition DefaultFailoverProbeTimeout : Z := (5 * Second)%Z.
Definition DefaultFailoverTripErrors : Z := 1.
Definition DefaultFailoverTripWindow : Z := (30 * Second)%Z.
Definition DefaultFailoverRecoveryProbes : Z := 3.
Definition DefaultFailoverMinDwell : Z := (60 * Second)%Z.

Definition IsFailover (c : ModelConfig) : bool :=
  match c.(Failover) with Some _ => true | None => false end.

(** [model.CloudProxyBackend] and [model.LocalAIProxyBackend]. *)
Definition CloudProxyBackend : string := "cloud-proxy".
Definition LocalAIProxyBackend : string := "localai-proxy".

Definition IsRemoteProxy (c : ModelConfig) : bool :=
  String.eqb c.(Backend) CloudProxyBackend || String.eqb c.(Backend) LocalAIProxyBackend.

Definition IsAlias (c : ModelConfig) : bool := negb (String.eqb c.(Alias) "").

Definition durationOr (s : string) (def : Z) : Z :=
  if String.eqb s "" then def
  else match ParseDuration s with
       | None => def
       | Some d => if (d <=? 0)%Z then def else d
       end.

Definition ProbeInterval (f : FailoverConfig) : Z :=
  durationOr f.(Probe).(Interval) DefaultFailoverProbeInterval.
Definition ProbeTimeout (f : FailoverConfig) : Z :=
  durationOr f.(Probe).(Timeout) DefaultFailoverProbeTimeout.
Definition TripWindow (f : FailoverConfig) : Z :=
  durationOr f.(Trip).(Window) DefaultFailoverTripWindow.
Definition MinDwell (f : FailoverConfig) : Z :=
  durationOr f.(Recovery).(MinDwell_) DefaultFailoverMinDwell.
Definition TripErrors (f : FailoverConfig) : Z :=
  if (f.(Trip).(Errors) <=? 0)%Z then DefaultFailoverTripErrors else f.(Trip).(Errors).
Definition RecoveryProbes (f : FailoverConfig) : Z :=
  if (f.(Recovery).(Probes) <=? 0)%Z then DefaultFailoverRecoveryProbes else f.(Recovery).(Probes).

Definition WarmFailoverTargets (c : ModelConfig) : list string :=
  match c.(Failover) with
  | None => []
  | Some f => map ft_Model (List.filter Warm f.(Targets))
  end.

(** The errors of [validateFailover], one per message. *)
Inductive ValidateError :=
| ErrNoName
| ErrAliasAndFailover (name : string)
| ErrNotRedirect (name : string)
| ErrTooFewTargets (name : string)
| ErrTargetNoModel (name : string)
| ErrTargetSelf (name : string)
| ErrTargetTwice (name model : string)
| ErrBadDuration (name key v : string)
| ErrNegativeTripErrors (name : string)
| ErrNegativeRecoveryProbes (name : string).

Fixpoint validate_targets (name : string) (seen : gset string) (ts : list FailoverTarget) :
    option ValidateError :=
  match ts with
  | [] => None
  | t :: ts =>
      if String.eqb t.(ft_Model) "" then Some (ErrTargetNoModel name)
      else if String.eqb t.(ft_Model) name then Some (ErrTargetSelf name)
      else if bool_decide (t.(ft_Model) ∈ seen) then Some (ErrTargetTwice name t.(ft_Model))
      else validate_targets name ({[ t.(ft_Model) ]} ∪ seen) ts
  end.

Definition valid_duration (v : string) : bool :=
  match ParseDuration v with Some d => negb (d <=? 0)%Z | None => false end.

Fixpoint validate_durations (name : string) (kvs : list (string * string)) : option ValidateError :=
  match kvs with
  | [] => None
  | (key, v) :: kvs =>
      if String.eqb v "" then validate_durations name kvs
      else if valid_duration v then validate_durations name kvs
      else Some (ErrBadDuration name key v)
  end.

Definition duration_fields (f : FailoverConfig) : list (string * string) :=
  [("probe.interval", f.(Probe).(Interval)); ("probe.timeout", f.(Probe).(Timeout));
   ("trip.window", f.(Trip).(Window)); ("recovery.min_dwell", f.(Recovery).(MinDwell_))].

(** [None] is no error.  The duration fields come out of a Go map: [order] is
    the order its range happens to take.  Called on a failover config. *)
Definition validateFailover (order : list (string * string) → list (string * string))
    (c : ModelConfig) (f : FailoverConfig) : option ValidateError :=
  if String.eqb c.(Name) "" then Some ErrNoName
  else if IsAlias c then Some (ErrAliasAndFailover c.(Name))
  else if negb (String.eqb c.(Backend) "") || negb (String.eqb c.(Model) "") then
    Some (ErrNotRedirect c.(Name))
  else if (length f.(Targets) <? 2)%nat then Some (ErrTooFewTargets c.(Name))
  else match validate_targets c.(Name) ∅ f.(Targets) with
  | Some e => Some e
  | None =>
  match validate_durations c.(Name) (order (duration_fields f)) with
  | Some e => Some e
  | None =>
      if (f.(Trip).(Errors) <? 0)%Z then Some (ErrNegativeTripErrors c.(Name))
      else if (f.(Recovery).(Probes) <? 0)%Z then Some (ErrNegativeRecoveryProbes c.(Name))
      else None
  end end.

(** [MergePinned] of [types.go]. *)
Definition MergePinned (pinned warm : list string) : list string :=
  foldl (λ out w, if w in? out then out else out ++ [w]) pinned warm.

(** ** Theorems *)

Lemma durationOr_pos s def : (0 < def)%Z → (0 < durationOr s def)%Z.
Proof.
  unfold durationOr. intros H. destruct (String.eqb s ""); [done|].
  destruct (ParseDuration s) as [d|]; [|done]. destruct (Z.leb_spec d 0); lia.
Qed.

Lemma durationOr_valid s def d :
  ParseDuration s = Some d → (0 < d)%Z → durationOr s def = d.
Proof.
  unfold durationOr. intros Hp Hd. destruct (String.eqb s "") eqn:E.
  { apply String.eqb_eq in E as ->. by vm_compute in Hp. }
  rewrite Hp. destruct (Z.leb_spec d 0); lia.
Qed.

Lemma validate_targets_None name seen ts :
  validate_targets name seen ts = None ↔
  NoDup (map ft_Model ts) ∧
  ∀ t, t ∈ ts → t.(ft_Model) ≠ "" ∧ t.(ft_Model) ≠ name ∧ t.(ft_Model) ∉ seen.
Proof.
  revert seen. induction ts as [|t ts IH]; intros seen; simpl.
  { split; [|done]. intros _. split; [constructor|]. intros t Ht. by apply not_elem_of_nil in Ht. }
  destruct (String.eqb t.(ft_Model) "") eqn:E1.
  { split; [done|]. intros [_ H]. apply String.eqb_eq in E1. destruct (H t) as (? & _); [by left|done]. }
  destruct (String.eqb t.(ft_Model) name) eqn:E2.
  { split; [done|]. intros [_ H]. apply String.eqb_eq in E2.
    destruct (H t) as (_ & ? & _); [by left|done]. }
  apply String.eqb_neq in E1, E2. case_bool_decide as Hs.
  { split; [done|]. intros [_ H]. destruct (H t) as (_ & _ & ?); [by left|done]. }
  rewrite IH, list.NoDup_cons. split.
  - intros [Hnd H]. split.
    + split; [|done]. rewrite list_elem_of_fmap. intros (t' & Heq & Ht').
      destruct (H t' Ht') as (_ & _ & Hn). apply Hn. rewrite Heq.
      by apply elem_of_union_l, elem_of_singleton.
    + intros t' [->|Ht']%elem_of_cons; [done|]. destruct (H t' Ht') as (? & ? & Hn).
      rewrite elem_of_union in Hn. tauto.
  - intros [[Hni Hnd] H]. split; [done|]. intros t' Ht'.
    destruct (H t') as (? & ? & ?); [by right|]. split_and!; try done.
    rewrite elem_of_union, elem_of_singleton. intros [Heq|?]; [|done].
    apply Hni. rewrite list_elem_of_fmap. by exists t'.
Qed.

Lemma validate_durations_None name kvs :
  validate_durations name kvs = None ↔
  Forall (λ kv, kv.2 = "" ∨ valid_duration kv.2 = true) kvs.
Proof.
  induction kvs as [|[k v] kvs IH]; simpl; [by split|].
  rewrite Forall_cons, <-IH. simpl.
  destruct (String.eqb v "") eqn:E.
  { apply String.eqb_eq in E. tauto. }
  apply String.eqb_neq in E. destruct (valid_duration v); [tauto|].
  split; [done|]. by intros [[?|?] _].
Qed.

(** A refused config: some part of the condition fails. *)
Ltac refuse := split; [done|]; intros; destruct_and?; done || lia.

(** C40. A chain config is accepted exactly when it is a pure redirect with a
    name, at least two different named targets that are not the chain itself,
    durations that are empty or parse to a positive value, and no negative
    count; and which config passes does not depend on the order in which Go
    walks the map of durations. *)
Theorem failover_validate_iff order c f :
  (∀ l, order l ≡ₚ l) →
  validateFailover order c f = None ↔
  c.(Name) ≠ "" ∧ c.(Alias) = "" ∧ c.(Backend) = "" ∧ c.(Model) = "" ∧
  2 ≤ length f.(Targets) ∧ NoDup (map ft_Model f.(Targets)) ∧
  (∀ t, t ∈ f.(Targets) → t.(ft_Model) ≠ "" ∧ t.(ft_Model) ≠ c.(Name)) ∧
  (∀ kv, kv ∈ duration_fields f → kv.2 = "" ∨ valid_duration kv.2 = true) ∧
  (0 ≤ f.(Trip).(Errors))%Z ∧ (0 ≤ f.(Recovery).(Probes))%Z.
Proof.
  intros Hord. unfold validateFailover, IsAlias.
  pose proof (validate_targets_None c.(Name) ∅ f.(Targets)) as Ht.
  assert (Hd : validate_durations c.(Name) (order (duration_fields f)) = None ↔
    ∀ kv, kv ∈ duration_fields f → kv.2 = "" ∨ valid_duration kv.2 = true).
  { rewrite validate_durations_None, <-Forall_forall. by rewrite (Hord (duration_fields f)). }
  destruct (String.eqb_spec c.(Name) ""); [refuse|].
  destruct (String.eqb_spec c.(Alias) ""); simpl; [|refuse].
  destruct (String.eqb_spec c.(Backend) ""); simpl; [|refuse].
  destruct (String.eqb_spec c.(Model) ""); simpl; [|refuse].
  destruct (Nat.ltb_spec (length f.(Targets)) 2); [refuse|].
  destruct (validate_targets c.(Name) ∅ f.(Targets)).
  { split; [done|]. intros (_ & _ & _ & _ & _ & Hnd & H1 & _).
    apply Ht. split; [done|]. intros t Hin. destruct (H1 t Hin).
    split_and!; [done|done|apply not_elem_of_empty]. }
  destruct (validate_durations c.(Name) (order (duration_fields f))).
  { split; [done|]. intros (_ & _ & _ & _ & _ & _ & _ & H1 & _). by apply Hd. }
  destruct Ht as [Ht _]; destruct (Ht eq_refl) as [Hnd Ht']. destruct Hd as [Hd _].
  destruct (Z.ltb_spec f.(Trip).(Errors) 0); [refuse|].
  destruct (Z.ltb_spec f.(Recovery).(Probes) 0); [refuse|].
  split; [|done]. intros _. split_and!; try done; auto.
  intros t Hin. destruct (Ht' t Hin) as (? & ? & _). done.
Qed.

(** Every parameter of a chain is usable whatever the config holds: the
    durations are positive and the counts at least one, an empty or invalid
    text gives the default, and a valid positive duration is used as written. *)
Theorem failover_params f :
  (0 < ProbeInterval f)%Z ∧ (0 < ProbeTimeout f)%Z ∧ (0 < TripWindow f)%Z ∧ (0 < MinDwell f)%Z ∧
  (1 ≤ TripErrors f)%Z ∧ (1 ≤ RecoveryProbes f)%Z ∧
  (∀ d, ParseDuration f.(Recovery).(MinDwell_) = Some d → (0 < d)%Z → MinDwell f = d) ∧
  (ParseDuration f.(Recovery).(MinDwell_) = None → MinDwell f = DefaultFailoverMinDwell).
Proof.
  split_and!; try (by apply durationOr_pos).
  - unfold TripErrors, DefaultFailoverTripErrors. destruct (Z.leb_spec f.(Trip).(Errors) 0); lia.
  - unfold RecoveryProbes, DefaultFailoverRecoveryProbes.
    destruct (Z.leb_spec f.(Recovery).(Probes) 0); lia.
  - intros d. apply durationOr_valid.
  - intros H. unfold MinDwell, durationOr. rewrite H. by destruct (String.eqb _ _).
Qed.

(** ** Witnesses *)

Definition demo_chain : FailoverConfig :=
  MkFailoverConfig [MkFailoverTarget "a" true; MkFailoverTarget "b" false]
    (MkFailoverProbe "15s" "") (MkFailoverTrip 2 "1m30s") (MkFailoverRecovery 0 "0.5h").

Definition demo_chain_config : ModelConfig := MkModelConfig "chat" "" "" "" (Some demo_chain).

Lemma failover_validate_iff_witness :
  (∀ l : list (string * string), rev l ≡ₚ l) ∧
  validateFailover (@rev _) demo_chain_config demo_chain = None ∧
  (demo_chain_config.(Name) ≠ "" ∧ demo_chain_config.(Alias) = "" ∧
   demo_chain_config.(Backend) = "" ∧ demo_chain_config.(Model) = "" ∧
   2 ≤ length demo_chain.(Targets) ∧ NoDup (map ft_Model demo_chain.(Targets)) ∧
   (∀ t, t ∈ demo_chain.(Targets) → t.(ft_Model) ≠ "" ∧ t.(ft_Model) ≠ demo_chain_config.(Name)) ∧
   (∀ kv, kv ∈ duration_fields demo_chain → kv.2 = "" ∨ valid_duration kv.2 = true) ∧
   (0 ≤ demo_chain.(Trip).(Errors))%Z ∧ (0 ≤ demo_chain.(Recovery).(Probes))%Z).
Proof.
  assert (Hrev : ∀ l : list (string * string), rev l ≡ₚ l)
    by (intros l; symmetry; apply Permutation_rev).
  assert (Hv : validateFailover (@rev _) demo_chain_config demo_chain = None)
    by (vm_compute; reflexivity).
  split; [exact Hrev|]. split; [exact Hv|].
  exact (proj1 (failover_validate_iff (@rev _) demo_chain_config demo_chain Hrev) Hv).
Defined.
