(* ===== verification/FailoverClassify.v ===== *)
(** * FailoverClassify: which failures move to the next target

    Models [core/services/failover/classify.go].  A [GoError] records what the
    library functions the code calls answer about an error value: its text,
    [errors.Is] for the sentinel errors, [errors.As] for an HTTP error, and
    the gRPC status [FromError] finds. *)
From Stdlib Require Import Ascii.
From S2P Require Import Prelude GoTime.

Record GoError := MkGoError {
  Error : string;
  is_Canceled : bool;
  is_DeadlineExceeded : bool;
  is_ErrNotLoaded : bool;
  as_HTTPError : option Z;               (* the code *)
  grpc_FromError : option (Z * string);  (* code and message *)
}.

(** [google.golang.org/grpc/codes] *)
Definition codes_Unknown : Z := 2.
Definition codes_DeadlineExceeded : Z := 4.
Definition codes_ResourceExhausted : Z := 8.
Definition codes_Unimplemented : Z := 12.
Definition codes_Internal : Z := 13.
Definition codes_Unavailable : Z := 14.

Definition StatusNotImplemented : Z := 501.

(** [strings.Contains] *)
Fixpoint Contains (s sub : string) : bool :=
  String.prefix sub s ||
  match s with
  | EmptyString => false
  | String _ s' => Contains s' sub
  end.

Definition requestErrorMarkers : list string := [
  "exceeds the available context size";
  "is larger than the max context size";
  "maximum context length";
  "larger than max";
  "gRPC message limit exceeded"
].

Definition isRequestError (msg : string) : bool :=
  existsb (Contains msg) requestErrorMarkers.

Definition retryableStatus (code : Z) : bool :=
  (500 <=? code)%Z && negb (code =? StatusNotImplemented)%Z.

(** What follows [pre] in [s] when [s] starts with it. *)
Fixpoint strip (pre s : string) : option string :=
  match pre, s with
  | EmptyString, _ => Some s
  | String a pre', String b s' => if Ascii.eqb a b then strip pre' s' else None
  | _, _ => None
  end.

(** The three digits of a match of [upstream (\d{3})] at the start. *)
Definition upstream_here (s : string) : option Z :=
  match strip "upstream " s with
  | Some (String a (String b (String c _))) =>
      if is_digit a && is_digit b && is_digit c
      then Some (100 * digit_value a + 10 * digit_value b + digit_value c)%Z
      else None
  | _ => None
  end.

(** The leftmost match: [upstreamStatusRe.FindStringSubmatch] and [Atoi]. *)
Fixpoint upstreamStatus (s : string) : option Z :=
  match upstream_here s with
  | Some code => Some code
  | None => match s with EmptyString => None | String _ s' => upstreamStatus s' end
  end.

Definition retryable_grpc (code : Z) : bool :=
  (code =? codes_Unavailable)%Z || (code =? codes_Internal)%Z ||
  (code =? codes_DeadlineExceeded)%Z || (code =? codes_Unknown)%Z ||
  (code =? codes_ResourceExhausted)%Z.

(** [None] is the nil error. *)
Definition IsRetryable (err : option GoError) (status : Z) : bool :=
  match err with
  | Some e => if e.(is_Canceled) then false else
      if negb (status =? 0)%Z then retryableStatus status else
      match e.(as_HTTPError) with
      | Some code => retryableStatus code
      | None =>
          if e.(is_DeadlineExceeded) then true else
          match e.(grpc_FromError) with
          | Some (code, m) => if retryable_grpc code then negb (isRequestError m) else false
          | None =>
              match upstreamStatus e.(Error) with
              | Some code => retryableStatus code
              | None => negb (isRequestError e.(Error))
              end
          end
      end
  | None => if negb (status =? 0)%Z then retryableStatus status else false
  end.

Definition IsCapabilityGap (err : option GoError) : bool :=
  match err with
  | None => false
  | Some e =>
      match e.(as_HTTPError) with
      | Some code => (code =? StatusNotImplemented)%Z
      | None => false
      end ||
      match e.(grpc_FromError) with
      | Some (code, _) => (code =? codes_Unimplemented)%Z
      | None => false
      end
  end.

(** ** Theorems *)

Lemma strip_app pre s : strip pre (pre +:+ s) = Some s.
Proof. induction pre as [|a pre IH]; simpl; [done|]. by rewrite Ascii.eqb_refl. Qed.

Lemma digit_char d : (0 ≤ d ≤ 9)%Z →
  let c := Ascii.ascii_of_nat (48 + Z.to_nat d) in is_digit c = true ∧ digit_value c = d.
Proof.
  intros Hd. assert (d = 0 ∨ d = 1 ∨ d = 2 ∨ d = 3 ∨ d = 4 ∨ d = 5 ∨ d = 6 ∨ d = 7 ∨ d = 8 ∨ d = 9)%Z
    as H by lia. repeat destruct H as [->|H]; subst; by vm_compute.
Qed.

(** The decimal text of a three digit number. *)
Definition three_digits (a b c : Z) : string :=
  let dig d := Ascii.ascii_of_nat (48 + Z.to_nat d) in
  String (dig a) (String (dig b) (String (dig c) "")).

Lemma upstream_here_hit a b c post :
  (0 ≤ a ≤ 9)%Z → (0 ≤ b ≤ 9)%Z → (0 ≤ c ≤ 9)%Z →
  upstream_here ("upstream " +:+ three_digits a b c +:+ post) = Some (100 * a + 10 * b + c)%Z.
Proof.
  intros Ha Hb Hc. unfold upstream_here. rewrite strip_app. unfold three_digits.
  pose proof (digit_char a Ha) as [A1 A2]. pose proof (digit_char b Hb) as [B1 B2].
  pose proof (digit_char c Hc) as [C1 C2]. revert A1 A2 B1 B2 C1 C2.
  generalize (ascii_of_nat (48 + Z.to_nat a)) (ascii_of_nat (48 + Z.to_nat b))
    (ascii_of_nat (48 + Z.to_nat c)).
  intros x y z A1 A2 B1 B2 C1 C2.
  change (String x (String y (String z "")) +:+ post) with (String x (String y (String z post))).
  cbv beta iota. by rewrite A1, A2, B1, B2, C1, C2.
Qed.

Lemma upstreamStatus_unfold s :
  upstreamStatus s =
  match upstream_here s with
  | Some code => Some code
  | None => match s with EmptyString => None | String _ s' => upstreamStatus s' end
  end.
Proof. by destruct s. Qed.

Lemma upstreamStatus_skip pre s code :
  upstream_here s = Some code →
  (∀ p q, pre = p +:+ q → q ≠ "" → upstream_here (q +:+ s) = None) →
  upstreamStatus (pre +:+ s) = Some code.
Proof.
  intros Hs. induction pre as [|x pre IH]; intros Hpre.
  - change ("" +:+ s) with s. by rewrite upstreamStatus_unfold, Hs.
  - rewrite upstreamStatus_unfold, (Hpre "" (String x pre)) by done. apply IH.
    intros p q -> Hq. by apply (Hpre (String x p) q).
Qed.

(** The status code decides wherever it is visible: an upstream status
    inside the text of an otherwise unclassified error (the text up to it
    holding no earlier match) is treated exactly like the same status in an
    HTTP error or written by the handler, so 4xx and 501 never move to the
    next target and every other 5xx does. *)
Theorem retry_by_status e pre a b c post :
  e.(is_Canceled) = false → e.(is_DeadlineExceeded) = false → e.(grpc_FromError) = None →
  (1 ≤ a ≤ 9)%Z → (0 ≤ b ≤ 9)%Z → (0 ≤ c ≤ 9)%Z →
  e.(Error) = pre +:+ "upstream " +:+ three_digits a b c +:+ post →
  (∀ p q, pre = p +:+ q → q ≠ "" →
     upstream_here (q +:+ "upstream " +:+ three_digits a b c +:+ post) = None) →
  let code := (100 * a + 10 * b + c)%Z in
  IsRetryable (Some e) code = retryableStatus code ∧
  (e.(as_HTTPError) = Some code → IsRetryable (Some e) 0 = retryableStatus code) ∧
  (e.(as_HTTPError) = None → IsRetryable (Some e) 0 = retryableStatus code) ∧
  (retryableStatus code = true ↔ (5 ≤ a)%Z ∧ code ≠ 501%Z).
Proof.
  intros Hc Hd Hg Ha Hb Hcc Herr Hpre code. unfold IsRetryable. rewrite Hc, Hd, Hg. simpl.
  split_and!.
  - by replace (code =? 0)%Z with false by lia.
  - by intros ->.
  - intros ->. rewrite Herr.
    rewrite (upstreamStatus_skip pre _ code); [done| |done].
    apply upstream_here_hit; lia.
  - unfold retryableStatus, StatusNotImplemented. lia.
Qed.

Definition demo_error : GoError :=
  MkGoError "rpc: upstream 429: slow down" false false false None None.

Lemma retry_by_status_witness :
  IsRetryable (Some demo_error) 429 = retryableStatus 429 ∧
  (demo_error.(as_HTTPError) = Some 429%Z → IsRetryable (Some demo_error) 0 = retryableStatus 429) ∧
  (demo_error.(as_HTTPError) = None → IsRetryable (Some demo_error) 0 = retryableStatus 429) ∧
  (retryableStatus 429 = true ↔ (5 ≤ 4)%Z ∧ 429%Z ≠ 501%Z).
Proof.
  apply (retry_by_status demo_error "rpc: " 4 2 9 ": slow down"); try done.
  intros p q Hpq Hq.
  do 5 (destruct p as [|? p]; cbv in Hpq;
        [subst q; by vm_compute|injection Hpq; clear Hpq; intros Hpq _]).
  destruct p; cbv in Hpq; [by subst q|discriminate Hpq].
Defined.
