(* ===== verification/FailoverManager.v ===== *)
(** * FailoverManager: the state machine of failover chains

    Models [core/services/failover/types.go] and [manager.go].  The state
    behind [Manager.mu] is the record [Manager]; a [*targetState] or
    [*chainState] is the key under which the map holds it.  A method is a
    function in the monad of [GoMonad], so an index out of range or a nil
    dereference is a panic.

    What the code reads from outside (the clock, the config source, the order
    of a map range, the answers of the pin store, the gate and the prober) is
    asked of an environment [Env], indexed by the number of questions asked
    before: two questions may be answered differently, whatever happened in
    between. *)
From stdpp Require Import sorting.
From S2P Require Import Prelude GoMonad GoTime FailoverConfig FailoverClassify.

(** ** Types *)

Inductive TargetState :=
| StateHealthy | StateDown | StateRecovering | StateMissing | StateOther (s : string).

Definition TargetState_string (s : TargetState) : string :=
  match s with
  | StateHealthy => "healthy"
  | StateDown => "down"
  | StateRecovering => "recovering"
  | StateMissing => "missing"
  | StateOther s => s
  end.

#[export] Instance TargetState_eq_dec : EqDecision TargetState.
Proof. solve_decision. Defined.

Inductive ChainState := ChainPrimary | ChainFallback | ChainDegraded | ChainOther (s : string).

Definition ChainState_string (s : ChainState) : string :=
  match s with
  | ChainPrimary => "primary"
  | ChainFallback => "fallback"
  | ChainDegraded => "degraded"
  | ChainOther s => s
  end.

#[export] Instance ChainState_eq_dec : EqDecision ChainState.
Proof. solve_decision. Defined.

(** The zero value of a target's kind is the empty string. *)
Inductive Kind := KindNone | KindLocal | KindRemote.

#[export] Instance Kind_eq_dec : EqDecision Kind.
Proof. solve_decision. Defined.

Definition ReasonTrip : string := "trip".
Definition ReasonRecovery : string := "recovery".
Definition ReasonManual : string := "manual".
Definition ReasonDegraded : string := "degraded".
Definition ReasonMissing : string := "missing".
Definition ReasonInitial : string := "initial".

Inductive EventType := EventChainSwitched | EventTargetState.

Record Event := MkEvent {
  Type_ : EventType;
  Chain : string;
  Target : string;
  From : string;
  To : string;
  State : string;
  Reason : string;
  ev_Error : string;
  At : Z;
}.

Definition KindOf (cfg : ModelConfig) : Kind := if IsRemoteProxy cfg then KindRemote else KindLocal.

(** Snapshots shared between frontends, of [statesync.go]. *)
Record TargetSnapshot := MkTargetSnapshot {
  snap_Target : string;
  snap_State : TargetState;
  snap_Reason : string;
  snap_Error : string;
  snap_ConsecutiveOK : Z;
  snap_Since : Z;
  snap_Origin : string;
}.

Record ChainSnapshot := MkChainSnapshot {
  snap_Chain : string;
  snap_Active : string;
  snap_ActiveSince : Z;
  snap_ChainState : ChainState;
  snap_ChainReason : string;
}.

(** A queued call to the sync layer. *)
Inductive Publish := PublishTarget (s : TargetSnapshot) | PublishChain (s : ChainSnapshot).

Record targetState := MkTarget {
  ts_name : string;
  serving : string;
  kind : Kind;
  ts_warm : bool;
  ts_state : TargetState;
  failures : list Z;
  consecutiveOK : Z;
  downSince : Z;
  lastProbe : Z;
  lastActivity : Z;
  lastError : string;
  since : Z;
  ts_reason : string;
  probing : bool;
  params : FailoverConfig;
}.

Definition set_ts_name (v : string) (x : targetState) : targetState :=
  MkTarget v x.(serving) x.(kind) x.(ts_warm) x.(ts_state) x.(failures) x.(consecutiveOK)
    x.(downSince) x.(lastProbe) x.(lastActivity) x.(lastError) x.(since) x.(ts_reason)
    x.(probing) x.(params).
Definition set_serving (v : string) (x : targetState) : targetState :=
  MkTarget x.(ts_name) v x.(kind) x.(ts_warm) x.(ts_state) x.(failures) x.(consecutiveOK)
    x.(downSince) x.(lastProbe) x.(lastActivity) x.(lastError) x.(since) x.(ts_reason)
    x.(probing) x.(params).
Definition set_kind (v : Kind) (x : targetState) : targetState :=
  MkTarget x.(ts_name) x.(serving) v x.(ts_warm) x.(ts_state) x.(failures) x.(consecutiveOK)
    x.(downSince) x.(lastProbe) x.(lastActivity) x.(lastError) x.(since) x.(ts_reason)
    x.(probing) x.(params).
Definition set_ts_warm (v : bool) (x : targetState) : targetState :=
  MkTarget x.(ts_name) x.(serving) x.(kind) v x.(ts_state) x.(failures) x.(consecutiveOK)
    x.(downSince) x.(lastProbe) x.(lastActivity) x.(lastError) x.(since) x.(ts_reason)
    x.(probing) x.(params).
Definition set_ts_state (v : TargetState) (x : targetState) : targetState :=
  MkTarget x.(ts_name) x.(serving) x.(kind) x.(ts_warm) v x.(failures) x.(consecutiveOK)
    x.(downSince) x.(lastProbe) x.(lastActivity) x.(lastError) x.(since) x.(ts_reason)
    x.(probing) x.(params).
Definition set_failures (v : list Z) (x : targetState) : targetState :=
  MkTarget x.(ts_name) x.(serving) x.(kind) x.(ts_warm) x.(ts_state) v x.(consecutiveOK)
    x.(downSince) x.(lastProbe) x.(lastActivity) x.(lastError) x.(since) x.(ts_reason)
    x.(probing) x.(params).
Definition set_consecutiveOK (v : Z) (x : targetState) : targetState :=
  MkTarget x.(ts_name) x.(serving) x.(kind) x.(ts_warm) x.(ts_state) x.(failures) v x.(downSince)
    x.(lastProbe) x.(lastActivity) x.(lastError) x.(since) x.(ts_reason) x.(probing)
    x.(params).
Definition set_downSince (v : Z) (x : targetState) : targetState :=
  MkTarget x.(ts_name) x.(serving) x.(kind) x.(ts_warm) x.(ts_state) x.(failures) x.(consecutiveOK)
    v x.(lastProbe) x.(lastActivity) x.(lastError) x.(since) x.(ts_reason) x.(probing)
    x.(params).
Definition set_lastProbe (v : Z) (x : targetState) : targetState :=
  MkTarget x.(ts_name) x.(serving) x.(kind) x.(ts_warm) x.(ts_state) x.(failures) x.(consecutiveOK)
    x.(downSince) v x.(lastActivity) x.(lastError) x.(since) x.(ts_reason) x.(probing)
    x.(params).
Definition set_lastActivity (v : Z) (x : targetState) : targetState :=
  MkTarget x.(ts_name) x.(serving) x.(kind) x.(ts_warm) x.(ts_state) x.(failures) x.(consecutiveOK)
    x.(downSince) x.(lastProbe) v x.(lastError) x.(since) x.(ts_reason) x.(probing)
    x.(params).
Definition set_lastError (v : string) (x : targetState) : targetState :=
  MkTarget x.(ts_name) x.(serving) x.(kind) x.(ts_warm) x.(ts_state) x.(failures) x.(consecutiveOK)
    x.(downSince) x.(lastProbe) x.(lastActivity) v x.(since) x.(ts_reason) x.(probing)
    x.(params).
Definition set_since (v : Z) (x : targetState) : targetState :=
  MkTarget x.(ts_name) x.(serving) x.(kind) x.(ts_warm) x.(ts_state) x.(failures) x.(consecutiveOK)
    x.(downSince) x.(lastProbe) x.(lastActivity) x.(lastError) v x.(ts_reason)
    x.(probing) x.(params).
Definition set_ts_reason (v : string) (x : targetState) : targetState :=
  MkTarget x.(ts_name) x.(serving) x.(kind) x.(ts_warm) x.(ts_state) x.(failures) x.(consecutiveOK)
    x.(downSince) x.(lastProbe) x.(lastActivity) x.(lastError) x.(since) v x.(probing)
    x.(params).
Definition set_probing (v : bool) (x : targetState) : targetState :=
  MkTarget x.(ts_name) x.(serving) x.(kind) x.(ts_warm) x.(ts_state) x.(failures) x.(consecutiveOK)
    x.(downSince) x.(lastProbe) x.(lastActivity) x.(lastError) x.(since) x.(ts_reason) v
    x.(params).
Definition set_params (v : FailoverConfig) (x : targetState) : targetState :=
  MkTarget x.(ts_name) x.(serving) x.(kind) x.(ts_warm) x.(ts_state) x.(failures) x.(consecutiveOK)
    x.(downSince) x.(lastProbe) x.(lastActivity) x.(lastError) x.(since) x.(ts_reason)
    x.(probing) v.

Definition cold (ts : targetState) : bool :=
  match ts.(kind) with KindLocal => negb ts.(ts_warm) | _ => false end.

Record chainState := MkChain {
  ch_name : string;
  cfg : FailoverConfig;
  ch_targets : list string;
  active : Z;
  activeSince : Z;
  pinned : string;
  ch_state : ChainState;
  adopted : bool;
}.

Definition set_ch_name (v : string) (x : chainState) : chainState :=
  MkChain v x.(cfg) x.(ch_targets) x.(active) x.(activeSince) x.(pinned) x.(ch_state) x.(adopted).
Definition set_cfg (v : FailoverConfig) (x : chainState) : chainState :=
  MkChain x.(ch_name) v x.(ch_targets) x.(active) x.(activeSince) x.(pinned) x.(ch_state)
    x.(adopted).
Definition set_ch_targets (v : list string) (x : chainState) : chainState :=
  MkChain x.(ch_name) x.(cfg) v x.(active) x.(activeSince) x.(pinned) x.(ch_state) x.(adopted).
Definition set_active (v : Z) (x : chainState) : chainState :=
  MkChain x.(ch_name) x.(cfg) x.(ch_targets) v x.(activeSince) x.(pinned) x.(ch_state) x.(adopted).
Definition set_activeSince (v : Z) (x : chainState) : chainState :=
  MkChain x.(ch_name) x.(cfg) x.(ch_targets) x.(active) v x.(pinned) x.(ch_state) x.(adopted).
Definition set_pinned (v : string) (x : chainState) : chainState :=
  MkChain x.(ch_name) x.(cfg) x.(ch_targets) x.(active) x.(activeSince) v x.(ch_state) x.(adopted).
Definition set_ch_state (v : ChainState) (x : chainState) : chainState :=
  MkChain x.(ch_name) x.(cfg) x.(ch_targets) x.(active) x.(activeSince) x.(pinned) v x.(adopted).
Definition set_adopted (v : bool) (x : chainState) : chainState :=
  MkChain x.(ch_name) x.(cfg) x.(ch_targets) x.(active) x.(activeSince) x.(pinned) x.(ch_state) v.

(** A buffered channel of events with its capacity. *)
Record channel := MkChannel { capacity : Z; buffer : list Event }.

(** The fields from [calls] on are not in Go: the number of questions asked of
    the environment, the publishes handed to the sync layer, the switches
    counted by the metrics, every event emitted, and the warm sets delivered
    to [onWarm]. *)
Record Manager := MkManager {
  id : string;
  pins : gmap string string;
  targets : gmap string targetState;
  chains : gmap string chainState;
  subs : gmap Z channel;
  nextSub : Z;
  warm : list string;
  warmPending : bool;
  closed : bool;
  hasChains : bool;
  has_prober : bool;
  has_onWarm : bool;
  has_sync : bool;
  has_gate : bool;
  leader : bool;
  applying : bool;
  pending : list Publish;
  ticks : Z;
  calls : nat;
  published : list Publish;
  switches : list Event;
  emitted : list Event;
  delivered : list (list string);
}.

Definition set_id (v : string) (x : Manager) : Manager :=
  MkManager v x.(pins) x.(targets) x.(chains) x.(subs) x.(nextSub) x.(warm) x.(warmPending)
    x.(closed) x.(hasChains) x.(has_prober) x.(has_onWarm) x.(has_sync) x.(has_gate)
    x.(leader) x.(applying) x.(pending) x.(ticks) x.(calls) x.(published) x.(switches)
    x.(emitted) x.(delivered).
Definition set_pins (v : gmap string string) (x : Manager) : Manager :=
  MkManager x.(id) v x.(targets) x.(chains) x.(subs) x.(nextSub) x.(warm) x.(warmPending) x.(closed)
    x.(hasChains) x.(has_prober) x.(has_onWarm) x.(has_sync) x.(has_gate) x.(leader)
    x.(applying) x.(pending) x.(ticks) x.(calls) x.(published) x.(switches) x.(emitted)
    x.(delivered).
Definition set_targets (v : gmap string targetState) (x : Manager) : Manager :=
  MkManager x.(id) x.(pins) v x.(chains) x.(subs) x.(nextSub) x.(warm) x.(warmPending) x.(closed)
    x.(hasChains) x.(has_prober) x.(has_onWarm) x.(has_sync) x.(has_gate) x.(leader)
    x.(applying) x.(pending) x.(ticks) x.(calls) x.(published) x.(switches) x.(emitted)
    x.(delivered).
Definition set_chains (v : gmap string chainState) (x : Manager) : Manager :=
  MkManager x.(id) x.(pins) x.(targets) v x.(subs) x.(nextSub) x.(warm) x.(warmPending) x.(closed)
    x.(hasChains) x.(has_prober) x.(has_onWarm) x.(has_sync) x.(has_gate) x.(leader)
    x.(applying) x.(pending) x.(ticks) x.(calls) x.(published) x.(switches) x.(emitted)
    x.(delivered).
Definition set_subs (v : gmap Z channel) (x : Manager) : Manager :=
  MkManager x.(id) x.(pins) x.(targets) x.(chains) v x.(nextSub) x.(warm) x.(warmPending) x.(closed)
    x.(hasChains) x.(has_prober) x.(has_onWarm) x.(has_sync) x.(has_gate) x.(leader)
    x.(applying) x.(pending) x.(ticks) x.(calls) x.(published) x.(switches) x.(emitted)
    x.(delivered).
Definition set_nextSub (v : Z) (x : Manager) : Manager :=
  MkManager x.(id) x.(pins) x.(targets) x.(chains) x.(subs) v x.(warm) x.(warmPending) x.(closed)
    x.(hasChains) x.(has_prober) x.(has_onWarm) x.(has_sync) x.(has_gate) x.(leader)
    x.(applying) x.(pending) x.(ticks) x.(calls) x.(published) x.(switches) x.(emitted)
    x.(delivered).
Definition set_warm (v : list string) (x : Manager) : Manager :=
  MkManager x.(id) x.(pins) x.(targets) x.(chains) x.(subs) x.(nextSub) v x.(warmPending) x.(closed)
    x.(hasChains) x.(has_prober) x.(has_onWarm) x.(has_sync) x.(has_gate) x.(leader)
    x.(applying) x.(pending) x.(ticks) x.(calls) x.(published) x.(switches) x.(emitted)
    x.(delivered).
Definition set_warmPending (v : bool) (x : Manager) : Manager :=
  MkManager x.(id) x.(pins) x.(targets) x.(chains) x.(subs) x.(nextSub) x.(warm) v x.(closed)
    x.(hasChains) x.(has_prober) x.(has_onWarm) x.(has_sync) x.(has_gate) x.(leader)
    x.(applying) x.(pending) x.(ticks) x.(calls) x.(published) x.(switches) x.(emitted)
    x.(delivered).
Definition set_closed (v : bool) (x : Manager) : Manager :=
  MkManager x.(id) x.(pins) x.(targets) x.(chains) x.(subs) x.(nextSub) x.(warm) x.(warmPending) v
    x.(hasChains) x.(has_prober) x.(has_onWarm) x.(has_sync) x.(has_gate) x.(leader)
    x.(applying) x.(pending) x.(ticks) x.(calls) x.(published) x.(switches) x.(emitted)
    x.(delivered).
Definition set_hasChains (v : bool) (x : Manager) : Manager :=
  MkManager x.(id) x.(pins) x.(targets) x.(chains) x.(subs) x.(nextSub) x.(warm) x.(warmPending)
    x.(closed) v x.(has_prober) x.(has_onWarm) x.(has_sync) x.(has_gate) x.(leader)
    x.(applying) x.(pending) x.(ticks) x.(calls) x.(published) x.(switches) x.(emitted)
    x.(delivered).
Definition set_has_prober (v : bool) (x : Manager) : Manager :=
  MkManager x.(id) x.(pins) x.(targets) x.(chains) x.(subs) x.(nextSub) x.(warm) x.(warmPending)
    x.(closed) x.(hasChains) v x.(has_onWarm) x.(has_sync) x.(has_gate) x.(leader)
    x.(applying) x.(pending) x.(ticks) x.(calls) x.(published) x.(switches) x.(emitted)
    x.(delivered).
Definition set_has_onWarm (v : bool) (x : Manager) : Manager :=
  MkManager x.(id) x.(pins) x.(targets) x.(chains) x.(subs) x.(nextSub) x.(warm) x.(warmPending)
    x.(closed) x.(hasChains) x.(has_prober) v x.(has_sync) x.(has_gate) x.(leader)
    x.(applying) x.(pending) x.(ticks) x.(calls) x.(published) x.(switches) x.(emitted)
    x.(delivered).
Definition set_has_sync (v : bool) (x : Manager) : Manager :=
  MkManager x.(id) x.(pins) x.(targets) x.(chains) x.(subs) x.(nextSub) x.(warm) x.(warmPending)
    x.(closed) x.(hasChains) x.(has_prober) x.(has_onWarm) v x.(has_gate) x.(leader)
    x.(applying) x.(pending) x.(ticks) x.(calls) x.(published) x.(switches) x.(emitted)
    x.(delivered).
Definition set_has_gate (v : bool) (x : Manager) : Manager :=
  MkManager x.(id) x.(pins) x.(targets) x.(chains) x.(subs) x.(nextSub) x.(warm) x.(warmPending)
    x.(closed) x.(hasChains) x.(has_prober) x.(has_onWarm) x.(has_sync) v x.(leader)
    x.(applying) x.(pending) x.(ticks) x.(calls) x.(published) x.(switches) x.(emitted)
    x.(delivered).
Definition set_leader (v : bool) (x : Manager) : Manager :=
  MkManager x.(id) x.(pins) x.(targets) x.(chains) x.(subs) x.(nextSub) x.(warm) x.(warmPending)
    x.(closed) x.(hasChains) x.(has_prober) x.(has_onWarm) x.(has_sync) x.(has_gate) v
    x.(applying) x.(pending) x.(ticks) x.(calls) x.(published) x.(switches) x.(emitted)
    x.(delivered).
Definition set_applying (v : bool) (x : Manager) : Manager :=
  MkManager x.(id) x.(pins) x.(targets) x.(chains) x.(subs) x.(nextSub) x.(warm) x.(warmPending)
    x.(closed) x.(hasChains) x.(has_prober) x.(has_onWarm) x.(has_sync) x.(has_gate)
    x.(leader) v x.(pending) x.(ticks) x.(calls) x.(published) x.(switches) x.(emitted)
    x.(delivered).
Definition set_pending (v : list Publish) (x : Manager) : Manager :=
  MkManager x.(id) x.(pins) x.(targets) x.(chains) x.(subs) x.(nextSub) x.(warm) x.(warmPending)
    x.(closed) x.(hasChains) x.(has_prober) x.(has_onWarm) x.(has_sync) x.(has_gate)
    x.(leader) x.(applying) v x.(ticks) x.(calls) x.(published) x.(switches) x.(emitted)
    x.(delivered).
Definition set_ticks (v : Z) (x : Manager) : Manager :=
  MkManager x.(id) x.(pins) x.(targets) x.(chains) x.(subs) x.(nextSub) x.(warm) x.(warmPending)
    x.(closed) x.(hasChains) x.(has_prober) x.(has_onWarm) x.(has_sync) x.(has_gate)
    x.(leader) x.(applying) x.(pending) v x.(calls) x.(published) x.(switches)
    x.(emitted) x.(delivered).
Definition set_calls (v : nat) (x : Manager) : Manager :=
  MkManager x.(id) x.(pins) x.(targets) x.(chains) x.(subs) x.(nextSub) x.(warm) x.(warmPending)
    x.(closed) x.(hasChains) x.(has_prober) x.(has_onWarm) x.(has_sync) x.(has_gate)
    x.(leader) x.(applying) x.(pending) x.(ticks) v x.(published) x.(switches)
    x.(emitted) x.(delivered).
Definition set_published (v : list Publish) (x : Manager) : Manager :=
  MkManager x.(id) x.(pins) x.(targets) x.(chains) x.(subs) x.(nextSub) x.(warm) x.(warmPending)
    x.(closed) x.(hasChains) x.(has_prober) x.(has_onWarm) x.(has_sync) x.(has_gate)
    x.(leader) x.(applying) x.(pending) x.(ticks) x.(calls) v x.(switches) x.(emitted)
    x.(delivered).
Definition set_switches (v : list Event) (x : Manager) : Manager :=
  MkManager x.(id) x.(pins) x.(targets) x.(chains) x.(subs) x.(nextSub) x.(warm) x.(warmPending)
    x.(closed) x.(hasChains) x.(has_prober) x.(has_onWarm) x.(has_sync) x.(has_gate)
    x.(leader) x.(applying) x.(pending) x.(ticks) x.(calls) x.(published) v x.(emitted)
    x.(delivered).
Definition set_emitted (v : list Event) (x : Manager) : Manager :=
  MkManager x.(id) x.(pins) x.(targets) x.(chains) x.(subs) x.(nextSub) x.(warm) x.(warmPending)
    x.(closed) x.(hasChains) x.(has_prober) x.(has_onWarm) x.(has_sync) x.(has_gate)
    x.(leader) x.(applying) x.(pending) x.(ticks) x.(calls) x.(published) x.(switches) v
    x.(delivered).
Definition set_delivered (v : list (list string)) (x : Manager) : Manager :=
  MkManager x.(id) x.(pins) x.(targets) x.(chains) x.(subs) x.(nextSub) x.(warm) x.(warmPending)
    x.(closed) x.(hasChains) x.(has_prober) x.(has_onWarm) x.(has_sync) x.(has_gate)
    x.(leader) x.(applying) x.(pending) x.(ticks) x.(calls) x.(published) x.(switches)
    x.(emitted) v.

(** ** The environment *)

Class Env := {
  clock_at : nat → Z;
  range_order : nat → list string → list string;
  GetModelConfig_at : nat → string → option ModelConfig;
  GetAllModelsConfigs_at : nat → list ModelConfig;
  SetPin_at : nat → string → string → option string;
  ClearPin_at : nat → string → option string;
  Pins_at : nat → gmap string string;
  gate_at : nat → bool;
  ctx_done_at : nat → bool;
  Liveness_at : nat → ModelConfig → Kind → bool → option GoError;
  Inference_at : nat → ModelConfig → Kind → bool → option GoError;
}.

(** A range visits every key once. *)
Class EnvLaws `{Env} := {
  range_perm : ∀ n l, range_order n l ≡ₚ l;
}.

Inductive ManagerError :=
| ErrChainNotFound (chain : string)
| ErrTargetNotInChain (target : string)
| ErrNoTarget (chain : string)
| ErrSync (msg : string).

Section Manager.
Context `{Env}.

Abbreviation MM := (M Manager).

(** ** Asking the environment *)

Definition ask {A} (q : nat → A) : MM A := λ m, Some (q m.(calls), set_calls (S m.(calls)) m).

Definition Now : MM Z := ask clock_at.

(** The keys of a map in the order a range takes them. *)
Definition range {A} (f : Manager → gmap string A) : MM (list string) :=
  m ← get; ask (λ n, range_order n (map fst (map_to_list (f m)))).

(** ** Pointers *)

Definition deref_target (name : string) : MM targetState :=
  m ← get; match m.(targets) !! name with Some ts => mret ts | None => panic end.

Definition deref_chain (name : string) : MM chainState :=
  m ← get; match m.(chains) !! name with Some ch => mret ch | None => panic end.

Definition upd_target (name : string) (f : targetState → targetState) : MM unit :=
  modify (λ m, set_targets (alter f name m.(targets)) m).

Definition upd_chain (name : string) (f : chainState → chainState) : MM unit :=
  modify (λ m, set_chains (alter f name m.(chains)) m).

(** ** Events and publishes *)

(** A send with a [default] case: dropped when the buffer is full. *)
Definition offer (ev : Event) (c : channel) : channel :=
  if (Z.of_nat (length c.(buffer)) <? c.(capacity))%Z
  then MkChannel c.(capacity) (c.(buffer) ++ [ev]) else c.

Definition is_switch (ev : Event) : bool :=
  match ev.(Type_) with EventChainSwitched => true | EventTargetState => false end.

Definition emitLocked (ev : Event) : MM unit :=
  m ← get;
  _ ← when (is_switch ev && (m.(leader) || negb m.(has_sync)))
        (modify (λ m, set_switches (m.(switches) ++ [ev]) m));
  modify (λ m, set_emitted (m.(emitted) ++ [ev]) (set_subs (offer ev <$> m.(subs)) m)).

Definition targetSnapshotLocked (m : Manager) (ts : targetState) : TargetSnapshot :=
  MkTargetSnapshot ts.(ts_name) ts.(ts_state) ts.(ts_reason) ts.(lastError) ts.(consecutiveOK)
    (match ts.(ts_state) with StateDown => ts.(downSince) | _ => ts.(since) end) m.(id).

Definition chainSnapshotLocked (ch : chainState) (reason : string) : MM ChainSnapshot :=
  act ← index ch.(ch_targets) ch.(active);
  mret (MkChainSnapshot ch.(ch_name) act ch.(activeSince) ch.(ch_state) reason).

Definition queue (p : Publish) : MM unit := modify (λ m, set_pending (m.(pending) ++ [p]) m).

Definition is_missing (s : TargetState) : bool :=
  match s with StateMissing => true | _ => false end.

Definition queuePublishTargetLocked (name : string) (from : TargetState) : MM unit :=
  ts ← deref_target name;
  m ← get;
  if negb m.(has_sync) || m.(applying) || is_missing ts.(ts_state) || is_missing from then mret tt
  else queue (PublishTarget (targetSnapshotLocked m ts)).

Definition queuePublishChainLocked (name : string) (reason : string) : MM unit :=
  ch ← deref_chain name;
  m ← get;
  if negb m.(has_sync) || negb m.(leader) then mret tt
  else snap ← chainSnapshotLocked ch reason; queue (PublishChain snap).

(** The queued publishes reach the sync layer after the unlock. *)
Definition unlockAndFlush : MM unit :=
  modify (λ m, set_published (m.(published) ++ m.(pending)) (set_pending [] m)).

(** ** Target states and the active target *)

Definition enter_state (now : Z) (to : TargetState) (reason : string) (ts : targetState) : targetState :=
  let ts := set_ts_reason reason (set_since now (set_ts_state to ts)) in
  match to with
  | StateDown => set_failures [] (set_consecutiveOK 0 (set_downSince now ts))
  | StateRecovering | StateHealthy => set_failures [] (set_consecutiveOK 0 ts)
  | _ => ts
  end.

Definition setTargetLocked (name : string) (to : TargetState) (reason errMsg : string) : MM unit :=
  ts ← deref_target name;
  if bool_decide (ts.(ts_state) = to) then mret tt else
  let from := ts.(ts_state) in
  now ← Now;
  _ ← upd_target name (enter_state now to reason);
  _ ← emitLocked (MkEvent EventTargetState "" ts.(ts_name) (TargetState_string from)
                    (TargetState_string to) "" reason errMsg now);
  queuePublishTargetLocked name from.

Definition is_healthy (tgts : gmap string targetState) (name : string) : bool :=
  match tgts !! name with
  | Some ts => bool_decide (ts.(ts_state) = StateHealthy)
  | None => false
  end.

(** The index of the first healthy target, or -1. *)
Fixpoint first_healthy (tgts : gmap string targetState) (names : list string) (i : Z) : Z :=
  match names with
  | [] => -1
  | name :: names => if is_healthy tgts name then i else first_healthy tgts names (i + 1)
  end.

(** [slices.Index]: the first index of an element, or -1. *)
Fixpoint Index (l : list string) (x : string) (i : Z) : Z :=
  match l with
  | [] => -1
  | y :: l => if String.eqb y x then i else Index l x (i + 1)
  end.

Definition is_degraded (s : ChainState) : bool :=
  match s with ChainDegraded => true | _ => false end.

(** The switch of [recomputeLocked]: the next active index and the reason. *)
Definition decide_active (tgts : gmap string targetState) (ch : chainState) (now best : Z) :
    MM (Z * string) :=
  let prev := ch.(active) in
  if negb (String.eqb ch.(pinned) "") then
    mret (Index ch.(ch_targets) ch.(pinned) 0, ReasonManual)
  else if (best =? -1)%Z then mret (prev, ReasonTrip)
  else if (prev <? best)%Z then mret (best, ReasonTrip)
  else if (best <? prev)%Z then
    cur ← index ch.(ch_targets) prev;
    if negb (is_healthy tgts cur) then mret (best, ReasonTrip)
    else if (MinDwell ch.(cfg) <=? Sub now ch.(activeSince))%Z then mret (best, ReasonRecovery)
    else mret (prev, ReasonTrip)
  else mret (prev, ReasonTrip).

Definition chain_state_of (pin : string) (best next : Z) : ChainState :=
  if String.eqb pin "" && (best =? -1)%Z then ChainDegraded
  else if (next =? 0)%Z then ChainPrimary
  else ChainFallback.

Definition emit_switch (name : string) (tgts : list string) (prev next : Z) (state : ChainState)
    (reason : string) (now : Z) : MM unit :=
  from ← index tgts prev;
  to ← index tgts next;
  emitLocked (MkEvent EventChainSwitched name "" from to (ChainState_string state) reason "" now).

Definition recomputeLocked (name : string) (override : string) : MM unit :=
  ch ← deref_chain name;
  m ← get;
  if m.(has_sync) && negb m.(leader) && ch.(adopted) && String.eqb ch.(pinned) "" then mret tt else
  now ← Now;
  let prev := ch.(active) in
  let best := first_healthy m.(targets) ch.(ch_targets) 0 in
  '(next, reason) ← decide_active m.(targets) ch now best;
  let reason := if String.eqb override "" then reason else override in
  let state := chain_state_of ch.(pinned) best next in
  let changed := negb (next =? prev)%Z || negb (bool_decide (state = ch.(ch_state))) in
  _ ← (if negb (next =? prev)%Z then
         _ ← upd_chain name (λ ch, set_activeSince now (set_active next ch));
         emit_switch ch.(ch_name) ch.(ch_targets) prev next state reason now
       else if is_degraded state && negb (is_degraded ch.(ch_state)) then
         emit_switch ch.(ch_name) ch.(ch_targets) prev next state ReasonDegraded now
       else if negb (is_degraded state) && is_degraded ch.(ch_state) then
         emit_switch ch.(ch_name) ch.(ch_targets) prev next state ReasonRecovery now
       else mret tt);
  _ ← upd_chain name (set_ch_state state);
  when changed
    (queuePublishChainLocked name
       (if (next =? prev)%Z then if is_degraded state then ReasonDegraded else ReasonRecovery
        else reason)).

Definition recomputeForLocked (target : string) : MM unit :=
  ks ← range chains;
  for_each ks (λ name,
    ch ← deref_chain name;
    when (target in? ch.(ch_targets)) (recomputeLocked name "")).

(** ** Reconciling with the config source *)

Definition lookupTarget (name : string) : MM (option ModelConfig) :=
  c ← ask (λ n, GetModelConfig_at n name);
  match c with
  | Some c => if IsAlias c then ask (λ n, GetModelConfig_at n c.(Alias)) else mret (Some c)
  | None => mret None
  end.

(** A chain of the config: created, or rebuilt when its targets changed. *)
Definition sync_chain (now : Z) (cname : string) (names : list string) : MM unit :=
  m ← get;
  if match m.(chains) !! cname with
     | Some ch => bool_decide (ch.(ch_targets) = names)
     | None => false
     end then mret tt
  else
    let pin := default "" (m.(pins) !! cname) in
    pin ← (if pin in? names then mret pin
           else _ ← when (negb m.(has_sync)) (modify (λ m, set_pins (delete cname m.(pins)) m));
                mret "");
    modify (λ m, set_chains
      (<[cname := MkChain cname (MkFailoverConfig [] (MkFailoverProbe "" "") (MkFailoverTrip 0 "")
                                   (MkFailoverRecovery 0 ""))
                    names 0 now pin ChainPrimary false]> m.(chains)) m).

Definition new_target (name : string) : targetState :=
  MkTarget name "" KindNone false StateHealthy [] 0 0 0 0 "" 0 "" false
    (MkFailoverConfig [] (MkFailoverProbe "" "") (MkFailoverTrip 0 "") (MkFailoverRecovery 0 "")).

Definition sync_target (f : FailoverConfig) (claimed : gset string) (t : FailoverTarget) :
    MM (gset string) :=
  let name := t.(ft_Model) in
  m ← get;
  _ ← when (negb (bool_decide (is_Some (m.(targets) !! name))))
        (modify (λ m, set_targets (<[name := new_target name]> m.(targets)) m));
  _ ← when (negb (bool_decide (name ∈ claimed)))
        (upd_target name (λ ts, set_ts_warm false (set_params f ts)));
  let claimed := {[ name ]} ∪ claimed in
  tc ← lookupTarget name;
  match tc with
  | None =>
      _ ← setTargetLocked name StateMissing ReasonMissing "target config not found"; mret claimed
  | Some tc =>
      if IsFailover tc then
        _ ← setTargetLocked name StateMissing ReasonMissing "target is itself a failover chain";
        mret claimed
      else
        _ ← upd_target name (λ ts, set_serving tc.(Name) (set_kind (KindOf tc) ts));
        _ ← when (t.(Warm) && bool_decide (KindOf tc = KindLocal)) (upd_target name (set_ts_warm true));
        ts ← deref_target name;
        _ ← when (is_missing ts.(ts_state)) (setTargetLocked name StateHealthy ReasonRecovery "");
        mret claimed
  end.

(** One entry of the config source. *)
Definition sync_config (now : Z) (acc : gset string * gset string) (c : ModelConfig) :
    MM (gset string * gset string) :=
  let '(seenChains, claimed) := acc in
  match c.(Failover) with
  | None => mret (seenChains, claimed)
  | Some f =>
      _ ← sync_chain now c.(Name) (map ft_Model f.(Targets));
      _ ← upd_chain c.(Name) (set_cfg f);
      claimed ← for_acc f.(Targets) claimed (sync_target f);
      mret ({[ c.(Name) ]} ∪ seenChains, claimed)
  end.

(** The warm set: the models serving warm targets, without repetition. *)
Definition collect_warm (warm : list string) (name : string) : MM (list string) :=
  ts ← deref_target name;
  mret (if ts.(ts_warm) && negb (String.eqb ts.(serving) "") && negb (ts.(serving) in? warm)
        then warm ++ [ts.(serving)] else warm).

(** [sort.Strings] *)
#[local] Instance leb_dec (a b : string) : Decision (String.leb a b = true) := bool_eq_dec _ _.

Definition sort_strings (l : list string) : list string := merge_sort (λ a b, String.leb a b = true) l.

Definition syncLocked : MM unit :=
  now ← Now;
  all ← ask GetAllModelsConfigs_at;
  '(seenChains, claimed) ← for_acc all (∅, ∅) (sync_config now);
  ks ← range chains;
  _ ← for_each ks (λ name,
        when (negb (bool_decide (name ∈ seenChains)))
          (modify (λ m,
             set_pins (if m.(has_sync) then m.(pins) else delete name m.(pins))
               (set_chains (delete name m.(chains)) m))));
  ks ← range targets;
  _ ← for_each ks (λ name,
        when (negb (bool_decide (name ∈ claimed)))
          (modify (λ m, set_targets (delete name m.(targets)) m)));
  _ ← modify (λ m, set_hasChains (negb (bool_decide (m.(chains) = ∅))) m);
  ks ← range chains;
  _ ← for_each ks (λ name, recomputeLocked name "");
  ks ← range targets;
  w ← for_acc ks [] collect_warm;
  let w := sort_strings w in
  m ← get;
  when (negb (bool_decide (w = m.(warm)))) (modify (λ m, set_warmPending true (set_warm w m))).

Definition takeWarmLocked : MM (option (list string)) :=
  m ← get;
  if negb m.(warmPending) then mret None
  else _ ← modify (set_warmPending false); mret (Some m.(warm)).

(** Outside the lock: the callback, when there is one. *)
Definition deliver (w : option (list string)) : MM unit :=
  m ← get;
  match w with
  | Some w => when m.(has_onWarm) (modify (λ m, set_delivered (m.(delivered) ++ [w]) m))
  | None => mret tt
  end.

Definition Sync : MM unit :=
  _ ← syncLocked; w ← takeWarmLocked; _ ← unlockAndFlush; deliver w.

Definition HasChains (m : option Manager) : bool :=
  match m with None => false | Some m => m.(hasChains) end.

(** Whether the chain exists, after a sync on a miss. *)
Definition chainLocked (name : string) : MM bool :=
  m ← get;
  if bool_decide (is_Some (m.(chains) !! name)) then mret true
  else _ ← syncLocked; m ← get; mret (bool_decide (is_Some (m.(chains) !! name))).

Definition targetLocked (name : string) : MM bool :=
  m ← get;
  if bool_decide (is_Some (m.(targets) !! name)) then mret true
  else _ ← syncLocked; m ← get; mret (bool_decide (is_Some (m.(targets) !! name))).

Definition WarmTargets : MM (list string) := gets warm.

Definition targetStates : MM (gmap string TargetState) := gets (λ m, ts_state <$> m.(targets)).

Definition Reevaluate : MM unit :=
  ks ← range chains;
  _ ← for_each ks (λ name, recomputeLocked name "");
  unlockAndFlush.

(** ** Serving requests *)

Record Attempt := MkAttempt {
  a_chain : string;
  a_primary : string;
  a_degraded : bool;
  a_targets : list string;
  a_i : Z;
}.

Definition usable (tgts : gmap string targetState) (degraded : bool) (name : string) : bool :=
  match tgts !! name with
  | None => false
  | Some ts => negb (is_missing ts.(ts_state)) &&
               (degraded || bool_decide (ts.(ts_state) = StateHealthy))
  end.

(** Between the lock and the deferred unlock of [Plan]. *)
Definition plan_locked (chain : string) : MM (Attempt + ManagerError) :=
  found ← chainLocked chain;
  if negb found then mret (inr (ErrChainNotFound chain)) else
  ch ← deref_chain chain;
  m ← get;
  primary ← index ch.(ch_targets) 0;
  let degraded := is_degraded ch.(ch_state) in
  tgts ← (if negb (String.eqb ch.(pinned) "") then mret [ch.(pinned)]
          else if degraded then mret (List.filter (usable m.(targets) degraded) ch.(ch_targets))
          else
            act ← index ch.(ch_targets) ch.(active);
            mret ((if usable m.(targets) degraded act then [act] else []) ++
                  List.filter (λ name, negb (String.eqb name act) && usable m.(targets) degraded name)
                    ch.(ch_targets)));
  match tgts with
  | [] => mret (inr (ErrNoTarget chain))
  | _ => mret (inl (MkAttempt ch.(ch_name) primary degraded tgts 0))
  end.

Definition Plan (chain : string) : MM (Attempt + ManagerError) :=
  r ← plan_locked chain; _ ← unlockAndFlush; mret r.

Definition Attempt_Target (a : Attempt) : MM string := index a.(a_targets) a.(a_i).

(** The failures after the cut, with the new one. *)
Definition add_failure (now : Z) (ts : targetState) : list Z :=
  let cut := Add now (- TripWindow ts.(params)) in
  List.filter (λ f, (cut <? f)%Z) ts.(failures) ++ [now].

Definition recordFailureLocked (name msg : string) : MM unit :=
  now ← Now;
  _ ← upd_target name (set_lastError msg);
  ts ← deref_target name;
  match ts.(ts_state) with
  | StateRecovering => setTargetLocked name StateDown ReasonTrip msg
  | StateHealthy =>
      let fs := add_failure now ts in
      _ ← upd_target name (set_failures fs);
      when (TripErrors ts.(params) <=? Z.of_nat (length fs))%Z
        (setTargetLocked name StateDown ReasonTrip msg)
  | _ => mret tt
  end.

Definition ReportFailure (target : string) (err : option GoError) : MM unit :=
  found ← targetLocked target;
  _ ← when found
        (_ ← recordFailureLocked target (match err with Some e => e.(Error) | None => "" end);
         recomputeForLocked target);
  unlockAndFlush.

(** The tail of [recordPassLocked]: count the pass, healthy at the bound. *)
Definition count_pass (name : string) : MM unit :=
  _ ← upd_target name (λ ts, set_consecutiveOK (wrap64 (ts.(consecutiveOK) + 1)) ts);
  ts ← deref_target name;
  when (RecoveryProbes ts.(params) <=? ts.(consecutiveOK))%Z
    (setTargetLocked name StateHealthy ReasonRecovery "").

Definition recordPassLocked (name : string) : MM unit :=
  ts ← deref_target name;
  match ts.(ts_state) with
  | StateHealthy => upd_target name (set_failures [])
  | StateMissing => mret tt
  | StateDown =>
      if cold ts then setTargetLocked name StateHealthy ReasonRecovery ""
      else _ ← setTargetLocked name StateRecovering ReasonRecovery ""; count_pass name
  | _ => count_pass name
  end.

Definition ReportSuccess (target : string) : MM unit :=
  found ← targetLocked target;
  _ ← when found
        (now ← Now;
         _ ← upd_target target (set_lastActivity now);
         _ ← recordPassLocked target;
         recomputeForLocked target);
  unlockAndFlush.

(** The next target, when one is left. *)
Definition advance (a : Attempt) : option Attempt :=
  if (Z.of_nat (length a.(a_targets)) <=? a.(a_i) + 1)%Z then None
  else Some (MkAttempt a.(a_chain) a.(a_primary) a.(a_degraded) a.(a_targets) (a.(a_i) + 1)).

Definition Fail (a : Attempt) (err : option GoError) : MM (option Attempt) :=
  t ← Attempt_Target a; _ ← ReportFailure t err; mret (advance a).

Definition Skip (a : Attempt) : option Attempt := advance a.

Definition Report (a : Attempt) (err : option GoError) : MM unit :=
  t ← Attempt_Target a; ReportFailure t err.

Definition Succeed (a : Attempt) : MM unit :=
  t ← Attempt_Target a; ReportSuccess t.

(** What one call of the request function does: it may use the manager (or
    other goroutines may, meanwhile); it returns its error and whether it
    committed output. *)
Definition RequestFn : Type := string → MM (option GoError * bool).

Inductive DoResult :=
| DoReturned (err : option GoError)
| DoPlanError (e : ManagerError)
| DoOutOfFuel.

(** The loop of [Do]; the list is the calls made: target, error and whether
    output was committed. *)
Definition Call : Type := string * option GoError * bool.

Fixpoint do_loop (fuel : nat) (a : Attempt) (fn : RequestFn) : MM (DoResult * list Call) :=
  match fuel with
  | O => mret (DoOutOfFuel, [])
  | S fuel =>
      t ← Attempt_Target a;
      '(err, committed) ← fn t;
      let call := (t, err, committed) in
      match err with
      | None => _ ← Succeed a; mret (DoReturned None, [call])
      | Some _ =>
          if IsCapabilityGap err && negb committed then
            match Skip a with
            | None => mret (DoReturned err, [call])
            | Some a' => '(r, l) ← do_loop fuel a' fn; mret (r, call :: l)
            end
          else
            cancelled ← ask ctx_done_at;
            if cancelled || negb (IsRetryable err 0) then mret (DoReturned err, [call])
            else if committed : bool then _ ← Report a err; mret (DoReturned err, [call])
            else
              next ← Fail a err;
              match next with
              | None => mret (DoReturned err, [call])
              | Some a' => '(r, l) ← do_loop fuel a' fn; mret (r, call :: l)
              end
      end
  end.

(** One round per target of the plan. *)
Definition Do (chain : string) (fn : RequestFn) : MM (DoResult * list Call) :=
  att ← Plan chain;
  match att with
  | inr e => mret (DoPlanError e, [])
  | inl a => do_loop (length a.(a_targets)) a fn
  end.

End Manager.
