(* ===== verification/FailoverSync.v ===== *)
(** * FailoverSync: pins, state sharing and the probe scheduler

    The rest of the failover manager: [Pin], [Unpin], [Status], [Subscribe]
    and [close] of [manager.go], all of [statesync.go] and of [schedule.go].
    An operation of several critical sections is the sequence of them; the
    sync layer's callbacks are operations of their own, since they run after
    the unlock. *)
From S2P Require Import Prelude GoMonad GoTime FailoverConfig FailoverClassify FailoverManager.

(** ** Views *)

Record TargetStatus := MkTargetStatus {
  st_Model : string;
  st_Kind : Kind;
  st_Warm : bool;
  st_State : option TargetState;     (* [None] is the empty string *)
  st_ConsecutiveOK : Z;
  st_LastProbe : option Z;
  st_LastError : string;
}.

Record ChainStatus := MkChainStatus {
  cs_Name : string;
  cs_State : ChainState;
  cs_Active : string;
  cs_ActiveSince : Z;
  cs_Pinned : option string;
  cs_Targets : list TargetStatus;
}.

Definition target_status (tgts : gmap string targetState) (name : string) : TargetStatus :=
  match tgts !! name with
  | None => MkTargetStatus name KindNone false None 0 None ""
  | Some ts =>
      MkTargetStatus name ts.(kind) ts.(ts_warm) (Some ts.(ts_state)) ts.(consecutiveOK)
        (if IsZero ts.(lastProbe) then None else Some ts.(lastProbe)) ts.(lastError)
  end.

(** A probe to run, as [dueProbes] hands it to its goroutine. *)
Record probeJob := MkProbeJob {
  j_target : string;
  j_cfg : ModelConfig;
  j_kind : Kind;
  j_warm : bool;
  j_inference : bool;
  j_timeout : Z;
}.

Section Sync.
Context `{Env}.

Abbreviation MM := (M Manager).

Definition statusLocked (name : string) : MM ChainStatus :=
  ch ← deref_chain name;
  act ← index ch.(ch_targets) ch.(active);
  m ← get;
  mret (MkChainStatus ch.(ch_name) ch.(ch_state) act ch.(activeSince)
          (if String.eqb ch.(pinned) "" then None else Some ch.(pinned))
          (map (target_status m.(targets)) ch.(ch_targets))).

Definition Status : MM (list ChainStatus) :=
  _ ← syncLocked;
  ks ← range chains;
  out ← collect (sort_strings ks) (λ name, cs ← statusLocked name; mret [cs]);
  _ ← unlockAndFlush;
  mret out.

Definition ChainStatus_ (name : string) : MM (option ChainStatus) :=
  found ← chainLocked name;
  r ← (if negb found then mret None else cs ← statusLocked name; mret (Some cs));
  _ ← unlockAndFlush;
  mret r.

(** ** Subscriptions *)

(** The subscriber's number, or [None] when the manager is closed and the
    channel comes back closed.  A negative size panics. *)
Definition Subscribe (buf : Z) : MM (option Z) :=
  if (buf <? 0)%Z then panic else
  m ← get;
  if m.(closed) then mret None
  else
    let id := m.(nextSub) in
    _ ← modify (λ m, set_subs (<[id := MkChannel buf []]> m.(subs)) (set_nextSub (wrap64 (id + 1)) m));
    mret (Some id).

(** The cancel function. *)
Definition Unsubscribe (id : Z) : MM unit := modify (λ m, set_subs (delete id m.(subs)) m).

(** The subscriber takes the oldest event. *)
Definition Receive (id : Z) : MM (option Event) :=
  m ← get;
  match m.(subs) !! id with
  | Some (MkChannel cap (ev :: rest)) =>
      _ ← modify (λ m, set_subs (<[id := MkChannel cap rest]> m.(subs)) m); mret (Some ev)
  | _ => mret None
  end.

Definition close : MM unit := modify (λ m, set_subs ∅ (set_closed true m)).

(** ** State shared between frontends *)

(** The body of [ApplyPin] between the lock and the deferred unlock. *)
Definition apply_pin_locked (chain target : string) : MM unit :=
  _ ← modify (λ m, set_pins (if String.eqb target "" then delete chain m.(pins)
                             else <[chain := target]> m.(pins)) m);
  found ← chainLocked chain;
  if negb found then mret tt else
  ch ← deref_chain chain;
  if negb (String.eqb target "") && negb (target in? ch.(ch_targets)) then mret tt
  else if String.eqb ch.(pinned) target then mret tt
  else _ ← upd_chain chain (set_pinned target); recomputeLocked chain ReasonManual.

Definition ApplyPin (chain target : string) : MM unit :=
  _ ← apply_pin_locked chain target; unlockAndFlush.

Definition apply_target_locked (s : TargetSnapshot) : MM unit :=
  m ← get;
  if negb (String.eqb s.(snap_Origin) "") && String.eqb s.(snap_Origin) m.(id) then mret tt else
  found ← targetLocked s.(snap_Target);
  if negb found then mret tt else
  ts ← deref_target s.(snap_Target);
  if is_missing ts.(ts_state) || is_missing s.(snap_State) then mret tt
  else if bool_decide (ts.(ts_state) = s.(snap_State)) then mret tt
  else
    let name := s.(snap_Target) in
    _ ← modify (set_applying true);
    _ ← setTargetLocked name s.(snap_State) s.(snap_Reason) s.(snap_Error);
    _ ← modify (set_applying false);
    _ ← when (negb (IsZero s.(snap_Since)))
          (upd_target name (λ ts,
             let ts := set_since s.(snap_Since) ts in
             match s.(snap_State) with StateDown => set_downSince s.(snap_Since) ts | _ => ts end));
    _ ← upd_target name (λ ts,
          let ts := set_consecutiveOK s.(snap_ConsecutiveOK) ts in
          if String.eqb s.(snap_Error) "" then ts else set_lastError s.(snap_Error) ts);
    recomputeForLocked ts.(ts_name).

Definition ApplyTarget (s : TargetSnapshot) : MM unit :=
  _ ← apply_target_locked s; unlockAndFlush.

Definition apply_chain_locked (s : ChainSnapshot) : MM unit :=
  m ← get;
  if m.(leader) then mret tt else
  found ← chainLocked s.(snap_Chain);
  if negb found then mret tt else
  ch ← deref_chain s.(snap_Chain);
  let next := Index ch.(ch_targets) s.(snap_Active) 0 in
  if (next <? 0)%Z then mret tt
  else
    let prev := ch.(active) in
    let changed := negb (next =? prev)%Z || negb (bool_decide (s.(snap_ChainState) = ch.(ch_state))) in
    _ ← upd_chain s.(snap_Chain) (λ ch,
          set_adopted true (set_ch_state s.(snap_ChainState)
            (set_activeSince s.(snap_ActiveSince) (set_active next ch))));
    if changed then
      from ← index ch.(ch_targets) prev;
      to ← index ch.(ch_targets) next;
      now ← Now;
      emitLocked (MkEvent EventChainSwitched ch.(ch_name) "" from to
        (ChainState_string s.(snap_ChainState)) s.(snap_ChainReason) "" now)
    else mret tt.

Definition ApplyChain (s : ChainSnapshot) : MM unit :=
  _ ← apply_chain_locked s; unlockAndFlush.

Definition SetLeaderGate (g : bool) : MM unit :=
  modify (λ m, set_leader (negb g) (set_has_gate g m)).

(** Three critical sections: the sync layer is read, the stale pins are found,
    and each pin is applied in its own. *)
Definition ReconcilePins : MM unit :=
  m ← get;
  if negb m.(has_sync) then mret tt else
  want ← ask Pins_at;
  m ← get;
  ks ← range pins;
  let stale := List.filter (λ chain, negb (bool_decide (is_Some (want !! chain)))) ks in
  _ ← for_each stale (λ chain, ApplyPin chain "");
  ws ← ask (λ n, range_order n (map fst (map_to_list want)));
  for_each ws (λ chain, match want !! chain with
                        | Some target => ApplyPin chain target
                        | None => mret tt
                        end).

Definition SetStateSync (s : bool) : MM unit :=
  _ ← modify (set_has_sync s); if s then ReconcilePins else mret tt.

Definition IsLeader : MM bool := gets leader.

Definition Republish : MM unit :=
  m ← get;
  _ ← (if negb m.(has_sync) || negb m.(leader) then mret tt
       else
         ks ← range targets;
         _ ← for_each ks (λ name,
               ts ← deref_target name;
               m ← get;
               if is_missing ts.(ts_state) then mret tt
               else queue (PublishTarget (targetSnapshotLocked m ts)));
         cs ← range chains;
         for_each cs (λ name, queuePublishChainLocked name ReasonInitial));
  unlockAndFlush.

(** ** Pins *)

Definition rollbackPin (chain applied prev : string) : MM unit :=
  m ← get;
  if String.eqb (default "" (m.(pins) !! chain)) applied then ApplyPin chain prev else mret tt.

(** The critical section of [Pin]: the previous pin, or the error. *)
Definition pin_locked (chain target : string) : MM (string + ManagerError) :=
  found ← chainLocked chain;
  if negb found then mret (inr (ErrChainNotFound chain)) else
  ch ← deref_chain chain;
  if negb (target in? ch.(ch_targets)) then mret (inr (ErrTargetNotInChain target)) else
  m ← get;
  let prev := default "" (m.(pins) !! chain) in
  _ ← upd_chain chain (set_pinned target);
  _ ← modify (λ m, set_pins (<[chain := target]> m.(pins)) m);
  _ ← recomputeLocked chain ReasonManual;
  mret (inl prev).

Definition Pin (chain target : string) : MM (option ManagerError) :=
  r ← pin_locked chain target;
  m ← get;
  let s := m.(has_sync) in
  _ ← unlockAndFlush;
  match r with
  | inr e => mret (Some e)
  | inl prev =>
      if negb s then mret None else
      err ← ask (λ n, SetPin_at n chain target);
      match err with
      | None => mret None
      | Some msg => _ ← rollbackPin chain target prev; mret (Some (ErrSync msg))
      end
  end.

Definition unpin_locked (chain : string) : MM (string + ManagerError) :=
  found ← chainLocked chain;
  if negb found then mret (inr (ErrChainNotFound chain)) else
  m ← get;
  let prev := default "" (m.(pins) !! chain) in
  _ ← upd_chain chain (set_pinned "");
  _ ← modify (λ m, set_pins (delete chain m.(pins)) m);
  _ ← recomputeLocked chain ReasonManual;
  mret (inl prev).

Definition Unpin (chain : string) : MM (option ManagerError) :=
  r ← unpin_locked chain;
  m ← get;
  let s := m.(has_sync) in
  _ ← unlockAndFlush;
  match r with
  | inr e => mret (Some e)
  | inl prev =>
      if negb s then mret None else
      err ← ask (λ n, ClearPin_at n chain);
      match err with
      | None => mret None
      | Some msg => _ ← rollbackPin chain "" prev; mret (Some (ErrSync msg))
      end
  end.

(** ** The scheduler *)

(** Whether a target is due: [None] skips it, otherwise whether the probe is
    an inference.  A cold target that has been down long enough is made
    healthy without a probe. *)
Definition due_state (now : Z) (name : string) : MM (option bool) :=
  ts ← deref_target name;
  let interval := ProbeInterval ts.(params) in
  match ts.(ts_state) with
  | StateMissing => mret None
  | StateHealthy =>
      if (Sub now ts.(lastActivity) <? interval)%Z || (Sub now ts.(lastProbe) <? interval)%Z
      then mret None else mret (Some false)
  | StateDown =>
      if cold ts then
        _ ← when (MinDwell ts.(params) <=? Sub now ts.(downSince))%Z
              (_ ← setTargetLocked name StateHealthy ReasonRecovery "";
               recomputeForLocked ts.(ts_name));
        mret None
      else if (Sub now ts.(lastProbe) <? interval)%Z then mret None else mret (Some false)
  | StateRecovering =>
      if cold ts || (Sub now ts.(lastProbe) <? interval)%Z then mret None else mret (Some true)
  | StateOther _ => mret (Some false)
  end.

Definition due_probe (now : Z) (name : string) : MM (list probeJob) :=
  ts ← deref_target name;
  if ts.(probing) then mret [] else
  due ← due_state now name;
  match due with
  | None => mret []
  | Some inference =>
      m ← get;
      if negb m.(has_prober) then mret [] else
      c ← lookupTarget ts.(ts_name);
      match c with
      | None => mret []
      | Some cfg =>
          _ ← upd_target name (λ ts, set_probing true (set_lastProbe now ts));
          mret [MkProbeJob ts.(ts_name) cfg ts.(kind) ts.(ts_warm) inference (ProbeTimeout ts.(params))]
      end
  end.

Definition dueProbes : MM (list probeJob) :=
  now ← Now;
  ks ← range targets;
  jobs ← collect ks (due_probe now);
  _ ← unlockAndFlush;
  mret jobs.

Definition endProbe (target : string) : MM unit := upd_target target (set_probing false).

(** The tail of [applyProbe] for a passed probe. *)
Definition probe_passed (j : probeJob) (ts : targetState) : MM unit :=
  let name := j.(j_target) in
  _ ← match ts.(ts_state) with
      | StateHealthy => now ← Now; upd_target name (λ ts, set_failures [] (set_lastActivity now ts))
      | StateDown => setTargetLocked name StateRecovering ReasonRecovery ""
      | StateRecovering => when j.(j_inference) (recordPassLocked name)
      | _ => mret tt
      end;
  recomputeForLocked ts.(ts_name).

Definition apply_probe_locked (j : probeJob) (err : option GoError) : MM unit :=
  let name := j.(j_target) in
  m ← get;
  match m.(targets) !! name with
  | None => mret tt
  | Some ts =>
      _ ← upd_target name (set_probing false);
      if is_missing ts.(ts_state) then mret tt else
      match err with
      | None => probe_passed j ts
      | Some e =>
          if e.(is_ErrNotLoaded) then
            if bool_decide (ts.(ts_state) = StateRecovering) then
              now ← Now;
              when (MinDwell ts.(params) <=? Sub now ts.(downSince))%Z
                (_ ← setTargetLocked name StateHealthy ReasonRecovery ""; recomputeForLocked ts.(ts_name))
            else mret tt
          else
            _ ← (if bool_decide (ts.(ts_state) = StateDown)
                 then upd_target name (set_lastError e.(Error))
                 else recordFailureLocked name e.(Error));
            recomputeForLocked ts.(ts_name)
      end
  end.

Definition applyProbe (j : probeJob) (err : option GoError) : MM unit :=
  _ ← apply_probe_locked j err; unlockAndFlush.

(** A probe goroutine from the prober's answer on; what the manager does
    meanwhile comes before it. *)
Definition runProbe (j : probeJob) : MM unit :=
  err ← ask (λ n, if j.(j_inference) then Inference_at n j.(j_cfg) j.(j_kind) j.(j_warm)
                  else Liveness_at n j.(j_cfg) j.(j_kind) j.(j_warm));
  done_ ← ask ctx_done_at;
  if done_ : bool then endProbe j.(j_target) else applyProbe j err.

(** The leader's share of a tick; returns the probes whose goroutines start. *)
Definition lead : MM (list probeJob) :=
  m ← get;
  let became := negb m.(leader) in
  _ ← modify (set_leader true);
  _ ← when became (modify (set_warmPending true));
  w ← takeWarmLocked;
  _ ← unlockAndFlush;
  _ ← deliver w;
  _ ← when became Republish;
  jobs ← dueProbes;
  _ ← Reevaluate;
  mret jobs.

Definition Tick : MM (list probeJob) :=
  _ ← Sync;
  m ← get;
  if negb m.(has_gate) then lead else
  granted ← ask gate_at;
  if granted : bool then lead
  else _ ← modify (set_leader false); _ ← Reevaluate; mret [].

(** One wakeup of the loop of [Run] by the ticker. *)
Definition run_tick : MM (list probeJob) :=
  jobs ← Tick;
  m ← get;
  let n := wrap64 (m.(ticks) + 1) in
  _ ← modify (set_ticks n);
  _ ← when (Z.rem n 10 =? 0)%Z
        (_ ← ReconcilePins; l ← IsLeader; when l Republish);
  mret jobs.

End Sync.
