(* ===== verification/FailoverInv.v ===== *)
(** * FailoverInv: what a failover manager always satisfies

    The steps under the lock as equations on the state, the well-formedness
    that rules out every panic, and the serving invariant: a chain that
    decides for itself serves a healthy target whenever it has one. *)
From stdpp Require Import sorting.
From Stdlib Require Import Sorted.
From S2P Require Import Prelude GoMonad GoTime FailoverConfig FailoverClassify FailoverManager.

(** ** Indices *)

Lemma index_lookup {A} (l : list A) (i : Z) :
  (0 ≤ i < Z.of_nat (length l))%Z → ∃ a, l !! Z.to_nat i = Some a.
Proof. intros Hi. apply lookup_lt_is_Some_2. lia. Qed.

Lemma Index_range l x i : (0 ≤ i)%Z →
  (Index l x i = -1 ∧ x ∉ l)%Z ∨
  ((i ≤ Index l x i < i + Z.of_nat (length l))%Z ∧ l !! Z.to_nat (Index l x i - i) = Some x).
Proof.
  revert i. induction l as [|y l IH]; intros i Hi; simpl.
  { left. split; [done|apply not_elem_of_nil]. }
  destruct (String.eqb_spec y x) as [->|Hne].
  - right. split; [lia|]. by rewrite Z.sub_diag.
  - destruct (IH (i + 1)%Z) as [[-> Hn]|[Hr Hl]]; [lia| |].
    + left. split; [done|]. rewrite elem_of_cons. intros [->|?]; done.
    + right. split; [lia|].
      replace (Z.to_nat (Index l x (i + 1) - i)) with (S (Z.to_nat (Index l x (i + 1) - (i + 1)))) by lia.
      done.
Qed.

Lemma Index_elem l x : x ∈ l →
  (0 ≤ Index l x 0 < Z.of_nat (length l))%Z ∧ l !! Z.to_nat (Index l x 0) = Some x.
Proof.
  intros Hx. destruct (Index_range l x 0) as [[_ ?]|[Hr Hl]]; [done|done|].
  rewrite Z.sub_0_r in Hl. split; [lia|done].
Qed.

Lemma first_healthy_range tgts l i : (0 ≤ i)%Z →
  (first_healthy tgts l i = -1 ∧ ∀ x, x ∈ l → is_healthy tgts x = false)%Z ∨
  ((i ≤ first_healthy tgts l i < i + Z.of_nat (length l))%Z ∧
   (∃ x, l !! Z.to_nat (first_healthy tgts l i - i) = Some x ∧ is_healthy tgts x = true) ∧
   ∀ j x, (j < Z.to_nat (first_healthy tgts l i - i))%nat → l !! j = Some x → is_healthy tgts x = false).
Proof.
  revert i. induction l as [|y l IH]; intros i Hi; simpl.
  { left. split; [done|]. intros x Hx. by apply not_elem_of_nil in Hx. }
  destruct (is_healthy tgts y) eqn:Hy.
  - right. rewrite Z.sub_diag. split; [lia|]. split; [by exists y|]. intros j x Hj. lia.
  - destruct (IH (i + 1)%Z) as [[-> Hn]|(Hr & (x & Hl & Hx) & Hb)]; [lia| |].
    + left. split; [done|]. intros x [->|Hx]%elem_of_cons; auto.
    + right. split; [lia|].
      set (b := first_healthy tgts l (i + 1)) in *.
      replace (Z.to_nat (b - i)) with (S (Z.to_nat (b - (i + 1)))) by lia.
      split; [by exists x|]. intros [|j] z Hj Hz; [by simplify_eq/=|].
      apply (Hb j); [lia|done].
Qed.

(** ** Well-formedness *)

Definition chain_wf (k : string) (ch : chainState) : Prop :=
  ch.(ch_name) = k ∧ (0 ≤ ch.(active) < Z.of_nat (length ch.(ch_targets)))%Z ∧
  (ch.(pinned) = "" ∨ ch.(pinned) ∈ ch.(ch_targets)).

Definition target_wf (k : string) (ts : targetState) : Prop := ts.(ts_name) = k.

Definition wf (m : Manager) : Prop :=
  map_Forall target_wf m.(targets) ∧ map_Forall chain_wf m.(chains).

(** ** Serving

    What a chain that is decided here serves: the pinned target, or a healthy
    one whenever there is one; and its state says which. *)
Definition serving_ok (tgts : gmap string targetState) (ch : chainState) : Prop :=
  ch.(adopted) = false →
  ch.(ch_state) = chain_state_of ch.(pinned) (first_healthy tgts ch.(ch_targets) 0) ch.(active) ∧
  if String.eqb ch.(pinned) ""
  then ∀ x, x ∈ ch.(ch_targets) → is_healthy tgts x = true →
       ∃ y, ch.(ch_targets) !! Z.to_nat ch.(active) = Some y ∧ is_healthy tgts y = true
  else ch.(active) = Index ch.(ch_targets) ch.(pinned) 0.

(** The fields an operation under the lock leaves alone. *)
Definition same_mode (m m' : Manager) : Prop :=
  m'.(id) = m.(id) ∧ m'.(has_sync) = m.(has_sync) ∧ m'.(has_gate) = m.(has_gate) ∧
  m'.(leader) = m.(leader) ∧ m'.(applying) = m.(applying) ∧ m'.(published) = m.(published) ∧
  m'.(has_prober) = m.(has_prober) ∧ m'.(has_onWarm) = m.(has_onWarm) ∧ m'.(ticks) = m.(ticks).

#[export] Instance same_mode_po : PreOrder same_mode.
Proof.
  split; unfold same_mode; [intros m; by split_and!|].
  intros m1 m2 m3 ??. destruct_and?. split_and!; congruence.
Qed.

(** The publishes and events only grow. *)
Definition adds (m m' : Manager) (evs : list Event) (pubs : list Publish) : Prop :=
  m'.(emitted) = m.(emitted) ++ evs ∧ m'.(pending) = m.(pending) ++ pubs.

(** Between operations: well-formed, and every chain serves what it should. *)
Definition inv (m : Manager) : Prop :=
  wf m ∧ map_Forall (λ _, serving_ok m.(targets)) m.(chains).

Lemma wp_ask {A} (q : nat → A) Q (m : Manager) :
  Q (q m.(calls)) (set_calls (S m.(calls)) m) → wp (ask q) Q m.
Proof. done. Qed.

(** [wp_step], and the manager's own straight-line operations. *)
Ltac mstep :=
  lazymatch goal with
  | |- wp Now _ _ => apply wp_ask
  | |- wp (ask _) _ _ => apply wp_ask
  | |- wp (upd_target _ _) _ _ => unfold upd_target; apply wp_modify
  | |- wp (upd_chain _ _) _ _ => unfold upd_chain; apply wp_modify
  | |- wp (queue _) _ _ => unfold queue; apply wp_modify
  | |- wp unlockAndFlush _ _ => unfold unlockAndFlush; apply wp_modify
  | |- _ => wp_step
  end; cbv beta.

Ltac msteps := repeat mstep.

(** The config source only holds chains with a target: [validateFailover]
    asks for two. *)
Class ValidConfigs `{Env} := {
  valid_targets : ∀ n c f, c ∈ GetAllModelsConfigs_at n → c.(Failover) = Some f → f.(Targets) ≠ [];
}.

Section Steps.
Context `{Env}.

(** ** The environment *)

Lemma wp_range {A} `{!EnvLaws} (f : Manager → gmap string A) Q m :
  (∀ ks, (∀ k, k ∈ ks ↔ is_Some (f m !! k)) → NoDup ks → Q ks (set_calls (S m.(calls)) m)) →
  wp (range f) Q m.
Proof.
  intros HQ. unfold range. do 2 wp_step. apply wp_ask.
  set (ks := map fst (map_to_list (f m))).
  assert (Hp : range_order m.(calls) ks ≡ₚ ks) by apply range_perm.
  apply HQ.
  - intros k. rewrite Hp. subst ks. rewrite list_elem_of_fmap. split.
    + intros ([k' x] & -> & Hx). apply elem_of_map_to_list in Hx. by exists x.
    + intros [x Hx]. exists (k, x). split; [done|]. by apply elem_of_map_to_list.
  - rewrite Hp. apply NoDup_fst_map_to_list.
Qed.

Lemma wp_deref_target name ts Q m :
  m.(targets) !! name = Some ts → Q ts m → wp (deref_target name) Q m.
Proof. intros Hts HQ. unfold deref_target. do 2 wp_step. by rewrite Hts. Qed.

Lemma wp_deref_chain name ch Q m :
  m.(chains) !! name = Some ch → Q ch m → wp (deref_chain name) Q m.
Proof. intros Hch HQ. unfold deref_chain. do 2 wp_step. by rewrite Hch. Qed.

(** ** Events and publishes *)

Definition emit_pure (ev : Event) (m : Manager) : Manager :=
  let m := if is_switch ev && (m.(leader) || negb m.(has_sync))
           then set_switches (m.(switches) ++ [ev]) m else m in
  set_emitted (m.(emitted) ++ [ev]) (set_subs (offer ev <$> m.(subs)) m).

Lemma wp_emit ev Q m : Q tt (emit_pure ev m) → wp (emitLocked ev) Q m.
Proof.
  intros HQ. unfold emitLocked. do 2 wp_step. wp_step.
  unfold emit_pure in HQ. wp_step; wp_step; by destruct (is_switch ev && _).
Qed.

Lemma emit_pure_frame ev m :
  same_mode m (emit_pure ev m) ∧ (emit_pure ev m).(targets) = m.(targets) ∧
  (emit_pure ev m).(chains) = m.(chains) ∧ (emit_pure ev m).(pins) = m.(pins) ∧
  adds m (emit_pure ev m) [ev] [].
Proof.
  unfold emit_pure, adds. destruct (is_switch ev && (leader m || negb (has_sync m))); simpl;
    rewrite app_nil_r; unfold same_mode; by split_and!.
Qed.

(** ** setTargetLocked *)

Definition target_event (now : Z) (ts : targetState) (to : TargetState) (reason msg : string) : Event :=
  MkEvent EventTargetState "" ts.(ts_name) (TargetState_string ts.(ts_state))
    (TargetState_string to) "" reason msg now.

(** What is shared of a target transition. *)
Definition target_pub (m : Manager) (from : TargetState) (ts' : targetState) : list Publish :=
  if negb m.(has_sync) || m.(applying) || is_missing ts'.(ts_state) || is_missing from then []
  else [PublishTarget (targetSnapshotLocked m ts')].

Definition target_step (m : Manager) (name : string) (ts : targetState) (to : TargetState)
    (reason msg : string) (m' : Manager) : Prop :=
  let now := clock_at m.(calls) in
  let ts' := enter_state now to reason ts in
  same_mode m m' ∧ m'.(chains) = m.(chains) ∧ m'.(pins) = m.(pins) ∧
  m'.(targets) = <[name := ts']> m.(targets) ∧
  adds m m' [target_event now ts to reason msg] (target_pub m ts.(ts_state) ts').

Lemma wp_setTarget name ts to reason msg Q m :
  m.(targets) !! name = Some ts →
  (ts.(ts_state) = to → Q tt m) →
  (ts.(ts_state) ≠ to → ∀ m', target_step m name ts to reason msg m' → Q tt m') →
  wp (setTargetLocked name to reason msg) Q m.
Proof.
  intros Hts Heq Hne. unfold setTargetLocked. wp_step. apply (wp_deref_target _ ts); [done|].
  case_bool_decide as Hto; [wp_step; auto|]. specialize (Hne Hto).
  do 5 mstep. apply wp_emit.
  fold (target_event (clock_at m.(calls)) ts to reason msg).
  set (ev := target_event _ _ _ _ _). set (m1 := set_targets _ _).
  destruct (emit_pure_frame ev m1) as (Hm & Ht & Hc & Hp & He1 & He2).
  set (m2 := emit_pure ev m1) in *. clearbody m2.
  set (ts' := enter_state (clock_at m.(calls)) to reason ts).
  assert (Ht2 : m2.(targets) = <[name := ts']> m.(targets)).
  { rewrite Ht. subst m1. simpl. by rewrite (alter_alt_Some _ _ _ _ Hts). }
  unfold queuePublishTargetLocked. wp_step.
  apply (wp_deref_target _ ts'); [rewrite Ht2; by rewrite lookup_insert_eq|].
  do 2 wp_step.
  assert (Hmm : same_mode m m2) by (etransitivity; [|exact Hm]; unfold same_mode; by split_and!).
  pose proof Hmm as (Hid & Hs & _ & _ & Ha & _).
  assert (Hsnap : targetSnapshotLocked m2 ts' = targetSnapshotLocked m ts')
    by (unfold targetSnapshotLocked; by rewrite Hid).
  rewrite Hs, Ha, Hsnap.
  assert (Hpub : target_pub m ts.(ts_state) ts' =
    if negb m.(has_sync) || m.(applying) || is_missing ts'.(ts_state) || is_missing ts.(ts_state)
    then [] else [PublishTarget (targetSnapshotLocked m ts')]) by done.
  mstep; rewrite H0 in Hpub; mstep; apply Hne; unfold target_step, adds; fold ts'; rewrite Hpub; simpl;
    split_and!; try done; rewrite ?Hc, ?Hp, ?He2; simpl; by rewrite ?app_nil_r.
Qed.

(** ** recomputeLocked *)

(** The decision without the panic of its index. *)
Definition decide_pure (tgts : gmap string targetState) (ch : chainState) (now : Z) : Z * string :=
  let best := first_healthy tgts ch.(ch_targets) 0 in
  let prev := ch.(active) in
  let curHealthy := match ch.(ch_targets) !! Z.to_nat prev with
                    | Some cur => is_healthy tgts cur
                    | None => false
                    end in
  if negb (String.eqb ch.(pinned) "") then (Index ch.(ch_targets) ch.(pinned) 0, ReasonManual)
  else if (best =? -1)%Z then (prev, ReasonTrip)
  else if (prev <? best)%Z then (best, ReasonTrip)
  else if (best <? prev)%Z then
    if negb curHealthy then (best, ReasonTrip)
    else if (MinDwell ch.(cfg) <=? Sub now ch.(activeSince))%Z then (best, ReasonRecovery)
    else (prev, ReasonTrip)
  else (prev, ReasonTrip).

Lemma wp_decide_active tgts ch now Q (m : Manager) k :
  chain_wf k ch →
  (Q (decide_pure tgts ch now) m : Prop) →
  wp (decide_active tgts ch now (first_healthy tgts ch.(ch_targets) 0)) Q m.
Proof.
  intros (_ & Ha & _). destruct (index_lookup ch.(ch_targets) ch.(active) Ha) as [cur Hcur].
  unfold decide_active, decide_pure. rewrite Hcur. intros HQ.
  destruct (negb (String.eqb ch.(pinned) "")); [done|].
  destruct (first_healthy tgts ch.(ch_targets) 0 =? -1)%Z; [done|].
  destruct (ch.(active) <? first_healthy tgts ch.(ch_targets) 0)%Z; [done|].
  destruct (first_healthy tgts ch.(ch_targets) 0 <? ch.(active))%Z; [|done].
  wp_step. apply (wp_index _ _ cur); [lia|done|].
  destruct (negb (is_healthy tgts cur)); [done|]. by destruct (MinDwell _ <=? _)%Z.
Qed.

(** The follower's early return. *)
Definition blocked (m : Manager) (ch : chainState) : bool :=
  m.(has_sync) && negb m.(leader) && ch.(adopted) && String.eqb ch.(pinned) "".

(** The chain after the decision. *)
Definition recomputed (tgts : gmap string targetState) (now : Z) (ch : chainState) : chainState :=
  let next := (decide_pure tgts ch now).1 in
  let best := first_healthy tgts ch.(ch_targets) 0 in
  set_ch_state (chain_state_of ch.(pinned) best next)
    (if (next =? ch.(active))%Z then ch else set_activeSince now (set_active next ch)).

(** The event of a recompute, if any: a switch, or entering or leaving the
    degraded state on the same target. *)
Definition recompute_events (tgts : gmap string targetState) (now : Z) (ch : chainState)
    (override : string) : list Event :=
  let '(next, reason) := decide_pure tgts ch now in
  let state := chain_state_of ch.(pinned) (first_healthy tgts ch.(ch_targets) 0) next in
  let ev reason :=
    [MkEvent EventChainSwitched ch.(ch_name) ""
       (default "" (ch.(ch_targets) !! Z.to_nat ch.(active)))
       (default "" (ch.(ch_targets) !! Z.to_nat next)) (ChainState_string state) reason "" now] in
  if negb (next =? ch.(active))%Z then ev (if String.eqb override "" then reason else override)
  else if is_degraded state && negb (is_degraded ch.(ch_state)) then ev ReasonDegraded
  else if negb (is_degraded state) && is_degraded ch.(ch_state) then ev ReasonRecovery
  else [].

(** The chain snapshots it shares: the leader's, when something changed. *)
Definition recompute_pubs (m : Manager) (now : Z) (ch : chainState) (override : string) : list Publish :=
  let '(next, reason) := decide_pure m.(targets) ch now in
  let ch' := recomputed m.(targets) now ch in
  if negb m.(has_sync) || negb m.(leader) ||
     ((next =? ch.(active))%Z && bool_decide (ch'.(ch_state) = ch.(ch_state))) then []
  else [PublishChain (MkChainSnapshot ch.(ch_name) (default "" (ch.(ch_targets) !! Z.to_nat ch'.(active)))
          ch'.(activeSince) ch'.(ch_state)
          (if (next =? ch.(active))%Z
           then if is_degraded ch'.(ch_state) then ReasonDegraded else ReasonRecovery
           else if String.eqb override "" then reason else override))].

Definition chain_step (m : Manager) (name : string) (ch : chainState) (override : string)
    (m' : Manager) : Prop :=
  let now := clock_at m.(calls) in
  same_mode m m' ∧ m'.(targets) = m.(targets) ∧ m'.(pins) = m.(pins) ∧
  m'.(chains) = <[name := recomputed m.(targets) now ch]> m.(chains) ∧
  adds m m' (recompute_events m.(targets) now ch override) (recompute_pubs m now ch override).

Lemma decide_pure_range tgts ch now k :
  chain_wf k ch → (0 ≤ (decide_pure tgts ch now).1 < Z.of_nat (length ch.(ch_targets)))%Z.
Proof.
  intros (_ & Ha & Hp). unfold decide_pure.
  destruct (first_healthy_range tgts ch.(ch_targets) 0) as [[-> _]|(Hr & _)]; [done| |].
  all: destruct (String.eqb_spec ch.(pinned) "") as [|Hne]; simpl;
    [|destruct Hp as [|Hp]; [done|]; by apply Index_elem in Hp as [??]].
  - done.
  - repeat case_match; simpl; lia.
Qed.

Lemma wp_emit_switch name tgts prev next state reason now Q m :
  (0 ≤ prev < Z.of_nat (length tgts))%Z → (0 ≤ next < Z.of_nat (length tgts))%Z →
  Q tt (emit_pure (MkEvent EventChainSwitched name "" (default "" (tgts !! Z.to_nat prev))
          (default "" (tgts !! Z.to_nat next)) (ChainState_string state) reason "" now) m) →
  wp (emit_switch name tgts prev next state reason now) Q m.
Proof.
  intros Hp Hn HQ. unfold emit_switch.
  destruct (index_lookup tgts prev Hp) as [p Hpl], (index_lookup tgts next Hn) as [n Hnl].
  rewrite Hpl, Hnl in HQ.
  mstep. apply (wp_index _ _ p); [lia|done|]. mstep. apply (wp_index _ _ n); [lia|done|].
  by apply wp_emit.
Qed.

(** What [queuePublishChainLocked] adds. *)
Lemma wp_queue_chain name ch reason Q m :
  m.(chains) !! name = Some ch → chain_wf name ch →
  (∀ m', same_mode m m' → m'.(targets) = m.(targets) → m'.(chains) = m.(chains) →
     m'.(pins) = m.(pins) →
     adds m m' [] (if negb m.(has_sync) || negb m.(leader) then []
                   else [PublishChain (MkChainSnapshot ch.(ch_name)
                          (default "" (ch.(ch_targets) !! Z.to_nat ch.(active)))
                          ch.(activeSince) ch.(ch_state) reason)]) → Q tt m') →
  wp (queuePublishChainLocked name reason) Q m.
Proof.
  intros Hch (_ & Ha & _) HQ. unfold queuePublishChainLocked, chainSnapshotLocked.
  mstep. apply (wp_deref_chain _ ch); [done|]. do 2 mstep.
  destruct (negb m.(has_sync) || negb m.(leader)).
  - mstep. apply HQ; try done. split; by rewrite app_nil_r.
  - destruct (index_lookup _ _ Ha) as [a Hl]. rewrite Hl in HQ.
    do 2 mstep. apply (wp_index _ _ a); [lia|done|]. do 2 mstep.
    apply HQ; try done; unfold same_mode, adds; simpl; rewrite ?app_nil_r; by split_and!.
Qed.

(** The state between the switch of [recomputeLocked] and the assignment of
    [ch.state]. *)
Definition mid_step (m : Manager) (name : string) (ch1 : chainState) (evs : list Event) (m2 : Manager) : Prop :=
  same_mode m m2 ∧ m2.(targets) = m.(targets) ∧ m2.(pins) = m.(pins) ∧
  m2.(chains) = <[name := ch1]> m.(chains) ∧ adds m m2 evs [].

Lemma mid_step_emit m m1 name ch1 ev :
  mid_step m name ch1 [] m1 → mid_step m name ch1 [ev] (emit_pure ev m1).
Proof.
  intros (H1 & H2 & H3 & H4 & H5 & H6).
  destruct (emit_pure_frame ev m1) as (G1 & G2 & G3 & G4 & G5 & G6).
  split; [by etransitivity|]. rewrite G2, G3, G4. split_and!; try done.
  split; [by rewrite G5, H5, app_nil_r|by rewrite G6, app_nil_r].
Qed.

Lemma wp_recompute_tail name ch1 state evs changed reason m m2 Q :
  mid_step m name ch1 evs m2 → chain_wf name (set_ch_state state ch1) →
  (∀ m', same_mode m m' → m'.(targets) = m.(targets) → m'.(pins) = m.(pins) →
     m'.(chains) = <[name := set_ch_state state ch1]> m.(chains) →
     adds m m' evs (if negb m.(has_sync) || negb m.(leader) || negb changed then []
                   else [PublishChain (MkChainSnapshot ch1.(ch_name)
                          (default "" (ch1.(ch_targets) !! Z.to_nat ch1.(active)))
                          ch1.(activeSince) state reason)]) → Q tt m') →
  wp (_ ← upd_chain name (set_ch_state state); when changed (queuePublishChainLocked name reason)) Q m2.
Proof.
  intros (H1 & H2 & H3 & H4 & H5 & H6) Hwf HQ. do 2 mstep. set (m3 := set_chains _ m2).
  assert (Hc3 : m3.(chains) = <[name := set_ch_state state ch1]> m.(chains)).
  { subst m3. simpl. rewrite H4.
    rewrite (alter_alt_Some _ _ name ch1) by apply lookup_insert_eq. by rewrite insert_insert_eq. }
  rewrite app_nil_r in H6.
  assert (Hm3 : same_mode m m3) by (etransitivity; [exact H1|]; unfold same_mode; by split_and!).
  mstep.
  - apply (wp_queue_chain _ (set_ch_state state ch1)); [by rewrite Hc3; apply lookup_insert_eq|done|].
    intros m' G1 G2 G3 G4 [G5 G6]. apply HQ; [by etransitivity|by rewrite G2|by rewrite G4|by rewrite G3|].
    destruct Hm3 as (_ & Hs & _ & Hl & _). rewrite Hs, Hl in G6.
    split; [by rewrite G5, app_nil_r|]. rewrite G6. simpl. rewrite H6. f_equal.
    subst changed. by rewrite orb_false_r.
  - apply HQ; try done. split; [done|]. subst changed. simpl. by rewrite orb_true_r, app_nil_r.
Qed.

Lemma wp_recompute name override ch Q m :
  m.(chains) !! name = Some ch → chain_wf name ch →
  (blocked m ch = true → Q tt m) →
  (blocked m ch = false → ∀ m', chain_step m name ch override m' → Q tt m') →
  wp (recomputeLocked name override) Q m.
Proof.
  intros Hch Hwf Hb Hnb. unfold recomputeLocked.
  mstep. apply (wp_deref_chain _ ch); [done|]. do 2 mstep.
  fold (blocked m ch). destruct (blocked m ch); [mstep; auto|]. specialize (Hnb eq_refl).
  do 2 mstep. mstep. apply (wp_decide_active _ _ _ _ _ name); [done|].
  set (now := clock_at m.(calls)). set (m1 := set_calls (S m.(calls)) m).
  pose proof (decide_pure_range m.(targets) ch now name Hwf) as Hnext.
  unfold chain_step in Hnb. fold now in Hnb.
  unfold recompute_events, recompute_pubs, recomputed in Hnb.
  destruct (decide_pure m.(targets) ch now) as [next reason]; simpl in Hnext, Hnb.
  set (state := chain_state_of ch.(pinned) _ next) in *.
  destruct Hwf as (Hname & Hact & Hpin).
  assert (Hm1 : mid_step m name ch [] m1).
  { unfold mid_step, adds, same_mode. rewrite insert_id by done. simpl. rewrite !app_nil_r. by split_and!. }
  mstep. destruct (next =? ch.(active))%Z eqn:Hn; cbn [negb orb andb].
  - assert (Hwf : chain_wf name (set_ch_state state ch)) by (split; [done|by split]).
    destruct (is_degraded state && negb (is_degraded ch.(ch_state))) eqn:Hd;
      [|destruct (negb (is_degraded state) && is_degraded ch.(ch_state)) eqn:Hd2; [|mstep]].
    1,2: apply wp_emit_switch; [done|lia|]; eapply wp_recompute_tail; [by apply mid_step_emit|done|].
    3: eapply wp_recompute_tail; [done|done|].
    all: intros m' G1 G2 G3 G4 G5; apply Hnb; split_and!; try done.
    all: simpl in G5 |- *; rewrite ?Hd, ?Hd2; by destruct (bool_decide (state = ch.(ch_state))).
  - mstep. mstep.
    set (ch1 := set_activeSince now (set_active next ch)).
    assert (Hwf : chain_wf name (set_ch_state state ch1)) by (split; [done|by split]).
    apply wp_emit_switch; [done|done|]. eapply wp_recompute_tail with (ch1 := ch1); [|done|].
    { apply mid_step_emit. unfold mid_step, adds, same_mode. simpl.
      rewrite (alter_alt_Some _ _ _ _ Hch), !app_nil_r. by split_and!. }
    intros m' G1 G2 G3 G4 G5. apply Hnb. simpl in G5 |- *. rewrite orb_false_r in G5 |- *. by split_and!.
Qed.

Lemma recomputed_wf tgts now k ch : chain_wf k ch → chain_wf k (recomputed tgts now ch).
Proof.
  intros Hwf. pose proof (decide_pure_range tgts ch now k Hwf) as Hn.
  destruct Hwf as (Hname & Ha & Hp). unfold recomputed.
  destruct (_ =? _)%Z; split; simpl; try done; by split.
Qed.

Lemma recomputed_serving tgts now k ch : chain_wf k ch → serving_ok tgts (recomputed tgts now ch).
Proof.
  intros (Hname & Ha & Hp) _. unfold recomputed.
  set (next := (decide_pure tgts ch now).1).
  assert (Hact : (if (next =? ch.(active))%Z then ch else set_activeSince now (set_active next ch)).(active)
                 = next) by (destruct (Z.eqb_spec next ch.(active)); simpl; lia).
  split.
  { simpl. rewrite Hact. by destruct (next =? ch.(active))%Z. }
  replace ((set_ch_state _ _).(active)) with next by (symmetry; exact Hact).
  replace ((set_ch_state _ _).(ch_targets)) with ch.(ch_targets) by (by destruct (next =? ch.(active))%Z).
  replace ((set_ch_state _ _).(pinned)) with ch.(pinned) by (by destruct (next =? ch.(active))%Z).
  clear Hact. subst next. unfold decide_pure.
  destruct (String.eqb_spec ch.(pinned) "") as [Hpin|Hpin]; simpl; [|done].
  destruct (first_healthy_range tgts ch.(ch_targets) 0) as [[-> Hn]|(Hr & (y & Hy & Hyh) & _)]; [done| |].
  { intros x Hx Hxh. rewrite Hn in Hxh; done. }
  rewrite Z.sub_0_r in Hy. intros x _ _. set (best := first_healthy tgts ch.(ch_targets) 0) in *.
  replace (best =? -1)%Z with false by lia.
  destruct (Z.ltb_spec ch.(active) best); [by exists y|].
  destruct (Z.ltb_spec best ch.(active)).
  - destruct (index_lookup ch.(ch_targets) ch.(active) Ha) as [cur Hcur]. rewrite Hcur.
    destruct (is_healthy tgts cur) eqn:Hh; simpl; [|by exists y].
    destruct (MinDwell _ <=? _)%Z; simpl; [by exists y|by exists cur].
  - simpl. replace ch.(active) with best by lia. by exists y.
Qed.

Lemma blocked_serving m ch : blocked m ch = true → serving_ok m.(targets) ch.
Proof. unfold blocked, serving_ok. intros Hb Ha. rewrite Ha in Hb. by rewrite !andb_false_r in Hb. Qed.

(** ** Recomputing several chains *)

(** [l] is what is left of the keys; a chain already visited, or not
    selected, serves what it should. *)
Definition loop_inv (m0 : Manager) (sel : list string → bool) (l : list string) (m : Manager) : Prop :=
  wf m ∧ same_mode m0 m ∧ m.(targets) = m0.(targets) ∧ m.(pins) = m0.(pins) ∧
  (∀ k, k ∈ l → is_Some (m.(chains) !! k)) ∧
  (∀ k ch, m.(chains) !! k = Some ch → k ∉ l ∨ sel ch.(ch_targets) = false → serving_ok m.(targets) ch).

Lemma loop_inv_skip m0 sel k l m ch :
  loop_inv m0 sel (k :: l) m → m.(chains) !! k = Some ch →
  sel ch.(ch_targets) = false ∨ serving_ok m.(targets) ch → loop_inv m0 sel l m.
Proof.
  intros (H1 & H2 & H3 & H4 & H5 & H6) Hch Hs. split_and!; try done.
  - intros k' Hk'. apply H5. by right.
  - intros k' ch' Hch' Hor. destruct (decide (k' = k)) as [->|Hne].
    + simplify_eq. destruct Hs; [|done]. eapply H6; eauto.
    + eapply H6; [done|]. destruct Hor; [left|by right]. by rewrite not_elem_of_cons.
Qed.

Lemma loop_inv_step m0 sel k l m ch ov m' :
  loop_inv m0 sel (k :: l) m → m.(chains) !! k = Some ch → chain_step m k ch ov m' →
  loop_inv m0 sel l m'.
Proof.
  intros ((Hwt & Hwc) & H2 & H3 & H4 & H5 & H6) Hch (G1 & G2 & G3 & G4 & _).
  assert (Hcw : chain_wf k ch) by (by apply Hwc).
  split_and!.
  - split; [by rewrite G2|]. rewrite G4. apply map_Forall_insert_2; [by apply recomputed_wf|done].
  - by etransitivity.
  - by rewrite G2.
  - by rewrite G3.
  - intros k' Hk'. rewrite G4, lookup_insert_is_Some'. right. apply H5. by right.
  - intros k' ch'. rewrite G4, G2, lookup_insert_Some. intros [[<- <-]|[Hne Hch']] Hor.
    + by eapply recomputed_serving.
    + eapply H6; [done|]. destruct Hor; [left|by right]. by rewrite not_elem_of_cons.
Qed.

Lemma loop_inv_done m0 sel m : loop_inv m0 sel [] m → inv m.
Proof.
  intros (H1 & _ & _ & _ & _ & H6). split; [done|]. intros k ch Hch. eapply H6; [done|].
  left. apply not_elem_of_nil.
Qed.

Lemma wp_recompute_all ks Q m :
  wf m → (∀ k, k ∈ ks ↔ is_Some (m.(chains) !! k)) →
  (∀ m', inv m' → same_mode m m' → m'.(targets) = m.(targets) → m'.(pins) = m.(pins) → Q tt m') →
  wp (for_each ks (λ name, recomputeLocked name "")) Q m.
Proof.
  intros Hwf Hks HQ.
  apply (wp_for_each (loop_inv m (λ _, true))).
  - split_and!; try done; [intros k; by rewrite Hks|].
    intros k ch Hch [Hk|]; [|done]. exfalso. apply Hk, Hks. eauto.
  - intros k l m1 HI. pose proof HI as ((_ & Hwc) & _ & _ & _ & H5 & _).
    destruct (H5 k) as [ch Hch]; [by left|].
    apply (wp_recompute _ _ ch); [done|by apply Hwc| |].
    + intros Hb. eapply loop_inv_skip; eauto using blocked_serving.
    + intros _ m' Hstep. by eapply loop_inv_step.
  - intros m' HI. pose proof HI as (_ & ? & ? & ? & _). apply HQ; try done. by eapply loop_inv_done.
Qed.

Lemma wp_recomputeFor `{!EnvLaws} target Q m :
  wf m →
  (∀ k ch, m.(chains) !! k = Some ch → target ∉ ch.(ch_targets) → serving_ok m.(targets) ch) →
  (∀ m', inv m' → same_mode m m' → m'.(targets) = m.(targets) → m'.(pins) = m.(pins) → Q tt m') →
  wp (recomputeForLocked target) Q m.
Proof.
  intros Hwf Hserve HQ. unfold recomputeForLocked. mstep. apply wp_range. intros ks Hks _.
  set (m0 := set_calls _ m).
  apply (wp_for_each (loop_inv m0 (λ l, target in? l))).
  - split_and!; try done; [intros k; by rewrite Hks|].
    intros k ch Hch [Hk|Hsel]; [exfalso; apply Hk, Hks; eauto|].
    apply (Hserve k); [done|]. by apply bool_decide_eq_false in Hsel.
  - intros k l m1 HI. pose proof HI as ((_ & Hwc) & _ & _ & _ & H5 & _).
    destruct (H5 k) as [ch Hch]; [by left|].
    mstep. apply (wp_deref_chain _ ch); [done|]. mstep; [|by eapply loop_inv_skip; eauto].
    apply (wp_recompute _ _ ch); [done|by apply Hwc| |].
    + intros Hb. eapply loop_inv_skip; eauto using blocked_serving.
    + intros _ m' Hstep. by eapply loop_inv_step.
  - intros m' HI. pose proof HI as (_ & ? & ? & ? & _). apply HQ; try done. by eapply loop_inv_done.
Qed.

(** ** Changing one target *)

Lemma first_healthy_ext t1 t2 l i :
  (∀ x, x ∈ l → is_healthy t1 x = is_healthy t2 x) → first_healthy t1 l i = first_healthy t2 l i.
Proof.
  revert i. induction l as [|y l IH]; intros i Hx; simpl; [done|].
  rewrite (Hx y) by (by left). destruct (is_healthy t2 y); [done|].
  apply IH. intros x Hin. apply Hx. by right.
Qed.

Lemma serving_ok_ext t1 t2 ch :
  (∀ x, x ∈ ch.(ch_targets) → is_healthy t1 x = is_healthy t2 x) →
  serving_ok t1 ch → serving_ok t2 ch.
Proof.
  intros Hx Hs Ha. destruct (Hs Ha) as [H1 H2]. split.
  - by rewrite H1, (first_healthy_ext t1 t2).
  - destruct (String.eqb ch.(pinned) ""); [|done]. intros x Hin Hh.
    destruct (H2 x Hin) as (y & Hy & Hyh); [by rewrite Hx|].
    exists y. split; [done|]. rewrite <-Hx; [done|]. by eapply list_elem_of_lookup_2.
Qed.

Lemma is_healthy_insert_ne tgts name ts x :
  x ≠ name → is_healthy (<[name := ts]> tgts) x = is_healthy tgts x.
Proof. intros Hne. unfold is_healthy. by rewrite lookup_insert_ne. Qed.

(** The invariant but for the chains that list [name]. *)
Definition inv_except (name : string) (m : Manager) : Prop :=
  wf m ∧ ∀ k ch, m.(chains) !! k = Some ch → name ∉ ch.(ch_targets) → serving_ok m.(targets) ch.

Lemma inv_inv_except name m : inv m → inv_except name m.
Proof. intros [H1 H2]. split; [done|]. intros k ch Hch _. by eapply H2. Qed.

Lemma inv_except_insert name m m' ts :
  inv_except name m → m'.(chains) = m.(chains) → m'.(targets) = <[name := ts]> m.(targets) →
  ts.(ts_name) = name → inv_except name m'.
Proof.
  intros [[Hwt Hwc] Hs] Hc Ht Hn. unfold inv_except, wf. rewrite Hc, Ht. split_and!.
  - by apply map_Forall_insert_2.
  - done.
  - intros k ch Hch Hni. eapply serving_ok_ext; [|by eapply Hs].
    intros x Hx. rewrite is_healthy_insert_ne; [done|]. intros ->. done.
Qed.

(** An assignment to fields of a target. *)
Lemma wp_upd_target name f ts Q m :
  inv_except name m → m.(targets) !! name = Some ts → (f ts).(ts_name) = ts.(ts_name) →
  (∀ m', inv_except name m' → same_mode m m' → m'.(targets) !! name = Some (f ts) →
     m'.(chains) = m.(chains) → m'.(pins) = m.(pins) → Q tt m') →
  wp (upd_target name f) Q m.
Proof.
  intros HI Hts Hf HQ. mstep. pose proof HI as [[Hwt _] _]. specialize (Hwt name ts Hts).
  apply HQ; try done.
  - eapply (inv_except_insert _ _ _ (f ts)); [done|done| |by rewrite Hf].
    simpl. by apply alter_alt_Some.
  - simpl. rewrite (alter_alt_Some _ _ _ _ Hts). apply lookup_insert_eq.
Qed.

Lemma enter_state_name now to reason ts : (enter_state now to reason ts).(ts_name) = ts.(ts_name).
Proof. by destruct to. Qed.

Lemma enter_state_params now to reason ts : (enter_state now to reason ts).(params) = ts.(params).
Proof. by destruct to. Qed.

Lemma enter_state_state now to reason ts : (enter_state now to reason ts).(ts_state) = to.
Proof. by destruct to. Qed.

Lemma wp_setTarget_inv name to reason msg Q m ts :
  inv_except name m → m.(targets) !! name = Some ts →
  (∀ m' ts', inv_except name m' → same_mode m m' → m'.(targets) !! name = Some ts' →
     ts'.(ts_state) = to → ts'.(ts_name) = ts.(ts_name) → m'.(pins) = m.(pins) → Q tt m') →
  wp (setTargetLocked name to reason msg) Q m.
Proof.
  intros HI Hts HQ. apply (wp_setTarget _ ts); [done| |].
  - intros Heq. by eapply HQ.
  - intros Hne m' (G1 & G2 & G3 & G4 & _).
    pose proof HI as [[Hwt _] _]. specialize (Hwt name ts Hts).
    eapply HQ; [|done|by rewrite G4; apply lookup_insert_eq|by rewrite enter_state_state| |done].
    + eapply inv_except_insert; [done|done|done|]. by rewrite enter_state_name.
    + by rewrite enter_state_name.
Qed.

(** ** Reconciling with the config source *)

(** The state [syncLocked] works on: well-formed, the mode untouched, and
    with a sync layer no pin lost. *)
Definition keeps_pins (m0 m : Manager) : Prop := m0.(has_sync) = true → m.(pins) = m0.(pins).

Definition sync_inv (m0 m : Manager) : Prop := wf m ∧ same_mode m0 m ∧ keeps_pins m0 m.

(** The warm set: sorted, without repetition, the models serving the warm
    targets. *)
Definition warm_ok (m : Manager) : Prop :=
  NoDup m.(warm) ∧ Sorted (λ a b, String.leb a b = true) m.(warm) ∧
  ∀ x, x ∈ m.(warm) ↔ x ≠ "" ∧ ∃ k ts, m.(targets) !! k = Some ts ∧ ts.(ts_warm) = true ∧ ts.(serving) = x.

Lemma wf_insert_target m name ts :
  wf m → ts.(ts_name) = name → wf (set_targets (<[name := ts]> m.(targets)) m).
Proof. intros [H1 H2] Hn. split; [by apply map_Forall_insert_2|done]. Qed.

Lemma wf_alter_target m name f :
  wf m → (∀ ts, (f ts).(ts_name) = ts.(ts_name)) → wf (set_targets (alter f name m.(targets)) m).
Proof.
  intros [H1 H2] Hf. split; [|done]. intros k ts. simpl. rewrite lookup_alter_Some.
  intros [(<- & ts0 & Hts & ->)|[_ Hts]]; [|by apply H1].
  unfold target_wf. rewrite Hf. by apply H1.
Qed.

Lemma wp_lookupTarget name Q m :
  (∀ c m', same_mode m m' → m'.(targets) = m.(targets) → m'.(chains) = m.(chains) →
     m'.(pins) = m.(pins) → Q c m') →
  wp (lookupTarget name) Q m.
Proof.
  intros HQ. unfold lookupTarget. do 2 mstep.
  destruct (GetModelConfig_at _ name) as [c|]; [mstep|by mstep; apply HQ].
  - mstep. by apply HQ.
  - mstep. by apply HQ.
Qed.

Lemma sync_inv_step m0 m m' :
  sync_inv m0 m → wf m' → same_mode m m' → m'.(pins) = m.(pins) → sync_inv m0 m'.
Proof.
  intros (_ & Hm & Hp) Hwf Hm' Hp'. split; [done|]. split; [by etransitivity|].
  intros Hs. rewrite Hp'. by apply Hp.
Qed.

Lemma wp_setTarget_sync m0 name to reason msg Q m :
  sync_inv m0 m → is_Some (m.(targets) !! name) →
  (∀ m', sync_inv m0 m' → is_Some (m'.(targets) !! name) → Q tt m') →
  wp (setTargetLocked name to reason msg) Q m.
Proof.
  intros HI [ts Hts] HQ. pose proof HI as ([Hwt Hwc] & _).
  apply (wp_setTarget _ ts); [done|by intros; apply HQ|].
  intros _ m' (G1 & G2 & G3 & G4 & _). apply HQ.
  - eapply sync_inv_step; [done| |done|done]. split; [|by rewrite G2].
    rewrite G4. apply map_Forall_insert_2; [|done]. unfold target_wf.
    rewrite enter_state_name. by apply Hwt.
  - rewrite G4. by rewrite lookup_insert_eq.
Qed.

Lemma wf_insert_chain m cname ch ps :
  wf m → chain_wf cname ch → wf (set_chains (<[cname := ch]> m.(chains)) (set_pins ps m)).
Proof. intros [H1 H2] Hch. split; [done|]. by apply map_Forall_insert_2. Qed.

Lemma wp_sync_chain m0 now cname names Q m :
  sync_inv m0 m → names ≠ [] → (∀ m', sync_inv m0 m' → Q tt m') →
  wp (sync_chain now cname names) Q m.
Proof.
  intros HI Hne HQ. pose proof HI as (Hwf & _). unfold sync_chain. do 2 mstep.
  mstep; [by mstep; apply HQ|].
  assert (Hlen : (0 < Z.of_nat (length names))%Z) by (destruct names; simpl; [done|lia]).
  mstep. mstep.
  - mstep. mstep. apply HQ. eapply sync_inv_step; [done| |done|done].
    apply (wf_insert_chain m cname _ m.(pins)); [done|]. split; [done|]. split; [simpl; lia|].
    right. by bool_hyps.
  - mstep. mstep; [mstep|]; do 2 mstep; apply HQ.
    + destruct HI as (_ & Hm & Hp). split; [|split; [done|]].
      * apply (wf_insert_chain m cname); [done|]. split; [done|]. split; [simpl; lia|by left].
      * intros Hs. destruct Hm as (_ & Hs' & _). rewrite Hs in Hs'.
        match goal with E : negb _ = true |- _ => by rewrite Hs' in E end.
    + eapply sync_inv_step; [done| |done|done].
      apply (wf_insert_chain m cname _ m.(pins)); [done|]. split; [done|]. split; [simpl; lia|by left].
Qed.

(** The state while a target is being synced: it exists. *)
Definition sync_tgt (m0 : Manager) (name : string) {A} (_ : A) (m : Manager) : Prop :=
  sync_inv m0 m ∧ is_Some (m.(targets) !! name).

Lemma wp_sync_upd m0 name f m :
  sync_tgt m0 name tt m → (∀ ts, (f ts).(ts_name) = ts.(ts_name)) →
  wp (upd_target name f) (sync_tgt m0 name) m.
Proof.
  intros [HI Hs] Hf. mstep. split.
  - eapply sync_inv_step; [done| |done|done]. destruct HI. by apply wf_alter_target.
  - simpl. by rewrite lookup_alter_is_Some.
Qed.

Lemma wp_sync_target m0 f claimed t Q m :
  sync_inv m0 m → (∀ c m', sync_inv m0 m' → Q c m') → wp (sync_target f claimed t) Q m.
Proof.
  intros HI HQ. unfold sync_target. set (name := t.(ft_Model)). do 3 mstep.
  apply (wp_mono _ (sync_tgt m0 name)).
  { mstep.
    - mstep. split; [|simpl; by rewrite lookup_insert_eq].
      eapply sync_inv_step; [done| |done|done]. destruct HI. by apply wf_insert_target.
    - split; [done|]. by bool_hyps. }
  clear HI m. intros [] m HI. mstep.
  apply (wp_mono _ (sync_tgt m0 name)); [mstep; [by apply wp_sync_upd|done]|].
  clear HI m. intros [] m [HI Hsome]. mstep. apply wp_lookupTarget.
  intros c m1 G1 G2 G3 G4.
  assert (HI1 : sync_tgt m0 name tt m1).
  { split; [|by rewrite G2]. eapply sync_inv_step; [done| |done|done].
    destruct HI as [[Hw1 Hw2] _]. split; [by rewrite G2|by rewrite G3]. }
  clear HI Hsome G1 G2 G3 G4 m.
  destruct c as [tc|]; [destruct (IsFailover tc)|]; mstep.
  - destruct HI1. apply (wp_setTarget_sync m0); [done|done|]. intros m2 HI2 _. mstep. by apply HQ.
  - apply (wp_mono _ (sync_tgt m0 name)); [by apply wp_sync_upd|]. clear HI1 m1. intros [] m HI. mstep.
    apply (wp_mono _ (sync_tgt m0 name)); [mstep; [by apply wp_sync_upd|done]|].
    clear HI m. intros [] m [HI [ts Hts]].
    mstep. apply (wp_deref_target _ ts); [done|]. do 2 mstep.
    + apply (wp_setTarget_sync m0); [done|by exists ts|]. intros m2 HI2 _. mstep. by apply HQ.
    + mstep. by apply HQ.
  - destruct HI1. apply (wp_setTarget_sync m0); [done|done|]. intros m2 HI2 _. mstep. by apply HQ.
Qed.

Lemma wf_delete_chain m name ps :
  wf m → wf (set_pins ps (set_chains (delete name m.(chains)) m)).
Proof. intros [H1 H2]. split; [done|]. by apply map_Forall_delete. Qed.

Lemma wf_delete_target m name : wf m → wf (set_targets (delete name m.(targets)) m).
Proof. intros [H1 H2]. split; [|done]. by apply map_Forall_delete. Qed.

(** The warm set that the loop over the targets collects. *)
Definition warm_loop (m : Manager) (l : list string) (w : list string) : Prop :=
  NoDup w ∧ (∀ k, k ∈ l → is_Some (m.(targets) !! k)) ∧
  ∀ x, (x ≠ "" ∧ ∃ k ts, m.(targets) !! k = Some ts ∧ ts.(ts_warm) = true ∧ ts.(serving) = x) ↔
       x ∈ w ∨ (x ≠ "" ∧ ∃ k ts, k ∈ l ∧ m.(targets) !! k = Some ts ∧ ts.(ts_warm) = true ∧ ts.(serving) = x).

Lemma wp_collect_warm m l k w :
  warm_loop m (k :: l) w → wp (collect_warm w k) (λ w' m', warm_loop m l w' ∧ m' = m) m.
Proof.
  intros (Hnd & Hk & Hx). destruct (Hk k) as [ts Hts]; [by left|]. unfold collect_warm.
  mstep. apply (wp_deref_target _ ts); [done|]. mstep. split; [|done].
  assert (Hl : ∀ k', k' ∈ l → is_Some (m.(targets) !! k')) by (intros; apply Hk; by right).
  destruct (ts.(ts_warm) && negb (String.eqb ts.(serving) "") && negb (ts.(serving) in? w)) eqn:E.
  - bool_hyps. split; [|split; [done|]].
    + apply NoDup_app. split; [done|]. split; [|apply NoDup_singleton].
      intros x Hxw Hxs. apply list_elem_of_singleton in Hxs as ->. done.
    + intros x. rewrite Hx, elem_of_app, list_elem_of_singleton. setoid_rewrite elem_of_cons.
      split; [|by intros [[? | ->] | (? & k' & ts' & ? & ?)]; [by left|right; split; eauto 7|right; split; eauto 7]].
      intros [?|(? & k' & ts' & [->|?] & Ht & Hw & Hs)]; [by left; left| |by right; split; eauto 7].
      simplify_eq. by left; right.
  - split; [done|]. split; [done|]. intros x. rewrite Hx. setoid_rewrite elem_of_cons.
    split; [|by intros [?|(? & k' & ts' & ? & ?)]; [by left|right; split; eauto 7]].
    intros [?|(Hne & k' & ts' & [->|?] & Ht & Hw & Hs)]; [by left| |by right; split; eauto 7].
    simplify_eq. left. rewrite Hw in E. simpl in E.
    destruct (String.eqb_spec ts.(serving) ""); [done|]. simpl in E. by bool_hyps.
Qed.

Lemma sort_strings_sorted l :
  NoDup l → NoDup (sort_strings l) ∧ Sorted (λ a b, String.leb a b = true) (sort_strings l) ∧
  ∀ x, x ∈ sort_strings l ↔ x ∈ l.
Proof.
  intros Hnd. assert (Hp : sort_strings l ≡ₚ l) by apply merge_sort_Permutation.
  split; [by rewrite Hp|]. split; [|intros x; by rewrite Hp].
  assert (Htot : Total (λ a b, String.leb a b = true)) by (intros a b; apply String.leb_total).
  apply (Sorted_merge_sort (λ a b, String.leb a b = true)).
Qed.

Lemma wp_syncLocked `{!EnvLaws, !ValidConfigs} Q m :
  wf m → (∀ m', inv m' → same_mode m m' → keeps_pins m m' → warm_ok m' → Q tt m') →
  wp syncLocked Q m.
Proof.
  intros Hwf HQ. unfold syncLocked. do 4 mstep.
  set (m0 := set_calls _ _). assert (HI : sync_inv m m0) by done.
  set (n := S (calls m)) in *. clearbody m0. clear Hwf.
  mstep. apply (wp_for_acc (λ l _ m', (∀ c, c ∈ l → ∀ f, c.(Failover) = Some f → f.(Targets) ≠ []) ∧
                             sync_inv m m')).
  { split; [|done]. intros c Hc f Hf. by eapply valid_targets. }
  { intros c l [seen claimed] m1 [Hc HI1]. unfold sync_config.
    assert (Hl : ∀ c, c ∈ l → ∀ f, c.(Failover) = Some f → f.(Targets) ≠ [])
      by (intros; eapply Hc; [by right|done]).
    destruct c.(Failover) as [f|] eqn:Hf; [|by mstep].
    mstep. apply (wp_sync_chain m); [done| |].
    { intros Hnil. apply map_eq_nil in Hnil. revert Hnil. apply (Hc c); [by left|done]. }
    intros m2 HI2. do 2 mstep. mstep.
    apply (wp_for_acc (λ _ _, sync_inv m)).
    - eapply sync_inv_step; [done| |done|done]. destruct HI2 as [[Hw1 Hw2] _].
      split; [done|]. intros k ch. simpl. rewrite lookup_alter_Some.
      intros [(<- & ch0 & Hch & ->)|[_ Hch]]; [|by apply Hw2].
      destruct (Hw2 _ _ Hch) as (? & ? & ?). by split.
    - intros t l' b m3 HI3. by apply (wp_sync_target m).
    - intros b m3 HI3. mstep. done. }
  clear HI m0. intros [seen claimed] m1 [_ HI].
  mstep. apply wp_range. intros ks _ _. mstep.
  apply (wp_for_each (λ _, sync_inv m)); [done| |].
  { intros k l m2 HI2. mstep; [mstep|done]. destruct HI2 as (Hwf2 & Hm2 & Hp2).
    split; [by apply wf_delete_chain|]. split; [done|]. intros Hs. simpl.
    pose proof Hm2 as (_ & Hs2 & _). rewrite Hs2, Hs. by apply Hp2. }
  clear HI m1. intros m1 HI.
  mstep. apply wp_range. intros ks' _ _. mstep.
  apply (wp_for_each (λ _, sync_inv m)); [done| |].
  { intros k l m2 HI2. mstep; [mstep|done]. eapply sync_inv_step; [done| |done|done].
    destruct HI2. by apply wf_delete_target. }
  clear HI m1. intros m1 (Hwf & Hm & Hp). do 2 mstep.
  mstep. apply wp_range. intros ks'' Hks'' _. mstep.
  apply wp_recompute_all; [done|done|]. intros m2 HI2 Hm2 _ Hp2.
  assert (Hmm : same_mode m m2) by (etransitivity; [exact Hm|exact Hm2]).
  assert (Hpp : keeps_pins m m2) by (intros Hs; rewrite Hp2; by apply Hp).
  mstep. apply wp_range. intros kt Hkt _. mstep. set (m3 := set_calls _ m2).
  apply (wp_for_acc (λ l w m', warm_loop m3 l w ∧ m' = m3)).
  { split; [|done]. split; [constructor|]. split; [intros k; by rewrite Hkt|].
    intros x. split; [|by intros [Hxn%elem_of_nil|(? & k & ts & _ & ?)]; [|split; eauto]].
    intros (Hne & k & ts & Hts & ?). right. split; [done|]. exists k, ts. split; [|done].
    apply Hkt. by exists ts. }
  { intros k l w m4 [Hw ->]. by apply wp_collect_warm. }
  intros w m4 [(Hnd & _ & Hx) ->]. destruct (sort_strings_sorted w Hnd) as (S1 & S2 & S3).
  assert (Hok : ∀ m5, m5.(targets) = m3.(targets) → m5.(warm) = sort_strings w → warm_ok m5).
  { intros m5 Ht Hwm. unfold warm_ok. rewrite Ht, Hwm. split; [done|]. split; [done|]. intros x.
    rewrite S3, Hx. split; [by left|]. intros [?|(_ & k & ts & Hin & _)]; [done|].
    by apply not_elem_of_nil in Hin. }
  do 3 mstep; [mstep|]; (apply HQ; [done|done|done|]); [by apply Hok|].
  bool_hyps. by apply Hok.
Qed.
End Steps.
