(* ===== verification/FailoverSafety.v ===== *)
(** * FailoverSafety: every operation of the failover manager keeps it sound

    One lemma per operation of [FailoverManager] and [FailoverSync]: from a
    state satisfying the invariant it does not panic and ends in one.  The
    theorem is over any sequence of operations, in any interleaving of the
    goroutines that make them, since each step is a critical section. *)
From stdpp Require Import sorting.
From S2P Require Import Prelude GoMonad GoTime FailoverConfig FailoverClassify FailoverManager.
From S2P Require Import FailoverSync FailoverInv.

Section Safety.
Context `{EnvLaws, !ValidConfigs}.

Abbreviation MM := (M Manager).

(** An operation that keeps the invariant. *)
Definition sound {A} (c : MM A) : Prop := ∀ m, inv m → wp c (λ _, inv) m.

Lemma wp_sound {A} (c : MM A) Q m : sound c → inv m → (∀ a m', inv m' → Q a m') → wp c Q m.
Proof. intros Hc HI HQ. eapply wp_mono; [by apply Hc|done]. Qed.

Lemma wp_chainLocked name Q m :
  inv m → (∀ b m', inv m' → same_mode m m' → keeps_pins m m' →
              (b = true → is_Some (m'.(chains) !! name)) → Q b m') →
  wp (chainLocked name) Q m.
Proof.
  intros HI HQ. unfold chainLocked. do 2 mstep. case_bool_decide as Hs.
  - mstep. by apply HQ.
  - mstep. apply wp_syncLocked; [by destruct HI|]. intros m' HI' Hm Hp _. do 3 mstep.
    apply HQ; [done|done|done|]. apply bool_decide_eq_true.
Qed.

Lemma wp_targetLocked name Q m :
  inv m → (∀ b m', inv m' → same_mode m m' → keeps_pins m m' →
              (b = true → is_Some (m'.(targets) !! name)) → Q b m') →
  wp (targetLocked name) Q m.
Proof.
  intros HI HQ. unfold targetLocked. do 2 mstep. case_bool_decide as Hs.
  - mstep. by apply HQ.
  - mstep. apply wp_syncLocked; [by destruct HI|]. intros m' HI' Hm Hp _. do 3 mstep.
    apply HQ; [done|done|done|]. apply bool_decide_eq_true.
Qed.

Lemma sound_flush {A} (c : MM A) : sound c → sound (r ← c; _ ← unlockAndFlush; mret r).
Proof. intros Hc m HI. mstep. eapply wp_sound; [done|done|]. intros a m' HI'. by do 3 mstep. Qed.

Lemma sound_bind {A B} (c : MM A) (k : A → MM B) : sound c → (∀ a, sound (k a)) → sound (c ≫= k).
Proof. intros Hc Hk m HI. mstep. eapply wp_sound; [done|done|]. intros a m' HI'. by apply Hk. Qed.

Lemma sound_get {B} (k : Manager → MM B) : (∀ a, sound (k a)) → sound (get ≫= k).
Proof. intros Hk m HI. do 2 mstep. by apply Hk. Qed.

Lemma sound_ask {A} (q : nat → A) : sound (ask q).
Proof. intros m HI. by mstep. Qed.

Lemma sound_ret {A} (a : A) : sound (mret a).
Proof. intros m HI. by mstep. Qed.

(** An assignment to a field the invariant does not read. *)
Lemma sound_modify f : (∀ m, (f m).(targets) = m.(targets) ∧ (f m).(chains) = m.(chains)) → sound (modify f).
Proof.
  intros Hf m [[Hw1 Hw2] HI]. mstep. destruct (Hf m) as [Ht Hc]. unfold inv, wf. by rewrite Ht, Hc.
Qed.

Lemma sound_when b (c : MM unit) : sound c → sound (when b c).
Proof. intros Hc m HI. mstep; [by apply Hc|done]. Qed.

Lemma sound_if {A} (b : bool) (c1 c2 : MM A) : sound c1 → sound c2 → sound (if b then c1 else c2).
Proof. by destruct b. Qed.

Lemma sound_for_each {A} (l : list A) f : (∀ a, sound (f a)) → sound (for_each l f).
Proof. intros Hf m HI. apply (wp_for_each (λ _, inv)); auto. intros a l' s. apply Hf. Qed.

Lemma sound_range {A} (f : Manager → gmap string A) : sound (range f).
Proof. intros m HI. by apply wp_range. Qed.

(** ** Sync, recompute *)

Lemma sound_syncLocked : sound syncLocked.
Proof. intros m [Hwf _]. apply wp_syncLocked; [done|auto]. Qed.

Lemma sound_Reevaluate : sound Reevaluate.
Proof.
  intros m [Hwf Hs]. unfold Reevaluate. mstep. apply wp_range. intros ks Hks _. mstep.
  apply wp_recompute_all; [done|done|]. intros m' HI _ _ _. by mstep.
Qed.

Lemma sound_deliver w : sound (deliver w).
Proof.
  apply sound_get. intros m. destruct w; [|apply sound_ret].
  apply sound_when, sound_modify. done.
Qed.

Lemma sound_takeWarm : sound takeWarmLocked.
Proof.
  apply sound_get. intros m. apply sound_if; [apply sound_ret|].
  apply sound_bind; [by apply sound_modify|]. intros _. apply sound_ret.
Qed.

Lemma sound_unlock : sound unlockAndFlush.
Proof. by apply sound_modify. Qed.

Lemma sound_Sync : sound Sync.
Proof.
  apply sound_bind; [apply sound_syncLocked|intros _].
  apply sound_bind; [apply sound_takeWarm|intros w].
  apply sound_bind; [apply sound_unlock|intros _]. apply sound_deliver.
Qed.

(** ** Reports *)

Lemma wp_recordFailure name msg Q m :
  inv_except name m → is_Some (m.(targets) !! name) →
  (∀ m', inv_except name m' → Q tt m') → wp (recordFailureLocked name msg) Q m.
Proof.
  intros HI [ts Hts] HQ. unfold recordFailureLocked. do 3 mstep.
  apply (wp_upd_target _ _ ts); [done|done|done|]. intros m1 HI1 _ Hts1 _ _.
  mstep. apply (wp_deref_target _ (set_lastError msg ts)); [done|]. simpl.
  destruct ts.(ts_state); try (mstep; by apply HQ).
  - mstep. apply (wp_upd_target _ _ (set_lastError msg ts)); [done|done|done|].
    intros m2 HI2 _ Hts2 _ _. mstep; [|by apply HQ].
    eapply wp_setTarget_inv; [done|done|]. eauto.
  - eapply wp_setTarget_inv; [done|done|]. eauto.
Qed.

Lemma wp_count_pass name Q m :
  inv_except name m → is_Some (m.(targets) !! name) →
  (∀ m', inv_except name m' → Q tt m') → wp (count_pass name) Q m.
Proof.
  intros HI [ts Hts] HQ. unfold count_pass. mstep.
  apply (wp_upd_target _ _ ts); [done|done|done|]. intros m1 HI1 _ Hts1 _ _.
  mstep. eapply wp_deref_target; [done|]. mstep; [|by apply HQ].
  eapply wp_setTarget_inv; [done|done|]. eauto.
Qed.

Lemma wp_recordPass name Q m :
  inv_except name m → is_Some (m.(targets) !! name) →
  (∀ m', inv_except name m' → Q tt m') → wp (recordPassLocked name) Q m.
Proof.
  intros HI [ts Hts] HQ. unfold recordPassLocked. mstep. apply (wp_deref_target _ ts); [done|].
  destruct ts.(ts_state).
  - eapply wp_upd_target; [done|done|done|]. eauto.
  - mstep; [eapply wp_setTarget_inv; [done|done|]; eauto|].
    mstep. eapply wp_setTarget_inv; [done|done|]. intros m1 ts1 HI1 _ Hts1 _ _ _.
    apply wp_count_pass; eauto.
  - apply wp_count_pass; eauto.
  - mstep. by apply HQ.
  - apply wp_count_pass; eauto.
Qed.

Lemma wp_recompute_after name Q m :
  inv_except name m → (∀ m', inv m' → Q tt m') → wp (recomputeForLocked name) Q m.
Proof. intros [Hwf Hs] HQ. apply wp_recomputeFor; [done|done|]. eauto. Qed.

Lemma sound_ReportFailure target err : sound (ReportFailure target err).
Proof.
  intros m HI. unfold ReportFailure. mstep. apply wp_targetLocked; [done|].
  intros b m1 HI1 _ _ Hb. mstep. mstep; [|by mstep].
  mstep. apply wp_recordFailure; [by apply inv_inv_except|by apply Hb|]. intros m2 HI2.
  apply wp_recompute_after; [done|]. intros m3 HI3. by mstep.
Qed.

Lemma sound_ReportSuccess target : sound (ReportSuccess target).
Proof.
  intros m HI. unfold ReportSuccess. mstep. apply wp_targetLocked; [done|].
  intros b m1 HI1 _ _ Hb. mstep. mstep; [|by mstep].
  destruct Hb as [ts Hts]; [done|]. do 3 mstep.
  apply (wp_upd_target _ _ ts); [by apply inv_inv_except|done|done|].
  intros m2 HI2 _ Hts2 _ _. mstep.
  apply wp_recordPass; [done|eauto|]. intros m3 HI3.
  apply wp_recompute_after; [done|]. intros m4 HI4. by mstep.
Qed.

(** ** Plans and views *)

Lemma inv_chain m k ch : inv m → m.(chains) !! k = Some ch → chain_wf k ch.
Proof. intros [[_ Hw] _] Hch. by apply Hw. Qed.

Lemma sound_plan_locked chain : sound (plan_locked chain).
Proof.
  intros m HI. unfold plan_locked. mstep. apply wp_chainLocked; [done|].
  intros b m1 HI1 _ _ Hb. mstep; [by mstep|]. bool_hyps.
  destruct Hb as [ch Hch]; [done|]. destruct (inv_chain _ _ _ HI1 Hch) as (_ & Ha & _).
  mstep. apply (wp_deref_chain _ ch); [done|]. do 3 mstep.
  destruct (index_lookup ch.(ch_targets) 0) as [p Hp]; [lia|].
  destruct (index_lookup ch.(ch_targets) ch.(active)) as [a Hact]; [done|].
  apply (wp_index _ _ p); [done|done|]. mstep.
  apply (wp_mono _ (λ _ m', inv m')).
  - mstep; [by mstep|]. mstep; [by mstep|]. mstep. apply (wp_index _ _ a); [lia|done|]. by mstep.
  - intros l m2 HI2. destruct l; by mstep.
Qed.

Lemma sound_Plan chain : sound (Plan chain).
Proof. apply sound_flush, sound_plan_locked. Qed.

Lemma wp_statusLocked name ch Q m :
  m.(chains) !! name = Some ch → chain_wf name ch → (∀ cs, Q cs m) → wp (statusLocked name) Q m.
Proof.
  intros Hch (_ & Ha & _) HQ. unfold statusLocked.
  destruct (index_lookup ch.(ch_targets) ch.(active)) as [a Hact]; [done|].
  mstep. apply (wp_deref_chain _ ch); [done|]. mstep. apply (wp_index _ _ a); [lia|done|].
  by do 3 mstep.
Qed.

Lemma sound_Status : sound Status.
Proof.
  intros m HI. unfold Status. mstep. apply (wp_sound syncLocked); [apply sound_syncLocked|done|].
  intros [] m1 HI1. mstep. apply wp_range. intros ks Hks _. mstep.
  apply (wp_collect (λ l _ m', inv m' ∧ ∀ k, k ∈ l → is_Some (m'.(chains) !! k))).
  - split; [done|]. intros k Hk. apply Hks. revert Hk. unfold sort_strings. by rewrite sorting.merge_sort_Permutation.
  - intros k l acc m2 [HI2 Hk]. destruct (Hk k) as [ch Hch]; [by left|].
    mstep. apply (wp_statusLocked _ ch); [done|by eapply inv_chain|]. intros cs. mstep.
    split; [done|]. intros k' Hk'. apply Hk. by right.
  - intros acc m2 [HI2 _]. by do 3 mstep.
Qed.

Lemma sound_ChainStatus name : sound (ChainStatus_ name).
Proof.
  intros m HI. unfold ChainStatus_. mstep. apply wp_chainLocked; [done|].
  intros b m1 HI1 _ _ Hb. mstep. apply (wp_mono _ (λ _ m', inv m')).
  - mstep; [by mstep|]. bool_hyps. destruct Hb as [ch Hch]; [done|].
    mstep. apply (wp_statusLocked _ ch); [done|by eapply inv_chain|]. intros cs. by mstep.
  - intros r m2 HI2. by do 3 mstep.
Qed.

(** ** Pins and shared state *)

(** The invariant but for one chain. *)
Definition inv_but (c : string) (m : Manager) : Prop :=
  wf m ∧ ∀ k ch, k ≠ c → m.(chains) !! k = Some ch → serving_ok m.(targets) ch.

Lemma wp_recompute_one c ov Q m :
  inv_but c m → is_Some (m.(chains) !! c) → (∀ m', inv m' → Q tt m') → wp (recomputeLocked c ov) Q m.
Proof.
  intros [[Hwt Hwc] Hs] [ch Hch] HQ. apply (wp_recompute _ _ ch); [done|by apply Hwc| |].
  - intros Hb. apply HQ. split; [done|]. intros k ch' Hch'.
    destruct (decide (k = c)) as [->|Hne]; [|by eapply Hs].
    simplify_eq. by apply blocked_serving.
  - intros _ m' (_ & Ht & _ & Hc & _). apply HQ. unfold inv, wf. rewrite Ht, Hc. split_and!.
    + done.
    + apply map_Forall_insert_2; [|done]. by apply recomputed_wf, Hwc.
    + intros k ch'. rewrite lookup_insert_Some. intros [[<- <-]|[Hne Hch']].
      * eapply recomputed_serving. by apply Hwc.
      * by eapply Hs.
Qed.

(** Setting a pin of a chain, one that is in the chain or none. *)
Lemma inv_but_pin c p m ch :
  inv m → m.(chains) !! c = Some ch → p = "" ∨ p ∈ ch.(ch_targets) →
  inv_but c (set_chains (alter (set_pinned p) c m.(chains)) m).
Proof.
  intros [[Hwt Hwc] Hs] Hch Hp. split; [split; [done|]|].
  - intros k ch'. simpl. rewrite lookup_alter_Some. intros [(<- & ch0 & Hch0 & ->)|[_ Hch']]; [|by apply Hwc].
    simplify_eq. destruct (Hwc _ _ Hch) as (? & ? & ?). by split.
  - intros k ch' Hne. simpl. rewrite lookup_alter_ne by done. apply Hs.
Qed.

Lemma sound_apply_pin_locked chain target : sound (apply_pin_locked chain target).
Proof.
  intros m HI. unfold apply_pin_locked. do 2 mstep. mstep.
  apply wp_chainLocked; [done|]. intros b m1 HI1 _ _ Hb.
  mstep; [by mstep|]. bool_hyps. destruct Hb as [ch Hch]; [done|].
  mstep. apply (wp_deref_chain _ ch); [done|]. mstep; [by mstep|]. mstep; [by mstep|].
  do 2 mstep. apply wp_recompute_one; [|simpl; by rewrite lookup_alter_is_Some|done].
  eapply inv_but_pin; [done|done|].
  destruct (String.eqb_spec target "") as [|Hne]; [by left|right]. simpl in *. by bool_hyps.
Qed.

Lemma sound_ApplyPin chain target : sound (ApplyPin chain target).
Proof.
  apply sound_bind; [apply sound_apply_pin_locked|]. intros _. apply sound_unlock.
Qed.

Lemma sound_apply_target_locked s : sound (apply_target_locked s).
Proof.
  intros m HI. unfold apply_target_locked. do 2 mstep. mstep; [by mstep|].
  mstep. apply wp_targetLocked; [done|]. intros b m1 HI1 _ _ Hb.
  mstep; [by mstep|]. bool_hyps. destruct Hb as [ts Hts]; [done|].
  mstep. apply (wp_deref_target _ ts); [done|]. mstep; [by mstep|]. mstep; [by mstep|].
  assert (Hname : ts.(ts_name) = s.(snap_Target)) by (destruct HI1 as [[Hwt _] _]; by apply Hwt).
  do 3 mstep. eapply (wp_setTarget_inv _ _ _ _ _ _ ts); [by apply inv_inv_except|done|].
  intros m2 ts2 HI2 _ Hts2 _ _ _. do 3 mstep.
  apply (wp_mono _ (λ _ m, inv_except s.(snap_Target) m ∧ is_Some (m.(targets) !! s.(snap_Target)))).
  { mstep; [|by eauto].
    eapply wp_upd_target; [done|done|by destruct s.(snap_State)|]. eauto. }
  intros [] m3 [HI3 [ts3 Hts3]]. mstep.
  eapply wp_upd_target; [done|done|by destruct (String.eqb s.(snap_Error) "")|].
  intros m4 HI4 _ _ _ _. rewrite Hname. by apply wp_recompute_after.
Qed.

Lemma sound_ApplyTarget s : sound (ApplyTarget s).
Proof. apply sound_bind; [apply sound_apply_target_locked|]. intros _. apply sound_unlock. Qed.

Lemma inv_emit ev m : inv m → inv (emit_pure ev m).
Proof.
  intros HI. destruct (emit_pure_frame ev m) as (_ & Ht & Hc & _). unfold inv, wf. by rewrite Ht, Hc.
Qed.

Lemma sound_apply_chain_locked s : sound (apply_chain_locked s).
Proof.
  intros m HI. unfold apply_chain_locked. do 2 mstep. mstep; [by mstep|].
  mstep. apply wp_chainLocked; [done|]. intros b m1 HI1 _ _ Hb.
  mstep; [by mstep|]. bool_hyps. destruct Hb as [ch Hch]; [done|].
  mstep. apply (wp_deref_chain _ ch); [done|].
  pose proof (inv_chain _ _ _ HI1 Hch) as (Hname & Ha & Hp).
  mstep; [by mstep|].
  match goal with E : (_ <? 0)%Z = false |- _ => apply Z.ltb_ge in E; rename E into Hi end.
  destruct (Index_range ch.(ch_targets) s.(snap_Active) 0) as [[? _]|[Hr Hl]]; [done|lia|].
  set (next := Index _ _ _) in *. rewrite Z.sub_0_r in Hl.
  do 2 mstep.
  match goal with |- wp _ _ ?m2 => assert (HI2 : inv m2) end.
  { destruct HI1 as [[Hwt Hwc] Hs]. split; [split; [done|]|]; intros k ch'; simpl;
      rewrite lookup_alter_Some; intros [(<- & ch0 & Hch0 & ->)|[_ Hch']]; simplify_eq.
    - split; [done|]. split; [simpl; lia|done].
    - by apply Hwc.
    - intros Had. by simpl in Had.
    - by eapply Hs. }
  mstep; [|by mstep].
  destruct (index_lookup ch.(ch_targets) ch.(active)) as [p Hpl]; [done|].
  mstep. apply (wp_index _ _ p); [lia|done|]. mstep. eapply wp_index; [lia|done|].
  do 2 mstep. apply wp_emit. by apply inv_emit.
Qed.

Lemma sound_ApplyChain s : sound (ApplyChain s).
Proof. apply sound_bind; [apply sound_apply_chain_locked|]. intros _. apply sound_unlock. Qed.

Lemma sound_ReconcilePins : sound ReconcilePins.
Proof.
  apply sound_get. intros m. apply sound_if; [apply sound_ret|].
  apply sound_bind; [apply sound_ask|]. intros want. apply sound_get. intros _.
  apply sound_bind; [apply sound_range|]. intros ks.
  apply sound_bind; [apply sound_for_each; intros; apply sound_ApplyPin|]. intros _.
  apply sound_bind; [apply sound_ask|]. intros ws. apply sound_for_each. intros c.
  destruct (want !! c); [apply sound_ApplyPin|apply sound_ret].
Qed.

Lemma sound_SetStateSync s : sound (SetStateSync s).
Proof.
  apply sound_bind; [by apply sound_modify|]. intros _.
  apply sound_if; [apply sound_ReconcilePins|apply sound_ret].
Qed.

Lemma sound_SetLeaderGate g : sound (SetLeaderGate g).
Proof. by apply sound_modify. Qed.

Lemma sound_Republish : sound Republish.
Proof.
  intros m HI. unfold Republish. do 3 mstep.
  apply (wp_mono _ (λ _ m', inv m')).
  - mstep; [by mstep|]. mstep. apply wp_range. intros ks Hks _. mstep.
    apply (wp_for_each (λ l m', inv m' ∧ ∀ k, k ∈ l → is_Some (m'.(targets) !! k))).
    + split; [done|]. intros k. by rewrite Hks.
    + intros k l m1 [HI1 Hk]. destruct (Hk k) as [ts Hts]; [by left|].
      assert (Hl : ∀ k, k ∈ l → is_Some (m1.(targets) !! k)) by (intros; apply Hk; by right).
      mstep. apply (wp_deref_target _ ts); [done|]. do 3 mstep; by mstep.
    + intros m1 [HI1 _]. mstep. apply wp_range. intros cs Hcs _.
      apply (wp_for_each (λ l m', inv m' ∧ ∀ k, k ∈ l → is_Some (m'.(chains) !! k))).
      * split; [done|]. intros k. by rewrite Hcs.
      * intros k l m2 [HI2 Hk]. destruct (Hk k) as [ch Hch]; [by left|].
        apply (wp_queue_chain _ ch); [done|by eapply inv_chain|].
        intros m' _ Ht Hc _ _. split; [|intros; rewrite Hc; apply Hk; by right].
        unfold inv, wf. by rewrite Ht, Hc.
      * intros m2 [HI2 _]. done.
  - intros [] m1 HI1. by mstep.
Qed.

Lemma sound_rollbackPin chain applied prev : sound (rollbackPin chain applied prev).
Proof. apply sound_get. intros m. apply sound_if; [apply sound_ApplyPin|apply sound_ret]. Qed.

Lemma sound_pin_locked chain target : sound (pin_locked chain target).
Proof.
  intros m HI. unfold pin_locked. mstep. apply wp_chainLocked; [done|]. intros b m1 HI1 _ _ Hb.
  mstep; [by mstep|]. bool_hyps. destruct Hb as [ch Hch]; [done|].
  mstep. apply (wp_deref_chain _ ch); [done|]. mstep; [by mstep|]. bool_hyps.
  do 7 mstep. apply wp_recompute_one; [|simpl; by rewrite lookup_alter_is_Some|intros; by mstep].
  refine (inv_but_pin chain target m1 ch HI1 Hch _). by right.
Qed.

Lemma sound_unpin_locked chain : sound (unpin_locked chain).
Proof.
  intros m HI. unfold unpin_locked. mstep. apply wp_chainLocked; [done|]. intros b m1 HI1 _ _ Hb.
  mstep; [by mstep|]. bool_hyps. destruct Hb as [ch Hch]; [done|].
  do 7 mstep. apply wp_recompute_one; [|simpl; by rewrite lookup_alter_is_Some|intros; by mstep].
  exact (inv_but_pin chain "" m1 ch HI1 Hch (or_introl eq_refl)).
Qed.

Lemma sound_Pin chain target : sound (Pin chain target).
Proof.
  apply sound_bind; [apply sound_pin_locked|]. intros r. apply sound_get. intros m.
  apply sound_bind; [apply sound_unlock|]. intros _.
  destruct r as [prev|e]; [|apply sound_ret]. apply sound_if; [apply sound_ret|].
  apply sound_bind; [apply sound_ask|]. intros [msg|]; [|apply sound_ret].
  apply sound_bind; [apply sound_rollbackPin|]. intros _. apply sound_ret.
Qed.

Lemma sound_Unpin chain : sound (Unpin chain).
Proof.
  apply sound_bind; [apply sound_unpin_locked|]. intros r. apply sound_get. intros m.
  apply sound_bind; [apply sound_unlock|]. intros _.
  destruct r as [prev|e]; [|apply sound_ret]. apply sound_if; [apply sound_ret|].
  apply sound_bind; [apply sound_ask|]. intros [msg|]; [|apply sound_ret].
  apply sound_bind; [apply sound_rollbackPin|]. intros _. apply sound_ret.
Qed.

(** ** The scheduler *)

(** No target disappears. *)
Definition same_keys (m m' : Manager) : Prop :=
  ∀ k, is_Some (m.(targets) !! k) → is_Some (m'.(targets) !! k).

(** A transition of a target and the recompute that follows it. *)
Lemma wp_set_recompute name to reason msg ts Q m :
  inv m → m.(targets) !! name = Some ts →
  (∀ m', inv m' → same_keys m m' → Q tt m') →
  wp (_ ← setTargetLocked name to reason msg; recomputeForLocked ts.(ts_name)) Q m.
Proof.
  intros HI Hts HQ.
  assert (Hname : ts.(ts_name) = name) by (destruct HI as [[Hwt _] _]; by apply Hwt).
  mstep. apply (wp_setTarget _ ts); [done| |].
  - intros _. destruct HI as [Hwf Hs]. apply wp_recomputeFor; [done|by intros; eapply Hs|].
    intros m' HI' _ Ht _. apply HQ; [done|]. intros k. by rewrite Ht.
  - intros _ m1 (_ & G2 & _ & G4 & _).
    assert (HI1 : inv_except name m1).
    { eapply inv_except_insert; [by apply inv_inv_except|done|done|]. by rewrite enter_state_name. }
    destruct HI1 as [Hwf1 Hs1]. rewrite Hname. apply wp_recomputeFor; [done|done|].
    intros m' HI' _ Ht _. apply HQ; [done|]. intros k Hk.
    rewrite Ht, G4, lookup_insert_is_Some'. by right.
Qed.

Lemma wp_due_state now name Q m :
  inv m → is_Some (m.(targets) !! name) → (∀ d m', inv m' → same_keys m m' → Q d m') →
  wp (due_state now name) Q m.
Proof.
  intros HI [ts Hts] HQ. unfold due_state. mstep. apply (wp_deref_target _ ts); [done|]. cbv zeta.
  assert (Hr : ∀ d, Q d m) by (intros; apply HQ; [done|by intros ?]).
  destruct ts.(ts_state); [mstep; by mstep| |mstep; by mstep|by mstep|by mstep].
  mstep; [|mstep; by mstep].
  mstep. mstep; [|by mstep]. apply wp_set_recompute; [done|done|]. intros. mstep. auto.
Qed.

(** An assignment that does not change a target's state. *)
Lemma inv_alter_target name f m :
  inv m → (∀ ts, (f ts).(ts_name) = ts.(ts_name) ∧ (f ts).(ts_state) = ts.(ts_state)) →
  inv (set_targets (alter f name m.(targets)) m).
Proof.
  intros [[Hwt Hwc] Hs] Hf. split; [split|]; simpl; [|done|].
  - intros k ts. rewrite lookup_alter_Some. intros [(<- & t0 & Ht0 & ->)|[_ Ht]]; [|by apply Hwt].
    unfold target_wf. rewrite (proj1 (Hf t0)). by apply Hwt.
  - intros k ch Hch. eapply serving_ok_ext; [|by eapply Hs]. intros x _.
    unfold is_healthy. destruct (decide (x = name)) as [->|Hne].
    + rewrite lookup_alter_eq. destruct (m.(targets) !! name) as [ts|]; [|done]. simpl.
      by rewrite (proj2 (Hf ts)).
    + by rewrite lookup_alter_ne.
Qed.

Lemma sound_dueProbes : sound dueProbes.
Proof.
  intros m HI. unfold dueProbes. do 2 mstep. mstep. apply wp_range. intros ks Hks _. mstep.
  apply (wp_collect (λ l _ m', inv m' ∧ ∀ k, k ∈ l → is_Some (m'.(targets) !! k))).
  - split; [done|]. intros k. by rewrite Hks.
  - intros k l acc m1 [HI1 Hk]. destruct (Hk k) as [ts Hts]; [by left|].
    assert (Hl : ∀ k, k ∈ l → is_Some (m1.(targets) !! k)) by (intros; apply Hk; by right).
    unfold due_probe. mstep. apply (wp_deref_target _ ts); [done|]. mstep; [by mstep|].
    mstep. apply wp_due_state; [done|by eexists|]. intros d m2 HI2 Hk2.
    assert (Hl2 : ∀ k, k ∈ l → is_Some (m2.(targets) !! k)) by auto.
    destruct d as [inference|]; [|by mstep]. do 3 mstep; [by mstep|].
    mstep. apply wp_lookupTarget. intros c m3 _ G2 G3 _.
    assert (HI3 : inv m3) by (unfold inv, wf; by rewrite G2, G3).
    rewrite <-G2 in Hl2. assert (Hsome : is_Some (m3.(targets) !! k)) by (rewrite G2; apply Hk2; eauto).
    destruct c as [c|]; [|by mstep]. destruct Hsome as [ts3 Hts3]. do 3 mstep.
    split; [|intros k' Hk'; simpl; rewrite lookup_alter_is_Some; auto].
    by apply inv_alter_target.
  - intros acc m1 [HI1 _]. by do 3 mstep.
Qed.

Lemma sound_endProbe target : sound (endProbe target).
Proof. intros m HI. unfold endProbe. mstep. by apply inv_alter_target. Qed.

Lemma wp_probe_passed j ts Q m :
  inv m → m.(targets) !! j.(j_target) = Some ts → (∀ m', inv m' → Q tt m') →
  wp (probe_passed j ts) Q m.
Proof.
  intros HI Hts HQ. unfold probe_passed.
  assert (Hname : ts.(ts_name) = j.(j_target)) by (destruct HI as [[Hwt _] _]; by apply Hwt).
  mstep. rewrite Hname.
  apply (wp_mono _ (λ _ m', inv_except j.(j_target) m'));
    [|intros [] m' HI'; by apply wp_recompute_after].
  assert (HIe : inv_except j.(j_target) m) by by apply inv_inv_except.
  destruct ts.(ts_state); try (by mstep).
  - do 2 mstep. eapply (wp_upd_target _ _ ts); try done; eauto.
  - eapply wp_setTarget_inv; [done|done|]. eauto.
  - mstep; [|done]. apply wp_recordPass; eauto.
Qed.

Lemma sound_apply_probe_locked j err : sound (apply_probe_locked j err).
Proof.
  intros m HI. unfold apply_probe_locked. do 2 mstep.
  destruct (m.(targets) !! j.(j_target)) as [ts|] eqn:Hts; [|by mstep].
  assert (Hname : ts.(ts_name) = j.(j_target)) by (destruct HI as [[Hwt _] _]; by apply Hwt).
  do 2 mstep. set (m1 := set_targets _ m).
  assert (HI1 : inv m1) by (by apply inv_alter_target).
  assert (Hts1 : m1.(targets) !! j.(j_target) = Some (set_probing false ts))
    by (subst m1; simpl; by rewrite lookup_alter_eq, Hts).
  assert (HIe : inv_except j.(j_target) m1) by by apply inv_inv_except.
  mstep; [by mstep|]. destruct err as [e|].
  - destruct e.(is_ErrNotLoaded).
    + mstep; [|by mstep]. do 2 mstep. mstep; [|done].
      change ts.(ts_name) with (set_probing false ts).(ts_name). by apply wp_set_recompute.
    + rewrite Hname. mstep. apply (wp_mono _ (λ _ m', inv_except j.(j_target) m'));
        [|intros [] m' HI'; by apply wp_recompute_after].
      mstep; [|apply wp_recordFailure; eauto].
      eapply (wp_upd_target _ _ (set_probing false ts)); try done; eauto.
  - unfold probe_passed. change (wp (probe_passed j (set_probing false ts)) (λ _, inv) m1).
    by apply wp_probe_passed.
Qed.

Lemma sound_applyProbe j err : sound (applyProbe j err).
Proof. apply sound_bind; [apply sound_apply_probe_locked|]. intros _. apply sound_unlock. Qed.

Lemma sound_runProbe j : sound (runProbe j).
Proof.
  apply sound_bind; [apply sound_ask|]. intros err. apply sound_bind; [apply sound_ask|].
  intros d. apply sound_if; [apply sound_endProbe|apply sound_applyProbe].
Qed.

Lemma sound_lead : sound lead.
Proof.
  apply sound_get. intros m. apply sound_bind; [by apply sound_modify|]. intros _.
  apply sound_bind; [by apply sound_when, sound_modify|]. intros _.
  apply sound_bind; [apply sound_takeWarm|]. intros w.
  apply sound_bind; [apply sound_unlock|]. intros _.
  apply sound_bind; [apply sound_deliver|]. intros _.
  apply sound_bind; [apply sound_when, sound_Republish|]. intros _.
  apply sound_bind; [apply sound_dueProbes|]. intros jobs.
  apply sound_bind; [apply sound_Reevaluate|]. intros _. apply sound_ret.
Qed.

Lemma sound_Tick : sound Tick.
Proof.
  apply sound_bind; [apply sound_Sync|]. intros _. apply sound_get. intros m.
  apply sound_if; [apply sound_lead|]. apply sound_bind; [apply sound_ask|]. intros g.
  apply sound_if; [apply sound_lead|]. apply sound_bind; [by apply sound_modify|]. intros _.
  apply sound_bind; [apply sound_Reevaluate|]. intros _. apply sound_ret.
Qed.

Lemma sound_run_tick : sound run_tick.
Proof.
  apply sound_bind; [apply sound_Tick|]. intros jobs. apply sound_get. intros m.
  apply sound_bind; [by apply sound_modify|]. intros _.
  apply sound_bind; [|intros _; apply sound_ret]. apply sound_when.
  apply sound_bind; [apply sound_ReconcilePins|]. intros _.
  apply sound_bind; [intros ? ?; unfold IsLeader; by mstep|]. intros l.
  apply sound_when, sound_Republish.
Qed.
End Safety.
