(* ===== verification/FailoverProps.v ===== *)
(** * FailoverProps: what the failover manager guarantees

    The theorems about the manager as a whole: no panic and sound serving
    under any sequence of operations, and the order of a request's attempts. *)
From stdpp Require Import sorting.
From S2P Require Import Prelude GoMonad GoTime FailoverConfig FailoverClassify FailoverManager.
From S2P Require Import FailoverSync FailoverInv FailoverSafety.

(** ** Every operation *)

(** The API of the manager, its scheduler and the goroutines of its probes. *)
Inductive Op :=
| OpSync | OpReevaluate | OpPlan (chain : string)
| OpReportFailure (target : string) (err : option GoError) | OpReportSuccess (target : string)
| OpPin (chain target : string) | OpUnpin (chain : string)
| OpStatus | OpChainStatus (chain : string)
| OpSubscribe (buf : nat) | OpUnsubscribe (id : Z) | OpReceive (id : Z) | OpClose
| OpApplyPin (chain target : string) | OpApplyTarget (s : TargetSnapshot)
| OpApplyChain (s : ChainSnapshot)
| OpSetLeaderGate (g : bool) | OpSetStateSync (s : bool) | OpReconcilePins | OpRepublish
| OpDueProbes | OpRunProbe (j : probeJob) | OpApplyProbe (j : probeJob) (err : option GoError)
| OpEndProbe (target : string) | OpLead | OpTick | OpRunTick.

Definition exec `{Env} (o : Op) : M Manager unit :=
  match o with
  | OpSync => Sync
  | OpReevaluate => Reevaluate
  | OpPlan c => _ ← Plan c; mret tt
  | OpReportFailure t e => ReportFailure t e
  | OpReportSuccess t => ReportSuccess t
  | OpPin c t => _ ← Pin c t; mret tt
  | OpUnpin c => _ ← Unpin c; mret tt
  | OpStatus => _ ← Status; mret tt
  | OpChainStatus c => _ ← ChainStatus_ c; mret tt
  | OpSubscribe b => _ ← Subscribe (Z.of_nat b); mret tt
  | OpUnsubscribe id => Unsubscribe id
  | OpReceive id => _ ← Receive id; mret tt
  | OpClose => close
  | OpApplyPin c t => ApplyPin c t
  | OpApplyTarget s => ApplyTarget s
  | OpApplyChain s => ApplyChain s
  | OpSetLeaderGate g => SetLeaderGate g
  | OpSetStateSync s => SetStateSync s
  | OpReconcilePins => ReconcilePins
  | OpRepublish => Republish
  | OpDueProbes => _ ← dueProbes; mret tt
  | OpRunProbe j => runProbe j
  | OpApplyProbe j e => applyProbe j e
  | OpEndProbe t => endProbe t
  | OpLead => _ ← lead; mret tt
  | OpTick => _ ← Tick; mret tt
  | OpRunTick => _ ← run_tick; mret tt
  end.

(** [New] with the options given; [gate] says whether a leader gate was. *)
Definition New (id : string) (prober onWarm gate : bool) : Manager :=
  MkManager id ∅ ∅ ∅ ∅ 0 [] false false false prober onWarm false gate (negb gate) false [] 0
    0 [] [] [] [].

Lemma inv_New id prober onWarm gate : inv (New id prober onWarm gate).
Proof. split; [split|]; apply map_Forall_empty. Qed.

Section Safe.
Context `{EnvLaws, !ValidConfigs}.

Lemma sound_drop {A} (c : M Manager A) : sound c → sound (_ ← c; mret tt).
Proof. intros Hc. apply sound_bind; [done|]. intros _. apply sound_ret. Qed.

Lemma sound_Subscribe buf : sound (Subscribe (Z.of_nat buf)).
Proof.
  unfold Subscribe. destruct (Z.ltb_spec (Z.of_nat buf) 0); [lia|].
  apply sound_get. intros m. apply sound_if; [apply sound_ret|].
  apply sound_bind; [by apply sound_modify|]. intros _. apply sound_ret.
Qed.

Lemma sound_Receive id : sound (Receive id).
Proof.
  apply sound_get. intros m. destruct (m.(subs) !! id) as [[cap [|ev rest]]|]; try apply sound_ret.
  apply sound_bind; [by apply sound_modify|]. intros _. apply sound_ret.
Qed.

Lemma sound_exec o : sound (exec o).
Proof.
  destruct o; simpl;
    auto using sound_Sync, sound_Reevaluate, sound_ReportFailure, sound_ReportSuccess, sound_ApplyPin,
      sound_ApplyTarget, sound_ApplyChain, sound_SetLeaderGate, sound_SetStateSync,
      sound_ReconcilePins, sound_Republish, sound_runProbe, sound_applyProbe, sound_endProbe,
      sound_drop, sound_Plan, sound_Pin, sound_Unpin, sound_Status, sound_ChainStatus,
      sound_Subscribe, sound_Receive, sound_dueProbes, sound_lead, sound_Tick, sound_run_tick.
  - by apply sound_modify.
  - by apply sound_modify.
Qed.

Lemma manager_reachable_inv id prober onWarm gate ops :
  wp (for_each ops exec) (λ _, inv) (New id prober onWarm gate).
Proof. apply sound_for_each; [apply sound_exec|apply inv_New]. Qed.
End Safe.

(** ** Theorems *)

(** C1. Whatever happens, in any order (requests, reports, pins, config
    changes, state from other frontends, leadership changes, probes and
    ticks), as long as every configured chain has a target: no operation
    panics; every chain has its active index in range and a pin only to a
    target of its own; and every chain this frontend decides serves its
    pinned target, or a healthy target whenever it has one, and is marked
    degraded exactly when it is unpinned and has none. *)
Theorem failover_safe `{EnvLaws, !ValidConfigs} id prober onWarm gate ops :
  ∃ m, for_each ops exec (New id prober onWarm gate) = Some (tt, m) ∧
    ∀ name ch, m.(chains) !! name = Some ch →
      (0 ≤ ch.(active) < Z.of_nat (length ch.(ch_targets)))%Z ∧
      (ch.(pinned) = "" ∨ ch.(pinned) ∈ ch.(ch_targets)) ∧
      (ch.(adopted) = false →
        (ch.(pinned) ≠ "" → ch.(ch_targets) !! Z.to_nat ch.(active) = Some ch.(pinned)) ∧
        (ch.(pinned) = "" → ∀ x, x ∈ ch.(ch_targets) → is_healthy m.(targets) x = true →
           ∃ y, ch.(ch_targets) !! Z.to_nat ch.(active) = Some y ∧ is_healthy m.(targets) y = true) ∧
        (ch.(ch_state) = ChainDegraded ↔
           ch.(pinned) = "" ∧ ∀ x, x ∈ ch.(ch_targets) → is_healthy m.(targets) x = false)).
Proof.
  destruct (wp_Some _ _ _ (manager_reachable_inv id prober onWarm gate ops)) as ([] & m & Hrun & HI).
  exists m. split; [done|]. intros name ch Hch.
  destruct (inv_chain _ _ _ HI Hch) as (_ & Ha & Hp). split; [done|]. split; [done|].
  intros Had. destruct HI as [_ Hs]. destruct (Hs _ _ Hch Had) as [Hst Hserve].
  split_and!.
  - intros Hne. destruct (String.eqb_spec ch.(pinned) ""); [done|]. rewrite Hserve.
    apply Index_elem. by destruct Hp.
  - intros Hpe. by rewrite (proj2 (String.eqb_eq _ _) Hpe) in Hserve.
  - rewrite Hst. unfold chain_state_of.
    destruct (String.eqb_spec ch.(pinned) "") as [Hpe|Hne]; simpl.
    + destruct (first_healthy_range m.(targets) ch.(ch_targets) 0) as [[-> Hn]|(Hr & (x & Hx & Hxh) & _)]; [done| |].
      * simpl. done.
      * replace (_ =? -1)%Z with false by lia. split; [by destruct (_ =? 0)%Z|].
        intros [_ Hall]. rewrite Hall in Hxh; [done|]. by eapply list_elem_of_lookup_2.
    + split; [by destruct (_ =? 0)%Z|]. by intros [? _].
Qed.

(** The states a manager gets into. *)
Definition reachable `{Env} (m : Manager) : Prop :=
  ∃ id prober onWarm gate ops, for_each ops exec (New id prober onWarm gate) = Some (tt, m).

Lemma reachable_sound `{EnvLaws, !ValidConfigs} m : reachable m → inv m.
Proof.
  intros (id & prober & onWarm & gate & ops & Hrun).
  pose proof (manager_reachable_inv id prober onWarm gate ops) as Hwp.
  unfold wp in Hwp. by rewrite Hrun in Hwp.
Qed.

(** ** The order of attempts *)

Lemma NoDup_filter_bool {A} (f : A → bool) (l : list A) : NoDup l → NoDup (List.filter f l).
Proof. intros Hnd. by apply NoDup_ListNoDup, List.NoDup_filter, NoDup_ListNoDup. Qed.

Lemma elem_of_filter_bool {A} (f : A → bool) (l : list A) x :
  x ∈ List.filter f l ↔ x ∈ l ∧ f x = true.
Proof. rewrite !list_elem_of_In. apply filter_In. Qed.

Lemma filter_bool_sublist {A} (f : A → bool) (l : list A) : List.filter f l `sublist_of` l.
Proof. induction l as [|x l IH]; simpl; [constructor|]. destruct (f x); by constructor. Qed.

Section Plans.
Context `{EnvLaws, !ValidConfigs}.

(** What the attempt order of a plan is, for the chain it was made for. *)
Definition plan_ok (m : Manager) (ch : chainState) (r : Attempt + ManagerError) : Prop :=
  let degraded := is_degraded ch.(ch_state) in
  match r with
  | inl a =>
      a.(a_i) = 0%Z ∧ a.(a_targets) ≠ [] ∧ a.(a_chain) = ch.(ch_name) ∧
      head ch.(ch_targets) = Some a.(a_primary) ∧
      if String.eqb ch.(pinned) ""
      then (∀ x, x ∈ a.(a_targets) ↔ x ∈ ch.(ch_targets) ∧ usable m.(targets) degraded x = true) ∧
           (NoDup ch.(ch_targets) → NoDup a.(a_targets)) ∧
           ∃ first rest, a.(a_targets) = first ++ rest ∧ rest `sublist_of` ch.(ch_targets) ∧
             first = (if degraded then [] else
                      match ch.(ch_targets) !! Z.to_nat ch.(active) with
                      | Some act => if usable m.(targets) false act then [act] else []
                      | None => []
                      end)
      else a.(a_targets) = [ch.(pinned)]
  | inr e => e = ErrNoTarget ch.(ch_name) ∧ ch.(pinned) = "" ∧
             ∀ x, x ∈ ch.(ch_targets) → usable m.(targets) degraded x = false
  end.

Lemma wp_Plan chain ch Q m :
  inv m → m.(chains) !! chain = Some ch →
  (∀ r m', plan_ok m ch r → m'.(targets) = m.(targets) → m'.(chains) = m.(chains) → Q r m') →
  wp (Plan chain) Q m.
Proof.
  intros HI Hch HQ. destruct (inv_chain _ _ _ HI Hch) as (Hname & Ha & _).
  unfold Plan, plan_locked, chainLocked. do 4 mstep.
  rewrite bool_decide_true by (by exists ch). apply wp_ret. cbn [negb].
  mstep. apply (wp_deref_chain _ ch); [done|]. do 3 mstep.
  destruct (index_lookup ch.(ch_targets) 0) as [p Hp]; [lia|].
  destruct (index_lookup ch.(ch_targets) ch.(active)) as [act Hact]; [done|].
  apply (wp_index _ _ p); [done|done|]. mstep.
  apply (wp_mono _ (λ l m', m' = m ∧
    (l = [] → ch.(pinned) = "" ∧ ∀ x, x ∈ ch.(ch_targets) → usable m.(targets) (is_degraded ch.(ch_state)) x = false) ∧
    (l ≠ [] → plan_ok m ch (inl (MkAttempt ch.(ch_name) p (is_degraded ch.(ch_state)) l 0))))).
  - assert (Hhd : head ch.(ch_targets) = Some p) by (by destruct ch.(ch_targets)).
    unfold plan_ok. simpl. rewrite Hact.
    destruct (String.eqb_spec ch.(pinned) "") as [Hpin|Hpin]; cbn [negb]; [|by mstep].
    destruct (is_degraded ch.(ch_state)) eqn:Hd.
    + mstep. split; [done|]. set (us := usable m.(targets) true). split.
      * intros Hnil. split; [done|]. intros x Hx. destruct (us x) eqn:E; [|done].
        assert (x ∈ List.filter us ch.(ch_targets)) as Hin by (by apply elem_of_filter_bool).
        rewrite Hnil in Hin. by apply not_elem_of_nil in Hin.
      * intros Hne. split_and!; try done; [intros x; apply elem_of_filter_bool|apply NoDup_filter_bool|].
        exists [], (List.filter us ch.(ch_targets)). split_and!; [done|apply filter_bool_sublist|done].
    + mstep. apply (wp_index _ _ act); [lia|done|]. mstep. split; [done|].
      set (us := usable m.(targets) false). set (others := List.filter _ ch.(ch_targets)).
      assert (Hothers : ∀ x, x ∈ others ↔ x ∈ ch.(ch_targets) ∧ x ≠ act ∧ us x = true).
      { intros x. subst others. rewrite elem_of_filter_bool, andb_true_iff, negb_true_iff, String.eqb_neq. done. }
      assert (Hall : ∀ x, x ∈ (if us act then [act] else []) ++ others ↔ x ∈ ch.(ch_targets) ∧ us x = true).
      { intros x. rewrite elem_of_app, Hothers. assert (act ∈ ch.(ch_targets)) by (by eapply list_elem_of_lookup_2).
        destruct (decide (x = act)) as [->|Hne].
        - destruct (us act); [rewrite list_elem_of_singleton|rewrite elem_of_nil]; split.
          + done.
          + by left.
          + by intros [?|(_ & ? & _)].
          + by intros [_ ?].
        - destruct (us act); [rewrite list_elem_of_singleton|rewrite elem_of_nil]; split.
          + by intros [?|(? & _ & ?)].
          + intros [??]. by right.
          + by intros [?|(? & _ & ?)].
          + intros [??]. by right. }
      split.
      * intros Hnil. split; [done|]. intros x Hx. destruct (us x) eqn:E; [|done].
        assert (x ∈ (if us act then [act] else []) ++ others) as Hin by (by apply Hall).
        rewrite Hnil in Hin. by apply not_elem_of_nil in Hin.
      * intros Hne. split_and!; try done.
        -- intros Hnd. apply NoDup_app. split_and!; [destruct (us act); [apply NoDup_singleton|constructor]| |by apply NoDup_filter_bool].
           intros x Hx Ho. apply Hothers in Ho as (_ & Hxa & _).
           destruct (us act); [by apply list_elem_of_singleton in Hx|by apply not_elem_of_nil in Hx].
        -- exists (if us act then [act] else []), others. split_and!; [done|apply filter_bool_sublist|done].
  - intros l m1 (-> & Hnil & Hne). destruct l as [|x l].
    + do 4 mstep. apply HQ; try done. simpl. rewrite Hname. split; [done|]. by apply Hnil.
    + do 4 mstep. apply HQ; try done. by apply Hne.
Qed.
End Plans.

(** C6. The attempt order of a request: a pinned chain tries only its pinned
    target; otherwise exactly the usable targets are tried (the healthy ones,
    or on a degraded chain every one whose config exists), none twice, the
    active target first unless the chain is degraded and the rest in priority
    order; and the request fails with "no usable target" only when there is
    none. *)
Theorem failover_plan `{EnvLaws, !ValidConfigs} m chain ch :
  reachable m → m.(chains) !! chain = Some ch →
  ∃ r m', Plan chain m = Some (r, m') ∧ plan_ok m ch r ∧
          m'.(targets) = m.(targets) ∧ m'.(chains) = m.(chains).
Proof.
  intros Hr Hch. apply wp_Some, (wp_Plan _ ch); [by apply reachable_sound|done|]. auto.
Qed.
