(* ===== verification/FailoverHealth.v ===== *)
(** * FailoverHealth: how reports and probes move a target

    [ReportFailure] and [ReportSuccess] as pure functions of the target they
    are about, and what a run of them does: the trip threshold over the sliding
    window and the recovery threshold. *)
From Stdlib Require Import Sorted.
From S2P Require Import Prelude GoMonad GoTime FailoverConfig FailoverClassify FailoverManager.
From S2P Require Import FailoverSync FailoverInv FailoverSafety FailoverProps.

(** ** The target after a report *)

Definition after_failure (now1 now2 : Z) (msg : string) (ts : targetState) : targetState :=
  let ts := set_lastError msg ts in
  match ts.(ts_state) with
  | StateRecovering => enter_state now2 StateDown ReasonTrip ts
  | StateHealthy =>
      let fs := add_failure now1 ts in
      if (TripErrors ts.(params) <=? Z.of_nat (length fs))%Z
      then enter_state now2 StateDown ReasonTrip (set_failures fs ts)
      else set_failures fs ts
  | _ => ts
  end.

Definition after_pass (now : Z) (ts : targetState) : targetState :=
  let ts := set_consecutiveOK (wrap64 (ts.(consecutiveOK) + 1)) ts in
  if (RecoveryProbes ts.(params) <=? ts.(consecutiveOK))%Z
  then enter_state now StateHealthy ReasonRecovery ts else ts.

Definition after_success (now1 now2 now3 : Z) (ts : targetState) : targetState :=
  let ts := set_lastActivity now1 ts in
  match ts.(ts_state) with
  | StateHealthy => set_failures [] ts
  | StateMissing => ts
  | StateDown =>
      if cold ts then enter_state now2 StateHealthy ReasonRecovery ts
      else after_pass now3 (enter_state now2 StateRecovering ReasonRecovery ts)
  | _ => after_pass now2 ts
  end.

(** The message of a reported error. *)
Definition error_text (err : option GoError) : string :=
  match err with Some e => e.(Error) | None => "" end.

Section Health.
Context `{EnvLaws, !ValidConfigs}.

(** [m'] is [m] after [name] became [ts']: the other targets are untouched. *)
Definition moved (m : Manager) (name : string) (ts' : targetState) (m' : Manager) : Prop :=
  inv_except name m' ∧ m'.(targets) = <[name := ts']> m.(targets).

(** An assignment to the fields of a target, remembering the targets. *)
Lemma wp_move_upd name f ts Q m :
  inv_except name m → m.(targets) !! name = Some ts → (f ts).(ts_name) = ts.(ts_name) →
  (∀ m', moved m name (f ts) m' → m'.(calls) = m.(calls) → Q tt m') →
  wp (upd_target name f) Q m.
Proof.
  intros HI Hts Hf HQ. mstep. pose proof HI as [[Hwt _] _]. specialize (Hwt name ts Hts).
  assert (Ht : alter f name m.(targets) = <[name := f ts]> m.(targets)) by (by apply alter_alt_Some).
  apply HQ; [|done]. split; [|done].
  eapply (inv_except_insert _ _ _ (f ts)); [done|done|done|by rewrite Hf].
Qed.

Lemma wp_move_state name to reason msg ts Q m :
  inv_except name m → m.(targets) !! name = Some ts → ts.(ts_state) ≠ to →
  (∀ m', moved m name (enter_state (clock_at m.(calls)) to reason ts) m' →
     m'.(calls) = S m.(calls) → Q tt m') →
  wp (setTargetLocked name to reason msg) Q m.
Proof.
  intros HI Hts Hne HQ. unfold setTargetLocked. mstep. apply (wp_deref_target _ ts); [done|].
  rewrite bool_decide_false by done. pose proof HI as [[Hwt Hwc] _]. specialize (Hwt name ts Hts).
  do 5 mstep. apply wp_emit. set (ev := MkEvent _ _ _ _ _ _ _ _ _). set (m1 := set_targets _ _).
  destruct (emit_pure_frame ev m1) as (_ & Ht & Hc & _).
  assert (Hcalls : (emit_pure ev m1).(calls) = S m.(calls)) by (unfold emit_pure; by destruct (_ && _)).
  set (m2 := emit_pure ev m1) in *. clearbody m2.
  set (ts' := enter_state (clock_at m.(calls)) to reason ts) in *.
  assert (Ht2 : m2.(targets) = <[name := ts']> m.(targets)).
  { rewrite Ht. subst m1. simpl. by rewrite (alter_alt_Some _ _ _ _ Hts). }
  assert (Hm2 : ∀ m', m'.(targets) = m2.(targets) → m'.(chains) = m2.(chains) → moved m name ts' m').
  { intros m' E1 E2. split; [|by rewrite E1].
    eapply (inv_except_insert _ _ _ ts'); [done|by rewrite E2, Hc|by rewrite E1|].
    subst ts'. by rewrite enter_state_name. }
  unfold queuePublishTargetLocked. mstep.
  apply (wp_deref_target _ ts'); [rewrite Ht2; by rewrite lookup_insert_eq|].
  do 2 mstep. mstep; mstep; apply HQ; try done; by apply Hm2.
Qed.

(** Chained moves of one target. *)
Lemma moved_trans m m1 m2 name ts1 ts2 :
  moved m name ts1 m1 → moved m1 name ts2 m2 → moved m name ts2 m2.
Proof. intros [_ H1'] [H2' H3']. split; [done|]. by rewrite H3', H1', insert_insert_eq. Qed.

Lemma moved_lookup m name ts' m' : moved m name ts' m' → m'.(targets) !! name = Some ts'.
Proof. intros [_ ->]. apply lookup_insert_eq. Qed.

Lemma wp_move_failure name msg ts Q m :
  inv_except name m → m.(targets) !! name = Some ts →
  (∀ m', moved m name (after_failure (clock_at m.(calls)) (clock_at (S m.(calls))) msg ts) m' → Q tt m') →
  wp (recordFailureLocked name msg) Q m.
Proof.
  intros HI Hts HQ. unfold recordFailureLocked. do 3 mstep. set (m0 := set_calls _ m).
  apply (wp_move_upd _ _ ts); [done|done|done|]. intros m1 Hm1 Hc1.
  mstep. eapply wp_deref_target; [by eapply moved_lookup|]. unfold after_failure in HQ. simpl in *.
  destruct ts.(ts_state) eqn:Hst; try (mstep; by apply HQ).
  - mstep. eapply wp_move_upd; [apply Hm1|by eapply moved_lookup|done|]. intros m2 Hm2 Hc2.
    mstep; rewrite H2 in HQ.
    + eapply wp_move_state; [apply Hm2|by eapply moved_lookup|simpl; by rewrite Hst|].
      intros m3 Hm3 _. apply HQ. eapply moved_trans; [exact Hm1|]. eapply moved_trans; [exact Hm2|].
      rewrite Hc2, Hc1 in Hm3. exact Hm3.
    + apply HQ. eapply moved_trans; [exact Hm1|exact Hm2].
  - eapply wp_move_state; [apply Hm1|by eapply moved_lookup|simpl; by rewrite Hst|].
    intros m3 Hm3 _. apply HQ. rewrite Hc1 in Hm3. eapply moved_trans; [exact Hm1|exact Hm3].
Qed.

Lemma wp_move_pass name ts Q m :
  inv_except name m → m.(targets) !! name = Some ts → ts.(ts_state) ≠ StateHealthy →
  (∀ m', moved m name (after_pass (clock_at m.(calls)) ts) m' → Q tt m') →
  wp (count_pass name) Q m.
Proof.
  intros HI Hts Hne HQ. unfold count_pass, after_pass in *. mstep.
  eapply wp_move_upd; [done|done|done|]. intros m1 Hm1 Hc1.
  mstep. eapply wp_deref_target; [by eapply moved_lookup|]. simpl in *.
  destruct (RecoveryProbes ts.(params) <=? wrap64 (ts.(consecutiveOK) + 1))%Z; [|by apply HQ].
  eapply wp_move_state; [apply Hm1|by eapply moved_lookup|done|].
  intros m2 Hm2 _. apply HQ. rewrite Hc1 in Hm2. eapply moved_trans; [exact Hm1|exact Hm2].
Qed.

Lemma wp_move_success name ts Q m :
  inv_except name m → m.(targets) !! name = Some ts →
  (∀ m', moved m name (after_success (clock_at m.(calls)) (clock_at (S m.(calls)))
                         (clock_at (S (S m.(calls)))) ts) m' → Q tt m') →
  wp (now ← Now; _ ← upd_target name (set_lastActivity now); recordPassLocked name) Q m.
Proof.
  intros HI Hts HQ. do 3 mstep. set (m0 := set_calls _ m).
  apply (wp_move_upd _ _ ts); [done|done|done|]. intros m1 Hm1 Hc1.
  unfold recordPassLocked. mstep. eapply wp_deref_target; [by eapply moved_lookup|].
  unfold after_success in HQ. simpl in *. set (ts1 := set_lastActivity _ ts) in *.
  pose proof (moved_lookup _ _ _ _ Hm1) as Hts1. pose proof (proj1 Hm1) as HI1.
  assert (Hst1 : ts1.(ts_state) = ts.(ts_state)) by done.
  destruct ts.(ts_state) eqn:Hst.
  - eapply wp_move_upd; [done|done|done|]. intros m2 Hm2 _. apply HQ.
    eapply moved_trans; [exact Hm1|exact Hm2].
  - replace (cold ts1) with (cold ts) in * by done. destruct (cold ts).
    + eapply wp_move_state; [done|done|by rewrite Hst1|]. intros m2 Hm2 _. apply HQ.
      rewrite Hc1 in Hm2. eapply moved_trans; [exact Hm1|exact Hm2].
    + mstep. eapply wp_move_state; [done|done|by rewrite Hst1|]. intros m2 Hm2 Hc2.
      eapply wp_move_pass; [apply Hm2|by eapply moved_lookup|done|].
      intros m3 Hm3. apply HQ. rewrite Hc2, Hc1 in Hm3. rewrite Hc1 in Hm2.
      eapply moved_trans; [exact Hm1|]. eapply moved_trans; [exact Hm2|exact Hm3].
  - eapply wp_move_pass; [done|done|by rewrite Hst1|]. intros m2 Hm2. apply HQ.
    rewrite Hc1 in Hm2. eapply moved_trans; [exact Hm1|exact Hm2].
  - mstep. by apply HQ.
  - eapply wp_move_pass; [done|done|by rewrite Hst1|]. intros m2 Hm2. apply HQ.
    rewrite Hc1 in Hm2. eapply moved_trans; [exact Hm1|exact Hm2].
Qed.

(** ** Whole reports, on a target that exists *)

Lemma wp_targetLocked_found name Q (m : Manager) :
  is_Some (m.(targets) !! name) → Q true m → wp (targetLocked name) Q m.
Proof. intros Hs HQ. unfold targetLocked. do 2 mstep. rewrite bool_decide_true by done. by mstep. Qed.

Lemma wp_report_tail name ts' Q m m1 :
  moved m name ts' m1 →
  (∀ m', inv m' → m'.(targets) = <[name := ts']> m.(targets) → Q tt m') →
  wp (_ ← recomputeForLocked name; unlockAndFlush) Q m1.
Proof.
  intros [[Hwf Hs] Ht] HQ. mstep. apply wp_recomputeFor; [done|done|].
  intros m2 HI2 _ Ht2 _. mstep. apply HQ; [done|]. simpl. by rewrite Ht2.
Qed.

Lemma wp_ReportFailure name err ts Q m :
  inv m → m.(targets) !! name = Some ts →
  (∀ m', inv m' →
     m'.(targets) = <[name := after_failure (clock_at m.(calls)) (clock_at (S m.(calls)))
                                (error_text err) ts]> m.(targets) → Q tt m') →
  wp (ReportFailure name err) Q m.
Proof.
  intros HI Hts HQ. unfold ReportFailure. fold (error_text err). mstep.
  apply wp_targetLocked_found; [by eexists|]. unfold when. apply wp_assoc.
  eapply wp_move_failure; [by apply inv_inv_except|done|]. intros m1 Hm1.
  by eapply wp_report_tail.
Qed.

Lemma wp_ReportSuccess name ts Q m :
  inv m → m.(targets) !! name = Some ts →
  (∀ m', inv m' →
     m'.(targets) = <[name := after_success (clock_at m.(calls)) (clock_at (S m.(calls)))
                                (clock_at (S (S m.(calls)))) ts]> m.(targets) → Q tt m') →
  wp (ReportSuccess name) Q m.
Proof.
  intros HI Hts HQ. unfold ReportSuccess. mstep.
  apply wp_targetLocked_found; [by eexists|]. unfold when.
  apply wp_assoc. mstep. apply wp_assoc. mstep. apply wp_assoc.
  refine (wp_move_success name ts _ m _ Hts _); [by apply inv_inv_except|].
  intros m1 Hm1. by eapply wp_report_tail.
Qed.
End Health.

(** ** The sliding window *)

(** The failures after the start of the window that ends at [t]. *)
Definition recent (W t : Z) (l : list Z) : list Z := List.filter (λ f, (t - W <? f)%Z) l.

(** What the code keeps between failures: the recent ones, [None] once
    tripped. *)
Definition window_step (W K : Z) (fs : option (list Z)) (t : Z) : option (list Z) :=
  fs ← fs;
  let fs := recent W t fs ++ [t] in
  if (K <=? Z.of_nat (length fs))%Z then None else Some fs.

(** The reference: some failure finds [K] of all those so far in the window
    that ends with it. *)
Definition trips (W K : Z) (times : list Z) : Prop :=
  ∃ pre t post, times = pre ++ t :: post ∧
    (K ≤ Z.of_nat (length (recent W t (pre ++ [t]))))%Z.

Lemma trips_snoc W K times t :
  trips W K (times ++ [t]) ↔
  trips W K times ∨ (K ≤ Z.of_nat (length (recent W t (times ++ [t]))))%Z.
Proof.
  split.
  - intros (pre & x & post & Heq & HK).
    destruct post as [|y post _] using rev_ind.
    + apply app_inj_tail in Heq as [-> ->]. by right.
    + rewrite app_comm_cons, app_assoc in Heq. apply app_inj_tail in Heq as [-> _].
      left. by exists pre, x, post.
  - intros [(pre & x & post & -> & HK)|HK].
    + exists pre, x, (post ++ [t]). by rewrite <-app_assoc.
    + by exists times, t, [].
Qed.

Lemma recent_recent W t t' l : (t ≤ t')%Z → recent W t' (recent W t l) = recent W t' l.
Proof.
  intros Hle. induction l as [|f l IH]; simpl; [done|].
  destruct (Z.ltb_spec (t - W) f); simpl; destruct (Z.ltb_spec (t' - W) f); rewrite ?IH; done || lia.
Qed.

Lemma recent_app W t l1 l2 : recent W t (l1 ++ l2) = recent W t l1 ++ recent W t l2.
Proof. apply List.filter_app. Qed.

Lemma Sorted_snoc_le (l : list Z) t :
  StronglySorted Z.le (l ++ [t]) → StronglySorted Z.le l ∧ ∀ x, x ∈ l → (x ≤ t)%Z.
Proof.
  induction l as [|y l IH]; simpl; [split; [constructor|by intros x ?%not_elem_of_nil]|].
  intros [Hs Hy]%StronglySorted_inv. destruct (IH Hs) as [Hl Hx]. rewrite Forall_app in Hy.
  destruct Hy as [Hy Ht]. split; [by constructor|].
  intros x [->|Hin]%elem_of_cons; [by apply Forall_inv in Ht|auto].
Qed.

(** Forgetting the failures before the window loses nothing. *)
Lemma window_prune W K times :
  (0 < W)%Z → StronglySorted Z.le times →
  match fold_left (window_step W K) times (Some []) with
  | Some fs => ¬ trips W K times ∧
               ∀ t, (∀ x, x ∈ times → (x ≤ t)%Z) → recent W t fs = recent W t times
  | None => trips W K times
  end.
Proof.
  intros HW. induction times as [|t times IH] using rev_ind; intros Hs.
  { split; [|done]. intros (pre & t & post & Heq & _). by destruct pre. }
  apply Sorted_snoc_le in Hs as [Hs Hle]. specialize (IH Hs). rewrite fold_left_app. simpl.
  destruct (fold_left _ times _) as [fs|]; simpl; [|apply trips_snoc; by left].
  destruct IH as [Hn Hfs].
  assert (Hlast : recent W t [t] = [t]).
  { unfold recent. simpl. by replace (t - W <? t)%Z with true by lia. }
  assert (Heq : recent W t fs ++ [t] = recent W t (times ++ [t])).
  { rewrite recent_app, Hlast. by rewrite Hfs. }
  rewrite Heq. destruct (Z.leb_spec K (Z.of_nat (length (recent W t (times ++ [t]))))).
  - apply trips_snoc. by right.
  - split; [rewrite trips_snoc; intros [?|?]; [done|lia]|].
    intros t' Ht'. apply recent_recent, Ht'. rewrite elem_of_app, list_elem_of_singleton. by right.
Qed.

(** ** Runs of reports *)

Section Bursts.
Context `{EnvLaws, !ValidConfigs}.

(** [k] failures reported in a row, and the instants the reports read. *)
Definition failure_burst (name : string) (err : option GoError) (k : nat) : M Manager (list Z) :=
  collect (replicate k name)
    (λ t, m ← get; _ ← ReportFailure t err; mret [clock_at m.(calls)]).

(** [k] successes. *)
Definition success_burst (name : string) (k : nat) : M Manager unit :=
  for_each (replicate k name) ReportSuccess.

Definition only (name : string) (m m' : Manager) : Prop :=
  ∀ x, x ≠ name → m'.(targets) !! x = m.(targets) !! x.

Lemma only_step name m m1 ts' m2 :
  only name m m1 → m2.(targets) = <[name := ts']> m1.(targets) → only name m m2.
Proof. intros Ho Ht x Hx. rewrite Ht, lookup_insert_ne by done. by apply Ho. Qed.

(** The target after the failures at [acc]. *)
Definition windowed (ts : targetState) (acc : list Z) (ts1 : targetState) : Prop :=
  ts1.(params) = ts.(params) ∧
  match fold_left (window_step (TripWindow ts.(params)) (TripErrors ts.(params))) acc (Some []) with
  | Some fs => ts1.(ts_state) = StateHealthy ∧ ts1.(failures) = fs
  | None => ts1.(ts_state) = StateDown
  end.

Lemma windowed_step ts acc ts1 t t' msg :
  windowed ts acc ts1 → windowed ts (acc ++ [t]) (after_failure t t' msg ts1).
Proof.
  intros [Hp Hw]. unfold windowed, after_failure. rewrite fold_left_app. simpl.
  destruct (fold_left _ acc _) as [fs|]; simpl.
  - destruct Hw as [Hst Hf]. rewrite Hst. unfold add_failure. simpl. rewrite Hf, Hp.
    fold (recent (TripWindow ts.(params)) t fs).
    replace (Add t (- TripWindow ts.(params))) with (t - TripWindow ts.(params))%Z
      by (unfold Add; lia).
    fold (recent (TripWindow ts.(params)) t fs).
    destruct (TripErrors ts.(params) <=? _)%Z; [done|]. simpl. by split_and!.
  - rewrite Hw. done.
Qed.

Lemma wp_failure_burst name err k ts Q m :
  inv m → m.(targets) !! name = Some ts → ts.(ts_state) = StateHealthy → ts.(failures) = [] →
  (∀ times m' ts', length times = k → inv m' → only name m m' →
     m'.(targets) !! name = Some ts' → windowed ts times ts' → Q times m') →
  wp (failure_burst name err k) Q m.
Proof.
  intros HI Hts Hst Hfs HQ. unfold failure_burst.
  apply (wp_collect (λ l acc m1, inv m1 ∧ length acc + length l = k ∧ (∀ x, x ∈ l → x = name) ∧
    only name m m1 ∧ ∃ ts1, m1.(targets) !! name = Some ts1 ∧ windowed ts acc ts1)).
  - split_and!; [done|by rewrite length_replicate|by intros x [-> _]%elem_of_replicate|done|by exists ts].
  - intros x l acc m1 (HI1 & Hlen & Hl & Ho & ts1 & Hts1 & Hw).
    pose proof (Hl x ltac:(by left)) as ->. do 3 mstep. eapply wp_ReportFailure; [done|done|].
    intros m2 HI2 Ht2. mstep. split_and!; [done| |by intros; apply Hl; right|by eapply only_step|].
    + rewrite length_app. simpl in *. lia.
    + eexists. split; [rewrite Ht2; apply lookup_insert_eq|]. by apply windowed_step.
  - intros acc m1 (HI1 & Hlen & _ & Ho & ts1 & Hts1 & Hw). simpl in Hlen.
    eapply HQ; [lia|done|done|done|done].
Qed.

(** The target after [n] successes in a row on one that was down. *)
Definition recovered (ts : targetState) (n : Z) (ts1 : targetState) : Prop :=
  ts1.(params) = ts.(params) ∧
  if (RecoveryProbes ts.(params) <=? n)%Z then ts1.(ts_state) = StateHealthy
  else ts1.(ts_state) = StateRecovering ∧ ts1.(consecutiveOK) = n.

Lemma after_pass_recovered ts n now ts1 :
  (0 ≤ n < 2 ^ 63 - 1)%Z → ts1.(params) = ts.(params) → ts1.(ts_state) = StateRecovering →
  ts1.(consecutiveOK) = n → recovered ts (n + 1) (after_pass now ts1).
Proof.
  intros Hn Hp Hst Hc. unfold recovered, after_pass. simpl. rewrite Hc, Hp, wrap64_id by lia.
  by destruct (RecoveryProbes ts.(params) <=? n + 1)%Z.
Qed.

Lemma recovered_first ts n1 n2 n3 :
  ts.(ts_state) = StateDown → cold ts = false → recovered ts 1 (after_success n1 n2 n3 ts).
Proof.
  intros Hst Hc. unfold after_success. simpl. rewrite Hst.
  replace (cold (set_lastActivity n1 ts)) with false by done.
  by apply (after_pass_recovered ts 0).
Qed.

Lemma recovered_next ts n n1 n2 n3 ts1 :
  (1 ≤ n < 2 ^ 63 - 1)%Z → recovered ts n ts1 → recovered ts (n + 1) (after_success n1 n2 n3 ts1).
Proof.
  intros Hn [Hp Hr]. unfold after_success. simpl.
  destruct (Z.leb_spec (RecoveryProbes ts.(params)) n).
  - rewrite Hr. split; [done|]. by replace (RecoveryProbes ts.(params) <=? n + 1)%Z with true by lia.
  - destruct Hr as [Hst Hc]. rewrite Hst. apply after_pass_recovered; [lia|done|done|done].
Qed.

Lemma wp_success_burst name k ts Q m :
  inv m → m.(targets) !! name = Some ts → ts.(ts_state) = StateDown → cold ts = false →
  (1 ≤ Z.of_nat k < 2 ^ 63)%Z →
  (∀ m' ts', inv m' → only name m m' → m'.(targets) !! name = Some ts' →
     recovered ts (Z.of_nat k) ts' → Q tt m') →
  wp (success_burst name k) Q m.
Proof.
  intros HI Hts Hst Hc Hk HQ. unfold success_burst.
  destruct k as [|k]; [lia|]. simpl. mstep. eapply wp_ReportSuccess; [done|done|].
  intros m1 HI1 Ht1.
  apply (wp_for_each (λ l m2, inv m2 ∧ length l ≤ k ∧ (∀ x, x ∈ l → x = name) ∧ only name m m2 ∧
    ∃ ts2, m2.(targets) !! name = Some ts2 ∧ recovered ts (Z.of_nat (S k) - Z.of_nat (length l)) ts2)).
  - rewrite length_replicate. split_and!; [done|done|intros x Hx; by apply elem_of_replicate in Hx as [-> _]|by eapply only_step|].
    eexists. split; [rewrite Ht1; apply lookup_insert_eq|].
    replace (Z.of_nat (S k) - Z.of_nat k)%Z with 1%Z by lia. by apply recovered_first.
  - intros x l m2 (HI2 & Hlen & Hl & Ho & ts2 & Hts2 & Hr). simpl in Hlen, Hr.
    pose proof (Hl x ltac:(by left)) as ->. eapply wp_ReportSuccess; [done|done|].
    intros m3 HI3 Ht3. split_and!; [done|lia|by intros; apply Hl; right|by eapply only_step|].
    eexists. split; [rewrite Ht3; apply lookup_insert_eq|].
    replace (Z.of_nat (S k) - Z.of_nat (length l))%Z
      with (Z.of_nat (S k) - Z.of_nat (S (length l)) + 1)%Z by lia.
    apply recovered_next; [lia|done].
  - intros m2 (HI2 & _ & _ & Ho & ts2 & Hts2 & Hr). simpl in Hr. rewrite Z.sub_0_r in Hr.
    by eapply HQ.
Qed.
End Bursts.

(** ** Theorems *)

(** C4. The trip rule, against its reference over the whole history: after any
    number of failures reported on a healthy target, the target is down if
    and only if some failure found [trip.errors] failures, itself included,
    in the window [trip.window] that ends with it; otherwise it is still
    healthy.  No other target moves. *)
Theorem failover_trips `{EnvLaws, !ValidConfigs} m name ts err k :
  reachable m → m.(targets) !! name = Some ts → ts.(ts_state) = StateHealthy → ts.(failures) = [] →
  ∃ times m' ts', failure_burst name err k m = Some (times, m') ∧ length times = k ∧
    m'.(targets) !! name = Some ts' ∧
    (∀ x, x ≠ name → m'.(targets) !! x = m.(targets) !! x) ∧
    (StronglySorted Z.le times →
     (ts'.(ts_state) = StateDown ↔ trips (TripWindow ts.(params)) (TripErrors ts.(params)) times) ∧
     (ts'.(ts_state) = StateHealthy ↔ ¬ trips (TripWindow ts.(params)) (TripErrors ts.(params)) times)).
Proof.
  intros Hr Hts Hst Hfs. apply reachable_sound in Hr.
  destruct (wp_Some (failure_burst name err k) (λ times m', length times = k ∧ only name m m' ∧
    ∃ ts', m'.(targets) !! name = Some ts' ∧ windowed ts times ts') m)
    as (times & m' & Hrun & Hlen & Ho & ts' & Hts' & _ & Hw); [by eapply wp_failure_burst; eauto|].
  exists times, m', ts'. split_and!; try done. intros Hs.
  pose proof (window_prune (TripWindow ts.(params)) (TripErrors ts.(params)) times) as Hp.
  assert (HW : (0 < TripWindow ts.(params))%Z) by (by apply durationOr_pos).
  specialize (Hp HW Hs).
  destruct (fold_left _ times _) as [fs|].
  - destruct Hw as [Hh _], Hp as [Hp _]. rewrite Hh. split; [|done]. by split.
  - rewrite Hw. split; [done|]. split; [done|]. by intros [].
Qed.

(** C5. Recovery: a target that is down and not cold is recovering after its
    first successes and healthy exactly when [recovery.probes] of them came
    in a row; one failure before that sends it back down with its count lost.
    No other target moves. *)
Theorem failover_recovers `{EnvLaws, !ValidConfigs} m name ts k :
  reachable m → m.(targets) !! name = Some ts → ts.(ts_state) = StateDown → cold ts = false →
  (1 ≤ Z.of_nat k < 2 ^ 63)%Z →
  ∃ m' ts', success_burst name k m = Some (tt, m') ∧ m'.(targets) !! name = Some ts' ∧
    (∀ x, x ≠ name → m'.(targets) !! x = m.(targets) !! x) ∧
    (ts'.(ts_state) = StateHealthy ↔ (RecoveryProbes ts.(params) ≤ Z.of_nat k)%Z) ∧
    (ts'.(ts_state) = StateRecovering ↔ (Z.of_nat k < RecoveryProbes ts.(params))%Z) ∧
    (ts'.(ts_state) = StateRecovering →
     ∀ err, ∃ m2 ts2, ReportFailure name err m' = Some (tt, m2) ∧ m2.(targets) !! name = Some ts2 ∧
       ts2.(ts_state) = StateDown ∧ ts2.(consecutiveOK) = 0%Z).
Proof.
  intros Hr Hts Hst Hc Hk. apply reachable_sound in Hr.
  destruct (wp_Some (success_burst name k) (λ _ m', inv m' ∧ only name m m' ∧
    ∃ ts', m'.(targets) !! name = Some ts' ∧ recovered ts (Z.of_nat k) ts') m)
    as ([] & m' & Hrun & HI' & Ho & ts' & Hts' & _ & Hrec); [by eapply wp_success_burst; eauto|].
  exists m', ts'. do 3 (split; [done|]).
  assert (Hsplit : (RecoveryProbes ts.(params) ≤ Z.of_nat k)%Z ∧ ts'.(ts_state) = StateHealthy ∨
                   (Z.of_nat k < RecoveryProbes ts.(params))%Z ∧ ts'.(ts_state) = StateRecovering).
  { destruct (Z.leb_spec (RecoveryProbes ts.(params)) (Z.of_nat k)); [by left|right]. by destruct Hrec. }
  split; [destruct Hsplit as [[? ->]|[? ->]]; split; done || lia|].
  split; [destruct Hsplit as [[? ->]|[? ->]]; split; done || lia|].
  intros Hst' err.
  destruct (wp_Some (ReportFailure name err) (λ _ m2, ∃ ts2, m2.(targets) !! name = Some ts2 ∧
       ts2.(ts_state) = StateDown ∧ ts2.(consecutiveOK) = 0%Z) m') as ([] & m2 & Hrun2 & ts2 & ?).
  - eapply wp_ReportFailure; [done|done|]. intros m2 _ Ht2. eexists.
    split; [rewrite Ht2; apply lookup_insert_eq|]. unfold after_failure. simpl. by rewrite Hst'.
  - by exists m2, ts2.
Qed.
