(* ===== verification/FailoverRequests.v ===== *)
(** * FailoverRequests: what a request gets from its chain

    The loop of [Do]: which targets it calls, when it goes on to the next one
    and what it returns. *)
From S2P Require Import Prelude GoMonad GoTime FailoverConfig FailoverClassify FailoverManager.
From S2P Require Import FailoverSync FailoverInv FailoverSafety FailoverProps.

(** The failure is one another target may cure, and the client still waits:
    [m] is the state the call left, where the context is looked at. *)
Definition curable `{Env} (m : Manager) (err : option GoError) : Prop :=
  IsRetryable err 0 = true ∧ ctx_done_at m.(calls) = false.

(** A call after which the next target is tried: it failed before any output
    was committed, in a way another target may not. *)
Definition goes_on `{Env} (m : Manager) (c : Call) : Prop :=
  c.1.2 ≠ None ∧ c.2 = false ∧ (IsCapabilityGap c.1.2 = true ∨ curable m c.1.2).

(** A call after which the loop stops with targets left. *)
Definition stops `{Env} (m : Manager) (err : option GoError) (committed : bool) : Prop :=
  err = None ∨ committed = true ∨ IsCapabilityGap err = false ∧ ¬ curable m err.

(** What the manager is told of the target [t] after a call that left [m]: its
    success; nothing about a kind of request it cannot serve; its failure when
    the failure is the target's; nothing when the request itself was at fault
    or its client has gone. *)
Definition told `{Env} (t : string) (err : option GoError) (committed : bool) (m m' : Manager) : Prop :=
  match err with
  | None => ReportSuccess t m = Some (tt, m')
  | Some _ =>
      if IsCapabilityGap err && negb committed then m' = m
      else (curable m err → ReportFailure t err (set_calls (S m.(calls)) m) = Some (tt, m')) ∧
           (¬ curable m err → m' = set_calls (S m.(calls)) m)
  end.

(** One request over the targets left, from a state to a state: the error it
    returns and the calls it makes. *)
Inductive served `{Env} (fn : RequestFn) :
    list string → Manager → option GoError → list Call → Manager → Prop :=
| served_last t ts err committed m m1 m2 :
    fn t m = Some ((err, committed), m1) → ts = [] ∨ stops m1 err committed →
    told t err committed m1 m2 →
    served fn (t :: ts) m err [(t, err, committed)] m2
| served_next t ts err committed r calls m m1 m2 m3 :
    fn t m = Some ((err, committed), m1) → goes_on m1 (t, err, committed) →
    told t err committed m1 m2 → served fn ts m2 r calls m3 →
    served fn (t :: ts) m r ((t, err, committed) :: calls) m3.

(** After a call the loop either goes on or stops, and not both. *)
Lemma goes_on_stops `{Env} m t err committed :
  goes_on m (t, err, committed) ↔ ¬ stops m err committed.
Proof.
  unfold goes_on, stops, curable; simpl. destruct err as [e|]; [|naive_solver].
  destruct committed, (IsCapabilityGap (Some e)), (IsRetryable (Some e) 0), (ctx_done_at m.(calls));
    naive_solver.
Qed.

(** The calls are a front part of the targets: in order, one each. *)
Lemma served_prefix `{Env} fn ts m r calls m' :
  served fn ts m r calls m' → map (λ c : Call, c.1.1) calls `prefix_of` ts.
Proof.
  induction 1 as [t ts|]; simpl; [by exists ts|by apply prefix_cons].
Qed.

(** A call that was not retryable, or whose client has gone, is not counted
    against its target. *)
Lemma told_not_curable `{Env} t e committed m :
  IsCapabilityGap (Some e) && negb committed = false → ¬ curable m (Some e) →
  told t (Some e) committed m (set_calls (S m.(calls)) m).
Proof. intros Hg Hn. unfold told. by rewrite Hg. Qed.

Lemma told_curable `{Env} t e committed m m' :
  IsCapabilityGap (Some e) && negb committed = false → curable m (Some e) →
  ReportFailure t (Some e) (set_calls (S m.(calls)) m) = Some (tt, m') →
  told t (Some e) committed m m'.
Proof. intros Hg Hc Hr. unfold told. by rewrite Hg. Qed.

Section Requests.
Context `{EnvLaws, !ValidConfigs}.

(** The attempt stands at the head of the targets left. *)
Definition attempt_at (a : Attempt) (t : string) (ts : list string) : Prop :=
  (0 ≤ a.(a_i))%Z ∧ drop (Z.to_nat a.(a_i)) a.(a_targets) = t :: ts.

Lemma wp_Attempt_Target a t ts Q (m : Manager) :
  attempt_at a t ts → Q t m → wp (Attempt_Target a) Q m.
Proof.
  intros [Hi Hd] HQ. apply (wp_index _ _ t); [done| |done].
  rewrite <-(Nat.add_0_r (Z.to_nat _)), <-lookup_drop. by rewrite Hd.
Qed.

Lemma advance_at a t ts :
  attempt_at a t ts →
  match ts with
  | [] => advance a = None
  | t' :: ts' => ∃ a', advance a = Some a' ∧ attempt_at a' t' ts'
  end.
Proof.
  intros [Hi Hd]. assert (Hlen : length (drop (Z.to_nat a.(a_i)) a.(a_targets)) = S (length ts))
    by (by rewrite Hd).
  rewrite length_drop in Hlen. unfold advance.
  destruct ts as [|t' ts']; simpl in Hlen.
  - by replace (Z.of_nat (length a.(a_targets)) <=? a.(a_i) + 1)%Z with true by lia.
  - replace (Z.of_nat (length a.(a_targets)) <=? a.(a_i) + 1)%Z with false by lia.
    eexists. split; [done|]. split; simpl; [lia|].
    replace (Z.to_nat (a.(a_i) + 1)) with (Z.to_nat a.(a_i) + 1)%nat by lia.
    by rewrite <-drop_drop, Hd.
Qed.

(** The result is an error the loop returned, as [served] says. *)
Definition do_ok (fn : RequestFn) (ts : list string) (m : Manager) (p : DoResult * list Call) (m' : Manager) : Prop :=
  inv m' ∧ ∃ err, p.1 = DoReturned err ∧ served fn ts m err p.2 m'.

(** The loop goes on to the targets left once a call has been settled. *)
Lemma wp_do_next fuel a t ts fn err committed m m1 m2 :
  (∀ a t ts m, attempt_at a t ts → (length ts < fuel)%nat → inv m →
     wp (do_loop fuel a fn) (do_ok fn (t :: ts) m) m) →
  attempt_at a t ts → (length ts < S fuel)%nat → inv m2 →
  fn t m = Some ((err, committed), m1) → goes_on m1 (t, err, committed) → told t err committed m1 m2 →
  wp (match advance a with
      | None => mret (DoReturned err, [(t, err, committed)])
      | Some a' => '(r, l) ← do_loop fuel a' fn; mret (r, (t, err, committed) :: l)
      end) (do_ok fn (t :: ts) m) m2.
Proof.
  intros IH Ha Hf HI2 Hfn Hgo Ht. pose proof (advance_at a t ts Ha) as Hadv.
  destruct ts as [|t' ts']; [rewrite Hadv|destruct Hadv as (a' & -> & Ha')].
  - mstep. split; [done|]. exists err. split; [done|]. eapply served_last; eauto.
  - mstep. eapply wp_mono; [apply (IH a' t' ts'); [done|simpl in Hf; lia|done]|].
    intros [r l] m3 (HI3 & e & He & Hs). mstep. split; [done|]. exists e. split; [done|].
    eapply served_next; eauto.
Qed.

Lemma wp_do_loop fuel a t ts fn m :
  (∀ t, sound (fn t)) → attempt_at a t ts → (length ts < fuel)%nat → inv m →
  wp (do_loop fuel a fn) (do_ok fn (t :: ts) m) m.
Proof.
  intros Hfn. revert a t ts m. induction fuel as [|fuel IH]; intros a t ts m Ha Hf HI; [lia|].
  simpl. mstep. eapply wp_Attempt_Target; [done|]. mstep.
  eapply wp_mono; [apply wp_run, Hfn, HI|]. intros [err committed] m1 [Hrun HI1].
  assert (Hlast : ∀ m2, inv m2 → stops m1 err committed → told t err committed m1 m2 →
    do_ok fn (t :: ts) m (DoReturned err, [(t, err, committed)]) m2).
  { intros m2 HI2 Hs Ht. split; [done|]. exists err. split; [done|]. eapply served_last; eauto. }
  destruct err as [e|].
  - destruct (IsCapabilityGap (Some e) && negb committed) eqn:Hgap.
    { eapply wp_do_next; eauto; [bool_hyps; split_and!; auto|]. unfold told. by rewrite Hgap. }
    mstep. mstep. mstep.
    { assert (Hn : ¬ curable m1 (Some e)).
      { intros [Hr Hd]. bool_hyps. rewrite Hr, Hd in *. done. }
      mstep. apply Hlast; [done| |by apply told_not_curable].
      apply andb_false_iff in Hgap as [Hgap|Hgap]; [by right; right|].
      right; left. by apply negb_false_iff. }
    assert (Hc : curable m1 (Some e)) by (split; bool_hyps; auto).
    destruct committed; unfold Report, Fail; do 2 mstep; (eapply wp_Attempt_Target; [done|]); try mstep;
      (eapply wp_mono; [apply wp_run, sound_ReportFailure; done|]); intros [] m2 [Hr HI2]; mstep.
    + apply Hlast; [done|by right; left|by apply told_curable].
    + eapply wp_do_next; eauto; [split_and!; auto|by apply told_curable].
  - mstep. unfold Succeed. mstep. eapply wp_Attempt_Target; [done|].
    eapply wp_mono; [apply wp_run, sound_ReportSuccess, HI1|]. intros [] m2 [Hr HI2]. mstep.
    apply Hlast; [done|by left|done].
Qed.

(** A request, from its plan on. *)
Definition request_ok (chain : string) (ch : chainState) (fn : RequestFn) (m : Manager)
    (p : DoResult * list Call) (m' : Manager) : Prop :=
  match p.1 with
  | DoPlanError e => plan_ok m ch (inr e) ∧ p.2 = []
  | DoReturned err => ∃ a m1, Plan chain m = Some (inl a, m1) ∧ plan_ok m ch (inl a) ∧
      map (λ c : Call, c.1.1) p.2 `prefix_of` a.(a_targets) ∧
      served fn a.(a_targets) m1 err p.2 m'
  | DoOutOfFuel => False
  end.

Lemma wp_Do chain ch fn m :
  (∀ t, sound (fn t)) → inv m → m.(chains) !! chain = Some ch →
  wp (Do chain fn) (request_ok chain ch fn m) m.
Proof.
  intros Hfn HI Hch. unfold Do. mstep. eapply wp_mono.
  { apply wp_run, wp_and; [apply (sound_Plan chain m HI)|].
    apply (wp_Plan _ ch (λ r _, plan_ok m ch r)); done. }
  intros [a|e] m1 (Hrun & HI1 & Hok); [|by mstep].
  pose proof Hok as (Hi & Hne & _). destruct (a.(a_targets)) as [|t ts] eqn:Ha; [done|].
  eapply wp_mono; [eapply (wp_do_loop _ a t ts fn); [done|split| |done]|].
  - by rewrite Hi.
  - by rewrite Hi, Ha.
  - simpl. lia.
  - intros [r calls] m2 (_ & err & Hr & Hs). simpl in Hr. subst r. exists a, m1. rewrite Ha.
    split_and!; try done. eapply served_prefix. done.
Qed.
End Requests.

(** C2. A request on a chain: it calls targets of its plan in the plan's order
    and no others, one call each; it goes on to the next target exactly after a
    failure that committed no output and that is a capability gap, or is
    retryable while the request's context is not cancelled; so it stops at the
    first success, once output is committed, on an error no other target would
    cure, on a context cancelled when the call returns, or with every target
    tried; and it returns the error of its last call.  After each call the
    manager is told of a success, of a retryable failure under a live context,
    and of nothing else: a capability gap, a bad request and a cancelled
    request are not counted against the target.  It always returns, whatever
    the request function and other goroutines do to the manager meanwhile. *)
Theorem failover_do `{EnvLaws, !ValidConfigs} m chain ch fn :
  reachable m → m.(chains) !! chain = Some ch → (∀ t, sound (fn t)) →
  ∃ r calls m', Do chain fn m = Some ((r, calls), m') ∧ request_ok chain ch fn m (r, calls) m'.
Proof.
  intros Hr Hch Hfn.
  destruct (wp_Some (Do chain fn) (request_ok chain ch fn m) m) as ([r calls] & m' & Hrun & Hok); [|by eauto].
  apply wp_Do; [done|by apply reachable_sound|done].
Qed.
