(* ===== verification/FailoverShare.v ===== *)
(** * FailoverShare: switching, sharing state and pins

    The rule that moves a chain's active target, the authority of the leader
    over the chains of its followers, the pins shared with other frontends and
    the warm set. *)
From Stdlib Require Import Sorted.
From S2P Require Import Prelude GoMonad GoTime FailoverConfig FailoverClassify FailoverManager.
From S2P Require Import FailoverSync FailoverInv FailoverSafety FailoverProps.

(** ** The switching rule *)

(** [i] is the index of the healthy target of highest priority. *)
Definition is_best (tgts : gmap string targetState) (l : list string) (i : Z) : Prop :=
  (0 ≤ i)%Z ∧ (∃ x, l !! Z.to_nat i = Some x ∧ is_healthy tgts x = true) ∧
  ∀ j x, (j < Z.to_nat i)%nat → l !! j = Some x → is_healthy tgts x = false.

(** Where a chain that decides for itself goes at the instant [now]. *)
Record switch_rule (tgts : gmap string targetState) (now : Z) (ch ch' : chainState) : Prop := {
  sw_same : ch'.(ch_name) = ch.(ch_name) ∧ ch'.(cfg) = ch.(cfg) ∧
            ch'.(ch_targets) = ch.(ch_targets) ∧ ch'.(pinned) = ch.(pinned) ∧ ch'.(adopted) = ch.(adopted);
  sw_since : ch'.(activeSince) = if (ch'.(active) =? ch.(active))%Z then ch.(activeSince) else now;
  sw_pinned : ch.(pinned) ≠ "" → ch.(ch_targets) !! Z.to_nat ch'.(active) = Some ch.(pinned);
  sw_none : ch.(pinned) = "" → (∀ x, x ∈ ch.(ch_targets) → is_healthy tgts x = false) →
            ch'.(active) = ch.(active);
  sw_failover : ∀ i cur, ch.(pinned) = "" → is_best tgts ch.(ch_targets) i →
            ch.(ch_targets) !! Z.to_nat ch.(active) = Some cur → is_healthy tgts cur = false →
            ch'.(active) = i;
  sw_failback : ∀ i cur, ch.(pinned) = "" → is_best tgts ch.(ch_targets) i →
            ch.(ch_targets) !! Z.to_nat ch.(active) = Some cur → is_healthy tgts cur = true →
            ch'.(active) = if (MinDwell ch.(cfg) <=? Sub now ch.(activeSince))%Z then i else ch.(active);
  sw_state : ch'.(ch_state) =
     if String.eqb ch.(pinned) "" && negb (existsb (is_healthy tgts) ch.(ch_targets)) then ChainDegraded
     else if (ch'.(active) =? 0)%Z then ChainPrimary else ChainFallback;
}.

Lemma is_best_first tgts l i : is_best tgts l i → first_healthy tgts l 0 = i.
Proof.
  intros (Hi & (x & Hx & Hh) & Hb).
  destruct (first_healthy_range tgts l 0) as [[_ Hn]|(Hr & (y & Hy & Hyh) & Hb')]; [done| |].
  - rewrite Hn in Hh; [done|]. by eapply list_elem_of_lookup_2.
  - rewrite Z.sub_0_r in *. set (b := first_healthy tgts l 0) in *.
    destruct (Z.lt_trichotomy b i) as [Hlt|[?|Hlt]]; [|done|].
    + rewrite (Hb (Z.to_nat b) y) in Hyh; [done|lia|done].
    + rewrite (Hb' (Z.to_nat i) x) in Hh; [done|lia|done].
Qed.

Lemma first_healthy_none tgts l :
  (first_healthy tgts l 0 =? -1)%Z = negb (existsb (is_healthy tgts) l).
Proof.
  destruct (first_healthy_range tgts l 0) as [[-> Hn]|(Hr & (y & Hy & Hyh) & _)]; [done| |].
  - symmetry. apply negb_true_iff. apply not_true_iff_false. rewrite existsb_exists.
    intros (x & Hx & Hh). rewrite Hn in Hh; [done|]. by apply list_elem_of_In.
  - replace (_ =? -1)%Z with false by lia. symmetry. apply negb_false_iff, existsb_exists.
    exists y. split; [|done]. apply list_elem_of_In. by eapply list_elem_of_lookup_2.
Qed.

Lemma recomputed_active tgts now ch :
  (recomputed tgts now ch).(active) = (decide_pure tgts ch now).1.
Proof. unfold recomputed. destruct (Z.eqb_spec (decide_pure tgts ch now).1 ch.(active)); simpl; lia. Qed.

(** The decision with an unpinned chain and a best target. *)
Lemma decide_pure_best tgts ch now k i cur :
  chain_wf k ch → ch.(pinned) = "" → is_best tgts ch.(ch_targets) i →
  ch.(ch_targets) !! Z.to_nat ch.(active) = Some cur →
  (decide_pure tgts ch now).1 =
    if is_healthy tgts cur && negb (MinDwell ch.(cfg) <=? Sub now ch.(activeSince))%Z
    then ch.(active) else i.
Proof.
  intros (_ & Ha & _) Hp Hb Hcur. pose proof Hb as (Hi & (x & Hx & Hxh) & Hbefore).
  unfold decide_pure. rewrite (is_best_first _ _ _ Hb), Hp, Hcur. simpl.
  replace (i =? -1)%Z with false by lia.
  destruct (Z.ltb_spec ch.(active) i).
  - rewrite (Hbefore (Z.to_nat ch.(active)) cur); [done|lia|done].
  - destruct (Z.ltb_spec i ch.(active)).
    + destruct (is_healthy tgts cur); simpl; [|done]. by destruct (MinDwell _ <=? _)%Z.
    + replace ch.(active) with i by lia. simpl. by destruct (_ && _).
Qed.

Lemma recomputed_rule tgts now k ch : chain_wf k ch → switch_rule tgts now ch (recomputed tgts now ch).
Proof.
  intros Hwf. pose proof (recomputed_active tgts now ch) as Hact.
  split.
  - unfold recomputed. by destruct (_ =? _)%Z.
  - rewrite Hact. unfold recomputed. by destruct (_ =? _)%Z.
  - intros Hp. rewrite Hact. unfold decide_pure.
    destruct (String.eqb_spec ch.(pinned) "") as [|_]; [done|]. simpl.
    destruct Hwf as (_ & _ & [?|Hin]); [done|]. by apply Index_elem.
  - intros Hp Hn. rewrite Hact. unfold decide_pure. rewrite Hp. simpl.
    destruct (first_healthy_range tgts ch.(ch_targets) 0) as [[-> _]|(_ & (y & Hy & Hyh) & _)]; [done|done|].
    rewrite Hn in Hyh; [done|]. by eapply list_elem_of_lookup_2.
  - intros i cur Hp Hb Hcur Hh. rewrite Hact, (decide_pure_best _ _ _ _ _ _ Hwf Hp Hb Hcur). by rewrite Hh.
  - intros i cur Hp Hb Hcur Hh. rewrite Hact, (decide_pure_best _ _ _ _ _ _ Hwf Hp Hb Hcur), Hh.
    by destruct (MinDwell _ <=? _)%Z.
  - rewrite Hact, <-first_healthy_none. unfold recomputed, chain_state_of. simpl.
    by destruct (_ =? _)%Z.
Qed.

(** An event reports the active target before and after. *)
Definition switch_event (ch ch' : chainState) (ev : Event) : Prop :=
  ev.(Type_) = EventChainSwitched ∧ ev.(Chain) = ch.(ch_name) ∧
  ch.(ch_targets) !! Z.to_nat ch.(active) = Some ev.(From) ∧
  ch.(ch_targets) !! Z.to_nat ch'.(active) = Some ev.(To) ∧
  ev.(State) = ChainState_string ch'.(ch_state).

Lemma recompute_events_spec tgts now k ch ov :
  chain_wf k ch →
  let ch' := recomputed tgts now ch in
  if (ch'.(active) =? ch.(active))%Z && bool_decide (is_degraded ch'.(ch_state) = is_degraded ch.(ch_state))
  then recompute_events tgts now ch ov = []
  else ∃ ev, recompute_events tgts now ch ov = [ev] ∧ switch_event ch ch' ev.
Proof.
  intros Hwf. cbv zeta. pose proof (decide_pure_range tgts ch now k Hwf) as Hn.
  destruct Hwf as (_ & Ha & _).
  destruct (index_lookup _ _ Ha) as [cur Hcur], (index_lookup _ _ Hn) as [nxt Hnxt].
  unfold switch_event. rewrite recomputed_active. unfold recompute_events, recomputed. simpl.
  destruct (decide_pure tgts ch now) as [next reason]. simpl in *. rewrite Hcur, Hnxt. simpl.
  set (st := chain_state_of _ _ _).
  destruct (next =? ch.(active))%Z eqn:Hne; simpl.
  - destruct (is_degraded st), (is_degraded ch.(ch_state)); simpl; try done; eexists; by split_and!.
  - eexists; by split_and!.
Qed.

Section Share.
Context `{EnvLaws, !ValidConfigs}.

(** ** Following the leader *)

(** A recompute of any chain leaves it. *)
Lemma wp_recompute_follows name ch k ov m :
  wf m → m.(chains) !! name = Some ch → blocked m ch = true → is_Some (m.(chains) !! k) →
  wp (recomputeLocked k ov) (λ _ m', m'.(chains) !! name = Some ch ∧ same_mode m m' ∧ wf m' ∧
    ∀ x, is_Some (m.(chains) !! x) → is_Some (m'.(chains) !! x)) m.
Proof.
  intros [Hwt Hwc] Hch Hb [ck Hk]. apply (wp_recompute _ _ ck); [done|by apply Hwc|done|].
  intros Hnb m' (Hm & Ht & _ & Hc & _). rewrite Hc. split_and!; [|done| |].
  - destruct (decide (k = name)) as [->|Hne]; [|by rewrite lookup_insert_ne].
    simplify_eq. by rewrite Hb in Hnb.
  - split; [by rewrite Ht|]. rewrite Hc. apply map_Forall_insert_2; [|done]. by apply recomputed_wf, Hwc.
  - intros x Hx. rewrite lookup_insert_is_Some'. by right.
Qed.

Lemma wp_recompute_loop_follows name ch ks (f : string → M Manager unit) m :
  (∀ k m, is_Some (m.(chains) !! k) → wf m →
     f k m = Some (tt, m) ∨ f k m = recomputeLocked k "" m) →
  wf m → m.(chains) !! name = Some ch → blocked m ch = true → (∀ k, k ∈ ks → is_Some (m.(chains) !! k)) →
  wp (for_each ks f) (λ _ m', m'.(chains) !! name = Some ch ∧ same_mode m m') m.
Proof.
  intros Hf Hwf Hch Hb Hks.
  apply (wp_for_each (λ l m', m'.(chains) !! name = Some ch ∧ same_mode m m' ∧ wf m' ∧
    ∀ k, k ∈ l → is_Some (m'.(chains) !! k))); [done| |by intros m' (? & ? & _)].
  intros k l m1 (Hch1 & Hm1 & Hwf1 & Hl). pose proof (Hl k ltac:(by left)) as Hk.
  assert (Hb1 : blocked m1 ch = true).
  { destruct Hm1 as (_ & Hs & _ & Hld & _). unfold blocked in *. by rewrite Hs, Hld. }
  unfold wp. destruct (Hf k m1 Hk Hwf1) as [->| ->].
  - split_and!; try done. intros; apply Hl; by right.
  - pose proof (wp_recompute_follows name ch k "" m1 Hwf1 Hch1 Hb1 Hk) as Hr. unfold wp in Hr.
    destruct (recomputeLocked k "" m1) as [[[] m2]|]; [|done]. destruct Hr as (? & ? & ? & Hx).
    split_and!; [done|by etransitivity|done|]. intros x Hin. apply Hx, Hl. by right.
Qed.

Lemma wp_Reevaluate_follows name ch m :
  wf m → m.(chains) !! name = Some ch → blocked m ch = true →
  wp Reevaluate (λ _ m', m'.(chains) !! name = Some ch) m.
Proof.
  intros Hwf Hch Hb. unfold Reevaluate. mstep. apply wp_range. intros ks Hks _. mstep.
  eapply wp_mono; [eapply (wp_recompute_loop_follows name ch ks); [auto|done|done|done|]|].
  - intros k Hk. by apply Hks.
  - intros [] m1 [Hc _]. by mstep.
Qed.

Lemma wp_chainLocked_found name Q (m : Manager) :
  is_Some (m.(chains) !! name) → Q true m → wp (chainLocked name) Q m.
Proof. intros Hs HQ. unfold chainLocked. do 2 mstep. rewrite bool_decide_true by done. by mstep. Qed.

(** What a follower makes of a snapshot of one of its chains. *)
Definition adopt (s : ChainSnapshot) (ch : chainState) : chainState :=
  set_adopted true (set_ch_state s.(snap_ChainState)
    (set_activeSince s.(snap_ActiveSince) (set_active (Index ch.(ch_targets) s.(snap_Active) 0) ch))).

Lemma wp_ApplyChain_follower s ch Q m :
  wf m → m.(leader) = false → m.(chains) !! s.(snap_Chain) = Some ch → s.(snap_Active) ∈ ch.(ch_targets) →
  (∀ m', wf m' → same_mode (set_published [] m) (set_published [] m') → m'.(targets) = m.(targets) →
     m'.(chains) = <[s.(snap_Chain) := adopt s ch]> m.(chains) → Q tt m') →
  wp (ApplyChain s) Q m.
Proof.
  intros [Hwt Hwc] Hl Hch Hin HQ. destruct (Hwc _ _ Hch) as (Hname & Ha & Hp).
  destruct (Index_elem _ _ Hin) as [Hi Hlk].
  assert (Hwf' : map_Forall chain_wf (<[s.(snap_Chain) := adopt s ch]> m.(chains))).
  { apply map_Forall_insert_2; [|done]. by split. }
  unfold ApplyChain, apply_chain_locked. do 3 mstep. rewrite Hl.
  mstep. apply wp_chainLocked_found; [by eexists|]. cbn [negb].
  mstep. apply (wp_deref_chain _ ch); [done|].
  destruct (Z.ltb_spec (Index ch.(ch_targets) s.(snap_Active) 0) 0); [lia|].
  do 2 mstep.
  assert (Halt : alter (λ ch0, set_adopted true (set_ch_state s.(snap_ChainState)
      (set_activeSince s.(snap_ActiveSince) (set_active (Index ch.(ch_targets) s.(snap_Active) 0) ch0))))
      s.(snap_Chain) m.(chains) = <[s.(snap_Chain) := adopt s ch]> m.(chains))
    by (by rewrite (alter_alt_Some _ _ _ _ Hch)).
  rewrite Halt. set (m1 := set_chains _ m).
  destruct (index_lookup ch.(ch_targets) ch.(active)) as [p Hpl]; [done|].
  mstep; mstep.
  - apply (wp_index _ _ p); [lia|done|]. mstep. eapply wp_index; [lia|done|].
    do 2 mstep. apply wp_emit.
    match goal with |- wp _ _ (emit_pure ?ev ?m2) => destruct (emit_pure_frame ev m2) as (Hm & Ht & Hc & _);
      set (m3 := emit_pure ev m2) in *; clearbody m3 end.
    mstep. apply HQ; [|unfold same_mode in *; simpl in *; by destruct_and!|done|simpl; by rewrite Hc].
    split; simpl; [by rewrite Ht|by rewrite Hc].
  - mstep. by apply HQ.
Qed.

(** ** Pins *)

(** The pins after a pin or, with the empty string, an unpin. *)
Definition repin (chain target : string) (ps : gmap string string) : gmap string string :=
  if String.eqb target "" then delete chain ps else <[chain := target]> ps.

Definition shared (m : Manager) : Prop := inv m ∧ m.(has_sync) = true.

Lemma wp_ApplyPin chain target Q m :
  shared m → (∀ m', shared m' → m'.(pins) = repin chain target m.(pins) → Q tt m') →
  wp (ApplyPin chain target) Q m.
Proof.
  intros [HI Hs] HQ. apply (wp_mono _ (λ _ m', inv m' ∧ (m'.(has_sync) = true ∧ m'.(pins) = repin chain target m.(pins)))).
  2: { intros [] m' (? & ? & ?). by apply HQ. }
  apply wp_and; [by apply sound_ApplyPin|].
  unfold ApplyPin, apply_pin_locked. do 3 mstep. fold (repin chain target m.(pins)).
  set (m0 := set_pins _ m).
  assert (HI0 : inv m0) by done. mstep. apply wp_chainLocked; [done|].
  intros b m1 HI1 (_ & Hs1 & _) Hp1 Hb. specialize (Hp1 Hs). change (m0.(has_sync)) with (m.(has_sync)) in Hs1.
  change (m0.(pins)) with (repin chain target m.(pins)) in Hp1.
  mstep; [mstep; mstep; simpl; split; congruence|]. bool_hyps. destruct Hb as [ch Hch]; [done|].
  mstep. apply (wp_deref_chain _ ch); [done|].
  mstep; [mstep; mstep; simpl; split; congruence|]. mstep; [mstep; mstep; simpl; split; congruence|].
  do 2 mstep. set (m2 := set_chains _ m1).
  assert (Hch2 : m2.(chains) !! chain = Some (set_pinned target ch))
    by (subst m2; simpl; by rewrite lookup_alter_eq, Hch).
  assert (Hwf : chain_wf chain (set_pinned target ch)).
  { destruct (inv_chain _ _ _ HI1 Hch) as (? & ? & ?). split; [done|]. split; [done|]. simpl.
    destruct (String.eqb_spec target ""); [by left|right].
    match goal with E : _ && _ = false |- _ => simpl in E end. by bool_hyps. }
  apply (wp_recompute _ _ (set_pinned target ch)); [done|done| |].
  - intros _. mstep. split; [simpl; congruence|done].
  - intros _ m3 ((_ & Hs3 & _) & _ & Hp3 & _). mstep. simpl in *. split; congruence.
Qed.

Lemma wp_ReconcilePins Q m :
  shared m → (∀ k, Pins_at m.(calls) !! k ≠ Some "") →
  (∀ m', shared m' → m'.(pins) = Pins_at m.(calls) → Q tt m') → wp ReconcilePins Q m.
Proof.
  intros [HI Hs] Hne HQ. unfold ReconcilePins. do 2 mstep. rewrite Hs. cbn [negb].
  do 5 mstep. set (want := Pins_at m.(calls)) in *. apply wp_range. intros ks Hks _. mstep.
  set (m0 := set_calls _ _).
  apply (wp_for_each (λ l m', shared m' ∧ ∀ k, k ∉ l → want !! k = None → m'.(pins) !! k = None)).
  - split; [done|]. intros k Hk Hw. apply eq_None_not_Some. intros Hsome. apply Hk.
    apply elem_of_filter_bool. split; [by apply Hks|]. apply negb_true_iff, bool_decide_eq_false.
    rewrite Hw. by intros [].
  - intros k l m1 [HS1 Hl]. apply wp_ApplyPin; [done|]. intros m2 HS2 ->. split; [done|].
    intros x Hx Hw. change (repin k "" m1.(pins)) with (delete k m1.(pins)).
    destruct (decide (x = k)) as [->|Hxk]; [apply lookup_delete_eq|].
    rewrite lookup_delete_ne by done. apply Hl; [|done]. by rewrite not_elem_of_cons.
  - clear Hks. intros m1 [HS1 Hnone]. do 2 mstep.
    set (ws := range_order _ _).
    assert (Hws : ∀ k, k ∈ ws ↔ is_Some (want !! k)).
    { intros k. assert (Hp : ws ≡ₚ map fst (map_to_list want)) by apply range_perm.
      rewrite Hp, list_elem_of_fmap. split.
      - intros ([k' x] & -> & Hx). apply elem_of_map_to_list in Hx. by exists x.
      - intros [x Hx]. exists (k, x). split; [done|]. by apply elem_of_map_to_list. }
    apply (wp_for_each (λ l m', shared m' ∧ (∀ k, k ∈ l → is_Some (want !! k)) ∧
      (∀ k, want !! k = None → m'.(pins) !! k = None) ∧
      ∀ k, k ∉ l → is_Some (want !! k) → m'.(pins) !! k = want !! k)).
    + split_and!; [done|intros k; apply Hws|intros k; apply Hnone, not_elem_of_nil|].
      intros k Hk Hsome. by apply Hws in Hsome.
    + intros k l m2 (HS2 & Hl & Hn & Hin). destruct (Hl k) as [t Ht]; [by left|]. rewrite Ht.
      apply wp_ApplyPin; [done|]. intros m3 HS3 ->. unfold repin.
      destruct (String.eqb_spec t "") as [->|_]; [by destruct (Hne k)|]. split_and!; [done| | |].
      * intros x Hx. apply Hl. by right.
      * intros x Hx. rewrite lookup_insert_ne; [by apply Hn|]. by intros ->; rewrite Ht in Hx.
      * intros x Hx Hsome. destruct (decide (x = k)) as [->|Hxk]; [by rewrite lookup_insert_eq|].
        rewrite lookup_insert_ne by done. apply Hin; [|done]. by rewrite not_elem_of_cons.
    + intros m2 (HS2 & _ & Hn & Hin). apply HQ; [done|]. apply map_eq. intros k.
      destruct (want !! k) as [t|] eqn:Hw; [|by apply Hn].
      rewrite <-Hw. apply Hin; [apply not_elem_of_nil|by rewrite Hw].
Qed.

(** What [pin_locked] does on a chain that has the target. *)
Lemma wp_pin_locked chain target ch Q m :
  inv m → m.(chains) !! chain = Some ch → target ∈ ch.(ch_targets) → target ≠ "" →
  (∀ m' ch', inv m' → m'.(has_sync) = m.(has_sync) → m'.(pins) = <[chain := target]> m.(pins) →
     m'.(chains) !! chain = Some ch' → ch'.(pinned) = target →
     ch'.(ch_targets) !! Z.to_nat ch'.(active) = Some target →
     Q (inl (default "" (m.(pins) !! chain))) m') →
  wp (pin_locked chain target) Q m.
Proof.
  intros HI Hch Hin Hne HQ.
  apply (wp_mono _ (λ r m', inv m' ∧ (r = inl (default "" (m.(pins) !! chain)) ∧
    m'.(has_sync) = m.(has_sync) ∧ m'.(pins) = <[chain := target]> m.(pins) ∧
    ∃ ch', m'.(chains) !! chain = Some ch' ∧ ch'.(pinned) = target ∧
           ch'.(ch_targets) !! Z.to_nat ch'.(active) = Some target))).
  2: { intros r m' (HI' & -> & Hs & Hp & ch' & ? & ? & ?). by eapply HQ. }
  apply wp_and; [by apply sound_pin_locked|].
  unfold pin_locked. mstep. apply wp_chainLocked_found; [by eexists|]. cbn [negb].
  mstep. apply (wp_deref_chain _ ch); [done|]. rewrite bool_decide_true by done. cbn [negb].
  do 7 mstep. set (m1 := set_pins _ _).
  assert (Hch1 : m1.(chains) !! chain = Some (set_pinned target ch))
    by (subst m1; simpl; by rewrite lookup_alter_eq, Hch).
  assert (Hwf : chain_wf chain (set_pinned target ch)).
  { destruct (inv_chain _ _ _ HI Hch) as (? & ? & ?). split; [done|]. split; [done|]. by right. }
  apply (wp_recompute _ _ (set_pinned target ch)); [done|done| |].
  - unfold blocked. simpl. destruct (String.eqb_spec target ""); [done|]. by rewrite !andb_false_r.
  - intros _ m2 ((_ & Hs2 & _) & _ & Hp2 & Hc2 & _). mstep.
    pose proof (recomputed_rule m1.(targets) (clock_at m1.(calls)) chain _ Hwf) as Hr.
    set (ch' := recomputed _ _ _) in *. split_and!; [done|done|done|]. exists ch'.
    rewrite Hc2, lookup_insert_eq. split; [done|].
    destruct (sw_same _ _ _ _ Hr) as (_ & _ & -> & -> & _). split; [done|].
    by apply (sw_pinned _ _ _ _ Hr).
Qed.

(** ** Probes *)

(** Only [name] may have changed, and not what its [probing] says. *)
Definition keeps_probing (name : string) (m m' : Manager) : Prop :=
  (∀ k, k ≠ name → m'.(targets) !! k = m.(targets) !! k) ∧
  option_map probing (m'.(targets) !! name) = option_map probing (m.(targets) !! name).

Lemma keeps_probing_insert m m' name ts ts' :
  m.(targets) !! name = Some ts → ts'.(probing) = ts.(probing) →
  m'.(targets) = <[name := ts']> m.(targets) → keeps_probing name m m'.
Proof.
  intros Hts Hp Ht. split; rewrite Ht.
  - intros k Hne. by rewrite lookup_insert_ne.
  - rewrite lookup_insert_eq, Hts. simpl. by rewrite Hp.
Qed.

(** What a due target's state says of the probe it gets. *)
Definition probe_kind (st : TargetState) (inference : bool) : Prop :=
  st ≠ StateMissing ∧ (inference = true ↔ st = StateRecovering).

Lemma wp_due_state_probing now name ts Q m :
  inv m → m.(targets) !! name = Some ts →
  (∀ d m', inv m' → keeps_probing name m m' → (∀ b, d = Some b → probe_kind ts.(ts_state) b) → Q d m') →
  wp (due_state now name) Q m.
Proof.
  intros HI Hts HQ. unfold due_state. mstep. apply (wp_deref_target _ ts); [done|]. cbv zeta.
  assert (Hnone : Q None m) by (by apply HQ).
  assert (Hsome : ∀ b, probe_kind ts.(ts_state) b → Q (Some b) m).
  { intros b Hb. apply HQ; [done|done|]. by intros b' [= <-]. }
  destruct ts.(ts_state) eqn:Hst.
  - mstep; mstep; [done|]. apply Hsome. by split.
  - mstep; [|mstep; mstep; [done|]; apply Hsome; by split].
    mstep. mstep; [|by mstep].
    assert (Hname : ts.(ts_name) = name) by (destruct HI as [[Hwt _] _]; by apply Hwt).
    rewrite Hname. mstep. apply (wp_setTarget _ ts); [done|by rewrite Hst|].
    intros _ m1 (_ & G2 & _ & G4 & _).
    assert (HI1 : inv_except name m1).
    { eapply inv_except_insert; [by apply inv_inv_except|done|done|]. by rewrite enter_state_name. }
    destruct HI1 as [Hwf1 Hs1]. apply wp_recomputeFor; [done|done|].
    intros m2 HI2 _ Ht2 _. mstep. apply HQ; [done| |done].
    eapply keeps_probing_insert; [done| |by rewrite Ht2]. done.
  - mstep; mstep; [done|]. apply Hsome. by split.
  - by mstep.
  - mstep. apply Hsome. by split.
Qed.

(** What a job says of the target it is for, and what became of the target. *)
Definition job_ok (m0 m : Manager) (j : probeJob) : Prop :=
  (∃ ts, m0.(targets) !! j.(j_target) = Some ts ∧ ts.(probing) = false ∧
         probe_kind ts.(ts_state) j.(j_inference)) ∧
  ∃ ts', m.(targets) !! j.(j_target) = Some ts' ∧ ts'.(probing) = true.

(** The jobs of [dueProbes] so far, and the targets still to visit. *)
Definition probes_ok (m0 : Manager) (l : list string) (jobs : list probeJob) (m : Manager) : Prop :=
  inv m ∧ NoDup l ∧ (∀ k, k ∈ l → is_Some (m.(targets) !! k) ∧ m.(targets) !! k = m0.(targets) !! k) ∧
  NoDup (map j_target jobs) ∧ ∀ j, j ∈ jobs → (j.(j_target) ∉ l) ∧ job_ok m0 m j.

(** A step on one target that adds at most a job for it. *)
Lemma probes_ok_step m0 k l jobs m new m' :
  probes_ok m0 (k :: l) jobs m → inv m' → (∀ x, x ≠ k → m'.(targets) !! x = m.(targets) !! x) →
  (new = [] ∨ ∃ j, new = [j] ∧ j.(j_target) = k ∧ job_ok m0 m' j) →
  probes_ok m0 l (jobs ++ new) m'.
Proof.
  intros (_ & Hnd & Hl & Hndj & Hjobs) HI Hx Hnew. apply NoDup_cons in Hnd as [Hkl Hnd].
  assert (Hold : ∀ j, j ∈ jobs → j.(j_target) ≠ k ∧ (j.(j_target) ∉ l) ∧ job_ok m0 m' j).
  { intros j Hj. destruct (Hjobs j Hj) as [Hn [Hts (ts' & Hts' & Hp)]].
    rewrite not_elem_of_cons in Hn. destruct Hn as [Hn1 Hn2]. split_and!; [done|done|].
    split; [done|]. exists ts'. by rewrite Hx. }
  split_and!; [done|done| | |].
  - intros x Hin. rewrite Hx by (by intros ->). apply Hl. by right.
  - destruct Hnew as [->|(j & -> & Hjk & _)]; [by rewrite app_nil_r|].
    rewrite map_app. apply NoDup_app. split_and!; [done| |apply NoDup_singleton].
    intros x Hin Hk. apply list_elem_of_singleton in Hk. simpl in Hk. subst x.
    apply list_elem_of_fmap in Hin as (j' & Heq & Hj'). destruct (Hold j' Hj') as [Hne _]. congruence.
  - intros j [Hj|Hj]%elem_of_app; [by apply Hold|].
    destruct Hnew as [->|(j' & -> & Hjk & Hok)]; [by apply not_elem_of_nil in Hj|].
    apply list_elem_of_singleton in Hj as ->. by rewrite Hjk.
Qed.

Lemma wp_due_probe m0 now k l jobs m :
  probes_ok m0 (k :: l) jobs m →
  wp (due_probe now k) (λ new m', probes_ok m0 l (jobs ++ new) m') m.
Proof.
  intros HP. pose proof HP as (HI & _ & Hl & _). destruct (Hl k ltac:(by left)) as [[ts Hts] Heq].
  assert (Hname : ts.(ts_name) = k) by (destruct HI as [[Hwt _] _]; by apply Hwt).
  unfold due_probe. mstep. apply (wp_deref_target _ ts); [done|].
  mstep; [mstep; eapply probes_ok_step; eauto|].
  mstep. apply (wp_due_state_probing _ _ ts); [done|done|]. intros d m1 HI1 [Hx Hp] Hd.
  assert (Hnone : probes_ok m0 l (jobs ++ []) m1) by (eapply probes_ok_step; eauto).
  destruct d as [inference|]; [|by mstep]. specialize (Hd _ eq_refl).
  do 2 mstep. mstep; [by mstep|]. mstep. apply wp_lookupTarget. intros c m2 _ G2 G3 _.
  assert (HI2 : inv m2) by (unfold inv, wf; by rewrite G2, G3).
  destruct c as [c|]; [|mstep; eapply probes_ok_step; [done|done|by intros; rewrite G2; apply Hx|by left]].
  do 3 mstep. eapply probes_ok_step; [done|by apply inv_alter_target| |].
  - intros x Hne. simpl. rewrite lookup_alter_ne by done. rewrite G2. by apply Hx.
  - right. eexists. split; [done|]. simpl. split; [done|]. rewrite Hts in Hp. simpl in Hp.
    destruct (m1.(targets) !! k) as [ts1|] eqn:Hts1; [|done]. split.
    + exists ts. simpl. rewrite Hname, <-Heq. by split_and!.
    + exists (set_probing true (set_lastProbe now ts1)). simpl. rewrite Hname, G2, lookup_alter_eq, Hts1.
      by split.
Qed.

Lemma wp_dueProbes m :
  inv m → wp dueProbes (λ jobs m', NoDup (map j_target jobs) ∧ ∀ j, j ∈ jobs → job_ok m m' j) m.
Proof.
  intros HI. unfold dueProbes. do 2 mstep. mstep. apply wp_range. intros ks Hks Hnd. mstep.
  apply (wp_collect (probes_ok m)).
  - split_and!; [done|done|intros k Hk; by apply Hks in Hk|constructor|intros j Hj; by apply not_elem_of_nil in Hj].
  - intros k l jobs m1. apply wp_due_probe.
  - intros jobs m1 (_ & _ & _ & Hndj & Hj). do 3 mstep. split; [done|]. intros j Hin.
    by destruct (Hj j Hin).
Qed.
End Share.

(** ** Theorems *)

(** C3. How a chain's active target moves when it is recomputed, on a manager
    that decides it: a pinned chain goes to its pin; an unhealthy active
    target is left at once for the healthy one of highest priority, wherever
    it is in the list; a healthy one is left only for one of higher priority
    and only [recovery.min_dwell] after it became active; with none healthy
    it stays.  [activeSince] is the instant of the move, the chain's state
    tells degraded, primary and fallback apart, and one event reports the
    change, with the targets before and after, exactly when the active target
    or the degraded state changed. *)
Theorem failover_switch `{EnvLaws, !ValidConfigs} m name ch override :
  reachable m → m.(chains) !! name = Some ch → blocked m ch = false →
  ∃ m' ch' evs, recomputeLocked name override m = Some (tt, m') ∧
    m'.(chains) = <[name := ch']> m.(chains) ∧ m'.(targets) = m.(targets) ∧
    switch_rule m.(targets) (clock_at m.(calls)) ch ch' ∧
    m'.(emitted) = m.(emitted) ++ evs ∧
    if (ch'.(active) =? ch.(active))%Z && bool_decide (is_degraded ch'.(ch_state) = is_degraded ch.(ch_state))
    then evs = [] else ∃ ev, evs = [ev] ∧ switch_event ch ch' ev.
Proof.
  intros Hr Hch Hb. apply reachable_sound in Hr. pose proof (inv_chain _ _ _ Hr Hch) as Hwf.
  destruct (wp_Some (recomputeLocked name override) (λ _ m', chain_step m name ch override m') m)
    as ([] & m' & Hrun & _ & Ht & _ & Hc & He & _).
  { apply (wp_recompute _ _ ch); [done|done|by rewrite Hb|]. intros _ m' Hs. exact Hs. }
  exists m', (recomputed m.(targets) (clock_at m.(calls)) ch),
    (recompute_events m.(targets) (clock_at m.(calls)) ch override).
  split_and!; try done; [by eapply recomputed_rule|].
  pose proof (recompute_events_spec m.(targets) (clock_at m.(calls)) name ch override Hwf) as Hspec.
  cbv zeta in Hspec. by destruct (_ && _).
Qed.

(** A follower takes its leader's word for a chain: after a snapshot, it
    serves the leader's active target, since the leader's instant and in the
    leader's state, and its own view of the targets, whatever it becomes,
    no longer moves the chain while it follows; a leader ignores the
    snapshots of others. *)
Theorem failover_follow `{EnvLaws, !ValidConfigs} m s ch :
  reachable m → m.(chains) !! s.(snap_Chain) = Some ch → s.(snap_Active) ∈ ch.(ch_targets) →
  ∃ m', ApplyChain s m = Some (tt, m') ∧ m'.(targets) = m.(targets) ∧
    if m.(leader) then m'.(chains) = m.(chains)
    else ∃ ch', m'.(chains) = <[s.(snap_Chain) := ch']> m.(chains) ∧
      ch'.(ch_targets) = ch.(ch_targets) ∧ ch'.(pinned) = ch.(pinned) ∧
      ch'.(ch_targets) !! Z.to_nat ch'.(active) = Some s.(snap_Active) ∧
      ch'.(activeSince) = s.(snap_ActiveSince) ∧ ch'.(ch_state) = s.(snap_ChainState) ∧
      (m.(has_sync) = true → ch.(pinned) = "" → ∀ tgts, map_Forall target_wf tgts →
       ∃ m2, Reevaluate (set_targets tgts m') = Some (tt, m2) ∧ m2.(chains) !! s.(snap_Chain) = Some ch').
Proof.
  intros Hr Hch Hin. apply reachable_sound in Hr. destruct (m.(leader)) eqn:Hl.
  - eexists. unfold ApplyChain, apply_chain_locked, get, mbind, M_bind. rewrite Hl. by split_and!.
  - destruct (wp_Some (ApplyChain s) (λ _ m', wf m' ∧ same_mode (set_published [] m) (set_published [] m') ∧
      m'.(targets) = m.(targets) ∧ m'.(chains) = <[s.(snap_Chain) := adopt s ch]> m.(chains)) m)
      as ([] & m' & Hrun & Hwf & Hm & Ht & Hc).
    { apply (wp_ApplyChain_follower _ ch); [by destruct Hr|done|done|done|]. auto. }
    exists m'. split; [done|]. split; [done|]. exists (adopt s ch).
    destruct (Index_elem _ _ Hin) as [_ Hlk]. split_and!; try done.
    intros Hs Hp tgts Htg. destruct Hm as (_ & Hs' & _ & Hl' & _). simpl in Hs', Hl'.
    destruct (wp_Some Reevaluate (λ _ m2, m2.(chains) !! s.(snap_Chain) = Some (adopt s ch))
                (set_targets tgts m')) as ([] & m2 & Hrun2 & Hkeep); [|by exists m2].
    apply wp_Reevaluate_follows.
    + destruct Hwf as [_ Hwc]. by split.
    + simpl. rewrite Hc. apply lookup_insert_eq.
    + unfold blocked. simpl. by rewrite Hs', Hs, Hl', Hl, Hp.
Qed.

(** Reconciling leaves the manager with exactly the pins the sync layer
    holds: the stale ones gone, the others set. *)
Theorem failover_pins `{EnvLaws, !ValidConfigs} m :
  reachable m → m.(has_sync) = true → (∀ k, Pins_at m.(calls) !! k ≠ Some "") →
  ∃ m', ReconcilePins m = Some (tt, m') ∧ m'.(pins) = Pins_at m.(calls).
Proof.
  intros Hr Hs Hne. apply reachable_sound in Hr.
  destruct (wp_Some ReconcilePins (λ _ m', m'.(pins) = Pins_at m.(calls)) m) as ([] & m' & ? & ?);
    [|by exists m']. by apply wp_ReconcilePins.
Qed.

(** Pinning a chain: a target that is not the chain's is refused and
    nothing changes; otherwise the chain serves the target from then on, and
    only a sync layer that cannot store the pin makes it an error, after the
    previous pins are back. *)
Theorem failover_pin `{EnvLaws, !ValidConfigs} m chain ch target ans :
  reachable m → m.(chains) !! chain = Some ch → target ≠ "" →
  (∀ n, SetPin_at n chain target = ans) →
  ∃ r m', Pin chain target m = Some (r, m') ∧
    (target ∉ ch.(ch_targets) →
       r = Some (ErrTargetNotInChain target) ∧ m'.(pins) = m.(pins) ∧ m'.(chains) = m.(chains)) ∧
    (target ∈ ch.(ch_targets) →
       match m.(has_sync), ans with
       | true, Some msg => r = Some (ErrSync msg) ∧ (m.(pins) !! chain ≠ Some "" → m'.(pins) = m.(pins))
       | _, _ => r = None ∧ m'.(pins) = <[chain := target]> m.(pins) ∧
           ∃ ch', m'.(chains) !! chain = Some ch' ∧ ch'.(pinned) = target ∧
                  ch'.(ch_targets) !! Z.to_nat ch'.(active) = Some target
       end).
Proof.
  intros Hr Hch Hne Hans. apply reachable_sound in Hr.
  destruct (decide (target ∈ ch.(ch_targets))) as [Hin|Hin].
  - apply wp_Some with (Q := λ r m', (target ∉ ch.(ch_targets) → _) ∧ (target ∈ ch.(ch_targets) → _)).
    apply (wp_mono _ (λ r m', match m.(has_sync), ans with
       | true, Some msg => r = Some (ErrSync msg) ∧ (m.(pins) !! chain ≠ Some "" → m'.(pins) = m.(pins))
       | _, _ => r = None ∧ m'.(pins) = <[chain := target]> m.(pins) ∧
           ∃ ch', m'.(chains) !! chain = Some ch' ∧ ch'.(pinned) = target ∧
                  ch'.(ch_targets) !! Z.to_nat ch'.(active) = Some target
       end)); [|by intros; split].
    unfold Pin. mstep. eapply wp_pin_locked; [done|done|done|done|].
    intros m1 ch1 HI1 Hs1 Hp1 Hch1 Hpin1 Hact1. do 3 mstep.
    destruct (m.(has_sync)) eqn:Hs; rewrite Hs1; cbn [negb]; [|mstep; split_and!; eauto].
    do 3 mstep. rewrite Hans. destruct ans as [msg|]; [|mstep; split_and!; eauto].
    unfold rollbackPin. do 3 mstep. simpl. rewrite Hp1, lookup_insert_eq. simpl. rewrite String.eqb_refl.
    apply wp_ApplyPin; [by split|]. intros m2 _ Hp2. mstep. split; [done|]. intros Hold.
    rewrite Hp2. simpl. rewrite Hp1. unfold repin. destruct (m.(pins) !! chain) as [old|] eqn:E; simpl.
    + destruct (String.eqb_spec old "") as [->|_]; [done|]. by rewrite insert_insert_eq, insert_id.
    + rewrite delete_insert_eq. by apply delete_id.
  - eexists _, _. split; [|split; [intros _|by intros]].
    + unfold Pin, pin_locked, chainLocked, get, mbind, M_bind. rewrite bool_decide_true by (by exists ch).
      unfold mret at 1, M_ret at 1. cbn [negb]. unfold deref_chain, get, mbind, M_bind. rewrite Hch.
      unfold mret at 1, M_ret at 1. rewrite bool_decide_false by done. reflexivity.
    + done.
Qed.

(** Syncing with the config: the warm set is then exactly the models that
    serve the warm targets, without repetition and in order, and no delivery
    of it is left pending. *)
Theorem failover_warm `{EnvLaws, !ValidConfigs} m :
  reachable m → ∃ m', Sync m = Some (tt, m') ∧ warm_ok m' ∧ m'.(warmPending) = false.
Proof.
  intros Hr. apply reachable_sound in Hr.
  destruct (wp_Some Sync (λ _ m', warm_ok m' ∧ m'.(warmPending) = false) m) as ([] & m' & ? & ?);
    [|by exists m'].
  unfold Sync. mstep. apply wp_syncLocked; [by destruct Hr|]. intros m1 HI1 _ _ Hw. mstep.
  unfold takeWarmLocked. do 2 mstep. destruct (m1.(warmPending)) eqn:Hwp; cbn [negb]; unfold deliver.
  - do 7 mstep. by mstep; [mstep|].
  - do 5 mstep. by mstep.
Qed.

(** Probes are single: one round of the scheduler starts at most one probe
    per target, only for a target that exists, is not being probed and is not
    missing, an inference exactly for a recovering one, and marks it as being
    probed. *)
Theorem failover_probes `{EnvLaws, !ValidConfigs} m :
  reachable m →
  ∃ jobs m', dueProbes m = Some (jobs, m') ∧ NoDup (map j_target jobs) ∧ ∀ j, j ∈ jobs → job_ok m m' j.
Proof. intros Hr. apply wp_Some, wp_dueProbes. by apply reachable_sound. Qed.
