(* ===== verification/FailoverDemo.v ===== *)
(** * FailoverDemo: the failover theorems at a concrete deployment

    One chain ["chat"] over the local models ["a"] (warm) and ["b"], a clock
    that ticks a second per reading, and a sync layer that stores pins. *)
From Stdlib Require Import Sorted.
From S2P Require Import Prelude GoMonad GoTime FailoverConfig FailoverClassify FailoverManager.
From S2P Require Import FailoverSync FailoverInv FailoverSafety FailoverProps FailoverHealth FailoverRequests FailoverShare.

Definition demo_model (name : string) : option ModelConfig :=
  if String.eqb name "a" || String.eqb name "b"
  then Some (MkModelConfig name "" "llama-cpp" "" None)
  else if String.eqb name "chat" then Some demo_chain_config else None.

#[local] Instance demo_env : Env := {
  clock_at n := (Z.of_nat (S n) * Second)%Z;
  range_order _ l := l;
  GetModelConfig_at _ name := demo_model name;
  GetAllModelsConfigs_at _ := [demo_chain_config];
  SetPin_at _ _ _ := Some "unreachable";
  ClearPin_at _ _ := None;
  Pins_at _ := {[ "chat" := "b" ]};
  gate_at _ := true;
  ctx_done_at _ := false;
  Liveness_at _ _ _ _ := None;
  Inference_at _ _ _ _ := None;
}.

#[local] Instance demo_laws : EnvLaws.
Proof. split. done. Qed.

#[local] Instance demo_valid : ValidConfigs.
Proof. split. intros n c f Hc. apply list_elem_of_singleton in Hc as ->. by intros [= <-]. Qed.

Definition demo_error : GoError := MkGoError "connection refused" false false false None (Some (codes_Unavailable, "refused")).

(** The state after some operations. *)
Definition demo_after (ops : list Op) : Manager :=
  match for_each ops exec (New "node-1" true true false) with
  | Some (_, m) => m
  | None => New "" false false false
  end.

Definition demo_up : Manager := demo_after [OpSync].
Definition demo_synced : Manager := demo_after [OpSync; OpSetStateSync true].
Definition demo_down : Manager :=
  demo_after [OpSync; OpReportFailure "a" (Some demo_error); OpReportFailure "a" (Some demo_error)].
Definition demo_follower : Manager := set_leader false (demo_after [OpSync]).

Lemma deployment_reachable ops m :
  for_each ops exec (New "node-1" true true false) = Some (tt, m) → reachable m.
Proof. intros Hm. by exists "node-1", true, true, false, ops. Qed.

Lemma demo_up_reachable : reachable demo_up.
Proof. apply (deployment_reachable [OpSync]). vm_compute. reflexivity. Qed.

Lemma demo_synced_reachable : reachable demo_synced.
Proof. apply (deployment_reachable [OpSync; OpSetStateSync true]). vm_compute. reflexivity. Qed.

Lemma demo_down_reachable : reachable demo_down.
Proof.
  apply (deployment_reachable [OpSync; OpReportFailure "a" (Some demo_error); OpReportFailure "a" (Some demo_error)]).
  vm_compute. reflexivity.
Qed.

(** The chain and a target of a state. *)
Definition the_chain (m : Manager) : chainState :=
  match m.(chains) !! "chat" with
  | Some ch => ch
  | None => MkChain "" demo_chain [] 0 0 "" ChainPrimary false
  end.

Definition the_target (m : Manager) (name : string) : targetState :=
  match m.(targets) !! name with Some ts => ts | None => new_target "" end.

(** The chain fails over when its primary goes down. *)
Example demo_fails_over :
  ((the_chain demo_up).(active), (the_chain demo_down).(active),
   (the_target demo_down "a").(ts_state), (the_chain demo_synced).(pinned)) = (0%Z, 1%Z, StateDown, "b").
Proof. vm_compute. reflexivity. Qed.

(** ** Witnesses *)

Lemma failover_safe_witness :
  ∃ m, for_each [OpSync; OpTick] exec (New "node-1" true true false) = Some (tt, m) ∧
    m.(chains) !! "chat" ≠ None.
Proof.
  destruct (failover_safe "node-1" true true false [OpSync; OpTick]) as (m & Hm & _).
  exists m. split; [exact Hm|]. vm_compute in Hm. injection Hm as <-. by vm_compute.
Defined.

Lemma failover_plan_witness :
  ∃ r m', Plan "chat" demo_down = Some (r, m') ∧ plan_ok demo_down (the_chain demo_down) r.
Proof.
  destruct (failover_plan demo_down "chat" (the_chain demo_down)) as (r & m' & H1 & H2 & _);
    [exact demo_down_reachable|vm_compute; reflexivity|]. exists r, m'. split; assumption.
Defined.

(** The first target fails and the second serves. *)
Definition demo_fn : RequestFn := λ t,
  mret (if String.eqb t "a" then (Some demo_error, false) else (None, true)).

Lemma failover_do_witness :
  ∃ r calls m', Do "chat" demo_fn demo_up = Some ((r, calls), m') ∧
    request_ok "chat" (the_chain demo_up) demo_fn demo_up (r, calls) m'.
Proof.
  apply (failover_do demo_up "chat" (the_chain demo_up) demo_fn);
    [exact demo_up_reachable|vm_compute; reflexivity|]. intros t. apply sound_ret.
Defined.

Lemma failover_switch_witness :
  blocked demo_up (the_chain demo_up) = false ∧
  ∃ m' ch', recomputeLocked "chat" "" demo_up = Some (tt, m') ∧
    switch_rule demo_up.(targets) (clock_at demo_up.(calls)) (the_chain demo_up) ch'.
Proof.
  destruct (failover_switch demo_up "chat" (the_chain demo_up) "") as (m' & ch' & _ & H1 & _ & _ & H2 & _);
    [exact demo_up_reachable|vm_compute; reflexivity|vm_compute; reflexivity|].
  split; [vm_compute; reflexivity|]. exists m', ch'. split; assumption.
Defined.

Definition demo_snapshot : ChainSnapshot := MkChainSnapshot "chat" "b" 7 ChainFallback ReasonTrip.

Lemma failover_follow_witness : ∃ m', ApplyChain demo_snapshot demo_up = Some (tt, m').
Proof.
  destruct (failover_follow demo_up demo_snapshot (the_chain demo_up)) as (m' & H & _);
    [exact demo_up_reachable|vm_compute; reflexivity| |exists m'; exact H].
  apply list_elem_of_In. vm_compute. tauto.
Defined.

Lemma failover_pins_witness : ∃ m', ReconcilePins demo_synced = Some (tt, m') ∧ m'.(pins) = {[ "chat" := "b" ]}.
Proof.
  destruct (failover_pins demo_synced) as (m' & H1 & H2);
    [exact demo_synced_reachable|vm_compute; reflexivity| |exists m'; split; [exact H1|exact H2]].
  intros k Hk. change (({[ "chat" := "b" ]} : gmap string string) !! k = Some "") in Hk.
  apply lookup_singleton_Some in Hk as [_ ?]. discriminate.
Defined.

Lemma failover_pin_witness : ∃ r m', Pin "chat" "a" demo_synced = Some (r, m') ∧ r = Some (ErrSync "unreachable").
Proof.
  destruct (failover_pin demo_synced "chat" (the_chain demo_synced) "a" (Some "unreachable"))
    as (r & m' & H1 & _ & H2);
    [exact demo_synced_reachable|vm_compute; reflexivity|discriminate|reflexivity|].
  assert (Hs : demo_synced.(has_sync) = true) by (vm_compute; reflexivity). rewrite Hs in H2.
  assert (Hin : "a" ∈ (the_chain demo_synced).(ch_targets)) by (apply list_elem_of_In; vm_compute; tauto).
  exists r, m'. split; [exact H1|exact (proj1 (H2 Hin))].
Defined.

Lemma failover_warm_witness : ∃ m', Sync demo_down = Some (tt, m') ∧ warm_ok m'.
Proof.
  destruct (failover_warm demo_down demo_down_reachable) as (m' & H1 & H2 & _).
  exists m'. split; assumption.
Defined.

Lemma failover_probes_witness :
  ∃ jobs m', dueProbes demo_down = Some (jobs, m') ∧ NoDup (map j_target jobs).
Proof.
  destruct (failover_probes demo_down demo_down_reachable) as (jobs & m' & H1 & H2 & _).
  exists jobs, m'. split; assumption.
Defined.

Lemma failover_trips_witness :
  ∃ times m' ts', failure_burst "a" (Some demo_error) 2 demo_up = Some (times, m') ∧
    m'.(targets) !! "a" = Some ts' ∧
    (StronglySorted Z.le times →
     ts'.(ts_state) = StateDown ↔
     FailoverHealth.trips (TripWindow (the_target demo_up "a").(params))
       (TripErrors (the_target demo_up "a").(params)) times).
Proof.
  destruct (failover_trips demo_up "a" (the_target demo_up "a") (Some demo_error) 2)
    as (times & m' & ts' & H1 & _ & H2 & _ & H3);
    [exact demo_up_reachable|vm_compute; reflexivity|vm_compute; reflexivity|vm_compute; reflexivity|].
  exists times, m', ts'. split; [exact H1|]. split; [exact H2|]. intros Hs. exact (proj1 (H3 Hs)).
Defined.

Lemma failover_recovers_witness :
  ∃ m' ts', success_burst "a" 3 demo_down = Some (tt, m') ∧ m'.(targets) !! "a" = Some ts' ∧
    ts'.(ts_state) = StateHealthy.
Proof.
  destruct (failover_recovers demo_down "a" (the_target demo_down "a") 3)
    as (m' & ts' & H1 & H2 & _ & H3 & _);
    [exact demo_down_reachable|vm_compute; reflexivity|vm_compute; reflexivity|vm_compute; reflexivity|lia|].
  exists m', ts'. split; [exact H1|]. split; [exact H2|]. apply H3. vm_compute. discriminate.
Defined.
