(* ===== verification/RadixTree.v ===== *)
(** * RadixTree: the prefix tree behind prefix-cache routing

    Models [pkg/radixtree/radixtree.go].  A [*node] is known by its path from
    the root, so the pointer comparison of [evictOldestLocked] compares paths;
    [value] and [hasValue] are one option.  Go walks a map of children in an
    unspecified order: where the order can matter (which of several oldest
    entries is evicted, the order of a floating-point sum) the walk goes
    through [walk_order], any reordering of the entries. *)
From Stdlib Require Import Floats.SpecFloat.
From S2P Require Import Prelude GoTime.

Record Options := MkOptions { TTL : Z; HalfLife : Z; MaxEntries : Z }.

Inductive node (V : Type) := Node {
  children : gmap N (node V);
  value : option V;
  lastSeen : Z;
}.
Arguments Node {_} _ _ _.
Arguments children {_} _.
Arguments value {_} _.
Arguments lastSeen {_} _.

Record Tree (V : Type) := MkTree { opts : Options; root : node V; size : Z }.
Arguments MkTree {_} _ _ _.
Arguments opts {_} _.
Arguments root {_} _.
Arguments size {_} _.

(** A path and what its node holds. *)
Abbreviation entry V := (list N * (V * Z))%type.

(** What the code takes from outside: the order of a walk, and [math.Pow]. *)
Class Walk (V : Type) := {
  walk_order : list (entry V) → list (entry V);
  Pow : spec_float → spec_float → spec_float;
}.

Class WalkLaws (V : Type) `{!Walk V} := {
  walk_perm : ∀ l, walk_order l ≡ₚ l;
}.

(** [Duration.Seconds] *)
Definition Seconds (d : Z) : spec_float :=
  SFadd 53 1024 (float64 (Z.quot d Second)) (SFdiv 53 1024 (float64 (Z.rem d Second)) (float64 Second)).

Section Radix.
Context {V : Type} `{!EqDecision V, !Walk V}.
Implicit Types (n : node V) (t : Tree V) (key p q : list N).

(** ** Operations *)

Definition empty_node : node V := Node ∅ None 0.

Definition New (o : Options) : Tree V := MkTree o empty_node 0.

Definition expired (o : Options) (seen now : Z) : bool :=
  (0 <? o.(TTL))%Z && (o.(TTL) <? Sub now seen)%Z.

(** The loop of [LongestMatch]: [i] elements are consumed, [best] is the last
    live value passed and its depth. *)
Fixpoint match_loop (o : Options) (now : Z) key (cur : node V) (i : nat) (best : option (V * nat)) :
    option (V * nat) :=
  match key with
  | [] => best
  | k :: key =>
      match cur.(children) !! k with
      | None => best
      | Some next =>
          match_loop o now key next (S i)
            (match next.(value) with
             | Some v => if expired o next.(lastSeen) now then best else Some (v, S i)
             | None => best
             end)
      end
  end.

Definition LongestMatch key (now : Z) t : option (V * nat) :=
  match_loop t.(opts) now key t.(root) 0 None.

(** The loop of [Insert], below [cur]. *)
Fixpoint insert_loop (v : V) (now : Z) key (cur : node V) (sz : Z) : node V * Z :=
  match key with
  | [] => (cur, sz)
  | k :: key =>
      let next := default empty_node (cur.(children) !! k) in
      let sz := match next.(value) with None => (sz + 1)%Z | Some _ => sz end in
      let '(next, sz) := insert_loop v now key (Node next.(children) (Some v) now) sz in
      (Node (<[k := next]> cur.(children)) cur.(value) cur.(lastSeen), sz)
  end.

(** The entries of the subtree at path [p]. *)
Fixpoint entries p n : list (entry V) :=
  match n with
  | Node c v seen =>
      match v with Some v => [(p, (v, seen))] | None => [] end ++
      map_fold (λ k c acc, entries (p ++ [k]) c ++ acc) [] c
  end.

(** What [pruneWalk] removes from the parent. *)
Definition removable n : bool :=
  match n.(value) with None => bool_decide (n.(children) = ∅) | Some _ => false end.

(** [pruneWalk] at path [p], with [t.size] threaded through. *)
Fixpoint pruneWalk (shouldClear : list N → V → Z → bool) p n (sz : Z) : node V * Z :=
  match n with
  | Node c v seen =>
      let '(c, sz) := map_fold (λ k ch '(acc, sz),
          let '(ch, sz) := pruneWalk shouldClear (p ++ [k]) ch sz in
          (if removable ch then acc else <[k := ch]> acc, sz)) (∅, sz) c in
      match v with
      | Some v' => if shouldClear p v' seen then (Node c None seen, (sz - 1)%Z) else (Node c v seen, sz)
      | None => (Node c None seen, sz)
      end
  end.

Definition prune (shouldClear : list N → V → Z → bool) t : Tree V :=
  let '(r, sz) := pruneWalk shouldClear [] t.(root) t.(size) in MkTree t.(opts) r sz.

(** The victim of [evictOldestLocked]. *)
Definition older (victim : option (entry V)) (e : entry V) : option (entry V) :=
  match victim with
  | None => Some e
  | Some w => if (e.2.2 <? w.2.2)%Z then Some e else victim
  end.

Definition oldest t : option (entry V) := foldl older None (walk_order (entries [] t.(root))).

Definition evictOldestLocked t : Tree V :=
  match oldest t with
  | None => t
  | Some (victim, _) => prune (λ p _ _, bool_decide (p = victim)) t
  end.

Definition Insert key (v : V) (now : Z) t : Tree V :=
  if bool_decide (key = []) then t else
  let '(r, sz) := insert_loop v now key t.(root) t.(size) in
  let t := MkTree t.(opts) r sz in
  if (0 <? t.(opts).(MaxEntries))%Z && (t.(opts).(MaxEntries) <? t.(size))%Z
  then evictOldestLocked t else t.

Definition Len t : Z := t.(size).

Definition Evict (now : Z) t : Tree V := prune (λ _ _ seen, expired t.(opts) seen now) t.

Definition RemoveFunc (pred : V → bool) t : Tree V := prune (λ _ v _, pred v) t.

Definition Remove (v : V) t : Tree V := RemoveFunc (λ w, bool_decide (w = v)) t.

Definition contribution (o : Options) (seen now : Z) : spec_float :=
  if (o.(HalfLife) <=? 0)%Z then float64 1
  else Pow (SFdiv 53 1024 (float64 1) (float64 2))
           (SFdiv 53 1024 (Seconds (Sub now seen)) (Seconds o.(HalfLife))).

Definition Weight (v : V) (now : Z) t : spec_float :=
  foldl (λ sum e,
      if bool_decide (e.2.1 = v) && negb (expired t.(opts) e.2.2 now)
      then SFadd 53 1024 sum (contribution t.(opts) e.2.2 now) else sum)
    (float64 0) (walk_order (entries [] t.(root))).

Definition WeightsFor `{!Countable V} (values : list V) (now : Z) t : gmap V spec_float :=
  let want := list_to_set (C := gset V) values in
  let result := foldl (λ m v, <[v := float64 0]> m) ∅ values in
  if bool_decide (want = ∅) then result else
  foldl (λ m e,
      if negb (expired t.(opts) e.2.2 now) && bool_decide (e.2.1 ∈ want)
      then <[e.2.1 := SFadd 53 1024 (default (float64 0) (m !! e.2.1)) (contribution t.(opts) e.2.2 now)]> m
      else m)
    result (walk_order (entries [] t.(root))).

(** ** Paths *)

(** The node at path [p] below [n]. *)
Fixpoint get p n : option (node V) :=
  match p with
  | [] => Some n
  | k :: p => c ← n.(children) !! k; get p c
  end.

(** What the node at path [p] holds. *)
Definition held p n : option (V * Z) :=
  n ← get p n; v ← n.(value); Some (v, n.(lastSeen)).

Definition own n : option (V * Z) := v ← n.(value); Some (v, n.(lastSeen)).

Lemma held_cons k p n : held (k :: p) n = (c ← n.(children) !! k; held p c).
Proof. unfold held. simpl. by destruct (children n !! k). Qed.

(** Induction over the tree. *)
Fixpoint weight_of n : nat :=
  match n with Node c _ _ => S (map_fold (λ _ c a, weight_of c + a) 0 c) end.

Lemma sum_lookup {A} (f : A → nat) (m : gmap N A) k a :
  m !! k = Some a → f a ≤ map_fold (λ _ c s, f c + s) 0 m.
Proof.
  intros Hk. rewrite <- (insert_id m k a Hk), <- insert_delete_eq.
  rewrite map_fold_insert_L; [lia|intros; lia|apply lookup_delete_eq].
Qed.

Lemma node_induction (P : node V → Prop) :
  (∀ c v seen, (∀ k ch, c !! k = Some ch → P ch) → P (Node c v seen)) → ∀ n, P n.
Proof.
  intros HP n. remember (weight_of n) as w eqn:Hw. revert n Hw.
  induction (lt_wf w) as [w _ IH]. intros [c v seen] ->. apply HP. intros k ch Hk.
  eapply IH; [|done]. simpl. pose proof (sum_lookup weight_of c k ch Hk). lia.
Qed.

(** ** Entries *)

Lemma entries_unfold p c v seen :
  entries p (Node c v seen) =
    match v with Some v => [(p, (v, seen))] | None => [] end ++
    concat (map (λ '(k, ch), entries (p ++ [k]) ch) (map_to_list c)).
Proof.
  simpl. f_equal. rewrite map_fold_foldr. induction (map_to_list c) as [|[k ch] l IH]; [done|].
  simpl. by rewrite IH.
Qed.

(** The entries are what the paths hold. *)
Lemma elem_of_entries n p p' e :
  (p', e) ∈ entries p n ↔ ∃ q, p' = p ++ q ∧ held q n = Some e.
Proof.
  revert p p' e. induction n as [c v seen IH] using node_induction. intros p p' e.
  rewrite entries_unfold, elem_of_app, (list_elem_of_In (concat _)), in_concat. split.
  - intros [Hv|(l & Hl & Hin)].
    + exists []. destruct v as [v|]; [|by apply not_elem_of_nil in Hv].
      apply list_elem_of_singleton in Hv as [= -> ->]. by rewrite app_nil_r.
    + apply in_map_iff in Hl as ([k ch] & <- & Hk). apply list_elem_of_In in Hin, Hk.
      apply elem_of_map_to_list in Hk. apply (IH k ch Hk) in Hin as (q & -> & Hq).
      exists (k :: q). rewrite <- app_assoc. split; [done|]. rewrite held_cons. simpl. by rewrite Hk.
  - intros (q & -> & Hq). destruct q as [|k q].
    + left. unfold held in Hq. simpl in Hq. rewrite app_nil_r. destruct v as [v|]; simplify_eq/=. by left.
    + right. rewrite held_cons in Hq. simpl in Hq. destruct (c !! k) as [ch|] eqn:Hk; [|done].
      exists (entries (p ++ [k]) ch). split.
      * apply in_map_iff. exists (k, ch). split; [done|]. apply list_elem_of_In. by apply elem_of_map_to_list.
      * apply list_elem_of_In. apply (IH k ch Hk). exists q. by rewrite <- app_assoc.
Qed.

Lemma NoDup_entries n p : NoDup (entries p n).*1.
Proof.
  revert p. induction n as [c v seen IH] using node_induction. intros p.
  rewrite entries_unfold, fmap_app.
  assert (Hrest : ∀ l, NoDup l.*1 → (∀ k ch, (k, ch) ∈ l → c !! k = Some ch) →
    NoDup (concat (map (λ '(k, ch), entries (p ++ [k]) ch) l)).*1 ∧
    ∀ p', p' ∈ (concat (map (λ '(k, ch), entries (p ++ [k]) ch) l)).*1 → ∃ k q, k ∈ l.*1 ∧ p' = p ++ k :: q).
  { induction l as [|[k ch] l IHl]; intros Hnd Hl; simpl.
    - split; [constructor|]. intros p' Hp. by apply not_elem_of_nil in Hp.
    - apply NoDup_cons in Hnd as [Hk Hnd]. destruct IHl as [H1 H2]; [done|intros; apply Hl; by right|].
      assert (Hch : ∀ p', p' ∈ (entries (p ++ [k]) ch).*1 → ∃ q, p' = p ++ k :: q).
      { intros p' ([p'' e] & -> & (q & -> & _)%elem_of_entries)%list_elem_of_fmap. exists q. by rewrite <- app_assoc. }
      rewrite fmap_app. split.
      + apply NoDup_app. split_and!; [apply (IH k ch), Hl; by left| |done].
        intros p' (q & ->)%Hch (k' & q' & Hk' & Heq)%H2. apply app_inv_head in Heq as [= -> _]. done.
      + intros p' [(q & ->)%Hch|(k' & q' & Hk' & ->)%H2]%elem_of_app.
        * exists k, q. split; [by left|done].
        * exists k', q'. split; [by right|done]. }
  destruct (Hrest (map_to_list c)) as [H1 H2]; [apply NoDup_fst_map_to_list|intros; by apply elem_of_map_to_list|].
  destruct v as [v|]; simpl; [|done]. apply NoDup_cons. split; [|done].
  intros (k & q & _ & Heq)%H2. apply (f_equal length) in Heq. rewrite length_app in Heq. simpl in Heq. lia.
Qed.

(** ** The map a tree stands for *)

Definition abs n : gmap (list N) (V * Z) := list_to_map (entries [] n).

Lemma lookup_abs n p : abs n !! p = held p n.
Proof.
  apply option_eq. intros e. unfold abs. rewrite <- elem_of_list_to_map by apply NoDup_entries.
  rewrite elem_of_entries. simpl. split; [by intros (q & -> & ?)|]. eauto.
Qed.

Lemma size_abs n : base.size (abs n) = length (entries [] n).
Proof.
  unfold abs. rewrite <- (length_fmap fst), <- length_map_to_list.
  rewrite (map_to_list_to_map _ (NoDup_entries n [])). by rewrite length_fmap.
Qed.

(** ** Counting *)

(** The value-bearing nodes. *)
Definition count n : nat := length (entries [] n).

Definition sum (c : gmap N (node V)) : nat := map_fold (λ _ ch a, count ch + a) 0 c.

Definition own_count (v : option V) : nat := match v with Some _ => 1 | None => 0 end.

Lemma length_entries p n : length (entries p n) = count n.
Proof.
  unfold count. generalize (@nil N) as p'. revert p. induction n as [c v seen IH] using node_induction. intros p p'.
  rewrite !entries_unfold, !length_app. f_equal; [by destruct v|].
  assert (Hl : ∀ k ch, (k, ch) ∈ map_to_list c → c !! k = Some ch) by (intros; by apply elem_of_map_to_list).
  induction (map_to_list c) as [|[k ch] l IHl]; [done|]. simpl. rewrite !length_app. f_equal.
  - apply (IH k). apply Hl. by left.
  - apply IHl. intros. apply Hl. by right.
Qed.

Lemma count_node c v seen : count (Node c v seen) = own_count v + sum c.
Proof.
  unfold count, sum. rewrite entries_unfold, length_app. f_equal; [by destruct v|].
  rewrite map_fold_foldr. induction (map_to_list c) as [|[k ch] l IH]; [done|].
  simpl in *. rewrite length_app, IH. f_equal. apply length_entries.
Qed.

Lemma sum_insert c k ch : c !! k = None → sum (<[k := ch]> c) = count ch + sum c.
Proof. intros Hk. unfold sum. by rewrite map_fold_insert_L by (done || (intros; lia)). Qed.

Lemma sum_delete c k : sum c = from_option count 0 (c !! k) + sum (delete k c).
Proof.
  destruct (c !! k) as [ch|] eqn:Hk; simpl; [|by rewrite delete_id].
  rewrite <- (insert_id c k ch Hk) at 1. rewrite <- insert_delete_eq. apply sum_insert, lookup_delete_eq.
Qed.

Lemma count_empty : count empty_node = 0.
Proof. done. Qed.

(** ** LongestMatch *)

(** The live value at depth [d] of [key]. *)
Definition live_at (o : Options) (now : Z) key (m : gmap (list N) (V * Z)) (d : nat) : option (V * nat) :=
  e ← m !! take d key; if expired o e.2 now then None else Some (e.1, d).

(** The reference: the deepest live prefix, searched from depth [d] down. *)
Fixpoint deepest (o : Options) (now : Z) key (m : gmap (list N) (V * Z)) (d : nat) : option (V * nat) :=
  match d with
  | O => None
  | S d' =>
      match live_at o now key m d with
      | Some r => Some r
      | None => deepest o now key m d'
      end
  end.

Definition best_prefix (o : Options) (now : Z) key (m : gmap (list N) (V * Z)) : option (V * nat) :=
  deepest o now key m (length key).

Lemma deepest_none o now key m a b :
  a ≤ b → (∀ d, a < d ≤ b → live_at o now key m d = None) → deepest o now key m b = deepest o now key m a.
Proof.
  intros Hab. induction Hab as [|b Hab IH]; intros Hd; [done|]. simpl.
  rewrite Hd by lia. apply IH. intros d ?. apply Hd. lia.
Qed.

Lemma get_app p q n : get (p ++ q) n = (n' ← get p n; get q n').
Proof. revert n. induction p as [|k p IH]; intros n; [done|]. simpl. destruct (children n !! k); simpl; auto. Qed.

Lemma held_app p q n n' : get p n = Some n' → held (p ++ q) n = held q n'.
Proof. intros Hp. unfold held. by rewrite get_app, Hp. Qed.

(** The loop invariant: after [pre] the loop has the best match of that depth. *)
Lemma match_loop_spec o now pre key rt cur :
  get pre rt = Some cur →
  match_loop o now key cur (length pre) (deepest o now (pre ++ key) (abs rt) (length pre)) =
    best_prefix o now (pre ++ key) (abs rt).
Proof.
  unfold best_prefix. revert pre cur. induction key as [|k key IH]; intros pre cur Hcur; simpl.
  { by rewrite app_nil_r. }
  destruct (cur.(children) !! k) as [next|] eqn:Hk.
  - assert (Hnext : get (pre ++ [k]) rt = Some next) by (rewrite get_app, Hcur; simpl; by rewrite Hk).
    specialize (IH (pre ++ [k]) next Hnext). rewrite <- app_assoc, length_app in IH. simpl in IH.
    rewrite Nat.add_1_r in IH. rewrite <- IH. f_equal. simpl. unfold live_at.
    replace (take (S (length pre)) (pre ++ k :: key)) with (pre ++ [k]).
    2:{ change (k :: key) with ([k] ++ key). rewrite app_assoc, take_app_length'; [done|].
        rewrite length_app. simpl. lia. }
    rewrite lookup_abs. unfold held. rewrite Hnext. simpl.
    destruct next.(value) as [v|]; simpl; [|done]. by destruct (expired o (lastSeen next) now).
  - symmetry. apply deepest_none; [rewrite length_app; lia|]. intros d [Hd _]. unfold live_at.
    rewrite take_app_ge by lia. destruct (d - length pre) as [|j] eqn:Hj; [lia|]. simpl.
    rewrite lookup_abs, (held_app _ _ _ _ Hcur), held_cons, Hk. done.
Qed.

Lemma LongestMatch_spec key now t :
  LongestMatch key now t = best_prefix t.(opts) now key (abs t.(root)).
Proof. exact (match_loop_spec t.(opts) now [] key t.(root) t.(root) eq_refl). Qed.

(** ** Shape *)

(** No branch below the root is empty. *)
Definition tidy n : Prop := ∀ p n', p ≠ [] → get p n = Some n' → removable n' = false.

Lemma tidy_node c v seen :
  tidy (Node c v seen) ↔ ∀ k ch, c !! k = Some ch → removable ch = false ∧ tidy ch.
Proof.
  split.
  - intros Ht k ch Hk. split.
    + apply (Ht [k]); [done|]. simpl. by rewrite Hk.
    + intros p n' Hp Hg. apply (Ht (k :: p)); [done|]. simpl. by rewrite Hk.
  - intros Hc [|k p] n' Hp Hg; [done|]. simpl in Hg. destruct (c !! k) as [ch|] eqn:Hk; [|done].
    simpl in Hg. destruct (Hc k ch Hk) as [Hr Ht]. destruct p as [|k' p]; [by simplify_eq/=|].
    by apply (Ht (k' :: p)).
Qed.

Lemma removable_held n q : removable n = true → held q n = None.
Proof.
  unfold removable. destruct n as [c [v|] seen]; simpl; [done|]. intros ->%bool_decide_eq_true.
  destruct q as [|k q]; [done|]. rewrite held_cons. simpl. by rewrite lookup_empty.
Qed.

Lemma removable_count n : removable n = true → count n = 0.
Proof.
  unfold removable. destruct n as [c [v|] seen]; simpl; [done|]. intros ->%bool_decide_eq_true. done.
Qed.

(** ** Insert *)

(** [p] is a prefix of [key], the empty one apart. *)
Definition on_key key p : Prop := p ≠ [] ∧ p `prefix_of` key.

#[export] Instance on_key_dec key p : Decision (on_key key p).
Proof. unfold on_key. apply _. Defined.

Lemma on_key_cons k key k' p : on_key (k :: key) (k' :: p) ↔ k' = k ∧ (p = [] ∨ on_key key p).
Proof.
  unfold on_key. split.
  - intros [_ Hp]. split; [by eapply prefix_cons_inv_1|]. apply prefix_cons_inv_2 in Hp.
    destruct p; [by left|right]. done.
  - intros [-> [->|[_ Hp]]]; (split; [done|]); apply prefix_cons; [apply prefix_nil|done].
Qed.

Record inserted (v : V) (now : Z) key (cur : node V) (sz : Z) (r : node V * Z) : Prop := {
  ins_held : ∀ p, held p r.1 = if decide (on_key key p) then Some (v, now) else held p cur;
  ins_value : r.1.(value) = cur.(value);
  ins_size : r.2 = (sz + Z.of_nat (count r.1) - Z.of_nat (count cur))%Z;
  ins_tidy : tidy cur → tidy r.1;
}.

Lemma insert_loop_spec v now key cur sz : inserted v now key cur sz (insert_loop v now key cur sz).
Proof.
  revert cur sz. induction key as [|k key IH]; intros cur sz; simpl.
  { split; simpl; [|done|lia|done]. intros p. rewrite decide_False; [done|].
    intros [Hne Hp%prefix_nil_inv]. done. }
  set (next := default empty_node (cur.(children) !! k)).
  set (sz1 := match next.(value) with None => (sz + 1)%Z | Some _ => sz end).
  specialize (IH (Node next.(children) (Some v) now) sz1).
  destruct (insert_loop v now key (Node (children next) (Some v) now) sz1) as [r szr].
  destruct IH as [H1 H2 H3 H4]. simpl in *.
  assert (Hnext : ∀ p, held p next = c ← cur.(children) !! k; held p c).
  { intros p. unfold next. destruct (cur.(children) !! k); [done|]. simpl. destruct p; [done|].
    rewrite held_cons. simpl. by rewrite lookup_empty. }
  split; simpl.
  - intros [|k' p]; [by rewrite decide_False by (intros [? _]; done)|]. rewrite held_cons. simpl.
    destruct (decide (k' = k)) as [->|Hne].
    + rewrite lookup_insert_eq. simpl. rewrite H1. destruct p as [|k'' p].
      * rewrite (decide_False (P := on_key key [])) by (intros [? _]; done).
        rewrite decide_True by (apply on_key_cons; auto). done.
      * rewrite (held_cons k), <- Hnext, (held_cons k'' p (Node _ _ _)), (held_cons k'' p next). simpl.
        destruct (decide (on_key key (k'' :: p))); case_decide as Hd; try done.
        -- contradict Hd. apply on_key_cons. auto.
        -- apply on_key_cons in Hd as [_ [?|?]]; done.
    + rewrite lookup_insert_ne by done. rewrite decide_False by (intros [? _]%on_key_cons; done). by rewrite held_cons.
  - done.
  - destruct cur as [c cv cseen]. simpl in *. rewrite !count_node. rewrite <- insert_delete_eq.
    rewrite sum_insert by apply lookup_delete_eq. rewrite (sum_delete c k).
    assert (from_option count 0 (c !! k) = own_count next.(value) + sum next.(children)) as ->.
    { unfold next. destruct (c !! k) as [[c' v' s']|]; simpl; [by rewrite count_node|done]. }
    rewrite count_node in H3. unfold sz1 in H3. destruct next.(value); simpl in *; lia.
  - destruct cur as [c cv cseen]. simpl in *. rewrite !tidy_node. intros Hc k' ch Hk'.
    apply lookup_insert_Some in Hk' as [[<- <-]|[Hne Hk']]; [|by apply (Hc k')].
    split; [unfold removable; by rewrite H2|]. apply H4. apply tidy_node.
    unfold next. destruct (c !! k) as [[c' v' s']|] eqn:Hk; simpl.
    + apply tidy_node with (v := v') (seen := s'). by apply (Hc k).
    + intros ?? [=].
Qed.

(** ** Prune *)

(** What is left of an entry. *)
Definition kept (f : list N → V → Z → bool) p (e : option (V * Z)) : option (V * Z) :=
  e ← e; if f p e.1 e.2 then None else Some e.

Record pruned (f : list N → V → Z → bool) p n (sz : Z) (r : node V * Z) : Prop := {
  pr_held : ∀ q, held q r.1 = kept f (p ++ q) (held q n);
  pr_size : r.2 = (sz + Z.of_nat (count r.1) - Z.of_nat (count n))%Z;
  pr_tidy : tidy r.1;
}.

(** The children kept so far, of those visited. *)
Record swept (f : list N → V → Z → bool) p (sz : Z) (acc : gmap N (node V) * Z) (c : gmap N (node V)) : Prop := {
  sw_dom : ∀ k, c !! k = None → acc.1 !! k = None;
  sw_held : ∀ k q, (ch ← acc.1 !! k; held q ch) = kept f (p ++ k :: q) (ch ← c !! k; held q ch);
  sw_size : acc.2 = (sz + Z.of_nat (sum acc.1) - Z.of_nat (sum c))%Z;
  sw_tidy : ∀ k ch, acc.1 !! k = Some ch → removable ch = false ∧ tidy ch;
}.

Lemma swept_step f p sz acc c k ch r :
  swept f p sz acc c → c !! k = None → pruned f (p ++ [k]) ch acc.2 r →
  swept f p sz (if removable r.1 then acc.1 else <[k := r.1]> acc.1, r.2) (<[k := ch]> c).
Proof.
  intros [H1 H2 H3 H4] Hk [P1 P2 P3]. specialize (H1 k Hk) as Hak.
  split; simpl.
  - intros j Hj. apply lookup_insert_None in Hj as [Hj Hne]. destruct (removable r.1); [by apply H1|].
    rewrite lookup_insert_ne by done. by apply H1.
  - intros j q. destruct (decide (j = k)) as [->|Hne].
    + rewrite lookup_insert_eq. simpl. replace (p ++ k :: q) with ((p ++ [k]) ++ q) by (by rewrite <- app_assoc).
      rewrite <- P1. destruct (removable r.1) eqn:Hr.
      * rewrite Hak. simpl. by rewrite removable_held.
      * by rewrite lookup_insert_eq.
    + rewrite (lookup_insert_ne c) by done. rewrite <- H2.
      destruct (removable r.1); [done|]. by rewrite lookup_insert_ne.
  - rewrite sum_insert by done. destruct (removable r.1) eqn:Hr.
    + apply removable_count in Hr. lia.
    + rewrite sum_insert by done. lia.
  - intros j ch' Hj. destruct (removable r.1) eqn:Hr; [by apply (H4 j)|].
    apply lookup_insert_Some in Hj as [[<- <-]|[_ Hj]]; [done|by apply (H4 j)].
Qed.

Lemma pruneWalk_spec f p n sz : pruned f p n sz (pruneWalk f p n sz).
Proof.
  revert p sz. induction n as [c v seen IH] using node_induction. intros p sz. simpl.
  match goal with |- context [map_fold ?g ?b c] => set (step := g); assert (Hsw : swept f p sz (map_fold step b c) c) end.
  { assert (Hall : map_Forall (λ _ ch, ∀ p sz, pruned f p ch sz (pruneWalk f p ch sz)) c) by (intros k ch Hk; eauto).
    revert Hall. apply (map_fold_weak_ind (λ acc c, map_Forall (λ _ ch, ∀ p sz, pruned f p ch sz (pruneWalk f p ch sz)) c →
      swept f p sz acc c)).
    - intros _. split; simpl; [done| |unfold sum; rewrite !map_fold_empty; lia|by intros ?? [=]].
      intros k q. by rewrite !lookup_empty.
    - intros k ch m [acc sz'] Hk IHm Hm. apply map_Forall_insert in Hm as [Hch Hm]; [|done].
      specialize (swept_step f p sz _ _ k ch _ (IHm Hm) Hk (Hch (p ++ [k]) sz')). unfold step. simpl.
      by destruct (pruneWalk f (p ++ [k]) ch sz'). }
  destruct (map_fold step (∅, sz) c) as [c' sz']. destruct Hsw as [_ H2 H3 H4]. simpl in *.
  assert (Hq : ∀ v' seen' k q, held (k :: q) (Node c' v' seen') = kept f (p ++ k :: q) (held (k :: q) (Node c v seen))).
  { intros v' seen' k q. rewrite !held_cons. simpl. apply H2. }
  destruct v as [v|]; [destruct (f p v seen) eqn:Hf|]; split; simpl; rewrite ?count_node; simpl;
    try (by apply tidy_node); try lia.
  all: intros [|k q]; [|apply Hq]; unfold held; simpl; rewrite ?app_nil_r; simpl; rewrite ?Hf; done.
Qed.

(** ** The tree and its map *)

(** The size is that of the map, no branch is empty, and the root holds
    nothing. *)
Record tree_ok t : Prop := {
  ok_size : t.(size) = Z.of_nat (base.size (abs t.(root)));
  ok_tidy : tidy t.(root);
  ok_root : t.(root).(value) = None;
}.

(** The map after [prune]. *)
Definition keep (f : list N → V → Z → bool) (m : gmap (list N) (V * Z)) : gmap (list N) (V * Z) :=
  map_imap (λ p e, if f p e.1 e.2 then None else Some e) m.

Lemma prune_spec f t :
  tree_ok t → tree_ok (prune f t) ∧ abs (prune f t).(root) = keep f (abs t.(root)) ∧ (prune f t).(opts) = t.(opts).
Proof.
  intros [H1 H2 H3]. unfold prune. pose proof (pruneWalk_spec f [] t.(root) t.(size)) as [P1 P2 P3].
  destruct (pruneWalk f [] (root t) (size t)) as [r sz]. simpl in *. rewrite size_abs in H1.
  split_and!; [split; simpl| |done].
  - rewrite size_abs. unfold count in P2. lia.
  - done.
  - specialize (P1 []). unfold held in P1. simpl in P1. rewrite H3 in P1. by destruct (value r).
  - apply map_eq. intros p. rewrite lookup_abs, P1. unfold keep. rewrite map_lookup_imap, lookup_abs. done.
Qed.

(** The map after the loop of [Insert]. *)
Definition put key (v : V) (now : Z) (m : gmap (list N) (V * Z)) : gmap (list N) (V * Z) :=
  foldr (λ d, <[take d key := (v, now)]>) m (seq 1 (length key)).

Lemma on_key_take key p : on_key key p ↔ ∃ d, 1 ≤ d ≤ length key ∧ p = take d key.
Proof.
  unfold on_key. split.
  - intros [Hne Hp]. exists (length p). split; [|by destruct Hp as [q ->]; rewrite take_app_length].
    apply prefix_length in Hp. destruct p; [done|simpl in *; lia].
  - intros (d & Hd & ->). split; [|apply prefix_take]. destruct key, d; simpl in *; (done || lia).
Qed.

Lemma lookup_put key v now m p :
  put key v now m !! p = if decide (on_key key p) then Some (v, now) else m !! p.
Proof.
  unfold put.
  assert (Hl : ∀ l, foldr (λ d, <[take d key := (v, now)]>) m l !! p =
    if decide (p ∈ (λ d, take d key) <$> l) then Some (v, now) else m !! p).
  { induction l as [|d l IH]; [rewrite decide_False; [done|apply not_elem_of_nil]|].
    rewrite fmap_cons. cbn [foldr].
    destruct (decide (p = take d key)) as [->|Hne].
    - rewrite lookup_insert_eq, decide_True by (by left). done.
    - rewrite lookup_insert_ne by done. rewrite IH. case_decide as H1; case_decide as H2; try done.
      + contradict H2. by right.
      + apply elem_of_cons in H2 as [?|?]; done. }
  rewrite Hl. case_decide as H1; case_decide as H2; try done.
  - contradict H2. apply on_key_take. apply list_elem_of_fmap in H1 as (d & -> & Hd).
    exists d. split; [|done]. apply list_elem_of_In, in_seq in Hd. lia.
  - contradict H1. apply on_key_take in H2 as (d & Hd & ->). apply list_elem_of_fmap. exists d.
    split; [done|]. apply list_elem_of_In, in_seq. lia.
Qed.

Lemma abs_insert v now key cur sz : abs (insert_loop v now key cur sz).1 = put key v now (abs cur).
Proof.
  apply map_eq. intros p. rewrite lookup_put, !lookup_abs. apply (ins_held _ _ _ _ _ _ (insert_loop_spec v now key cur sz)).
Qed.

Lemma insert_ok v now key t :
  tree_ok t → tree_ok (MkTree t.(opts) (insert_loop v now key t.(root) t.(size)).1 (insert_loop v now key t.(root) t.(size)).2).
Proof.
  intros [H1 H2 H3]. destruct (insert_loop_spec v now key t.(root) t.(size)) as [I1 I2 I3 I4].
  rewrite size_abs in H1. unfold count in I3. split; simpl; [|auto|congruence]. rewrite size_abs. lia.
Qed.

(** [p] holds an entry no younger than any other. *)
Definition is_oldest (m : gmap (list N) (V * Z)) p : Prop :=
  ∃ e, m !! p = Some e ∧ ∀ p' e', m !! p' = Some e' → (e.2 ≤ e'.2)%Z.

Lemma older_fold (l : list (entry V)) victim w :
  foldl older victim l = Some w →
  (w ∈ l ∨ victim = Some w) ∧ (∀ e, e ∈ l ∨ victim = Some e → (w.2.2 ≤ e.2.2)%Z).
Proof.
  revert victim. induction l as [|x l IH]; intros victim; simpl.
  { intros ->. split; [by right|]. intros e [He|[= ->]]; [by apply not_elem_of_nil in He|lia]. }
  intros H. apply IH in H as [Hin Hmin]. unfold older in *. destruct victim as [w0|].
  - destruct (w0.2.2 <=? x.2.2)%Z eqn:Hle.
    + assert ((x.2.2 <? w0.2.2)%Z = false) as Hlt by lia. rewrite Hlt in *. split.
      * destruct Hin as [?|?]; [left; by right|by right].
      * intros e [[->|He]%elem_of_cons|[= ->]]; [|auto..]. specialize (Hmin w0 (or_intror eq_refl)). lia.
    + assert ((x.2.2 <? w0.2.2)%Z = true) as Hlt by lia. rewrite Hlt in *. split.
      * left. destruct Hin as [?|[= <-]]; [by right|by left].
      * intros e [[->|He]%elem_of_cons|[= <-]]; [auto..|]. specialize (Hmin x (or_intror eq_refl)). lia.
  - split; [left; destruct Hin as [?|[= <-]]; [by right|by left]|].
    intros e [[->|He]%elem_of_cons|?]; auto. done.
Qed.

Context `{!WalkLaws V}.

Lemma oldest_spec t :
  match oldest t with
  | Some (p, _) => is_oldest (abs t.(root)) p
  | None => abs t.(root) = ∅
  end.
Proof.
  assert (Hin : ∀ p e, (p, e) ∈ walk_order (entries [] t.(root)) ↔ abs t.(root) !! p = Some e).
  { intros p e. rewrite walk_perm, elem_of_entries, lookup_abs. simpl. split; [by intros (q & -> & ?)|eauto]. }
  unfold oldest. destruct (foldl older None (walk_order (entries [] (root t)))) as [[p e]|] eqn:Hf.
  - apply older_fold in Hf as [[Hp|?] Hmin]; [|done]. apply Hin in Hp. exists e. split; [done|].
    intros p' e' Hp'. apply (Hmin (p', e')). left. by apply Hin.
  - destruct (walk_order (entries [] (root t))) as [|x l] eqn:Hw.
    + apply map_eq. intros p. rewrite lookup_empty. apply eq_None_not_Some. intros [e He].
      apply Hin in He. by apply not_elem_of_nil in He.
    + exfalso. simpl in Hf. revert Hf. generalize x. clear. induction l as [|y l IH]; intros x; [done|].
      simpl. destruct (y.2.2 <? x.2.2)%Z; apply IH.
Qed.

Lemma keep_victim m p : keep (λ p' _ _, bool_decide (p' = p)) m = delete p m.
Proof.
  apply map_eq. intros q. unfold keep. rewrite map_lookup_imap. destruct (decide (q = p)) as [->|Hne].
  - rewrite lookup_delete_eq. destruct (m !! p); simpl; [|done]. by rewrite bool_decide_eq_true_2.
  - rewrite lookup_delete_ne by done. destruct (m !! q); simpl; [|done]. by rewrite bool_decide_eq_false_2.
Qed.

(** ** Any sequence of operations *)

Inductive Op :=
| OpInsert (key : list N) (v : V) (now : Z)
| OpEvict (now : Z)
| OpRemoveFunc (pred : V → bool).

Definition exec (o : Op) t : Tree V :=
  match o with
  | OpInsert key v now => Insert key v now t
  | OpEvict now => Evict now t
  | OpRemoveFunc pred => RemoveFunc pred t
  end.

Definition run (o : Options) (ops : list Op) : Tree V := foldl (λ t op, exec op t) (New o) ops.

(** The reference: a finite map from paths.  An insertion writes every prefix
    of its key; above the bound it drops one of the oldest entries. *)
Definition over (o : Options) (m : gmap (list N) (V * Z)) : Prop :=
  (0 < o.(MaxEntries) < Z.of_nat (base.size m))%Z.

Definition map_step (o : Options) (m : gmap (list N) (V * Z)) (op : Op) (m' : gmap (list N) (V * Z)) : Prop :=
  match op with
  | OpInsert key v now =>
      if decide (key = []) then m' = m else
      (¬ over o (put key v now m) ∧ m' = put key v now m) ∨
      (over o (put key v now m) ∧ ∃ p, is_oldest (put key v now m) p ∧ m' = delete p (put key v now m))
  | OpEvict now => m' = filter (λ '(_, e), expired o e.2 now = false) m
  | OpRemoveFunc pred => m' = filter (λ '(_, e), pred e.1 = false) m
  end.

Lemma keep_filter (g : V * Z → bool) m :
  keep (λ _ v seen, g (v, seen)) m = filter (λ '(_, e), g e = false) m.
Proof.
  apply map_eq. intros p. unfold keep. rewrite map_lookup_imap, map_lookup_filter.
  destruct (m !! p) as [[v seen]|]; simpl; [|done]. by destruct (g (v, seen)).
Qed.

Lemma exec_spec op t :
  tree_ok t →
  tree_ok (exec op t) ∧ map_step t.(opts) (abs t.(root)) op (abs (exec op t).(root)) ∧
  (exec op t).(opts) = t.(opts).
Proof.
  intros Hok. destruct op as [key v now|now|pred]; simpl.
  - unfold Insert. case_bool_decide as Hkey; [by rewrite decide_True|]. rewrite decide_False by done.
    pose proof (insert_ok v now key t Hok) as Hok1. pose proof (abs_insert v now key t.(root) t.(size)) as Habs.
    destruct (insert_loop v now key (root t) (size t)) as [r sz]. simpl in *.
    pose proof (ok_size _ Hok1) as Hsz. simpl in Hsz. rewrite Habs in Hsz.
    destruct ((0 <? MaxEntries (opts t))%Z && (MaxEntries (opts t) <? sz)%Z) eqn:Hover.
    + assert (over (opts t) (put key v now (abs (root t)))) as Ho by (unfold over; lia).
      unfold evictOldestLocked. pose proof (oldest_spec (MkTree (opts t) r sz)) as Hold. simpl in Hold.
      destruct (oldest _) as [[victim e]|].
      * destruct (prune_spec (λ p _ _, bool_decide (p = victim)) _ Hok1) as (H1 & H2 & H3).
        split_and!; [done| |done]. right. split; [done|]. exists victim. rewrite <- Habs. split; [done|].
        by rewrite H2, <- keep_victim.
      * rewrite <- Habs in Ho. rewrite Hold in Ho. unfold over in Ho. rewrite map_size_empty in Ho. lia.
    + split_and!; [done| |done]. left. split; [unfold over; lia|done].
  - destruct (prune_spec (λ _ _ seen, expired t.(opts) seen now) t Hok) as (H1 & H2 & H3).
    split_and!; [done| |done]. rewrite <- (keep_filter (λ e, expired (opts t) e.2 now)). exact H2.
  - destruct (prune_spec (λ _ v _, pred v) t Hok) as (H1 & H2 & H3).
    split_and!; [done| |done]. rewrite <- (keep_filter (λ e, pred e.1)). exact H2.
Qed.

Lemma New_ok o : tree_ok (New o).
Proof.
  split; [done| |done]. intros [|k p] n' Hp Hg; [done|]. simpl in Hg. by rewrite lookup_empty in Hg.
Qed.

Lemma run_ok o ops : tree_ok (run o ops) ∧ (run o ops).(opts) = o.
Proof.
  unfold run. assert (H : ∀ t, tree_ok t → t.(opts) = o → tree_ok (foldl (λ t op, exec op t) t ops) ∧
    (foldl (λ t op, exec op t) t ops).(opts) = o).
  { induction ops as [|op ops IH]; intros t Hok Ho; [done|]. simpl.
    destruct (exec_spec op t Hok) as (H1 & _ & H3). apply IH; [done|congruence]. }
  apply H; [apply New_ok|done].
Qed.

Lemma put_ne_nil v now key p e : put key v now ∅ !! p = Some e → p ≠ [].
Proof. rewrite lookup_put, lookup_empty. case_decide as H; [|done]. by destruct H. Qed.

Lemma size_put_empty v now key : base.size (put key v now ∅) = length key.
Proof.
  unfold put.
  assert (∀ l, foldr (λ d, <[take d key := (v, now)]>) ∅ l =
    list_to_map (M := gmap (list N) (V * Z)) ((λ d, (take d key, (v, now))) <$> l)) as ->.
  { induction l as [|d l IH]; [done|]. simpl. by rewrite IH. }
  rewrite <- length_map_to_list, map_to_list_to_map; [by rewrite length_fmap, length_seq|].
  rewrite <- list_fmap_compose. simpl. apply NoDup_fmap_2_strong; [|apply NoDup_ListNoDup, seq_NoDup].
  intros d1 d2 H1 H2 Heq. apply list_elem_of_In, in_seq in H1. apply list_elem_of_In, in_seq in H2.
  apply (f_equal length) in Heq. simpl in Heq. rewrite !length_take in Heq. lia.
Qed.

(** C16. The tree is a map from key prefixes: after any operations, each
    operation does to the map read off the tree exactly what it promises
    (an insertion gives its value to every prefix of the key and, above the
    bound, drops an entry no younger than any other; a sweep keeps the live
    entries; a removal keeps those it does not name), and [LongestMatch] finds
    the deepest live prefix of the query. *)
Theorem radix_refines o ops op key now :
  let t := run o ops in
  map_step o (abs t.(root)) op (abs (exec op t).(root)) ∧
  LongestMatch key now t = best_prefix o now key (abs t.(root)).
Proof.
  intros t. destruct (run_ok o ops) as [Hok Ho]. subst t. split.
  - rewrite <- Ho at 1. by apply exec_spec.
  - rewrite LongestMatch_spec. by rewrite Ho.
Qed.

(** C17. The tree stays in shape: after any operations [Len] is the number of
    entries, no node below the root is both empty and a leaf, and the root
    holds no value. *)
Theorem radix_tidy o ops :
  let t := run o ops in
  Len t = Z.of_nat (base.size (abs t.(root))) ∧ tidy t.(root) ∧ held [] t.(root) = None.
Proof.
  intros t. destruct (run_ok o ops) as [[H1 H2 H3] _]. split_and!; [done|done|].
  unfold held. simpl. subst t. by rewrite H3.
Qed.

(** [MaxEntries] does not bound the tree: one insertion adds as many
    entries as its key has elements but evicts at most one, so inserting any
    key longer than the bound allows into an empty tree leaves all of its
    entries but one. *)
Theorem radix_bound_missed o key v now :
  (0 < o.(MaxEntries))%Z → (o.(MaxEntries) + 1 < Z.of_nat (length key))%Z →
  Len (Insert key v now (New o)) = (Z.of_nat (length key) - 1)%Z ∧
  (o.(MaxEntries) < Len (Insert key v now (New o)))%Z.
Proof.
  intros Hmax Hlen. destruct (exec_spec (OpInsert key v now) (New o) (New_ok o)) as ([H1 _ _] & H2 & _).
  simpl in *. unfold Len. rewrite H1. change (abs empty_node) with (∅ : gmap (list N) (V * Z)) in H2.
  rewrite decide_False in H2 by (intros ->; simpl in Hlen; lia).
  destruct H2 as [[Hno _]|(_ & p & (e & He & _) & ->)].
  - contradict Hno. unfold over. rewrite size_put_empty. lia.
  - rewrite map_size_delete_Some by (by exists e). rewrite size_put_empty. lia.
Qed.

(** ** Weights *)

Definition add_weight (o : Options) (now : Z) (v : V) (acc : spec_float) (e : entry V) : spec_float :=
  if bool_decide (e.2.1 = v) && negb (expired o e.2.2 now)
  then SFadd 53 1024 acc (contribution o e.2.2 now) else acc.

Lemma lookup_zero_weights `{!Countable V} (values : list V) (m : gmap V spec_float) v :
  foldl (λ m v, <[v := float64 0]> m) m values !! v =
    if decide (v ∈ values) then Some (float64 0) else m !! v.
Proof.
  revert m. induction values as [|w values IH]; intros m; cbn [foldl].
  { rewrite decide_False; [done|apply not_elem_of_nil]. }
  rewrite IH. destruct (decide (v ∈ values)) as [Hv|Hv].
  - rewrite decide_True; [done|by right].
  - destruct (decide (v = w)) as [->|Hne].
    + rewrite lookup_insert_eq, decide_True; [done|by left].
    + rewrite lookup_insert_ne by done. rewrite decide_False; [done|]. by intros [?|?]%elem_of_cons.
Qed.

Lemma radix_weights_lookup `{!Countable V} (values : list V) now t v :
  WeightsFor values now t !! v = if decide (v ∈ values) then Some (Weight v now t) else None.
Proof.
  unfold WeightsFor, Weight. set (want := list_to_set (C := gset V) values).
  assert (Hwant : v ∈ want ↔ v ∈ values) by apply elem_of_list_to_set.
  case_bool_decide as Hempty.
  { rewrite lookup_zero_weights, lookup_empty. assert (v ∉ values) by (rewrite <- Hwant, Hempty; apply not_elem_of_empty).
    by rewrite !decide_False. }
  assert (H : ∀ l m s, (m : gmap V spec_float) !! v = (if decide (v ∈ values) then Some s else None) →
    foldl (λ m e, if negb (expired (opts t) e.2.2 now) && bool_decide (e.2.1 ∈ want)
      then <[e.2.1 := SFadd 53 1024 (default (float64 0) (m !! e.2.1)) (contribution (opts t) e.2.2 now)]> m else m) m l !! v =
    if decide (v ∈ values) then Some (foldl (add_weight (opts t) now v) s l) else None).
  { induction l as [|e l IH]; intros m s Hm; [done|]. cbn [foldl]. apply IH. unfold add_weight.
    destruct (expired (opts t) e.2.2 now); simpl; [by rewrite andb_false_r|]. rewrite andb_true_r.
    destruct (decide (e.2.1 = v)) as [Heq|Hne].
    - rewrite (bool_decide_eq_true_2 (e.2.1 = v)) by done. rewrite Heq. case_bool_decide as Hin.
      + apply Hwant in Hin. rewrite lookup_insert_eq, Hm. by rewrite !decide_True.
      + assert (Hv : v ∉ values) by (by rewrite <- Hwant). rewrite Hm, !decide_False by done. done.
    - rewrite (bool_decide_eq_false_2 (e.2.1 = v)) by done. destruct (bool_decide (e.2.1 ∈ want)); [|done].
      by rewrite lookup_insert_ne. }
  apply H. rewrite lookup_zero_weights, lookup_empty. done.
Qed.

(** One walk computes every weight: [WeightsFor] answers exactly the values
    asked for, each with the weight that a walk of its own would give it
    (bit for bit, on the same walk). *)
Theorem radix_weights_for `{!Countable V} (values : list V) now t v :
  WeightsFor values now t !! v = if decide (v ∈ values) then Some (Weight v now t) else None.
Proof. apply radix_weights_lookup. Qed.

End Radix.

(** ** Witnesses *)

#[local] Instance demo_walk : Walk nat := {| walk_order := reverse; Pow := λ x _, x |}.

#[local] Instance demo_walk_laws : WalkLaws nat.
Proof. split. intros l. apply reverse_Permutation. Qed.

Definition demo_options : Options := MkOptions (5 * Minute) 0 2.

(** Two chains that share their first block. *)
Definition demo_ops : list (Op (V := nat)) :=
  [OpInsert [1; 2]%N 7 10; OpInsert [1; 3]%N 8 20].

(** The oldest entry, the leaf of the first chain, is gone; its prefix now
    belongs to the second. *)
Lemma demo_match :
  (LongestMatch [1; 2]%N 30 (run demo_options demo_ops), LongestMatch [1; 3; 4]%N 30 (run demo_options demo_ops)) =
  (Some (8, 1%nat), Some (8, 2%nat)).
Proof. reflexivity. Qed.

Lemma radix_refines_witness :
  LongestMatch [1; 3; 4]%N 30 (run demo_options demo_ops) = Some (8, 2) ∧
  best_prefix demo_options 30 [1; 3; 4]%N (abs (run demo_options demo_ops).(root)) = Some (8, 2).
Proof.
  split; [reflexivity|].
  rewrite <- (proj2 (radix_refines demo_options demo_ops (OpEvict 0) [1; 3; 4]%N 30)). reflexivity.
Defined.

Lemma radix_tidy_witness : Len (run demo_options demo_ops) = 2%Z ∧
  Len (run demo_options demo_ops) = Z.of_nat (base.size (abs (run demo_options demo_ops).(root))).
Proof. split; [reflexivity|]. exact (proj1 (radix_tidy demo_options demo_ops)). Defined.

Lemma radix_bound_missed_witness : (2 < Len (Insert [1; 2; 3; 4]%N 7%nat 10 (New demo_options)))%Z.
Proof. apply (radix_bound_missed demo_options [1; 2; 3; 4]%N 7 10); reflexivity. Defined.
