(* ===== verification/PrefixIndex.v ===== *)
(** * PrefixIndex: which replica holds a prompt's prefix

    Models [core/services/nodes/prefixcache]: [ReplicaKey] and
    [PrefixDecision] of [select.go], the [Provider] interface of
    [provider.go], its two implementations (the guessed [Index] of
    [index.go], over [RadixTree], and the [ReportedIndex] of [reported.go]),
    and [Sync] of [sync.go], which keeps frontends coherent over any provider.
    [Observe] reads the tree and then writes it, in two critical sections; a
    write in between can only change the boolean it returns. *)
From Stdlib Require Import Floats.SpecFloat.
From stdpp Require Import sorting.
From S2P Require Import Prelude GoTime RadixTree.

(** ** Replicas *)

Record ReplicaKey := MkReplicaKey { NodeID : string; Replica : Z }.

#[export] Instance ReplicaKey_eq_dec : EqDecision ReplicaKey.
Proof. solve_decision. Defined.

#[export] Instance ReplicaKey_countable : Countable ReplicaKey.
Proof.
  refine (inj_countable' (λ k, (k.(NodeID), k.(Replica))) (λ p, MkReplicaKey p.1 p.2) _).
  by intros [].
Defined.

(** [ReplicaKey.less] *)
Definition less (a b : ReplicaKey) : bool :=
  if String.eqb a.(NodeID) b.(NodeID) then (a.(Replica) <? b.(Replica))%Z
  else String.ltb a.(NodeID) b.(NodeID).

Lemma ltb_trans s1 s2 s3 : String.ltb s1 s2 = true → String.ltb s2 s3 = true → String.ltb s1 s3 = true.
Proof.
  unfold String.ltb. revert s2 s3. induction s1 as [|a s1 IH]; intros [|b s2] [|c s3]; simpl; try done.
  unfold Ascii.compare. specialize (IH s2 s3).
  generalize (Ascii.N_of_ascii a), (Ascii.N_of_ascii b), (Ascii.N_of_ascii c). intros x y z.
  destruct (N.compare_spec x y), (N.compare_spec y z), (N.compare_spec x z); (done || lia || auto).
Qed.

Lemma ltb_total s1 s2 : String.ltb s1 s2 = false → String.ltb s2 s1 = false → s1 = s2.
Proof.
  unfold String.ltb. rewrite (String.compare_antisym s2 s1).
  destruct (String.compare s1 s2) eqn:Hc; simpl; try done. intros _ _. by apply String.compare_eq_iff.
Qed.

Lemma ltb_irrefl s : String.ltb s s = false.
Proof. unfold String.ltb. pose proof (String.compare_antisym s s) as H. by destruct (String.compare s s). Qed.

(** The order of [sort.Slice] by [less]. *)
Definition key_le (a b : ReplicaKey) : Prop := less b a = false.

#[export] Instance key_le_dec a b : Decision (key_le a b).
Proof. unfold key_le. apply _. Defined.

Lemma less_irrefl a : less a a = false.
Proof. unfold less. rewrite String.eqb_refl. lia. Qed.

Lemma less_total a b : less a b = false → less b a = false → a = b.
Proof.
  unfold less. rewrite (String.eqb_sym b.(NodeID)). destruct a as [na ra], b as [nb rb]; simpl.
  destruct (String.eqb_spec na nb) as [->|Hne]; [intros; f_equal; lia|]. intros H1 H2. by destruct Hne; apply ltb_total.
Qed.

Lemma less_trans a b c : less a b = true → less b c = true → less a c = true.
Proof.
  unfold less. destruct a as [na ra], b as [nb rb], c as [nc rc]; simpl.
  destruct (String.eqb_spec na nb) as [->|H1]; destruct (String.eqb_spec nb nc) as [->|H2]; try done.
  - lia.
  - destruct (String.eqb_spec na nc) as [->|H3]; [done|done].
  - intros Hab Hbc. destruct (String.eqb_spec na nc) as [->|H3]; [|by eapply ltb_trans].
    pose proof (ltb_trans _ _ _ Hab Hbc) as Hx. by rewrite ltb_irrefl in Hx.
Qed.

#[export] Instance key_le_total : Total key_le.
Proof.
  intros a b. unfold key_le. destruct (less b a) eqn:H1; [|by left]. right.
  destruct (less a b) eqn:H2; [|done]. pose proof (less_trans _ _ _ H1 H2) as H. by rewrite less_irrefl in H.
Qed.

#[export] Instance key_le_trans : Transitive key_le.
Proof.
  intros a b c. unfold key_le. intros H1 H2. destruct (less c a) eqn:H3; [|done].
  destruct (less a b) eqn:H4.
  - by rewrite (less_trans _ _ _ H3 H4) in H2.
  - rewrite (less_total a b H4 H1) in H3. by rewrite H3 in H2.
Qed.

(** ** The interface *)

Record PrefixDecision := MkDecision {
  Hot : ReplicaKey;
  HasHot : bool;
  MatchRatio : spec_float;
  ColdOrder : list ReplicaKey;
}.

Definition zero_key : ReplicaKey := MkReplicaKey "" 0.

(** [float64(depth) / float64(len(chain))] *)
Definition match_ratio (depth len : nat) : spec_float :=
  SFdiv 53 1024 (float64 (Z.of_nat depth)) (float64 (Z.of_nat len)).

(** [Provider] *)
Class Provider (P : Type) := {
  Decide : string → list N → list ReplicaKey → Z → P → PrefixDecision * P;
  Observe : string → list N → ReplicaKey → Z → P → bool * P;
  Invalidate : string → ReplicaKey → P → P;
  InvalidateNode : string → string → P → P;
  Evict : Z → P → P;
}.

(** What the router relies on: a hot replica is a candidate, the cold order is
    the candidates, and an invalidated replica is not hot. *)
Class ProviderLaws (P : Type) `{!Provider P} := {
  valid : P → Prop;
  valid_Decide : ∀ m c ks now p, valid p → valid (Decide m c ks now p).2;
  valid_Observe : ∀ m c k now p, valid p → valid (Observe m c k now p).2;
  valid_Invalidate : ∀ m k p, valid p → valid (Invalidate m k p);
  valid_InvalidateNode : ∀ m n p, valid p → valid (InvalidateNode m n p);
  valid_Evict : ∀ now p, valid p → valid (Evict now p);
  hot_candidate : ∀ m c ks now p, valid p →
    let d := (Decide m c ks now p).1 in d.(HasHot) = true → d.(Hot) ∈ ks;
  cold_candidates : ∀ m c ks now p, valid p → (Decide m c ks now p).1.(ColdOrder) ≡ₚ ks;
  invalidated : ∀ m k c ks now p, valid p → m ≠ "" → k.(NodeID) ≠ "" →
    let d := (Decide m c ks now (Invalidate m k p)).1 in d.(HasHot) = true → d.(Hot) ≠ k;
  invalidated_node : ∀ m n c ks now p, valid p →
    let d := (Decide m c ks now (InvalidateNode m n p)).1 in
    d.(HasHot) = true → d.(Hot).(NodeID) ≠ n;
}.

(** ** The guessed index *)

Record Index := MkIndex { cfg_TTL : Z; cfg_HalfLife : Z; trees : gmap string (Tree ReplicaKey) }.

Definition tree_options (ix : Index) : Options := MkOptions ix.(cfg_TTL) ix.(cfg_HalfLife) 0.

Definition NewIndex (ttl half : Z) : Index := MkIndex ttl half ∅.

Definition set_tree (m : string) (t : Tree ReplicaKey) (ix : Index) : Index :=
  MkIndex ix.(cfg_TTL) ix.(cfg_HalfLife) (<[m := t]> ix.(trees)).

(** [existingTree] *)
Definition existingTree (m : string) (ix : Index) : option (Tree ReplicaKey) := ix.(trees) !! m.

Section Index.
Context `{!Walk ReplicaKey}.

(** [tree]: interns an empty tree for a model seen for the first time. *)
Definition tree (m : string) (ix : Index) : Tree ReplicaKey * Index :=
  match ix.(trees) !! m with
  | Some t => (t, ix)
  | None => let t := New (tree_options ix) in (t, set_tree m t ix)
  end.

(** The order of the cold candidates: by weight, then by key. *)
Definition cold_less (w : gmap ReplicaKey spec_float) (a b : ReplicaKey) : bool :=
  let wa := default (float64 0) (w !! a) in
  let wb := default (float64 0) (w !! b) in
  if negb (SFeqb wa wb) then SFltb wa wb else less a b.

Definition cold_le (w : gmap ReplicaKey spec_float) (a b : ReplicaKey) : Prop := cold_less w b a = false.

#[export] Instance cold_le_dec w a b : Decision (cold_le w a b).
Proof. unfold cold_le. apply _. Defined.

Definition cold_order (w : gmap ReplicaKey spec_float) (ks : list ReplicaKey) : list ReplicaKey :=
  if (1 <? length ks)%nat then merge_sort (cold_le w) ks else ks.

(** The hot replica, when it is a candidate, and the depth of its match. *)
Definition hot_match (t : Tree ReplicaKey) (c : list N) (w : gmap ReplicaKey spec_float) (now : Z) :
    option (ReplicaKey * nat) :=
  if bool_decide (c = []) then None else
  match LongestMatch c now t with
  | Some (k, depth) => match w !! k with Some _ => Some (k, depth) | None => None end
  | None => None
  end.

Definition index_Decide (m : string) (c : list N) (ks : list ReplicaKey) (now : Z) (ix : Index) :
    PrefixDecision * Index :=
  let '(t, ix) := tree m ix in
  let w := WeightsFor ks now t in
  let order := cold_order w ks in
  (match hot_match t c w now with
   | Some (k, depth) => MkDecision k true (match_ratio depth (length c)) order
   | None => MkDecision zero_key false (float64 0) order
   end, ix).

Definition index_Observe (m : string) (c : list N) (k : ReplicaKey) (now : Z) (ix : Index) : bool * Index :=
  if bool_decide (c = []) || String.eqb k.(NodeID) "" then (false, ix) else
  let '(t, ix) := tree m ix in
  (match LongestMatch c now t with
   | None => true
   | Some (cur, depth) => (depth <? length c)%nat || negb (bool_decide (cur = k))
   end, set_tree m (Insert c k now t) ix).

Definition index_remove (m : string) (pred : ReplicaKey → bool) (ix : Index) : Index :=
  match existingTree m ix with
  | Some t => set_tree m (RemoveFunc pred t) ix
  | None => ix
  end.

Definition index_Invalidate (m : string) (k : ReplicaKey) : Index → Index :=
  index_remove m (λ k', bool_decide (k' = k)).

Definition index_InvalidateNode (m n : string) : Index → Index :=
  index_remove m (λ k, String.eqb k.(NodeID) n).

Definition index_Evict (now : Z) (ix : Index) : Index :=
  MkIndex ix.(cfg_TTL) ix.(cfg_HalfLife) (RadixTree.Evict now <$> ix.(trees)).

#[export] Instance index_provider : Provider Index := {|
  Decide := index_Decide;
  Observe := index_Observe;
  Invalidate := index_Invalidate;
  InvalidateNode := index_InvalidateNode;
  Evict := index_Evict;
|}.

Context `{!WalkLaws ReplicaKey}.

(** Every tree is sound and has the options of the index. *)
Definition index_valid (ix : Index) : Prop :=
  ∀ m t, ix.(trees) !! m = Some t → tree_ok t ∧ t.(opts) = tree_options ix.

(** What the model's tree maps each prefix to. *)
Definition learned (m : string) (ix : Index) : gmap (list N) (ReplicaKey * Z) :=
  match ix.(trees) !! m with Some t => abs t.(root) | None => ∅ end.

Lemma tree_valid m ix :
  index_valid ix →
  tree_ok (tree m ix).1 ∧ (tree m ix).1.(opts) = tree_options ix ∧ abs (tree m ix).1.(root) = learned m ix ∧
  index_valid (tree m ix).2 ∧ tree_options (tree m ix).2 = tree_options ix.
Proof.
  intros Hv. unfold tree, learned. destruct (trees ix !! m) as [t|] eqn:Ht.
  - destruct (Hv m t Ht). done.
  - split_and!; [apply New_ok|done|done| |done]. intros m' t' Ht'. simpl in Ht'.
    apply lookup_insert_Some in Ht' as [[_ <-]|[_ Ht']]; [split; [apply New_ok|done]|by apply (Hv m')].
Qed.

Lemma set_tree_valid m t ix : index_valid ix → tree_ok t → t.(opts) = tree_options ix → index_valid (set_tree m t ix).
Proof.
  intros Hv Ht Ho m' t' Ht'. simpl in Ht'. apply lookup_insert_Some in Ht' as [[_ <-]|[_ Ht']]; [done|by apply (Hv m')].
Qed.

(** What a match says of the map. *)
Lemma best_prefix_Some o now (c : list N) m (k : ReplicaKey) d :
  best_prefix o now c m = Some (k, d) ↔
  1 ≤ d ≤ length c ∧ live_at o now c m d = Some (k, d) ∧ ∀ d', d < d' ≤ length c → live_at o now c m d' = None.
Proof.
  unfold best_prefix. induction (length c) as [|n IH]; simpl.
  { split; [done|lia]. }
  assert (Hlive : ∀ d' r, live_at o now c m d' = Some r → r.2 = d').
  { intros d' r. unfold live_at. destruct (m !! take d' c) as [e|]; [|done]. simpl.
    destruct (expired o e.2 now); [done|]. by intros [= <-]. }
  destruct (live_at o now c m (S n)) as [[k' d']|] eqn:HS.
  - specialize (Hlive _ _ HS) as Hd. simpl in Hd. subst d'. split.
    + intros [= <- <-]. split_and!; [lia|lia|done|lia].
    + intros (Hd & Hl & Hmax). destruct (decide (d = S n)) as [->|]; [congruence|].
      rewrite Hmax in HS by lia. done.
  - rewrite IH. split; intros (Hd & Hl & Hmax); split_and!; try lia; try done.
    + intros d' Hd'. destruct (decide (d' = S n)) as [->|]; [done|]. apply Hmax. lia.
    + destruct (decide (d = S n)) as [->|]; [congruence|lia].
    + intros d' Hd'. apply Hmax. lia.
Qed.

Lemma hot_match_Some t c ks now k depth :
  tree_ok t →
  hot_match t c (WeightsFor ks now t) now = Some (k, depth) ↔
  k ∈ ks ∧ best_prefix t.(opts) now c (abs t.(root)) = Some (k, depth).
Proof.
  intros Hok. unfold hot_match. rewrite LongestMatch_spec. case_bool_decide as Hc.
  { subst c. unfold best_prefix. simpl. by split; [|intros [_ ?]]. }
  destruct (best_prefix _ _ _ _) as [[k' d']|]; [|by split; [|intros [_ ?]]].
  rewrite radix_weights_lookup. case_decide as Hk; split.
  - by intros [= -> ->].
  - by intros [_ [= -> ->]].
  - done.
  - by intros [? [= -> ->]].
Qed.

(** *** What each operation does to the map *)

Lemma learned_set_tree m t ix m' :
  learned m' (set_tree m t ix) = if decide (m' = m) then abs t.(root) else learned m' ix.
Proof.
  unfold learned. simpl. case_decide as Hm; [subst; by rewrite lookup_insert_eq|by rewrite lookup_insert_ne].
Qed.

Lemma Decide_index m c ks now ix :
  index_valid ix → index_valid (index_Decide m c ks now ix).2 ∧
  tree_options (index_Decide m c ks now ix).2 = tree_options ix ∧
  ∀ m', learned m' (index_Decide m c ks now ix).2 = learned m' ix.
Proof.
  intros Hv. destruct (tree_valid m ix Hv) as (_ & _ & _ & H4 & H5). unfold index_Decide.
  unfold tree in *. destruct (trees ix !! m) as [t|] eqn:Ht; split_and!; try done.
  intros m'. simpl. rewrite learned_set_tree. case_decide as Hm; [|done]. subst m'. unfold learned. by rewrite Ht.
Qed.

Lemma Observe_index m c k now ix :
  index_valid ix →
  index_valid (index_Observe m c k now ix).2 ∧
  tree_options (index_Observe m c k now ix).2 = tree_options ix ∧
  ∀ m', learned m' (index_Observe m c k now ix).2 =
    if bool_decide (m' = m) && negb (bool_decide (c = []) || String.eqb k.(NodeID) "")
    then put c k now (learned m ix) else learned m' ix.
Proof.
  intros Hv. unfold index_Observe. destruct (bool_decide (c = []) || String.eqb k.(NodeID) "") eqn:Hskip; simpl.
  { split_and!; [done|done|]. intros m'. by rewrite andb_false_r. }
  destruct (tree_valid m ix Hv) as (H1 & H2 & H3 & H4 & H5).
  assert (Hl : ∀ m', m' ≠ m → learned m' (tree m ix).2 = learned m' ix).
  { intros m' Hm. unfold tree. destruct (trees ix !! m); [done|]. simpl. rewrite learned_set_tree. by rewrite decide_False. }
  destruct (tree m ix) as [t ix']. simpl in *.
  destruct (exec_spec (OpInsert c k now) t H1) as (E1 & E2 & E3). simpl in *.
  split_and!; [apply set_tree_valid; [done|done|congruence]|done|].
  assert (c ≠ []) as Hc by (apply orb_false_iff in Hskip as [Hc _]; by apply bool_decide_eq_false in Hc).
  rewrite decide_False in E2 by done. intros m'. rewrite learned_set_tree, andb_true_r.
  destruct (decide (m' = m)) as [Hm|Hm].
  - rewrite bool_decide_eq_true_2 by done. rewrite <- H3.
    destruct E2 as [[_ E2]|[Ho _]]; [done|]. unfold over in Ho. rewrite H2 in Ho. simpl in Ho. lia.
  - rewrite bool_decide_eq_false_2 by done. by apply Hl.
Qed.

Lemma remove_index m pred ix :
  index_valid ix → index_valid (index_remove m pred ix) ∧
  tree_options (index_remove m pred ix) = tree_options ix ∧
  ∀ m', learned m' (index_remove m pred ix) =
    if bool_decide (m' = m) then filter (λ '(_, e), pred e.1 = false) (learned m ix) else learned m' ix.
Proof.
  intros Hv. unfold index_remove, existingTree. destruct (trees ix !! m) as [t|] eqn:Ht.
  - destruct (Hv m t Ht) as [H1 H2]. destruct (exec_spec (OpRemoveFunc pred) t H1) as (E1 & E2 & E3). simpl in *.
    split_and!; [apply set_tree_valid; [done|done|congruence]|done|].
    intros m'. rewrite learned_set_tree. case_decide as Hm; case_bool_decide; try done.
    unfold learned. by rewrite Ht, E2.
  - split_and!; [done|done|]. intros m'. case_bool_decide as Hm; [|done]. subst m'. unfold learned. rewrite Ht.
    by rewrite map_filter_empty.
Qed.

Lemma Evict_index now ix :
  index_valid ix → index_valid (index_Evict now ix) ∧
  tree_options (index_Evict now ix) = tree_options ix ∧
  ∀ m, learned m (index_Evict now ix) =
    filter (λ '(_, e), expired (tree_options ix) e.2 now = false) (learned m ix).
Proof.
  intros Hv.
  assert (Hex : ∀ m t, ix.(trees) !! m = Some t → tree_ok (RadixTree.Evict now t) ∧
    abs (RadixTree.Evict now t).(root) = filter (λ '(_, e), expired (tree_options ix) e.2 now = false) (abs t.(root)) ∧
    (RadixTree.Evict now t).(opts) = tree_options ix).
  { intros m t Ht. destruct (Hv m t Ht) as [H1 H2]. destruct (exec_spec (OpEvict now) t H1) as (E1 & E2 & E3).
    simpl in *. split_and!; [done| |congruence]. rewrite E2. by rewrite H2. }
  split_and!; [|done|].
  - intros m t Ht. simpl in Ht. rewrite lookup_fmap in Ht. destruct (trees ix !! m) as [t0|] eqn:Ht0; [|done].
    simplify_eq/=. destruct (Hex m t0 Ht0) as (?&?&?). done.
  - intros m. unfold learned. simpl. rewrite lookup_fmap. destruct (trees ix !! m) as [t0|] eqn:Ht0; simpl.
    + by apply (Hex m t0).
    + by rewrite map_filter_empty.
Qed.

(** The hot replica of a decision, in terms of the map. *)
Lemma Decide_index_eq m c ks now ix :
  index_valid ix →
  let d := (index_Decide m c ks now ix).1 in
  match best_prefix (tree_options ix) now c (learned m ix) with
  | Some (k, depth) =>
      if decide (k ∈ ks)
      then d.(HasHot) = true ∧ d.(Hot) = k ∧ d.(MatchRatio) = match_ratio depth (length c)
      else d.(HasHot) = false
  | None => d.(HasHot) = false
  end.
Proof.
  intros Hv. unfold index_Decide. destruct (tree_valid m ix Hv) as (H1 & H2 & H3 & _).
  destruct (tree m ix) as [t ix']. simpl in *.
  pose proof (λ k depth, hot_match_Some t c ks now k depth H1) as Hh. rewrite H2, H3 in Hh.
  destruct (best_prefix (tree_options ix) now c (learned m ix)) as [[k depth]|].
  - case_decide as Hk.
    + rewrite (proj2 (Hh k depth)) by done. done.
    + destruct (hot_match t c (WeightsFor ks now t) now) as [[k' d']|]; [|done].
      destruct (proj1 (Hh k' d') eq_refl) as [? [= -> ->]]. done.
  - destruct (hot_match t c (WeightsFor ks now t) now) as [[k' d']|]; [|done].
    by destruct (proj1 (Hh k' d') eq_refl).
Qed.

Lemma cold_order_perm w ks : cold_order w ks ≡ₚ ks.
Proof. unfold cold_order. destruct (1 <? length ks)%nat; [apply merge_sort_Permutation|done]. Qed.

Lemma Decide_cold m c ks now ix : (index_Decide m c ks now ix).1.(ColdOrder) ≡ₚ ks.
Proof.
  unfold index_Decide. destruct (tree m ix) as [t ix'].
  destruct (hot_match t c (WeightsFor ks now t) now) as [[??]|]; apply cold_order_perm.
Qed.

(** A replica that owns no prefix is not hot. *)
Lemma Decide_unlearned m c ks now ix (Q : ReplicaKey → Prop) :
  index_valid ix → (∀ p k t, learned m ix !! p = Some (k, t) → Q k) →
  (index_Decide m c ks now ix).1.(HasHot) = true → Q (index_Decide m c ks now ix).1.(Hot).
Proof.
  intros Hv HQ Hhot. pose proof (Decide_index_eq m c ks now ix Hv) as Hd. simpl in Hd.
  destruct (best_prefix (tree_options ix) now c (learned m ix)) as [[k depth]|] eqn:Hb; [|congruence].
  case_decide; [|congruence]. destruct Hd as (_ & -> & _).
  apply best_prefix_Some in Hb as (_ & Hl & _). unfold live_at in Hl.
  destruct (learned m ix !! take depth c) as [[k' t']|] eqn:Hp; [|done]. simpl in Hl.
  destruct (expired _ t' now); [done|]. simplify_eq. by eapply HQ.
Qed.

#[export] Program Instance index_laws : ProviderLaws Index := {| valid := index_valid |}.
Next Obligation. intros. by apply Decide_index. Qed.
Next Obligation. intros. by apply Observe_index. Qed.
Next Obligation. intros. by apply remove_index. Qed.
Next Obligation. intros. by apply remove_index. Qed.
Next Obligation. intros. by apply Evict_index. Qed.
Next Obligation.
  intros m c ks now ix Hv d Hhot. pose proof (Decide_index_eq m c ks now ix Hv) as Hd. subst d. simpl in *.
  destruct (best_prefix (tree_options ix) now c (learned m ix)) as [[k depth]|]; [|congruence].
  case_decide; [|congruence]. by destruct Hd as (_ & -> & _).
Qed.
Next Obligation. intros. apply Decide_cold. Qed.
Next Obligation.
  intros m k c ks now ix Hv _ _. destruct (remove_index m (λ k', bool_decide (k' = k)) ix Hv) as (H1 & _ & H3).
  apply (Decide_unlearned m c ks now _ (λ k', k' ≠ k) H1). intros p k' t. rewrite H3.
  rewrite bool_decide_eq_true_2 by done. intros [_ Hk]%map_lookup_filter_Some. simpl in Hk.
  by apply bool_decide_eq_false in Hk.
Qed.
Next Obligation.
  intros m n c ks now ix Hv. destruct (remove_index m (λ k, String.eqb k.(NodeID) n) ix Hv) as (H1 & _ & H3).
  apply (Decide_unlearned m c ks now _ (λ k', k'.(NodeID) ≠ n) H1). intros p k' t. rewrite H3.
  rewrite bool_decide_eq_true_2 by done. intros [_ Hk]%map_lookup_filter_Some. simpl in Hk.
  by apply String.eqb_neq in Hk.
Qed.

(** *** The index as registers

    For each model and prefix the index is a register: the last replica seen
    there, until it is invalidated or swept. *)

Inductive IndexOp :=
| IxDecide (m : string) (c : list N) (ks : list ReplicaKey) (now : Z)
| IxObserve (m : string) (c : list N) (k : ReplicaKey) (now : Z)
| IxInvalidate (m : string) (k : ReplicaKey)
| IxInvalidateNode (m n : string)
| IxEvict (now : Z).

Definition exec_index (ix : Index) (op : IndexOp) : Index :=
  match op with
  | IxDecide m c ks now => (Decide m c ks now ix).2
  | IxObserve m c k now => (Observe m c k now ix).2
  | IxInvalidate m k => Invalidate m k ix
  | IxInvalidateNode m n => InvalidateNode m n ix
  | IxEvict now => Evict now ix
  end.

Definition run_index (ttl half : Z) (ops : list IndexOp) : Index := foldl exec_index (NewIndex ttl half) ops.

(** [op] writes the register of [m] and [p]. *)
Definition writes (m : string) (p : list N) (op : IndexOp) : option (ReplicaKey * Z) :=
  match op with
  | IxObserve m' c k now =>
      if bool_decide (m = m') && negb (String.eqb k.(NodeID) "") && bool_decide (on_key c p)
      then Some (k, now) else None
  | _ => None
  end.

(** [op] empties a register that holds [e]. *)
Definition clears (o : Options) (m : string) (e : ReplicaKey * Z) (op : IndexOp) : bool :=
  match op with
  | IxInvalidate m' k => bool_decide (m = m') && bool_decide (e.1 = k)
  | IxInvalidateNode m' n => bool_decide (m = m') && String.eqb e.1.(NodeID) n
  | IxEvict now => expired o e.2 now
  | _ => false
  end.

Definition next_register (o : Options) (m : string) (p : list N) (r : option (ReplicaKey * Z)) (op : IndexOp) :
    option (ReplicaKey * Z) :=
  match writes m p op with
  | Some e => Some e
  | None => e ← r; if clears o m e op then None else Some e
  end.

Definition register (o : Options) (ops : list IndexOp) (m : string) (p : list N) : option (ReplicaKey * Z) :=
  foldl (next_register o m p) None ops.

Lemma keep_register (r : option (ReplicaKey * Z)) : (r ≫= λ e, Some e) = r.
Proof. by destruct r. Qed.

Lemma run_index_registers ttl half ops :
  index_valid (run_index ttl half ops) ∧ tree_options (run_index ttl half ops) = MkOptions ttl half 0 ∧
  ∀ m p, learned m (run_index ttl half ops) !! p = register (MkOptions ttl half 0) ops m p.
Proof.
  induction ops as [|op ops (IH1 & IH2 & IH3)] using rev_ind.
  { split_and!; [by intros m t Ht|done|]. intros m p. unfold learned. simpl. by rewrite !lookup_empty. }
  unfold run_index, register in *. setoid_rewrite foldl_app. simpl.
  set (ix := foldl exec_index (NewIndex ttl half) ops) in *. set (o := MkOptions ttl half 0) in *.
  destruct op as [m c ks now|m c k now|m k|m n|now]; simpl.
  - destruct (Decide_index m c ks now ix IH1) as (H1 & H2 & H3). split_and!; [done|congruence|].
    intros m' p. rewrite H3, <- IH3. unfold next_register. simpl. by rewrite keep_register.
  - destruct (Observe_index m c k now ix IH1) as (H1 & H2 & H3). split_and!; [done|congruence|].
    intros m' p. rewrite H3, <- IH3. unfold next_register. simpl.
    destruct (decide (m' = m)) as [->|Hm].
    2:{ rewrite !(bool_decide_eq_false_2 (m' = m)) by done. simpl. by rewrite keep_register. }
    rewrite !(bool_decide_eq_true_2 (m = m)) by done. simpl.
    destruct (String.eqb (NodeID k) ""); simpl; [rewrite orb_true_r; simpl; by rewrite keep_register|].
    rewrite orb_false_r. destruct (decide (c = [])) as [->|Hc].
    + rewrite (bool_decide_eq_true_2 ([] = [])) by done. simpl. rewrite bool_decide_eq_false_2, keep_register; [done|].
      intros [Hne Hp%prefix_nil_inv]. done.
    + rewrite (bool_decide_eq_false_2 (c = [])) by done. simpl. rewrite lookup_put.
      destruct (decide (on_key c p)) as [Hk|Hk].
      * by rewrite bool_decide_eq_true_2.
      * rewrite bool_decide_eq_false_2 by done. by rewrite keep_register.
  - destruct (remove_index m (λ k', bool_decide (k' = k)) ix IH1) as (H1 & H2 & H3).
    split_and!; [done|unfold index_Invalidate; congruence|]. intros m' p. unfold index_Invalidate.
    rewrite H3, <- IH3. unfold next_register. simpl. case_bool_decide as Hm; simpl; [subst m'|by rewrite keep_register].
    rewrite map_lookup_filter. destruct (learned m ix !! p) as [[k' t]|]; simpl; [|done]. by destruct (bool_decide (k' = k)).
  - destruct (remove_index m (λ k, String.eqb k.(NodeID) n) ix IH1) as (H1 & H2 & H3).
    split_and!; [done|unfold index_InvalidateNode; congruence|]. intros m' p. unfold index_InvalidateNode.
    rewrite H3, <- IH3. unfold next_register. simpl. case_bool_decide as Hm; simpl; [subst m'|by rewrite keep_register].
    rewrite map_lookup_filter. destruct (learned m ix !! p) as [[k' t]|]; simpl; [|done]. by destruct (String.eqb (NodeID k') n).
  - destruct (Evict_index now ix IH1) as (H1 & H2 & H3). split_and!; [done|congruence|].
    intros m p. rewrite H3, map_lookup_filter, <- IH3, IH2. unfold next_register. simpl.
    destruct (learned m ix !! p) as [[k' t]|]; simpl; [|done]. by destruct (expired o t now).
Qed.

(** The reference decision: the deepest prefix of [c] of length at most [d]
    whose register holds a live entry. *)
Fixpoint nearest (o : Options) (now : Z) (reg : list N → option (ReplicaKey * Z)) (c : list N) (d : nat) :
    option (ReplicaKey * nat) :=
  match d with
  | O => None
  | S d' =>
      match reg (take d c) with
      | Some e => if expired o e.2 now then nearest o now reg c d' else Some (e.1, d)
      | None => nearest o now reg c d'
      end
  end.

Lemma nearest_deepest o now m reg (c : list N) d :
  (∀ p, m !! p = reg p) → nearest o now reg c d = deepest o now c m d.
Proof.
  intros Hreg. induction d as [|d IH]; [done|]. cbn [nearest deepest]. unfold live_at.
  rewrite Hreg, IH. destruct (reg (take (S d) c)) as [e|]; simpl; [|done]. by destruct (expired o e.2 now).
Qed.

Lemma run_decides ttl half ops m c ks now :
  let o := MkOptions ttl half 0 in
  let d := (Decide m c ks now (run_index ttl half ops)).1 in
  d.(ColdOrder) ≡ₚ ks ∧
  match nearest o now (register o ops m) c (length c) with
  | Some (k, depth) =>
      if decide (k ∈ ks)
      then d.(HasHot) = true ∧ d.(Hot) = k ∧ d.(MatchRatio) = match_ratio depth (length c)
      else d.(HasHot) = false
  | None => d.(HasHot) = false
  end.
Proof.
  intros o d. destruct (run_index_registers ttl half ops) as (H1 & H2 & H3). split; [apply Decide_cold|].
  pose proof (Decide_index_eq m c ks now _ H1) as Hd. simpl in Hd. rewrite H2 in Hd.
  subst o. rewrite (nearest_deepest _ now _ _ c (length c) (H3 m)). exact Hd.
Qed.

Lemma register_history o ops m p e :
  register o ops m p = Some e →
  ∃ pre op post, ops = pre ++ op :: post ∧ writes m p op = Some e ∧
    Forall (λ op, writes m p op = None ∧ clears o m e op = false) post.
Proof.
  unfold register. induction ops as [|op ops IH] using rev_ind; [done|].
  rewrite foldl_app. cbn [foldl]. unfold next_register at 1. destruct (writes m p op) as [e'|] eqn:Hw.
  - intros [= ->]. exists ops, op, []. done.
  - destruct (foldl (next_register o m p) None ops) as [e'|]; simpl; [|done].
    destruct (clears o m e' op) eqn:Hc; [done|]. intros [= ->].
    destruct (IH eq_refl) as (pre & op' & post & -> & Hw' & Hpost). exists pre, op', (post ++ [op]).
    split_and!; [by rewrite <- app_assoc|done|]. apply Forall_app. split; [done|]. by constructor.
Qed.

Lemma register_kept o post m p r e :
  r = Some e → Forall (λ op, writes m p op = None ∧ clears o m e op = false) post →
  foldl (next_register o m p) r post = Some e.
Proof.
  intros ->. induction post as [|op post IH]; intros Hp; [done|]. apply Forall_cons in Hp as [[Hw Hc] Hp].
  cbn [foldl]. unfold next_register at 2. rewrite Hw. simpl. rewrite Hc. by apply IH.
Qed.

Lemma nearest_Some o now reg (c : list N) d k depth :
  nearest o now reg c d = Some (k, depth) →
  1 ≤ depth ≤ d ∧ ∃ t, reg (take depth c) = Some (k, t) ∧ expired o t now = false.
Proof.
  induction d as [|d IH]; [done|]. cbn [nearest]. intros H.
  destruct (reg (take (S d) c)) as [[k' t]|] eqn:Hr; [destruct (expired o t now) eqn:Ht|].
  - simpl in H. rewrite Ht in H. apply IH in H as [??]. split; [lia|done].
  - simpl in H. rewrite Ht in H. simplify_eq. split; [lia|]. eauto.
  - apply IH in H as [??]. split; [lia|done].
Qed.

(** C18. The decision of the guessed index is the reference: each prefix of a
    model's prompts is a register holding the last replica observed there,
    emptied when that replica or its node is invalidated and when it is swept
    after its lifetime; the hot replica is the one in the deepest live register
    along the chain, if it is a candidate, with the matched share of the chain;
    and the cold order lists exactly the candidates. *)
Theorem index_decides ttl half ops m c ks now :
  let o := MkOptions ttl half 0 in
  let d := (Decide m c ks now (run_index ttl half ops)).1 in
  d.(ColdOrder) ≡ₚ ks ∧
  match nearest o now (register o ops m) c (length c) with
  | Some (k, depth) =>
      if decide (k ∈ ks)
      then d.(HasHot) = true ∧ d.(Hot) = k ∧ d.(MatchRatio) = match_ratio depth (length c)
      else d.(HasHot) = false
  | None => d.(HasHot) = false
  end.
Proof. apply run_decides. Qed.

(** C19. A hot replica has earned it: it is a candidate and served a prompt of
    the same model that starts with the matched prefix, within the lifetime of
    entries; and since then neither it nor its node was invalidated and no
    other replica served that prefix. *)
Theorem index_hot_history ttl half ops m c ks now :
  let o := MkOptions ttl half 0 in
  let d := (Decide m c ks now (run_index ttl half ops)).1 in
  d.(HasHot) = true →
  ∃ pre c' t post depth, ops = pre ++ IxObserve m c' d.(Hot) t :: post ∧
    1 ≤ depth ≤ length c ∧ on_key c' (take depth c) ∧ expired o t now = false ∧
    d.(Hot) ∈ ks ∧ d.(MatchRatio) = match_ratio depth (length c) ∧
    Forall (λ op, writes m (take depth c) op = None ∧ clears o m (d.(Hot), t) op = false) post.
Proof.
  intros o d Hhot. destruct (run_decides ttl half ops m c ks now) as [_ H]. fold o d in H.
  destruct (nearest o now (register o ops m) c (length c)) as [[k depth]|] eqn:Hn; [|congruence].
  case_decide as Hk; [|congruence]. destruct H as (_ & Hh & Hr).
  apply nearest_Some in Hn as (Hd & t & Hreg & Ht). rewrite Hh.
  apply register_history in Hreg as (pre & op & post & -> & Hw & Hpost).
  destruct op as [|m' c' k' t'| | |]; simpl in Hw; try done.
  destruct (bool_decide (m = m') && negb (String.eqb (NodeID k') "") && bool_decide (on_key c' (take depth c))) eqn:Hb; [|done].
  bool_hyps. simplify_eq. exists pre, c', t, post, depth. split_and!; (congruence || done || lia).
Qed.

(** Affinity: once a replica served a prompt, the same prompt finds it hot,
    with a full match, as long as it is a candidate, the entry lives, and
    meanwhile no other replica served a prompt that starts with this one and
    it was not invalidated. *)
Theorem index_affinity ttl half pre post m c k t ks now :
  let o := MkOptions ttl half 0 in
  c ≠ [] → k.(NodeID) ≠ "" → k ∈ ks → expired o t now = false →
  Forall (λ op, writes m c op = None ∧ clears o m (k, t) op = false) post →
  let d := (Decide m c ks now (run_index ttl half (pre ++ IxObserve m c k t :: post))).1 in
  d.(HasHot) = true ∧ d.(Hot) = k ∧ d.(MatchRatio) = match_ratio (length c) (length c).
Proof.
  intros o Hc Hn Hk Ht Hpost d.
  destruct (run_decides ttl half (pre ++ IxObserve m c k t :: post) m c ks now) as [_ H]. fold o d in H.
  assert (Hreg : register o (pre ++ IxObserve m c k t :: post) m c = Some (k, t)).
  { unfold register. rewrite foldl_app. cbn [foldl]. apply register_kept; [|done].
    unfold next_register at 1. simpl. rewrite !bool_decide_eq_true_2; [|by split|done].
    by rewrite (proj2 (String.eqb_neq _ _) Hn). }
  destruct c as [|x c]; [done|]. cbn [nearest length] in H. change (S (length c)) with (length (x :: c)) in H.
  rewrite firstn_all, Hreg in H. simpl in H. rewrite Ht in H. rewrite decide_True in H by done. done.
Qed.

End Index.

(** ** The reported index *)

Record ReportedIndex := MkReported { residencies : gmap string (gmap ReplicaKey (list (list N))) }.

Definition NewReportedIndex : ReportedIndex := MkReported ∅.

Inductive ResidencyOperation := PrefixCacheStore | PrefixCacheRemove | PrefixCacheClear | OtherOperation (s : string).

Record ResidencyEvent := MkResidencyEvent {
  re_Operation : ResidencyOperation;
  re_Model : string;
  re_NodeID : string;
  re_Replica : Z;
  re_Chain : list N;
}.

Definition equalChain (a b : list N) : bool :=
  (length a =? length b)%nat && forallb (λ '(x, y), (x =? y)%N) (zip a b).

Fixpoint commonDepth (a b : list N) : nat :=
  match a, b with
  | x :: a, y :: b => if (x =? y)%N then S (commonDepth a b) else 0
  | _, _ => 0
  end.

(** The chains without the first one equal to [c]. *)
Fixpoint remove_chain (c : list N) (chains : list (list N)) : list (list N) :=
  match chains with
  | [] => []
  | chain :: rest => if equalChain chain c then rest else chain :: remove_chain c rest
  end.

Definition set_replicas (m : string) (by_ : gmap ReplicaKey (list (list N))) (ix : ReportedIndex) : ReportedIndex :=
  MkReported (<[m := by_]> ix.(residencies)).

Definition Apply (ev : ResidencyEvent) (ix : ReportedIndex) : ReportedIndex :=
  let key := MkReplicaKey ev.(re_NodeID) ev.(re_Replica) in
  let m := ev.(re_Model) in
  let c := ev.(re_Chain) in
  if String.eqb m "" || String.eqb key.(NodeID) "" then ix else
  match ev.(re_Operation) with
  | PrefixCacheStore =>
      if bool_decide (c = []) then ix else
      let by_ := default ∅ (ix.(residencies) !! m) in
      let chains := default [] (by_ !! key) in
      if existsb (λ chain, equalChain chain c) chains then set_replicas m by_ ix
      else set_replicas m (<[key := chains ++ [c]]> by_) ix
  | PrefixCacheRemove =>
      match ix.(residencies) !! m with
      | None => ix
      | Some by_ =>
          if bool_decide (c = []) then ix else
          let chains := remove_chain c (default [] (by_ !! key)) in
          set_replicas m (if bool_decide (chains = []) then delete key by_ else <[key := chains]> by_) ix
      end
  | PrefixCacheClear =>
      match ix.(residencies) !! m with
      | None => ix
      | Some by_ => set_replicas m (delete key by_) ix
      end
  | OtherOperation _ => ix
  end.

(** The chains reported for a replica. *)
Definition reported (m : string) (k : ReplicaKey) (ix : ReportedIndex) : list (list N) :=
  default [] (by_ ← ix.(residencies) !! m; by_ !! k).

(** One step of the search: [best] is the hot replica so far and its depth. *)
Definition deeper (c : list N) (k : ReplicaKey) (best : option ReplicaKey * nat) (chain : list N) :
    option ReplicaKey * nat :=
  let depth := commonDepth c chain in
  if (best.2 <? depth)%nat then (Some k, depth) else best.

Definition reported_Decide (m : string) (c : list N) (ks : list ReplicaKey) (now : Z) (ix : ReportedIndex) :
    PrefixDecision * ReportedIndex :=
  let order := merge_sort key_le ks in
  let none := MkDecision zero_key false (float64 0) order in
  if bool_decide (c = []) then (none, ix) else
  let '(hot, depth) := foldl (λ best k, foldl (deeper c k) best (reported m k ix)) (None, 0) order in
  (match hot with
   | Some k => MkDecision k true (match_ratio depth (length c)) order
   | None => none
   end, ix).

Definition reported_Invalidate (m : string) (k : ReplicaKey) : ReportedIndex → ReportedIndex :=
  Apply (MkResidencyEvent PrefixCacheClear m k.(NodeID) k.(Replica) []).

Definition reported_InvalidateNode (m n : string) (ix : ReportedIndex) : ReportedIndex :=
  match ix.(residencies) !! m with
  | None => ix
  | Some by_ => set_replicas m (filter (λ '(k, _), String.eqb k.(NodeID) n = false) by_) ix
  end.

#[export] Instance reported_provider : Provider ReportedIndex := {|
  Decide := reported_Decide;
  Observe := λ _ _ _ _ ix, (false, ix);
  Invalidate := reported_Invalidate;
  InvalidateNode := reported_InvalidateNode;
  Evict := λ _ ix, ix;
|}.

Lemma equalChain_spec a b : equalChain a b = true ↔ a = b.
Proof.
  unfold equalChain. revert b. induction a as [|x a IH]; intros [|y b]; simpl; try done.
  rewrite andb_assoc, (andb_comm _ (x =? y)%N), <- andb_assoc, andb_true_iff, IH, N.eqb_eq.
  split; [by intros [-> ->]|by intros [= -> ->]].
Qed.

Lemma foldl_nested {A B C} (f : A → B → C → B) (g : A → list C) (l : list A) (b : B) :
  foldl (λ b a, foldl (f a) b (g a)) b l =
  foldl (λ b ac, f ac.1 b ac.2) b (concat (map (λ a, map (pair a) (g a)) l)).
Proof.
  revert b. induction l as [|a l IH]; intros b; [done|]. simpl. rewrite foldl_app, IH. f_equal.
  generalize b. induction (g a) as [|c l' IH']; intros b'; [done|]. simpl. apply IH'.
Qed.

(** What the search has found in the chains seen so far. *)
Definition found (c : list N) (seen : list (ReplicaKey * list N)) (best : option ReplicaKey * nat) : Prop :=
  match best with
  | (None, depth) => depth = 0 ∧ ∀ k r, (k, r) ∈ seen → commonDepth c r = 0
  | (Some k, depth) => 0 < depth ∧ (∃ r, (k, r) ∈ seen ∧ commonDepth c r = depth) ∧
      ∀ k' r, (k', r) ∈ seen → commonDepth c r ≤ depth ∧ (commonDepth c r = depth → key_le k k')
  end.

Lemma search_found c (l : list (ReplicaKey * list N)) :
  StronglySorted (λ a b, key_le a.1 b.1) l → found c l (foldl (λ b kr, deeper c kr.1 b kr.2) (None, 0) l).
Proof.
  induction l as [|[k r] l IH] using rev_ind; intros Hs; [split; [done|]; intros ?? H; by apply not_elem_of_nil in H|].
  rewrite foldl_app. simpl.
  assert (Hpre : StronglySorted (λ a b : ReplicaKey * list N, key_le a.1 b.1) l ∧ ∀ x, x ∈ l → key_le x.1 k).
  { clear IH. induction l as [|y l IHl]; [split; [constructor|]; intros ? H; by apply not_elem_of_nil in H|].
    simpl in Hs. apply StronglySorted_inv in Hs as [Hs Hy]. destruct (IHl Hs) as [H1 H2].
    apply Forall_app in Hy as [Hy1 Hy2]. split; [by constructor|]. intros x [->|Hx]%elem_of_cons; [|by apply H2].
    exact (proj1 (Forall_singleton _ _) Hy2). }
  destruct Hpre as [Hs' Hle]. specialize (IH Hs').
  destruct (foldl (λ b kr, deeper c kr.1 b kr.2) (None, 0) l) as [[k0|] depth]; unfold deeper; simpl in *.
  - destruct IH as (Hd & (r0 & Hr0 & Hc0) & Hmax). destruct (depth <? commonDepth c r) eqn:Hlt.
    + apply Nat.ltb_lt in Hlt. split_and!; [lia|exists r; split; [|done]; apply elem_of_app; right; by apply list_elem_of_singleton|].
      intros k' r' [Hin|[= -> ->]%list_elem_of_singleton]%elem_of_app; [|split; [lia|]; intros _; apply less_irrefl].
      destruct (Hmax k' r' Hin). split; lia.
    + apply Nat.ltb_ge in Hlt. split_and!; [done|exists r0; split; [|done]; apply elem_of_app; by left|].
      intros k' r' [Hin|[= -> ->]%list_elem_of_singleton]%elem_of_app; [by apply Hmax|]. split; [done|]. intros _.
      apply (Hle (k0, r0) Hr0).
  - destruct IH as [-> Hz]. destruct (0 <? commonDepth c r) eqn:Hlt.
    + apply Nat.ltb_lt in Hlt. split_and!; [done|exists r; split; [|done]; apply elem_of_app; right; by apply list_elem_of_singleton|].
      intros k' r' [Hin|[= -> ->]%list_elem_of_singleton]%elem_of_app; [|split; [lia|]; intros _; apply less_irrefl].
      rewrite (Hz k' r' Hin). split; lia.
    + apply Nat.ltb_ge in Hlt. split; [done|].
      intros k' r' [Hin|[= -> ->]%list_elem_of_singleton]%elem_of_app; [by eapply Hz|lia].
Qed.

Lemma commonDepth_spec a b n :
  n ≤ commonDepth a b ↔ n ≤ length a ∧ n ≤ length b ∧ take n a = take n b.
Proof.
  revert b n. induction a as [|x a IH]; intros [|y b] [|n]; simpl; try (split; [intros; split_and!; (done || lia)|lia]).
  destruct (N.eqb_spec x y) as [->|Hne].
  - rewrite <- Nat.succ_le_mono, IH, <- !Nat.succ_le_mono. split; [by intros (? & ? & ->)|by intros (? & ? & [= ->])].
  - split; [lia|]. by intros (_ & _ & [= ? _]).
Qed.

(** The pairs the search goes through, in its order. *)
Definition pairs (m : string) (order : list ReplicaKey) (ix : ReportedIndex) : list (ReplicaKey * list N) :=
  concat (map (λ k, map (pair k) (reported m k ix)) order).

Lemma elem_of_pairs m order ix k r : (k, r) ∈ pairs m order ix ↔ k ∈ order ∧ r ∈ reported m k ix.
Proof.
  unfold pairs. rewrite !list_elem_of_In, in_concat. split.
  - intros (l & Hl & Hin). apply in_map_iff in Hl as (k' & <- & Hk). by apply in_map_iff in Hin as (r' & [= -> ->] & ?).
  - intros [Hk Hr]. exists (map (pair k) (reported m k ix)). split; apply in_map_iff; eauto.
Qed.

Lemma pairs_sorted m order ix :
  StronglySorted key_le order → StronglySorted (λ a b, key_le a.1 b.1) (pairs m order ix).
Proof.
  induction order as [|k order IH]; intros Hs; [constructor|]. apply StronglySorted_inv in Hs as [Hs Hk].
  specialize (IH Hs). unfold pairs. simpl. fold (pairs m order ix).
  assert (Hrest : Forall (λ b : ReplicaKey * list N, key_le k b.1) (pairs m order ix)).
  { apply Forall_forall. intros [k' r'] [Hin _]%elem_of_pairs. simpl.
    rewrite Forall_forall in Hk. by apply Hk. }
  induction (reported m k ix) as [|r l IHl]; [done|]. simpl. constructor; [done|].
  apply Forall_app. split; [|done]. apply Forall_forall. intros [k' r'] Hin.
  apply list_elem_of_In, in_map_iff in Hin as (? & [= <- <-] & _). apply less_irrefl.
Qed.

Lemma reported_Decide_found m c ks now ix :
  let d := (reported_Decide m c ks now ix).1 in
  d.(ColdOrder) = merge_sort key_le ks ∧
  if d.(HasHot)
  then ∃ depth, d.(MatchRatio) = match_ratio depth (length c) ∧ found c (pairs m d.(ColdOrder) ix) (Some d.(Hot), depth)
  else found c (pairs m d.(ColdOrder) ix) (None, 0).
Proof.
  unfold reported_Decide. case_bool_decide as Hc; simpl; [by subst c|].
  assert (Hf : found c (pairs m (merge_sort key_le ks) ix)
    (foldl (λ best k, foldl (deeper c k) best (reported m k ix)) (None, 0) (merge_sort key_le ks))).
  { rewrite foldl_nested. apply search_found, pairs_sorted, StronglySorted_merge_sort; apply _. }
  destruct (foldl _ (None, 0) (merge_sort key_le ks)) as [[k|] depth]; simpl; [eauto|].
  split; [done|]. destruct Hf as [-> Hf]. by split.
Qed.

(** *** What is resident *)

(** Every model's replicas hold each chain once. *)
Definition reported_valid (ix : ReportedIndex) : Prop := ∀ m k, NoDup (reported m k ix).

Lemma reported_set m by_ ix m' k :
  reported m' k (set_replicas m by_ ix) = if decide (m' = m) then default [] (by_ !! k) else reported m' k ix.
Proof.
  unfold reported. simpl. case_decide as Hm; [subst; by rewrite lookup_insert_eq|by rewrite lookup_insert_ne].
Qed.

Lemma reported_default m k ix : reported m k ix = default [] (default ∅ (ix.(residencies) !! m) !! k).
Proof. unfold reported. destruct (residencies ix !! m); [done|]. simpl. by rewrite lookup_empty. Qed.

Lemma remove_chain_spec c l : NoDup l → NoDup (remove_chain c l) ∧ ∀ r, r ∈ remove_chain c l ↔ r ∈ l ∧ r ≠ c.
Proof.
  induction l as [|x l IH]; intros Hnd; simpl.
  { split; [constructor|]. intros r. split; [by intros ?%not_elem_of_nil|by intros [?%not_elem_of_nil _]]. }
  apply NoDup_cons in Hnd as [Hx Hnd]. destruct (IH Hnd) as [H1 H2]. destruct (equalChain x c) eqn:He.
  - apply equalChain_spec in He as ->. split; [done|]. intros r. rewrite elem_of_cons. split.
    + intros Hr. split; [by right|]. by intros ->.
    + by intros [[->|?] ?].
  - assert (x ≠ c) by (intros ->; by rewrite (proj2 (equalChain_spec c c)) in He). split.
    + apply NoDup_cons. split; [|done]. by rewrite H2; intros [].
    + intros r. rewrite !elem_of_cons, H2. split; [by intros [->|[? ?]]; auto|intros [[->|?] ?]; auto].
Qed.

Inductive ReportedOp :=
| RxApply (ev : ResidencyEvent)
| RxInvalidateNode (m n : string).

Definition exec_reported (ix : ReportedIndex) (op : ReportedOp) : ReportedIndex :=
  match op with
  | RxApply ev => Apply ev ix
  | RxInvalidateNode m n => reported_InvalidateNode m n ix
  end.

(** The event is about replica [k] of model [m]; the code drops events without
    a model or a node. *)
Definition about (m : string) (k : ReplicaKey) (ev : ResidencyEvent) : bool :=
  bool_decide (ev.(re_Model) = m) && bool_decide (MkReplicaKey ev.(re_NodeID) ev.(re_Replica) = k) &&
  negb (String.eqb m "") && negb (String.eqb k.(NodeID) "").

(** The reference: whether replica [k] holds chain [c], one bit per triple. *)
Definition next_resident (m : string) (k : ReplicaKey) (c : list N) (b : bool) (op : ReportedOp) : bool :=
  match op with
  | RxApply ev =>
      if about m k ev then
        match ev.(re_Operation) with
        | PrefixCacheStore => b || (bool_decide (ev.(re_Chain) = c) && negb (bool_decide (c = [])))
        | PrefixCacheRemove => b && negb (bool_decide (ev.(re_Chain) = c) && negb (bool_decide (c = [])))
        | PrefixCacheClear => false
        | OtherOperation _ => b
        end
      else b
  | RxInvalidateNode m' n => b && negb (bool_decide (m' = m) && String.eqb k.(NodeID) n)
  end.

Definition resident (ops : list ReportedOp) (m : string) (k : ReplicaKey) (c : list N) : bool :=
  foldl (next_resident m k c) false ops.

Lemma about_other m k ev :
  about m k ev = false → String.eqb ev.(re_Model) "" || String.eqb ev.(re_NodeID) "" = false →
  ¬ (m = ev.(re_Model) ∧ k = MkReplicaKey ev.(re_NodeID) ev.(re_Replica)).
Proof.
  unfold about. intros Ha He [-> ->]. apply orb_false_iff in He as [H1 H2]. simpl in Ha.
  rewrite !bool_decide_eq_true_2, H1, H2 in Ha by done. done.
Qed.

Lemma about_this m k ev :
  about m k ev = true →
  m = ev.(re_Model) ∧ k = MkReplicaKey ev.(re_NodeID) ev.(re_Replica) ∧
  String.eqb ev.(re_Model) "" || String.eqb ev.(re_NodeID) "" = false.
Proof.
  unfold about. intros Ha. bool_hyps. split_and!; [done|done|]. apply orb_false_iff. simpl in *.
  split; by apply String.eqb_neq.
Qed.

(** A write to the chains of one replica, seen from any replica. *)
Lemma reported_insert m key l by_ ix m' k :
  reported m' k (set_replicas m (<[key := l]> by_) ix) =
    if decide (m' = m ∧ k = key) then l
    else if decide (m' = m) then default [] (by_ !! k) else reported m' k ix.
Proof.
  rewrite reported_set. destruct (decide (m' = m)) as [->|Hm]; [|rewrite decide_False by (by intros []); done].
  destruct (decide (k = key)) as [->|Hk].
  - by rewrite lookup_insert_eq, decide_True.
  - rewrite lookup_insert_ne by done. by rewrite decide_False by (by intros []).
Qed.

Lemma reported_delete m key by_ ix m' k :
  reported m' k (set_replicas m (delete key by_) ix) =
    if decide (m' = m ∧ k = key) then []
    else if decide (m' = m) then default [] (by_ !! k) else reported m' k ix.
Proof.
  rewrite reported_set. destruct (decide (m' = m)) as [->|Hm]; [|rewrite decide_False by (by intros []); done].
  destruct (decide (k = key)) as [->|Hk].
  - by rewrite lookup_delete_eq, decide_True.
  - rewrite lookup_delete_ne by done. by rewrite decide_False by (by intros []).
Qed.

(** The chains of replica [key] after [Apply]. *)
Definition chains_after (ev : ResidencyEvent) (chains : list (list N)) : list (list N) :=
  let c := ev.(re_Chain) in
  match ev.(re_Operation) with
  | PrefixCacheStore =>
      if bool_decide (c = []) || existsb (λ chain, equalChain chain c) chains then chains else chains ++ [c]
  | PrefixCacheRemove => if bool_decide (c = []) then chains else remove_chain c chains
  | PrefixCacheClear => []
  | OtherOperation _ => chains
  end.

Lemma reported_Apply ev ix m k :
  reported m k (Apply ev ix) = if about m k ev then chains_after ev (reported m k ix) else reported m k ix.
Proof.
  unfold Apply. simpl. destruct (String.eqb (re_Model ev) "" || String.eqb (re_NodeID ev) "") eqn:He.
  { destruct (about m k ev) eqn:Ha; [|done]. apply about_this in Ha as (_ & _ & ?). congruence. }
  set (key := MkReplicaKey (re_NodeID ev) (re_Replica ev)).
  assert (Hkey : about m k ev = bool_decide (m = re_Model ev ∧ k = key)).
  { destruct (about m k ev) eqn:Ha; symmetry.
    - apply about_this in Ha as (-> & -> & _). by apply bool_decide_eq_true_2.
    - apply bool_decide_eq_false_2. by apply about_other. }
  rewrite Hkey. unfold chains_after. clear Hkey.
  assert (Hdef : ∀ m k, default [] (default ∅ (residencies ix !! m) !! k) = reported m k ix)
    by (intros; by rewrite <- reported_default).
  assert (Hsome : ∀ by_, residencies ix !! re_Model ev = Some by_ → ∀ k, default [] (by_ !! k) = reported (re_Model ev) k ix).
  { intros by_ Hby k'. unfold reported. by rewrite Hby. }
  assert (Hnone : residencies ix !! re_Model ev = None → reported (re_Model ev) key ix = []).
  { intros Hby. unfold reported. by rewrite Hby. }
  assert (Hsel : ∀ l, (if decide (m = re_Model ev ∧ k = key) then l
      else if decide (m = re_Model ev) then reported (re_Model ev) k ix else reported m k ix) =
      if bool_decide (m = re_Model ev ∧ k = key) then l else reported m k ix).
  { intros l. destruct (decide (m = re_Model ev ∧ k = key)) as [H|H].
    - by rewrite bool_decide_eq_true_2.
    - rewrite bool_decide_eq_false_2 by done. by destruct (decide (m = re_Model ev)) as [->|]. }
  assert (Hskip : (if bool_decide (m = re_Model ev ∧ k = key) then reported m k ix else reported m k ix) = reported m k ix)
    by (by destruct (bool_decide _)).
  assert (Hat : ∀ f : list (list N) → list (list N),
    (if bool_decide (m = re_Model ev ∧ k = key) then f (reported m k ix) else reported m k ix) =
    (if bool_decide (m = re_Model ev ∧ k = key) then f (reported (re_Model ev) key ix) else reported m k ix)).
  { intros f. case_bool_decide as H; [|done]. by destruct H as [-> ->]. }
  destruct (re_Operation ev).
  - destruct (bool_decide (re_Chain ev = [])); simpl; [by rewrite Hskip|]. rewrite Hdef. rewrite (Hat (λ l, if existsb _ l then l else l ++ _)).
    destruct (existsb _ (reported (re_Model ev) key ix)).
    + rewrite reported_set, Hdef. case_bool_decide as H; [destruct H as [-> ->]; by rewrite decide_True|].
      by destruct (decide (m = re_Model ev)) as [->|].
    + by rewrite reported_insert, Hdef, Hsel.
  - destruct (residencies ix !! re_Model ev) as [by_|] eqn:Hby.
    + destruct (bool_decide (re_Chain ev = [])); simpl; [by rewrite Hskip|]. rewrite (Hsome _ eq_refl), (Hat (remove_chain _)).
      destruct (bool_decide (remove_chain _ _ = [])) eqn:Hr; [apply bool_decide_eq_true in Hr|].
      * by rewrite reported_delete, (Hsome _ eq_refl), Hr, Hsel.
      * by rewrite reported_insert, (Hsome _ eq_refl), Hsel.
    + destruct (bool_decide (re_Chain ev = [])); [by rewrite Hskip|]. rewrite (Hat (remove_chain _)), Hnone by done. simpl.
      case_bool_decide as H; [|done]. destruct H as [-> ->]. by apply Hnone.
  - destruct (residencies ix !! re_Model ev) as [by_|] eqn:Hby.
    + by rewrite reported_delete, (Hsome _ eq_refl), Hsel.
    + case_bool_decide as H; [|done]. destruct H as [-> ->]. by apply Hnone.
  - done.
Qed.

(** Chains are stored once, and never empty. *)
Definition chains_ok (l : list (list N)) : Prop := NoDup l ∧ [] ∉ l.

Lemma chains_after_ok ev l : chains_ok l → chains_ok (chains_after ev l).
Proof.
  intros [Hnd Hne]. unfold chains_after. destruct (re_Operation ev).
  - destruct (bool_decide (re_Chain ev = [])) eqn:Hc; simpl; [done|]. apply bool_decide_eq_false in Hc.
    destruct (existsb _ l) eqn:Hex; [done|].
    assert (re_Chain ev ∉ l) as Hnew.
    { intros Hin. apply not_true_iff_false in Hex. apply Hex, existsb_exists. exists (re_Chain ev).
      split; [by apply list_elem_of_In|by apply equalChain_spec]. }
    split.
    + apply NoDup_app. split_and!; [done| |apply NoDup_singleton]. by intros x Hx ->%list_elem_of_singleton.
    + intros [?|Hin%list_elem_of_singleton]%elem_of_app; [done|congruence].
  - destruct (bool_decide (re_Chain ev = [])); [done|]. destruct (remove_chain_spec (re_Chain ev) l Hnd) as [H1 H2].
    split; [done|]. rewrite H2. by intros [].
  - split; [constructor|apply not_elem_of_nil].
  - done.
Qed.

Lemma elem_of_chains_after ev l c :
  chains_ok l →
  c ∈ chains_after ev l ↔
    match ev.(re_Operation) with
    | PrefixCacheStore => c ∈ l ∨ (ev.(re_Chain) = c ∧ c ≠ [])
    | PrefixCacheRemove => c ∈ l ∧ ¬ (ev.(re_Chain) = c ∧ c ≠ [])
    | PrefixCacheClear => False
    | OtherOperation _ => c ∈ l
    end.
Proof.
  intros [Hnd Hne]. unfold chains_after. destruct (re_Operation ev).
  - destruct (decide (re_Chain ev = [])) as [Hc|Hc].
    + rewrite bool_decide_eq_true_2 by done. simpl. split; [auto|]. intros [?|[<- ?]]; done.
    + rewrite bool_decide_eq_false_2 by done. simpl. destruct (existsb _ l) eqn:Hex.
      * split; [auto|]. intros [?|[<- _]]; [done|]. apply existsb_exists in Hex as (x & Hx & Heq).
        apply equalChain_spec in Heq as ->. by apply list_elem_of_In.
      * rewrite elem_of_app, list_elem_of_singleton. split; [intros [?| ->]; auto|intros [?|[<- _]]; auto].
  - destruct (decide (re_Chain ev = [])) as [Hc|Hc].
    + rewrite bool_decide_eq_true_2 by done. split; [intros Hin; split; [done|]; by intros [<- ?]|by intros [] ].
    + rewrite bool_decide_eq_false_2 by done. rewrite (proj2 (remove_chain_spec _ l Hnd)). split.
      * intros [? Hx]. split; [done|]. intros [<- _]. done.
      * intros [? Hx]. split; [done|]. intros ->. by apply Hx.
  - by split; [intros ?%not_elem_of_nil|].
  - done.
Qed.

Lemma reported_Node m n ix m' k :
  reported m' k (reported_InvalidateNode m n ix) =
    if bool_decide (m = m') && String.eqb k.(NodeID) n then [] else reported m' k ix.
Proof.
  unfold reported_InvalidateNode. destruct (residencies ix !! m) as [by_|] eqn:Hby.
  - rewrite reported_set. destruct (decide (m' = m)) as [->|Hm].
    + rewrite bool_decide_eq_true_2 by done. simpl. rewrite map_lookup_filter. unfold reported. rewrite Hby. simpl.
      destruct (by_ !! k) as [l|]; simpl; [|by destruct (String.eqb _ n)]. by destruct (String.eqb (NodeID k) n).
    + by rewrite bool_decide_eq_false_2 by (intros ->; done).
  - case_bool_decide as Hm; [|done]. subst m'. unfold reported. rewrite Hby. simpl. by destruct (String.eqb _ n).
Qed.

Lemma run_reported ops ix :
  (∀ m k, chains_ok (reported m k ix)) →
  (∀ m k, chains_ok (reported m k (foldl exec_reported ix ops))) ∧
  ∀ m k c, c ∈ reported m k (foldl exec_reported ix ops) ↔
    foldl (next_resident m k c) (bool_decide (c ∈ reported m k ix)) ops = true.
Proof.
  revert ix. induction ops as [|op ops IH]; intros ix Hix.
  { split; [done|]. intros m k c. simpl. by rewrite bool_decide_eq_true. }
  assert (Hop : ∀ m k, chains_ok (reported m k (exec_reported ix op)) ∧
    ∀ c, bool_decide (c ∈ reported m k (exec_reported ix op)) =
      next_resident m k c (bool_decide (c ∈ reported m k ix)) op).
  { intros m k. destruct op as [ev|m' n]; simpl.
    - rewrite reported_Apply. destruct (about m k ev); [|split; [done|]; done].
      split; [by apply chains_after_ok|]. intros c. apply eq_bool_prop_intro.
      rewrite bool_decide_spec, (elem_of_chains_after ev _ c (Hix m k)).
      destruct (re_Operation ev); rewrite ?orb_True, ?andb_True, ?negb_True, ?andb_True, ?negb_True, ?bool_decide_spec;
        try done.
    - rewrite reported_Node. destruct (bool_decide (m' = m) && String.eqb (NodeID k) n).
      + split; [split; [constructor|apply not_elem_of_nil]|]. intros c. rewrite andb_false_r.
        apply bool_decide_eq_false_2, not_elem_of_nil.
      + split; [done|]. intros c. by rewrite andb_true_r. }
  destruct (IH (exec_reported ix op)) as [H1 H2]; [intros m k; apply Hop|]. split; [done|].
  intros m k c. simpl. rewrite H2. by rewrite (proj2 (Hop m k) c).
Qed.

Lemma run_NewReported ops m k c :
  c ∈ reported m k (foldl exec_reported NewReportedIndex ops) ↔ resident ops m k c = true.
Proof.
  destruct (run_reported ops NewReportedIndex) as [_ H].
  { intros m' k'. split; [constructor|apply not_elem_of_nil]. }
  rewrite H. unfold resident. by rewrite bool_decide_eq_false_2 by apply not_elem_of_nil.
Qed.

Lemma hot_reported m c ks now ix :
  let d := (reported_Decide m c ks now ix).1 in
  d.(HasHot) = true → d.(Hot) ∈ ks ∧ reported m d.(Hot) ix ≠ [].
Proof.
  intros d Hhot. destruct (reported_Decide_found m c ks now ix) as [Hord H]. fold d in Hord, H. rewrite Hhot in H.
  destruct H as (depth & _ & _ & (r & Hr & _) & _). apply elem_of_pairs in Hr as [Hin Hr].
  rewrite Hord, merge_sort_Permutation in Hin. split; [done|]. intros Hn. rewrite Hn in Hr. by apply not_elem_of_nil in Hr.
Qed.

#[export] Program Instance reported_laws : ProviderLaws ReportedIndex := {| valid := λ _, True |}.
Next Obligation. done. Qed.
Next Obligation. done. Qed.
Next Obligation. done. Qed.
Next Obligation. done. Qed.
Next Obligation. done. Qed.
Next Obligation. intros m c ks now ix _ d Hhot. by apply (hot_reported m c ks now ix). Qed.
Next Obligation.
  intros m c ks now ix _. destruct (reported_Decide_found m c ks now ix) as [Hord _]. simpl. rewrite Hord.
  apply merge_sort_Permutation.
Qed.
Next Obligation.
  intros m k c ks now ix _ Hm Hn d Hhot Hk. apply (hot_reported m c ks now) in Hhot as [_ Hr]. apply Hr.
  change (Hot d = k) in Hk. change (reported m (Hot d) (reported_Invalidate m k ix) = []). rewrite Hk.
  unfold reported_Invalidate. rewrite reported_Apply.
  assert (about m k (MkResidencyEvent PrefixCacheClear m (NodeID k) (Replica k) []) = true) as ->; [|done].
  unfold about. simpl. destruct k as [n r]. rewrite !bool_decide_eq_true_2 by done. simpl in *.
  by rewrite (proj2 (String.eqb_neq _ _) Hm), (proj2 (String.eqb_neq _ _) Hn).
Qed.
Next Obligation.
  intros m n c ks now ix _ d Hhot Hk. apply (hot_reported m c ks now) in Hhot as [_ Hr]. apply Hr.
  change (reported m (Hot d) (reported_InvalidateNode m n ix) = []). rewrite reported_Node, bool_decide_eq_true_2 by done. by rewrite (proj2 (String.eqb_eq _ _) Hk).
Qed.

(** The reported index decides on what the backends reported: a chain is
    resident in a replica when the last event about it says so (clears and
    node invalidations included); the hot replica is the candidate whose
    resident chains share the longest prefix with the prompt, the least key
    among equals, with that share as its match, and there is none exactly when
    no candidate shares a first block; the cold order lists the candidates in
    key order. *)
Theorem reported_decides ops m c ks now :
  let d := (Decide m c ks now (foldl exec_reported NewReportedIndex ops)).1 in
  d.(ColdOrder) ≡ₚ ks ∧ StronglySorted key_le d.(ColdOrder) ∧
  if d.(HasHot)
  then d.(Hot) ∈ ks ∧ ∃ depth r,
    0 < depth ∧ d.(MatchRatio) = match_ratio depth (length c) ∧
    resident ops m d.(Hot) r = true ∧ commonDepth c r = depth ∧
    ∀ k r', k ∈ ks → resident ops m k r' = true →
      commonDepth c r' ≤ depth ∧ (commonDepth c r' = depth → key_le d.(Hot) k)
  else ∀ k r, k ∈ ks → resident ops m k r = true → commonDepth c r = 0.
Proof.
  intros d. set (ix := foldl exec_reported NewReportedIndex ops).
  destruct (reported_Decide_found m c ks now ix) as [Hord H]. change (reported_Decide m c ks now ix).1 with d in *.
  rewrite Hord in *. split_and!; [apply merge_sort_Permutation|apply StronglySorted_merge_sort; apply _|].
  assert (Hp : ∀ k r, (k, r) ∈ pairs m (merge_sort key_le ks) ix ↔ k ∈ ks ∧ resident ops m k r = true).
  { intros k r. unfold ix. by rewrite elem_of_pairs, merge_sort_Permutation, run_NewReported. }
  destruct d.(HasHot).
  - destruct H as (depth & Hratio & Hd & (r & Hr & Hc) & Hmax). apply Hp in Hr as [Hin Hr]. split; [done|].
    exists depth, r. split_and!; try done. intros k r' Hk Hr'. apply (Hmax k r'). by apply Hp.
  - destruct H as [_ Hz]. intros k r Hk Hr. apply (Hz k r). by apply Hp.
Qed.

(** ** Coherence between frontends *)

Inductive SyncEvent :=
| EvObserve (m : string) (c : list N) (n : string) (r : Z)
| EvInvalidate (m n : string) (r : Z).

(** [Sync]: a provider, whether there is a publisher, and what was published. *)
Record Sync (P : Type) := MkSync { idx : P; pub : bool; published : list SyncEvent }.
Arguments MkSync {_} _ _ _.
Arguments idx {_} _.
Arguments pub {_} _.
Arguments published {_} _.

Section Sync.
Context {P : Type} `{!Provider P}.

Definition publish (ev : SyncEvent) (s : Sync P) : Sync P :=
  if s.(pub) then MkSync s.(idx) s.(pub) (s.(published) ++ [ev]) else s.

Definition set_idx (p : P) (s : Sync P) : Sync P := MkSync p s.(pub) s.(published).

Definition sync_Observe (m : string) (c : list N) (k : ReplicaKey) (now : Z) (s : Sync P) : bool * Sync P :=
  let '(changed, p) := Observe m c k now s.(idx) in
  let s := set_idx p s in
  (changed, if changed : bool then publish (EvObserve m c k.(NodeID) k.(Replica)) s else s).

Definition sync_Invalidate (m : string) (k : ReplicaKey) (s : Sync P) : Sync P :=
  publish (EvInvalidate m k.(NodeID) k.(Replica)) (set_idx (Invalidate m k s.(idx)) s).

Definition sync_InvalidateNode (m n : string) (s : Sync P) : Sync P :=
  publish (EvInvalidate m n (-1)) (set_idx (InvalidateNode m n s.(idx)) s).

Definition ApplyObserve (m : string) (c : list N) (n : string) (r now : Z) (s : Sync P) : Sync P :=
  set_idx (Observe m c (MkReplicaKey n r) now s.(idx)).2 s.

Definition ApplyInvalidate (m n : string) (r : Z) (s : Sync P) : Sync P :=
  set_idx (if (r <? 0)%Z then InvalidateNode m n s.(idx) else Invalidate m (MkReplicaKey n r) s.(idx)) s.

Definition sync_Decide (m : string) (c : list N) (ks : list ReplicaKey) (now : Z) (s : Sync P) :
    PrefixDecision * Sync P :=
  let '(d, p) := Decide m c ks now s.(idx) in (d, set_idx p s).

Definition sync_Evict (now : Z) (s : Sync P) : Sync P := set_idx (Evict now s.(idx)) s.

(** The peer's end of a broadcast, at its own clock. *)
Definition deliver (now : Z) (s : Sync P) (ev : SyncEvent) : Sync P :=
  match ev with
  | EvObserve m c n r => ApplyObserve m c n r now s
  | EvInvalidate m n r => ApplyInvalidate m n r s
  end.

End Sync.

(** C20. An invalidation reaches every frontend, whatever index each of them
    runs: the frontend that invalidates a replica (or a node) publishes it
    even when it never cached the model, and afterwards neither that frontend
    nor a peer that has received the event, at whatever time, finds the replica
    (or a replica of the node) hot; the peer publishes nothing in turn. *)
Theorem sync_forgets `{!Provider A, !ProviderLaws A, !Provider B, !ProviderLaws B} (a : Sync A) (b : Sync B) m k now :
  valid a.(idx) → valid b.(idx) → a.(pub) = true → m ≠ "" → k.(NodeID) ≠ "" → (0 ≤ k.(Replica))%Z →
  (∃ ev, let a' := sync_Invalidate m k a in let b' := deliver now b ev in
     a'.(published) = a.(published) ++ [ev] ∧ b'.(published) = b.(published) ∧
     ∀ c ks now', ((sync_Decide m c ks now' a').1.(HasHot) = true → (sync_Decide m c ks now' a').1.(Hot) ≠ k) ∧
       ((sync_Decide m c ks now' b').1.(HasHot) = true → (sync_Decide m c ks now' b').1.(Hot) ≠ k)) ∧
  (∃ ev, let a' := sync_InvalidateNode m k.(NodeID) a in let b' := deliver now b ev in
     a'.(published) = a.(published) ++ [ev] ∧ b'.(published) = b.(published) ∧
     ∀ c ks now', ((sync_Decide m c ks now' a').1.(HasHot) = true → (sync_Decide m c ks now' a').1.(Hot).(NodeID) ≠ k.(NodeID)) ∧
       ((sync_Decide m c ks now' b').1.(HasHot) = true → (sync_Decide m c ks now' b').1.(Hot).(NodeID) ≠ k.(NodeID))).
Proof.
  intros Ha Hb Hpub Hm Hn Hr. unfold sync_Invalidate, sync_InvalidateNode, publish, sync_Decide. simpl. rewrite Hpub. simpl.
  assert (Hlt : (Replica k <? 0)%Z = false) by lia.
  split; [exists (EvInvalidate m (NodeID k) (Replica k))|exists (EvInvalidate m (NodeID k) (-1))];
    simpl; (split; [done|]; split; [done|]); intros c ks now'.
  - rewrite Hlt. destruct k as [n r]. simpl in *.
    pose proof (invalidated m (MkReplicaKey n r) c ks now' (idx a) Ha Hm Hn) as H1.
    pose proof (invalidated m (MkReplicaKey n r) c ks now' (idx b) Hb Hm Hn) as H2. simpl in *.
    destruct (Decide m c ks now' (Invalidate _ _ (idx a))), (Decide m c ks now' (Invalidate _ _ (idx b))). done.
  - pose proof (invalidated_node m (NodeID k) c ks now' (idx a) Ha) as H1.
    pose proof (invalidated_node m (NodeID k) c ks now' (idx b) Hb) as H2. simpl in *.
    destruct (Decide m c ks now' (InvalidateNode _ _ (idx a))), (Decide m c ks now' (InvalidateNode _ _ (idx b))). done.
Qed.

(** ** Witnesses *)

#[local] Instance demo_key_walk : Walk ReplicaKey := {| walk_order := id; Pow := λ x _, x |}.

#[local] Instance demo_key_walk_laws : WalkLaws ReplicaKey.
Proof. by split. Qed.

Definition node_a : ReplicaKey := MkReplicaKey "node-a" 0.
Definition node_b : ReplicaKey := MkReplicaKey "node-b" 0.

Definition demo_history : list IndexOp :=
  [IxObserve "chat" [1; 2]%N node_a 10; IxObserve "chat" [1; 3]%N node_b 20].

Lemma index_decides_witness :
  (Decide "chat" [1; 2]%N [node_a; node_b] 30 (run_index 300 0 demo_history)).1.(Hot) = node_a ∧
  (Decide "chat" [1; 2]%N [node_a; node_b] 30 (run_index 300 0 demo_history)).1.(ColdOrder) ≡ₚ [node_a; node_b].
Proof.
  split; [|apply (index_decides 300 0 demo_history "chat" [1; 2]%N [node_a; node_b] 30)].
  apply (proj2 (index_decides 300 0 demo_history "chat" [1; 2]%N [node_a; node_b] 30)).
Defined.

Lemma index_hot_history_witness :
  ∃ pre c' t post, demo_history = pre ++ IxObserve "chat" c' node_b t :: post.
Proof.
  destruct (index_hot_history 300 0 demo_history "chat" [1; 9]%N [node_b] 30) as (pre & c' & t & post & _ & H & _);
    [vm_compute; reflexivity|].
  exists pre, c', t, post. exact H.
Defined.

Lemma index_affinity_witness :
  (Decide "chat" [1; 2]%N [node_a] 30
     (run_index 300 0 ([] ++ IxObserve "chat" [1; 2]%N node_a 10 :: [IxObserve "chat" [1; 3]%N node_b 20]))).1.(Hot) = node_a.
Proof.
  apply (index_affinity 300 0 [] [IxObserve "chat" [1; 3]%N node_b 20] "chat" [1; 2]%N node_a 10 [node_a] 30);
    [discriminate|discriminate|by left|reflexivity|].
  constructor; [|constructor]. split; vm_compute; reflexivity.
Defined.

Lemma sync_forgets_witness :
  ∃ ev, (deliver 5 (MkSync (run_index 300 0 demo_history) true []) ev).(published) = [].
Proof.
  destruct (sync_forgets (MkSync NewReportedIndex true []) (MkSync (run_index 300 0 demo_history) true [])
    "chat" node_a 5) as [(ev & _ & H & _) _].
  - exact I.
  - apply run_index_registers.
  - reflexivity.
  - discriminate.
  - discriminate.
  - discriminate.
  - exists ev. exact H.
Defined.

(** An observation that changes only the owner of a shared prefix is not
    broadcast: after the same three requests, delivered to a peer at once, the
    two frontends disagree on where a prompt with that prefix is warm. *)
Definition observe_all (s : Sync Index) (reqs : list (list N * ReplicaKey)) : Sync Index :=
  foldl (λ s r, (sync_Observe "chat" r.1 r.2 10 s).2) s reqs.

Lemma sync_prefix_owner_diverges :
  let s := observe_all (MkSync (NewIndex 300 0) true []) [([1; 2]%N, node_a); ([1; 3]%N, node_b); ([1; 2]%N, node_a)] in
  let peer := foldl (deliver 10) (MkSync (NewIndex 300 0) true []) s.(published) in
  (sync_Decide "chat" [1; 4]%N [node_a; node_b] 20 s).1.(Hot) = node_a ∧
  (sync_Decide "chat" [1; 4]%N [node_a; node_b] 20 peer).1.(Hot) = node_b.
Proof. split; vm_compute; reflexivity. Qed.
