(* ===== verification/PrefixRouting.v ===== *)
(** * PrefixRouting: from a prompt to the replica that serves it

    Models [core/services/nodes/prefixcache]: [ExtractChain] of
    [extractor.go], the settings and their validation of [config.go],
    [policy.go], and the choice of a replica: [Select], the load guard and the
    prefix scorer of [select.go] over the [RoutingPipeline] of [pipeline.go].
    The hash (xxhash) is a parameter.  Scores are computed in 64-bit floating
    point, operation by operation as the code writes them (no fused
    multiply-add); the theorem about [Select] covers up to 32 replicas, whose
    scores are compared by computation. *)
From Stdlib Require Import Ascii Floats.SpecFloat.
From stdpp Require Import sorting.
From S2P Require Import Prelude GoMonad GoTime RadixTree PrefixIndex.

(** ** Policies and settings *)

Inductive RoutePolicy := RoutePolicyDefault | RoutePolicyRoundRobin | RoutePolicyPrefixCache.

Definition ParsePolicy (s : string) : RoutePolicy :=
  if String.eqb s "round_robin" then RoutePolicyRoundRobin
  else if String.eqb s "prefix_cache" then RoutePolicyPrefixCache
  else RoutePolicyDefault.

Definition RoutePolicy_String (p : RoutePolicy) : string :=
  match p with
  | RoutePolicyRoundRobin => "round_robin"
  | RoutePolicyPrefixCache => "prefix_cache"
  | RoutePolicyDefault => "default"
  end.

Definition Resolve (p global : RoutePolicy) : RoutePolicy :=
  match p with RoutePolicyDefault => global | p => p end.

Record Config := MkConfig {
  GlobalPolicy : RoutePolicy;
  MinPrefixMatch : spec_float;
  BalanceAbsThreshold : Z;
  BalanceRelThreshold : spec_float;
  cfg_TTL_ : Z;
  cfg_HalfLife_ : Z;
  WindowBytes : Z;
  MaxDepth : Z;
  PressureWindow : Z;
  PressureScaleThreshold : Z;
  ScorerWeights : gmap string spec_float;
}.

Definition fadd := SFadd 53 1024.
Definition fsub := SFsub 53 1024.
Definition fmul := SFmul 53 1024.
Definition fdiv := SFdiv 53 1024.

(** The constant [a/b], correctly rounded. *)
Definition const (a b : Z) : spec_float := fdiv (float64 a) (float64 b).

(** 1/4, 1/2, 3/4 and 1, in normal form. *)
Definition quarter : spec_float := Eval vm_compute in const 1 4.
Definition half : spec_float := Eval vm_compute in const 1 2.
Definition three_quarters : spec_float := Eval vm_compute in const 3 4.
Definition one : spec_float := Eval vm_compute in float64 1.

Definition ScorerPrefixCache : string := "prefix_cache".

Definition DefaultConfig : Config :=
  MkConfig RoutePolicyPrefixCache (const 3 10) 2 (const 3 2) (5 * Minute) (2 * Minute) 256 64 Minute 1
    {[ ScorerPrefixCache := float64 1 ]}.

Inductive ConfigError := ErrMinMatch | ErrAbsThreshold | ErrRelThreshold | ErrRoutePolicy (s : string) | ErrWindow | ErrTTL.

Definition validateThresholdBounds (absThr : Z) (relThr minMatch : spec_float) : option ConfigError :=
  if SFltb minMatch (float64 0) || SFltb (float64 1) minMatch then Some ErrMinMatch
  else if (absThr <? 0)%Z then Some ErrAbsThreshold
  else if negb (SFeqb relThr (float64 0)) && SFltb relThr (float64 1) then Some ErrRelThreshold
  else None.

Definition ValidateThresholds (routePolicy : string) (absThr : Z) (relThr minMatch : spec_float) : option ConfigError :=
  if String.eqb routePolicy "" || String.eqb routePolicy "round_robin" || String.eqb routePolicy "prefix_cache"
  then validateThresholdBounds absThr relThr minMatch
  else Some (ErrRoutePolicy routePolicy).

Definition Validate (c : Config) : option ConfigError :=
  match validateThresholdBounds c.(BalanceAbsThreshold) (float64 0) c.(MinPrefixMatch) with
  | Some e => Some e
  | None =>
      if SFltb c.(BalanceRelThreshold) (float64 1) then Some ErrRelThreshold
      else if (c.(WindowBytes) <=? 0)%Z || (c.(MaxDepth) <=? 0)%Z then Some ErrWindow
      else if (c.(cfg_TTL_) <=? 0)%Z then Some ErrTTL
      else None
  end.

Lemma DefaultConfig_valid : Validate DefaultConfig = None.
Proof. vm_compute. reflexivity. Qed.

(** Every policy is one of its strings, which is all that [ValidateThresholds]
    accepts besides the empty string. *)
Lemma ParsePolicy_String p : p ≠ RoutePolicyDefault → ParsePolicy (RoutePolicy_String p) = p.
Proof. by destruct p. Qed.

(** ** Chains of prefix hashes *)

(** [xxhash.Sum64] *)
Class Hasher := Sum64 : list ascii → N.

(** [binary.LittleEndian.PutUint64] *)
Fixpoint le_bytes (k : nat) (x : N) : list ascii :=
  match k with
  | O => []
  | S k => ascii_of_N (x mod 256) :: le_bytes k (x / 256)
  end.

Section Chain.
Context `{!Hasher}.

(** The loop of [ExtractChain] from block [i] on, [n] blocks left.  [None] is
    a slice out of range. *)
Fixpoint chain_loop (W : Z) (data : list ascii) (n : nat) (i : Z) (prev : N) : option (list N) :=
  match n with
  | O => Some []
  | S n =>
      let off := (i * W)%Z in
      let last := Z.min (off + W) (Z.of_nat (length data)) in
      if (0 <=? off)%Z && (off <=? last)%Z && (last <=? Z.of_nat (length data))%Z then
        let block := take (Z.to_nat (last - off)) (drop (Z.to_nat off) data) in
        let h := Sum64 (le_bytes 8 prev ++ block) in
        rest ← chain_loop W data n (i + 1) h; Some (h :: rest)
      else None
  end.

Definition ExtractChain (model prompt : string) (c : Config) : option (list N) :=
  if String.eqb prompt "" then Some [] else
  let data := String.list_ascii_of_string prompt in
  if (c.(WindowBytes) =? 0)%Z then None else
  let nBlocks := Z.quot (Z.of_nat (length data) + c.(WindowBytes) - 1) c.(WindowBytes) in
  let depth := Z.min nBlocks c.(MaxDepth) in
  if (depth <? 0)%Z then None else
  chain_loop c.(WindowBytes) data (Z.to_nat depth) 0 (Sum64 (String.list_ascii_of_string model)).

(** The hash of block [i] depends on the data up to its end only. *)
Lemma chain_loop_prefix W data s n n' i prev l l' :
  (0 < W)%Z → (0 ≤ i)%Z →
  chain_loop W data n i prev = Some l → chain_loop W (data ++ s) n' i prev = Some l' →
  ∀ j, j < n → j < n' → ((i + Z.of_nat j + 1) * W ≤ Z.of_nat (length data))%Z → l !! j = l' !! j.
Proof.
  intros HW. revert n' i prev l l'. induction n as [|n IH]; intros [|n'] i prev l l' Hi Hl Hl' j Hj Hj' Hend; try lia.
  cbn [chain_loop] in Hl, Hl'. rewrite length_app, Nat2Z.inj_add in Hl'.
  set (off := (i * W)%Z) in *. assert (0 ≤ off)%Z by (unfold off; nia).
  assert (Hoff : (off + W ≤ Z.of_nat (length data))%Z) by (unfold off; nia).
  destruct ((0 <=? off)%Z && (off <=? Z.min (off + W) (Z.of_nat (length data)))%Z &&
    (Z.min (off + W) (Z.of_nat (length data)) <=? Z.of_nat (length data))%Z); [|done].
  destruct ((0 <=? off)%Z && (off <=? Z.min (off + W) (Z.of_nat (length data) + Z.of_nat (length s)))%Z &&
    (Z.min (off + W) (Z.of_nat (length data) + Z.of_nat (length s)) <=? Z.of_nat (length data) + Z.of_nat (length s))%Z); [|done].
  rewrite !Z.min_l in Hl, Hl' by lia.
  replace (off + W - off)%Z with W in * by lia.
  rewrite drop_app_le in Hl' by lia. rewrite take_app_le in Hl' by (rewrite length_drop; lia).
  set (h := Sum64 _) in *. simpl in Hl, Hl'.
  destruct (chain_loop W data n (i + 1) h) as [r|] eqn:Hr; [|done].
  destruct (chain_loop W (data ++ s) n' (i + 1) h) as [r'|] eqn:Hr'; [|done]. simplify_eq/=.
  destruct j as [|j]; [done|]. simpl. apply (IH n' (i + 1)%Z h r r'); try done; lia.
Qed.

(** The loop never slices out of range. *)
Lemma chain_loop_total W data n i prev :
  (0 < W)%Z → (0 ≤ i)%Z → ((i + Z.of_nat n - 1) * W ≤ Z.of_nat (length data))%Z →
  ∃ l, chain_loop W data n i prev = Some l ∧ length l = n.
Proof.
  intros HW. revert i prev. induction n as [|n IH]; intros i prev Hi Hn; [by exists []|].
  cbn [chain_loop]. assert (0 ≤ i * W)%Z by nia. assert (i * W ≤ Z.of_nat (length data))%Z by nia.
  rewrite (proj2 (Z.leb_le 0 _)) by done. rewrite (proj2 (Z.leb_le (i * W) _)) by lia.
  rewrite (proj2 (Z.leb_le (Z.min _ _) _)) by lia. simpl.
  match goal with |- context [chain_loop W data n (i + 1) ?h] =>
    destruct (IH (i + 1)%Z h) as (l & Hrest & Hl); [lia|nia|]; rewrite Hrest end.
  eexists. split; [done|]. simpl. by rewrite Hl.
Qed.

(** The number of blocks of a prompt. *)
Definition blocks (c : Config) (prompt : string) : nat :=
  Z.to_nat (Z.min ((Z.of_nat (String.length prompt) + c.(WindowBytes) - 1) / c.(WindowBytes)) c.(MaxDepth)).

Lemma length_bytes s : length (String.list_ascii_of_string s) = String.length s.
Proof. induction s as [|a s IH]; simpl; [done|by rewrite IH]. Qed.

Lemma bytes_app s1 s2 : String.list_ascii_of_string (s1 +:+ s2) = String.list_ascii_of_string s1 ++ String.list_ascii_of_string s2.
Proof. induction s1 as [|a s1 IH]; [done|]. simpl. change (String.append (String a s1) s2) with (String a (s1 +:+ s2)). simpl. by rewrite IH. Qed.

Lemma Validate_bounds c : Validate c = None → (0 < c.(WindowBytes))%Z ∧ (0 < c.(MaxDepth))%Z ∧ (0 < c.(cfg_TTL_))%Z.
Proof. unfold Validate. repeat case_match; try done. intros _. lia. Qed.

Lemma ExtractChain_total model prompt c :
  Validate c = None → ∃ l, ExtractChain model prompt c = Some l ∧ length l = blocks c prompt.
Proof.
  intros (HW & HD & _)%Validate_bounds. unfold ExtractChain, blocks.
  destruct (String.eqb_spec prompt "") as [->|Hne].
  { exists []. split; [done|]. change (Z.of_nat (String.length "")) with 0%Z. rewrite Z.div_small by lia. simpl. lia. }
  rewrite length_bytes. set (len := Z.of_nat (String.length prompt)).
  rewrite (proj2 (Z.eqb_neq _ _)) by lia. rewrite Z.quot_div_nonneg by lia.
  assert (0 ≤ (len + WindowBytes c - 1) / WindowBytes c)%Z by (apply Z.div_pos; lia).
  rewrite (proj2 (Z.ltb_ge _ _)) by lia.
  apply chain_loop_total; [done|done|]. rewrite length_bytes, Z2Nat.id by lia. fold len.
  pose proof (Z.mul_div_le (len + WindowBytes c - 1) (WindowBytes c) HW). nia.
Qed.

(** A chain depends on the head of the prompt only: with valid settings
    extraction never fails and gives one hash per window up to the depth cap,
    and the chain of a prompt and that of any extension of it agree on every
    window that lies within the shorter one; so once the shorter prompt fills
    its windows, or the cap, its chain is a prefix of the other. *)
Theorem chain_extends model prompt suffix c :
  Validate c = None →
  ∃ l l', ExtractChain model prompt c = Some l ∧ ExtractChain model (prompt +:+ suffix) c = Some l' ∧
    length l = blocks c prompt ∧ length l' = blocks c (prompt +:+ suffix) ∧
    (∀ j, j < blocks c prompt → ((Z.of_nat j + 1) * c.(WindowBytes) ≤ Z.of_nat (String.length prompt))%Z → l !! j = l' !! j) ∧
    ((Z.of_nat (blocks c prompt) * c.(WindowBytes) ≤ Z.of_nat (String.length prompt))%Z → l `prefix_of` l').
Proof.
  intros Hv. destruct (ExtractChain_total model prompt c Hv) as (l & Hl & Hn).
  destruct (ExtractChain_total model (prompt +:+ suffix) c Hv) as (l' & Hl' & Hn').
  apply Validate_bounds in Hv as (HW & HD & _).
  assert (Hlen : String.length (prompt +:+ suffix) = String.length prompt + String.length suffix)
    by (by rewrite <- length_bytes, bytes_app, length_app, !length_bytes).
  assert (Hblocks : blocks c prompt ≤ blocks c (prompt +:+ suffix)).
  { unfold blocks. rewrite Hlen. apply Z2Nat.inj_le.
    - apply Z.min_glb; [apply Z.div_pos; lia|lia].
    - apply Z.min_glb; [apply Z.div_pos; lia|lia].
    - apply Z.min_le_compat_r, Z.div_le_mono; lia. }
  assert (Hagree : ∀ j, j < blocks c prompt → ((Z.of_nat j + 1) * c.(WindowBytes) ≤ Z.of_nat (String.length prompt))%Z → l !! j = l' !! j).
  { intros j Hj Hend. unfold ExtractChain in Hl, Hl'.
    destruct (String.eqb_spec prompt "") as [->|Hne]; [simpl in Hend; nia|].
    destruct (String.eqb_spec (prompt +:+ suffix) "") as [He|_].
    { rewrite He in Hlen. simpl in Hlen. nia. }
    rewrite bytes_app in Hl'. simpl in Hl, Hl'. rewrite (proj2 (Z.eqb_neq _ _)) in Hl, Hl' by lia.
    destruct (_ <? 0)%Z eqn:Hneg in Hl; [done|]. destruct (_ <? 0)%Z eqn:Hneg' in Hl'; [done|].
    eapply (chain_loop_prefix _ _ _ _ _ _ _ _ _ HW); [|exact Hl|exact Hl'| | |]; try lia.
    - rewrite length_bytes, Z.quot_div_nonneg by lia. exact Hj.
    - rewrite length_app, !length_bytes, <- Hlen, Z.quot_div_nonneg by lia. unfold blocks in Hj, Hblocks. lia.
    - rewrite length_bytes. lia. }
  exists l, l'. split_and!; try done.
  intros Hfull. assert (l = take (length l) l') as ->; [|apply prefix_take].
  apply list_eq. intros j. destruct (decide (j < length l)) as [Hj|Hj].
  - rewrite lookup_take_lt by done. apply Hagree; [lia|]. nia.
  - rewrite (lookup_ge_None_2 l) by lia. symmetry. apply lookup_ge_None_2. rewrite length_take. lia.
Qed.

End Chain.

(** ** Choosing a replica *)

Record Candidate := MkCandidate { Key : ReplicaKey; InFlight : Z }.

#[export] Instance Candidate_eq_dec : EqDecision Candidate.
Proof. solve_decision. Defined.

(** Go's [min] and [max] of two floats (no NaN occurs among scores). *)
Definition fmin (a b : spec_float) : spec_float := if SFltb b a then b else a.
Definition fmax (a b : spec_float) : spec_float := if SFltb a b then b else a.

(** A filter, a scorer and the pipeline that composes them. *)
Definition CandidateFilter : Type := list Candidate → list Candidate.
Definition CandidateScorer : Type := Candidate → option spec_float.
Record WeightedScorer := MkWeightedScorer { Scorer : option CandidateScorer; ws_Weight : spec_float }.
Record RoutingPipeline := MkPipeline { Filters : list CandidateFilter; Scorers : list WeightedScorer }.

Definition score (p : RoutingPipeline) (c : Candidate) : spec_float :=
  foldl (λ sum w,
      match w.(Scorer) with
      | None => sum
      | Some s =>
          if SFleb w.(ws_Weight) (float64 0) then sum else
          match s c with
          | None => sum
          | Some x => fadd sum (fmul (fmax (float64 0) (fmin one x)) w.(ws_Weight))
          end
      end) (float64 0) p.(Scorers).

(** [HighestScorePicker] *)
Definition better (best c : Candidate * spec_float) : Candidate * spec_float :=
  if SFltb best.2 c.2 || (SFeqb c.2 best.2 && less c.1.(Key) best.1.(Key)) then c else best.

Definition HighestScorePicker_Pick (scored : list (Candidate * spec_float)) : option ReplicaKey :=
  match scored with
  | [] => None
  | x :: rest => Some (foldl better x rest).1.(Key)
  end.

Definition Pick (p : RoutingPipeline) (cands : list Candidate) : option ReplicaKey :=
  match foldl (λ l f, f l) cands p.(Filters) with
  | [] => None
  | filtered => HighestScorePicker_Pick (map (λ c, (c, score p c)) filtered)
  end.

(** [loadGuardFilter] *)
Definition min_in_flight (c : Candidate) (cands : list Candidate) : Z :=
  foldl (λ m c, Z.min m c.(InFlight)) c.(InFlight) cands.

Definition within_guard (cfg : Config) (m : Z) (c : Candidate) : bool :=
  (c.(InFlight) <=? wrap64 (m + cfg.(BalanceAbsThreshold)))%Z &&
  SFleb (float64 c.(InFlight)) (fadd (fmul (float64 m) cfg.(BalanceRelThreshold)) one).

Definition loadGuardFilter (cfg : Config) : CandidateFilter := λ cands,
  match cands with
  | [] => []
  | c :: rest => List.filter (within_guard cfg (min_in_flight c rest)) cands
  end.

(** [prefixPreferenceScorer] *)
Definition fallback_less (a b : Candidate) : bool :=
  if (a.(InFlight) =? b.(InFlight))%Z then less a.(Key) b.(Key) else (a.(InFlight) <? b.(InFlight))%Z.

Definition fallback_le (a b : Candidate) : Prop := fallback_less b a = false.

#[export] Instance fallback_le_dec a b : Decision (fallback_le a b).
Proof. unfold fallback_le. apply _. Defined.

(** The score at position [i] of the fallback order of [n] candidates, and of
    a cold order of [n]. *)
Definition fallback_score (n i : nat) : spec_float :=
  fdiv (fmul quarter (float64 (Z.of_nat n - Z.of_nat i))) (float64 (Z.of_nat n + 1)).

Definition cold_score (n i : nat) : spec_float :=
  fsub three_quarters (fdiv (fmul quarter (float64 (Z.of_nat i))) (float64 (Z.of_nat n + 1))).

Definition put_scores (f : nat → spec_float) (keys : list ReplicaKey) (m : gmap ReplicaKey spec_float) :
    gmap ReplicaKey spec_float :=
  foldl (λ m ik, <[ik.2 := f ik.1]> m) m (imap pair keys).

Definition preference_scores (cands : list Candidate) (d : PrefixDecision) (cfg : Config) :
    gmap ReplicaKey spec_float :=
  let fallback := merge_sort fallback_le cands in
  let m := put_scores (fallback_score (length fallback)) (map Key fallback) ∅ in
  let m := put_scores (cold_score (length d.(ColdOrder))) d.(ColdOrder) m in
  if d.(HasHot) && SFleb cfg.(MinPrefixMatch) d.(MatchRatio) then <[d.(Hot) := float64 1]> m else m.

Definition prefixPreferenceScorer (cands : list Candidate) (d : PrefixDecision) (cfg : Config) : CandidateScorer :=
  λ c, preference_scores cands d cfg !! c.(Key).

Definition scorerWeight (weights : gmap string spec_float) (name : string) (fallback : spec_float) : spec_float :=
  default fallback (weights !! name).

Definition Select (cands : list Candidate) (d : PrefixDecision) (cfg : Config) : option ReplicaKey :=
  match cands with
  | [] => None
  | _ =>
      Pick (MkPipeline [loadGuardFilter cfg]
        [MkWeightedScorer (Some (prefixPreferenceScorer cands d cfg))
           (scorerWeight cfg.(ScorerWeights) ScorerPrefixCache one)]) cands
  end.

(** The empty list needs no case of its own. *)
Lemma Select_Pick cands d cfg :
  Select cands d cfg = Pick (MkPipeline [loadGuardFilter cfg]
    [MkWeightedScorer (Some (prefixPreferenceScorer cands d cfg))
       (scorerWeight cfg.(ScorerWeights) ScorerPrefixCache one)]) cands.
Proof. by destruct cands. Qed.

(** ** Comparing scores *)

(** Positive floats in normal form compare as these integers. *)
Definition rank (f : spec_float) : Z :=
  match f with S754_finite false m e => e * 2 ^ 53 + Z.pos m | _ => - 2 ^ 64 end.

Definition normal (f : spec_float) : bool :=
  match f with S754_finite false m e => (Z.pos m <? 2 ^ 53)%Z && (- 1000 <? e)%Z | _ => false end.

Lemma SFcompare_rank f g : normal f = true → normal g = true → SFcompare f g = Some (Z.compare (rank f) (rank g)).
Proof.
  destruct f as [|?| |[] m e]; try done. destruct g as [|?| |[] m' e']; try done. simpl. intros Hf Hg.
  f_equal. destruct (Z.compare_spec e e') as [->|He|He].
  - change (Pos.compare_cont Eq m m') with (Pos.compare m m').
    destruct (Pos.compare_spec m m'); symmetry; [apply Z.compare_eq_iff|apply Z.compare_lt_iff|apply Z.compare_gt_iff]; lia.
  - symmetry. apply Z.compare_lt_iff. nia.
  - symmetry. apply Z.compare_gt_iff. nia.
Qed.

Lemma SFltb_rank f g : normal f = true → normal g = true → SFltb f g = (rank f <? rank g)%Z.
Proof. intros Hf Hg. unfold SFltb. rewrite (SFcompare_rank f g Hf Hg). unfold Z.ltb. by destruct (rank f ?= rank g)%Z. Qed.

Lemma SFeqb_rank f g : normal f = true → normal g = true → SFeqb f g = (rank f =? rank g)%Z.
Proof.
  intros Hf Hg. unfold SFeqb. rewrite (SFcompare_rank f g Hf Hg).
  destruct (Z.compare_spec (rank f) (rank g)); symmetry; [by apply Z.eqb_eq|apply Z.eqb_neq; lia|apply Z.eqb_neq; lia].
Qed.

(** What a score becomes in the pipeline with weight [w]. *)
Definition final_score (w x : spec_float) : spec_float :=
  fadd (float64 0) (fmul (fmax (float64 0) (fmin one x)) w).

(** The bound on the number of replicas. *)
Definition max_replicas : nat := 32.

(** A weighted score between two bounds. *)
Definition score_ok (w lo hi x : spec_float) : bool :=
  normal (final_score w x) && (rank (final_score w lo) <? rank (final_score w x))%Z &&
  (rank (final_score w x) <=? rank (final_score w hi))%Z.

(** Below every score. *)
Definition lowest : spec_float := Eval vm_compute in const 1 1024.

Definition scores_ok (w : spec_float) (n : nat) : bool :=
  forallb (λ i, score_ok w lowest quarter (fallback_score n i) && score_ok w half three_quarters (cold_score n i) &&
    (rank (final_score w (fallback_score n (S i))) <? rank (final_score w (fallback_score n i)))%Z &&
    (rank (final_score w (cold_score n (S i))) <? rank (final_score w (cold_score n i)))%Z) (seq 0 n).

(** The weight keeps the three signals apart, and the positions within each:
    no two scores that up to 32 replicas can have are rounded to the same
    number, overflow or vanish. *)
Definition separates (w : spec_float) : bool :=
  negb (SFleb w (float64 0)) &&
  normal (final_score w one) && (rank (final_score w three_quarters) <? rank (final_score w one))%Z &&
  (rank (final_score w half) <? rank (final_score w three_quarters))%Z &&
  (rank (final_score w quarter) <? rank (final_score w half))%Z &&
  forallb (scores_ok w) (seq 0 (S max_replicas)).

(** So do the default weight, fractions and multiples of it. *)
Lemma separates_weights :
  forallb separates [one; half; const 1 10; float64 2] = true.
Proof. vm_compute. reflexivity. Qed.

Lemma decreasing (f : nat → Z) n :
  (∀ i, i < n → (f (S i) < f i)%Z) → ∀ i j, i < j → j < n → (f j < f i)%Z.
Proof.
  intros Hf i j Hij. induction Hij as [|j Hij IH]; intros Hj; [apply Hf; lia|].
  specialize (Hf j ltac:(lia)). specialize (IH ltac:(lia)). lia.
Qed.

Section Weight.
Context (w : spec_float).
Hypothesis w_separates : separates w = true.

Lemma separates_bands :
  normal (final_score w one) = true ∧
  (rank (final_score w quarter) < rank (final_score w half) < rank (final_score w three_quarters))%Z ∧
  (rank (final_score w three_quarters) < rank (final_score w one))%Z.
Proof. unfold separates in w_separates. bool_hyps. split_and!; (done || lia). Qed.

Lemma scores_at n i :
  n ≤ max_replicas → i < n →
  score_ok w lowest quarter (fallback_score n i) = true ∧ score_ok w half three_quarters (cold_score n i) = true ∧
  (rank (final_score w (fallback_score n (S i))) < rank (final_score w (fallback_score n i)))%Z ∧
  (rank (final_score w (cold_score n (S i))) < rank (final_score w (cold_score n i)))%Z.
Proof.
  intros Hn Hi. assert (H : forallb (scores_ok w) (seq 0 (S max_replicas)) = true)
    by (by unfold separates in w_separates; bool_hyps).
  rewrite forallb_forall in H.
  specialize (H n). rewrite in_seq in H. specialize (H ltac:(lia)). unfold scores_ok in H. rewrite forallb_forall in H.
  specialize (H i). rewrite in_seq in H. specialize (H ltac:(lia)). bool_hyps. split_and!; (done || lia).
Qed.

Lemma fallback_decreasing n i j :
  n ≤ max_replicas → i < j → j < n →
  (rank (final_score w (fallback_score n j)) < rank (final_score w (fallback_score n i)))%Z.
Proof. intros Hn. apply (decreasing (λ i, rank (final_score w (fallback_score n i)))). intros k Hk. by apply scores_at. Qed.

Lemma cold_decreasing n i j :
  n ≤ max_replicas → i < j → j < n →
  (rank (final_score w (cold_score n j)) < rank (final_score w (cold_score n i)))%Z.
Proof. intros Hn. apply (decreasing (λ i, rank (final_score w (cold_score n i)))). intros k Hk. by apply scores_at. Qed.

Lemma score_ok_final lo hi x :
  score_ok w lo hi x = true →
  normal (final_score w x) = true ∧ (rank (final_score w lo) < rank (final_score w x) ≤ rank (final_score w hi))%Z.
Proof. unfold score_ok. intros H. bool_hyps. split_and!; (done || lia). Qed.
End Weight.

(** ** The scores of the candidates *)

Lemma put_scores_in f keys m i k :
  NoDup keys → keys !! i = Some k → put_scores f keys m !! k = Some (f i).
Proof.
  unfold put_scores. induction keys as [|x keys IH] using rev_ind; [done|]. intros Hnd Hi.
  apply NoDup_app in Hnd as (Hnd & Hdis & _). rewrite imap_app, foldl_app. simpl.
  apply lookup_app_Some in Hi as [Hi|[Hge Hi]].
  - rewrite lookup_insert_ne; [by apply IH|]. intros ->. apply (Hdis k); [by eapply list_elem_of_lookup_2|by left].
  - apply list_lookup_singleton_Some in Hi as [Hi ->]. rewrite Nat.add_0_r, lookup_insert_eq. do 2 f_equal. lia.
Qed.

Lemma put_scores_out f keys m k : k ∉ keys → put_scores f keys m !! k = m !! k.
Proof.
  unfold put_scores. induction keys as [|x keys IH] using rev_ind; [done|]. intros Hk.
  rewrite not_elem_of_app, list_elem_of_singleton in Hk. destruct Hk as [Hk Hx].
  rewrite imap_app, foldl_app. simpl. rewrite lookup_insert_ne by done. by apply IH.
Qed.

#[export] Instance fallback_le_total : Total fallback_le.
Proof.
  intros a b. unfold fallback_le, fallback_less. destruct (Z.eqb_spec (InFlight a) (InFlight b)) as [He|He].
  - rewrite He, Z.eqb_refl. apply (key_le_total (Key a) (Key b)).
  - rewrite (proj2 (Z.eqb_neq (InFlight b) (InFlight a))) by done. lia.
Qed.

#[export] Instance fallback_le_trans : Transitive fallback_le.
Proof.
  intros a b c. unfold fallback_le, fallback_less.
  destruct (Z.eqb_spec (InFlight b) (InFlight a)), (Z.eqb_spec (InFlight c) (InFlight b)),
    (Z.eqb_spec (InFlight c) (InFlight a)); try lia.
  apply (key_le_trans (Key a) (Key b) (Key c)).
Qed.

Lemma fallback_le_antisym a b : fallback_le a b → fallback_le b a → Key a = Key b.
Proof.
  unfold fallback_le, fallback_less. destruct (Z.eqb_spec (InFlight b) (InFlight a)) as [He|He].
  - rewrite He, Z.eqb_refl. intros H1 H2. by apply less_total.
  - rewrite (proj2 (Z.eqb_neq (InFlight a) (InFlight b))) by done. lia.
Qed.

Section Select.
Context (cands : list Candidate) (d : PrefixDecision) (cfg : Config) (w : spec_float).
Hypothesis cands_nodup : NoDup (map Key cands).
Hypothesis cands_few : length cands ≤ max_replicas.
Hypothesis cold_nodup : NoDup d.(ColdOrder).
Hypothesis cold_few : length d.(ColdOrder) ≤ max_replicas.
Hypothesis w_separates : separates w = true.
Hypothesis weight_w : scorerWeight cfg.(ScorerWeights) ScorerPrefixCache one = w.

(** A strong enough match. *)
Definition strong : bool := d.(HasHot) && SFleb cfg.(MinPrefixMatch) d.(MatchRatio).

Definition fallback_order : list Candidate := merge_sort fallback_le cands.

(** The three signals, strongest first. *)
Inductive signal (c : Candidate) (x : spec_float) : Prop :=
| signal_hot : strong = true → Key c = d.(Hot) → x = one → signal c x
| signal_cold i : (strong = true → Key c ≠ d.(Hot)) → d.(ColdOrder) !! i = Some (Key c) →
    x = cold_score (length d.(ColdOrder)) i → signal c x
| signal_fallback i : (strong = true → Key c ≠ d.(Hot)) → Key c ∉ d.(ColdOrder) → fallback_order !! i = Some c →
    x = fallback_score (length fallback_order) i → signal c x.

Lemma length_fallback : length fallback_order = length cands.
Proof. unfold fallback_order. by rewrite merge_sort_Permutation. Qed.

Lemma scored c : c ∈ cands → ∃ x, preference_scores cands d cfg !! Key c = Some x ∧ signal c x.
Proof.
  intros Hc. unfold preference_scores. fold strong. fold fallback_order.
  assert (Hin : c ∈ fallback_order) by (unfold fallback_order; by rewrite merge_sort_Permutation).
  apply list_elem_of_lookup_1 in Hin as [i Hi].
  assert (Hnd : NoDup (map Key fallback_order)).
  { change (NoDup (Key <$> fallback_order)). unfold fallback_order. by rewrite merge_sort_Permutation. }
  assert (Hbase : strong = true ∧ Key c = d.(Hot) ∨ (strong = true → Key c ≠ d.(Hot))).
  { destruct (decide (Key c = Hot d)); [destruct strong; auto|auto]. }
  set (m1 := put_scores (fallback_score (length fallback_order)) (map Key fallback_order) ∅).
  set (m2 := put_scores (cold_score (length d.(ColdOrder))) d.(ColdOrder) m1).
  assert (Hm2 : (strong = true → Key c ≠ d.(Hot)) → ∃ x, m2 !! Key c = Some x ∧ signal c x).
  { intros Hnot. destruct (decide (Key c ∈ d.(ColdOrder))) as [Hcold|Hcold].
    - apply list_elem_of_lookup_1 in Hcold as [j Hj]. eexists. split; [by apply put_scores_in|]. by eapply signal_cold.
    - eexists. unfold m2. rewrite put_scores_out by done. split; [|by eapply (signal_fallback c _ i)].
      apply put_scores_in; [done|]. change (map Key fallback_order) with (Key <$> fallback_order).
      by rewrite list_lookup_fmap, Hi. }
  destruct Hbase as [[Hs Hk]|Hnot].
  - rewrite Hs, Hk. exists one. rewrite lookup_insert_eq. split; [done|]. by apply signal_hot.
  - destruct strong eqn:Hs; [|by apply Hm2]. rewrite lookup_insert_ne; [by apply Hm2|]. intros Hh. by apply Hnot.
Qed.

(** What the pipeline adds up for a candidate, and its rank. *)
Definition total_score (c : Candidate) : spec_float :=
  score (MkPipeline [loadGuardFilter cfg]
    [MkWeightedScorer (Some (prefixPreferenceScorer cands d cfg)) w]) c.

(** The weight does not disable the scorer: it is not at most zero. *)
Lemma separates_positive : SFleb w (float64 0) = false.
Proof. unfold separates in w_separates. by bool_hyps. Qed.

(** The signal decides the rank. *)
Lemma total_scored c :
  c ∈ cands → ∃ x, signal c x ∧ normal (total_score c) = true ∧ rank (total_score c) = rank (final_score w x).
Proof.
  intros Hc. destruct (scored c Hc) as (x & Hx & Hs). exists x. split; [done|].
  unfold total_score, score, prefixPreferenceScorer. cbn [foldl Scorers Scorer ws_Weight]. rewrite Hx.
  rewrite separates_positive. fold (final_score w x). split; [|done].
  destruct Hs as [? _ ->|i _ Hi ->|i _ _ Hi ->]; [by apply separates_bands| |]; apply lookup_lt_Some in Hi.
  - destruct (scores_at w w_separates _ _ cold_few Hi) as (_ & H & _). by apply score_ok_final in H as [? _].
  - destruct (scores_at w w_separates (length fallback_order) i) as (H & _); [by rewrite length_fallback|done|].
    by apply score_ok_final in H as [? _].
Qed.

(** A candidate whose signal is stronger than that of another. *)
Definition beats (c c' : Candidate) : Prop :=
  (strong = true ∧ Key c = d.(Hot)) ∨
  ((strong = true → Key c' ≠ d.(Hot)) ∧
   ((∃ i, d.(ColdOrder) !! i = Some (Key c) ∧ ∀ j, d.(ColdOrder) !! j = Some (Key c') → i < j) ∨
    (Key c ∉ d.(ColdOrder) ∧ Key c' ∉ d.(ColdOrder) ∧ fallback_le c c'))).

Lemma same_key c c' : c ∈ cands → c' ∈ cands → Key c = Key c' → c = c'.
Proof.
  intros [i Hi]%list_elem_of_lookup_1 [j Hj]%list_elem_of_lookup_1 Hk.
  enough (i = j) as -> by congruence. apply (NoDup_lookup (Key <$> cands) i j (Key c)); [exact cands_nodup| |];
    rewrite list_lookup_fmap; [by rewrite Hi|by rewrite Hj, Hk].
Qed.

Lemma cold_above i : i < length d.(ColdOrder) →
  (rank (final_score w half) < rank (final_score w (cold_score (length d.(ColdOrder)) i)) ≤ rank (final_score w three_quarters))%Z.
Proof. intros Hi. destruct (scores_at w w_separates _ _ cold_few Hi) as (_ & H & _). by apply score_ok_final in H as [_ ?]. Qed.

Lemma fallback_below i : i < length fallback_order →
  (rank (final_score w (fallback_score (length fallback_order) i)) ≤ rank (final_score w quarter))%Z.
Proof.
  intros Hi. destruct (scores_at w w_separates (length fallback_order) i) as (H & _); [by rewrite length_fallback|done|].
  apply score_ok_final in H as [_ ?]. lia.
Qed.

(** The order of two positions of the fallback order. *)
Lemma fallback_first c c' i j :
  fallback_order !! i = Some c → fallback_order !! j = Some c' → fallback_le c c' → c ≠ c' → i < j.
Proof.
  intros Hi Hj Hle Hne. destruct (decide (i < j)) as [|Hge]; [done|]. exfalso. apply Hne.
  assert (i ≠ j) by (intros ->; congruence).
  assert (Hin : ∀ k x, fallback_order !! k = Some x → x ∈ cands).
  { intros k x Hk%list_elem_of_lookup_2. unfold fallback_order in Hk. by rewrite merge_sort_Permutation in Hk. }
  apply same_key; [by eapply Hin|by eapply Hin|]. apply fallback_le_antisym; [done|].
  eapply (StronglySorted_app_1_elem_of fallback_le (take i fallback_order) (drop i fallback_order)).
  - rewrite take_drop. apply Sorted_StronglySorted, Sorted_merge_sort; apply _.
  - apply (list_elem_of_lookup_2 _ j). rewrite lookup_take_lt by lia. done.
  - apply (list_elem_of_lookup_2 _ 0). rewrite lookup_drop, Nat.add_0_r. done.
Qed.

Lemma beats_rank c c' :
  c ∈ cands → c' ∈ cands → c ≠ c' → beats c c' → (rank (total_score c') < rank (total_score c))%Z.
Proof.
  intros Hc Hc' Hne Hb. destruct (total_scored c Hc) as (x & Hx & _ & ->).
  destruct (total_scored c' Hc') as (x' & Hx' & _ & ->).
  assert (Hdiff : Key c ≠ Key c') by (intros ?; by apply Hne, same_key).
  pose proof (separates_bands w w_separates) as (_ & Hbands & Hone).
  destruct Hx as [Hs Hk ->|i Hnot Hi ->|i Hnot Hout Hi ->]; destruct Hx' as [Hs' Hk' ->|j Hnot' Hj ->|j Hnot' Hout' Hj ->];
    destruct Hb as [[Hs2 Hk2]|[Hn2 [(k & Hk2 & Hlt)|(Ho1 & Ho2 & Hle)]]];
    try congruence; try (exfalso; by apply Hnot); try (exfalso; by apply Hn2);
    try (exfalso; first [by eapply Hout, list_elem_of_lookup_2|by eapply Ho1, list_elem_of_lookup_2|by eapply Ho2, list_elem_of_lookup_2]).
  all: repeat match goal with
    | H : ColdOrder d !! ?n = Some _ |- context [cold_score _ ?n] =>
        lazymatch goal with
        | _ : n < length (ColdOrder d) |- _ => fail
        | _ => pose proof (lookup_lt_Some _ _ _ H); pose proof (cold_above n ltac:(by eapply lookup_lt_Some))
        end
    | H : fallback_order !! ?n = Some _ |- context [fallback_score _ ?n] =>
        lazymatch goal with
        | _ : n < length fallback_order |- _ => fail
        | _ => pose proof (lookup_lt_Some _ _ _ H); pose proof (fallback_below n ltac:(by eapply lookup_lt_Some))
        end
    end; try lia.
  - assert (i = k) as -> by (by eapply NoDup_lookup). apply cold_decreasing; [done|done|by apply Hlt|done].
  - apply fallback_decreasing; [done|by rewrite length_fallback| |done]. by eapply fallback_first.
Qed.

(** The highest score wins. *)
Lemma best_of (f : Candidate → spec_float) rest best :
  (∀ c, c ∈ best :: rest → normal (f c) = true) →
  ∃ b, b ∈ best :: rest ∧ foldl better (best, f best) (map (λ c, (c, f c)) rest) = (b, f b) ∧
    ∀ c, c ∈ best :: rest → (rank (f c) ≤ rank (f b))%Z.
Proof.
  revert best. induction rest as [|x rest IH]; intros best Hn.
  { exists best. split_and!; [by left|done|]. intros c ->%list_elem_of_singleton. lia. }
  assert (Hstep : ∃ y, (y = best ∨ y = x) ∧ better (best, f best) (x, f x) = (y, f y) ∧
    (rank (f best) ≤ rank (f y))%Z ∧ (rank (f x) ≤ rank (f y))%Z).
  { unfold better. cbn [fst snd]. rewrite SFltb_rank, SFeqb_rank by (apply Hn; set_solver).
    destruct (_ || _) eqn:Hb; [exists x|exists best]; split_and!; auto; lia. }
  destruct Hstep as (y & Hy & Hb & Hle1 & Hle2). cbn [map foldl]. rewrite Hb.
  destruct (IH y) as (b & Hw & Hf & Hmax); [intros c Hc; apply Hn; set_solver|].
  exists b. split_and!; [destruct Hy as [-> | ->]; set_solver|done|]. intros c Hc.
  assert (rank (f y) ≤ rank (f b))%Z by (apply Hmax; by left).
  apply elem_of_cons in Hc as [->|[->|Hc]%elem_of_cons]; [lia|lia|]. apply Hmax. by right.
Qed.

(** The choice the scores stand for: the hot replica when the match is strong
    and the load guard lets it through, else the first cold target that it
    lets through, else the least loaded candidate. *)
Definition reference_pick (eligible : list Candidate) : option ReplicaKey :=
  if strong && bool_decide (d.(Hot) ∈ map Key eligible) then Some d.(Hot) else
  match list_find (λ k, k ∈ map Key eligible) d.(ColdOrder) with
  | Some (_, k) => Some k
  | None => Key <$> head (merge_sort fallback_le eligible)
  end.

Lemma reference_beats eligible :
  eligible ≠ [] → eligible ⊆ cands → ∃ c, c ∈ eligible ∧ reference_pick eligible = Some (Key c) ∧ ∀ c', c' ∈ eligible → c' ≠ c → beats c c'.
Proof.
  intros Hne Hsub. unfold reference_pick.
  assert (Hkey : ∀ c, c ∈ eligible → Key c ∈ map Key eligible) by (intros c Hc; by apply (list_elem_of_fmap_2 Key)).
  destruct (strong && _) eqn:Hhot.
  { bool_hyps. apply (list_elem_of_fmap Key) in H0 as (c & Hk & Hc). exists c.
    split_and!; [done|by rewrite Hk|]. intros c' _ _. by left. }
  assert (Hnot : ∀ c, c ∈ eligible → strong = true → Key c ≠ d.(Hot)).
  { intros c Hc Hs Hk. rewrite Hs, <- Hk, bool_decide_eq_true_2 in Hhot by by apply Hkey. done. }
  destruct (list_find _ _) as [[i k]|] eqn:Hfind.
  - apply list_find_Some in Hfind as (Hi & Hin & Hfirst). apply (list_elem_of_fmap Key) in Hin as (c & -> & Hc).
    exists c. split_and!; [done|done|]. intros c' Hc' Hdiff. right. split; [by apply Hnot|]. left. exists i.
    split; [done|]. intros j Hj. destruct (decide (j < i)) as [Hlt|]; [exfalso; by eapply Hfirst, Hkey|].
    destruct (decide (i = j)) as [->|]; [|lia]. exfalso. apply Hdiff, same_key; [by apply Hsub..|congruence].
  - assert (Hnone : ∀ c, c ∈ eligible → Key c ∉ d.(ColdOrder)).
    { intros c Hc Hin. apply list_find_None in Hfind. rewrite Forall_forall in Hfind. by eapply Hfind, Hkey. }
    pose proof (Sorted_merge_sort fallback_le eligible) as Hsort.
    pose proof (merge_sort_Permutation fallback_le eligible) as Hperm.
    destruct (merge_sort fallback_le eligible) as [|c rest] eqn:Hm.
    { by apply Permutation_nil_l in Hperm. }
    exists c. split_and!; [rewrite <- Hperm; by left|done|]. intros c' Hc' Hdiff. right. split; [by apply Hnot|]. right.
    split_and!; [apply Hnone; rewrite <- Hperm; by left|by apply Hnone|].
    rewrite <- Hperm in Hc'. apply elem_of_cons in Hc' as [->|Hc']; [done|].
    apply Sorted_StronglySorted in Hsort; [|apply _]. apply StronglySorted_inv in Hsort as [_ Hall].
    rewrite Forall_forall in Hall. by apply Hall.
Qed.

Lemma loadGuardFilter_sub : loadGuardFilter cfg cands ⊆ cands.
Proof.
  intros x. unfold loadGuardFilter. destruct cands as [|c rest] in |- *; [done|].
  rewrite !list_elem_of_In, filter_In. by intros [? _].
Qed.

(** With one entry per replica, at most 32 of them, and a weight that
    separates the scores, the pipeline picks what the order of signals asks
    for. *)
Lemma Select_reference : Select cands d cfg =
  match loadGuardFilter cfg cands with [] => None | eligible => reference_pick eligible end.
Proof.
  rewrite Select_Pick. unfold Pick. cbn [foldl Filters]. pose proof loadGuardFilter_sub as Hsub.
  destruct (loadGuardFilter cfg cands) as [|best rest] eqn:Helig; [done|].
  destruct (reference_beats (best :: rest)) as (r & Hr & -> & Hbeats); [done|done|].
  rewrite weight_w. unfold HighestScorePicker_Pick.
  change (map _ (best :: rest)) with ((best, total_score best) :: map (λ c, (c, total_score c)) rest). cbv iota.
  destruct (best_of total_score rest best) as (b & Hb & -> & Hmax).
  { intros c Hc%Hsub. by destruct (total_scored c Hc) as (? & _ & ? & _). }
  cbn [fst]. do 2 f_equal. destruct (decide (b = r)) as [|Hne]; [done|]. exfalso.
  pose proof (Hmax r Hr). pose proof (beats_rank r b (Hsub r Hr) (Hsub b Hb) (not_eq_sym Hne) (Hbeats b Hb Hne)). lia.
Qed.

End Select.

(** ** The policy

    What the documentation promises of a choice, without scores or filters. *)
Section Policy.
Context (cands : list Candidate) (d : PrefixDecision) (cfg : Config).

(** The load guard: against the least loaded replica, both thresholds hold. *)
Definition admitted (c : Candidate) : Prop :=
  c ∈ cands ∧ ∃ m, (∃ c0, c0 ∈ cands ∧ c0.(InFlight) = m) ∧ (∀ c', c' ∈ cands → m ≤ c'.(InFlight))%Z ∧
    (c.(InFlight) ≤ m + cfg.(BalanceAbsThreshold))%Z ∧
    SFleb (float64 c.(InFlight)) (fadd (fmul (float64 m) cfg.(BalanceRelThreshold)) one) = true.

Definition offered (k : ReplicaKey) : Prop := ∃ c, admitted c ∧ Key c = k.

Definition strong_match : Prop := d.(HasHot) = true ∧ SFleb cfg.(MinPrefixMatch) d.(MatchRatio) = true.

Definition lighter (c c' : Candidate) : Prop :=
  (c.(InFlight) < c'.(InFlight))%Z ∨ c.(InFlight) = c'.(InFlight) ∧ key_le (Key c) (Key c').

(** The hot replica when the match is strong and the guard lets it through,
    else the first cold target that the guard lets through, else the least
    loaded one. *)
Definition preferred (c : Candidate) : Prop :=
  strong_match ∧ Key c = d.(Hot) ∨
  ¬ (strong_match ∧ offered d.(Hot)) ∧
    ((∃ i, d.(ColdOrder) !! i = Some (Key c) ∧ ∀ j k, j < i → d.(ColdOrder) !! j = Some k → ¬ offered k) ∨
     (∀ k, k ∈ d.(ColdOrder) → ¬ offered k) ∧ ∀ c', admitted c' → lighter c c').

(** The weight the settings give the prefix scorer. *)
Definition weight_is (w : spec_float) : Prop :=
  cfg.(ScorerWeights) !! ScorerPrefixCache = Some w ∨ cfg.(ScorerWeights) !! ScorerPrefixCache = None ∧ w = one.

(** The sums of the absolute guard are integers of the machine. *)
Definition counts_fit : Prop :=
  ∀ c, c ∈ cands → (- 2 ^ 63 ≤ c.(InFlight) + cfg.(BalanceAbsThreshold) < 2 ^ 63)%Z.

Lemma strong_iff : strong d cfg = true ↔ strong_match.
Proof. unfold strong, strong_match. by rewrite andb_true_iff. Qed.

Lemma fallback_le_lighter c c' : fallback_le c c' → lighter c c'.
Proof.
  unfold fallback_le, fallback_less, lighter, key_le. destruct (Z.eqb_spec (InFlight c') (InFlight c)) as [He|He]; [auto|].
  intros H. left. lia.
Qed.

(** The loop of the filter finds the least load. *)
Lemma min_in_flight_spec rest c :
  (∃ c0, c0 ∈ c :: rest ∧ c0.(InFlight) = min_in_flight c rest) ∧
  (∀ c', c' ∈ c :: rest → min_in_flight c rest ≤ c'.(InFlight))%Z.
Proof.
  unfold min_in_flight. enough (∀ z, (z = foldl (λ m c, Z.min m c.(InFlight)) z rest ∨
      ∃ c0, c0 ∈ rest ∧ c0.(InFlight) = foldl (λ m c, Z.min m c.(InFlight)) z rest) ∧
      (foldl (λ m c, Z.min m c.(InFlight)) z rest ≤ z)%Z ∧
      ∀ c', c' ∈ rest → (foldl (λ m c, Z.min m c.(InFlight)) z rest ≤ c'.(InFlight))%Z) as Hgen.
  { destruct (Hgen (InFlight c)) as (H1 & H2 & H3). split.
    - destruct H1 as [H1|(c0 & Hc0 & H1)]; [exists c|exists c0]; split; [by left|done|by right|done].
    - intros c' [->|Hc']%elem_of_cons; [done|by apply H3]. }
  induction rest as [|x rest IH]; intros z; simpl.
  - split_and!; [by left|done|]. by intros ? ?%not_elem_of_nil.
  - destruct (IH (Z.min z (InFlight x))) as (H1 & H2 & H3). split_and!; [|lia|].
    + destruct H1 as [H1|(c0 & Hc0 & H1)]; [|right; exists c0; split; [by right|done]].
      destruct (Z.min_spec z (InFlight x)) as [[? Hm]|[? Hm]]; rewrite Hm in *; [by left|].
      right. exists x. split; [by left|done].
    + intros c' [->|Hc']%elem_of_cons; [lia|by apply H3].
Qed.

Lemma least_unique m m' :
  (∃ c0, c0 ∈ cands ∧ c0.(InFlight) = m) → (∀ c', c' ∈ cands → m ≤ c'.(InFlight))%Z →
  (∃ c0, c0 ∈ cands ∧ c0.(InFlight) = m') → (∀ c', c' ∈ cands → m' ≤ c'.(InFlight))%Z → m = m'.
Proof. intros (c & Hc & <-) H1 (c' & Hc' & <-) H2. specialize (H1 c' Hc'). specialize (H2 c Hc). lia. Qed.

(** The filter lets through exactly the admitted candidates. *)
Lemma guard_admitted c : counts_fit → c ∈ loadGuardFilter cfg cands ↔ admitted c.
Proof.
  intros Hfit. unfold loadGuardFilter, admitted. destruct cands as [|x rest] eqn:Hcands; [set_solver|].
  destruct (min_in_flight_spec rest x) as [Hmin Hle]. rewrite list_elem_of_In, filter_In, <-list_elem_of_In.
  unfold within_guard. rewrite andb_true_iff, Z.leb_le.
  assert (Hw : wrap64 (min_in_flight x rest + BalanceAbsThreshold cfg) = (min_in_flight x rest + BalanceAbsThreshold cfg)%Z).
  { apply wrap64_id. destruct Hmin as (c0 & Hc0 & <-). apply Hfit. by rewrite Hcands. }
  rewrite Hw. split.
  - intros (Hc & Habs & Hrel). split; [done|]. by exists (min_in_flight x rest).
  - intros (Hc & m & Hm1 & Hm2 & Habs & Hrel). split; [done|].
    assert (m = min_in_flight x rest) as -> by (eapply least_unique; rewrite ?Hcands; eauto). done.
Qed.

(** What the order of signals picks is preferred. *)
Lemma reference_preferred c :
  counts_fit → NoDup (map Key cands) → c ∈ loadGuardFilter cfg cands →
  reference_pick d cfg (loadGuardFilter cfg cands) = Some (Key c) → preferred c.
Proof.
  intros Hfit Hnd Hc. set (el := loadGuardFilter cfg cands) in *.
  assert (Hoff : ∀ k, offered k ↔ k ∈ map Key el).
  { intros k. unfold offered. change (map Key el) with (Key <$> el). rewrite list_elem_of_fmap.
    split; intros (x & H1 & H2); exists x; [split; [done|by apply guard_admitted]|split; [by apply guard_admitted|done]]. }
  unfold reference_pick, preferred. destruct (strong d cfg && _) eqn:Hhot.
  { bool_hyps. intros [= Hk]. left. split; [by apply strong_iff|done]. }
  assert (Hnhot : ¬ (strong_match ∧ offered d.(Hot))).
  { intros [Hs%strong_iff Ho%Hoff]. by rewrite Hs, bool_decide_eq_true_2 in Hhot. }
  intros Hpick. right. split; [done|]. destruct (list_find _ _) as [[i k]|] eqn:Hfind.
  - injection Hpick as ->. apply list_find_Some in Hfind as (Hi & _ & Hfirst). left. exists i. split; [done|].
    intros j k Hj Hk Ho%Hoff. by eapply Hfirst.
  - right. apply list_find_None in Hfind. rewrite Forall_forall in Hfind.
    split; [intros k Hk Ho%Hoff; by eapply Hfind|]. intros c' Hc'%(guard_admitted _ Hfit).
    destruct (merge_sort fallback_le el) as [|b rest] eqn:Hm; [done|]. simpl in Hpick. injection Hpick as Hb.
    pose proof (merge_sort_Permutation fallback_le el) as Hperm. rewrite Hm in Hperm.
    assert (b = c) as ->.
    { apply (same_key cands Hnd); [|by apply (loadGuardFilter_sub cands cfg)|done].
      apply (loadGuardFilter_sub cands cfg). fold el. rewrite <- Hperm. by left. }
    apply fallback_le_lighter. pose proof (Sorted_merge_sort fallback_le el) as Hsort. rewrite Hm in Hsort.
    apply Sorted_StronglySorted in Hsort; [|apply _]. apply StronglySorted_inv in Hsort as [_ Hall].
    fold el in Hc'. rewrite <- Hperm in Hc'. apply elem_of_cons in Hc' as [->|Hc'].
    + unfold fallback_le, fallback_less. rewrite Z.eqb_refl. apply less_irrefl.
    + rewrite Forall_forall in Hall. by apply Hall.
Qed.

(** With the scorer disabled every score is zero and the least key wins. *)
Lemma best_of_ties rest best z :
  SFltb z z = false → SFeqb z z = true →
  ∃ b, b ∈ best :: rest ∧ (foldl better (best, z) (map (λ c, (c, z)) rest)) = (b, z) ∧
    ∀ c, c ∈ best :: rest → key_le (Key b) (Key c).
Proof.
  intros Hlt Heq. revert best. induction rest as [|x rest IH]; intros best.
  { exists best. split_and!; [by left|done|]. intros c ->%list_elem_of_singleton. apply less_irrefl. }
  assert (Hstep : ∃ y, (y = best ∨ y = x) ∧ better (best, z) (x, z) = (y, z) ∧
    key_le (Key y) (Key best) ∧ key_le (Key y) (Key x)).
  { unfold better. cbn [fst snd]. rewrite Hlt, Heq. cbn [orb andb]. unfold key_le.
    destruct (less (Key x) (Key best)) eqn:Hl; [exists x|exists best]; split_and!; auto using less_irrefl.
    destruct (less (Key best) (Key x)) eqn:Hl2; [|done].
    pose proof (less_trans _ _ _ Hl Hl2) as H. by rewrite less_irrefl in H. }
  destruct Hstep as (y & Hy & Hb & Hle1 & Hle2). cbn [map foldl]. rewrite Hb.
  destruct (IH y) as (b & Hw & Hf & Hmax).
  exists b. split_and!; [destruct Hy as [-> | ->]; set_solver|done|]. intros c Hc.
  assert (key_le (Key b) (Key y)) by (apply Hmax; by left).
  apply elem_of_cons in Hc as [->|[->|Hc]%elem_of_cons]; [by etrans|by etrans|]. apply Hmax. by right.
Qed.

Lemma Select_disabled w :
  scorerWeight cfg.(ScorerWeights) ScorerPrefixCache one = w → SFleb w (float64 0) = true →
  match Select cands d cfg with
  | None => loadGuardFilter cfg cands = []
  | Some k => ∃ c, c ∈ loadGuardFilter cfg cands ∧ Key c = k ∧ ∀ c', c' ∈ loadGuardFilter cfg cands → key_le k (Key c')
  end.
Proof.
  intros Hw Hoff. rewrite Select_Pick, Hw. unfold Pick. cbn [foldl Filters].
  destruct (loadGuardFilter cfg cands) as [|best rest]; [done|]. unfold score. cbn [foldl Scorers Scorer ws_Weight map].
  rewrite Hoff. unfold HighestScorePicker_Pick.
  destruct (best_of_ties rest best (float64 0)) as (b & Hb & Hf & Hmin); [vm_compute; reflexivity|vm_compute; reflexivity|].
  rewrite Hf. by exists b.
Qed.
End Policy.

(** C15. The floating-point pipeline decides as the policy is documented.  With
    one candidate per replica, at most 32 of them, a cold order without
    repetitions and of at most 32, and in-flight counts whose sum with the
    absolute threshold fits an [int], [Select] returns nothing exactly when the
    load guard admits nobody (a replica is admitted when its requests in flight
    exceed those of the least loaded one by at most the absolute threshold and
    are at most its multiple by the relative threshold plus one, in 64-bit
    floats), and otherwise an admitted replica.  When the weight of the prefix
    scorer, configured or one by default, is one that separates the scores (1
    does, and so do 1/2, 1/10 and 2), it is the hot replica if the match is
    strong and the guard admits it, else the first admitted one of the cold
    order, else the least loaded admitted one, ties broken by node and replica.
    When the weight disables the scorer (zero), it is the admitted replica that
    is first by node and replica. *)
Theorem select_policy cands d cfg w :
  NoDup (map Key cands) → length cands ≤ max_replicas →
  NoDup d.(ColdOrder) → length d.(ColdOrder) ≤ max_replicas → counts_fit cands cfg →
  weight_is cfg w → SFleb w (float64 0) = true ∨ separates w = true →
  match Select cands d cfg with
  | None => ∀ c, ¬ admitted cands cfg c
  | Some k => ∃ c, admitted cands cfg c ∧ Key c = k ∧
      if SFleb w (float64 0) then ∀ c', admitted cands cfg c' → key_le (Key c) (Key c')
      else preferred cands d cfg c
  end.
Proof.
  intros Hnd Hlen Hcold Hclen Hfit Hw Hcase.
  assert (Hweight : scorerWeight cfg.(ScorerWeights) ScorerPrefixCache one = w)
    by (unfold scorerWeight; by destruct Hw as [-> | [-> ->]]).
  assert (Hnone : loadGuardFilter cfg cands = [] → ∀ c, ¬ admitted cands cfg c)
    by (intros He c Hc%guard_admitted; [rewrite He in Hc; by apply not_elem_of_nil in Hc|done]).
  destruct (SFleb w (float64 0)) eqn:Hoff.
  - pose proof (Select_disabled cands d cfg w Hweight Hoff) as H.
    destruct (Select cands d cfg) as [k|]; [|by apply Hnone]. destruct H as (c & Hc & <- & Hmin).
    exists c. split_and!; [by apply guard_admitted|done|]. intros c' Hc'. by apply Hmin, guard_admitted.
  - destruct Hcase as [?|Hsep]; [done|].
    rewrite (Select_reference cands d cfg w Hnd Hlen Hcold Hclen Hsep Hweight).
    pose proof (loadGuardFilter_sub cands cfg) as Hsub.
    pose proof (λ c, reference_preferred cands d cfg c Hfit Hnd) as Hpref.
    pose proof (λ c, proj1 (guard_admitted cands cfg c Hfit)) as Hadm.
    destruct (loadGuardFilter cfg cands) as [|x rest] eqn:Hel; [by apply Hnone|].
    destruct (reference_beats cands d cfg w Hnd Hlen Hclen Hsep Hweight (x :: rest)) as (c & Hc & Hr & _); [done|done|].
    rewrite Hr. exists c. split_and!; [by apply Hadm|done|by apply Hpref].
Qed.

(** ** Witnesses *)

(** A hash for the witness: a sum of the bytes that depends on their order. *)
Definition toy_hash : Hasher := λ l, foldl (λ h c, (h * 31 + N_of_ascii c) mod 2 ^ 64)%N 7%N l.

Lemma chain_extends_witness :
  Validate (MkConfig RoutePolicyPrefixCache (const 3 10) 2 (const 3 2) 1 1 4 3 1 1 ∅) = None ∧
  ∃ l l' : list N,
    ExtractChain (H := toy_hash) "m" "abcdefgh" (MkConfig RoutePolicyPrefixCache (const 3 10) 2 (const 3 2) 1 1 4 3 1 1 ∅) = Some l ∧
    ExtractChain (H := toy_hash) "m" "abcdefghij" (MkConfig RoutePolicyPrefixCache (const 3 10) 2 (const 3 2) 1 1 4 3 1 1 ∅) = Some l' ∧
    length l = 2 ∧ length l' = 3 ∧ l `prefix_of` l'.
Proof.
  split; [vm_compute; reflexivity|].
  destruct (chain_extends (H := toy_hash) "m" "abcdefgh" "ij"
    (MkConfig RoutePolicyPrefixCache (const 3 10) 2 (const 3 2) 1 1 4 3 1 1 ∅)) as (l & l' & H1 & H2 & H3 & H4 & _ & H6);
    [vm_compute; reflexivity|].
  exists l, l'. split_and!; [exact H1|exact H2|rewrite H3; vm_compute; reflexivity|rewrite H4; vm_compute; reflexivity|].
  apply H6. vm_compute. discriminate.
Defined.

(** The hot replica is overloaded, so the first cold target within the guard
    takes the request. *)
Definition overloaded_cands : list Candidate :=
  [MkCandidate (MkReplicaKey "a" 0) 9; MkCandidate (MkReplicaKey "b" 0) 1; MkCandidate (MkReplicaKey "b" 1) 2].

Definition overloaded_decision : PrefixDecision :=
  MkDecision (MkReplicaKey "a" 0) true (float64 1) [MkReplicaKey "a" 0; MkReplicaKey "b" 1; MkReplicaKey "b" 0].

(** The sum of the absolute guard wraps: with a threshold near the largest
    [int], which the validation accepts, and a busy cluster nobody is let
    through. *)
Example abs_threshold_wraps :
  let cfg := MkConfig RoutePolicyPrefixCache (const 3 10) (2 ^ 63 - 1) (const 3 2) (5 * Minute) (2 * Minute) 256 64 Minute 1 ∅ in
  Validate cfg = None ∧ Select overloaded_cands overloaded_decision cfg = None.
Proof. by vm_compute. Qed.

(** The same with the scorer disabled. *)
Definition unscored_config : Config :=
  MkConfig RoutePolicyPrefixCache (const 3 10) 2 (const 3 2) (5 * Minute) (2 * Minute) 256 64 Minute 1
    {[ ScorerPrefixCache := float64 0 ]}.

Example select_unscored : Select overloaded_cands overloaded_decision unscored_config = Some (MkReplicaKey "b" 0).
Proof. vm_compute. reflexivity. Qed.

Lemma select_policy_witness :
  Select overloaded_cands overloaded_decision DefaultConfig = Some (MkReplicaKey "b" 1) ∧
  (∃ c, admitted overloaded_cands DefaultConfig c ∧ Key c = MkReplicaKey "b" 1 ∧
     preferred overloaded_cands overloaded_decision DefaultConfig c) ∧
  ∃ c, admitted overloaded_cands unscored_config c ∧ Key c = MkReplicaKey "b" 0.
Proof.
  assert (Hfit : ∀ cfg, BalanceAbsThreshold cfg = 2%Z → counts_fit overloaded_cands cfg).
  { intros cfg H c Hc. rewrite H. repeat (apply elem_of_cons in Hc as [->|Hc]; [simpl; lia|]).
    by apply not_elem_of_nil in Hc. }
  assert (H : ∀ cfg w, BalanceAbsThreshold cfg = 2%Z → weight_is cfg w → SFleb w (float64 0) = true ∨ separates w = true → _)
    by (intros cfg w Habs Hw Hs; exact (select_policy overloaded_cands overloaded_decision cfg w
      ltac:(apply (bool_decide_unpack _); vm_compute; exact I) ltac:(apply (bool_decide_unpack _); vm_compute; exact I)
      ltac:(apply (bool_decide_unpack _); vm_compute; exact I) ltac:(apply (bool_decide_unpack _); vm_compute; exact I)
      (Hfit cfg Habs) Hw Hs)).
  split; [vm_compute; reflexivity|]. split.
  - pose proof (H DefaultConfig one eq_refl ltac:(left; vm_compute; reflexivity) ltac:(right; vm_compute; reflexivity)) as H1.
    assert (Select overloaded_cands overloaded_decision DefaultConfig = Some (MkReplicaKey "b" 1)) as E by (vm_compute; reflexivity).
    rewrite E in H1. exact H1.
  - pose proof (H unscored_config (float64 0) eq_refl ltac:(left; vm_compute; reflexivity) ltac:(left; vm_compute; reflexivity)) as H1.
    rewrite select_unscored in H1. destruct H1 as (c & H1 & H2 & _). exists c. split; assumption.
Defined.
