(* ===== verification/PegTypes.v ===== *)
(** * PegTypes: the data of the PEG engine and its UTF-8 decoder

    Models [pkg/functions/peg/types.go]: parse results, the arena of AST nodes
    and [parseUTF8Codepoint], over Go's [utf8.DecodeRuneInString] and
    [utf8.AppendRune].  A Go string is its list of bytes; positions in it are
    natural numbers, and reading out of range is [None]. *)
From Stdlib Require Import Ascii.
From S2P Require Import Prelude GoMonad.

(** ** Bytes *)

Definition code (c : ascii) : Z := Z.of_N (N_of_ascii c).
Definition byte_of (z : Z) : ascii := ascii_of_N (Z.to_N z).

Definition bytes (s : string) : list ascii := String.list_ascii_of_string s.

Lemma code_bound c : (0 ≤ code c < 256)%Z.
Proof. unfold code. pose proof (N_ascii_bounded c). lia. Qed.

Lemma code_byte_of z : (0 ≤ z < 256)%Z → code (byte_of z) = z.
Proof. intros H. unfold code, byte_of. rewrite N_ascii_embedding; lia. Qed.

Lemma byte_of_code c : byte_of (code c) = c.
Proof. unfold code, byte_of. rewrite N2Z.id. apply ascii_N_embedding. Qed.

#[export] Instance code_inj : Inj (=) (=) code.
Proof. intros c d H. by rewrite <- (byte_of_code c), H, byte_of_code. Qed.

(** A property of every byte, by computation. *)
Definition all_bytes : list ascii := map ascii_of_nat (seq 0 256).

Lemma byte_cases (P : ascii → bool) : forallb P all_bytes = true → ∀ c, P c = true.
Proof.
  rewrite forallb_forall. intros H c. apply H. unfold all_bytes. rewrite <- (ascii_nat_embedding c).
  apply in_map, in_seq. pose proof (nat_ascii_bounded c). lia.
Qed.

(** ** UTF-8 in Go's standard library *)

Definition RuneError : Z := 0xFFFD.

(** The table of lead bytes: the length of the sequence and the range of the
    second byte. *)
Definition lead (b : Z) : option (nat * Z * Z) :=
  if (b <? 0xC2)%Z then None
  else if (b <? 0xE0)%Z then Some (2, 0x80%Z, 0xBF%Z)
  else if (b =? 0xE0)%Z then Some (3, 0xA0%Z, 0xBF%Z)
  else if (b =? 0xED)%Z then Some (3, 0x80%Z, 0x9F%Z)
  else if (b <? 0xF0)%Z then Some (3, 0x80%Z, 0xBF%Z)
  else if (b =? 0xF0)%Z then Some (4, 0x90%Z, 0xBF%Z)
  else if (b <? 0xF4)%Z then Some (4, 0x80%Z, 0xBF%Z)
  else if (b =? 0xF4)%Z then Some (4, 0x80%Z, 0x8F%Z)
  else None.

Definition between (lo hi b : Z) : bool := (lo <=? b)%Z && (b <=? hi)%Z.
Definition cont (b : Z) : bool := between 0x80 0xBF b.

(** [utf8.DecodeRuneInString]: the rune and the number of bytes; [RuneError]
    and 1 when the bytes are not UTF-8, [RuneError] and 0 for no bytes. *)
Definition DecodeRuneInString (s : list ascii) : Z * nat :=
  match map code (take 4 s) with
  | [] => (RuneError, 0)
  | s0 :: rest =>
      if (s0 <? 0x80)%Z then (s0, 1) else
      match lead s0, rest with
      | Some (2, lo, hi), s1 :: _ =>
          if between lo hi s1 then (Z.lor (Z.shiftl (Z.land s0 0x1F) 6) (Z.land s1 0x3F), 2) else (RuneError, 1)
      | Some (3, lo, hi), s1 :: s2 :: _ =>
          if between lo hi s1 && cont s2
          then (Z.lor (Z.lor (Z.shiftl (Z.land s0 0x0F) 12) (Z.shiftl (Z.land s1 0x3F) 6)) (Z.land s2 0x3F), 3)
          else (RuneError, 1)
      | Some (4, lo, hi), s1 :: s2 :: s3 :: _ =>
          if between lo hi s1 && cont s2 && cont s3
          then (Z.lor (Z.lor (Z.lor (Z.shiftl (Z.land s0 0x07) 18) (Z.shiftl (Z.land s1 0x3F) 12))
                  (Z.shiftl (Z.land s2 0x3F) 6)) (Z.land s3 0x3F), 4)
          else (RuneError, 1)
      | _, _ => (RuneError, 1)
      end
  end.

(** [utf8.AppendRune] on a scalar value. *)
Definition scalar (r : Z) : bool := between 0 0xD7FF r || between 0xE000 0x10FFFF r.

Definition EncodeRune (r : Z) : list ascii :=
  map byte_of
    (if (r <? 0x80)%Z then [r]
     else if (r <? 0x800)%Z then [Z.lor 0xC0 (Z.shiftr r 6); Z.lor 0x80 (Z.land r 0x3F)]
     else if (r <? 0x10000)%Z then
       [Z.lor 0xE0 (Z.shiftr r 12); Z.lor 0x80 (Z.land (Z.shiftr r 6) 0x3F); Z.lor 0x80 (Z.land r 0x3F)]
     else
       [Z.lor 0xF0 (Z.shiftr r 18); Z.lor 0x80 (Z.land (Z.shiftr r 12) 0x3F); Z.lor 0x80 (Z.land (Z.shiftr r 6) 0x3F);
        Z.lor 0x80 (Z.land r 0x3F)]).

(** ** types.go *)

Abbreviation ParserID := nat (only parsing).
Abbreviation AstID := nat (only parsing).

Inductive ParseResultType := Fail | Success | NeedMoreInput.

#[export] Instance ParseResultType_eq_dec : EqDecision ParseResultType.
Proof. solve_decision. Defined.

Definition ParseResultType_String (t : ParseResultType) : string :=
  match t with Fail => "fail" | Success => "success" | NeedMoreInput => "need_more_input" end.

Record ParseResult := MkResult { Type_ : ParseResultType; Start : nat; End : nat; Nodes : list AstID }.

Definition NewParseResult (typ : ParseResultType) (start : nat) : ParseResult := MkResult typ start start [].
Definition NewParseResultRange (typ : ParseResultType) (start stop : nat) : ParseResult := MkResult typ start stop [].
Definition NewParseResultNodes (typ : ParseResultType) (start stop : nat) (nodes : list AstID) : ParseResult :=
  MkResult typ start stop nodes.

Record AstNode := MkNode {
  ID : AstID;
  Rule : string;
  Tag : string;
  node_Start : nat;
  node_End : nat;
  Text : list ascii;
  Children : list AstID;
  node_IsPartial : bool;
}.

Abbreviation AstArena := (list AstNode) (only parsing).

Definition AddNode (rule tag : string) (start stop : nat) (text : list ascii) (children : list AstID) (isPartial : bool)
    : M AstArena AstID :=
  a ← get; _ ← modify (λ a, a ++ [MkNode (length a) rule tag start stop text children isPartial]);
  mret (length a).

(** [Visit]: the nodes in the order the callback sees them; the fuel bounds
    the depth. *)
Fixpoint Visit (fuel : nat) (a : AstArena) (id : AstID) : option (list AstNode) :=
  match fuel with
  | O => None
  | S fuel =>
      node ← a !! id;
      below ← mapM (Visit fuel a) node.(Children);
      Some (node :: concat below)
  end.

Definition VisitResult (fuel : nat) (a : AstArena) (r : ParseResult) : option (list AstNode) :=
  l ← mapM (Visit fuel a) r.(Nodes); Some (concat l).

(** What a parser reads of its [ParseContext]; the AST is the state. *)
Record ParseContext := MkContext { Input : list ascii; IsPartial : bool }.

(** ** parseUTF8Codepoint *)

Inductive utf8Status := utf8Success | utf8Incomplete | utf8Invalid.

(** The length that the first byte announces. *)
Definition expectedLen (b : Z) : option nat :=
  if (Z.land b 0x80 =? 0)%Z then Some 1
  else if (Z.land b 0xE0 =? 0xC0)%Z then Some 2
  else if (Z.land b 0xF0 =? 0xE0)%Z then Some 3
  else if (Z.land b 0xF8 =? 0xF0)%Z then Some 4
  else None.

Definition parseUTF8Codepoint (input : list ascii) (pos : nat) : Z * nat * utf8Status :=
  match input !! pos with
  | None => (0%Z, 0, utf8Incomplete)
  | Some b =>
      let '(r, size) := DecodeRuneInString (drop pos input) in
      if (r =? RuneError)%Z then
        if Nat.eqb size 0 then (0%Z, 0, utf8Incomplete) else
        match expectedLen (code b) with
        | None => (0%Z, 0, utf8Invalid)
        | Some n =>
            if Nat.ltb (length input) (pos + n) then (0%Z, 0, utf8Incomplete) else (0%Z, 0, utf8Invalid)
        end
      else (r, size, utf8Success)
  end.

(** ** Lemmas about decoding *)

(** Linear arithmetic with division and remainder by constants. *)
Ltac modlia := Z.to_euclidean_division_equations; lia.

Lemma lor_shift a b k : (0 ≤ k)%Z → (0 ≤ b < 2 ^ k)%Z → Z.lor (Z.shiftl a k) b = (a * 2 ^ k + b)%Z.
Proof.
  intros Hk Hb. rewrite <- Z.add_nocarry_lor; [by rewrite Z.shiftl_mul_pow2|].
  apply Z.bits_inj'. intros i Hi. rewrite Z.land_spec, Z.bits_0.
  destruct (Z.ltb_spec i k).
  - by rewrite Z.shiftl_spec_low by lia.
  - destruct (decide (b = 0%Z)) as [->|]; [by rewrite Z.bits_0, andb_false_r|].
    rewrite (Z.bits_above_log2 b); [apply andb_false_r|lia|]. apply Z.log2_lt_pow2; [lia|].
    apply (Z.lt_le_trans _ (2 ^ k)); [lia|]. apply Z.pow_le_mono_r; lia.
Qed.

Lemma land_mask a k : (0 ≤ k)%Z → Z.land a (Z.ones k) = (a mod 2 ^ k)%Z.
Proof. intros. by apply Z.land_ones. Qed.

(** The masks and shifts of the decoder as arithmetic. *)
Lemma land_0x3F a : Z.land a 0x3F = (a mod 64)%Z.
Proof. exact (land_mask a 6 ltac:(lia)). Qed.
Lemma land_0x1F a : Z.land a 0x1F = (a mod 32)%Z.
Proof. exact (land_mask a 5 ltac:(lia)). Qed.
Lemma land_0x0F a : Z.land a 0x0F = (a mod 16)%Z.
Proof. exact (land_mask a 4 ltac:(lia)). Qed.
Lemma land_0x07 a : Z.land a 0x07 = (a mod 8)%Z.
Proof. exact (land_mask a 3 ltac:(lia)). Qed.

Lemma rune2 a b : Z.lor (Z.shiftl (Z.land a 0x1F) 6) (Z.land b 0x3F) = (a mod 32 * 64 + b mod 64)%Z.
Proof. rewrite land_0x1F, land_0x3F. apply lor_shift; modlia. Qed.

Lemma rune3 a b c :
  Z.lor (Z.lor (Z.shiftl (Z.land a 0x0F) 12) (Z.shiftl (Z.land b 0x3F) 6)) (Z.land c 0x3F) =
  (a mod 16 * 4096 + b mod 64 * 64 + c mod 64)%Z.
Proof.
  rewrite land_0x0F, !land_0x3F, (Z.shiftl_mul_pow2 (b mod 64)) by modlia.
  rewrite (lor_shift (a mod 16) (b mod 64 * 2 ^ 6) 12) by modlia.
  replace (a mod 16 * 2 ^ 12 + b mod 64 * 2 ^ 6)%Z with (Z.shiftl (a mod 16 * 64 + b mod 64) 6)
    by (rewrite Z.shiftl_mul_pow2; modlia).
  rewrite lor_shift by modlia. modlia.
Qed.

Lemma rune4 a b c d :
  Z.lor (Z.lor (Z.lor (Z.shiftl (Z.land a 0x07) 18) (Z.shiftl (Z.land b 0x3F) 12)) (Z.shiftl (Z.land c 0x3F) 6)) (Z.land d 0x3F) =
  (a mod 8 * 262144 + b mod 64 * 4096 + c mod 64 * 64 + d mod 64)%Z.
Proof.
  rewrite land_0x07, !land_0x3F, (Z.shiftl_mul_pow2 (b mod 64)), (Z.shiftl_mul_pow2 (c mod 64)) by modlia.
  rewrite (lor_shift (a mod 8) (b mod 64 * 2 ^ 12) 18) by modlia.
  replace (a mod 8 * 2 ^ 18 + b mod 64 * 2 ^ 12)%Z with (Z.shiftl (a mod 8 * 64 + b mod 64) 12)
    by (rewrite Z.shiftl_mul_pow2; modlia).
  rewrite (lor_shift _ (c mod 64 * 2 ^ 6) 12) by modlia.
  replace ((a mod 8 * 64 + b mod 64) * 2 ^ 12 + c mod 64 * 2 ^ 6)%Z with (Z.shiftl (a mod 8 * 4096 + b mod 64 * 64 + c mod 64) 6)
    by (rewrite Z.shiftl_mul_pow2; modlia).
  rewrite lor_shift by modlia. modlia.
Qed.

(** The bytes [AppendRune] writes. *)
Lemma tag_bits hi k lo : (0 ≤ k)%Z → (0 ≤ lo < 2 ^ k)%Z → Z.lor (hi * 2 ^ k) lo = (hi * 2 ^ k + lo)%Z.
Proof. intros Hk Hlo. by rewrite <- (lor_shift hi lo k), Z.shiftl_mul_pow2. Qed.

Lemma cont_byte a : Z.lor 0x80 (Z.land a 0x3F) = (0x80 + a mod 64)%Z.
Proof. rewrite land_0x3F. refine (tag_bits 1 7 (a mod 64) _ _); [lia|]. change (2 ^ 7)%Z with 128%Z. modlia. Qed.

Lemma tag_0xC0 a : (0 ≤ a < 64)%Z → Z.lor 0xC0 a = (0xC0 + a)%Z.
Proof. exact (tag_bits 3 6 a ltac:(lia)). Qed.
Lemma tag_0xE0 a : (0 ≤ a < 32)%Z → Z.lor 0xE0 a = (0xE0 + a)%Z.
Proof. exact (tag_bits 7 5 a ltac:(lia)). Qed.
Lemma tag_0xF0 a : (0 ≤ a < 16)%Z → Z.lor 0xF0 a = (0xF0 + a)%Z.
Proof. exact (tag_bits 15 4 a ltac:(lia)). Qed.

(** A sequence of bytes that decodes: what [Success] means. *)
Inductive sequence : list Z → Z → Prop :=
| sequence_1 s0 : (s0 < 0x80)%Z → sequence [s0] s0
| sequence_2 s0 s1 lo hi : lead s0 = Some (2, lo, hi) → (lo ≤ s1 ≤ hi)%Z →
    sequence [s0; s1] (s0 mod 32 * 64 + s1 mod 64)
| sequence_3 s0 s1 s2 lo hi : lead s0 = Some (3, lo, hi) → (lo ≤ s1 ≤ hi)%Z → (0x80 ≤ s2 ≤ 0xBF)%Z →
    sequence [s0; s1; s2] (s0 mod 16 * 4096 + s1 mod 64 * 64 + s2 mod 64)
| sequence_4 s0 s1 s2 s3 lo hi : lead s0 = Some (4, lo, hi) → (lo ≤ s1 ≤ hi)%Z → (0x80 ≤ s2 ≤ 0xBF)%Z → (0x80 ≤ s3 ≤ 0xBF)%Z →
    sequence [s0; s1; s2; s3] (s0 mod 8 * 262144 + s1 mod 64 * 4096 + s2 mod 64 * 64 + s3 mod 64).

(** The lead bytes of each length. *)
Lemma lead_cases b n lo hi : lead b = Some (n, lo, hi) →
  (n = 2 ∧ (0xC2 ≤ b ≤ 0xDF)%Z ∧ lo = 0x80%Z ∧ hi = 0xBF%Z) ∨
  (n = 3 ∧ (0xE0 ≤ b ≤ 0xEF)%Z ∧ lo = (if (b =? 0xE0)%Z then 0xA0 else 0x80)%Z ∧ hi = (if (b =? 0xED)%Z then 0x9F else 0xBF)%Z) ∨
  (n = 4 ∧ (0xF0 ≤ b ≤ 0xF4)%Z ∧ lo = (if (b =? 0xF0)%Z then 0x90 else 0x80)%Z ∧ hi = (if (b =? 0xF4)%Z then 0x8F else 0xBF)%Z).
Proof.
  unfold lead. intros H. repeat (case_match; simplify_eq); repeat match goal with
    | H : (_ =? _)%Z = true |- _ => apply Z.eqb_eq in H; subst
    | H : (_ =? _)%Z = false |- _ => apply Z.eqb_neq in H
    | H : (_ <? _)%Z = true |- _ => apply Z.ltb_lt in H
    | H : (_ <? _)%Z = false |- _ => apply Z.ltb_ge in H end; try lia; auto 10 with lia.
Qed.

Lemma between_spec lo hi b : between lo hi b = true ↔ (lo ≤ b ≤ hi)%Z.
Proof. unfold between. rewrite andb_true_iff, !Z.leb_le. done. Qed.

(** Every lead byte announces its length. *)
Lemma expectedLen_lead c n lo hi : lead (code c) = Some (n, lo, hi) → expectedLen (code c) = Some n.
Proof.
  assert (H : ∀ c, match lead (code c), expectedLen (code c) with
                   | Some (n, _, _), Some m => Nat.eqb n m | Some _, None => false | None, _ => true end = true).
  { apply byte_cases. vm_compute. reflexivity. }
  intros Hl. specialize (H c). rewrite Hl in H. destruct (expectedLen (code c)) as [m|]; [|done].
  by apply Nat.eqb_eq in H as ->.
Qed.

Lemma decode_sequence pre rest r : sequence (map code pre) r → DecodeRuneInString (pre ++ rest) = (r, length pre).
Proof.
  intros Hs. destruct pre as [|c0 [|c1 [|c2 [|c3 [|c4 pre]]]]];
    inversion Hs as [? Hlt|? ? lo hi Hl H1|? ? ? lo hi Hl H1 H2|? ? ? ? lo hi Hl H1 H2 H3]; subst; unfold DecodeRuneInString, cont; simpl;
    try (rewrite (proj2 (Z.ltb_ge _ _)) by (apply lead_cases in Hl; lia)).
  - by rewrite (proj2 (Z.ltb_lt _ _)).
  - by rewrite Hl, (proj2 (between_spec _ _ _)), rune2.
  - by rewrite Hl, !(proj2 (between_spec _ _ _)), rune3.
  - by rewrite Hl, !(proj2 (between_spec _ _ _)), rune4.
Qed.

(** Decoding looks at the bytes that the lead byte announces. *)
Lemma decode_app c s more :
  (∀ k lo hi, lead (code c) = Some (k, lo, hi) → k ≤ length (c :: s)) →
  DecodeRuneInString ((c :: s) ++ more) = DecodeRuneInString (c :: s).
Proof.
  intros Hlen. unfold DecodeRuneInString. simpl. destruct (code c <? 0x80)%Z; [done|].
  destruct (lead (code c)) as [[[k lo] hi]|] eqn:Hl; [|done]. specialize (Hlen k lo hi eq_refl).
  destruct (lead_cases _ _ _ _ Hl) as [(-> & _)|[(-> & _)|(-> & _)]];
    destruct s as [|c1 [|c2 [|c3 s]]]; simpl in Hlen; try lia; done.
Qed.

Lemma decode_cases s r n : DecodeRuneInString s = (r, n) →
  (∃ pre rest, s = pre ++ rest ∧ length pre = n ∧ sequence (map code pre) r) ∨ (r = RuneError ∧ (s = [] ∧ n = 0 ∨ s ≠ [] ∧ n = 1)).
Proof.
  intros H. destruct s as [|c0 s]; [injection H as <- <-; auto|].
  assert (Hbad : (RuneError, 1) = (r, n) → r = RuneError ∧ (c0 :: s = [] ∧ n = 0 ∨ c0 :: s ≠ [] ∧ n = 1)) by (intros [= <- <-]; auto).
  unfold DecodeRuneInString in H. simpl in H.
  destruct (code c0 <? 0x80)%Z eqn:Hlt.
  { injection H as <- <-. left. exists [c0], s. split_and!; [done|done|]. constructor. lia. }
  destruct (lead (code c0)) as [[[k lo] hi]|] eqn:Hl; [|by right; auto].
  destruct (lead_cases _ _ _ _ Hl) as [(-> & _)|[(-> & _)|(-> & _)]].
  - destruct s as [|c1 s]; [by right; auto|]. simpl in H. destruct (between lo hi (code c1)) eqn:Hb1; [|by right; auto].
    rewrite rune2 in H. injection H as <- <-. left. exists [c0; c1], s. split_and!; [done|done|].
    apply between_spec in Hb1. by econstructor.
  - destruct s as [|c1 [|c2 s]]; [by right; auto..|]. simpl in H.
    destruct (between lo hi (code c1)) eqn:Hb1, (cont (code c2)) eqn:Hb2; try by right; auto. cbn [andb] in H.
    rewrite rune3 in H. injection H as <- <-. left. exists [c0; c1; c2], s. split_and!; [done|done|].
    apply between_spec in Hb1, Hb2. by econstructor.
  - destruct s as [|c1 [|c2 [|c3 s]]]; [by right; auto..|]. simpl in H.
    destruct (between lo hi (code c1)) eqn:Hb1, (cont (code c2)) eqn:Hb2, (cont (code c3)) eqn:Hb3; try by right; auto.
    cbn [andb] in H. rewrite rune4 in H. injection H as <- <-. left. exists [c0; c1; c2; c3], s. split_and!; [done|done|].
    apply between_spec in Hb1, Hb2, Hb3. by econstructor.
Qed.

Lemma sequence_length l r : sequence l r → 1 ≤ length l ≤ 4.
Proof. intros []; simpl; lia. Qed.

(** [Success] is a sequence of a rune other than U+FFFD at the position. *)
Lemma parse_success input pos r n :
  parseUTF8Codepoint input pos = (r, n, utf8Success) ↔
  r ≠ RuneError ∧ ∃ pre rest, drop pos input = pre ++ rest ∧ length pre = n ∧ sequence (map code pre) r.
Proof.
  unfold parseUTF8Codepoint. split.
  - destruct (input !! pos) as [b|] eqn:Hb; [|done]. destruct (DecodeRuneInString (drop pos input)) as [r' n'] eqn:Hd.
    destruct (Z.eqb_spec r' RuneError) as [|Hr].
    { destruct (Nat.eqb n' 0); [done|]. destruct (expectedLen (code b)) as [m|]; [|done]. by destruct (Nat.ltb _ _). }
    intros [= -> ->]. split; [done|]. apply decode_cases in Hd as [Hd|[-> _]]; [|done].
    destruct Hd as (pre & rest & ? & ? & ?). eauto.
  - intros (Hr & pre & rest & Hd & Hn & Hs). destruct (sequence_length _ _ Hs) as [Hlen _]. rewrite length_map in Hlen.
    destruct (input !! pos) as [b|] eqn:Hb.
    + rewrite Hd, (decode_sequence pre rest r Hs), Hn. by rewrite (proj2 (Z.eqb_neq _ _)).
    + apply lookup_ge_None_1 in Hb. rewrite drop_ge in Hd by done. by destruct pre; [simpl in Hlen; lia|].
Qed.

Lemma parse_success_bounds input pos r n :
  parseUTF8Codepoint input pos = (r, n, utf8Success) → 1 ≤ n ≤ 4 ∧ pos + n ≤ length input.
Proof.
  rewrite parse_success. intros (_ & pre & rest & Hd & Hn & Hs). apply sequence_length in Hs. rewrite length_map in Hs.
  apply (f_equal length) in Hd. rewrite length_drop, length_app in Hd. lia.
Qed.

(** Only the last bytes of the input are incomplete. *)
Lemma parse_incomplete_bounds input pos r n :
  parseUTF8Codepoint input pos = (r, n, utf8Incomplete) → length input < pos + 4.
Proof.
  unfold parseUTF8Codepoint. destruct (input !! pos) as [b|] eqn:Hb.
  2: { intros _. apply lookup_ge_None_1 in Hb. lia. }
  destruct (DecodeRuneInString (drop pos input)) as [r' n'] eqn:Hd. destruct (r' =? RuneError)%Z; [|done].
  destruct (Nat.eqb_spec n' 0) as [->|].
  { apply decode_cases in Hd as [(pre & rest & Hd & Hn & Hs)|[_ [[Hd _]|[_ ?]]]]; [|rewrite (drop_S _ _ _ Hb) in Hd; done|done].
    apply sequence_length in Hs. rewrite length_map in Hs. lia. }
  unfold expectedLen. repeat case_match; simplify_eq; try done;
    match goal with H : Nat.ltb _ _ = true |- _ => apply Nat.ltb_lt in H end; lia.
Qed.

(** More input does not change a verdict. *)
Lemma parse_stable input more pos x :
  parseUTF8Codepoint input pos = x → x.2 ≠ utf8Incomplete → parseUTF8Codepoint (input ++ more) pos = x.
Proof.
  intros <-. destruct (parseUTF8Codepoint input pos) as [[r n] st] eqn:Hp. simpl. intros Hst.
  destruct st; [|done|].
  { apply parse_success. apply parse_success in Hp as (? & pre & rest & Hd & ? & ?). split; [done|].
    exists pre, (rest ++ more). split_and!; try done. rewrite drop_app_le, Hd; [by rewrite app_assoc|].
    destruct (decide (pos ≤ length input)); [done|]. rewrite drop_ge in Hd by lia.
    symmetry in Hd. apply app_nil in Hd as [-> _]. inversion H1. }
  revert Hp. unfold parseUTF8Codepoint. destruct (input !! pos) as [b|] eqn:Hb; [|done].
  pose proof (lookup_lt_Some _ _ _ Hb) as Hlt. rewrite (lookup_app_l_Some _ _ _ _ Hb), drop_app_le by lia.
  destruct (DecodeRuneInString (drop pos input)) as [r' n'] eqn:Hd.
  destruct (Z.eqb_spec r' RuneError) as [->|]; [|done]. destruct (Nat.eqb_spec n' 0); [done|].
  destruct (DecodeRuneInString (drop pos input ++ more)) as [r'' n''] eqn:Hd'.
  rewrite length_app. intros Hp.
  assert (Hsame : (r'', n'') = (RuneError, n')).
  { rewrite <- Hd', <- Hd, (drop_S _ _ _ Hb). apply decode_app. intros k lo hi Hl%expectedLen_lead.
    rewrite Hl in Hp. destruct (Nat.ltb_spec (length input) (pos + k)) as [|Hk]; [done|].
    rewrite <- (drop_S _ _ _ Hb), length_drop. lia. }
  injection Hsame as -> ->. rewrite Z.eqb_refl. rewrite (proj2 (Nat.eqb_neq _ _)) by done.
  destruct (expectedLen (code b)) as [m|]; [|done]. destruct (Nat.ltb_spec (length input) (pos + m)); [done|].
  by rewrite (proj2 (Nat.ltb_ge _ _)) by lia.
Qed.

(** The bytes of a rune, as numbers. *)
Definition rune_bytes (r : Z) : list Z :=
  if (r <? 0x80)%Z then [r]
  else if (r <? 0x800)%Z then [0xC0 + r / 64; 0x80 + r mod 64]%Z
  else if (r <? 0x10000)%Z then [0xE0 + r / 4096; 0x80 + r / 64 mod 64; 0x80 + r mod 64]%Z
  else [0xF0 + r / 262144; 0x80 + r / 4096 mod 64; 0x80 + r / 64 mod 64; 0x80 + r mod 64]%Z.

Lemma shiftr_div a n m : (2 ^ n)%Z = m → (0 ≤ n)%Z → Z.shiftr a n = (a / m)%Z.
Proof. intros <- ?. by rewrite Z.shiftr_div_pow2. Qed.

Lemma EncodeRune_bytes r : scalar r = true → map code (EncodeRune r) = rune_bytes r.
Proof.
  intros Hr. assert (0 ≤ r ≤ 0x10FFFF)%Z.
  { unfold scalar in Hr. apply orb_true_iff in Hr as [Hr|Hr]; apply between_spec in Hr; lia. }
  unfold EncodeRune, rune_bytes.
  rewrite !(shiftr_div r 6 64), !(shiftr_div r 12 4096), !(shiftr_div r 18 262144), !cont_byte by (done || lia).
  destruct (Z.ltb_spec r 0x80); [simpl; rewrite code_byte_of by lia; done|].
  destruct (Z.ltb_spec r 0x800).
  { rewrite tag_0xC0 by modlia. simpl. rewrite !code_byte_of by modlia. done. }
  destruct (Z.ltb_spec r 0x10000).
  { rewrite tag_0xE0 by modlia. simpl. rewrite !code_byte_of by modlia. done. }
  rewrite tag_0xF0 by modlia. simpl. rewrite !code_byte_of by modlia. done.
Qed.

Lemma sequence_rune pre r : sequence (map code pre) r → scalar r = true ∧ map code pre = rune_bytes r.
Proof.
  intros Hs. unfold scalar, rune_bytes. rewrite orb_true_iff, !between_spec.
  destruct pre as [|c0 [|c1 [|c2 [|c3 [|c4 pre]]]]];
    inversion Hs as [? Hlt|? ? lo hi Hl H1|? ? ? lo hi Hl H1 H2|? ? ? ? lo hi Hl H1 H2 H3]; subst; simpl;
    pose proof (code_bound c0); try apply lead_cases in Hl as [(Hn & Hl & -> & ->)|[(Hn & Hl & -> & ->)|(Hn & Hl & -> & ->)]]; try done.
  - rewrite (proj2 (Z.ltb_lt _ _)) by lia. split; [lia|done].
  - rewrite (proj2 (Z.ltb_ge _ _)), (proj2 (Z.ltb_lt _ _)) by modlia. split; [modlia|]. repeat f_equal; modlia.
  - rewrite !(proj2 (Z.ltb_ge _ _)), (proj2 (Z.ltb_lt _ _)) by
      (destruct (Z.eqb_spec (code c0) 0xE0); destruct (Z.eqb_spec (code c0) 0xED); modlia).
    split; [destruct (Z.eqb_spec (code c0) 0xE0); destruct (Z.eqb_spec (code c0) 0xED); modlia|].
    destruct (Z.eqb_spec (code c0) 0xE0); destruct (Z.eqb_spec (code c0) 0xED); repeat f_equal; modlia.
  - rewrite !(proj2 (Z.ltb_ge _ _)) by
      (destruct (Z.eqb_spec (code c0) 0xF0); destruct (Z.eqb_spec (code c0) 0xF4); modlia).
    split; [destruct (Z.eqb_spec (code c0) 0xF0); destruct (Z.eqb_spec (code c0) 0xF4); modlia|].
    destruct (Z.eqb_spec (code c0) 0xF0); destruct (Z.eqb_spec (code c0) 0xF4); repeat f_equal; modlia.
Qed.

(** The entry of the table for a lead byte. *)
Lemma lead_2 b : (0xC2 ≤ b ≤ 0xDF)%Z → lead b = Some (2, 0x80%Z, 0xBF%Z).
Proof. intros. unfold lead. by rewrite (proj2 (Z.ltb_ge _ _)), (proj2 (Z.ltb_lt _ _)) by lia. Qed.

Lemma lead_3 b : (0xE0 ≤ b ≤ 0xEF)%Z →
  lead b = Some (3, (if (b =? 0xE0)%Z then 0xA0 else 0x80)%Z, (if (b =? 0xED)%Z then 0x9F else 0xBF)%Z).
Proof.
  intros. unfold lead. rewrite (proj2 (Z.ltb_ge b 0xC2)), (proj2 (Z.ltb_ge b 0xE0)) by lia.
  destruct (Z.eqb_spec b 0xE0) as [->|]; [done|]. destruct (Z.eqb_spec b 0xED); [done|].
  by rewrite (proj2 (Z.ltb_lt _ _)) by lia.
Qed.

Lemma lead_4 b : (0xF0 ≤ b ≤ 0xF4)%Z →
  lead b = Some (4, (if (b =? 0xF0)%Z then 0x90 else 0x80)%Z, (if (b =? 0xF4)%Z then 0x8F else 0xBF)%Z).
Proof.
  intros. unfold lead. rewrite (proj2 (Z.ltb_ge b 0xC2)), (proj2 (Z.ltb_ge b 0xE0)) by lia.
  rewrite (proj2 (Z.eqb_neq b 0xE0)), (proj2 (Z.eqb_neq b 0xED)), (proj2 (Z.ltb_ge b 0xF0)) by lia.
  destruct (Z.eqb_spec b 0xF0) as [->|]; [done|]. destruct (Z.eqb_spec b 0xF4) as [->|]; [done|].
  by rewrite (proj2 (Z.ltb_lt _ _)) by lia.
Qed.

Lemma rune_sequence r : scalar r = true → sequence (rune_bytes r) r.
Proof.
  unfold scalar. rewrite orb_true_iff, !between_spec. intros Hr. unfold rune_bytes.
  destruct (Z.ltb_spec r 0x80); [by constructor|]. destruct (Z.ltb_spec r 0x800).
  { replace r with ((0xC0 + r / 64) mod 32 * 64 + (0x80 + r mod 64) mod 64)%Z at 3 by modlia.
    eapply sequence_2; [apply lead_2; modlia|modlia]. }
  destruct (Z.ltb_spec r 0x10000).
  { replace r with ((0xE0 + r / 4096) mod 16 * 4096 + (0x80 + r / 64 mod 64) mod 64 * 64 + (0x80 + r mod 64) mod 64)%Z at 4
      by modlia.
    eapply sequence_3; [apply lead_3; modlia| |modlia].
    destruct (Z.eqb_spec (0xE0 + r / 4096) 0xE0); destruct (Z.eqb_spec (0xE0 + r / 4096) 0xED); modlia. }
  replace r with ((0xF0 + r / 262144) mod 8 * 262144 + (0x80 + r / 4096 mod 64) mod 64 * 4096 +
    (0x80 + r / 64 mod 64) mod 64 * 64 + (0x80 + r mod 64) mod 64)%Z at 5 by modlia.
  eapply sequence_4; [apply lead_4; modlia| |modlia..].
  destruct (Z.eqb_spec (0xF0 + r / 262144) 0xF0); destruct (Z.eqb_spec (0xF0 + r / 262144) 0xF4); modlia.
Qed.

Lemma parse_rune input pos r n :
  parseUTF8Codepoint input pos = (r, n, utf8Success) ↔
  scalar r = true ∧ r ≠ RuneError ∧ n = length (EncodeRune r) ∧ ∃ rest, drop pos input = EncodeRune r ++ rest.
Proof.
  rewrite parse_success. split.
  - intros (Hr & pre & rest & Hd & Hn & Hs). apply sequence_rune in Hs as [Hsc Hs].
    rewrite <- EncodeRune_bytes in Hs by done. assert (pre = EncodeRune r) as ->.
    { apply (inj (fmap code)). exact Hs. }
    split_and!; eauto.
  - intros (Hsc & Hr & Hn & rest & Hd). split; [done|]. exists (EncodeRune r), rest. split_and!; [done|done|].
    rewrite EncodeRune_bytes by done. by apply rune_sequence.
Qed.

(** C24. The decoder of the engine and Go's encoder are inverse, with one
    exception: at a position it succeeds with a rune and a length exactly when
    the bytes there are the encoding of that rune, of that length, and the
    rune is a scalar value other than U+FFFD.  So overlong forms, surrogates
    and values above U+10FFFF are never accepted, every other character is,
    and U+FFFD, which is valid UTF-8, is refused. *)
Theorem utf8_roundtrip input pos r n :
  parseUTF8Codepoint input pos = (r, n, utf8Success) ↔
  scalar r = true ∧ r ≠ RuneError ∧ n = length (EncodeRune r) ∧ ∃ rest, drop pos input = EncodeRune r ++ rest.
Proof. apply parse_rune. Qed.
