(* ===== verification/PegTrie.v ===== *)
(** * PegTrie: the delimiter trie of the PEG engine

    Models [pkg/functions/peg/trie.go]: [newTrie], [insert] and [checkAt].  A
    trie is its slice of nodes; node 0 is the root.  [None] is an index out of
    range, which the theorem excludes: [checkAt] is compared with a reference
    on the list of delimiters. *)
From Stdlib Require Import Ascii.
From S2P Require Import Prelude GoMonad PegTypes.

(** [for _, ch := range word] in Go: invalid bytes give [RuneError], one byte
    at a time.  The fuel is the number of bytes. *)
Fixpoint range_runes (fuel : nat) (s : list ascii) : list Z :=
  match fuel, s with
  | S fuel, _ :: _ => let '(r, n) := DecodeRuneInString s in r :: range_runes fuel (drop n s)
  | _, _ => []
  end.

Definition runes (s : list ascii) : list Z := range_runes (length s) s.

Record trieNode := MkTrieNode { children : gmap Z nat; isWord : bool }.

Abbreviation trie := (list trieNode).

Inductive trieMatch := trieNoMatch | triePartialMatch | trieCompleteMatch.

Definition createNode (t : trie) : trie * nat := (t ++ [MkTrieNode ∅ false], length t).

Definition set_child (ch : Z) (child : nat) (n : trieNode) : trieNode :=
  MkTrieNode (<[ch := child]> n.(children)) n.(isWord).

Fixpoint trie_insert_loop (t : trie) (current : nat) (rs : list Z) : option (trie * nat) :=
  match rs with
  | [] => Some (t, current)
  | ch :: rs =>
      n ← t !! current;
      match n.(children) !! ch with
      | Some next => trie_insert_loop t next rs
      | None =>
          let '(t, child) := createNode t in
          trie_insert_loop (alter (set_child ch child) current t) child rs
      end
  end.

Definition trie_insert (t : trie) (rs : list Z) : option trie :=
  '(t, current) ← trie_insert_loop t 0 rs;
  Some (alter (λ n, MkTrieNode n.(children) true) current t).

Definition newTrie (words : list (list Z)) : option trie := foldM trie_insert (createNode []).1 words.

(** The loop of [checkAt]; each step consumes at least one byte. *)
Fixpoint check_loop (fuel : nat) (t : trie) (input : list ascii) (current p : nat) : option trieMatch :=
  let stop := if Nat.eqb current 0 then trieNoMatch else triePartialMatch in
  match fuel with
  | O => None
  | S fuel =>
      if Nat.ltb p (length input) then
        match parseUTF8Codepoint input p with
        | (r, size, utf8Success) =>
            n ← t !! current;
            match n.(children) !! r with
            | None => Some trieNoMatch
            | Some next =>
                n ← t !! next;
                if n.(isWord) then Some trieCompleteMatch else check_loop fuel t input next (p + size)
            end
        | _ => Some stop
        end
      else Some stop
  end.

Definition checkAt (t : trie) (input : list ascii) (pos : nat) : option trieMatch :=
  check_loop (S (length input)) t input 0 pos.

(** ** The reference *)

(** The characters from a position up to the end of the input, or to the first
    bytes that do not decode. *)
Fixpoint decoded (fuel : nat) (input : list ascii) (p : nat) : list Z :=
  match fuel with
  | O => []
  | S fuel =>
      if Nat.ltb p (length input) then
        match parseUTF8Codepoint input p with
        | (r, size, utf8Success) => r :: decoded fuel input (p + size)
        | _ => []
        end
      else []
  end.

Definition upcoming (input : list ascii) (pos : nat) : list Z := decoded (S (length input)) input pos.

(** A complete match when some delimiter starts the text, a partial one when
    all the text that is left starts some delimiter. *)
Definition begins (w l : list Z) : bool := bool_decide (w ≠ [] ∧ w `prefix_of` l).

Definition match_reference (words : list (list Z)) (l : list Z) : trieMatch :=
  if existsb (λ w, begins w l) words then trieCompleteMatch
  else if existsb (λ w, begins l w) words then triePartialMatch
  else trieNoMatch.

(** ** The shape of a trie *)

(** [P] lists the path of each node. *)
Record shape (t : trie) (P : list (list Z)) : Prop := MkShape {
  shape_length : length P = length t;
  shape_root : P !! 0 = Some [];
  shape_nodup : NoDup P;
  shape_closed : ∀ x c, x ++ [c] ∈ P → x ∈ P;
  shape_children : ∀ i n q, t !! i = Some n → P !! i = Some q →
    ∀ ch j, n.(children) !! ch = Some j ↔ P !! j = Some (q ++ [ch]);
}.

Lemma shape_create t P cur n q ch :
  shape t P → t !! cur = Some n → P !! cur = Some q → n.(children) !! ch = None →
  shape (alter (set_child ch (length t)) cur (t ++ [MkTrieNode ∅ false])) (P ++ [q ++ [ch]]).
Proof.
  intros [Hlen Hroot Hnd Hcl Hch] Hn Hq Hnone.
  assert (Hnew : q ++ [ch] ∉ P).
  { intros [j Hj]%list_elem_of_lookup_1. apply (Hch _ _ _ Hn Hq) in Hj. congruence. }
  assert (Hlt : cur < length t) by by eapply lookup_lt_Some.
  split.
  - rewrite length_alter, !length_app, Hlen. done.
  - by apply lookup_app_l_Some.
  - apply NoDup_app. split_and!; [done| |apply NoDup_singleton]. intros x Hx ->%list_elem_of_singleton. done.
  - intros x c. rewrite !elem_of_app, !list_elem_of_singleton. intros [Hx|Hx]; [left; by eapply Hcl|].
    apply app_inj_2 in Hx as [-> _]; [|done]. left. by eapply list_elem_of_lookup_2.
  - intros i m qi Hm Hqi c j. destruct (decide (i = length t)) as [->|Hi].
    + rewrite list_lookup_alter_ne, lookup_app_r, Nat.sub_diag in Hm by lia. injection Hm as <-.
      rewrite lookup_app_r, Hlen, Nat.sub_diag in Hqi by lia. injection Hqi as <-. simpl. rewrite lookup_empty.
      split; [done|]. intros [Hj|[_ Hj]]%lookup_app_Some.
      * exfalso. apply Hnew, (Hcl _ c). by eapply list_elem_of_lookup_2.
      * apply list_lookup_singleton_Some in Hj as [_ Hj]. apply (f_equal length) in Hj. rewrite !length_app in Hj. simpl in Hj. lia.
    + assert (Hil : i < length t).
      { apply lookup_lt_Some in Hm. rewrite length_alter, length_app in Hm. simpl in Hm. lia. }
      rewrite lookup_app_l in Hqi by lia. destruct (decide (i = cur)) as [->|Hne].
      * rewrite list_lookup_alter_eq, lookup_app_l, Hn in Hm by done. injection Hm as <-. assert (qi = q) as -> by congruence.
        simpl. destruct (decide (c = ch)) as [->|Hc].
        -- rewrite lookup_insert_eq. split.
           ++ intros [= <-]. rewrite lookup_app_r, Hlen, Nat.sub_diag by lia. done.
           ++ intros [Hj|[Hge Hj]]%lookup_app_Some; [by apply (Hch _ _ _ Hn Hq) in Hj; congruence|].
              apply list_lookup_singleton_Some in Hj as [Hj _]. f_equal. lia.
        -- rewrite lookup_insert_ne, (Hch _ _ _ Hn Hq) by done. split; [by apply lookup_app_l_Some|].
           intros [Hj|[_ Hj]]%lookup_app_Some; [done|]. apply list_lookup_singleton_Some in Hj as [_ Hj].
           by apply app_inj_2 in Hj as [_ [= ->]].
      * rewrite list_lookup_alter_ne, lookup_app_l in Hm by done. rewrite (Hch _ _ _ Hm Hqi). split; [by apply lookup_app_l_Some|].
        intros [Hj|[_ Hj]]%lookup_app_Some; [done|]. apply list_lookup_singleton_Some in Hj as [_ Hj].
        apply app_inj_2 in Hj as [-> _]; [|done]. exfalso. apply Hne. by eapply NoDup_lookup.
Qed.

(** A path whose node is marked as a word. *)
Definition marked (t : trie) (P : list (list Z)) (x : list Z) : Prop :=
  ∃ i n, P !! i = Some x ∧ t !! i = Some n ∧ n.(isWord) = true.

Lemma shape_lookup t P i q : shape t P → P !! i = Some q → ∃ n, t !! i = Some n.
Proof.
  intros Hs Hq. apply lookup_lt_is_Some. rewrite <- (shape_length _ _ Hs). by eapply lookup_lt_Some.
Qed.

Lemma marked_create t P cur q ch x :
  length P = length t →
  marked (alter (set_child ch (length t)) cur (t ++ [MkTrieNode ∅ false])) (P ++ [q ++ [ch]]) x ↔ marked t P x.
Proof.
  intros Hlen. unfold marked. split.
  - intros (i & n & Hx & Hn & Hw). destruct (decide (i < length t)) as [Hi|Hi].
    + rewrite lookup_app_l in Hx by lia. destruct (decide (i = cur)) as [->|].
      * rewrite list_lookup_alter_eq, lookup_app_l in Hn by done. destruct (t !! cur) as [m|] eqn:Hm; [|done].
        injection Hn as <-. by exists cur, m.
      * rewrite list_lookup_alter_ne, lookup_app_l in Hn by done. by exists i, n.
    + exfalso. assert (i = length t) as ->.
      { apply lookup_lt_Some in Hn. rewrite length_alter, length_app in Hn. simpl in Hn. lia. }
      destruct (decide (cur = length t)) as [->|]; [rewrite list_lookup_alter_eq in Hn|rewrite list_lookup_alter_ne in Hn by done];
        rewrite lookup_app_r, Nat.sub_diag in Hn by lia; injection Hn as <-; done.
  - intros (i & n & Hx & Hn & Hw). assert (i < length t) by by eapply lookup_lt_Some.
    exists i. destruct (decide (cur = i)) as [->|].
    + eexists. rewrite list_lookup_alter_eq, lookup_app_l, lookup_app_l, Hn by lia. by split_and!.
    + exists n. rewrite list_lookup_alter_ne, !lookup_app_l by (done || lia). done.
Qed.

Lemma trie_insert_loop_spec rs t P cur q :
  shape t P → P !! cur = Some q →
  ∃ t' P' cur', trie_insert_loop t cur rs = Some (t', cur') ∧ shape t' P' ∧ P' !! cur' = Some (q ++ rs) ∧
    (∀ x, x ∈ P' ↔ x ∈ P ∨ (q `prefix_of` x ∧ x `prefix_of` q ++ rs)) ∧ (∀ x, marked t' P' x ↔ marked t P x).
Proof.
  revert t P cur q. induction rs as [|ch rs IH]; intros t P cur q Hs Hq.
  { exists t, P, cur. rewrite app_nil_r. split_and!; try done. intros x. split; [auto|]. intros [?|[H1 H2]]; [done|].
    assert (x = q) as -> by (by apply (anti_symm prefix)). by eapply list_elem_of_lookup_2. }
  destruct (shape_lookup _ _ _ _ Hs Hq) as [n Hn]. cbn [trie_insert_loop]. rewrite Hn. simpl.
  assert (Hrange : ∀ x, (q ++ [ch]) `prefix_of` x ∧ x `prefix_of` (q ++ [ch]) ++ rs → q `prefix_of` x ∧ x `prefix_of` q ++ ch :: rs).
  { intros x [H1 H2]. rewrite <- app_assoc in H2. split; [|done]. etrans; [by apply prefix_app_r|done]. }
  assert (Hcase : ∀ x, q `prefix_of` x ∧ x `prefix_of` q ++ ch :: rs → x = q ∨ (q ++ [ch]) `prefix_of` x ∧ x `prefix_of` (q ++ [ch]) ++ rs).
  { intros x [[k ->] H2]. apply prefix_app_inv in H2. destruct k as [|c k]; [left; apply app_nil_r|right].
    pose proof (prefix_cons_inv_1 _ _ _ _ H2) as ->. apply prefix_cons_inv_2 in H2. split.
    - exists k. by rewrite <- app_assoc.
    - rewrite <- app_assoc. by apply prefix_app, prefix_cons. }
  destruct (children n !! ch) as [next|] eqn:Hc.
  - apply (shape_children _ _ Hs _ _ _ Hn Hq) in Hc.
    destruct (IH t P next (q ++ [ch]) Hs Hc) as (t' & P' & cur' & -> & Hs' & Hcur & HP & Hm). exists t', P', cur'.
    split_and!; [done|done|by rewrite Hcur, <- app_assoc| |done]. intros x. rewrite HP. split; [naive_solver|].
    intros [?|Hx]; [auto|]. apply Hcase in Hx as [->|]; [left; by eapply list_elem_of_lookup_2|auto].
  - pose proof (shape_create t P cur n q ch Hs Hn Hq Hc) as Hs1.
    destruct (IH _ _ (length t) (q ++ [ch]) Hs1) as (t' & P' & cur' & -> & Hs' & Hcur & HP & Hm).
    { rewrite lookup_app_r, (shape_length _ _ Hs), Nat.sub_diag by (rewrite (shape_length _ _ Hs); lia). done. }
    exists t', P', cur'. split_and!; [done|done|by rewrite Hcur, <- app_assoc| |].
    + intros x. rewrite HP, elem_of_app, list_elem_of_singleton. split.
      * intros [[?| ->]|?]; [auto| |auto]. right. apply Hrange. split; [done|by apply prefix_app_r].
      * intros [?|Hx]; [auto|]. apply Hcase in Hx as [->|]; [left; left; by eapply list_elem_of_lookup_2|auto].
    + intros x. rewrite Hm. apply marked_create, (shape_length _ _ Hs).
Qed.

(** ** The trie of a list of delimiters *)

Definition represents (t : trie) (words : list (list Z)) : Prop :=
  ∃ P, shape t P ∧ (∀ x, x ∈ P ↔ x = [] ∨ ∃ w, w ∈ words ∧ x `prefix_of` w) ∧ (∀ x, marked t P x ↔ x ∈ words).

Lemma represents_root : represents (createNode []).1 [].
Proof.
  exists [[]]. split_and!.
  - split; simpl; [done|done|apply NoDup_singleton| |].
    + intros x c Hx%list_elem_of_singleton. by apply app_nil in Hx as [_ ?].
    + intros [|i] n q Hn Hq c j; [|done]. injection Hn as <-. injection Hq as <-. simpl. rewrite lookup_empty.
      split; [done|]. by intros [_ ?]%list_lookup_singleton_Some.
  - intros x. rewrite list_elem_of_singleton. split; [auto|]. intros [?|(w & []%elem_of_nil & _)]. done.
  - intros x. split; [|by intros []%elem_of_nil]. intros ([|i] & n & _ & Hn & Hw); [|done]. by injection Hn as <-.
Qed.

Lemma shape_mark t P cur : shape t P → shape (alter (λ n, MkTrieNode n.(children) true) cur t) P.
Proof.
  intros [Hlen Hroot Hnd Hcl Hch]. split; [by rewrite length_alter|done|done|done|].
  intros i n q Hn Hq. destruct (decide (cur = i)) as [->|].
  - rewrite list_lookup_alter_eq in Hn. destruct (t !! i) as [m|] eqn:Hm; [|done]. injection Hn as <-. by apply (Hch _ _ _ Hm).
  - rewrite list_lookup_alter_ne in Hn by done. by apply (Hch _ _ _ Hn).
Qed.

Lemma marked_mark t P cur q x :
  shape t P → P !! cur = Some q → marked (alter (λ n, MkTrieNode n.(children) true) cur t) P x ↔ marked t P x ∨ x = q.
Proof.
  intros Hs Hq. destruct (shape_lookup _ _ _ _ Hs Hq) as [m Hm]. unfold marked. split.
  - intros (i & n & Hx & Hn & Hw). destruct (decide (cur = i)) as [->|]; [right; congruence|].
    rewrite list_lookup_alter_ne in Hn by done. left. by exists i, n.
  - intros [(i & n & Hx & Hn & Hw)| ->].
    + destruct (decide (cur = i)) as [->|]; exists i; [eexists; rewrite list_lookup_alter_eq, Hn|exists n; rewrite list_lookup_alter_ne by done]; done.
    + exists cur. eexists. rewrite list_lookup_alter_eq, Hm. done.
Qed.

Lemma represents_insert t words w : represents t words → ∃ t', trie_insert t w = Some t' ∧ represents t' (words ++ [w]).
Proof.
  intros (P & Hs & HP & Hm). unfold trie_insert.
  destruct (trie_insert_loop_spec w t P 0 [] Hs (shape_root _ _ Hs)) as (t' & P' & cur & -> & Hs' & Hcur & HP' & Hm').
  simpl. eexists. split; [done|]. exists P'. split_and!; [by apply shape_mark| |].
  - intros x. rewrite HP', HP. simpl. setoid_rewrite elem_of_app. setoid_rewrite list_elem_of_singleton.
    split; [naive_solver|]. intros [->|(w' & [?|Heq] & Hx)]; [auto|left; right; eauto|]. subst w'. right. split; [apply prefix_nil|done].
  - intros x. rewrite (marked_mark _ _ _ _ x Hs' Hcur), Hm', Hm, elem_of_app, list_elem_of_singleton. done.
Qed.

Lemma newTrie_represents words : ∃ t, newTrie words = Some t ∧ represents t words.
Proof.
  unfold newTrie. enough (H : ∀ ws t0 seen, represents t0 seen → ∃ t, foldM trie_insert t0 ws = Some t ∧ represents t (seen ++ ws)).
  { apply (H words _ [] represents_root). }
  intros ws. induction ws as [|w ws IH]; intros t0 seen H0; simpl; [exists t0; by rewrite app_nil_r|].
  destruct (represents_insert t0 seen w H0) as (t1 & -> & H1). destruct (IH t1 _ H1) as (t & Ht & Hr).
  exists t. split; [done|]. by rewrite <- app_assoc in Hr.
Qed.

(** ** Checking *)

(** The reference for a search that has matched [q] already. *)
Definition reference_from (words : list (list Z)) (q l : list Z) : trieMatch :=
  if decide (Exists (λ w, length q < length w ∧ w `prefix_of` q ++ l) words) then trieCompleteMatch
  else if decide (q ++ l ≠ [] ∧ Exists (λ w, q ++ l `prefix_of` w) words) then triePartialMatch
  else trieNoMatch.

Lemma reference_root words l : reference_from words [] l = match_reference words l.
Proof.
  unfold reference_from, match_reference. simpl.
  assert (H1 : Exists (λ w, 0 < length w ∧ w `prefix_of` l) words ↔ existsb (λ w, begins w l) words = true).
  { rewrite Exists_exists, existsb_exists. setoid_rewrite list_elem_of_In. unfold begins. setoid_rewrite bool_decide_eq_true.
    split; intros (w & Hw & Hl & Hp); exists w; split_and!; try done; destruct w; (done || simpl in *; lia). }
  assert (H2 : l ≠ [] ∧ Exists (λ w, l `prefix_of` w) words ↔ existsb (λ w, begins l w) words = true).
  { rewrite Exists_exists, existsb_exists. setoid_rewrite list_elem_of_In. unfold begins. setoid_rewrite bool_decide_eq_true.
    naive_solver. }
  destruct (existsb (λ w, begins w l) words), (existsb (λ w, begins l w) words);
    destruct (decide _) as [Hd|Hd]; rewrite ?H1 in Hd; try done; destruct (decide _) as [Hd2|Hd2]; rewrite ?H2 in Hd2; done.
Qed.

Lemma prefix_snoc_longer (q w : list Z) r l :
  length q < length w → w `prefix_of` q ++ r :: l → q ++ [r] `prefix_of` w.
Proof.
  intros Hlen Hw. replace (q ++ r :: l) with ((q ++ [r]) ++ l) in Hw by (by rewrite <- app_assoc).
  destruct (prefix_weak_total (q ++ [r]) w ((q ++ [r]) ++ l)) as [H|H]; [by apply prefix_app_r|done|done|].
  assert (w = q ++ [r]) as ->; [|done]. apply prefix_length_eq; [done|]. rewrite length_app. simpl. lia.
Qed.

(** One more character. *)
Lemma reference_step words q r l :
  reference_from words q (r :: l) =
    if decide (q ++ [r] ∈ words) then trieCompleteMatch
    else if decide (Exists (λ w, q ++ [r] `prefix_of` w) words) then reference_from words (q ++ [r]) l else trieNoMatch.
Proof.
  unfold reference_from. rewrite <- app_assoc. simpl. rewrite length_app. simpl.
  destruct (decide (q ++ [r] ∈ words)) as [Hin|Hout].
  { rewrite decide_True; [done|]. apply Exists_exists. exists (q ++ [r]). split; [done|]. rewrite length_app. simpl.
    split; [lia|]. exists l. by rewrite <- app_assoc. }
  assert (Hiff : Exists (λ w, length q < length w ∧ w `prefix_of` q ++ r :: l) words ↔
                 Exists (λ w, length q + 1 < length w ∧ w `prefix_of` q ++ r :: l) words).
  { rewrite !Exists_exists. split; intros (w & Hw & Hlen & Hp); exists w; split_and!; try done; [|lia].
    destruct (decide (length w = length q + 1)) as [He|]; [|lia]. exfalso. apply Hout.
    assert (q ++ [r] = w) as ->; [|done]. apply prefix_length_eq; [by eapply prefix_snoc_longer|].
    rewrite length_app. simpl. lia. }
  destruct (decide (Exists (λ w, q ++ [r] `prefix_of` w) words)) as [He|Hne].
  - destruct (decide (Exists (λ w, length q < length w ∧ _) words)) as [H1|H1]; destruct (decide (Exists (λ w, length q + 1 < length w ∧ _) words)) as [H2|H2];
      rewrite Hiff in H1; done.
  - rewrite decide_False, decide_False; [done| |].
    + intros [_ Hp]. apply Hne. revert Hp. rewrite !Exists_exists. intros (w & Hw & Hp). exists w. split; [done|].
      etrans; [|exact Hp]. exists l. by rewrite <- app_assoc.
    + intros Hp. apply Hne. revert Hp. rewrite !Exists_exists. intros (w & Hw & Hlen & Hp). exists w. split; [done|].
      by eapply prefix_snoc_longer.
Qed.

Lemma check_loop_spec fuel t words P input current p q :
  shape t P → (∀ x, x ∈ P ↔ x = [] ∨ ∃ w, w ∈ words ∧ x `prefix_of` w) → (∀ x, marked t P x ↔ x ∈ words) →
  P !! current = Some q → length input - p < fuel →
  check_loop fuel t input current p = Some (reference_from words q (decoded fuel input p)).
Proof.
  intros Hs HP Hm. revert current p q. induction fuel as [|fuel IH]; intros current p q Hq Hf; [lia|].
  cbn [check_loop decoded].
  assert (Hstop : (if Nat.eqb current 0 then trieNoMatch else triePartialMatch) = reference_from words q []).
  { unfold reference_from. rewrite app_nil_r, decide_False.
    2: { rewrite Exists_exists. intros (w & _ & Hlen & Hp%prefix_length). lia. }
    assert (Hin : q ∈ P) by by eapply list_elem_of_lookup_2.
    destruct (Nat.eqb_spec current 0) as [->|Hne].
    - rewrite (shape_root _ _ Hs) in Hq. injection Hq as <-. by rewrite decide_False by naive_solver.
    - rewrite decide_True; [done|]. rewrite Exists_exists. assert (q ≠ []).
      { intros ->. apply Hne. by eapply NoDup_lookup; [by eapply shape_nodup| |eapply shape_root]. }
      split; [done|]. apply HP in Hin as [?|?]; [done|done]. }
  destruct (Nat.ltb_spec p (length input)) as [Hp|Hp]; [|by rewrite Hstop].
  destruct (parseUTF8Codepoint input p) as [[r size] []] eqn:Hu; [|by rewrite Hstop..].
  apply parse_success_bounds in Hu. destruct (shape_lookup _ _ _ _ Hs Hq) as [n Hn]. rewrite Hn. simpl.
  pose proof (shape_children _ _ Hs _ _ _ Hn Hq r) as Hch. rewrite reference_step.
  destruct (children n !! r) as [next|] eqn:Hc.
  - pose proof (proj1 (Hch next) eq_refl) as Hnext. destruct (shape_lookup _ _ _ _ Hs Hnext) as [m Hm']. rewrite Hm'. simpl.
    destruct (isWord m) eqn:Hw.
    + rewrite decide_True; [done|]. apply Hm. by exists next, m.
    + rewrite decide_False.
      2: { intros (i & n' & Hi & Hn' & Hw')%Hm. assert (i = next) as -> by (by eapply NoDup_lookup; [eapply shape_nodup|..]). congruence. }
      assert (Hin : q ++ [r] ∈ P) by by eapply list_elem_of_lookup_2.
      apply HP in Hin as [Hin|Hin]; [by apply app_nil in Hin as [_ ?]|].
      rewrite decide_True by (by apply Exists_exists). apply IH; [done|lia].
  - rewrite !decide_False; [done| |].
    + rewrite Exists_exists. intros Hin. assert (q ++ [r] ∈ P) as [j Hj]%list_elem_of_lookup_1 by (apply HP; auto).
      by apply Hch in Hj.
    + intros Hin. assert (q ++ [r] ∈ P) as [j Hj]%list_elem_of_lookup_1 by (apply HP; right; by exists (q ++ [r])).
      by apply Hch in Hj.
Qed.

Lemma checkAt_reference words input pos :
  ∃ t, newTrie words = Some t ∧ checkAt t input pos = Some (match_reference words (upcoming input pos)).
Proof.
  destruct (newTrie_represents words) as (t & Ht & P & Hs & HP & Hm). exists t. split; [done|].
  unfold checkAt. rewrite (check_loop_spec _ t words P input 0 pos [] Hs HP Hm (shape_root _ _ Hs)) by lia.
  by rewrite reference_root.
Qed.

(** C25. The trie does what a search through the list of delimiters would:
    building it never fails, and at every position [checkAt] answers a
    complete match when some non-empty delimiter starts the characters there,
    else a partial match when all the characters left start some delimiter,
    else none (characters up to the first bytes that are not UTF-8). *)
Theorem trie_checkAt words input pos :
  ∃ t, newTrie (map runes words) = Some t ∧
    checkAt t input pos = Some (match_reference (map runes words) (upcoming input pos)).
Proof. apply checkAt_reference. Qed.
