(* ===== verification/PegJson.v ===== *)
(** * PegJson: the JSON parser of the PEG engine

    Models the JSON functions of [pkg/functions/peg/parser.go]:
    [parseJSONValue] and what it calls.  The loops run on fuel; [json_fuel] is
    enough for every input.  The parser recognizes the grammar of the
    inductive [json], and in partial mode a verdict other than "need more
    input" stands whatever input follows. *)
From Stdlib Require Import Ascii.
From S2P Require Import Prelude GoMonad PegTypes.

Abbreviation cQuote := "034"%char (only parsing).
Abbreviation cBackslash := "\"%char (only parsing).

(** ** The functions *)

(** [for pos < len(input) && f(input[pos]) { pos++ }] *)
Fixpoint span (f : ascii → bool) (l : list ascii) : nat :=
  match l with
  | [] => 0
  | c :: l => if f c then S (span f l) else 0
  end.

Definition advance (f : ascii → bool) (input : list ascii) (pos : nat) : nat := pos + span f (drop pos input).

Definition isWhitespace (c : ascii) : bool :=
  Ascii.eqb c " " || Ascii.eqb c "009" || Ascii.eqb c "010" || Ascii.eqb c "013".

Definition isDigit (c : ascii) : bool := between 48 57 (code c).

Definition isHexDigit (c : ascii) : bool :=
  between 48 57 (code c) || between 97 102 (code c) || between 65 70 (code c).

Definition isNumberContinuation (c : ascii) : bool :=
  isDigit c || Ascii.eqb c "." || Ascii.eqb c "e" || Ascii.eqb c "E" || Ascii.eqb c "+" || Ascii.eqb c "-".

Definition skipWS (input : list ascii) (pos : nat) : nat := advance isWhitespace input pos.

(** What every function returns when the input ends at [pos]. *)
Definition exhausted (ctx : ParseContext) (start pos : nat) : ParseResult :=
  if ctx.(IsPartial) then NewParseResultRange NeedMoreInput start pos else NewParseResult Fail start.

Fixpoint literal_loop (ctx : ParseContext) (start pos : nat) (lit : list ascii) : ParseResult :=
  match lit with
  | [] => NewParseResultRange Success start pos
  | x :: lit =>
      match ctx.(Input) !! pos with
      | None => exhausted ctx start pos
      | Some c => if Ascii.eqb c x then literal_loop ctx start (S pos) lit else NewParseResult Fail start
      end
  end.

Definition parseLiteralAt (ctx : ParseContext) (start pos : nat) (lit : string) : ParseResult :=
  literal_loop ctx start pos (bytes lit).

(** [n] hexadecimal digits from [pos]: the position after them, or a result to
    return. *)
Fixpoint hex_loop (n : nat) (ctx : ParseContext) (start pos : nat) : ParseResult + nat :=
  match n with
  | O => inr pos
  | S n =>
      match ctx.(Input) !! pos with
      | None => inl (exhausted ctx start pos)
      | Some c => if isHexDigit c then hex_loop n ctx start (S pos) else inl (NewParseResult Fail start)
      end
  end.

Definition json_escape (c : ascii) : bool :=
  Ascii.eqb c cQuote || Ascii.eqb c cBackslash || Ascii.eqb c "/" || Ascii.eqb c "b" || Ascii.eqb c "f" ||
  Ascii.eqb c "n" || Ascii.eqb c "r" || Ascii.eqb c "t".

Fixpoint json_string_loop (fuel : nat) (ctx : ParseContext) (start pos : nat) : option ParseResult :=
  match fuel with
  | O => None
  | S fuel =>
      match ctx.(Input) !! pos with
      | None => Some (exhausted ctx start pos)
      | Some c =>
          if Ascii.eqb c cQuote then Some (NewParseResultRange Success start (pos + 1))
          else if Ascii.eqb c cBackslash then
            match ctx.(Input) !! (pos + 1) with
            | None => Some (exhausted ctx start (pos + 1))
            | Some e =>
                if json_escape e then json_string_loop fuel ctx start (pos + 2)
                else if Ascii.eqb e "u" then
                  match hex_loop 4 ctx start (pos + 2) with
                  | inl r => Some r
                  | inr pos => json_string_loop fuel ctx start pos
                  end
                else Some (NewParseResult Fail start)
            end
          else
            match parseUTF8Codepoint ctx.(Input) pos with
            | (_, _, utf8Incomplete) => Some (exhausted ctx start pos)
            | (_, _, utf8Invalid) => Some (NewParseResult Fail start)
            | (_, size, utf8Success) => json_string_loop fuel ctx start (pos + size)
            end
      end
  end.

Definition parseJSONString (ctx : ParseContext) (start pos : nat) : option ParseResult :=
  json_string_loop (S (length ctx.(Input))) ctx start (pos + 1).

(** The digits after a point or an exponent: a position, or a result. *)
Definition digits (ctx : ParseContext) (start p : nat) : ParseResult + nat :=
  let q := advance isDigit ctx.(Input) p in
  if Nat.eqb q p then inl (exhausted ctx start q) else inr q.

Definition number_fraction (ctx : ParseContext) (start p : nat) : ParseResult + nat :=
  match ctx.(Input) !! p with
  | Some c => if Ascii.eqb c "." then digits ctx start (p + 1) else inr p
  | None => inr p
  end.

Definition number_exponent (ctx : ParseContext) (start p : nat) : ParseResult + nat :=
  match ctx.(Input) !! p with
  | Some c =>
      if Ascii.eqb c "e" || Ascii.eqb c "E" then
        match ctx.(Input) !! (p + 1) with
        | Some d => digits ctx start (if Ascii.eqb d "+" || Ascii.eqb d "-" then p + 2 else p + 1)
        | None => digits ctx start (p + 1)
        end
      else inr p
  | None => inr p
  end.

Definition number_end (ctx : ParseContext) (start p : nat) : ParseResult :=
  if ctx.(IsPartial) &&
     match ctx.(Input) !! p with None => true | Some c => isNumberContinuation c end
  then NewParseResultRange NeedMoreInput start p
  else NewParseResultRange Success start p.

Definition parseJSONNumber (ctx : ParseContext) (start pos : nat) : ParseResult :=
  let p := match ctx.(Input) !! pos with Some c => if Ascii.eqb c "-" then pos + 1 else pos | None => pos end in
  match ctx.(Input) !! p with
  | None => exhausted ctx start p
  | Some c =>
      let after := if Ascii.eqb c "0" then Some (p + 1)
        else if between 49 57 (code c) then Some (advance isDigit ctx.(Input) (p + 1)) else None in
      match after with
      | None => NewParseResult Fail start
      | Some p =>
          match number_fraction ctx start p with
          | inl r => r
          | inr p =>
              match number_exponent ctx start p with
              | inl r => r
              | inr p => number_end ctx start p
              end
          end
      end
  end.

(** One more byte, or the end of the input. *)
Definition with_byte (ctx : ParseContext) (start pos : nat) (k : ascii → option ParseResult) : option ParseResult :=
  match ctx.(Input) !! pos with
  | None => Some (exhausted ctx start pos)
  | Some c => k c
  end.

(** Go on from the end of a success, return anything else. *)
Definition on_success (r : option ParseResult) (k : nat → option ParseResult) : option ParseResult :=
  match r with
  | Some r => if decide (r.(Type_) = Success) then k r.(End) else Some r
  | None => None
  end.

Fixpoint parseJSONValue (fuel : nat) (ctx : ParseContext) (start pos : nat) {struct fuel} : option ParseResult :=
  match fuel with
  | O => None
  | S fuel =>
      let pos := skipWS ctx.(Input) pos in
      with_byte ctx start pos (λ c,
        if Ascii.eqb c "{" then parseJSONObject fuel ctx start pos
        else if Ascii.eqb c "[" then parseJSONArray fuel ctx start pos
        else if Ascii.eqb c cQuote then parseJSONString ctx start pos
        else if Ascii.eqb c "t" then Some (parseLiteralAt ctx start pos "true")
        else if Ascii.eqb c "f" then Some (parseLiteralAt ctx start pos "false")
        else if Ascii.eqb c "n" then Some (parseLiteralAt ctx start pos "null")
        else if Ascii.eqb c "-" || isDigit c then Some (parseJSONNumber ctx start pos)
        else Some (NewParseResult Fail start))
  end
with parseJSONObject (fuel : nat) (ctx : ParseContext) (start pos : nat) {struct fuel} : option ParseResult :=
  match fuel with
  | O => None
  | S fuel =>
      let pos := skipWS ctx.(Input) (pos + 1) in
      with_byte ctx start pos (λ c,
        if Ascii.eqb c "}" then Some (NewParseResultRange Success start (pos + 1)) else object_loop fuel ctx start pos)
  end
with object_loop (fuel : nat) (ctx : ParseContext) (start pos : nat) {struct fuel} : option ParseResult :=
  match fuel with
  | O => None
  | S fuel =>
      let pos := skipWS ctx.(Input) pos in
      with_byte ctx start pos (λ c,
        if negb (Ascii.eqb c cQuote) then Some (NewParseResult Fail start) else
        on_success (parseJSONString ctx start pos) (λ pos,
        let pos := skipWS ctx.(Input) pos in
        with_byte ctx start pos (λ c,
        if negb (Ascii.eqb c ":") then Some (NewParseResult Fail start) else
        let pos := skipWS ctx.(Input) (pos + 1) in
        on_success (parseJSONValue fuel ctx start pos) (λ pos,
        let pos := skipWS ctx.(Input) pos in
        with_byte ctx start pos (λ c,
        if Ascii.eqb c "}" then Some (NewParseResultRange Success start (pos + 1))
        else if negb (Ascii.eqb c ",") then Some (NewParseResult Fail start)
        else object_loop fuel ctx start (pos + 1))))))
  end
with parseJSONArray (fuel : nat) (ctx : ParseContext) (start pos : nat) {struct fuel} : option ParseResult :=
  match fuel with
  | O => None
  | S fuel =>
      let pos := skipWS ctx.(Input) (pos + 1) in
      with_byte ctx start pos (λ c,
        if Ascii.eqb c "]" then Some (NewParseResultRange Success start (pos + 1)) else array_loop fuel ctx start pos)
  end
with array_loop (fuel : nat) (ctx : ParseContext) (start pos : nat) {struct fuel} : option ParseResult :=
  match fuel with
  | O => None
  | S fuel =>
      let pos := skipWS ctx.(Input) pos in
      on_success (parseJSONValue fuel ctx start pos) (λ pos,
      let pos := skipWS ctx.(Input) pos in
      with_byte ctx start pos (λ c,
      if Ascii.eqb c "]" then Some (NewParseResultRange Success start (pos + 1))
      else if negb (Ascii.eqb c ",") then Some (NewParseResult Fail start)
      else array_loop fuel ctx start (pos + 1)))
  end.

(** Enough for every position of the input. *)
Definition json_fuel (ctx : ParseContext) : nat := 4 * S (length ctx.(Input)).

Definition JSON_parse (ctx : ParseContext) (start : nat) : option ParseResult :=
  parseJSONValue (json_fuel ctx) ctx start start.

(** ** Positions *)

Lemma span_le f l : span f l ≤ length l.
Proof. induction l as [|c l IH]; simpl; [lia|]. destruct (f c); lia. Qed.

Lemma span_app f l1 l2 : span f l1 < length l1 → span f (l1 ++ l2) = span f l1.
Proof. induction l1 as [|c l1 IH]; simpl; [lia|]. destruct (f c); [|done]. intros. rewrite IH; lia. Qed.

Lemma advance_bounds f s pos : pos ≤ length s → pos ≤ advance f s pos ≤ length s.
Proof. intros H. unfold advance. pose proof (span_le f (drop pos s)) as Hs. rewrite length_drop in Hs. lia. Qed.

Lemma advance_ge f s pos : pos ≤ advance f s pos.
Proof. unfold advance. lia. Qed.

(** An advance that stops inside the input stops there whatever follows. *)
Lemma advance_stable f s t pos : advance f s pos < length s → advance f (s ++ t) pos = advance f s pos.
Proof.
  intros H. unfold advance in *. rewrite drop_app_le by lia. f_equal. apply span_app. rewrite length_drop. lia.
Qed.

(** What every result of these functions satisfies: an unsuccessful one starts
    and ends at the start, "need more input" occurs in partial mode only, and
    the end is within the input. *)
Definition result_ok (ctx : ParseContext) (start pos : nat) (r : ParseResult) : Prop :=
  r.(Start) = start ∧ r.(Nodes) = [] ∧
  match r.(Type_) with
  | Success => pos < r.(End) ≤ length ctx.(Input)
  | NeedMoreInput => ctx.(IsPartial) = true ∧ pos ≤ r.(End) ≤ length ctx.(Input)
  | Fail => r.(End) = start
  end.

Section Bounds.
Context (ctx : ParseContext) (start : nat).
Local Abbreviation L := (length ctx.(Input)).
Local Abbreviation ok := (result_ok ctx start).

Lemma fail_ok pos : ok pos (NewParseResult Fail start).
Proof. done. Qed.

Lemma exhausted_ok pos p : pos ≤ p ≤ L → ok pos (exhausted ctx start p).
Proof. intros H. unfold exhausted. destruct (IsPartial ctx) eqn:Hp; [|done]. by split_and!. Qed.

Lemma success_ok pos e : pos < e ≤ L → ok pos (NewParseResultRange Success start e).
Proof. intros H. by split_and!. Qed.

Lemma ok_weaken pos pos' r : pos' ≤ pos → ok pos r → ok pos' r.
Proof. intros H (? & ? & Hr). split_and!; [done|done|]. destruct (Type_ r); [done|lia|]. destruct Hr. split; [done|lia]. Qed.

Lemma literal_loop_ok pos p lit : pos ≤ p ≤ L → (pos < p ∨ lit ≠ []) → ok pos (literal_loop ctx start p lit).
Proof.
  revert p. induction lit as [|x lit IH]; intros p Hp Hne; simpl.
  - apply success_ok. destruct Hne; [lia|done].
  - destruct (Input ctx !! p) as [c|] eqn:Hc; [|by apply exhausted_ok]. apply lookup_lt_Some in Hc.
    destruct (Ascii.eqb c x); [|apply fail_ok]. apply IH; [lia|]. left. lia.
Qed.

Lemma hex_loop_ok n pos p : pos ≤ p ≤ L →
  match hex_loop n ctx start p with inl r => ok pos r ∧ Type_ r ≠ Success | inr q => p ≤ q ≤ L end.
Proof.
  revert p. induction n as [|n IH]; intros p Hp; simpl; [lia|].
  destruct (Input ctx !! p) as [c|] eqn:Hc.
  - apply lookup_lt_Some in Hc. destruct (isHexDigit c); [|by split; [apply fail_ok|]].
    specialize (IH (S p) ltac:(lia)). destruct (hex_loop n ctx start (S p)); [done|lia].
  - split; [by apply exhausted_ok|]. unfold exhausted. by destruct (IsPartial ctx).
Qed.

Lemma string_loop_ok fuel pos p : pos ≤ p ≤ L → L - p < fuel → ∃ r, json_string_loop fuel ctx start p = Some r ∧ ok pos r.
Proof.
  revert p. induction fuel as [|fuel IH]; intros p Hp Hf; [lia|]. cbn [json_string_loop].
  destruct (Input ctx !! p) as [c|] eqn:Hc; [|eexists; split; [done|by apply exhausted_ok]].
  apply lookup_lt_Some in Hc. destruct (Ascii.eqb c cQuote).
  { eexists. split; [done|]. apply success_ok. lia. }
  destruct (Ascii.eqb c cBackslash).
  - destruct (Input ctx !! (p + 1)) as [e|] eqn:He; [|eexists; split; [done|apply exhausted_ok; lia]].
    apply lookup_lt_Some in He. destruct (json_escape e); [apply IH; lia|].
    destruct (Ascii.eqb e "u"); [|eexists; split; [done|apply fail_ok]].
    pose proof (hex_loop_ok 4 pos (p + 2) ltac:(lia)) as Hh. destruct (hex_loop 4 ctx start (p + 2)) as [r|q].
    + destruct Hh. by exists r.
    + apply IH; lia.
  - destruct (parseUTF8Codepoint (Input ctx) p) as [[r n] []] eqn:Hu.
    + apply parse_success_bounds in Hu. apply IH; lia.
    + eexists. split; [done|]. apply exhausted_ok. lia.
    + eexists. split; [done|apply fail_ok].
Qed.

Lemma digits_ok pos p : pos ≤ p ≤ L →
  match digits ctx start p with inl r => ok pos r ∧ Type_ r ≠ Success | inr q => p < q ≤ L end.
Proof.
  intros Hp. unfold digits. pose proof (advance_bounds isDigit (Input ctx) p ltac:(lia)).
  destruct (Nat.eqb_spec (advance isDigit (Input ctx) p) p) as [->|]; [|lia].
  split; [by apply exhausted_ok|]. unfold exhausted. by destruct (IsPartial ctx).
Qed.

Lemma fraction_ok pos p : pos ≤ p ≤ L →
  match number_fraction ctx start p with inl r => ok pos r ∧ Type_ r ≠ Success | inr q => p ≤ q ≤ L end.
Proof.
  intros Hp. unfold number_fraction. destruct (Input ctx !! p) as [c|] eqn:Hc; [|lia]. apply lookup_lt_Some in Hc.
  destruct (Ascii.eqb c "."); [|lia]. pose proof (digits_ok pos (p + 1) ltac:(lia)).
  destruct (digits ctx start (p + 1)); [done|lia].
Qed.

Lemma exponent_ok pos p : pos ≤ p ≤ L →
  match number_exponent ctx start p with inl r => ok pos r ∧ Type_ r ≠ Success | inr q => p ≤ q ≤ L end.
Proof.
  intros Hp. unfold number_exponent. destruct (Input ctx !! p) as [c|] eqn:Hc; [|lia]. apply lookup_lt_Some in Hc.
  destruct (_ || _); [|lia]. destruct (Input ctx !! (p + 1)) as [d|] eqn:Hd.
  - apply lookup_lt_Some in Hd. set (q := if _ || _ then _ else _). assert (p < q ≤ L) by (unfold q; destruct (_ || _); lia).
    pose proof (digits_ok pos q ltac:(lia)). destruct (digits ctx start q); [done|lia].
  - pose proof (digits_ok pos (p + 1) ltac:(lia)). destruct (digits ctx start (p + 1)); [done|lia].
Qed.

Lemma number_ok pos : pos < L → ok pos (parseJSONNumber ctx start pos).
Proof.
  intros Hpos. unfold parseJSONNumber. set (p := match Input ctx !! pos with Some _ => _ | None => _ end).
  assert (Hp : pos ≤ p ≤ L) by (unfold p; destruct (Input ctx !! pos) as [c|]; [destruct (Ascii.eqb c "-")|]; lia).
  destruct (Input ctx !! p) as [c|] eqn:Hc; [|by apply exhausted_ok]. apply lookup_lt_Some in Hc.
  set (after := if Ascii.eqb c "0" then _ else _).
  assert (Hafter : ∀ q, after = Some q → pos < q ≤ L).
  { unfold after. intros q. pose proof (advance_bounds isDigit (Input ctx) (p + 1) ltac:(lia)).
    destruct (Ascii.eqb c "0"); [intros [= <-]; lia|]. destruct (between 49 57 (code c)); [intros [= <-]; lia|done]. }
  destruct after as [q|]; [|apply fail_ok]. specialize (Hafter q eq_refl).
  pose proof (fraction_ok pos q ltac:(lia)) as Hf. destruct (number_fraction ctx start q) as [r|q1]; [apply Hf|].
  pose proof (exponent_ok pos q1 ltac:(lia)) as He. destruct (number_exponent ctx start q1) as [r|q2]; [apply He|].
  unfold number_end. destruct (IsPartial ctx) eqn:HP; [|by apply success_ok; lia].
  destruct (match Input ctx !! q2 with Some _ => _ | None => _ end); [|by apply success_ok; lia].
  split_and!; [done|done|]. simpl. split; [done|lia].
Qed.

Lemma parseJSONString_ok pos : pos < L → ∃ r, parseJSONString ctx start pos = Some r ∧ ok pos r.
Proof. intros H. apply string_loop_ok; lia. Qed.

(** Total and in bounds. *)
Definition fine (pos : nat) (o : option ParseResult) : Prop := ∃ r, o = Some r ∧ ok pos r.

Lemma with_byte_fine pos p k : pos ≤ p ≤ L → (∀ c, Input ctx !! p = Some c → p < L → fine pos (k c)) → fine pos (with_byte ctx start p k).
Proof.
  intros Hp Hk. unfold with_byte. destruct (Input ctx !! p) as [c|] eqn:Hc.
  - apply Hk; [done|]. by apply lookup_lt_Some in Hc.
  - eexists. split; [done|]. by apply exhausted_ok.
Qed.

Lemma on_success_fine pos p o k : pos ≤ p → fine p o → (∀ e, p < e ≤ L → fine pos (k e)) → fine pos (on_success o k).
Proof.
  intros Hp (r & -> & Hr) Hk. simpl. destruct (decide (Type_ r = Success)) as [Ht|].
  - apply Hk. destruct Hr as (_ & _ & Hr). by rewrite Ht in Hr.
  - exists r. split; [done|]. by eapply ok_weaken.
Qed.

Lemma success_fine pos e : pos < e ≤ L → fine pos (Some (NewParseResultRange Success start e)).
Proof. intros. eexists. split; [done|]. by apply success_ok. Qed.

Lemma fail_fine pos : fine pos (Some (NewParseResult Fail start)).
Proof. eexists. split; [done|]. apply fail_ok. Qed.

Lemma fine_weaken pos p o : pos ≤ p → fine p o → fine pos o.
Proof. intros H (r & ? & ?). exists r. split; [done|]. by eapply ok_weaken. Qed.

Lemma ws_bounds p : p ≤ L → p ≤ skipWS (Input ctx) p ≤ L.
Proof. apply advance_bounds. Qed.

Lemma json_fine fuel :
  (∀ pos, pos ≤ L → 3 * (L - pos) + 1 ≤ fuel → fine pos (parseJSONValue fuel ctx start pos)) ∧
  (∀ pos, pos < L → 3 * (L - pos) ≤ fuel → fine pos (parseJSONObject fuel ctx start pos)) ∧
  (∀ pos, pos ≤ L → 3 * (L - pos) + 2 ≤ fuel → fine pos (object_loop fuel ctx start pos)) ∧
  (∀ pos, pos < L → 3 * (L - pos) ≤ fuel → fine pos (parseJSONArray fuel ctx start pos)) ∧
  (∀ pos, pos ≤ L → 3 * (L - pos) + 2 ≤ fuel → fine pos (array_loop fuel ctx start pos)).
Proof.
  induction fuel as [|fuel (IHv & IHo & IHol & IHa & IHal)]; [split_and!; intros; lia|].
  split_and!; intros pos Hpos Hf; cbn [parseJSONValue parseJSONObject object_loop parseJSONArray array_loop].
  - pose proof (ws_bounds pos Hpos). set (p := skipWS (Input ctx) pos) in *.
    apply with_byte_fine; [lia|]. intros c _ Hlt. apply (fine_weaken pos p); [lia|].
    repeat case_match; try apply fail_fine; try (apply IHo; lia); try (apply IHa; lia);
      try (by apply parseJSONString_ok); try (eexists; split; [done|apply literal_loop_ok; [lia|by right]]).
    eexists. split; [done|by apply number_ok].
  - pose proof (ws_bounds (pos + 1) ltac:(lia)). apply with_byte_fine; [lia|]. intros c _ Hlt.
    case_match; [apply success_fine; lia|]. apply (fine_weaken pos (skipWS (Input ctx) (pos + 1))); [lia|apply IHol; lia].
  - pose proof (ws_bounds pos Hpos). set (p := skipWS (Input ctx) pos) in *.
    apply with_byte_fine; [lia|]. intros c _ Hlt. case_match; [apply fail_fine|].
    apply (on_success_fine _ p); [lia|by apply parseJSONString_ok|]. intros e He.
    pose proof (ws_bounds e ltac:(lia)). apply with_byte_fine; [lia|]. intros c2 _ Hlt2. case_match; [apply fail_fine|].
    set (q := skipWS (Input ctx) (skipWS (Input ctx) e + 1)). pose proof (ws_bounds (skipWS (Input ctx) e + 1) ltac:(lia)).
    apply (on_success_fine _ q); [lia|apply IHv; lia|]. intros e2 He2.
    pose proof (ws_bounds e2 ltac:(lia)). apply with_byte_fine; [lia|]. intros c3 _ Hlt3.
    case_match; [apply success_fine; lia|]. case_match; [apply fail_fine|].
    apply (fine_weaken pos (skipWS (Input ctx) e2 + 1)); [lia|apply IHol; lia].
  - pose proof (ws_bounds (pos + 1) ltac:(lia)). apply with_byte_fine; [lia|]. intros c _ Hlt.
    case_match; [apply success_fine; lia|]. apply (fine_weaken pos (skipWS (Input ctx) (pos + 1))); [lia|apply IHal; lia].
  - pose proof (ws_bounds pos Hpos). set (p := skipWS (Input ctx) pos) in *.
    apply (on_success_fine _ p); [lia|apply IHv; lia|]. intros e He.
    pose proof (ws_bounds e ltac:(lia)). apply with_byte_fine; [lia|]. intros c3 _ Hlt3.
    case_match; [apply success_fine; lia|]. case_match; [apply fail_fine|].
    apply (fine_weaken pos (skipWS (Input ctx) e + 1)); [lia|apply IHal; lia].
Qed.

Lemma JSON_parse_ok : start ≤ L → fine start (JSON_parse ctx start).
Proof. intros H. apply (proj1 (json_fine _)); [done|]. unfold json_fuel. lia. Qed.
End Bounds.

(** ** Verdicts in partial mode are final *)

Section Stable.
Context (s t : list ascii) (b : bool) (start : nat).
Local Abbreviation C := (MkContext s true).
Local Abbreviation C' := (MkContext (s ++ t) b).

Definition definitive (r : ParseResult) : Prop := Type_ r ≠ NeedMoreInput.

(** [o'] keeps the verdict of [o]. *)
Definition keeps (o o' : option ParseResult) : Prop := ∀ r, o = Some r → definitive r → o' = Some r.

Lemma exhausted_indefinite p : ¬ definitive (exhausted C start p).
Proof. intros H. by apply H. Qed.

Lemma lookup_more p c : s !! p = Some c → (s ++ t) !! p = Some c.
Proof. apply lookup_app_l_Some. Qed.

Lemma literal_stable lit p : keeps (Some (literal_loop C start p lit)) (Some (literal_loop C' start p lit)).
Proof.
  intros r [= <-]. revert p. induction lit as [|x lit IH]; intros p; simpl; [done|].
  destruct (s !! p) as [c|] eqn:Hc; [|intros []%exhausted_indefinite]. rewrite (lookup_more _ _ Hc).
  destruct (Ascii.eqb c x); [apply IH|done].
Qed.

(** A step of a number: its results are not final, and a position inside the
    input is. *)
Definition keeps_step (x x' : ParseResult + nat) : Prop :=
  match x with
  | inl r => ¬ definitive r
  | inr q => q < length s → x' = inr q
  end.

Lemma hex_stable n p :
  match hex_loop n C start p with
  | inl r => definitive r → hex_loop n C' start p = inl r
  | inr q => hex_loop n C' start p = inr q
  end.
Proof.
  revert p. induction n as [|n IH]; intros p; simpl; [done|].
  destruct (s !! p) as [c|] eqn:Hc; [|intros []%exhausted_indefinite]. rewrite (lookup_more _ _ Hc).
  destruct (isHexDigit c); [apply IH|done].
Qed.

Lemma string_stable fuel p : keeps (json_string_loop fuel C start p) (json_string_loop fuel C' start p).
Proof.
  intros r. revert p. induction fuel as [|fuel IH]; intros p; cbn [json_string_loop]; [done|]. cbn [Input].
  destruct (s !! p) as [c|] eqn:Hc; [|intros [= <-] []%exhausted_indefinite]. rewrite (lookup_more _ _ Hc).
  destruct (Ascii.eqb c cQuote); [done|]. destruct (Ascii.eqb c cBackslash).
  - destruct (s !! (p + 1)) as [e|] eqn:He; [|intros [= <-] []%exhausted_indefinite]. rewrite (lookup_more _ _ He).
    destruct (json_escape e); [apply IH|]. destruct (Ascii.eqb e "u"); [|done].
    pose proof (hex_stable 4 (p + 2)) as Hh. destruct (hex_loop 4 C start (p + 2)) as [r'|q].
    + intros [= ->] Hd. by rewrite (Hh Hd).
    + rewrite Hh. apply IH.
  - pose proof (parse_stable s t p _ eq_refl) as Hs. destruct (parseUTF8Codepoint s p) as [[r' n] []]; simpl in Hs.
    + rewrite Hs by done. apply IH.
    + intros [= <-] []%exhausted_indefinite.
    + by rewrite Hs.
Qed.

(** More fuel changes nothing. *)
Lemma string_more fuel fuel' c p r : fuel ≤ fuel' → json_string_loop fuel c start p = Some r → json_string_loop fuel' c start p = Some r.
Proof.
  revert fuel' p. induction fuel as [|fuel IH]; intros [|fuel'] p Hle; cbn [json_string_loop]; try done; try lia.
  repeat case_match; try done; apply IH; lia.
Qed.

Lemma parseJSONString_stable p : keeps (parseJSONString C start p) (parseJSONString C' start p).
Proof.
  intros r Hr Hd. unfold parseJSONString in *. apply (string_stable _ _ _ Hr) in Hd.
  eapply string_more; [|exact Hd]. cbn [Input]. rewrite length_app. lia.
Qed.

Lemma digits_stable p : keeps_step (digits C start p) (digits C' start p).
Proof.
  unfold digits. cbn [Input]. destruct (Nat.eqb (advance isDigit s p) p) eqn:He; simpl.
  - intros []%exhausted_indefinite.
  - intros Hq. by rewrite advance_stable, He.
Qed.

Lemma fraction_stable p : keeps_step (number_fraction C start p) (number_fraction C' start p).
Proof.
  unfold number_fraction. cbn [Input]. destruct (s !! p) as [c|] eqn:Hc; simpl.
  - rewrite (lookup_more _ _ Hc). destruct (Ascii.eqb c "."); [apply digits_stable|done].
  - intros Hlt. apply lookup_ge_None_1 in Hc. lia.
Qed.

Lemma exponent_stable p : keeps_step (number_exponent C start p) (number_exponent C' start p).
Proof.
  unfold number_exponent. cbn [Input]. destruct (s !! p) as [c|] eqn:Hc; simpl.
  - rewrite (lookup_more _ _ Hc). destruct (_ || _); [|done]. destruct (s !! (p + 1)) as [d|] eqn:Hd.
    + rewrite (lookup_more _ _ Hd). apply digits_stable.
    + apply lookup_ge_None_1 in Hd. unfold digits, advance. cbn [Input]. rewrite drop_ge by done. simpl.
      rewrite Nat.add_0_r, Nat.eqb_refl. intros []%exhausted_indefinite.
  - intros Hlt. apply lookup_ge_None_1 in Hc. lia.
Qed.

Lemma number_end_stable p : definitive (number_end C start p) → p < length s ∧ number_end C' start p = number_end C start p.
Proof.
  unfold number_end. cbn [Input IsPartial]. destruct (s !! p) as [c|] eqn:Hc; simpl; [|by intros []].
  intros Hd. split; [by eapply lookup_lt_Some|]. rewrite (lookup_more _ _ Hc).
  destruct (isNumberContinuation c); [by destruct Hd|]. by rewrite andb_false_r.
Qed.

Lemma step_le p : (∀ q, number_fraction C start p = inr q → p ≤ q) ∧ (∀ q, number_exponent C start p = inr q → p ≤ q).
Proof.
  unfold number_fraction, number_exponent, digits.
  pose proof (advance_ge isDigit s). split; intros q; repeat case_match; intros [= <-]; try lia.
  - etrans; [|apply (H (p + 1))]. lia.
  - etrans; [|apply (H (p + 2))]. lia.
  - etrans; [|apply (H (p + 1))]. lia.
  - etrans; [|apply (H (p + 1))]. lia.
Qed.

Lemma number_stable p : keeps (Some (parseJSONNumber C start p)) (Some (parseJSONNumber C' start p)).
Proof.
  intros r [= <-] Hd. f_equal. revert Hd. unfold parseJSONNumber. cbn [Input].
  assert (Hpos : ∀ x, s !! p = Some x → (s ++ t) !! p = Some x) by apply lookup_more.
  destruct (s !! p) as [c0|] eqn:Hc0.
  2: { rewrite Hc0. intros []%exhausted_indefinite. }
  rewrite (Hpos _ eq_refl). set (p1 := if Ascii.eqb c0 "-" then p + 1 else p).
  destruct (s !! p1) as [c|] eqn:Hc; [|intros []%exhausted_indefinite]. rewrite (lookup_more _ _ Hc).
  assert (Htail : ∀ q, definitive match number_fraction C start q with
      | inl r => r | inr p => match number_exponent C start p with inl r => r | inr p => number_end C start p end end →
    (q < length s) ∧ match number_fraction C' start q with
      | inl r => r | inr p => match number_exponent C' start p with inl r => r | inr p => number_end C' start p end end =
    match number_fraction C start q with
      | inl r => r | inr p => match number_exponent C start p with inl r => r | inr p => number_end C start p end end).
  { intros q Hd. pose proof (fraction_stable q) as Hf. destruct (step_le q) as [Hle _].
    destruct (number_fraction C start q) as [r|q1] eqn:Hq.
    { by destruct Hf. }
    specialize (Hle q1 eq_refl). pose proof (exponent_stable q1) as He. destruct (step_le q1) as [_ Hle2].
    destruct (number_exponent C start q1) as [r|q2] eqn:Hq2.
    { by destruct He. }
    specialize (Hle2 q2 eq_refl). apply number_end_stable in Hd as [Hlt Hd]. simpl in Hf, He.
    rewrite Hf, He, Hd by lia. split; [lia|done]. }
  destruct (Ascii.eqb c "0"); [apply Htail|].
  destruct (between 49 57 (code c)); [|done]. intros Hd. specialize (Htail _ Hd) as [Hlt Heq].
  rewrite advance_stable by done. exact Heq.
Qed.

Lemma with_byte_stable p k k' :
  (∀ c, s !! p = Some c → keeps (k c) (k' c)) → keeps (with_byte C start p k) (with_byte C' start p k').
Proof.
  intros Hk r. unfold with_byte. cbn [Input]. destruct (s !! p) as [c|] eqn:Hc.
  - rewrite (lookup_more _ _ Hc). by apply Hk.
  - intros [= <-] []%exhausted_indefinite.
Qed.

(** The same after white space, which may go on in the longer input. *)
Lemma ws_byte_stable p k k' :
  (skipWS (s ++ t) p = skipWS s p → ∀ c, keeps (k c) (k' c)) →
  keeps (with_byte C start (skipWS s p) k) (with_byte C' start (skipWS (s ++ t) p) k').
Proof.
  intros Hk. destruct (decide (skipWS s p < length s)) as [Hlt|Hge].
  - pose proof (advance_stable _ _ t _ Hlt) as Heq. fold (skipWS (s ++ t) p) in Heq. fold (skipWS s p) in Heq.
    rewrite Heq. apply with_byte_stable. auto.
  - intros r. unfold with_byte at 1. cbn [Input]. rewrite lookup_ge_None_2 by lia. intros [= <-] []%exhausted_indefinite.
Qed.

Lemma on_success_stable o o' k k' : keeps o o' → (∀ e, keeps (k e) (k' e)) → keeps (on_success o k) (on_success o' k').
Proof.
  intros Ho Hk r. destruct o as [x|]; [|done]. simpl. destruct (decide (Type_ x = Success)) as [Hx|Hx].
  - rewrite (Ho x eq_refl) by (unfold definitive; by rewrite Hx). simpl. rewrite decide_True by done. apply Hk.
  - intros [= <-] Hd. rewrite (Ho x eq_refl Hd). simpl. by rewrite decide_False.
Qed.

Lemma keeps_refl o : keeps o o.
Proof. by intros r. Qed.

Lemma keeps_if (x : bool) o1 o1' o2 o2' : keeps o1 o1' → keeps o2 o2' → keeps (if x then o1 else o2) (if x then o1' else o2').
Proof. by destruct x. Qed.

(** A value whose white space reaches the end of the input. *)
Lemma value_at_end fuel p : length s ≤ skipWS s p → keeps (parseJSONValue fuel C start (skipWS s p)) (parseJSONValue fuel C' start (skipWS (s ++ t) p)).
Proof.
  intros Hge r. destruct fuel as [|fuel]; [done|]. cbn [parseJSONValue]. unfold with_byte at 1. cbn [Input].
  pose proof (advance_ge isWhitespace s (skipWS s p)). fold (skipWS s (skipWS s p)) in *.
  rewrite lookup_ge_None_2 by lia. intros [= <-] []%exhausted_indefinite.
Qed.

Lemma json_stable fuel :
  (∀ p, keeps (parseJSONValue fuel C start p) (parseJSONValue fuel C' start p)) ∧
  (∀ p, keeps (parseJSONObject fuel C start p) (parseJSONObject fuel C' start p)) ∧
  (∀ p, keeps (object_loop fuel C start p) (object_loop fuel C' start p)) ∧
  (∀ p, keeps (parseJSONArray fuel C start p) (parseJSONArray fuel C' start p)) ∧
  (∀ p, keeps (array_loop fuel C start p) (array_loop fuel C' start p)).
Proof.
  induction fuel as [|fuel (IHv & IHo & IHol & IHa & IHal)]; [by split_and!|].
  assert (Hws : ∀ p, keeps (parseJSONValue fuel C start (skipWS s p)) (parseJSONValue fuel C' start (skipWS (s ++ t) p))).
  { intros p. destruct (decide (skipWS s p < length s)); [|apply value_at_end; lia].
    unfold skipWS in *. rewrite advance_stable by done. apply IHv. }
  split_and!; intros p; cbn [parseJSONValue parseJSONObject object_loop parseJSONArray array_loop Input].
  - apply ws_byte_stable. intros -> ?.
    repeat apply keeps_if; auto using keeps_refl, parseJSONString_stable, number_stable; apply literal_stable.
  - apply ws_byte_stable. intros -> ?. apply keeps_if; auto using keeps_refl.
  - apply ws_byte_stable. intros -> ?. apply keeps_if; [apply keeps_refl|].
    apply on_success_stable; [apply parseJSONString_stable|]. intros e.
    apply ws_byte_stable. intros -> ?. apply keeps_if; [apply keeps_refl|].
    apply on_success_stable; [apply Hws|]. intros e'.
    apply ws_byte_stable. intros -> ?. repeat apply keeps_if; auto using keeps_refl.
  - apply ws_byte_stable. intros -> ?. apply keeps_if; auto using keeps_refl.
  - apply on_success_stable; [apply Hws|]. intros e'.
    apply ws_byte_stable. intros -> ?. repeat apply keeps_if; auto using keeps_refl.
Qed.
End Stable.

(** ** Fuel *)

Definition lifts (o o' : option ParseResult) : Prop := ∀ r, o = Some r → o' = Some r.

Lemma lifts_refl o : lifts o o.
Proof. by intros r. Qed.

Lemma lifts_if (x : bool) o1 o1' o2 o2' : lifts o1 o1' → lifts o2 o2' → lifts (if x then o1 else o2) (if x then o1' else o2').
Proof. by destruct x. Qed.

Lemma with_byte_lifts ctx start p k k' : (∀ c, lifts (k c) (k' c)) → lifts (with_byte ctx start p k) (with_byte ctx start p k').
Proof. intros Hk. unfold with_byte. destruct (Input ctx !! p); [apply Hk|apply lifts_refl]. Qed.

Lemma on_success_lifts o o' k k' : lifts o o' → (∀ e, lifts (k e) (k' e)) → lifts (on_success o k) (on_success o' k').
Proof.
  intros Ho Hk r. destruct o as [x|]; [|done]. rewrite (Ho x eq_refl). simpl. destruct (decide (Type_ x = Success)); [apply Hk|done].
Qed.

Lemma json_more ctx start fuel :
  ∀ fuel', fuel ≤ fuel' →
  (∀ p, lifts (parseJSONValue fuel ctx start p) (parseJSONValue fuel' ctx start p)) ∧
  (∀ p, lifts (parseJSONObject fuel ctx start p) (parseJSONObject fuel' ctx start p)) ∧
  (∀ p, lifts (object_loop fuel ctx start p) (object_loop fuel' ctx start p)) ∧
  (∀ p, lifts (parseJSONArray fuel ctx start p) (parseJSONArray fuel' ctx start p)) ∧
  (∀ p, lifts (array_loop fuel ctx start p) (array_loop fuel' ctx start p)).
Proof.
  induction fuel as [|fuel IH]; [by intros ? _; split_and!|]. intros [|fuel'] Hle; [lia|].
  destruct (IH fuel' ltac:(lia)) as (IHv & IHo & IHol & IHa & IHal).
  split_and!; intros p; cbn [parseJSONValue parseJSONObject object_loop parseJSONArray array_loop];
    repeat first [apply with_byte_lifts; intros ?|apply lifts_if|apply on_success_lifts; [|intros ?]];
    auto using lifts_refl.
Qed.

(** C12. A verdict reached while the input is still streaming is final: when the
    JSON parser in partial mode succeeds or fails on what has arrived, it
    returns the very same result on every continuation, in partial and in
    complete mode; in particular the complete parse of the same text agrees
    with any partial parse that did not ask for more. *)
Theorem json_streaming s t b start r :
  JSON_parse (MkContext s true) start = Some r → Type_ r ≠ NeedMoreInput →
  JSON_parse (MkContext (s ++ t) b) start = Some r.
Proof.
  intros Hr Hd. apply (proj1 (json_stable s t b start _) start r Hr) in Hd.
  refine (proj1 (json_more _ start _ _ _) start r Hd). unfold json_fuel. cbn [Input]. rewrite length_app. lia.
Qed.

Lemma json_streaming_witness :
  JSON_parse (MkContext (bytes "{ }, 01" ++ bytes "2 true") false) 0 = Some (NewParseResultRange Success 0 3).
Proof. apply (json_streaming (bytes "{ }, 01") (bytes "2 true") false 0); [vm_compute; reflexivity|discriminate]. Defined.

(** After a leading zero the partial parser takes any further digit for a
    continuation and waits, on every continuation of the input, for more; the
    complete parser ends the number there. *)
Lemma zero_waits t :
  JSON_parse (MkContext (bytes "01" ++ t) true) 0 = Some (NewParseResultRange NeedMoreInput 0 1) ∧
  JSON_parse (MkContext (bytes "01" ++ t) false) 0 = Some (NewParseResultRange Success 0 1).
Proof. split; reflexivity. Qed.

(** C23. The JSON parser always returns, and stays within the input: from every
    position up to the end it gives a result (no index out of range, no
    endless loop) that starts where it was asked to; a success consumes at
    least one byte and ends within the input, a request for more input occurs
    in partial mode only and ends within it, and a failure is reported at the
    start. *)
Theorem json_total ctx start :
  start ≤ length ctx.(Input) →
  ∃ r, JSON_parse ctx start = Some r ∧ r.(Start) = start ∧ r.(Nodes) = [] ∧
    match r.(Type_) with
    | Success => start < r.(End) ≤ length ctx.(Input)
    | NeedMoreInput => ctx.(IsPartial) = true ∧ start ≤ r.(End) ≤ length ctx.(Input)
    | Fail => r.(End) = start
    end.
Proof. intros H. destruct (JSON_parse_ok ctx start H) as (r & Hr & Hok). by exists r. Qed.

Lemma json_total_witness : 1 ≤ length (bytes "x[1,2") ∧
  ∃ r, JSON_parse (MkContext (bytes "x[1,2") true) 1 = Some r ∧ r.(Start) = 1 ∧ r.(Type_) = NeedMoreInput.
Proof.
  split; [vm_compute; lia|].
  destruct (json_total (MkContext (bytes "x[1,2") true) 1) as (r & Hr & Hs & _); [vm_compute; lia|].
  exists r. split_and!; [exact Hr|exact Hs|]. vm_compute in Hr. by injection Hr as <-.
Defined.
