(* ===== verification/PegJsonGrammar.v ===== *)
(** * PegJsonGrammar: what the JSON parser accepts

    The grammar of RFC 8259 over bytes, as inductive predicates over the
    characters that a string may hold unescaped, and the proof that
    [PegJson.JSON_parse] recognizes it with its own set of these characters:
    control characters are in it and U+FFFD is not. *)
From Stdlib Require Import Ascii.
From S2P Require Import Prelude GoMonad PegTypes PegJson.

(** ** The grammar *)

Definition ws (l : list ascii) : Prop := forallb isWhitespace l = true.

Definition digits1 (l : list ascii) : Prop := l ≠ [] ∧ forallb isDigit l = true.

Inductive integer : list ascii → Prop :=
| integer_zero : integer ["0"%char]
| integer_digits c l : between 49 57 (code c) = true → forallb isDigit l = true → integer (c :: l).

Inductive fraction : list ascii → Prop :=
| fraction_none : fraction []
| fraction_some l : digits1 l → fraction ("."%char :: l).

Inductive exponent : list ascii → Prop :=
| exponent_none : exponent []
| exponent_some e sign l : e = "e"%char ∨ e = "E"%char → sign ∈ [[]; ["+"%char]; ["-"%char]] → digits1 l →
    exponent (e :: sign ++ l).

Inductive number : list ascii → Prop :=
| number_intro sign i f e : sign ∈ [[]; ["-"%char]] → integer i → fraction f → exponent e → number (sign ++ i ++ f ++ e).

(** The rest of the grammar over the characters that a string may hold as they
    are, without an escape. *)
Section Grammar.
Context (unescaped : Z → bool).

(** One character of a string: a scalar value written in UTF-8, or an escape. *)
Inductive item_of : list ascii → Prop :=
| item_rune r : scalar r = true → unescaped r = true → item_of (EncodeRune r)
| item_escape c : json_escape c = true → item_of [cBackslash; c]
| item_unicode h1 h2 h3 h4 : forallb isHexDigit [h1; h2; h3; h4] = true →
    item_of [cBackslash; "u"; h1; h2; h3; h4]%char.

Inductive chars_of : list ascii → Prop :=
| chars_nil : chars_of []
| chars_cons i l : item_of i → chars_of l → chars_of (i ++ l).

(** Elements and members carry the white space around them. *)
Inductive json_of : list ascii → Prop :=
| json_true : json_of (bytes "true")
| json_false : json_of (bytes "false")
| json_null : json_of (bytes "null")
| json_number n : number n → json_of n
| json_string l : chars_of l → json_of (cQuote :: l ++ [cQuote])
| json_array_empty w : ws w → json_of ("["%char :: w ++ ["]"%char])
| json_array l : elements_of l → json_of ("["%char :: l ++ ["]"%char])
| json_object_empty w : ws w → json_of ("{"%char :: w ++ ["}"%char])
| json_object l : members_of l → json_of ("{"%char :: l ++ ["}"%char])
with elements_of : list ascii → Prop :=
| elements_one w v w' : ws w → json_of v → ws w' → elements_of (w ++ v ++ w')
| elements_cons w v w' l : ws w → json_of v → ws w' → elements_of l → elements_of (w ++ v ++ w' ++ ","%char :: l)
with members_of : list ascii → Prop :=
| members_one m : member_of m → members_of m
| members_cons m l : member_of m → members_of l → members_of (m ++ ","%char :: l)
with member_of : list ascii → Prop :=
| member_intro w k w1 w2 v w3 : ws w → chars_of k → ws w1 → ws w2 → json_of v → ws w3 →
    member_of (w ++ (cQuote :: k ++ [cQuote]) ++ w1 ++ ":"%char :: w2 ++ v ++ w3).

(** A document inside a longer text. *)
Definition document_of (l : list ascii) : Prop := ∃ w v, l = w ++ v ∧ ws w ∧ json_of v.

Scheme json_mut := Minimality for json_of Sort Prop
with elements_mut := Minimality for elements_of Sort Prop
with members_mut := Minimality for members_of Sort Prop
with member_mut := Minimality for member_of Sort Prop.
Combined Scheme json_mutual from json_mut, elements_mut, members_mut, member_mut.
End Grammar.

Arguments item_rune {unescaped} r _ _.
Arguments item_escape {unescaped} c _.
Arguments item_unicode {unescaped} h1 h2 h3 h4 _.
Arguments chars_nil {unescaped}.
Arguments chars_cons {unescaped} i l _ _.
Arguments json_true {unescaped}.
Arguments json_false {unescaped}.
Arguments json_null {unescaped}.
Arguments json_number {unescaped} n _.
Arguments json_string {unescaped} l _.
Arguments json_array_empty {unescaped} w _.
Arguments json_array {unescaped} l _.
Arguments json_object_empty {unescaped} w _.
Arguments json_object {unescaped} l _.
Arguments elements_one {unescaped} w v w' _ _ _.
Arguments elements_cons {unescaped} w v w' l _ _ _ _.
Arguments members_one {unescaped} m _.
Arguments members_cons {unescaped} m l _ _.
Arguments member_intro {unescaped} w k w1 w2 v w3 _ _ _ _ _ _.

(** The characters of RFC 8259, section 7:
    [%x20-21 / %x23-5B / %x5D-10FFFF] (surrogates have no UTF-8 form). *)
Definition rfc8259_unescaped (r : Z) : bool := (32 <=? r)%Z && negb (r =? 34)%Z && negb (r =? 92)%Z.

(** Those that [parseJSONString] takes: also the control characters, and all
    but U+FFFD, which the decoder refuses. *)
Definition accepted_unescaped (r : Z) : bool := negb (r =? RuneError)%Z && negb (r =? 34)%Z && negb (r =? 92)%Z.

(** JSON, and the dialect of the parser. *)
Abbreviation rfc8259_document := (document_of rfc8259_unescaped).
Abbreviation item := (item_of accepted_unescaped).
Abbreviation chars := (chars_of accepted_unescaped).
Abbreviation json := (json_of accepted_unescaped).
Abbreviation elements := (elements_of accepted_unescaped).
Abbreviation members := (members_of accepted_unescaped).
Abbreviation member := (member_of accepted_unescaped).
Abbreviation document := (document_of accepted_unescaped).

Lemma accepted_spec r : accepted_unescaped r = true ↔ r ≠ RuneError ∧ r ≠ 34%Z ∧ r ≠ 92%Z.
Proof. unfold accepted_unescaped. rewrite !andb_true_iff, !negb_true_iff, !Z.eqb_neq. tauto. Qed.

Lemma rfc8259_spec r : rfc8259_unescaped r = true ↔ (32 ≤ r)%Z ∧ r ≠ 34%Z ∧ r ≠ 92%Z.
Proof. unfold rfc8259_unescaped. rewrite !andb_true_iff, !negb_true_iff, !Z.eqb_neq, Z.leb_le. tauto. Qed.

(** ** Two dialects *)

(** [i] occurs in [l]. *)
Definition inside (i l : list ascii) : Prop := ∃ a b, l = a ++ i ++ b.

Lemma inside_refl l : inside l l.
Proof. exists [], []. by rewrite app_nil_r. Qed.

Lemma inside_app i l1 l2 : inside i l1 ∨ inside i l2 → inside i (l1 ++ l2).
Proof.
  intros [(a & b & ->)|(a & b & ->)]; [exists a, (b ++ l2)|exists (l1 ++ a), b]; by rewrite <- ?app_assoc.
Qed.

Lemma inside_cons i c l : inside i l → inside i (c :: l).
Proof. intros H. apply (inside_app i [c]). by right. Qed.

(** The grammar only asks about the characters that occur. *)
Section Mono.
Context (P Q : Z → bool).

Definition allows (l : list ascii) : Prop :=
  ∀ r, scalar r = true → P r = true → inside (EncodeRune r) l → Q r = true.

Lemma allows_app l1 l2 : allows (l1 ++ l2) → allows l1 ∧ allows l2.
Proof. intros H. split; intros r Hs Hp Hi; apply H; auto using inside_app. Qed.

Lemma allows_cons c l : allows (c :: l) → allows l.
Proof. intros H r Hs Hp Hi. apply H; auto using inside_cons. Qed.

Ltac split_allows := repeat match goal with
  | H : allows (_ ++ _) |- _ => apply allows_app in H as [??]
  | H : allows (_ :: _) |- _ => apply allows_cons in H
  end.

Lemma chars_mono l : chars_of P l → allows l → chars_of Q l.
Proof.
  induction 1 as [|i l Hi Hl IH]; intros H; [constructor|]. split_allows. constructor; [|by apply IH].
  destruct Hi as [r Hs Hp|c Hc|h1 h2 h3 h4 Hh]; constructor; try done. by apply H; [..|apply inside_refl].
Qed.

Lemma json_mono :
  (∀ v, json_of P v → allows v → json_of Q v) ∧ (∀ l, elements_of P l → allows l → elements_of Q l) ∧
  (∀ l, members_of P l → allows l → members_of Q l) ∧ (∀ m, member_of P m → allows m → member_of Q m).
Proof.
  apply (json_mutual P (λ v, allows v → json_of Q v) (λ l, allows l → elements_of Q l)
    (λ l, allows l → members_of Q l) (λ m, allows m → member_of Q m));
    intros; split_allows; try (constructor; auto using chars_mono; fail).
Qed.

Lemma document_mono l : document_of P l → allows l → document_of Q l.
Proof.
  intros (w & v & -> & Hw & Hv) [_ H]%allows_app. exists w, v. split_and!; [done|done|]. by apply (proj1 json_mono).
Qed.
End Mono.

(** A text without control characters. *)
Definition no_controls (l : list ascii) : Prop := Forall (λ c, (32 ≤ code c)%Z) l.

(** A JSON text without U+FFFD is in the dialect. *)
Lemma rfc8259_accepted l : rfc8259_document l → ¬ inside (EncodeRune RuneError) l → document l.
Proof.
  intros H Hn. apply (document_mono _ _ _ H). intros r _ (Hr & Hq & Hb)%rfc8259_spec Hi. apply accepted_spec.
  split_and!; [|done|done]. by intros ->.
Qed.

(** A text of the dialect without control characters is JSON. *)
Lemma accepted_rfc8259 l : document l → no_controls l → rfc8259_document l.
Proof.
  intros H Hn. apply (document_mono _ _ _ H). intros r Hs (_ & Hq & Hb)%accepted_spec (a & b & Hab). apply rfc8259_spec.
  split_and!; [|done|done]. destruct (Z.leb_spec 32 r) as [|Hlt]; [done|]. exfalso.
  pose proof (EncodeRune_bytes r Hs) as He. unfold rune_bytes in He. rewrite (proj2 (Z.ltb_lt r 128)) in He by lia.
  destruct (EncodeRune r) as [|c [|]]; try done. simpl in He. injection He as He.
  unfold no_controls in Hn. rewrite Hab, Forall_app in Hn. destruct Hn as [_ Hn]. apply Forall_cons in Hn as [Hn _]. lia.
Qed.

(** A string of JSON holds no control character: every byte is at least
    0x20. *)
Lemma chars_no_controls l : chars_of rfc8259_unescaped l → no_controls l.
Proof.
  unfold no_controls. induction 1 as [|i l Hi Hl IH]; [constructor|]. apply Forall_app. split; [|done].
  destruct Hi as [r Hs [Hr _]%rfc8259_spec|c Hc|h1 h2 h3 h4 Hh].
  - pose proof (EncodeRune_bytes r Hs) as He. apply Forall_forall. intros c Hc%(list_elem_of_fmap_2 code).
    change (map code (EncodeRune r)) with (code <$> EncodeRune r) in He. rewrite He in Hc.
    unfold scalar in Hs. rewrite orb_true_iff, !between_spec in Hs. unfold rune_bytes in Hc.
    repeat case_match; rewrite ?Z.ltb_ge in *; set_unfold in Hc; destruct_or?; try done; modlia.
  - assert (Hb := byte_cases (λ c, implb (json_escape c) (32 <=? code c)%Z) ltac:(vm_compute; reflexivity) c).
    cbv beta in Hb. rewrite Hc in Hb. repeat constructor; [done|lia].
  - assert (Hb := byte_cases (λ c, implb (isHexDigit c) (32 <=? code c)%Z) ltac:(vm_compute; reflexivity)).
    cbv beta in Hb. simpl in Hh. bool_hyps.
    repeat constructor; try done; match goal with |- (32 ≤ code ?c)%Z => specialize (Hb c) end;
      repeat match goal with H : isHexDigit _ = true |- _ => rewrite H in Hb; clear H end; lia.
Qed.

(** ** Reading *)

(** The bytes from [p] to [q] are [l]. *)
Definition reads (s : list ascii) (p q : nat) (l : list ascii) : Prop := drop p s = l ++ drop q s ∧ q = p + length l.

Lemma reads_nil s p : reads s p p [].
Proof. split; simpl; [done|lia]. Qed.

Lemma reads_app s p q r l1 l2 : reads s p q l1 → reads s q r l2 → reads s p r (l1 ++ l2).
Proof. intros [H1 ->] [H2 ->]. split; [by rewrite H1, H2, app_assoc|]. rewrite length_app. lia. Qed.

Lemma reads_one s p c : s !! p = Some c → reads s p (p + 1) [c].
Proof. intros H. split; [|done]. rewrite (drop_S _ _ _ H). by rewrite Nat.add_1_r. Qed.

Lemma reads_intro s p l rest : drop p s = l ++ rest → reads s p (p + length l) l.
Proof. intros H. split; [|done]. by rewrite <- drop_drop, H, drop_app_length. Qed.

Lemma span_take f l : forallb f (take (span f l) l) = true.
Proof. induction l as [|c l IH]; simpl; [done|]. destruct (f c) eqn:Hc; simpl; [by rewrite Hc|done]. Qed.

Lemma reads_advance f s p : ∃ l, reads s p (advance f s p) l ∧ forallb f l = true.
Proof.
  exists (take (span f (drop p s)) (drop p s)). split; [|apply span_take].
  pose proof (span_le f (drop p s)) as Hle. unfold advance.
  assert (length (take (span f (drop p s)) (drop p s)) = span f (drop p s)) as Hlen by (rewrite length_take; lia).
  rewrite <- Hlen at 1. eapply reads_intro. by rewrite take_drop.
Qed.

Lemma reads_ws s p : ∃ w, reads s p (skipWS s p) w ∧ ws w.
Proof. apply reads_advance. Qed.

(** ** Soundness *)

Section Sound.
Context (ctx : ParseContext) (start : nat).
Local Abbreviation s := ctx.(Input).

Lemma exhausted_not p : Type_ (exhausted ctx start p) ≠ Success.
Proof. unfold exhausted. by destruct (IsPartial ctx). Qed.

Lemma literal_sound lit p :
  Type_ (literal_loop ctx start p lit) = Success → reads s p (End (literal_loop ctx start p lit)) lit.
Proof.
  revert p. induction lit as [|x lit IH]; intros p; simpl; [intros _; apply reads_nil|].
  destruct (s !! p) as [c|] eqn:Hc; [|by intros H%exhausted_not]. destruct (Ascii.eqb_spec c x) as [->|]; [|done].
  intros H. apply (reads_app _ _ (S p) _ [x] lit); [|by apply IH]. rewrite <- Nat.add_1_r. by apply reads_one.
Qed.

Lemma hex_sound n p q : hex_loop n ctx start p = inr q → ∃ l, reads s p q l ∧ length l = n ∧ forallb isHexDigit l = true.
Proof.
  revert p. induction n as [|n IH]; intros p; simpl.
  - intros [= <-]. exists []. split_and!; [apply reads_nil|done|done].
  - destruct (s !! p) as [c|] eqn:Hc; [|done]. destruct (isHexDigit c) eqn:Hh; [|done].
    intros (l & Hl & Hn & Hf)%IH. exists (c :: l). split_and!; simpl; [|by rewrite Hn|by rewrite Hh].
    apply (reads_app _ _ (S p) _ [c] l); [|done]. rewrite <- Nat.add_1_r. by apply reads_one.
Qed.

Lemma hex_not n p r : hex_loop n ctx start p = inl r → Type_ r ≠ Success.
Proof.
  revert p. induction n as [|n IH]; intros p; simpl; [done|]. destruct (s !! p) as [c|].
  - destruct (isHexDigit c); [apply IH|by intros [= <-]].
  - intros [= <-]. apply exhausted_not.
Qed.

Lemma string_sound fuel p r :
  json_string_loop fuel ctx start p = Some r → Type_ r = Success → ∃ l, reads s p (End r) (l ++ [cQuote]) ∧ chars l.
Proof.
  revert p. induction fuel as [|fuel IH]; intros p; cbn [json_string_loop]; [done|].
  destruct (s !! p) as [c|] eqn:Hc; [|intros [= <-] []%exhausted_not].
  destruct (Ascii.eqb_spec c cQuote) as [->|Hq].
  { intros [= <-] _. exists []. split; [by apply reads_one|constructor]. }
  assert (Hgo : ∀ q i, reads s p q i → item i → json_string_loop fuel ctx start q = Some r → Type_ r = Success →
    ∃ l, reads s p (End r) (l ++ [cQuote]) ∧ chars l).
  { intros q i Hi Hitem Hr Ht. destruct (IH q Hr Ht) as (l & Hl & Hch). exists (i ++ l). split; [|by constructor].
    rewrite <- app_assoc. by eapply reads_app. }
  destruct (Ascii.eqb_spec c cBackslash) as [->|Hb].
  - destruct (s !! (p + 1)) as [e|] eqn:He; [|intros [= <-] []%exhausted_not].
    assert (Hcode : reads s p (p + 2) [cBackslash; e]).
    { replace (p + 2) with (p + 1 + 1) by lia. apply (reads_app _ _ (p + 1) _ [cBackslash] [e]); by apply reads_one. }
    destruct (json_escape e) eqn:Hesc; [apply (Hgo _ _ Hcode); by constructor|].
    destruct (Ascii.eqb_spec e "u") as [->|]; [|intros [= <-]; done].
    destruct (hex_loop 4 ctx start (p + 2)) as [r'|q] eqn:Hh.
    { intros [= ->] []%(hex_not _ _ _ Hh). }
    apply hex_sound in Hh as (l & Hl & Hn & Hf). destruct l as [|h1 [|h2 [|h3 [|h4 [|]]]]]; try done.
    apply (Hgo q _ (reads_app _ _ _ _ _ _ Hcode Hl)). by constructor.
  - destruct (parseUTF8Codepoint s p) as [[r' n] []] eqn:Hu; [|intros [= <-] []%exhausted_not|intros [= <-]; done].
    apply parse_rune in Hu as (Hsc & Hr & -> & rest & Hd). apply (Hgo _ (EncodeRune r')); [by eapply reads_intro|].
    pose proof Hd as Hd2. rewrite (drop_S _ _ _ Hc) in Hd2.
    assert (Hfirst : ∀ x, rune_bytes r' = [x] → code c = x).
    { intros x Hx. rewrite <- (EncodeRune_bytes r' Hsc) in Hx. destruct (EncodeRune r') as [|y [|]]; try done. simpl in *. congruence. }
    constructor; [done|]. apply accepted_spec. split_and!; [done|..]; intros ->; [apply Hq|apply Hb]; apply (inj code); by apply Hfirst.
Qed.

Lemma digits_sound p q : digits ctx start p = inr q → ∃ l, reads s p q l ∧ digits1 l.
Proof.
  unfold digits. destruct (reads_advance isDigit s p) as (l & Hl & Hf).
  destruct (Nat.eqb_spec (advance isDigit s p) p) as [|Hne]; [done|]. intros [= <-]. exists l. split; [done|].
  split; [|done]. intros ->. apply Hne. destruct Hl as [_ ->]. simpl. lia.
Qed.

Lemma digits_not p r : digits ctx start p = inl r → Type_ r ≠ Success.
Proof. unfold digits. destruct (Nat.eqb _ _); [|done]. intros [= <-]. apply exhausted_not. Qed.

Lemma fraction_sound p : match number_fraction ctx start p with
  | inl r => Type_ r ≠ Success | inr q => ∃ l, reads s p q l ∧ fraction l end.
Proof.
  unfold number_fraction. assert (Hnone : ∃ l, reads s p p l ∧ fraction l) by (exists []; split; [apply reads_nil|constructor]).
  destruct (s !! p) as [c|] eqn:Hc; [|done]. destruct (Ascii.eqb_spec c ".") as [->|]; [|done].
  destruct (digits ctx start (p + 1)) as [r|q] eqn:Hd; [by eapply digits_not|].
  apply digits_sound in Hd as (l & Hl & Hds). exists ("."%char :: l). split; [|by constructor].
  apply (reads_app _ _ (p + 1) _ [_] l); [by apply reads_one|done].
Qed.

Lemma exponent_sound p : match number_exponent ctx start p with
  | inl r => Type_ r ≠ Success | inr q => ∃ l, reads s p q l ∧ exponent l end.
Proof.
  unfold number_exponent. assert (Hnone : ∃ l, reads s p p l ∧ exponent l) by (exists []; split; [apply reads_nil|constructor]).
  destruct (s !! p) as [c|] eqn:Hc; [|done]. destruct (_ || _) eqn:He; [|done].
  assert (Hcase : c = "e"%char ∨ c = "E"%char) by (apply orb_true_iff in He as [?%Ascii.eqb_eq|?%Ascii.eqb_eq]; auto).
  assert (Hdig : ∀ sign q r, sign ∈ [[]; ["+"%char]; ["-"%char]] → reads s (p + 1) q sign → digits ctx start q = inr r →
    ∃ l, reads s p r l ∧ exponent l).
  { intros sign q r Hsign Hq (l & Hl & Hds)%digits_sound. exists (c :: sign ++ l). split; [|by constructor].
    apply (reads_app _ _ (p + 1) _ [c]); [by apply reads_one|]. by eapply reads_app. }
  destruct (s !! (p + 1)) as [d|] eqn:Hd.
  - destruct (Ascii.eqb d "+" || Ascii.eqb d "-")%char eqn:Hs.
    + destruct (digits ctx start (p + 2)) as [r|q] eqn:Hq; [by eapply digits_not|].
      apply (Hdig [d] (p + 2)); [|replace (p + 2) with (p + 1 + 1) by lia; by apply reads_one|done].
      apply orb_true_iff in Hs as [->%Ascii.eqb_eq| ->%Ascii.eqb_eq]; set_solver.
    + destruct (digits ctx start (p + 1)) as [r|q] eqn:Hq; [by eapply digits_not|].
      apply (Hdig [] (p + 1)); [set_solver|apply reads_nil|done].
  - destruct (digits ctx start (p + 1)) as [r|q] eqn:Hq; [by eapply digits_not|].
    apply (Hdig [] (p + 1)); [set_solver|apply reads_nil|done].
Qed.

Lemma number_sound p :
  Type_ (parseJSONNumber ctx start p) = Success → ∃ l, reads s p (End (parseJSONNumber ctx start p)) l ∧ number l.
Proof.
  unfold parseJSONNumber. set (p1 := match s !! p with Some _ => _ | None => _ end).
  assert (Hsign : ∃ sign, sign ∈ [[]; ["-"%char]] ∧ reads s p p1 sign).
  { unfold p1. destruct (s !! p) as [c|] eqn:Hc; [|exists []; split; [set_solver|apply reads_nil]].
    destruct (Ascii.eqb_spec c "-") as [->|]; [|exists []; split; [set_solver|apply reads_nil]].
    exists ["-"%char]. split; [set_solver|by apply reads_one]. }
  destruct Hsign as (sign & Hsign & Hp1).
  destruct (s !! p1) as [c|] eqn:Hc; [|by intros ?%exhausted_not].
  assert (Hafter : ∀ q, (if Ascii.eqb c "0" then Some (p1 + 1) else if between 49 57 (code c) then
    Some (advance isDigit s (p1 + 1)) else None) = Some q → ∃ i, reads s p1 q i ∧ integer i).
  { intros q. destruct (Ascii.eqb_spec c "0") as [->|].
    - intros [= <-]. exists ["0"%char]. split; [by apply reads_one|constructor].
    - destruct (between 49 57 (code c)) eqn:Hb; [|done]. intros [= <-].
      destruct (reads_advance isDigit s (p1 + 1)) as (l & Hl & Hf). exists (c :: l). split; [|by constructor].
      apply (reads_app _ _ (p1 + 1) _ [c]); [by apply reads_one|done]. }
  destruct (if Ascii.eqb c "0" then _ else _) as [q|]; [|done]. destruct (Hafter q eq_refl) as (i & Hi & Hint).
  pose proof (fraction_sound q) as Hf. destruct (number_fraction ctx start q) as [r|q1]; [done|]. destruct Hf as (f & Hf & Hfr).
  pose proof (exponent_sound q1) as He. destruct (number_exponent ctx start q1) as [r|q2]; [done|]. destruct He as (e & He & Hex).
  intros Ht. exists (sign ++ i ++ f ++ e). split; [|by constructor].
  replace (End (number_end ctx start q2)) with q2 by (unfold number_end in *; by destruct (_ && _)).
  repeat (eapply reads_app; [done|]). done.
Qed.

(** A result of the JSON functions is a success that reads [P]. *)
Definition sound (p : nat) (o : option ParseResult) (P : list ascii → Prop) : Prop :=
  ∀ r, o = Some r → Type_ r = Success → ∃ l, reads s p (End r) l ∧ P l.

Lemma sound_fail p P : sound p (Some (NewParseResult Fail start)) P.
Proof. by intros r [= <-]. Qed.

Lemma sound_with_byte p k P : (∀ c, s !! p = Some c → sound p (k c) P) → sound p (with_byte ctx start p k) P.
Proof.
  intros Hk. unfold with_byte. destruct (s !! p) as [c|] eqn:Hc; [by apply Hk|].
  intros r [= <-]. by intros H%exhausted_not.
Qed.

(** Read [l] first. *)
Lemma sound_after p q l o (P Q : list ascii → Prop) :
  reads s p q l → sound q o P → (∀ l', P l' → Q (l ++ l')) → sound p o Q.
Proof. intros Hl Ho HPQ r Hr Ht. destruct (Ho r Hr Ht) as (l' & Hl' & HP). exists (l ++ l'). split; [by eapply reads_app|auto]. Qed.

Lemma sound_on_success p o k (P Q : list ascii → Prop) :
  sound p o P → (∀ q l, reads s p q l → P l → sound q (k q) (λ l', Q (l ++ l'))) → sound p (on_success o k) Q.
Proof.
  intros Ho Hk r. destruct o as [x|]; [|done]. simpl. destruct (decide (Type_ x = Success)) as [Hx|]; [|by intros [= ->]].
  destruct (Ho x eq_refl Hx) as (l & Hl & HP). intros Hr Ht. destruct (Hk _ l Hl HP r Hr Ht) as (l' & Hl' & HQ).
  exists (l ++ l'). split; [by eapply reads_app|done].
Qed.

Lemma sound_close p c (P : list ascii → Prop) : s !! p = Some c → P [c] → sound p (Some (NewParseResultRange Success start (p + 1))) P.
Proof. intros Hc HP r [= <-] _. exists [c]. split; [by apply reads_one|done]. Qed.

Lemma sound_string p : s !! p = Some cQuote → sound p (parseJSONString ctx start p) (λ l, ∃ k, l = cQuote :: k ++ [cQuote] ∧ chars k).
Proof.
  intros Hc r Hr Ht. destruct (string_sound _ _ _ Hr Ht) as (k & Hk & Hch). exists (cQuote :: k ++ [cQuote]).
  split; [|by exists k]. apply (reads_app _ _ (p + 1) _ [cQuote]); [by apply reads_one|done].
Qed.

Lemma ws_app w1 w2 : ws w1 → ws w2 → ws (w1 ++ w2).
Proof. unfold ws. intros. rewrite forallb_app. by rewrite H, H0. Qed.

Lemma elements_ws w l : ws w → elements l → elements (w ++ l).
Proof. intros Hw []; rewrite (app_assoc w); [apply elements_one|apply elements_cons]; auto using ws_app. Qed.

Lemma member_ws w l : ws w → member l → member (w ++ l).
Proof. intros Hw []. rewrite (app_assoc w). constructor; auto using ws_app. Qed.

Lemma members_ws w l : ws w → members l → members (w ++ l).
Proof. intros Hw []; [apply members_one|rewrite app_assoc; apply members_cons]; auto using member_ws. Qed.

Definition value_lang (l : list ascii) : Prop := ∃ w v, l = w ++ v ∧ ws w ∧ json v.

Definition members_lang (l : list ascii) : Prop := ∃ m, l = m ++ ["}"%char] ∧ members m.
Definition elements_lang (l : list ascii) : Prop := ∃ m, l = m ++ ["]"%char] ∧ elements m.

(** One step of each function, given its recursive calls. *)
Lemma value_sound fuel p :
  (∀ p, s !! p = Some "{"%char → sound p (parseJSONObject fuel ctx start p) json) →
  (∀ p, s !! p = Some "["%char → sound p (parseJSONArray fuel ctx start p) json) →
  sound p (parseJSONValue (S fuel) ctx start p) value_lang.
Proof.
  intros IHo IHa. cbn [parseJSONValue].
  destruct (reads_ws s p) as (w & Hw & Hws). set (q := skipWS s p) in *.
  apply (sound_after p q w _ json value_lang Hw); [|intros v Hv; by exists w, v].
  apply sound_with_byte. intros c Hc.
  destruct (Ascii.eqb_spec c "{") as [->|]; [by apply IHo|]. destruct (Ascii.eqb_spec c "[") as [->|]; [by apply IHa|].
  destruct (Ascii.eqb_spec c cQuote) as [->|].
  { intros r Hr Ht. destruct (sound_string q Hc r Hr Ht) as (l & Hl & k & -> & Hk). eexists. split; [exact Hl|by constructor]. }
  destruct (Ascii.eqb c "t").
  { intros r [= <-] Ht. exists (bytes "true"). split; [by apply literal_sound|constructor]. }
  destruct (Ascii.eqb c "f").
  { intros r [= <-] Ht. exists (bytes "false"). split; [by apply literal_sound|constructor]. }
  destruct (Ascii.eqb c "n").
  { intros r [= <-] Ht. exists (bytes "null"). split; [by apply literal_sound|constructor]. }
  destruct (_ || _); [|apply sound_fail]. intros r [= <-] (l & Hl & Hn)%number_sound. exists l. split; [done|by constructor].
Qed.

Lemma object_sound fuel p :
  (∀ p, sound p (object_loop fuel ctx start p) members_lang) →
  s !! p = Some "{"%char → sound p (parseJSONObject (S fuel) ctx start p) json.
Proof.
  intros IHol. cbn [parseJSONObject].
  intros Hp. destruct (reads_ws s (p + 1)) as (w & Hw & Hws). set (q := skipWS s (p + 1)) in *.
  apply (sound_after p q (["{"%char] ++ w) _ (λ l, json ("{"%char :: w ++ l))); [eapply reads_app; [by apply reads_one|done]| |done].
  apply sound_with_byte. intros c Hc. destruct (Ascii.eqb_spec c "}") as [->|].
  { apply (sound_close _ "}"%char); [done|by constructor]. }
  intros r Hr Ht. destruct (IHol q r Hr Ht) as (l & Hl & m & -> & Hm). exists (m ++ ["}"%char]). split; [done|].
  rewrite app_assoc. by apply json_object, members_ws.
Qed.

Lemma object_loop_sound fuel p :
  (∀ p, sound p (parseJSONValue fuel ctx start p) value_lang) → (∀ p, sound p (object_loop fuel ctx start p) members_lang) →
  sound p (object_loop (S fuel) ctx start p) members_lang.
Proof.
  intros IHv IHol. cbn [object_loop].
  destruct (reads_ws s p) as (w & Hw & Hws). set (q := skipWS s p) in *.
  apply (sound_after p q w _ members_lang _ Hw).
  2: { intros l (m & -> & Hm). exists (w ++ m). split; [by rewrite app_assoc|by apply members_ws]. }
  apply sound_with_byte. intros c Hc. destruct (Ascii.eqb_spec c cQuote) as [->|]; [|apply sound_fail]. cbn [negb].
  apply (sound_on_success _ _ _ _ _ (sound_string q Hc)). intros q1 kl _ (k & -> & Hk).
  destruct (reads_ws s q1) as (w1 & Hw1 & Hws1). set (q2 := skipWS s q1) in *.
  apply (sound_after q1 q2 w1 _ (λ l, ∃ m, (cQuote :: k ++ [cQuote]) ++ w1 ++ l = m ++ ["}"%char] ∧ members m) _ Hw1); [|done].
  apply sound_with_byte. intros c2 Hc2. destruct (Ascii.eqb_spec c2 ":") as [->|]; [|apply sound_fail]. cbn [negb].
  destruct (reads_ws s (q2 + 1)) as (w2 & Hw2 & Hws2). set (q3 := skipWS s (q2 + 1)) in *.
  apply (sound_after q2 q3 ([":"%char] ++ w2) _ (λ l, ∃ m, (cQuote :: k ++ [cQuote]) ++ w1 ++ ([":"%char] ++ w2) ++ l = m ++ ["}"%char] ∧ members m));
    [eapply reads_app; [by apply reads_one|done]| |done].
  apply (sound_on_success _ _ _ _ _ (IHv q3)). intros q4 vl _ (w2' & v & -> & Hws2' & Hv).
  destruct (reads_ws s q4) as (w3 & Hw3 & Hws3). set (q5 := skipWS s q4) in *.
  assert (Hmember : member ((cQuote :: k ++ [cQuote]) ++ w1 ++ ":"%char :: (w2 ++ w2') ++ v ++ w3)).
  { by apply (member_intro [] k w1 (w2 ++ w2') v w3); auto using ws_app. }
  revert Hmember. set (m := _ ++ w1 ++ _). intros Hmember.
  apply (sound_after q4 q5 w3 _ (λ l, ∃ m', m ++ l = m' ++ ["}"%char] ∧ members m') _ Hw3).
  2: { intros l (m' & Hm' & Hmm). exists m'. split; [|done]. rewrite <- Hm'. unfold m.
    simpl. by rewrite <- !app_assoc; simpl; rewrite <- !app_assoc. }
  apply sound_with_byte. intros c3 Hc3. destruct (Ascii.eqb_spec c3 "}") as [->|].
  { apply (sound_close _ "}"%char); [done|]. exists m. split; [done|by constructor]. }
  destruct (Ascii.eqb_spec c3 ",") as [->|]; [|apply sound_fail]. cbn [negb].
  apply (sound_after q5 (q5 + 1) [","%char] _ _ _ (reads_one _ _ _ Hc3) (IHol (q5 + 1))).
  intros l (m' & -> & Hm'). exists (m ++ ","%char :: m'). split; [by rewrite <- app_assoc|by constructor].
Qed.

Lemma array_sound fuel p :
  (∀ p, sound p (array_loop fuel ctx start p) elements_lang) →
  s !! p = Some "["%char → sound p (parseJSONArray (S fuel) ctx start p) json.
Proof.
  intros IHal. cbn [parseJSONArray].
  intros Hp. destruct (reads_ws s (p + 1)) as (w & Hw & Hws). set (q := skipWS s (p + 1)) in *.
  apply (sound_after p q (["["%char] ++ w) _ (λ l, json ("["%char :: w ++ l))); [eapply reads_app; [by apply reads_one|done]| |done].
  apply sound_with_byte. intros c Hc. destruct (Ascii.eqb_spec c "]") as [->|].
  { apply (sound_close _ "]"%char); [done|by constructor]. }
  intros r Hr Ht. destruct (IHal q r Hr Ht) as (l & Hl & m & -> & Hm). exists (m ++ ["]"%char]). split; [done|].
  rewrite app_assoc. by apply json_array, elements_ws.
Qed.

Lemma array_loop_sound fuel p :
  (∀ p, sound p (parseJSONValue fuel ctx start p) value_lang) → (∀ p, sound p (array_loop fuel ctx start p) elements_lang) →
  sound p (array_loop (S fuel) ctx start p) elements_lang.
Proof.
  intros IHv IHal. cbn [array_loop].
  destruct (reads_ws s p) as (w & Hw & Hws). set (q := skipWS s p) in *.
  apply (sound_after p q w _ elements_lang _ Hw).
  2: { intros l (m & -> & Hm). exists (w ++ m). split; [by rewrite app_assoc|by apply elements_ws]. }
  apply (sound_on_success _ _ _ _ _ (IHv q)). intros q4 vl _ (w2' & v & -> & Hws2' & Hv).
  destruct (reads_ws s q4) as (w3 & Hw3 & Hws3). set (q5 := skipWS s q4) in *.
  apply (sound_after q4 q5 w3 _ (λ l, ∃ m', (w2' ++ v) ++ w3 ++ l = m' ++ ["]"%char] ∧ elements m') _ Hw3); [|done].
  apply sound_with_byte. intros c3 Hc3. destruct (Ascii.eqb_spec c3 "]") as [->|].
  { apply (sound_close _ "]"%char); [done|]. exists (w2' ++ v ++ w3). split; [by rewrite <- !app_assoc|by constructor]. }
  destruct (Ascii.eqb_spec c3 ",") as [->|]; [|apply sound_fail]. cbn [negb].
  apply (sound_after q5 (q5 + 1) [","%char] _ _ _ (reads_one _ _ _ Hc3) (IHal (q5 + 1))).
  intros l (m' & -> & Hm'). exists (w2' ++ v ++ w3 ++ ","%char :: m').
  split; [by rewrite <- !app_assoc|by constructor].
Qed.

Lemma json_sound fuel :
  (∀ p, sound p (parseJSONValue fuel ctx start p) value_lang) ∧
  (∀ p, s !! p = Some "{"%char → sound p (parseJSONObject fuel ctx start p) json) ∧
  (∀ p, sound p (object_loop fuel ctx start p) members_lang) ∧
  (∀ p, s !! p = Some "["%char → sound p (parseJSONArray fuel ctx start p) json) ∧
  (∀ p, sound p (array_loop fuel ctx start p) elements_lang).
Proof.
  induction fuel as [|fuel (IHv & IHo & IHol & IHa & IHal)]; [by split_and!; intros ?|].
  split_and!; intros p; [by apply value_sound|by apply object_sound|by apply object_loop_sound|by apply array_sound|by apply array_loop_sound].
Qed.
End Sound.

(** ** Completeness *)

(** What may follow a value: nothing, or a byte that does not continue a
    number. *)
Definition follow (rest : list ascii) : Prop := ∀ c, head rest = Some c → isNumberContinuation c = false.

(** Classes of bytes, by computation. *)
Lemma digit_continues c : isNumberContinuation c = false → isDigit c = false ∧ c ≠ "."%char ∧ c ≠ "e"%char ∧ c ≠ "E"%char.
Proof.
  unfold isNumberContinuation. rewrite !orb_false_iff, !Ascii.eqb_neq. intros [[[[[? ?] ?] ?] _] _]. done.
Qed.

Lemma ws_follow c : isWhitespace c = true → isNumberContinuation c = false.
Proof. intros H. assert (Hb := byte_cases (λ c, implb (isWhitespace c) (negb (isNumberContinuation c)))
  ltac:(vm_compute; reflexivity) c). cbv beta in Hb. rewrite H in Hb. by apply negb_true_iff. Qed.

Lemma follow_ws w l : ws w → follow l → follow (w ++ l).
Proof.
  intros Hw Hl. destruct w as [|c w]; [done|]. intros x [= <-]. apply andb_true_iff in Hw as [Hc _]. by apply ws_follow.
Qed.

Lemma follow_cons c l : isNumberContinuation c = false → follow (c :: l).
Proof. by intros H x [= <-]. Qed.

Section Complete.
Context (ctx : ParseContext) (start : nat).
Hypothesis complete : ctx.(IsPartial) = false.
Local Abbreviation s := ctx.(Input).

Lemma at_cons p c l : drop p s = c :: l → s !! p = Some c ∧ drop (p + 1) s = l.
Proof.
  intros H. split.
  - rewrite <- (Nat.add_0_r p), <- lookup_drop, H. done.
  - by rewrite <- drop_drop, H.
Qed.

Lemma at_app p l1 l2 : drop p s = l1 ++ l2 → drop (p + length l1) s = l2.
Proof. intros H. by rewrite <- drop_drop, H, drop_app_length. Qed.

Lemma at_head p l : drop p s = l → s !! p = head l.
Proof. intros <-. rewrite <- (Nat.add_0_r p) at 1. rewrite <- lookup_drop. by destruct (drop p s). Qed.

Lemma advance_complete f p l rest :
  drop p s = l ++ rest → forallb f l = true → (∀ c, head rest = Some c → f c = false) → advance f s p = p + length l.
Proof.
  intros H Hf Hrest. unfold advance. rewrite H. f_equal. clear H. induction l as [|c l IH]; simpl in *.
  - destruct rest as [|c rest]; [done|]. simpl. by rewrite Hrest.
  - apply andb_true_iff in Hf as [-> Hf]. by rewrite IH.
Qed.

Lemma literal_complete lit p rest :
  drop p s = lit ++ rest → literal_loop ctx start p lit = NewParseResultRange Success start (p + length lit).
Proof.
  revert p. induction lit as [|c lit IH]; intros p H; simpl; [by rewrite Nat.add_0_r|].
  destruct (at_cons _ _ _ H) as [-> H']. rewrite Ascii.eqb_refl, <- Nat.add_1_r, (IH _ H'). f_equal. lia.
Qed.

Lemma hex_complete l p rest :
  drop p s = l ++ rest → forallb isHexDigit l = true → hex_loop (length l) ctx start p = inr (p + length l).
Proof.
  revert p. induction l as [|c l IH]; intros p H Hf; simpl in *; [by rewrite Nat.add_0_r|].
  apply andb_true_iff in Hf as [Hc Hf]. destruct (at_cons _ _ _ H) as [-> H']. rewrite Hc, <- Nat.add_1_r, (IH _ H' Hf).
  f_equal. lia.
Qed.

(** One character of a string costs one step. *)
Lemma item_complete i p rest fuel :
  item i → drop p s = i ++ rest → json_string_loop (S fuel) ctx start p = json_string_loop fuel ctx start (p + length i).
Proof.
  intros Hi H. destruct Hi as [r Hsc Hr|c Hc|h1 h2 h3 h4 Hh].
  - apply accepted_spec in Hr as (Hr & Hq & Hb).
    assert (Hp : parseUTF8Codepoint s p = (r, length (EncodeRune r), utf8Success)) by (apply parse_rune; eauto).
    pose proof (EncodeRune_bytes r Hsc) as Hbytes.
    destruct (EncodeRune r) as [|c l] eqn:He; [apply parse_success_bounds in Hp; simpl in Hp; lia|].
    destruct (at_cons _ _ _ H) as [Hc _]. cbn [json_string_loop]. rewrite Hc, Hp.
    assert (Hne : code c ≠ 34%Z ∧ code c ≠ 92%Z).
    { simpl in Hbytes. unfold scalar in Hsc. rewrite orb_true_iff, !between_spec in Hsc. unfold rune_bytes in Hbytes.
      repeat case_match; injection Hbytes as -> _; rewrite ?Z.ltb_ge in *; split; try done; modlia. }
    destruct (Ascii.eqb_spec c cQuote) as [->|]; [by destruct Hne|].
    destruct (Ascii.eqb_spec c cBackslash) as [->|]; [by destruct Hne|]. done.
  - destruct (at_cons _ _ _ H) as [H1 H2]. destruct (at_cons _ _ _ H2) as [H3 _]. cbn [json_string_loop].
    rewrite H1, H3, Hc. done.
  - destruct (at_cons _ _ _ H) as [H1 H2]. destruct (at_cons _ _ _ H2) as [H3 H4]. cbn [json_string_loop].
    rewrite H1, H3. replace (p + 1 + 1) with (p + 2) in H4 by lia.
    rewrite (hex_complete [h1; h2; h3; h4] (p + 2) rest H4 Hh : hex_loop 4 ctx start (p + 2) = _). simpl. f_equal. lia.
Qed.

Lemma string_complete l p rest :
  chars l → drop p s = l ++ cQuote :: rest →
  ∃ n, json_string_loop n ctx start p = Some (NewParseResultRange Success start (p + length l + 1)).
Proof.
  intros Hl. revert p. induction Hl as [|i l Hi Hl IH]; intros p H.
  - exists 1. cbn [json_string_loop]. destruct (at_cons _ _ _ H) as [-> _]. simpl. do 2 f_equal. lia.
  - rewrite <- app_assoc in H. destruct (IH (p + length i) (at_app _ _ _ H)) as [n Hn]. exists (S n).
    rewrite (item_complete _ _ _ _ Hi H), Hn, length_app. do 2 f_equal. lia.
Qed.

Lemma parseJSONString_complete l p rest :
  chars l → drop p s = cQuote :: l ++ cQuote :: rest →
  parseJSONString ctx start p = Some (NewParseResultRange Success start (p + length l + 2)).
Proof.
  intros Hl H. destruct (at_cons _ _ _ H) as [Hp Hs]. apply lookup_lt_Some in Hp.
  destruct (string_complete l (p + 1) rest Hl Hs) as [n Hn].
  destruct (parseJSONString_ok ctx start p Hp) as (r & Hr & _). unfold parseJSONString in *.
  pose proof (string_more start (S (length s)) (n + S (length s)) _ _ _ ltac:(lia) Hr) as H1.
  pose proof (string_more start n (n + S (length s)) _ _ _ ltac:(lia) Hn) as H2.
  rewrite Hr, <- H1, H2. do 2 f_equal. lia.
Qed.

Lemma digits_complete l p rest :
  digits1 l → drop p s = l ++ rest → (∀ c, head rest = Some c → isDigit c = false) → digits ctx start p = inr (p + length l).
Proof.
  intros [Hne Hl] H Hrest. unfold digits. rewrite (advance_complete _ _ _ _ H Hl Hrest).
  destruct l; [done|]. rewrite (proj2 (Nat.eqb_neq _ _)) by (simpl; lia). done.
Qed.

Lemma exponent_head e rest c : exponent e → follow rest → head (e ++ rest) = Some c → isDigit c = false ∧ c ≠ "."%char.
Proof.
  intros [|x sign l [-> | ->] _ _] Hf; simpl; [|by intros [= <-]..]. intros Hc%Hf. by apply digit_continues in Hc as (? & ? & _).
Qed.

Lemma fraction_head f e rest c : fraction f → exponent e → follow rest → head (f ++ e ++ rest) = Some c → isDigit c = false.
Proof. intros [|l _] He Hf; [|by intros [= <-]]. intros Hc. by apply (exponent_head e rest c) in Hc as [? _]. Qed.

Lemma fraction_complete f p rest :
  fraction f → (∀ c, head rest = Some c → isDigit c = false ∧ c ≠ "."%char) → drop p s = f ++ rest →
  number_fraction ctx start p = inr (p + length f).
Proof.
  intros [|l Hl] Hrest H; unfold number_fraction; rewrite (at_head _ _ H); simpl.
  - rewrite Nat.add_0_r. destruct (head rest) as [c|]; [|done]. destruct (Hrest c eq_refl) as [_ Hc].
    by apply Ascii.eqb_neq in Hc as ->.
  - destruct (at_cons _ _ _ H) as [_ H']. rewrite (digits_complete l (p + 1) rest Hl H'); [f_equal; lia|].
    intros c Hc. by apply Hrest.
Qed.

Lemma exponent_complete e p rest :
  exponent e → follow rest → drop p s = e ++ rest → number_exponent ctx start p = inr (p + length e).
Proof.
  intros He Hrest H. unfold number_exponent. rewrite (at_head _ _ H).
  assert (Hdig : ∀ c, head rest = Some c → isDigit c = false) by (intros c Hc%Hrest; by apply digit_continues in Hc as [? _]).
  destruct He as [|x sign l Hx Hsign Hl]; simpl.
  - rewrite Nat.add_0_r. destruct (head rest) as [c|] eqn:Hh; [|done]. specialize (Hrest c Hh).
    apply digit_continues in Hrest as (_ & _ & H1 & H2). by apply Ascii.eqb_neq in H1 as ->; apply Ascii.eqb_neq in H2 as ->.
  - assert (Ascii.eqb x "e" || Ascii.eqb x "E" = true)%char as -> by (by destruct Hx as [-> | ->]).
    simpl in H. rewrite <- app_assoc in H. destruct (at_cons _ _ _ H) as [_ H1]. rewrite (at_head _ _ H1).
    pose proof (at_app _ _ _ H1) as H2. pose proof (digits_complete l _ _ Hl H2 Hdig) as H3.
    apply elem_of_cons in Hsign as [->|[->|[->|[]%elem_of_nil]%elem_of_cons]%elem_of_cons]; simpl in *.
    + destruct Hl as [Hne Hall]. destruct l as [|c l]; [done|]. simpl in *. apply andb_true_iff in Hall as [Hc _].
      assert (Ascii.eqb c "+" || Ascii.eqb c "-" = false)%char as ->.
      { assert (Hb := byte_cases (λ c, implb (isDigit c) (negb (Ascii.eqb c "+" || Ascii.eqb c "-")%char))
          ltac:(vm_compute; reflexivity) c). cbv beta in Hb. rewrite Hc in Hb. by apply negb_true_iff. }
      rewrite Nat.add_0_r in H3. rewrite H3. f_equal. lia.
    + replace (p + 1 + 1) with (p + 2) in H3 by lia. rewrite H3. f_equal. lia.
    + replace (p + 1 + 1) with (p + 2) in H3 by lia. rewrite H3. f_equal. lia.
Qed.

Lemma number_end_complete p : number_end ctx start p = NewParseResultRange Success start p.
Proof. unfold number_end. by rewrite complete. Qed.

(** The end of a number after its integer part. *)
Lemma tail_complete f e p rest :
  fraction f → exponent e → follow rest → drop p s = f ++ e ++ rest →
  match number_fraction ctx start p with
  | inl r => r
  | inr p => match number_exponent ctx start p with inl r => r | inr p => number_end ctx start p end
  end = NewParseResultRange Success start (p + length f + length e).
Proof.
  intros Hf He Hrest H. rewrite (fraction_complete f p (e ++ rest)); [|done| |done].
  2: { intros c Hc. by eapply exponent_head. }
  rewrite (exponent_complete e _ rest He Hrest (at_app _ _ _ H)). apply number_end_complete.
Qed.

Lemma integer_complete i p rest :
  integer i → (∀ c, head rest = Some c → isDigit c = false) → drop p s = i ++ rest →
  ∃ c, s !! p = Some c ∧ c ≠ "-"%char ∧
    (if Ascii.eqb c "0" then Some (p + 1) else if between 49 57 (code c) then Some (advance isDigit s (p + 1)) else None) =
    Some (p + length i).
Proof.
  intros [|c l Hc Hl] Hrest H; destruct (at_cons _ _ _ H) as [Hp Hs]; [by exists "0"%char|].
  exists c. split; [done|]. split.
  - intros ->. done.
  - destruct (Ascii.eqb_spec c "0") as [->|]; [done|]. rewrite Hc, (advance_complete _ _ l rest Hs Hl Hrest). simpl. f_equal. lia.
Qed.

Lemma number_complete n p rest :
  number n → follow rest → drop p s = n ++ rest → parseJSONNumber ctx start p = NewParseResultRange Success start (p + length n).
Proof.
  intros [sign i f e Hsign Hi Hf He] Hrest H. rewrite <- !app_assoc in H. pose proof (at_app _ _ _ H) as H1.
  assert (Hdig : ∀ c, head (f ++ e ++ rest) = Some c → isDigit c = false) by (intros c Hc; by eapply fraction_head).
  destruct (integer_complete i _ _ Hi Hdig H1) as (c & Hc & Hm & Hafter).
  assert (Hp1 : match s !! p with Some c => if Ascii.eqb c "-" then p + 1 else p | None => p end = p + length sign).
  { rewrite (at_head _ _ H). apply elem_of_cons in Hsign as [->|[->|[]%elem_of_nil]%elem_of_cons]; [|done].
    simpl in *. rewrite Nat.add_0_r in *. rewrite (at_head _ _ H) in Hc. simpl in Hc. rewrite Hc.
    by apply Ascii.eqb_neq in Hm as ->. }
  unfold parseJSONNumber. rewrite Hp1, Hc, Hafter, (tail_complete f e _ rest Hf He Hrest (at_app _ _ _ H1)), !length_app.
  f_equal. lia.
Qed.

(** Success up to [q]. *)
Local Abbreviation done_at q := (Some (NewParseResultRange Success start q)).

Lemma on_success_done q k : on_success (done_at q) k = k q.
Proof. reflexivity. Qed.

Lemma with_byte_at p c l k : drop p s = c :: l → with_byte ctx start p k = k c.
Proof. intros H. unfold with_byte. by rewrite (proj1 (at_cons _ _ _ H)). Qed.

Lemma skip_complete w p c l :
  ws w → isWhitespace c = false → drop p s = w ++ c :: l → skipWS s p = p + length w ∧ drop (skipWS s p) s = c :: l.
Proof.
  intros Hw Hc H. assert (skipWS s p = p + length w) as Heq.
  { apply (advance_complete _ _ _ (c :: l) H Hw). by intros x [= <-]. }
  split; [done|]. rewrite Heq. by apply at_app.
Qed.

Lemma skip_idem p c l : isWhitespace c = false → drop p s = c :: l → skipWS s p = p.
Proof. intros Hc H. destruct (skip_complete [] p c l eq_refl Hc H) as [-> _]. simpl. lia. Qed.

Lemma value_at fuel w p c l :
  ws w → isWhitespace c = false → drop p s = w ++ c :: l →
  parseJSONValue (S fuel) ctx start p = parseJSONValue (S fuel) ctx start (p + length w).
Proof.
  intros Hw Hc H. destruct (skip_complete w p c l Hw Hc H) as [H1 H2]. cbn [parseJSONValue].
  rewrite H1 in *. by rewrite (skip_idem _ _ _ Hc H2).
Qed.

(** The first byte of a value. *)
Lemma json_head v : json v → ∃ c v', v = c :: v' ∧ isWhitespace c = false ∧ c ≠ "]"%char.
Proof.
  intros [| | |n Hn|l _|w _|l _|w _|l _]; try (eexists _, _; split; [reflexivity|done]).
  destruct Hn as [sign i f e Hsign Hi _ _].
  assert (Hdigit : ∀ c, between 49 57 (code c) = true → isWhitespace c = false ∧ c ≠ "]"%char).
  { intros c Hc. assert (Hb := byte_cases (λ c, implb (between 49 57 (code c)) (negb (isWhitespace c) && negb (Ascii.eqb c "]")%char))
      ltac:(vm_compute; reflexivity) c). cbv beta in Hb. rewrite Hc in Hb. apply andb_true_iff in Hb as [H1%negb_true_iff H2%negb_true_iff].
    split; [done|by apply Ascii.eqb_neq]. }
  apply elem_of_cons in Hsign as [->|[->|[]%elem_of_nil]%elem_of_cons].
  - destruct Hi as [|c l Hc _]; [eexists _, _; split; [reflexivity|done]|]. exists c, (l ++ f ++ e). split; [done|by apply Hdigit].
  - eexists _, _. split; [reflexivity|done].
Qed.

(** The bytes that choose the number parser. *)
Lemma number_head n : number n → ∃ c v', n = c :: v' ∧
  (c ≠ "{" ∧ c ≠ "[" ∧ c ≠ cQuote ∧ c ≠ "t" ∧ c ≠ "f" ∧ c ≠ "n")%char ∧ (Ascii.eqb c "-" || isDigit c)%char = true.
Proof.
  intros [sign i f e Hsign Hi _ _].
  assert (Hdigit : ∀ c, between 49 57 (code c) = true →
    (c ≠ "{" ∧ c ≠ "[" ∧ c ≠ cQuote ∧ c ≠ "t" ∧ c ≠ "f" ∧ c ≠ "n")%char ∧ (Ascii.eqb c "-" || isDigit c)%char = true).
  { intros c Hc. apply between_spec in Hc. unfold isDigit. rewrite (proj2 (between_spec _ _ _)), orb_true_r by lia.
    destruct Hc as [H1 H2]. split_and!; try done; intros ->; first [by apply H1|by apply H2]. }
  apply elem_of_cons in Hsign as [->|[->|[]%elem_of_nil]%elem_of_cons].
  - destruct Hi as [|c l Hc _]; [eexists _, _; split; [reflexivity|done]|]. exists c, (l ++ f ++ e). split; [done|by apply Hdigit].
  - eexists _, _. split; [reflexivity|done].
Qed.

(** What completeness says of each part of the grammar. *)
Definition json_ok (v : list ascii) : Prop := ∀ p rest,
  drop p s = v ++ rest → follow rest → ∃ n, parseJSONValue n ctx start p = done_at (p + length v).

Definition elements_ok (l : list ascii) : Prop := ∀ p rest,
  drop p s = l ++ "]"%char :: rest → ∃ n, array_loop n ctx start p = done_at (p + length l + 1).

Definition members_ok (l : list ascii) : Prop := ∀ p rest,
  drop p s = l ++ "}"%char :: rest → ∃ n, object_loop n ctx start p = done_at (p + length l + 1).

Definition member_ok (m : list ascii) : Prop := ∀ p c rest,
  c = "}"%char ∨ c = ","%char → drop p s = m ++ c :: rest →
  ∃ n, ∀ n', n ≤ n' → object_loop (S n') ctx start p =
    if Ascii.eqb c "}" then done_at (p + length m + 1) else object_loop n' ctx start (p + length m + 1).

(** A value with white space before it, in any larger fuel. *)
Lemma json_ok_ws v w p rest :
  json v → json_ok v → ws w → drop p s = w ++ v ++ rest → follow rest →
  ∃ n, ∀ n', n ≤ n' → parseJSONValue n' ctx start p = done_at (p + length w + length v).
Proof.
  intros Hv Hok Hw H Hf. destruct (Hok _ _ (at_app _ _ _ H) Hf) as [n Hn].
  destruct (json_head v Hv) as (c & v' & -> & Hc & _).
  exists (S n). intros [|n'] Hle; [lia|]. rewrite (value_at _ w p c (v' ++ rest)) by done.
  apply (proj1 (json_more ctx start n (S n') ltac:(lia))). exact Hn.
Qed.

(** The same after white space has been skipped. *)
Lemma json_ok_skip v w p rest :
  json v → json_ok v → ws w → drop p s = w ++ v ++ rest → follow rest →
  ∃ n, ∀ n', n ≤ n' → parseJSONValue n' ctx start (skipWS s p) = done_at (p + length w + length v).
Proof.
  intros Hv Hok Hw H Hf. destruct (json_head v Hv) as (c & v' & Heq & Hc & _).
  assert (H' := H). rewrite Heq in H'. destruct (skip_complete w p c (v' ++ rest) Hw Hc H') as [-> _].
  destruct (json_ok_ws v [] (p + length w) rest Hv Hok eq_refl (at_app _ _ _ H) Hf) as [n Hn].
  exists n. intros n' Hle. rewrite (Hn n' Hle). simpl. do 2 f_equal. lia.
Qed.

Lemma number_ok_complete n : number n → json_ok n.
Proof.
  intros Hn p rest H Hf. exists 1. destruct (number_head n Hn) as (c & v' & Heq & Hne & Hc).
  assert (Hws : isWhitespace c = false).
  { assert (Hb := byte_cases (λ c, implb (Ascii.eqb c "-" || isDigit c)%char (negb (isWhitespace c)))
      ltac:(vm_compute; reflexivity) c). cbv beta in Hb. rewrite Hc in Hb. by apply negb_true_iff. }
  cbn [parseJSONValue]. assert (H' := H). rewrite Heq in H'. rewrite (skip_idem p c (v' ++ rest) Hws H').
  rewrite (with_byte_at _ c (v' ++ rest)) by done.
  destruct Hne as (H1 & H2 & H3 & H4 & H5 & H6). apply Ascii.eqb_neq in H1, H2, H3, H4, H5, H6.
  rewrite H1, H2, H3, H4, H5, H6, Hc. f_equal. by apply (number_complete n p rest).
Qed.

Lemma member_ok_complete w k w1 w2 v w3 :
  ws w → chars k → ws w1 → ws w2 → json v → json_ok v → ws w3 →
  member_ok (w ++ (cQuote :: k ++ [cQuote]) ++ w1 ++ ":"%char :: w2 ++ v ++ w3).
Proof.
  intros Hw Hk Hw1 Hw2 Hv IHv Hw3 p c rest Hc H.
  assert (Hcw : isWhitespace c = false ∧ isNumberContinuation c = false) by (destruct Hc as [-> | ->]; done).
  destruct Hcw as [Hcw Hcn].
  set (tail := w3 ++ c :: rest).
  assert (E0 : drop p s = w ++ cQuote :: k ++ cQuote :: w1 ++ ":"%char :: w2 ++ v ++ tail) by (rewrite H; unfold tail; by list_simplifier).
  destruct (skip_complete w p cQuote _ Hw eq_refl E0) as [S1 _]. pose proof (at_app _ _ _ E0) as E1.
  pose proof (parseJSONString_complete k _ _ Hk E1) as P1.
  assert (E2 : drop (p + length w + length k + 2) s = w1 ++ ":"%char :: w2 ++ v ++ tail).
  { replace (p + length w + length k + 2) with (p + length w + length (cQuote :: k ++ [cQuote])) by (simpl; rewrite length_app; simpl; lia).
    apply at_app. rewrite E1. by list_simplifier. }
  destruct (skip_complete w1 _ ":"%char _ Hw1 eq_refl E2) as [S2 E3]. destruct (at_cons _ _ _ E3) as [_ E4].
  assert (Hfollow : follow tail) by (apply follow_ws; [done|by apply follow_cons]).
  destruct (json_ok_skip v w2 _ tail Hv IHv Hw2 E4 Hfollow) as [n Hn].
  pose proof (at_app _ _ _ (at_app _ _ _ E4)) as E5. destruct (skip_complete w3 _ c rest Hw3 Hcw E5) as [S3 E6].
  exists n. intros n' Hle. cbn [object_loop]. rewrite S1, (with_byte_at _ _ _ _ E1). cbn [negb Ascii.eqb]. simpl negb. cbv iota.
  rewrite P1, on_success_done, (with_byte_at _ _ _ _ E3). simpl negb. cbv iota.
  rewrite (Hn n' Hle), on_success_done, (with_byte_at _ _ _ _ E6), S3, S2.
  replace (length (w ++ _)) with (length w + length k + 2 + length w1 + 1 + length w2 + length v + length w3)
    by (rewrite !length_app; simpl; rewrite !length_app; simpl; lia).
  rewrite !Nat.add_assoc. destruct Hc as [-> | ->]; reflexivity.
Qed.

Lemma elements_head l : elements l → ∃ w c l', l = w ++ c :: l' ∧ ws w ∧ isWhitespace c = false ∧ c ≠ "]"%char.
Proof.
  intros [w v w' Hw (c & v' & -> & Hc & Hne)%json_head _|w v w' l' Hw (c & v' & -> & Hc & Hne)%json_head _ _]; eexists w, c, _; done.
Qed.

Lemma members_head l : members l → ∃ w l', l = w ++ cQuote :: l' ∧ ws w.
Proof. intros [m []|m l' [] _]; rewrite <- ?app_assoc; eexists _, _; done. Qed.

(** The loops start by skipping white space. *)
Lemma array_loop_skip n p w c l :
  ws w → isWhitespace c = false → drop p s = w ++ c :: l → array_loop n ctx start (skipWS s p) = array_loop n ctx start p.
Proof.
  intros Hw Hc H. destruct n as [|n]; [done|]. cbn [array_loop]. destruct (skip_complete w p c l Hw Hc H) as [_ H'].
  by rewrite (skip_idem _ _ _ Hc H').
Qed.

Lemma object_loop_skip n p w c l :
  ws w → isWhitespace c = false → drop p s = w ++ c :: l → object_loop n ctx start (skipWS s p) = object_loop n ctx start p.
Proof.
  intros Hw Hc H. destruct n as [|n]; [done|]. cbn [object_loop]. destruct (skip_complete w p c l Hw Hc H) as [_ H'].
  by rewrite (skip_idem _ _ _ Hc H').
Qed.


Lemma literal_ok_complete lit (c : ascii) l :
  lit = c :: l → isWhitespace c = false →
  (∀ n p, s !! p = Some c → skipWS s p = p → parseJSONValue (S n) ctx start p = Some (literal_loop ctx start p lit)) →
  json_ok lit.
Proof.
  intros -> Hc Hgo p rest H _. exists 1. rewrite (Hgo 0 p); [f_equal; by eapply literal_complete|by eapply at_cons|by eapply skip_idem].
Qed.

Lemma array_ok_complete l : elements l → elements_ok l → json_ok ("["%char :: l ++ ["]"%char]).
Proof.
  intros Hl IH p rest H _. simpl in H. rewrite <- app_assoc in H. destruct (at_cons _ _ _ H) as [_ H1].
  destruct (IH _ _ H1) as [n Hn]. exists (S (S n)). cbn [parseJSONValue]. rewrite (skip_idem p "["%char _ eq_refl H), (with_byte_at _ _ _ _ H).
  simpl Ascii.eqb. cbv iota. cbn [parseJSONArray]. destruct (elements_head l Hl) as (w & c & l' & -> & Hw & Hc & Hne).
  rewrite <- app_assoc in H1. destruct (skip_complete w _ c _ Hw Hc H1) as [_ H2]. rewrite (with_byte_at _ _ _ _ H2).
  apply Ascii.eqb_neq in Hne. rewrite Hne, (array_loop_skip n _ w c _ Hw Hc H1), Hn. do 2 f_equal.
  simpl. rewrite !length_app. simpl. lia.
Qed.

Lemma object_ok_complete l : members l → members_ok l → json_ok ("{"%char :: l ++ ["}"%char]).
Proof.
  intros Hl IH p rest H _. simpl in H. rewrite <- app_assoc in H. destruct (at_cons _ _ _ H) as [_ H1].
  destruct (IH _ _ H1) as [n Hn]. exists (S (S n)). cbn [parseJSONValue]. rewrite (skip_idem p "{"%char _ eq_refl H), (with_byte_at _ _ _ _ H).
  simpl Ascii.eqb. cbv iota. cbn [parseJSONObject]. destruct (members_head l Hl) as (w & l' & -> & Hw).
  rewrite <- app_assoc in H1. destruct (skip_complete w _ cQuote _ Hw eq_refl H1) as [_ H2]. rewrite (with_byte_at _ _ _ _ H2).
  simpl Ascii.eqb. cbv iota. rewrite (object_loop_skip n _ w cQuote _ Hw eq_refl H1), Hn. do 2 f_equal.
  simpl. rewrite !length_app. simpl. lia.
Qed.

Lemma empty_ok_complete w (o c : ascii) :
  ws w → (o = "["%char ∧ c = "]"%char ∨ o = "{"%char ∧ c = "}"%char) → json_ok (o :: w ++ [c]).
Proof.
  intros Hw Hoc p rest H _. exists 2. assert (Hws : isWhitespace o = false ∧ isWhitespace c = false) by (by destruct Hoc as [[-> ->]|[-> ->]]).
  destruct Hws as [Ho Hc]. simpl in H. rewrite <- app_assoc in H. destruct (at_cons _ _ _ H) as [_ H1].
  destruct (skip_complete w _ c rest Hw Hc H1) as [E H2]. cbn [parseJSONValue].
  rewrite (skip_idem _ _ _ Ho H), (with_byte_at _ _ _ _ H).
  destruct Hoc as [[-> ->]|[-> ->]]; simpl Ascii.eqb; cbv iota; cbn [parseJSONArray parseJSONObject];
    rewrite (with_byte_at _ _ _ _ H2), E; simpl; do 2 f_equal; rewrite length_app; simpl; lia.
Qed.

Lemma string_ok_complete l : chars l → json_ok (cQuote :: l ++ [cQuote]).
Proof.
  intros Hl p rest H _. exists 1. simpl in H. rewrite <- app_assoc in H. cbn [parseJSONValue].
  rewrite (skip_idem p cQuote _ eq_refl H), (with_byte_at _ _ _ _ H). simpl Ascii.eqb. cbv iota.
  rewrite (parseJSONString_complete l p rest Hl H). do 2 f_equal. simpl. rewrite length_app. simpl. lia.
Qed.

(** The step of the array loop at an element, by the byte that ends it. *)
Lemma element_complete w v w' p c rest :
  ws w → json v → json_ok v → ws w' → c = "]"%char ∨ c = ","%char → drop p s = w ++ v ++ w' ++ c :: rest →
  ∃ n, ∀ n', n ≤ n' → array_loop (S n') ctx start p =
    if Ascii.eqb c "]" then done_at (p + length (w ++ v ++ w') + 1) else array_loop n' ctx start (p + length (w ++ v ++ w') + 1).
Proof.
  intros Hw Hv IHv Hw' Hc H.
  assert (Hcw : isWhitespace c = false ∧ isNumberContinuation c = false) by (destruct Hc as [-> | ->]; done).
  destruct Hcw as [Hcw Hcn]. destruct (json_ok_skip v w p (w' ++ c :: rest) Hv IHv Hw H) as [n Hn].
  { apply follow_ws; [done|by apply follow_cons]. }
  pose proof (at_app _ _ _ (at_app _ _ _ H)) as E. destruct (skip_complete w' _ c rest Hw' Hcw E) as [S1 E1].
  exists n. intros n' Hle. cbn [array_loop]. rewrite (Hn n' Hle), on_success_done, (with_byte_at _ _ _ _ E1), S1.
  rewrite !length_app, !Nat.add_assoc. destruct Hc as [-> | ->]; reflexivity.
Qed.

Lemma elements_cons_complete w v w' l :
  ws w → json v → json_ok v → ws w' → elements_ok l → elements_ok (w ++ v ++ w' ++ ","%char :: l).
Proof.
  intros Hw Hv IHv Hw' IHl p rest H.
  assert (H' : drop p s = w ++ v ++ w' ++ ","%char :: l ++ "]"%char :: rest) by (rewrite H; by list_simplifier).
  destruct (element_complete w v w' p _ _ Hw Hv IHv Hw' (or_intror eq_refl) H') as [n1 Hn1]. simpl Ascii.eqb in Hn1. cbv iota in Hn1.
  assert (E : drop (p + length (w ++ v ++ w') + 1) s = l ++ "]"%char :: rest).
  { eapply (proj2 (at_cons _ ","%char _ _)). Unshelve. rewrite (at_app p (w ++ v ++ w') (","%char :: l ++ "]"%char :: rest)); [done|].
    rewrite H'. by list_simplifier. }
  destruct (IHl _ _ E) as [n2 Hn2]. exists (S (n1 + n2)). rewrite Hn1 by lia.
  destruct (json_more ctx start n2 (n1 + n2) ltac:(lia)) as (_ & _ & _ & _ & Hmore). rewrite (Hmore _ _ Hn2).
  do 2 f_equal. rewrite !length_app. simpl. lia.
Qed.

Lemma members_cons_complete m l : member_ok m → members_ok l → members_ok (m ++ ","%char :: l).
Proof.
  intros IHm IHl p rest H. rewrite <- app_assoc in H. simpl in H.
  destruct (IHm p _ _ (or_intror eq_refl) H) as [n1 Hn1]. simpl Ascii.eqb in Hn1. cbv iota in Hn1.
  destruct (at_cons _ _ _ (at_app _ _ _ H)) as [_ E].
  destruct (IHl _ _ E) as [n2 Hn2]. exists (S (n1 + n2)). rewrite Hn1 by lia.
  destruct (json_more ctx start n2 (n1 + n2) ltac:(lia)) as (_ & _ & Hmore & _ & _). rewrite (Hmore _ _ Hn2).
  do 2 f_equal. rewrite !length_app. simpl. lia.
Qed.

Lemma json_complete :
  (∀ v, json v → json_ok v) ∧ (∀ l, elements l → elements_ok l) ∧ (∀ l, members l → members_ok l) ∧ (∀ m, member m → member_ok m).
Proof.
  apply (json_mutual accepted_unescaped json_ok elements_ok members_ok member_ok).
  - by apply (literal_ok_complete _ "t" (bytes "rue")); [|done|intros n p Hp E; cbn [parseJSONValue]; unfold with_byte; rewrite E, Hp].
  - by apply (literal_ok_complete _ "f" (bytes "alse")); [|done|intros n p Hp E; cbn [parseJSONValue]; unfold with_byte; rewrite E, Hp].
  - by apply (literal_ok_complete _ "n" (bytes "ull")); [|done|intros n p Hp E; cbn [parseJSONValue]; unfold with_byte; rewrite E, Hp].
  - apply number_ok_complete.
  - apply string_ok_complete.
  - intros w Hw. apply empty_ok_complete; auto.
  - apply array_ok_complete.
  - intros w Hw. apply empty_ok_complete; auto.
  - apply object_ok_complete.
  - intros w v w' Hw Hv IHv Hw' p rest H. rewrite <- !app_assoc in H.
    destruct (element_complete w v w' p _ _ Hw Hv IHv Hw' (or_introl eq_refl) H) as [n Hn]. exists (S n). by rewrite (Hn n).
  - intros w v w' l Hw Hv IHv Hw' _ IHl. by apply elements_cons_complete.
  - intros m _ IHm p rest H. destruct (IHm p _ _ (or_introl eq_refl) H) as [n Hn]. exists (S n). by rewrite (Hn n).
  - intros m l _ IHm _ IHl. by apply members_cons_complete.
  - intros w k w1 w2 v w3 Hw Hk Hw1 Hw2 Hv IHv Hw3. by apply member_ok_complete.
Qed.
End Complete.

(** ** Recognition *)

(** The bytes from [p] to [q]. *)
Definition slice (s : list ascii) (p q : nat) : list ascii := take (q - p) (drop p s).

Lemma reads_slice s p q l : reads s p q l → slice s p q = l.
Proof. intros [H ->]. unfold slice. rewrite H. replace (p + length l - p) with (length l) by lia. apply take_app_length. Qed.

(** C11. The JSON parser recognizes its dialect of JSON, and how far that is
    RFC 8259: in complete mode, from any position, it succeeds up to [stop]
    exactly when the bytes in between are white space and a value of the grammar
    of RFC 8259 in which strings may also hold control characters as they are
    and may not hold U+FFFD, provided that what follows does not continue a
    number (so always for a whole text).  Hence it accepts every RFC 8259 text
    without U+FFFD, and a text without control characters that it accepts is an
    RFC 8259 text: on texts with neither it recognizes RFC 8259 exactly. *)
Theorem json_recognizes s start stop :
  start ≤ stop ≤ length s → follow (drop stop s) →
  (JSON_parse (MkContext s false) start = Some (NewParseResultRange Success start stop) ↔
     document_of accepted_unescaped (slice s start stop)) ∧
  (document_of rfc8259_unescaped (slice s start stop) → ¬ inside (EncodeRune RuneError) (slice s start stop) →
     JSON_parse (MkContext s false) start = Some (NewParseResultRange Success start stop)) ∧
  (JSON_parse (MkContext s false) start = Some (NewParseResultRange Success start stop) → no_controls (slice s start stop) →
     document_of rfc8259_unescaped (slice s start stop)).
Proof.
  intros Hle Hf.
  enough (JSON_parse (MkContext s false) start = Some (NewParseResultRange Success start stop) ↔ document (slice s start stop)) as H.
  { split_and!; [done|intros ??; by apply H, rfc8259_accepted|intros ??; apply accepted_rfc8259; [by apply H|done]]. }
  split.
  - intros Hr. destruct (proj1 (json_sound (MkContext s false) start _) start _ Hr eq_refl) as (l & Hl & Hdoc).
    apply reads_slice in Hl. cbn [Input End NewParseResultRange] in Hl. by rewrite Hl.
  - intros (w & v & Hs & Hw & Hv).
    assert (Hd : drop start s = w ++ v ++ drop stop s).
    { rewrite app_assoc, <- Hs. unfold slice. replace stop with (start + (stop - start)) at 2 by lia.
      by rewrite <- drop_drop, take_drop. }
    destruct (json_ok_ws (MkContext s false) start v w start (drop stop s) Hv) as [n Hn]; [by apply json_complete|done|done|done|].
    destruct (JSON_parse_ok (MkContext s false) start) as (r & Hr & _); [simpl; lia|].
    pose proof (proj1 (json_more (MkContext s false) start (json_fuel (MkContext s false)) (n + json_fuel (MkContext s false)) ltac:(lia)) _ _ Hr) as H1.
    rewrite Hr, <- H1, Hn by lia. do 2 f_equal. apply (f_equal length) in Hs. unfold slice in Hs.
    rewrite length_take, length_drop, length_app in Hs. lia.
Qed.

(** A string with a raw line feed. *)
Definition raw_newline : list ascii := [cQuote; ascii_of_nat 10; cQuote].

(** The parser accepts it, and RFC 8259 does not. *)
Lemma raw_newline_accepted :
  JSON_parse (MkContext raw_newline false) 0 = Some (NewParseResultRange Success 0 3) ∧
  ¬ document_of rfc8259_unescaped raw_newline.
Proof.
  split; [by vm_compute|]. intros (w & v & Hwv & Hw & Hv). destruct w as [|c w].
  2:{ injection Hwv as <- _. done. }
  simpl in Hwv. subst v. inversion Hv as [| | |n Hn|l Hl H| | | |].
  - by destruct (number_head _ Hn) as (c & v' & [= <- <-] & (_ & _ & Hne & _) & _).
  - assert (l = [ascii_of_nat 10]) as ->.
    { destruct l as [|x [|y [|z l]]]; try done. by injection H as <-. }
    apply chars_no_controls in Hl. apply Forall_cons in Hl as [Hl _]. by vm_compute in Hl.
Qed.

(** An array followed by text; the last byte of the slice is its bracket. *)
Definition nested_text : list ascii := bytes " [1, -2.5e3, {}, [true]] tail".

Lemma json_recognizes_witness :
  document_of accepted_unescaped (slice nested_text 0 24) ∧ document_of rfc8259_unescaped (slice nested_text 0 24).
Proof.
  destruct (json_recognizes nested_text 0 24 ltac:(vm_compute; lia) ltac:(by intros c [= <-])) as (H1 & _ & H2).
  split; [apply (proj1 H1); vm_compute; reflexivity|].
  apply H2; [vm_compute; reflexivity|]. apply (bool_decide_unpack _). vm_compute. exact I.
Defined.
