(* ===== verification/PegParser.v ===== *)
(** * PegParser: the parsers of the PEG engine and the arena that runs them

    Models [pkg/functions/peg/arena.go] and [parser.go]: every parser's
    [parse] method, [Parse], [ParseFrom], [ParseAt] and [ParseAnywhere].  A
    parser refers to its children by index, so the recursion of [ParseAt] is
    bounded by fuel; [parse] takes the recursive call as an argument.  The
    state is the AST arena of the context; [None] is a panic (an index out of
    range, an unknown rule, no root) or the end of the fuel, and the theorems
    of [PegTotal] exclude both. *)
From Stdlib Require Import Ascii.
From S2P Require Import Prelude GoMonad PegTypes PegTrie PegJson.

Record CharRange := MkRange { range_Start : Z; range_End : Z }.

Definition Contains (r : CharRange) (cp : Z) : bool := (r.(range_Start) <=? cp)%Z && (cp <=? r.(range_End))%Z.

Inductive Parser :=
| EpsilonParser
| StartParser
| EndParser
| LiteralParser (Literal : string)
| SequenceParser (Children : list ParserID)
| ChoiceParser (Children : list ParserID)
| RepetitionParser (Child : ParserID) (MinCount MaxCount : Z)
| AndParser (Child : ParserID)
| NotParser (Child : ParserID)
| AnyParser
| SpaceParser
| CharsParser (Pattern : string) (Ranges : list CharRange) (Negated : bool) (MinCount MaxCount : Z)
| JSONStringParser
| PythonDictStringParser
| UntilParser (Delimiters : list string)
| RuleParser (Name : string) (Child : ParserID) (Trigger : bool)
| RefParser (Name : string)
| AtomicParser (Child : ParserID)
| TagParser (Child : ParserID) (Tag : string)
| SchemaParser (Child : ParserID) (Name : string)
| JSONParser
| jsonNumberParser.

(** [root] is [None] for [InvalidParserID]. *)
Record Arena := MkArena { parsers : list Parser; rules : gmap string ParserID; root : option ParserID }.

Definition NewArena : Arena := MkArena [] ∅ None.

Definition GetRule (a : Arena) (name : string) : option ParserID := a.(rules) !! name.

(** ** Parsers without children *)

Definition AnyParser_parse (ctx : ParseContext) (start : nat) : ParseResult :=
  match parseUTF8Codepoint ctx.(Input) start with
  | (_, _, utf8Incomplete) =>
      if ctx.(IsPartial) then NewParseResult NeedMoreInput start else NewParseResult Fail start
  | (_, _, utf8Invalid) => NewParseResult Fail start
  | (_, size, utf8Success) => NewParseResultRange Success start (start + size)
  end.

Definition isSpace (c : ascii) : bool :=
  Ascii.eqb c " " || Ascii.eqb c "009" || Ascii.eqb c "010" || Ascii.eqb c "013" || Ascii.eqb c "011" || Ascii.eqb c "012".

Definition SpaceParser_parse (ctx : ParseContext) (start : nat) : ParseResult :=
  NewParseResultRange Success start (advance isSpace ctx.(Input) start).

Definition in_class (ranges : list CharRange) (negated : bool) (r : Z) : bool :=
  xorb negated (existsb (λ cr, Contains cr r) ranges).

(** The loop of [CharsParser] and what follows it. *)
Fixpoint chars_loop (fuel : nat) (ctx : ParseContext) (start : nat) (ranges : list CharRange) (negated : bool)
    (MinCount MaxCount : Z) (pos : nat) (matchCount : Z) : option ParseResult :=
  let finish :=
    if (matchCount <? MinCount)%Z then
      if Nat.leb (length ctx.(Input)) pos && ctx.(IsPartial) then NewParseResultRange NeedMoreInput start pos
      else NewParseResultRange Fail start pos
    else NewParseResultRange Success start pos in
  match fuel with
  | O => None
  | S fuel =>
      if (MaxCount =? -1)%Z || (matchCount <? MaxCount)%Z then
        match parseUTF8Codepoint ctx.(Input) pos with
        | (_, _, utf8Incomplete) =>
            Some (if (MinCount <=? matchCount)%Z then NewParseResultRange Success start pos else exhausted ctx start pos)
        | (_, _, utf8Invalid) =>
            Some (if (MinCount <=? matchCount)%Z then NewParseResultRange Success start pos else NewParseResult Fail start)
        | (r, size, utf8Success) =>
            if in_class ranges negated r
            then chars_loop fuel ctx start ranges negated MinCount MaxCount (pos + size) (matchCount + 1)
            else Some finish
        end
      else Some finish
  end.

Definition CharsParser_parse (ctx : ParseContext) (ranges : list CharRange) (negated : bool) (MinCount MaxCount : Z)
    (start : nat) : option ParseResult :=
  chars_loop (S (length ctx.(Input))) ctx start ranges negated MinCount MaxCount start 0.

Definition handleUnicodeEscape (ctx : ParseContext) (start pos : nat) : ParseResult :=
  match hex_loop 4 ctx start (pos + 1) with
  | inl r => r
  | inr pos => NewParseResultRange Success start pos
  end.

Definition handleEscapeSequence (ctx : ParseContext) (start pos : nat) : ParseResult :=
  match ctx.(Input) !! (pos + 1) with
  | None => exhausted ctx start (pos + 1)
  | Some c =>
      if json_escape c || Ascii.eqb c "'" then NewParseResultRange Success start (pos + 2)
      else if Ascii.eqb c "u" then handleUnicodeEscape ctx start (pos + 1)
      else NewParseResult Fail start
  end.

(** The loop that [JSONStringParser] and [PythonDictStringParser] share but for
    the quote. *)
Fixpoint content_loop (fuel : nat) (quote : ascii) (ctx : ParseContext) (start pos : nat) : option ParseResult :=
  match fuel with
  | O => None
  | S fuel =>
      match ctx.(Input) !! pos with
      | None => Some (NewParseResultRange (if ctx.(IsPartial) then NeedMoreInput else Fail) start pos)
      | Some c =>
          if Ascii.eqb c quote then Some (NewParseResultRange Success start pos)
          else if Ascii.eqb c cBackslash then
            on_success (Some (handleEscapeSequence ctx start pos)) (content_loop fuel quote ctx start)
          else
            match parseUTF8Codepoint ctx.(Input) pos with
            | (_, _, utf8Incomplete) => Some (exhausted ctx start pos)
            | (_, _, utf8Invalid) => Some (NewParseResult Fail start)
            | (_, size, utf8Success) => content_loop fuel quote ctx start (pos + size)
            end
      end
  end.

Definition JSONStringParser_parse (ctx : ParseContext) (start : nat) : option ParseResult :=
  content_loop (S (length ctx.(Input))) cQuote ctx start start.

Definition PythonDictStringParser_parse (ctx : ParseContext) (start : nat) : option ParseResult :=
  content_loop (S (length ctx.(Input))) "'" ctx start start.

Fixpoint until_loop (fuel : nat) (matcher : trie) (ctx : ParseContext) (start pos lastValidPos : nat) : option ParseResult :=
  match fuel with
  | O => None
  | S fuel =>
      if Nat.ltb pos (length ctx.(Input)) then
        match parseUTF8Codepoint ctx.(Input) pos with
        | (_, _, utf8Incomplete) => Some (exhausted ctx start lastValidPos)
        | (_, _, utf8Invalid) => Some (NewParseResult Fail start)
        | (_, size, utf8Success) =>
            m ← checkAt matcher ctx.(Input) pos;
            match m with
            | trieCompleteMatch | triePartialMatch => Some (NewParseResultRange Success start pos)
            | trieNoMatch => until_loop fuel matcher ctx start (pos + size) (pos + size)
            end
        end
      else
        Some (if Nat.eqb lastValidPos (length ctx.(Input)) && ctx.(IsPartial)
              then NewParseResultRange NeedMoreInput start lastValidPos
              else NewParseResultRange Success start lastValidPos)
  end.

Definition UntilParser_parse (ctx : ParseContext) (delimiters : list string) (start : nat) : option ParseResult :=
  matcher ← newTrie (map (λ d, runes (bytes d)) delimiters);
  until_loop (S (length ctx.(Input))) matcher ctx start start start.

Definition jsonNumberParser_parse (ctx : ParseContext) (start : nat) : ParseResult :=
  match ctx.(Input) !! start with
  | None => exhausted ctx start start
  | Some c => if Ascii.eqb c "-" || isDigit c then parseJSONNumber ctx start start else NewParseResult Fail start
  end.

(** ** Parsers with children *)

Section Parse.
Context (a : Arena) (ctx : ParseContext).

(** [arena.ParseAt] *)
Context (ParseAt : ParserID → nat → M AstArena ParseResult).

Local Abbreviation L := (length ctx.(Input)).

Fixpoint sequence_loop (start : nat) (children : list ParserID) (pos : nat) (nodes : list AstID) : M AstArena ParseResult :=
  match children with
  | [] => mret (NewParseResultNodes Success start pos nodes)
  | childID :: children =>
      result ← ParseAt childID pos;
      match result.(Type_) with
      | Fail =>
          if ctx.(IsPartial) && Nat.leb L result.(End)
          then mret (NewParseResultNodes NeedMoreInput start result.(End) nodes)
          else mret (NewParseResultRange Fail start result.(End))
      | NeedMoreInput => mret (NewParseResultNodes NeedMoreInput start result.(End) (nodes ++ result.(Nodes)))
      | Success => sequence_loop start children result.(End) (nodes ++ result.(Nodes))
      end
  end.

Fixpoint choice_loop (children : list ParserID) (start : nat) : M AstArena ParseResult :=
  match children with
  | [] => mret (NewParseResult Fail start)
  | childID :: children =>
      result ← ParseAt childID start;
      if decide (result.(Type_) = Fail) then choice_loop children start else mret result
  end.

Definition repetition_end (start : nat) (MinCount : Z) (pos : nat) (matchCount : Z) (nodes : list AstID) : ParseResult :=
  if (0 <? MinCount)%Z && (matchCount <? MinCount)%Z then
    if Nat.leb L pos && ctx.(IsPartial) then NewParseResultNodes NeedMoreInput start pos nodes
    else NewParseResultRange Fail start pos
  else NewParseResultNodes Success start pos nodes.

(** Every round but the last consumes input. *)
Fixpoint repetition_loop (fuel : nat) (start : nat) (child : ParserID) (MinCount MaxCount : Z)
    (pos : nat) (matchCount : Z) (nodes : list AstID) : M AstArena ParseResult :=
  match fuel with
  | O => panic
  | S fuel =>
      let finish := mret (repetition_end start MinCount pos matchCount nodes) in
      if (MaxCount =? -1)%Z || (matchCount <? MaxCount)%Z then
        if Nat.leb L pos then finish else
        result ← ParseAt child pos;
        match result.(Type_) with
        | Success =>
            if Nat.eqb result.(End) pos then finish
            else repetition_loop fuel start child MinCount MaxCount result.(End) (matchCount + 1) (nodes ++ result.(Nodes))
        | NeedMoreInput => mret (NewParseResultNodes NeedMoreInput start result.(End) (nodes ++ result.(Nodes)))
        | Fail => finish
        end
      else finish
  end.

(** The text of a node: a slice of the input. *)
Definition node_text (result : ParseResult) : option (list ascii) :=
  if Nat.ltb result.(Start) L then
    let stop := Nat.min result.(End) L in
    if Nat.leb result.(Start) stop then Some (take (stop - result.(Start)) (drop result.(Start) ctx.(Input))) else None
  else Some [].

(** What [RuleParser] and [TagParser] do with the result of the child. *)
Definition with_node (rule tag : string) (result : ParseResult) : M AstArena ParseResult :=
  if decide (result.(Type_) = Fail) then mret result else
  text ← lift (node_text result);
  nodeID ← AddNode rule tag result.(Start) result.(End) text result.(Nodes) (bool_decide (result.(Type_) = NeedMoreInput));
  mret (NewParseResultNodes result.(Type_) result.(Start) result.(End) [nodeID]).

Definition AndParser_parse (child : ParserID) (start : nat) : M AstArena ParseResult :=
  result ← ParseAt child start; mret (NewParseResult result.(Type_) start).

Definition NotParser_parse (child : ParserID) (start : nat) : M AstArena ParseResult :=
  result ← ParseAt child start;
  mret (NewParseResult match result.(Type_) with Success => Fail | NeedMoreInput => NeedMoreInput | Fail => Success end start).

Definition RuleParser_parse (name : string) (child : ParserID) (start : nat) : M AstArena ParseResult :=
  result ← ParseAt child start; with_node name "" result.

Definition RefParser_parse (name : string) (start : nat) : M AstArena ParseResult :=
  ruleID ← lift (GetRule a name); ParseAt ruleID start.

(** A partial result loses its nodes. *)
Definition AtomicParser_parse (child : ParserID) (start : nat) : M AstArena ParseResult :=
  result ← ParseAt child start;
  mret (if decide (result.(Type_) = NeedMoreInput) then NewParseResultRange result.(Type_) result.(Start) result.(End) else result).

Definition TagParser_parse (child : ParserID) (tag : string) (start : nat) : M AstArena ParseResult :=
  result ← ParseAt child start; with_node "" tag result.

Definition parse (p : Parser) (start : nat) : M AstArena ParseResult :=
  match p with
  | EpsilonParser => mret (NewParseResult Success start)
  | StartParser => mret (NewParseResult (if Nat.eqb start 0 then Success else Fail) start)
  | EndParser => mret (NewParseResult (if Nat.leb L start then Success else Fail) start)
  | LiteralParser Literal => mret (parseLiteralAt ctx start start Literal)
  | SequenceParser Children => sequence_loop start Children start []
  | ChoiceParser Children => choice_loop Children start
  | RepetitionParser Child MinCount MaxCount => repetition_loop (S L) start Child MinCount MaxCount start 0 []
  | AndParser Child => AndParser_parse Child start
  | NotParser Child => NotParser_parse Child start
  | AnyParser => mret (AnyParser_parse ctx start)
  | SpaceParser => mret (SpaceParser_parse ctx start)
  | CharsParser _ Ranges Negated MinCount MaxCount => lift (CharsParser_parse ctx Ranges Negated MinCount MaxCount start)
  | JSONStringParser => lift (JSONStringParser_parse ctx start)
  | PythonDictStringParser => lift (PythonDictStringParser_parse ctx start)
  | UntilParser Delimiters => lift (UntilParser_parse ctx Delimiters start)
  | RuleParser Name Child _ => RuleParser_parse Name Child start
  | RefParser Name => RefParser_parse Name start
  | AtomicParser Child => AtomicParser_parse Child start
  | TagParser Child Tag => TagParser_parse Child Tag start
  | SchemaParser Child _ => ParseAt Child start
  | JSONParser => lift (JSON_parse ctx start)
  | jsonNumberParser => mret (jsonNumberParser_parse ctx start)
  end.
End Parse.

Fixpoint ParseAt (fuel : nat) (a : Arena) (ctx : ParseContext) (id : ParserID) (start : nat) : M AstArena ParseResult :=
  match fuel with
  | O => panic
  | S fuel => parser ← lift (a.(parsers) !! id); parse a ctx (ParseAt fuel a ctx) parser start
  end.

Definition ParseFrom (fuel : nat) (a : Arena) (ctx : ParseContext) (start : nat) : M AstArena ParseResult :=
  id ← lift a.(root); ParseAt fuel a ctx id start.

Definition Parse (fuel : nat) (a : Arena) (ctx : ParseContext) : M AstArena ParseResult := ParseFrom fuel a ctx 0.

(** The positions left to try. *)
Fixpoint anywhere_loop (fuel : nat) (a : Arena) (ctx : ParseContext) (id : ParserID) (n i : nat) : M AstArena ParseResult :=
  match n with
  | O => mret (NewParseResult Fail 0)
  | S n =>
      result ← ParseAt fuel a ctx id i;
      if bool_decide (result.(Type_) = Success) || Nat.eqb i (length ctx.(Input) - 1) then mret result
      else anywhere_loop fuel a ctx id n (S i)
  end.

Definition ParseAnywhere (fuel : nat) (a : Arena) (ctx : ParseContext) : M AstArena ParseResult :=
  id ← lift a.(root);
  if Nat.eqb (length ctx.(Input)) 0 then ParseAt fuel a ctx id 0 else anywhere_loop fuel a ctx id (length ctx.(Input)) 0.
