(* ===== verification/PegTotal.v ===== *)
(** * PegTotal: parsing terminates, in bounds, with a well-nested AST

    A grammar without left recursion, witnessed by a rank of its parsers,
    parses every input from every position: no panic, no endless recursion.
    The result and the AST nodes stay within the input, and the nodes form
    well-nested trees. *)
From Stdlib Require Import Ascii.
From S2P Require Import Prelude GoMonad PegTypes PegTrie PegJson PegParser.

(** ** Grammars without left recursion *)

(** [nullable id]: the parser may succeed without consuming input.  [rank]
    decreases on every call at the same position. *)
Record certificate := MkCertificate { nullable : list bool; rank : list nat }.

Definition nullable_at (c : certificate) (id : ParserID) : bool := default true (c.(nullable) !! id).
Definition rank_at (c : certificate) (id : ParserID) : nat := default 0 (c.(rank) !! id).

(** The children a parser may call where it starts. *)
Fixpoint leading (c : certificate) (ids : list ParserID) : list ParserID :=
  match ids with
  | [] => []
  | id :: ids => id :: if nullable_at c id then leading c ids else []
  end.

Definition option_list (o : option ParserID) : list ParserID := match o with Some id => [id] | None => [] end.

Definition all_children (a : Arena) (p : Parser) : list ParserID :=
  match p with
  | SequenceParser ids | ChoiceParser ids => ids
  | RepetitionParser id _ _ | AndParser id | NotParser id | RuleParser _ id _ | AtomicParser id | TagParser id _
  | SchemaParser id _ => [id]
  | RefParser name => option_list (GetRule a name)
  | _ => []
  end.

Definition leading_children (a : Arena) (c : certificate) (p : Parser) : list ParserID :=
  match p with SequenceParser ids => leading c ids | _ => all_children a p end.

(** The parser may succeed without consuming, by the children. *)
Definition may_be_empty (a : Arena) (c : certificate) (p : Parser) : bool :=
  match p with
  | LiteralParser lit => String.eqb lit ""
  | SequenceParser ids => forallb (nullable_at c) ids
  | ChoiceParser ids => existsb (nullable_at c) ids
  | RepetitionParser _ MinCount _ => (MinCount <=? 0)%Z
  | CharsParser _ _ _ MinCount _ => (MinCount <=? 0)%Z
  | RuleParser _ id _ | AtomicParser id | TagParser id _ | SchemaParser id _ => nullable_at c id
  | RefParser name => existsb (nullable_at c) (option_list (GetRule a name))
  | AnyParser | JSONParser | jsonNumberParser => false
  | _ => true
  end.

(** A reference has its rule. *)
Definition resolved (a : Arena) (p : Parser) : bool :=
  match p with RefParser name => bool_decide (is_Some (GetRule a name)) | _ => true end.

Definition parser_ok (a : Arena) (c : certificate) (id : ParserID) (p : Parser) : bool :=
  resolved a p &&
  forallb (λ child, Nat.ltb child (length a.(parsers))) (all_children a p) &&
  forallb (λ child, Nat.ltb (rank_at c child) (rank_at c id)) (leading_children a c p) &&
  implb (may_be_empty a c p) (nullable_at c id).

(** No left recursion, by [c]. *)
Definition ranked (a : Arena) (c : certificate) : bool :=
  forallb (λ ip, parser_ok a c ip.1 ip.2) (imap pair a.(parsers)) &&
  Nat.eqb (length c.(rank)) (length a.(parsers)).

Definition max_rank (c : certificate) : nat := foldr Nat.max 0 c.(rank).

(** A certificate, computed: the least solution for [nullable], by iteration
    from nothing, then the longest chain of leading calls. *)
Definition nullable_step (a : Arena) (l : list bool) : list bool :=
  map (may_be_empty a (MkCertificate l [])) a.(parsers).

Definition rank_step (a : Arena) (l : list bool) (ranks : list nat) : list nat :=
  map (λ p, foldr (λ child r, Nat.max (S (rank_at (MkCertificate l ranks) child)) r) 0 (leading_children a (MkCertificate l ranks) p))
    a.(parsers).

Definition certify (a : Arena) : certificate :=
  let n := length a.(parsers) in
  let l := Nat.iter n (nullable_step a) (replicate n false) in
  MkCertificate l (Nat.iter n (rank_step a l) (replicate n 0)).

(** Enough for an input of [n] bytes. *)
Definition parse_fuel (c : certificate) (n : nat) : nat := S n * S (S (max_rank c)).

Lemma rank_max c id : rank_at c id ≤ max_rank c.
Proof.
  unfold rank_at, max_rank. destruct (rank c !! id) as [r|] eqn:Hr; simpl; [|lia].
  revert id Hr. induction (rank c) as [|x l IH]; intros [|id] Hr; simpl in *; simplify_eq; [lia|]. specialize (IH _ Hr). lia.
Qed.

Lemma ranked_parser a c id p : ranked a c = true → a.(parsers) !! id = Some p → parser_ok a c id p = true.
Proof.
  unfold ranked. intros [H _]%andb_true_iff Hp. rewrite forallb_forall in H. apply (H (id, p)).
  apply list_elem_of_In, list_elem_of_lookup. exists id. by rewrite list_lookup_imap, Hp.
Qed.

(** ** Well-nested nodes *)

(** The nodes [ids] lie one after the other between [lo] and [hi]. *)
Fixpoint tiles (s : AstArena) (lo hi : nat) (ids : list AstID) : Prop :=
  match ids with
  | [] => lo ≤ hi
  | id :: ids => ∃ n, s !! id = Some n ∧ lo ≤ n.(node_Start) ≤ n.(node_End) ∧ tiles s n.(node_End) hi ids
  end.

Record node_ok (ctx : ParseContext) (s : AstArena) (i : AstID) (n : AstNode) : Prop := MkNodeOk {
  node_id : n.(ID) = i;
  node_span : n.(node_Start) ≤ n.(node_End) ≤ length ctx.(Input);
  node_slice : n.(Text) = take (n.(node_End) - n.(node_Start)) (drop n.(node_Start) ctx.(Input));
  node_older : Forall (λ child, child < i) n.(Children);
  node_tiles : tiles s n.(node_Start) n.(node_End) n.(Children);
  node_partial : n.(node_IsPartial) = true → ctx.(IsPartial) = true;
}.

Definition ast_ok (ctx : ParseContext) (s : AstArena) : Prop := ∀ i n, s !! i = Some n → node_ok ctx s i n.

Lemma tiles_prefix s s' lo hi ids : s `prefix_of` s' → tiles s lo hi ids → tiles s' lo hi ids.
Proof.
  intros [k ->]. revert lo. induction ids as [|id ids IH]; intros lo; simpl; [done|].
  intros (n & Hn & Hlo & H). exists n. split_and!; [by apply lookup_app_l_Some|lia|lia|by apply IH].
Qed.

Lemma tiles_le s lo hi ids : tiles s lo hi ids → lo ≤ hi.
Proof. revert lo. induction ids as [|id ids IH]; intros lo; simpl; [done|]. intros (n & _ & ? & ?%IH). lia. Qed.

Lemma tiles_app s lo mid hi l1 l2 : tiles s lo mid l1 → tiles s mid hi l2 → tiles s lo hi (l1 ++ l2).
Proof.
  revert lo. induction l1 as [|id l1 IH]; intros lo; simpl.
  - destruct l2 as [|id l2]; simpl; [lia|]. intros ? (n & ? & ? & ?). exists n. split_and!; (done || lia).
  - intros (n & ? & ? & ?) ?. exists n. split_and!; (done || lia || by apply IH).
Qed.

Lemma tiles_end s lo hi hi' ids : hi ≤ hi' → tiles s lo hi ids → tiles s lo hi' ids.
Proof.
  intros H. revert lo. induction ids as [|id ids IH]; intros lo; simpl; [lia|].
  intros (n & ? & ? & ?). exists n. split_and!; (done || lia || by apply IH).
Qed.

Lemma tiles_lt s lo hi ids : tiles s lo hi ids → Forall (λ id, id < length s) ids.
Proof.
  revert lo. induction ids as [|id ids IH]; intros lo; simpl; [constructor|].
  intros (n & Hn & _ & H). constructor; [by eapply lookup_lt_Some|by eapply IH].
Qed.

(** ** What every parse promises *)

Section Promise.
Context (ctx : ParseContext).
Local Abbreviation L := (length ctx.(Input)).

(** A parse from [start] in the AST [s], by a parser that consumes input
    unless [empty]. *)
Record promise (empty : bool) (start : nat) (s : AstArena) (r : ParseResult) (s' : AstArena) : Prop := MkPromise {
  promise_start : r.(Start) = start;
  promise_end : start ≤ r.(End) ≤ L;
  promise_more : r.(Type_) = NeedMoreInput → ctx.(IsPartial) = true;
  promise_consumes : r.(Type_) = Success → empty = false → start < r.(End);
  promise_ast : ast_ok ctx s';
  promise_prefix : s `prefix_of` s';
  promise_nodes : r.(Type_) ≠ Fail → tiles s' start r.(End) r.(Nodes);
}.

(** The bounds of a result without nodes. *)
Definition leaf_ok (empty : bool) (start : nat) (r : ParseResult) : Prop :=
  r.(Start) = start ∧ start ≤ r.(End) ≤ L ∧ r.(Nodes) = [] ∧
  (r.(Type_) = NeedMoreInput → ctx.(IsPartial) = true) ∧ (r.(Type_) = Success → empty = false → start < r.(End)).

Lemma leaf_promise empty start s r : ast_ok ctx s → leaf_ok empty start r → promise empty start s r s.
Proof. intros Hs (H1 & H2 & H3 & H4 & H5). split; try done. intros _. rewrite H3. simpl. lia. Qed.

Lemma wp_leaf empty start s r : ast_ok ctx s → leaf_ok empty start r → wp (mret r) (promise empty start s) s.
Proof. intros. by apply wp_ret, leaf_promise. Qed.

Lemma wp_leaf_option empty start s o : ast_ok ctx s → (∃ r, o = Some r ∧ leaf_ok empty start r) → wp (lift o) (promise empty start s) s.
Proof. intros Hs (r & -> & Hr). by apply wp_leaf. Qed.

Lemma promise_weaken e e' start s r s' : (e' = false → e = false) → promise e start s r s' → promise e' start s r s'.
Proof. intros He []. split; auto. Qed.

(** Results of the JSON functions. *)
Lemma result_leaf empty start pos r : start ≤ pos ≤ L → result_ok ctx start pos r → leaf_ok empty start r.
Proof.
  intros Hp (H1 & H2 & H3). unfold leaf_ok. destruct (Type_ r) eqn:Ht; split_and!; (done || lia || (intros; (lia || by destruct H3))).
Qed.

Lemma range_leaf empty start t e :
  start ≤ e ≤ L → (t = NeedMoreInput → ctx.(IsPartial) = true) → (t = Success → empty = false → start < e) →
  leaf_ok empty start (NewParseResultRange t start e).
Proof. intros. unfold leaf_ok. simpl. split_and!; (done || lia || auto). Qed.

Lemma here_leaf start t : start ≤ L → (t = NeedMoreInput → ctx.(IsPartial) = true) → leaf_ok true start (NewParseResult t start).
Proof. intros. unfold leaf_ok. simpl. split_and!; (done || lia || auto). Qed.

Lemma fail_leaf empty start : start ≤ L → leaf_ok empty start (NewParseResult Fail start).
Proof. intros. unfold leaf_ok. simpl. split_and!; (done || lia || auto). Qed.

Lemma exhausted_leaf empty start p : start ≤ p ≤ L → leaf_ok empty start (exhausted ctx start p).
Proof. intros. by apply (result_leaf _ _ start), exhausted_ok; [lia|]. Qed.
End Promise.

(** ** Parsers without children *)

Section Leaves.
Context (ctx : ParseContext) (start : nat).
Hypothesis in_range : start ≤ length ctx.(Input).
Local Abbreviation L := (length ctx.(Input)).

(** A result, in bounds. *)
Definition leaves (empty : bool) (o : option ParseResult) : Prop := ∃ r, o = Some r ∧ leaf_ok ctx empty start r.

Lemma leaves_some empty r : leaf_ok ctx empty start r → leaves empty (Some r).
Proof. intros. by exists r. Qed.

Lemma literal_leaf lit : leaf_ok ctx (String.eqb lit "") start (parseLiteralAt ctx start start lit).
Proof.
  unfold parseLiteralAt. destruct (String.eqb_spec lit "") as [->|Hne].
  - apply here_leaf; [done|done].
  - apply (result_leaf _ _ _ start); [done|]. apply literal_loop_ok; [done|]. right. by destruct lit.
Qed.

Lemma any_leaf : leaf_ok ctx false start (AnyParser_parse ctx start).
Proof.
  unfold AnyParser_parse. destruct (parseUTF8Codepoint (Input ctx) start) as [[r n] []] eqn:Hu.
  - apply parse_success_bounds in Hu. apply range_leaf; (lia || done).
  - destruct (IsPartial ctx) eqn:Hp; [|by apply fail_leaf]. by apply (range_leaf ctx false start NeedMoreInput start).
  - by apply fail_leaf.
Qed.

Lemma space_leaf : leaf_ok ctx true start (SpaceParser_parse ctx start).
Proof. apply range_leaf; [by apply advance_bounds|done|done]. Qed.

Lemma chars_leaf fuel ranges negated MinCount MaxCount pos m :
  start ≤ pos ≤ L → L - pos < fuel → (0 ≤ m)%Z → ((0 < m)%Z → start < pos) →
  leaves (MinCount <=? 0)%Z (chars_loop fuel ctx start ranges negated MinCount MaxCount pos m).
Proof.
  revert pos m. induction fuel as [|fuel IH]; intros pos m Hpos Hf Hm Hadv; [lia|]. cbn [chars_loop].
  assert (Hsuccess : (MinCount <= m)%Z → leaf_ok ctx (MinCount <=? 0)%Z start (NewParseResultRange Success start pos)).
  { intros Hle. apply range_leaf; [done|done|]. intros _ He. apply Hadv. lia. }
  assert (Hfinish : leaves (MinCount <=? 0)%Z (Some (if (m <? MinCount)%Z then
      if Nat.leb L pos && IsPartial ctx then NewParseResultRange NeedMoreInput start pos else NewParseResultRange Fail start pos
    else NewParseResultRange Success start pos))).
  { apply leaves_some. destruct (Z.ltb_spec m MinCount); [|by apply Hsuccess].
    destruct (Nat.leb L pos && IsPartial ctx) eqn:Hp; apply range_leaf; try done. intros _. by apply andb_true_iff in Hp as [_ ?]. }
  destruct (_ || _); [|done]. destruct (parseUTF8Codepoint (Input ctx) pos) as [[r n] []] eqn:Hu.
  - apply parse_success_bounds in Hu. destruct (in_class ranges negated r); [|done]. apply IH; lia.
  - apply leaves_some. destruct (Z.leb_spec MinCount m); [by apply Hsuccess|by apply exhausted_leaf].
  - apply leaves_some. destruct (Z.leb_spec MinCount m); [by apply Hsuccess|by apply fail_leaf].
Qed.

Lemma escape_ok pos : start ≤ pos < L → result_ok ctx start pos (handleEscapeSequence ctx start pos).
Proof.
  intros Hpos. unfold handleEscapeSequence. destruct (Input ctx !! (pos + 1)) as [c|] eqn:Hc; [|by apply exhausted_ok; lia].
  apply lookup_lt_Some in Hc. destruct (_ || _); [by apply success_ok; lia|]. destruct (Ascii.eqb c "u"); [|done].
  unfold handleUnicodeEscape. pose proof (hex_loop_ok ctx start 4 pos (pos + 1 + 1) ltac:(lia)) as Hh.
  destruct (hex_loop 4 ctx start (pos + 1 + 1)) as [r|q]; [by destruct Hh|]. apply success_ok. lia.
Qed.

Lemma content_leaf fuel quote pos : start ≤ pos ≤ L → L - pos < fuel → leaves true (content_loop fuel quote ctx start pos).
Proof.
  revert pos. induction fuel as [|fuel IH]; intros pos Hpos Hf; [lia|]. cbn [content_loop].
  destruct (Input ctx !! pos) as [c|] eqn:Hc.
  2: { apply leaves_some, range_leaf; [done| |by destruct (IsPartial ctx)]. by destruct (IsPartial ctx). }
  apply lookup_lt_Some in Hc. destruct (Ascii.eqb c quote); [by apply leaves_some, range_leaf|].
  destruct (Ascii.eqb c cBackslash).
  - pose proof (escape_ok pos ltac:(lia)) as Hok. simpl. destruct (decide (Type_ (handleEscapeSequence ctx start pos) = Success)) as [Ht|].
    + destruct Hok as (_ & _ & Hok). rewrite Ht in Hok. apply IH; lia.
    + apply leaves_some. apply (result_leaf _ _ _ pos); [lia|done].
  - destruct (parseUTF8Codepoint (Input ctx) pos) as [[r n] []] eqn:Hu.
    + apply parse_success_bounds in Hu. apply IH; lia.
    + by apply leaves_some, exhausted_leaf.
    + by apply leaves_some, fail_leaf.
Qed.

Lemma until_leaf fuel matcher pos :
  (∀ p, ∃ m, checkAt matcher ctx.(Input) p = Some m) → start ≤ pos ≤ L → L - pos < fuel →
  leaves true (until_loop fuel matcher ctx start pos pos).
Proof.
  intros Hcheck. revert pos. induction fuel as [|fuel IH]; intros pos Hpos Hf; [lia|]. cbn [until_loop].
  destruct (Nat.ltb_spec pos L).
  - destruct (parseUTF8Codepoint (Input ctx) pos) as [[r n] []] eqn:Hu.
    + apply parse_success_bounds in Hu. destruct (Hcheck pos) as [m ->]. simpl.
      destruct m; [apply IH; lia|by apply leaves_some, range_leaf..].
    + by apply leaves_some, exhausted_leaf.
    + by apply leaves_some, fail_leaf.
  - apply leaves_some. destruct (Nat.eqb pos L && IsPartial ctx) eqn:Hp; apply range_leaf; try done.
    intros _. by apply andb_true_iff in Hp as [_ ?].
Qed.

Lemma until_parse_leaf delimiters : leaves true (UntilParser_parse ctx delimiters start).
Proof.
  unfold UntilParser_parse.
  destruct (newTrie_represents (map (λ d, runes (bytes d)) delimiters)) as (t & Ht & _). rewrite Ht. cbn [mbind option_bind].
  apply until_leaf; [|lia|lia]. intros p.
  destruct (checkAt_reference (map (λ d, runes (bytes d)) delimiters) (Input ctx) p) as (t' & Ht' & Hm).
  assert (t' = t) as -> by congruence. eauto.
Qed.

Lemma number_leaf : leaf_ok ctx false start (jsonNumberParser_parse ctx start).
Proof.
  unfold jsonNumberParser_parse. destruct (Input ctx !! start) as [c|] eqn:Hc; [|by apply exhausted_leaf].
  apply lookup_lt_Some in Hc. destruct (_ || _); [|by apply fail_leaf].
  apply (result_leaf _ _ _ start); [done|]. by apply number_ok.
Qed.

Lemma json_leaf : leaves false (JSON_parse ctx start).
Proof.
  destruct (JSON_parse_ok ctx start in_range) as (r & Hr & Hok). exists r. split; [done|].
  by apply (result_leaf _ _ _ start).
Qed.
End Leaves.

(** ** Parsers with children *)

Section Step.
Context (a : Arena) (c : certificate) (ctx : ParseContext).
Context (rec : nat → nat → M (list AstNode) ParseResult) (start rk : nat).
Local Abbreviation L := (length ctx.(Input)).
Hypothesis in_range : start ≤ L.

(** The calls a parser at [start] may make. *)
Definition callable (id pos : nat) : Prop :=
  id < length a.(parsers) ∧ start ≤ pos ≤ L ∧ (pos = start → rank_at c id < rk).

Hypothesis calls : ∀ id pos s, callable id pos → ast_ok ctx s → wp (rec id pos) (promise ctx (nullable_at c id) pos s) s.

(** What a parser passes on to the next one: the position, the nodes so far. *)
Definition so_far (pos : nat) (s0 : list AstNode) (nodes : list nat) (s : list AstNode) : Prop :=
  start ≤ pos ≤ L ∧ ast_ok ctx s ∧ s0 `prefix_of` s ∧ tiles s start pos nodes.

Lemma so_far_start s : ast_ok ctx s → so_far start s [] s.
Proof. intros. split_and!; (done || lia || simpl; lia). Qed.

(** After a child that did not fail. *)
Lemma so_far_child pos s0 nodes s e r s' :
  so_far pos s0 nodes s → promise ctx e pos s r s' → Type_ r ≠ Fail → so_far r.(End) s0 (nodes ++ r.(Nodes)) s'.
Proof.
  intros (Hp & Hs & Hpre & Ht) [] Hne. split_and!; [lia|lia|done|by etrans|].
  eapply tiles_app; [by eapply tiles_prefix|by auto].
Qed.

(** After a child whose result is dropped. *)
Lemma so_far_same pos s0 nodes s e r s' : so_far pos s0 nodes s → promise ctx e pos s r s' → so_far pos s0 nodes s'.
Proof.
  intros (Hp & Hs & Hpre & Ht) []. split_and!; [lia|lia|done|by etrans|]. by eapply (tiles_prefix s).
Qed.

(** After a child that failed. *)
Lemma so_far_failed pos s0 nodes s e r s' :
  so_far pos s0 nodes s → promise ctx e pos s r s' → ast_ok ctx s' ∧ s0 `prefix_of` s' ∧ tiles s' start r.(End) nodes ∧ pos ≤ r.(End) ≤ L.
Proof.
  intros (Hp & Hs & Hpre & Ht) []. split_and!; [done|by etrans| |lia|lia].
  eapply tiles_end; [|by eapply tiles_prefix]. lia.
Qed.

(** A result made of what was collected. *)
Lemma so_far_done empty pos s0 nodes s t :
  so_far pos s0 nodes s → (t = NeedMoreInput → ctx.(IsPartial) = true) → (t = Success → empty = false → start < pos) →
  promise ctx empty start s0 (NewParseResultNodes t start pos nodes) s.
Proof. intros (? & ? & ? & ?) ? ?. by split. Qed.

Lemma fail_done empty e s0 s : start ≤ e ≤ L → ast_ok ctx s → s0 `prefix_of` s → promise ctx empty start s0 (NewParseResultRange Fail start e) s.
Proof. intros. by split. Qed.

Lemma sequence_ok children pos s0 nodes s :
  so_far pos s0 nodes s → Forall (λ id, id < length a.(parsers)) children →
  (pos = start → Forall (λ id, rank_at c id < rk) (leading c children)) →
  wp (sequence_loop ctx rec start children pos nodes)
    (promise ctx (Nat.eqb pos start && forallb (nullable_at c) children) start s0) s.
Proof.
  intros Hsf Hin Hrk. revert pos nodes s Hsf Hin Hrk. induction children as [|id children IH]; intros pos nodes s Hsf Hin Hrk; simpl.
  { apply wp_ret, so_far_done; [done|done|]. intros _ He. destruct (Nat.eqb_spec pos start); [done|]. destruct Hsf as [? _]. lia. }
  apply Forall_cons in Hin as [Hid Hin]. apply wp_bind. eapply wp_mono.
  { apply calls; [|by destruct Hsf as (_ & ? & _)]. split_and!; [done|by destruct Hsf as [[? ?] _]..|]. intros He.
    specialize (Hrk He). simpl in Hrk. by apply Forall_cons in Hrk as [? _]. }
  intros r s' Hr. cbv beta. destruct (Type_ r) eqn:Ht.
  - destruct (so_far_failed _ _ _ _ _ _ _ Hsf Hr) as (Hs' & Hpre & Htiles & He). destruct Hsf as [[? ?] _].
    destruct (IsPartial ctx && Nat.leb L (End r)) eqn:Hp; apply wp_ret.
    + apply andb_true_iff in Hp as [Hp _]. apply so_far_done; [split_and!; (done || lia)|done|done].
    + apply fail_done; (done || lia).
  - pose proof (so_far_child _ _ _ _ _ _ _ Hsf Hr ltac:(by rewrite Ht)) as Hsf'.
    eapply wp_mono; [apply IH; [done|done|]|].
    + intros He. destruct Hr. destruct Hsf as [[? ?] _]. assert (pos = start) by lia. specialize (Hrk ltac:(done)). simpl in Hrk.
      apply Forall_cons in Hrk as [_ Hrk]. destruct (nullable_at c id) eqn:Hn; [done|]. specialize (promise_consumes0 Ht eq_refl). lia.
    + intros r2 s2. apply promise_weaken. destruct Hr, Hsf as [[? ?] _].
      destruct (Nat.eqb_spec (End r) start) as [He|]; [|done]. simpl. destruct (Nat.eqb_spec pos start); [|lia]. simpl.
      destruct (nullable_at c id) eqn:Hn; [done|]. specialize (promise_consumes0 Ht eq_refl). lia.
  - pose proof (so_far_child _ _ _ _ _ _ _ Hsf Hr ltac:(by rewrite Ht)) as Hsf'. apply wp_ret, so_far_done; [done| |done].
    intros _. by apply (promise_more _ _ _ _ _ _ Hr).
Qed.

Lemma choice_ok children s :
  ast_ok ctx s → Forall (λ id, id < length a.(parsers)) children → Forall (λ id, rank_at c id < rk) children →
  ∀ s0, s0 `prefix_of` s →
  wp (choice_loop rec children start) (promise ctx (existsb (nullable_at c) children) start s0) s.
Proof.
  intros Hs Hin Hrk. revert s Hs. induction children as [|id children IH]; intros s Hs s0 Hpre; simpl.
  { apply wp_ret. by apply (fail_done _ start). }
  apply Forall_cons in Hin as [Hid Hin]. apply Forall_cons in Hrk as [Hr Hrk]. apply wp_bind. eapply wp_mono.
  { apply calls; [|done]. by split_and!. }
  intros r s' Hp. cbv beta. destruct (decide (Type_ r = Fail)) as [Ht|Ht].
  - destruct Hp as [_ _ _ _ Hast Hpre' _]. eapply wp_mono; [apply (IH Hin Hrk s' Hast s0); by etrans|].
    intros r2 s2. apply promise_weaken. by intros [? ?]%orb_false_iff.
  - apply wp_ret. destruct Hp. split; auto.
    + intros Hx He. apply orb_false_iff in He as [He _]. auto.
    + by etrans.
Qed.

Lemma repetition_end_ok MinCount pos m s0 nodes s :
  so_far pos s0 nodes s → (0 ≤ m)%Z → ((0 < m)%Z → start < pos) →
  promise ctx (MinCount <=? 0)%Z start s0 (repetition_end ctx start MinCount pos m nodes) s.
Proof.
  intros Hsf Hm Hadv. unfold repetition_end. destruct ((0 <? MinCount)%Z && (m <? MinCount)%Z) eqn:Hmin.
  - destruct (Nat.leb L pos && IsPartial ctx) eqn:Hp.
    + apply so_far_done; [done| |done]. intros _. by apply andb_true_iff in Hp as [_ ?].
    + destruct Hsf as (? & ? & ? & ?). by apply fail_done.
  - apply so_far_done; [done|done|]. intros _ He. apply Hadv. lia.
Qed.

Lemma repetition_ok fuel child MinCount MaxCount pos m s0 nodes s :
  so_far pos s0 nodes s → child < length a.(parsers) → rank_at c child < rk → L - pos < fuel →
  (0 ≤ m)%Z → ((0 < m)%Z → start < pos) →
  wp (repetition_loop ctx rec fuel start child MinCount MaxCount pos m nodes) (promise ctx (MinCount <=? 0)%Z start s0) s.
Proof.
  intros Hsf Hid Hrk. revert pos m nodes s Hsf. induction fuel as [|fuel IH]; intros pos m nodes s Hsf Hf Hm Hadv; [lia|].
  cbn [repetition_loop]. pose proof (repetition_end_ok MinCount pos m s0 nodes s Hsf Hm Hadv) as Hend.
  destruct (_ || _); [|by apply wp_ret]. destruct (Nat.leb_spec L pos); [by apply wp_ret|].
  apply wp_bind. eapply wp_mono; [apply calls; [|by destruct Hsf as (_ & ? & _)]|].
  { destruct Hsf as [? _]. split_and!; (done || lia). }
  intros r s' Hr. cbv beta. destruct (Type_ r) eqn:Ht.
  - apply wp_ret, repetition_end_ok; [by eapply so_far_same|done|done].
  - destruct (Nat.eqb_spec (End r) pos) as [He|Hne].
    + apply wp_ret, repetition_end_ok; [by eapply so_far_same|done|done].
    + pose proof (so_far_child _ _ _ _ _ _ _ Hsf Hr ltac:(by rewrite Ht)). destruct Hr, Hsf as [[? ?] _]. apply IH; [done|lia..].
  - pose proof (so_far_child _ _ _ _ _ _ _ Hsf Hr ltac:(by rewrite Ht)) as Hsf'. apply wp_ret, so_far_done; [done| |done].
    intros _. by apply (promise_more _ _ _ _ _ _ Hr).
Qed.

(** A new node goes around the result. *)
Lemma with_node_ok rule tag e s0 s r :
  promise ctx e start s0 r s → wp (with_node ctx rule tag r) (promise ctx e start s0) s.
Proof.
  intros Hr. unfold with_node. destruct (decide (Type_ r = Fail)) as [Ht|Ht]; [by apply wp_ret|].
  destruct Hr as [Hstart Hend Hmore Hcons Hast Hpre Hnodes]. specialize (Hnodes Ht).
  assert (Htext : node_text ctx r = Some (take (End r - Start r) (drop (Start r) (Input ctx)))).
  { unfold node_text. rewrite Hstart. destruct (Nat.ltb_spec start L).
    - rewrite Nat.min_l by lia. by rewrite (proj2 (Nat.leb_le _ _)) by lia.
    - rewrite drop_ge by lia. by rewrite take_nil. }
  rewrite Htext. unfold AddNode. repeat wp_step. cbn [lift]. repeat wp_step. cbv beta.
  set (n := MkNode _ _ _ _ _ _ _ _).
  assert (Hnew : (s ++ [n]) !! length s = Some n) by (by rewrite lookup_app_r, Nat.sub_diag).
  assert (Hpre' : s `prefix_of` s ++ [n]) by (by apply prefix_app_r).
  split; try done.
  - intros i m Hm. apply lookup_app_Some in Hm as [Hm|[Hi Hm]].
    + destruct (Hast i m Hm). split; try done. by eapply tiles_prefix.
    + apply list_lookup_singleton_Some in Hm as [Hi' <-]. assert (i = length s) as -> by lia.
      split; simpl; [done|rewrite Hstart; lia|done|by eapply tiles_lt| |].
      * rewrite Hstart. by eapply tiles_prefix.
      * intros Hx%bool_decide_eq_true. auto.
  - by etrans.
  - intros _. simpl. exists n. rewrite Hstart in *. split_and!; [done|simpl; lia..].
Qed.

(** Every parser keeps its promise when its children do. *)
Lemma parse_ok p s :
  ast_ok ctx s → resolved a p = true → Forall (λ id, id < length a.(parsers)) (all_children a p) →
  Forall (λ id, rank_at c id < rk) (leading_children a c p) →
  wp (parse a ctx rec p start) (promise ctx (may_be_empty a c p) start s) s.
Proof.
  intros Hs Hres Hin Hrk.
  assert (Hone : ∀ id, id < length (parsers a) → rank_at c id < rk → wp (rec id start) (promise ctx (nullable_at c id) start s) s).
  { intros id ? ?. apply calls; [|done]. by split_and!. }
  assert (Hunary : ∀ id, Forall (λ id, id < length (parsers a)) [id] → Forall (λ id, rank_at c id < rk) [id] →
    wp (rec id start) (promise ctx (nullable_at c id) start s) s).
  { intros id [? _]%Forall_cons [? _]%Forall_cons. auto. }
  destruct p; cbn [parse may_be_empty all_children leading_children resolved] in *.
  - by apply wp_leaf, here_leaf.
  - apply wp_leaf, here_leaf; [done|done|by destruct (Nat.eqb _ _)].
  - apply wp_leaf, here_leaf; [done|done|by destruct (Nat.leb _ _)].
  - by apply wp_leaf, literal_leaf.
  - eapply wp_mono; [apply sequence_ok; [by apply so_far_start|done|done]|]. intros r s'. by rewrite Nat.eqb_refl.
  - by apply choice_ok.
  - apply Forall_cons in Hin as [? _], Hrk as [? _]. apply repetition_ok; [by apply so_far_start|done|done|lia..].
  - apply wp_bind. eapply wp_mono; [by apply Hunary|]. intros r s' []. apply wp_ret. split; simpl; (done || lia || auto).
  - apply wp_bind. eapply wp_mono; [by apply Hunary|]. intros r s' []. apply wp_ret. split; simpl; (done || lia || auto).
    destruct (Type_ r) eqn:Ht; by auto.
  - by apply wp_leaf, any_leaf.
  - by apply wp_leaf, space_leaf.
  - apply wp_leaf_option; [done|]. apply chars_leaf; lia.
  - apply wp_leaf_option; [done|]. apply content_leaf; lia.
  - apply wp_leaf_option; [done|]. apply content_leaf; lia.
  - apply wp_leaf_option; [done|]. by apply until_parse_leaf.
  - apply wp_bind. eapply wp_mono; [by apply Hunary|]. intros r s' Hr. by apply with_node_ok.
  - apply bool_decide_eq_true in Hres as [id Hid]. unfold RefParser_parse. rewrite Hid in *. simpl in *. rewrite orb_false_r. by apply Hunary.
  - apply wp_bind. eapply wp_mono; [by apply Hunary|]. intros r s' Hr. apply wp_ret.
    destruct (decide (Type_ r = NeedMoreInput)) as [Ht|]; [|done]. destruct Hr. split; try done. simpl. lia.
  - apply wp_bind. eapply wp_mono; [by apply Hunary|]. intros r s' Hr. by apply with_node_ok.
  - by apply Hunary.
  - apply wp_leaf_option; [done|]. by apply json_leaf.
  - by apply wp_leaf, number_leaf.
Qed.
End Step.

(** ** Parsing is total *)

Lemma ParseAt_ok a c ctx fuel id start s :
  ranked a c = true → id < length a.(parsers) → start ≤ length ctx.(Input) → ast_ok ctx s →
  (length ctx.(Input) - start) * S (S (max_rank c)) + rank_at c id < fuel →
  wp (ParseAt fuel a ctx id start) (promise ctx (nullable_at c id) start s) s.
Proof.
  intros Hranked. revert id start s. induction fuel as [|fuel IH]; intros id start s Hid Hstart Hs Hf; [by apply Nat.nlt_0_r in Hf|].
  cbn [ParseAt]. destruct (lookup_lt_is_Some_2 _ _ Hid) as [p Hp]. rewrite Hp. apply wp_bind, wp_ret. cbv beta.
  pose proof (ranked_parser a c id p Hranked Hp) as Hok. unfold parser_ok in Hok.
  apply andb_true_iff in Hok as [[[Hres Hin]%andb_true_iff Hrk]%andb_true_iff Hempty].
  eapply wp_mono; [apply (parse_ok a c ctx (ParseAt fuel a ctx) start (rank_at c id))|].
  - done.
  - intros id' pos s' (Hid' & Hpos & Hlow) Hs'. apply IH; [done|lia|done|]. pose proof (rank_max c id').
    destruct (decide (pos = start)) as [->|]; [specialize (Hlow eq_refl); lia|].
    pose proof (Nat.mul_le_mono_r (S (length (Input ctx) - pos)) (length (Input ctx) - start) (S (S (max_rank c))) ltac:(lia)) as Hmul.
    rewrite Nat.mul_succ_l in Hmul. lia.
  - done.
  - done.
  - rewrite forallb_forall in Hin. apply Forall_forall. intros x Hx. apply Nat.ltb_lt, Hin. by apply list_elem_of_In.
  - rewrite forallb_forall in Hrk. apply Forall_forall. intros x Hx. apply Nat.ltb_lt, Hrk. by apply list_elem_of_In.
  - intros r s'. apply promise_weaken. intros He. rewrite He in Hempty. by destruct (may_be_empty a c p).
Qed.

Lemma parse_fuel_enough c ctx start id : start ≤ length ctx.(Input) →
  (length ctx.(Input) - start) * S (S (max_rank c)) + rank_at c id < parse_fuel c (length ctx.(Input)).
Proof. intros H. pose proof (rank_max c id). unfold parse_fuel.
  pose proof (Nat.mul_le_mono_r (length (Input ctx) - start) (length (Input ctx)) (S (S (max_rank c))) ltac:(lia)). lia. Qed.

Lemma ast_ok_nil ctx : ast_ok ctx [].
Proof. by intros i n. Qed.

(** ** Visiting the AST *)

(** A node whose span lies between [lo] and [hi]. *)
Definition inside (lo hi : nat) (n : AstNode) : Prop := lo ≤ n.(node_Start) ∧ n.(node_Start) ≤ n.(node_End) ∧ n.(node_End) ≤ hi.

Lemma visit_list ctx s (visit : nat → option (list AstNode)) lo hi ids :
  (∀ id n, id ∈ ids → s !! id = Some n → ∃ l, visit id = Some l ∧ Forall (inside n.(node_Start) n.(node_End)) l) →
  ast_ok ctx s → tiles s lo hi ids →
  ∃ ls, mapM visit ids = Some ls ∧ Forall (inside lo hi) (concat ls).
Proof.
  intros Hv Hs. revert lo. induction ids as [|id ids IH]; intros lo Ht; simpl; [exists []; by split|].
  destruct Ht as (n & Hn & Hlo & Ht). destruct (Hv id n) as (l & Hl & Hin); [by left|done|].
  destruct (IH ltac:(intros x m Hx; apply Hv; by right) _ Ht) as (ls & Hls & Hins). pose proof (tiles_le _ _ _ _ Ht).
  exists (l :: ls). rewrite Hl. simpl. rewrite Hls. split; [done|]. simpl. apply Forall_app. split.
  - eapply Forall_impl; [exact Hin|]. unfold inside. intros m (? & ? & ?). lia.
  - eapply Forall_impl; [exact Hins|]. unfold inside. intros m (? & ? & ?). lia.
Qed.

Lemma Visit_ok ctx s fuel id n :
  ast_ok ctx s → s !! id = Some n → id < fuel →
  ∃ l, Visit fuel s id = Some (n :: l) ∧ Forall (inside n.(node_Start) n.(node_End)) l.
Proof.
  intros Hs. revert id n. induction fuel as [|fuel IH]; intros id n Hn Hf; [lia|]. cbn [Visit]. rewrite Hn. simpl.
  destruct (Hs id n Hn) as [_ Hspan _ Holder Htiles _].
  destruct (visit_list ctx s (Visit fuel s) n.(node_Start) n.(node_End) n.(PegTypes.Children)) as (ls & -> & Hins); [|done|done|].
  - intros i m Hi Hm. rewrite Forall_forall in Holder. destruct (IH i m Hm) as (l & -> & Hl); [specialize (Holder i Hi); lia|].
    eexists. split; [done|]. constructor; [|done]. destruct (Hs i m Hm) as [_ ? _ _ _ _]. unfold inside. lia.
  - eexists. split; [done|done].
Qed.

Lemma VisitResult_ok ctx s r lo :
  ast_ok ctx s → tiles s lo r.(End) r.(Nodes) →
  ∃ l, VisitResult (S (length s)) s r = Some l ∧ Forall (inside lo r.(End)) l.
Proof.
  intros Hs Ht. unfold VisitResult.
  destruct (visit_list ctx s (Visit (S (length s)) s) lo r.(End) r.(Nodes)) as (ls & -> & Hins); [|done|done|].
  - intros id n Hid Hn. destruct (Visit_ok ctx s (S (length s)) id n Hs Hn) as (l & -> & Hl).
    { pose proof (lookup_lt_Some _ _ _ Hn). lia. }
    eexists. split; [done|]. constructor; [|done]. destruct (Hs id n Hn) as [_ ? _ _ _ _]. unfold inside. lia.
  - eexists. split; [reflexivity|done].
Qed.

(** ** The theorems *)

Section Root.
Context (a : Arena) (c : certificate) (ctx : ParseContext) (id start : nat).
Hypothesis grammar : ranked a c = true.
Hypothesis root_set : a.(root) = Some id.
Hypothesis root_in : id < length a.(parsers).
Hypothesis in_input : start ≤ length ctx.(Input).

Lemma ParseFrom_ok :
  ∃ r s, ParseFrom (parse_fuel c (length ctx.(Input))) a ctx start [] = Some (r, s) ∧ promise ctx (nullable_at c id) start [] r s.
Proof.
  apply wp_Some. unfold ParseFrom. rewrite root_set. cbn [lift]. apply wp_bind, wp_ret.
  by apply ParseAt_ok; [..|apply parse_fuel_enough].
Qed.
End Root.

(** C13. A grammar without left recursion parses every input: from every
    position the root parser returns (no index out of range, no unknown rule,
    no infinite recursion or repetition), its result starts where it was asked
    to and ends within the input, it asks for more input in partial mode only,
    and a success of a parser that cannot be empty consumes input. *)
Theorem peg_total a c ctx id start :
  ranked a c = true → a.(root) = Some id → id < length a.(parsers) → start ≤ length ctx.(Input) →
  ∃ r s, ParseFrom (parse_fuel c (length ctx.(Input))) a ctx start [] = Some (r, s) ∧
    r.(Start) = start ∧ start ≤ r.(End) ≤ length ctx.(Input) ∧
    (r.(Type_) = NeedMoreInput → ctx.(IsPartial) = true) ∧
    (r.(Type_) = Success → nullable_at c id = false → start < r.(End)).
Proof.
  intros Hg Hr Hid Hstart. destruct (ParseFrom_ok a c ctx id start Hg Hr Hid Hstart) as (r & s & Hp & []).
  exists r, s. split_and!; (done || lia).
Qed.

(** C14. The AST of a parse is a well-formed forest: every node of the arena
    carries its own index, spans a part of the input and holds exactly that
    text, its children are older nodes that lie in it one after the other, and
    it is marked partial in partial mode only; unless the parse fails, visiting
    its result terminates and sees only nodes inside the span it consumed. *)
Theorem peg_ast a c ctx id start r s :
  ranked a c = true → a.(root) = Some id → id < length a.(parsers) → start ≤ length ctx.(Input) →
  ParseFrom (parse_fuel c (length ctx.(Input))) a ctx start [] = Some (r, s) →
  ast_ok ctx s ∧
  (r.(Type_) ≠ Fail → ∃ l, VisitResult (S (length s)) s r = Some l ∧ Forall (inside start r.(End)) l).
Proof.
  intros Hg Hr Hid Hstart Hp. destruct (ParseFrom_ok a c ctx id start Hg Hr Hid Hstart) as (r' & s' & Hp' & Hpr).
  assert (r' = r ∧ s' = s) as [-> ->] by (rewrite Hp in Hp'; by injection Hp').
  destruct Hpr as [_ _ _ _ Hast _ Hnodes]. split; [done|]. intros Hne. eapply VisitResult_ok; [exact Hast|by apply Hnodes].
Qed.

(** ** Witnesses *)

(** [expr ::= "(" expr* ")"], with a node per rule. *)
Definition parens : Arena :=
  MkArena [LiteralParser "("; RepetitionParser 3 0 (-1); LiteralParser ")"; RuleParser "expr" 4 false; SequenceParser [0; 1; 2]]
    {[ "expr" := 3 ]} (Some 3).

Definition parens_certificate : certificate := MkCertificate [false; true; false; false; false] [0; 3; 0; 2; 1].

Lemma peg_total_witness :
  ranked parens parens_certificate = true ∧
  ∃ r s, ParseFrom (parse_fuel parens_certificate 5) parens (MkContext (bytes "(()x)") true) 0 [] = Some (r, s) ∧
    r.(Type_) = Fail ∧ r.(End) = 3 ∧ length s = 1.
Proof.
  split; [vm_compute; reflexivity|].
  destruct (peg_total parens parens_certificate (MkContext (bytes "(()x)") true) 3 0) as (r & s & Hp & _);
    [vm_compute; reflexivity|reflexivity|vm_compute; lia|vm_compute; lia|].
  exists r, s. split; [exact Hp|]. vm_compute in Hp. injection Hp as <- <-. split_and!; reflexivity.
Defined.

Lemma peg_ast_witness :
  ∃ l, VisitResult 4 (snd (default (NewParseResult Fail 0, []) (ParseFrom (parse_fuel parens_certificate 6) parens (MkContext (bytes "(()())") false) 0 [])))
      (MkResult Success 0 6 [2]) = Some l ∧
    Forall (inside 0 6) l ∧ map Text l = [bytes "(()())"; bytes "()"; bytes "()"].
Proof.
  destruct (ParseFrom (parse_fuel parens_certificate 6) parens (MkContext (bytes "(()())") false) 0 []) as [[r s]|] eqn:Hp; [|by vm_compute in Hp].
  destruct (peg_ast parens parens_certificate (MkContext (bytes "(()())") false) 3 0 r s) as [_ Hv];
    [vm_compute; reflexivity|reflexivity|vm_compute; lia|vm_compute; lia|exact Hp|].
  vm_compute in Hp. injection Hp as <- <-. destruct Hv as (l & Hl & Hin); [discriminate|].
  exists l. split; [exact Hl|]. split; [exact Hin|]. vm_compute in Hl. injection Hl as <-. reflexivity.
Defined.
