(* ===== verification/PegBuilder.v ===== *)
(** * PegBuilder: building grammars

    Models [pkg/functions/peg/builder.go]: the builder's operations on its
    arena, [resolveRefs] of [arena.go], and the character classes.  A builder
    is its arena; [None] is a panic: an identifier that is not in the arena,
    a reference to an unknown rule. *)
From Stdlib Require Import Ascii.
From S2P Require Import Prelude GoMonad PegTypes PegTrie PegJson PegParser.

(** ** Adding parsers *)

Definition B : Type → Type := M Arena.

Definition set_parsers (f : list Parser → list Parser) (a : Arena) : Arena := MkArena (f a.(parsers)) a.(rules) a.(root).

Definition addParser (p : Parser) : B ParserID :=
  a ← get; _ ← modify (set_parsers (λ l, l ++ [p])); mret (length a.(parsers)).

Definition lookup_parser (id : ParserID) : B Parser := a ← get; lift (a.(parsers) !! id).

Definition Eps : B ParserID := addParser EpsilonParser.
Definition Start_ : B ParserID := addParser StartParser.
Definition End_ : B ParserID := addParser EndParser.
Definition Literal (s : string) : B ParserID := addParser (LiteralParser s).

(** The children of nested sequences, or choices, are spliced in. *)
Definition flat_sequence (id : ParserID) : B (list ParserID) :=
  p ← lookup_parser id; mret match p with SequenceParser ids => ids | _ => [id] end.

Definition flat_choice (id : ParserID) : B (list ParserID) :=
  p ← lookup_parser id; mret match p with ChoiceParser ids => ids | _ => [id] end.

Definition Seq (children : list ParserID) : B ParserID :=
  flattened ← collect children flat_sequence; addParser (SequenceParser flattened).

Definition Choice (children : list ParserID) : B ParserID :=
  flattened ← collect children flat_choice; addParser (ChoiceParser flattened).

Definition Repeat (child : ParserID) (min max : Z) : B ParserID := addParser (RepetitionParser child min max).
Definition Optional (child : ParserID) : B ParserID := Repeat child 0 1.
Definition ZeroOrMore (child : ParserID) : B ParserID := Repeat child 0 (-1).
Definition OneOrMore (child : ParserID) : B ParserID := Repeat child 1 (-1).
Definition Peek (child : ParserID) : B ParserID := addParser (AndParser child).
Definition Negate (child : ParserID) : B ParserID := addParser (NotParser child).
Definition Any : B ParserID := addParser AnyParser.
Definition Space : B ParserID := addParser SpaceParser.
Definition Until (delimiter : string) : B ParserID := addParser (UntilParser [delimiter]).
Definition UntilOneOf (delimiters : list string) : B ParserID := addParser (UntilParser delimiters).
Definition Rest : B ParserID := addParser (UntilParser []).
Definition JSONString : B ParserID := addParser JSONStringParser.
Definition JSON : B ParserID := addParser JSONParser.
Definition JSONNumber : B ParserID := addParser jsonNumberParser.
Definition PythonDictString : B ParserID := addParser PythonDictStringParser.
Definition Ref (name : string) : B ParserID := addParser (RefParser name).
Definition Atomic (child : ParserID) : B ParserID := addParser (AtomicParser child).
Definition Tag_ (tag : string) (child : ParserID) : B ParserID := addParser (TagParser child tag).
Definition Schema (child : ParserID) (name : string) : B ParserID := addParser (SchemaParser child name).
Definition SetRoot (id : ParserID) : B unit := modify (λ a, MkArena a.(parsers) a.(rules) (Some id)).

(** ** Rules *)

Definition rule_char (c : ascii) : bool :=
  between 97 122 (code c) || between 65 90 (code c) || between 48 57 (code c) || Ascii.eqb c "-".

(** [invalidRuleCharsRe.ReplaceAllString(name, "-")]: a dash for every longest
    run of other characters. *)
Fixpoint clean_loop (in_run : bool) (l : list ascii) : list ascii :=
  match l with
  | [] => []
  | c :: l =>
      if rule_char c then c :: clean_loop false l
      else if in_run then clean_loop true l else "-"%char :: clean_loop true l
  end.

Definition cleanName (name : string) : string := String.string_of_list_ascii (clean_loop false (bytes name)).

Definition set_rule (name : string) (id : ParserID) : B unit :=
  modify (λ a, MkArena a.(parsers) (<[name := id]> a.(rules)) a.(root)).

Definition new_rule (name : string) (child : ParserID) (trigger : bool) : B ParserID :=
  let name := cleanName name in
  ruleID ← addParser (RuleParser name child trigger);
  _ ← set_rule name ruleID;
  addParser (RefParser name).

Definition Rule_ (name : string) (child : ParserID) : B ParserID := new_rule name child false.
Definition TriggerRule (name : string) (child : ParserID) : B ParserID := new_rule name child true.

(** A rule whose body may refer to it: a placeholder stands for the body while
    it is built. *)
Definition LazyRule (name : string) (builderFn : B ParserID) : B ParserID :=
  let name := cleanName name in
  a ← get;
  if bool_decide (is_Some (a.(rules) !! name)) then addParser (RefParser name) else
  placeholder ← addParser AnyParser;
  ruleID ← addParser (RuleParser name placeholder false);
  _ ← set_rule name ruleID;
  child ← builderFn;
  _ ← modify (set_parsers <[ruleID := RuleParser name child false]>);
  addParser (RefParser name).

(** ** The ready-made grammars *)

Definition DoubleQuotedString : B ParserID :=
  LazyRule "dq-string" (
    q ← Literal (String cQuote ""); s ← JSONString; q' ← Literal (String cQuote ""); w ← Space; Seq [q; s; q'; w]).

Definition SingleQuotedString : B ParserID :=
  LazyRule "sq-string" (q ← Literal "'"; s ← PythonDictString; q' ← Literal "'"; w ← Space; Seq [q; s; q'; w]).

Definition FlexibleString : B ParserID :=
  LazyRule "flexible-string" (d ← DoubleQuotedString; s ← SingleQuotedString; Choice [d; s]).

Definition Marker : B ParserID :=
  o ← Literal "<"; u ← Until ">"; c ← Literal ">"; s ← Seq [o; u; c];
  o' ← Literal "["; u' ← Until "]"; c' ← Literal "]"; s' ← Seq [o'; u'; c'];
  Choice [s; s'].

Definition PythonString : B ParserID :=
  LazyRule "python-string" (d ← DoubleQuotedString; s ← SingleQuotedString; Choice [d; s]).

Definition PythonBool : B ParserID :=
  LazyRule "python-bool" (t ← Literal "True"; f ← Literal "False"; c ← Choice [t; f]; w ← Space; Seq [c; w]).

Definition PythonNull : B ParserID :=
  LazyRule "python-none" (n ← Literal "None"; w ← Space; Seq [n; w]).

(** The three grammars call each other; [LazyRule] ends the recursion, so that
    a small fuel is enough. *)
Fixpoint PythonValue (fuel : nat) : B ParserID :=
  match fuel with
  | O => panic
  | S fuel =>
      LazyRule "python-value" (
        d ← PythonDict fuel; a ← PythonArray fuel; s ← PythonString;
        n ← JSONNumber; b ← PythonBool; z ← PythonNull; Choice [d; a; s; n; b; z])
  end
with PythonDict (fuel : nat) : B ParserID :=
  match fuel with
  | O => panic
  | S fuel =>
      LazyRule "python-dict" (
        s ← PythonString; w ← Space; c ← Literal ":"; w' ← Space; v ← PythonValue fuel; member ← Seq [s; w; c; w'; v];
        o ← Literal "{"; w1 ← Space;
        w2 ← Space; comma ← Literal ","; w3 ← Space; more ← Seq [w2; comma; w3; member];
        rest ← ZeroOrMore more; all ← Seq [member; rest]; body ← Optional all;
        w4 ← Space; close ← Literal "}"; w5 ← Space;
        Seq [o; w1; body; w4; close; w5])
  end
with PythonArray (fuel : nat) : B ParserID :=
  match fuel with
  | O => panic
  | S fuel =>
      LazyRule "python-array" (
        o ← Literal "["; w1 ← Space;
        v ← PythonValue fuel;
        w2 ← Space; comma ← Literal ","; w3 ← Space; v' ← PythonValue fuel; more ← Seq [w2; comma; w3; v'];
        rest ← ZeroOrMore more; all ← Seq [v; rest]; body ← Optional all;
        w4 ← Space; close ← Literal "]"; w5 ← Space;
        Seq [o; w1; body; w4; close; w5])
  end.

(** ** Build *)

Definition resolveRef (a : Arena) (id : ParserID) : option ParserID :=
  p ← a.(parsers) !! id;
  match p with RefParser name => GetRule a name | _ => Some id end.

(** The children of a parser, replaced. *)
Definition map_children (f : ParserID → option ParserID) (p : Parser) : option Parser :=
  match p with
  | SequenceParser ids => ids' ← mapM f ids; Some (SequenceParser ids')
  | ChoiceParser ids => ids' ← mapM f ids; Some (ChoiceParser ids')
  | RepetitionParser id mn mx => id' ← f id; Some (RepetitionParser id' mn mx)
  | AndParser id => id' ← f id; Some (AndParser id')
  | NotParser id => id' ← f id; Some (NotParser id')
  | RuleParser name id trigger => id' ← f id; Some (RuleParser name id' trigger)
  | TagParser id tag => id' ← f id; Some (TagParser id' tag)
  | AtomicParser id => id' ← f id; Some (AtomicParser id')
  | SchemaParser id name => id' ← f id; Some (SchemaParser id' name)
  | p => Some p
  end.

(** The loop of [resolveRefs] rewrites the parsers in place, one after the
    other. *)
Fixpoint resolve_loop (n i : nat) (a : Arena) : option Arena :=
  match n with
  | O => Some a
  | S n =>
      p ← a.(parsers) !! i;
      p' ← map_children (resolveRef a) p;
      resolve_loop n (S i) (set_parsers <[i := p']> a)
  end.

Definition resolveRefs (a : Arena) : option Arena :=
  a ← resolve_loop (length a.(parsers)) 0 a;
  match a.(root) with
  | None => Some a
  | Some id => id' ← resolveRef a id; Some (MkArena a.(parsers) a.(rules) (Some id'))
  end.

(** [Build] empties the builder and returns the arena. *)
Definition Build : B Arena := λ a, a' ← resolveRefs a; Some (a', NewArena).

Definition BuildPegParser (fn : B ParserID) : option Arena :=
  '(a, _) ← (root ← fn; _ ← SetRoot root; Build) NewArena; Some a.

(** ** Character classes *)

(** A [rune] is a 32-bit signed integer. *)
Definition wrap32 (z : Z) : Z := ((z + 2 ^ 31) mod 2 ^ 32 - 2 ^ 31)%Z.

Definition hex_value (c : ascii) : option Z :=
  if between 48 57 (code c) then Some (code c - 48)%Z
  else if between 97 102 (code c) then Some (code c - 97 + 10)%Z
  else if between 65 70 (code c) then Some (code c - 65 + 10)%Z
  else None.

Fixpoint hex_escape_loop (l : list ascii) (value : Z) : option Z :=
  match l with
  | [] => Some value
  | c :: l => d ← hex_value c; hex_escape_loop l (wrap32 (wrap32 (Z.shiftl value 4) + d))
  end.

(** The value and the number of digits; 0 digits for no escape. *)
Definition parseHexEscape (s : list ascii) (pos count : nat) : Z * nat :=
  if Nat.ltb (length s) (pos + count) then (0%Z, 0)
  else match hex_escape_loop (take count (drop pos s)) 0 with
       | Some value => (value, count)
       | None => (0%Z, 0)
       end.

Definition hex_or (letter : ascii) (content : list ascii) (pos count : nat) : Z * nat :=
  let '(r, n) := parseHexEscape content (pos + 2) count in
  if Nat.ltb 0 n then (r, 2 + n) else (code letter, 2).

(** One character of a class and its length; [None] is an index out of range. *)
Definition ParseCharClassChar (content : list ascii) (pos : nat) : option (Z * nat) :=
  c ← content !! pos;
  if Ascii.eqb c cBackslash then
    match content !! (pos + 1) with
    | None => Some (code c, 1)
    | Some e => Some (
        if Ascii.eqb e "n" then (10%Z, 2)
        else if Ascii.eqb e "t" then (9%Z, 2)
        else if Ascii.eqb e "r" then (13%Z, 2)
        else if Ascii.eqb e cBackslash then (code cBackslash, 2)
        else if Ascii.eqb e "]" then (code "]", 2)
        else if Ascii.eqb e "[" then (code "[", 2)
        else if Ascii.eqb e "x" then hex_or e content pos 2
        else if Ascii.eqb e "u" then hex_or e content pos 4
        else if Ascii.eqb e "U" then hex_or e content pos 8
        else (code e, 2))
    end
  else Some (code c, 1).

(** The loop over the content from [i] on; each round consumes a byte. *)
Fixpoint class_loop (fuel : nat) (content : list ascii) (i : nat) : option (list CharRange) :=
  match fuel with
  | O => None
  | S fuel =>
      if Nat.ltb i (length content) then
        '(startChar, startLen) ← ParseCharClassChar content i;
        let i := i + startLen in
        if Nat.ltb (i + 1) (length content) && bool_decide (content !! i = Some "-"%char) then
          '(endChar, endLen) ← ParseCharClassChar content (i + 1);
          rest ← class_loop fuel content (i + (1 + endLen));
          Some (MkRange startChar endChar :: rest)
        else rest ← class_loop fuel content i; Some (MkRange startChar startChar :: rest)
      else Some []
  end.

(** The content of [\[...\]] and whether it is negated. *)
Definition class_content (classes : list ascii) : list ascii * bool :=
  let content := match classes with "["%char :: l => l | l => l end in
  let content := match last content with Some "]"%char => take (length content - 1) content | _ => content end in
  match content with
  | "^"%char :: l => (l, true)
  | l => (l, false)
  end.

Definition parseCharClasses (classes : string) : option (list CharRange * bool) :=
  let '(content, negated) := class_content (bytes classes) in
  ranges ← class_loop (S (length content)) content 0;
  Some (ranges, negated).

Definition Chars (classes : string) (min max : Z) : B ParserID :=
  '(ranges, negated) ← lift (parseCharClasses classes);
  addParser (CharsParser classes ranges negated min max).
