(* ===== verification/PegBuilt.v ===== *)
(** * PegBuilt: what the builder of the PEG engine guarantees

    Character classes are read back as they are written; resolving references
    changes no parse; the ready-made Python grammar has no left recursion and
    therefore parses every input. *)
From Stdlib Require Import Ascii.
From S2P Require Import Prelude GoMonad PegTypes PegTrie PegJson PegParser PegTotal PegBuilder.

(** ** Character classes *)

Definition rune32 (z : Z) : Prop := (- 2 ^ 31 ≤ z < 2 ^ 31)%Z.

Lemma wrap32_range z : rune32 (wrap32 z).
Proof. unfold rune32, wrap32. pose proof (Z.mod_pos_bound (z + 2 ^ 31) (2 ^ 32) ltac:(lia)). lia. Qed.

Lemma code_rune c : rune32 (code c).
Proof. pose proof (code_bound c). unfold rune32. lia. Qed.

Lemma hex_escape_range l v r : rune32 v → hex_escape_loop l v = Some r → rune32 r.
Proof.
  revert v. induction l as [|c l IH]; intros v Hv; simpl; [by intros [= <-]|].
  destruct (hex_value c) as [d|]; [|done]. simpl. apply IH, wrap32_range.
Qed.

Lemma hex_or_range letter content pos count :
  rune32 (hex_or letter content pos count).1 ∧ 1 ≤ (hex_or letter content pos count).2.
Proof.
  unfold hex_or, parseHexEscape. assert (rune32 0) by (unfold rune32; lia).
  destruct (Nat.ltb _ _); [split; [apply code_rune|simpl; lia]|].
  destruct (hex_escape_loop _ 0) as [v|] eqn:Hv; simpl; [|split; [apply code_rune|simpl; lia]].
  destruct count; simpl; [split; [apply code_rune|lia]|]. split; [by eapply hex_escape_range|lia].
Qed.

Lemma class_char_total content pos : pos < length content →
  ∃ r n, ParseCharClassChar content pos = Some (r, n) ∧ rune32 r ∧ 1 ≤ n.
Proof.
  intros Hpos. unfold ParseCharClassChar. destruct (lookup_lt_is_Some_2 _ _ Hpos) as [c ->]. simpl.
  assert (Hplain : ∃ r n, Some (code c, 1) = Some (r, n) ∧ rune32 r ∧ 1 ≤ n) by (eexists _, _; split; [done|split; [apply code_rune|lia]]).
  destruct (Ascii.eqb c cBackslash); [|done]. destruct (content !! (pos + 1)) as [e|]; [|done].
  assert (Hhex : ∀ count, ∃ r n, Some (hex_or e content pos count) = Some (r, n) ∧ rune32 r ∧ 1 ≤ n).
  { intros count. destruct (hex_or_range e content pos count) as [? ?]. exists (hex_or e content pos count).1, (hex_or e content pos count).2.
    split; [by destruct (hex_or e content pos count)|done]. }
  pose proof (code_rune e).
  repeat match goal with |- context [if Ascii.eqb e ?x then _ else _] => destruct (Ascii.eqb e x) end;
    try apply Hhex; eexists _, _; (split; [reflexivity|split; [(apply code_rune || (unfold rune32; lia))|lia]]).
Qed.

Lemma class_loop_total fuel content i : length content - i < fuel →
  ∃ rs, class_loop fuel content i = Some rs ∧ Forall (λ r, rune32 r.(range_Start) ∧ rune32 r.(range_End)) rs.
Proof.
  revert i. induction fuel as [|fuel IH]; intros i Hf; [lia|]. cbn [class_loop].
  destruct (Nat.ltb_spec i (length content)) as [Hi|]; [|by exists []].
  destruct (class_char_total content i Hi) as (r & n & -> & Hr & Hn). cbn [mbind option_bind].
  destruct (Nat.ltb_spec (i + n + 1) (length content)) as [Hi2|]; simpl.
  - destruct (bool_decide _).
    + destruct (class_char_total content (i + n + 1) Hi2) as (r2 & n2 & -> & Hr2 & Hn2). cbn [mbind option_bind].
      destruct (IH (i + n + S n2) ltac:(lia)) as (rs & -> & Hrs). eexists. split; [done|]. by constructor.
    + destruct (IH (i + n) ltac:(lia)) as (rs & -> & Hrs). eexists. split; [done|]. by constructor.
  - destruct (IH (i + n) ltac:(lia)) as (rs & -> & Hrs). eexists. split; [done|]. by constructor.
Qed.

(** Reading a character class never fails: whatever the expression, there
    is no index out of range and no endless loop, and every bound of the
    ranges is a 32-bit rune, whatever the overflow of an eight-digit escape. *)
Theorem class_total classes :
  ∃ ranges negated, parseCharClasses classes = Some (ranges, negated) ∧
    Forall (λ r, rune32 r.(range_Start) ∧ rune32 r.(range_End)) ranges.
Proof.
  unfold parseCharClasses. destruct (class_content (bytes classes)) as [content negated].
  destruct (class_loop_total (S (length content)) content 0 ltac:(lia)) as (rs & -> & Hrs). by exists rs, negated.
Qed.

(** *** Writing a class *)

Definition special (c : ascii) : bool :=
  Ascii.eqb c cBackslash || Ascii.eqb c "]" || Ascii.eqb c "[" || Ascii.eqb c "-" || Ascii.eqb c "^".

Definition class_char (c : ascii) : list ascii := if special c then [cBackslash; c] else [c].

Definition class_range (r : ascii * ascii) : list ascii :=
  if Ascii.eqb r.1 r.2 then class_char r.1 else class_char r.1 ++ ["-"%char] ++ class_char r.2.

Definition class_text (negated : bool) (ranges : list (ascii * ascii)) : list ascii :=
  ["["%char] ++ (if negated then ["^"%char] else []) ++ concat (map class_range ranges) ++ ["]"%char].

Lemma class_char_reads c content rest pos :
  drop pos content = class_char c ++ rest →
  ParseCharClassChar content pos = Some (code c, length (class_char c)) ∧ drop (pos + length (class_char c)) content = rest.
Proof.
  intros H. split; [|by rewrite <- drop_drop, H, drop_app_length].
  assert (Hat : ∀ k, content !! (pos + k) = (class_char c ++ rest) !! k) by (intros k; by rewrite <- lookup_drop, H).
  pose proof (Hat 0) as H0. pose proof (Hat 1) as H1. rewrite Nat.add_0_r in H0. unfold ParseCharClassChar.
  unfold class_char in *. destruct (special c) eqn:Hs; simpl in H0, H1; rewrite H0; cbn [mbind option_bind].
  - rewrite H1. unfold special in Hs. rewrite !orb_true_iff, !Ascii.eqb_eq in Hs.
    destruct Hs as [[[[-> | ->] | ->] | ->] | ->]; reflexivity.
  - unfold special in Hs. rewrite !orb_false_iff in Hs. destruct Hs as [[[[-> _] _] _] _]. reflexivity.
Qed.

Lemma class_char_head c : ∃ x l, class_char c = x :: l ∧ x ≠ "-"%char ∧ x ≠ "^"%char.
Proof.
  unfold class_char. destruct (special c) eqn:Hs; [by eexists _, _|]. eexists _, _. split; [done|].
  unfold special in Hs. rewrite !orb_false_iff, !Ascii.eqb_neq in Hs. tauto.
Qed.

Lemma class_ranges_head rs : ∀ x, head (concat (map class_range rs)) = Some x → x ≠ "-"%char ∧ x ≠ "^"%char.
Proof.
  destruct rs as [|[lo hi] rs]; [done|]. intros x. simpl. destruct (class_char_head lo) as (y & l & Hy & Hne).
  unfold class_range. simpl. destruct (Ascii.eqb lo hi); rewrite Hy; simpl; by intros [= <-].
Qed.

Lemma class_loop_reads rs fuel content i :
  drop i content = concat (map class_range rs) → length content - i < fuel → i ≤ length content →
  class_loop fuel content i = Some (map (λ r, MkRange (code r.1) (code r.2)) rs).
Proof.
  revert fuel i. induction rs as [|[lo hi] rs IH]; intros [|fuel] i H Hf Hi; try lia; cbn [class_loop].
  { simpl in H. apply (f_equal length) in H. rewrite length_drop in H. simpl in H. by rewrite (proj2 (Nat.ltb_ge _ _)) by lia. }
  assert (Hlen : length (concat (map class_range ((lo, hi) :: rs))) = length content - i) by (by rewrite <- H, length_drop).
  destruct (class_char_head lo) as (y & l & Hy & _).
  assert (Hpos : 1 ≤ length (class_char lo)) by (rewrite Hy; simpl; lia).
  simpl in H, Hlen. unfold class_range in H at 1, Hlen at 1. simpl in H, Hlen.
  destruct (Ascii.eqb_spec lo hi) as [->|Hne].
  - rewrite length_app in Hlen. rewrite (proj2 (Nat.ltb_lt i _)) by lia.
    destruct (class_char_reads _ _ _ _ H) as [-> H2]. cbn [mbind option_bind].
    rewrite bool_decide_eq_false_2, andb_false_r.
    2: { intros Hd. rewrite <- (Nat.add_0_r (i + _)), <- lookup_drop, H2 in Hd.
         destruct (concat (map class_range rs)) as [|x l'] eqn:Hc; [done|]. injection Hd as ->.
         destruct (class_ranges_head rs "-"%char) as [? _]; [by rewrite Hc|done]. }
    rewrite (IH fuel _ H2) by lia. done.
  - rewrite <- app_assoc in H. rewrite !length_app in Hlen. simpl in Hlen. rewrite (proj2 (Nat.ltb_lt i _)) by lia.
    destruct (class_char_reads _ _ _ _ H) as [-> H2]. cbn [mbind option_bind]. simpl in H2.
    assert (Hdash : content !! (i + length (class_char lo)) = Some "-"%char).
    { rewrite <- (Nat.add_0_r (i + _)), <- lookup_drop, H2. done. }
    destruct (class_char_head hi) as (y2 & l2 & Hy2 & _). rewrite Hy2 in Hlen at 1. simpl in Hlen.
    rewrite (proj2 (Nat.ltb_lt _ _)), bool_decide_eq_true_2 by (done || lia). simpl andb. cbv iota.
    assert (H3 : drop (i + length (class_char lo) + 1) content = class_char hi ++ concat (map class_range rs)).
    { rewrite <- drop_drop, H2. done. }
    destruct (class_char_reads _ _ _ _ H3) as [-> H4]. cbn [mbind option_bind].
    replace (i + length (class_char lo) + (1 + length (class_char hi))) with (i + length (class_char lo) + 1 + length (class_char hi)) by lia.
    rewrite (IH fuel _ H4); [done|lia|]. rewrite Hy2. simpl. lia.
Qed.

Lemma class_content_text negated rs :
  class_content (class_text negated rs) = (concat (map class_range rs), negated).
Proof.
  unfold class_content, class_text. set (body := concat (map class_range rs)). cbn [app].
  assert (Hlast : ∀ l : list ascii, last (l ++ ["]"%char]) = Some "]"%char ∧ take (length (l ++ ["]"%char]) - 1) (l ++ ["]"%char]) = l).
  { intros l. split; [by rewrite last_snoc|]. rewrite length_app. simpl. replace (length l + 1 - 1) with (length l) by lia. apply take_app_length. }
  destruct negated.
  - destruct (Hlast ("^"%char :: body)) as [H1 H2]. cbn [app] in *. rewrite H1, H2. done.
  - destruct (Hlast body) as [H1 H2]. cbn [app]. rewrite H1, H2.
    pose proof (class_ranges_head rs) as Hhead. fold body in Hhead. destruct body as [|x l]; [done|].
    destruct (Hhead x eq_refl) as [_ Hx]. destruct x as [[] [] [] [] [] [] [] []]; done.
Qed.

(** C26. Character classes round trip: the class written for any list of ranges
    between bytes, with the brackets, the dash, the caret and the backslash
    escaped, is read back as exactly those ranges, in order, with its
    negation.  A class is thus a set of single-byte characters: a character of
    several bytes stands for the code points of its bytes, each on its own. *)
Theorem class_roundtrip negated ranges :
  parseCharClasses (String.string_of_list_ascii (class_text negated ranges)) =
    Some (map (λ r, MkRange (code r.1) (code r.2)) ranges, negated).
Proof.
  unfold parseCharClasses, bytes. rewrite String.list_ascii_of_string_of_list_ascii, class_content_text.
  by rewrite (class_loop_reads ranges) by (done || lia).
Qed.

(** ** Resolving references *)

(** Rules are rule parsers of the arena. *)
Definition rules_ok (a : Arena) : Prop :=
  ∀ name id, a.(rules) !! name = Some id → ∃ n child trigger, a.(parsers) !! id = Some (RuleParser n child trigger).

Definition ref_name (p : Parser) : option string := match p with RefParser name => Some name | _ => None end.

Lemma map_children_ref f p p' : map_children f p = Some p' → ref_name p' = ref_name p.
Proof. intros H. destruct p; simpl in H; simplify_option_eq; done. Qed.

Lemma resolveRef_name a id :
  resolveRef a id = p ← a.(parsers) !! id; match ref_name p with Some name => GetRule a name | None => Some id end.
Proof. unfold resolveRef. destruct (parsers a !! id) as [p|]; [|done]. by destruct p. Qed.

(** Resolving looks at the references and the rules only. *)
Lemma resolveRef_agree a1 a2 id :
  a1.(rules) = a2.(rules) → (∀ j, ref_name <$> a1.(parsers) !! j = ref_name <$> a2.(parsers) !! j) →
  resolveRef a1 id = resolveRef a2 id.
Proof.
  intros Hr Hp. rewrite !resolveRef_name. specialize (Hp id). unfold GetRule. rewrite Hr.
  destruct (parsers a1 !! id), (parsers a2 !! id); try done. simpl in *. by injection Hp as ->.
Qed.

Lemma map_children_ext f g p : (∀ id, f id = g id) → map_children f p = map_children g p.
Proof. intros H. destruct p; simpl; rewrite ?H; try done; by rewrite (mapM_ext f g). Qed.

Lemma resolve_loop_spec n i a a' :
  resolve_loop n i a = Some a' → i + n = length a.(parsers) →
  a'.(rules) = a.(rules) ∧ a'.(root) = a.(root) ∧ length a'.(parsers) = length a.(parsers) ∧
  (∀ j, j < i → a'.(parsers) !! j = a.(parsers) !! j) ∧
  (∀ j p, i ≤ j → a.(parsers) !! j = Some p → ∃ p', map_children (resolveRef a) p = Some p' ∧ a'.(parsers) !! j = Some p').
Proof.
  revert i a. induction n as [|n IH]; intros i a H Hi; simpl in H.
  { injection H as <-. split_and!; try done. intros j p Hj Hp. apply lookup_lt_Some in Hp. lia. }
  destruct (parsers a !! i) as [p|] eqn:Hp; [|done]. simpl in H.
  destruct (map_children (resolveRef a) p) as [p'|] eqn:Hp'; [|done]. simpl in H.
  set (a1 := set_parsers <[i := p']> a) in *.
  assert (Hagree : ∀ id, resolveRef a1 id = resolveRef a id).
  { intros id. apply resolveRef_agree; [done|]. intros j. simpl. destruct (decide (i = j)) as [->|].
    - rewrite list_lookup_insert_eq, Hp by (by eapply lookup_lt_Some). simpl. f_equal. by eapply map_children_ref.
    - by rewrite list_lookup_insert_ne. }
  destruct (IH _ _ H) as (H1 & H2 & H3 & H4 & H5); [simpl; rewrite length_insert; lia|]. simpl in *. rewrite length_insert in H3.
  split_and!; [done|done|done| |].
  - intros j Hj. rewrite H4, list_lookup_insert_ne by lia. done.
  - intros j q Hj Hq. destruct (decide (i = j)) as [->|].
    + assert (q = p) as -> by congruence. exists p'. split; [done|].
      rewrite H4, list_lookup_insert_eq by (lia || by eapply lookup_lt_Some). done.
    + destruct (H5 j q) as (q' & Hq' & Hj'); [lia|by rewrite list_lookup_insert_ne|]. exists q'.
      split; [|done]. by rewrite <- (map_children_ext _ _ q Hagree).
Qed.

(** What [resolveRefs] returns. *)
Lemma resolveRefs_spec a a' :
  resolveRefs a = Some a' →
  a'.(rules) = a.(rules) ∧ length a'.(parsers) = length a.(parsers) ∧
  (∀ j p, a.(parsers) !! j = Some p → ∃ p', map_children (resolveRef a) p = Some p' ∧ a'.(parsers) !! j = Some p') ∧
  (∀ id, a.(root) = Some id → ∃ id', resolveRef a id = Some id' ∧ a'.(root) = Some id').
Proof.
  unfold resolveRefs. destruct (resolve_loop _ 0 a) as [a1|] eqn:Ha; [|done]. simpl.
  destruct (resolve_loop_spec _ _ _ _ Ha eq_refl) as (H1 & H2 & H3 & _ & H5). rewrite H2.
  assert (Hagree : ∀ id, resolveRef a1 id = resolveRef a id).
  { intros id. apply resolveRef_agree; [done|]. intros j. destruct (parsers a !! j) as [p|] eqn:Hp.
    - destruct (H5 j p) as (p' & Hp' & ->); [lia|done|]. simpl. f_equal. by eapply map_children_ref.
    - apply lookup_ge_None_1 in Hp. by rewrite lookup_ge_None_2 by lia. }
  assert (Hall : ∀ j p, parsers a !! j = Some p → ∃ p', map_children (resolveRef a) p = Some p' ∧ parsers a1 !! j = Some p').
  { intros j p Hp. apply H5; [lia|done]. }
  destruct (root a) as [id|].
  - destruct (resolveRef a1 id) as [id'|] eqn:Hid; [|done]. intros [= <-]. simpl. split_and!; try done.
    intros id0 [= <-]. rewrite Hagree in Hid. eauto.
  - intros [= <-]. split_and!; try done.
Qed.

(** ** Resolving changes no parse *)

(** [c2] returns whatever [c1] returns. *)
Definition refines {A} (c1 c2 : M (list AstNode) A) : Prop := ∀ s x, c1 s = Some x → c2 s = Some x.

Lemma refines_refl {A} (c : M (list AstNode) A) : refines c c.
Proof. by intros s x. Qed.

Lemma refines_bind {A B} (c1 c2 : M (list AstNode) A) (k1 k2 : A → M (list AstNode) B) :
  refines c1 c2 → (∀ x, refines (k1 x) (k2 x)) → refines (c1 ≫= k1) (c2 ≫= k2).
Proof.
  intros Hc Hk s x. unfold mbind, M_bind. destruct (c1 s) as [[y s']|] eqn:H1; [|done].
  rewrite (Hc _ _ H1). apply Hk.
Qed.

Section Related.
Context (rel : nat → nat → Prop).

(** The same parser, with related children. *)
Definition related (p1 p2 : Parser) : Prop :=
  match p1, p2 with
  | SequenceParser l1, SequenceParser l2 | ChoiceParser l1, ChoiceParser l2 => Forall2 rel l1 l2
  | RepetitionParser i1 m1 x1, RepetitionParser i2 m2 x2 => rel i1 i2 ∧ m1 = m2 ∧ x1 = x2
  | AndParser i1, AndParser i2 | NotParser i1, NotParser i2 | AtomicParser i1, AtomicParser i2 => rel i1 i2
  | RuleParser n1 i1 t1, RuleParser n2 i2 t2 => n1 = n2 ∧ rel i1 i2 ∧ t1 = t2
  | TagParser i1 t1, TagParser i2 t2 | SchemaParser i1 t1, SchemaParser i2 t2 => rel i1 i2 ∧ t1 = t2
  | RefParser _, _ => False
  | p1, p2 => p1 = p2
  end.

Context (a1 a2 : Arena) (ctx : ParseContext) (rec1 rec2 : nat → nat → M (list AstNode) ParseResult).
Hypothesis rec_refines : ∀ i j pos, rel i j → refines (rec1 i pos) (rec2 j pos).

Lemma sequence_refines start l1 l2 pos nodes :
  Forall2 rel l1 l2 → refines (sequence_loop ctx rec1 start l1 pos nodes) (sequence_loop ctx rec2 start l2 pos nodes).
Proof.
  intros H. revert pos nodes. induction H as [|i j l1 l2 Hij _ IH]; intros pos nodes; simpl; [apply refines_refl|].
  apply refines_bind; [by apply rec_refines|]. intros r. destruct (Type_ r); [apply refines_refl|apply IH|apply refines_refl].
Qed.

Lemma choice_refines start l1 l2 : Forall2 rel l1 l2 → refines (choice_loop rec1 l1 start) (choice_loop rec2 l2 start).
Proof.
  intros H. induction H as [|i j l1 l2 Hij _ IH]; simpl; [apply refines_refl|].
  apply refines_bind; [by apply rec_refines|]. intros r. destruct (decide _); [done|apply refines_refl].
Qed.

Lemma repetition_refines fuel start i j mn mx pos m nodes :
  rel i j → refines (repetition_loop ctx rec1 fuel start i mn mx pos m nodes) (repetition_loop ctx rec2 fuel start j mn mx pos m nodes).
Proof.
  intros Hij. revert pos m nodes. induction fuel as [|fuel IH]; intros pos m nodes; cbn [repetition_loop]; [apply refines_refl|].
  destruct (_ || _); [|apply refines_refl]. destruct (Nat.leb _ pos); [apply refines_refl|].
  apply refines_bind; [by apply rec_refines|]. intros r. destruct (Type_ r); [apply refines_refl| |apply refines_refl].
  destruct (Nat.eqb _ pos); [apply refines_refl|apply IH].
Qed.

Lemma parse_refines p1 p2 start : related p1 p2 → refines (parse a1 ctx rec1 p1 start) (parse a2 ctx rec2 p2 start).
Proof.
  intros H. destruct p1, p2; simpl in H; try done; try (injection H as; subst); try discriminate;
    repeat match goal with H : _ ∧ _ |- _ => destruct H end; subst; cbn [parse]; unfold AndParser_parse, NotParser_parse, RuleParser_parse, RefParser_parse, AtomicParser_parse, TagParser_parse;
    try apply refines_refl; try (by apply sequence_refines); try (by apply choice_refines);
    try (by apply repetition_refines); try (by apply rec_refines);
    apply refines_bind; try (by apply rec_refines); intros r; apply refines_refl.
Qed.
End Related.

Lemma map_children_related f p p' :
  map_children f p = Some p' → ref_name p = None →
  related (λ i j, f i = Some j) p p' ∧ related (λ j i, f i = Some j) p' p.
Proof.
  intros H Hr. destruct p; simpl in H; simplify_option_eq; simpl; try done; repeat split; try done;
    solve [by apply mapM_Some_1|by apply (Forall2_flip (λ i j, f i = Some j)), mapM_Some_1].
Qed.

Lemma related_refl p : ref_name p = None → related eq p p.
Proof. intros H. destruct p; simpl; try done; by apply Forall_Forall2_diag, Forall_true. Qed.

(** More fuel, same parse. *)
Lemma ParseAt_more a ctx n n' id pos : n ≤ n' → refines (ParseAt n a ctx id pos) (ParseAt n' a ctx id pos).
Proof.
  revert n' id pos. induction n as [|n IH]; intros [|n'] id pos Hle; try lia; [by intros s x|by intros s x|]. cbn [ParseAt].
  apply refines_bind; [apply refines_refl|]. intros p. destruct (ref_name p) as [name|] eqn:Hr.
  - destruct p; try done. cbn [parse]; unfold AndParser_parse, NotParser_parse, RuleParser_parse, RefParser_parse, AtomicParser_parse, TagParser_parse. apply refines_bind; [apply refines_refl|]. intros id'. apply IH. lia.
  - apply (parse_refines eq); [|by apply related_refl]. intros i j q ->. apply IH. lia.
Qed.

(** A reference costs one step. *)
Lemma ParseAt_ref a ctx n id id' name pos s :
  a.(parsers) !! id = Some (RefParser name) → GetRule a name = Some id' →
  ParseAt (S n) a ctx id pos s = ParseAt n a ctx id' pos s.
Proof. intros Hp Hr. cbn [ParseAt]. rewrite Hp. unfold mbind, M_bind, lift, mret, M_ret. cbn [parse]; unfold AndParser_parse, NotParser_parse, RuleParser_parse, RefParser_parse, AtomicParser_parse, TagParser_parse. by rewrite Hr. Qed.

Section Resolve.
Context (a a' : Arena) (ctx : ParseContext).
Hypothesis rules_good : rules_ok a.
Hypothesis resolves : resolveRefs a = Some a'.

(** A resolved identifier is not a reference. *)
Lemma resolved_parser id id' :
  resolveRef a id = Some id' → ∃ p, a.(parsers) !! id' = Some p ∧ ref_name p = None ∧ resolveRef a id' = Some id'.
Proof.
  rewrite !resolveRef_name. destruct (parsers a !! id) as [p|] eqn:Hp; [|done]. simpl.
  destruct (ref_name p) as [name|] eqn:Hn.
  - intros Hr. destruct (rules_good name id' Hr) as (n & child & t & Hp'). eexists. by rewrite Hp'.
  - intros [= <-]. exists p. by rewrite Hp; simpl; rewrite Hn.
Qed.

Lemma forward n id id' pos :
  resolveRef a id = Some id' → refines (ParseAt n a ctx id pos) (ParseAt n a' ctx id' pos).
Proof.
  destruct (resolveRefs_spec a a' resolves) as (Hrules & Hlen & Hall & _).
  revert id id' pos. induction n as [|n IH]; intros id id' pos Hres; [by intros s x|].
  destruct (resolved_parser id id' Hres) as (p & Hp & Hn & Hself).
  destruct (Hall id' p Hp) as (p' & Hp' & Hat). destruct (map_children_related _ _ _ Hp' Hn) as [Hrel _].
  assert (Hdirect : refines (ParseAt (S n) a ctx id' pos) (ParseAt (S n) a' ctx id' pos)).
  { cbn [ParseAt]. rewrite Hp, Hat. apply (parse_refines (λ i j, resolveRef a i = Some j)); [|done].
    intros i j q Hij. by apply IH. }
  unfold resolveRef in Hres. destruct (parsers a !! id) as [q|] eqn:Hq; [|done]. simpl in Hres.
  destruct (ref_name q) as [name|] eqn:Hname.
  - destruct q; try done. intros s x Hx. rewrite (ParseAt_ref _ _ _ _ id' _ _ _ Hq Hres) in Hx.
    apply Hdirect. by eapply (ParseAt_more a ctx n (S n) id' pos ltac:(lia)).
  - assert (id' = id) as -> by (destruct q; simpl in *; congruence). done.
Qed.

Lemma backward n id id' pos :
  resolveRef a id = Some id' → refines (ParseAt n a' ctx id' pos) (ParseAt (2 * n) a ctx id pos).
Proof.
  destruct (resolveRefs_spec a a' resolves) as (Hrules & Hlen & Hall & _).
  revert id id' pos. induction n as [|n IH]; intros id id' pos Hres; [by intros s x|].
  destruct (resolved_parser id id' Hres) as (p & Hp & Hn & Hself).
  destruct (Hall id' p Hp) as (p' & Hp' & Hat). destruct (map_children_related _ _ _ Hp' Hn) as [_ Hrel].
  replace (2 * S n) with (S (S (2 * n))) by lia.
  assert (Hdirect : refines (ParseAt (S n) a' ctx id' pos) (ParseAt (S (2 * n)) a ctx id' pos)).
  { cbn [ParseAt]. rewrite Hp, Hat. apply (parse_refines (λ j i, resolveRef a i = Some j)); [|done].
    intros j i q Hij. by apply IH. }
  unfold resolveRef in Hres. destruct (parsers a !! id) as [q|] eqn:Hq; [|done]. simpl in Hres.
  destruct (ref_name q) as [name|] eqn:Hname.
  - destruct q; try done. intros s x Hx%Hdirect. by rewrite (ParseAt_ref _ _ _ _ id' _ _ _ Hq Hres).
  - assert (id' = id) as -> by (destruct q; simpl in *; congruence). intros s x Hx%Hdirect.
    by eapply (ParseAt_more a ctx (S (2 * n)) (S (S (2 * n))) id pos ltac:(lia)).
Qed.
End Resolve.

Lemma map_children_in a f p p' child :
  map_children f p = Some p' → ref_name p = None → child ∈ all_children a p' → ∃ c, f c = Some child.
Proof.
  intros H Hr Hc.
  destruct p; simpl in H; simplify_option_eq; simpl in Hc; try (by apply elem_of_nil in Hc);
    try (apply list_elem_of_singleton in Hc as ->; eauto);
    match goal with H : mapM _ _ = Some _ |- _ => apply mapM_Some_1 in H as Hall end;
    apply list_elem_of_lookup_1 in Hc as [k Hk]; destruct (Forall2_lookup_r _ _ _ _ _ Hall Hk) as (x & _ & Hx); eauto.
Qed.

(** C21. Building a grammar changes nothing but the references: [Build] keeps the
    root up to its reference, leaves no reference among the children of any
    parser, and every parse of the built grammar is a parse of the grammar as it was
    written, and conversely, with the same result and the same AST. *)
Theorem build_preserves a a' id id' :
  rules_ok a → resolveRefs a = Some a' → resolveRef a id = Some id' →
  (a.(root) = Some id → a'.(root) = Some id') ∧
  (∀ i p child q, a'.(parsers) !! i = Some p → ref_name p = None → child ∈ all_children a' p →
    a'.(parsers) !! child = Some q → ref_name q = None) ∧
  (∀ ctx pos s x, (∃ n, ParseAt n a ctx id pos s = Some x) ↔ (∃ n, ParseAt n a' ctx id' pos s = Some x)).
Proof.
  intros Hrules Hres Hid. split_and!.
  - intros Hroot. destruct (resolveRefs_spec a a' Hres) as (_ & _ & _ & H). destruct (H id Hroot) as (id2 & Hid2 & ->). congruence.
  - intros i p child q Hp Hn Hc Hq. destruct (resolveRefs_spec a a' Hres) as (_ & Hlen & Hall & _).
    destruct (lookup_lt_is_Some_2 (parsers a) i) as [p0 Hp0]; [rewrite <- Hlen; by eapply lookup_lt_Some|].
    destruct (Hall i p0 Hp0) as (p1 & Hp1 & Hi). assert (p1 = p) as -> by congruence.
    pose proof (map_children_ref _ _ _ Hp1) as Hnn. rewrite Hn in Hnn.
    destruct (map_children_in a' _ _ _ _ Hp1 (eq_sym Hnn) Hc) as [c0 Hc0].
    destruct (resolved_parser a Hrules _ _ Hc0) as (r & Hr & Hrn & _). destruct (Hall child r Hr) as (r' & Hr' & Hat).
    assert (r' = q) as -> by congruence. by rewrite (map_children_ref _ _ _ Hr').
  - intros ctx pos s x. split; intros [n Hn].
    + exists n. by apply (forward a a' ctx Hrules Hres n id id').
    + exists (2 * n). by apply (backward a a' ctx Hrules Hres n id id').
Qed.

(** ** The Python grammar *)

Definition python_arena : Arena := Eval vm_compute in default NewArena (BuildPegParser (PythonValue 4)).
Definition python_certificate : certificate := Eval vm_compute in certify python_arena.

Lemma python_built : BuildPegParser (PythonValue 4) = Some python_arena.
Proof. vm_compute. reflexivity. Qed.

Lemma python_ranked : ranked python_arena python_certificate = true.
Proof. vm_compute. reflexivity. Qed.

(** C22. The ready-made grammar of Python values, with its mutually recursive
    dictionaries and arrays, builds and parses everything: for every input, in
    either mode and from every position, the parse returns a result within the
    input; a success consumes at least one byte, and only partial mode asks
    for more input. *)
Theorem python_total ctx start :
  start ≤ length ctx.(Input) →
  ∃ arena, BuildPegParser (PythonValue 4) = Some arena ∧
    ∃ fuel r s, ParseFrom fuel arena ctx start [] = Some (r, s) ∧
      r.(Start) = start ∧ start ≤ r.(End) ≤ length ctx.(Input) ∧
      (r.(Type_) = Success → start < r.(End)) ∧ (r.(Type_) = NeedMoreInput → ctx.(IsPartial) = true).
Proof.
  intros Hstart. exists python_arena. split; [apply python_built|].
  destruct (ParseFrom_ok python_arena python_certificate ctx 1 start python_ranked eq_refl) as (r & s & Hp & []);
    [vm_compute; lia|done|].
  eexists _, r, s. split; [exact Hp|]. split_and!; (done || lia || auto).
Qed.

Lemma python_total_witness :
  ∃ arena, BuildPegParser (PythonValue 4) = Some arena ∧
    ∃ fuel r s, ParseFrom fuel arena (MkContext (bytes "{'a': [1, True]} x") false) 0 [] = Some (r, s) ∧ r.(End) ≤ 18.
Proof.
  destruct (python_total (MkContext (bytes "{'a': [1, True]} x") false) 0) as (arena & Ha & fuel & r & s & Hp & _ & [_ He] & _);
    [vm_compute; lia|]. exists arena. split; [exact Ha|]. exists fuel, r, s. split; [exact Hp|exact He].
Defined.

(** A rule, a reference to it and a root that is a reference. *)
Definition ref_arena : Arena :=
  MkArena [LiteralParser "a"; RuleParser "x" 0 false; RefParser "x"; SequenceParser [2; 2]; RefParser "x"] {[ "x" := 1 ]} (Some 3).

Definition ref_built : Arena := Eval vm_compute in default NewArena (resolveRefs ref_arena).

Lemma build_preserves_witness :
  ∃ n, ParseAt n ref_built (MkContext (bytes "aab") false) 3 0 [] =
    Some (NewParseResultNodes Success 0 2 [0; 1],
          [MkNode 0 "x" "" 0 1 (bytes "a") [] false; MkNode 1 "x" "" 1 2 (bytes "a") [] false]).
Proof.
  assert (Hr : rules_ok ref_arena).
  { intros name id H. unfold ref_arena in H. cbn [rules] in H. apply lookup_singleton_Some in H as [<- <-]. by eexists _, _, _. }
  destruct (build_preserves ref_arena ref_built 3 3 Hr) as (_ & _ & H); [vm_compute; reflexivity|vm_compute; reflexivity|].
  apply H. exists 5. vm_compute. reflexivity.
Defined.
