(* ===== verification/GoJson.v ===== *)
(** * GoJson: what the program uses of Go's encoding/json

    The scanner behind [json.Valid] and [json.Unmarshal], [json.Marshal] on a
    string and [json.Unmarshal] into a string, as the standard library (Go
    1.26) has them, on lists of bytes.  The scanner is a machine with a stack,
    one step per byte; its lemmas say how a text behaves inside a larger one. *)
From Stdlib Require Import Ascii.
From S2P Require Import Prelude GoMonad PegTypes PegJson.

(** ** The scanner *)

Inductive frame := parseObjectKey | parseObjectValue | parseArrayValue.

Inductive scan_state :=
| BeginValueOrEmpty | BeginValue | BeginStringOrEmpty | BeginString | EndValue | EndTop
| InString | InStringEsc | InStringEscU (left : nat)
| Neg | Int1 | Int0 | Dot | Dot0 | Exp | ExpSign | Exp0
| InLiteral (left : list ascii).

Definition scanner : Type := scan_state * list frame.

Definition maxNestingDepth : N := 10000.

Definition pushParseState (limit : N) (q : scan_state) (f : frame) (st : list frame) : option scanner :=
  if (N.of_nat (length (f :: st)) <=? limit)%N then Some (q, f :: st) else None.

Definition popParseState (st : list frame) : option scanner :=
  match st with
  | [] => None
  | [_] => Some (EndTop, [])
  | _ :: st => Some (EndValue, st)
  end.

Definition stateEndValue (st : list frame) (c : ascii) : option scanner :=
  match st with
  | [] => if isWhitespace c then Some (EndTop, []) else None
  | f :: st =>
      if isWhitespace c then Some (EndValue, f :: st) else
      match f with
      | parseObjectKey => if Ascii.eqb c ":" then Some (BeginValue, parseObjectValue :: st) else None
      | parseObjectValue =>
          if Ascii.eqb c "," then Some (BeginString, parseObjectKey :: st)
          else if Ascii.eqb c "}" then popParseState (f :: st) else None
      | parseArrayValue =>
          if Ascii.eqb c "," then Some (BeginValue, f :: st)
          else if Ascii.eqb c "]" then popParseState (f :: st) else None
      end
  end.

Definition stateBeginValue (limit : N) (st : list frame) (c : ascii) : option scanner :=
  if isWhitespace c then Some (BeginValue, st)
  else if Ascii.eqb c "{" then pushParseState limit BeginStringOrEmpty parseObjectKey st
  else if Ascii.eqb c "[" then pushParseState limit BeginValueOrEmpty parseArrayValue st
  else if Ascii.eqb c cQuote then Some (InString, st)
  else if Ascii.eqb c "-" then Some (Neg, st)
  else if Ascii.eqb c "0" then Some (Int0, st)
  else if Ascii.eqb c "t" then Some (InLiteral (bytes "rue"), st)
  else if Ascii.eqb c "f" then Some (InLiteral (bytes "alse"), st)
  else if Ascii.eqb c "n" then Some (InLiteral (bytes "ull"), st)
  else if isDigit c then Some (Int1, st)
  else None.

Definition stateBeginString (st : list frame) (c : ascii) : option scanner :=
  if isWhitespace c then Some (BeginString, st) else if Ascii.eqb c cQuote then Some (InString, st) else None.

Definition isE (c : ascii) : bool := Ascii.eqb c "e" || Ascii.eqb c "E".

Definition scan_step (limit : N) (s : scanner) (c : ascii) : option scanner :=
  let '(q, st) := s in
  match q with
  | BeginValueOrEmpty =>
      if isWhitespace c then Some (BeginValueOrEmpty, st)
      else if Ascii.eqb c "]" then stateEndValue st c else stateBeginValue limit st c
  | BeginValue => stateBeginValue limit st c
  | BeginStringOrEmpty =>
      if isWhitespace c then Some (BeginStringOrEmpty, st)
      else if Ascii.eqb c "}" then
        match st with [] => None | _ :: st => stateEndValue (parseObjectValue :: st) c end
      else stateBeginString st c
  | BeginString => stateBeginString st c
  | EndValue => stateEndValue st c
  | EndTop => if isWhitespace c then Some (EndTop, st) else None
  | InString =>
      if Ascii.eqb c cQuote then Some (EndValue, st)
      else if Ascii.eqb c cBackslash then Some (InStringEsc, st)
      else if (code c <? 0x20)%Z then None else Some (InString, st)
  | InStringEsc =>
      if json_escape c then Some (InString, st)
      else if Ascii.eqb c "u" then Some (InStringEscU 3, st) else None
  | InStringEscU n =>
      if isHexDigit c then Some (match n with S n => InStringEscU n | O => InString end, st) else None
  | Neg => if Ascii.eqb c "0" then Some (Int0, st) else if isDigit c then Some (Int1, st) else None
  | Int1 =>
      if isDigit c then Some (Int1, st)
      else if Ascii.eqb c "." then Some (Dot, st) else if isE c then Some (Exp, st) else stateEndValue st c
  | Int0 => if Ascii.eqb c "." then Some (Dot, st) else if isE c then Some (Exp, st) else stateEndValue st c
  | Dot => if isDigit c then Some (Dot0, st) else None
  | Dot0 => if isDigit c then Some (Dot0, st) else if isE c then Some (Exp, st) else stateEndValue st c
  | Exp =>
      if Ascii.eqb c "+" || Ascii.eqb c "-" then Some (ExpSign, st)
      else if isDigit c then Some (Exp0, st) else None
  | ExpSign => if isDigit c then Some (Exp0, st) else None
  | Exp0 => if isDigit c then Some (Exp0, st) else stateEndValue st c
  | InLiteral [] => None
  | InLiteral (x :: l) => if Ascii.eqb c x then Some (match l with [] => EndValue | _ => InLiteral l end, st) else None
  end.

Definition scan (limit : N) (s : scanner) (l : list ascii) : option scanner := foldM (scan_step limit) s l.

(** [scan.eof()]: a space completes a value at the top level. *)
Definition scan_eof (limit : N) (s : scanner) : bool :=
  match scan_step limit s " " with Some (EndTop, _) => true | _ => false end.

Definition checkValid (limit : N) (l : list ascii) : bool :=
  match scan limit (BeginValue, []) l with Some s => scan_eof limit s | None => false end.

(** [json.Unmarshal] into a [json.RawMessage] succeeds, or [json.Valid]. *)
Definition Valid (l : list ascii) : bool := checkValid maxNestingDepth l.

(** The raw bytes of the value, for a valid text. *)
Fixpoint skip_space (l : list ascii) : list ascii :=
  match l with c :: l' => if isWhitespace c then skip_space l' else l | [] => [] end.

Definition RawMessage (l : list ascii) : list ascii := reverse (skip_space (reverse (skip_space l))).

(** ** Strings *)

Definition hex (n : Z) : ascii := default "0"%char (bytes "0123456789abcdef" !! Z.to_nat n).

Definition htmlSafe (c : ascii) : bool :=
  (0x20 <=? code c)%Z && negb (Ascii.eqb c cQuote || Ascii.eqb c "&" || Ascii.eqb c "<" || Ascii.eqb c ">" || Ascii.eqb c cBackslash).

Definition escape_byte (c : ascii) : list ascii :=
  if htmlSafe c then [c]
  else if Ascii.eqb c cBackslash || Ascii.eqb c cQuote then [cBackslash; c]
  else if Ascii.eqb c "008" then bytes "\b"
  else if Ascii.eqb c "012" then bytes "\f"
  else if Ascii.eqb c "010" then bytes "\n"
  else if Ascii.eqb c "013" then bytes "\r"
  else if Ascii.eqb c "009" then bytes "\t"
  else bytes "\u00" ++ [hex (Z.shiftr (code c) 4); hex (Z.land (code c) 0xF)].

Definition escape_rune (c : Z) (encoded : list ascii) : list ascii :=
  if (c =? RuneError)%Z && Nat.eqb (length encoded) 1 then bytes "\ufffd"
  else if (c =? 0x2028)%Z || (c =? 0x2029)%Z then bytes "\u202" ++ [hex (Z.land c 0xF)]
  else encoded.

(** The loop of [appendString] with HTML escaping; the fuel is the number of
    bytes. *)
Fixpoint escape_loop (fuel : nat) (s : list ascii) : list ascii :=
  match fuel, s with
  | S fuel, b :: s' =>
      if (code b <? 0x80)%Z then escape_byte b ++ escape_loop fuel s'
      else let '(c, size) := DecodeRuneInString s in escape_rune c (take size s) ++ escape_loop fuel (drop size s)
  | _, _ => []
  end.

Definition escape (s : list ascii) : list ascii := escape_loop (length s) s.

(** [json.Marshal] on a string; it never fails. *)
Definition Marshal (s : list ascii) : list ascii := cQuote :: escape s ++ [cQuote].

Definition hex_digit (c : ascii) : option Z :=
  if between 48 57 (code c) then Some (code c - 48)%Z
  else if between 97 102 (code c) then Some (code c - 97 + 10)%Z
  else if between 65 70 (code c) then Some (code c - 65 + 10)%Z
  else None.

(** The value of [\uXXXX] at the head of [s]; [None] is -1. *)
Definition getu4 (s : list ascii) : option Z :=
  match s with
  | b :: u :: c1 :: c2 :: c3 :: c4 :: _ =>
      if Ascii.eqb b cBackslash && Ascii.eqb u "u" then
        d1 ← hex_digit c1; d2 ← hex_digit c2; d3 ← hex_digit c3; d4 ← hex_digit c4;
        Some (((d1 * 16 + d2) * 16 + d3) * 16 + d4)%Z
      else None
  | _ => None
  end.

(** [utf16.DecodeRune], with [None] for a rune that is no surrogate. *)
Definition decode_surrogates (r1 : Z) (r2 : option Z) : option Z :=
  match r2 with
  | Some r2 =>
      if between 0xD800 0xDBFF r1 && between 0xDC00 0xDFFF r2
      then Some (Z.lor (Z.shiftl (r1 - 0xD800) 10) (r2 - 0xDC00) + 0x10000)%Z else None
  | None => None
  end.

Definition simple_escape (c : ascii) : option ascii :=
  if Ascii.eqb c cQuote || Ascii.eqb c cBackslash || Ascii.eqb c "/" || Ascii.eqb c "'" then Some c
  else if Ascii.eqb c "b" then Some "008"%char
  else if Ascii.eqb c "f" then Some "012"%char
  else if Ascii.eqb c "n" then Some "010"%char
  else if Ascii.eqb c "r" then Some "013"%char
  else if Ascii.eqb c "t" then Some "009"%char
  else None.

(** The loop of [unquoteBytes] on what is between the quotes. *)
Fixpoint unquote_loop (fuel : nat) (s : list ascii) : option (list ascii) :=
  match fuel, s with
  | _, [] => Some []
  | O, _ => None
  | S fuel, c :: s' =>
      if Ascii.eqb c cBackslash then
        match s' with
        | [] => None
        | e :: s'' =>
            if Ascii.eqb e "u" then
              rr ← getu4 s;
              if between 0xD800 0xDFFF rr then
                match decode_surrogates rr (getu4 (drop 6 s)) with
                | Some dec => t ← unquote_loop fuel (drop 12 s); Some (EncodeRune dec ++ t)
                | None => t ← unquote_loop fuel (drop 6 s); Some (EncodeRune RuneError ++ t)
                end
              else t ← unquote_loop fuel (drop 6 s); Some (EncodeRune rr ++ t)
            else b ← simple_escape e; t ← unquote_loop fuel s''; Some (b :: t)
        end
      else if Ascii.eqb c cQuote || (code c <? 0x20)%Z then None
      else if (code c <? 0x80)%Z then t ← unquote_loop fuel s'; Some (c :: t)
      else let '(r, size) := DecodeRuneInString s in t ← unquote_loop fuel (drop size s); Some (EncodeRune r ++ t)
  end.

(** [json.Unmarshal] of a string literal into a string. *)
Definition unquote (s : list ascii) : option (list ascii) :=
  match s with
  | c :: s' =>
      match last s' with
      | Some d => if Ascii.eqb c cQuote && Ascii.eqb d cQuote
                  then let inner := take (length s' - 1) s' in unquote_loop (length inner) inner else None
      | None => None
      end
  | [] => None
  end.

(** A string with what is not UTF-8 replaced by U+FFFD. *)
Fixpoint valid_loop (fuel : nat) (s : list ascii) : list ascii :=
  match fuel, s with
  | S fuel, _ :: _ => let '(r, n) := DecodeRuneInString s in EncodeRune r ++ valid_loop fuel (drop n s)
  | _, _ => []
  end.

Definition ToValidUTF8 (s : list ascii) : list ascii := valid_loop (length s) s.

Example marshal_example : Marshal (bytes "a<b>\") = cQuote :: bytes "a\u003cb\u003e\\" ++ [cQuote].
Proof. reflexivity. Qed.
Example unquote_example : unquote (cQuote :: bytes "\ud83d\ude00\u00e9\'" ++ [cQuote]) =
  Some (EncodeRune 0x1F600 ++ EncodeRune 0xE9 ++ bytes "'").
Proof. reflexivity. Qed.
Example valid_example : map Valid (map bytes ["[1, {}]"; " -0.5e+10 "; "01"; "[1,]"; "nul"; "true x"; "{ }"]) =
  [true; true; false; false; false; false; true].
Proof. reflexivity. Qed.

(** ** A text inside a larger one

    A valid text behaves the same where the scanner expects a value, on top of
    the frames [base], with room for them in the nesting limit. *)
Inductive embeds (base : list frame) : scanner → scanner → Prop :=
| embeds_top : embeds base (EndTop, []) (EndValue, base)
| embeds_in q st : q ≠ EndTop → embeds base (q, st) (q, st ++ base).

#[export] Hint Constructors embeds : localai.

#[local] Arguments popParseState : simpl never.

Section Embedding.
Context (limit : N) (base : list frame) (base_some : base ≠ []).
Local Abbreviation limit' := (limit + N.of_nat (length base))%N.

Lemma embeds_end st c x : stateEndValue st c = Some x → ∃ y, stateEndValue (st ++ base) c = Some y ∧ embeds base x y.
Proof.
  destruct st as [|f st]; simpl; intros H.
  - destruct base as [|g b]; [done|]. simpl. destruct (isWhitespace c); simplify_eq. eauto with localai.
  - destruct (isWhitespace c); simplify_eq; [eexists; split; [done|by apply (embeds_in _ _ (f :: st))]|].
    assert (Hpop : ∀ f, popParseState (f :: st) = Some x → ∃ y, popParseState (f :: st ++ base) = Some y ∧ embeds base x y).
    { intros g. destruct st as [|g' st]; unfold popParseState; simpl; intros [= <-].
      - destruct base; [done|]. eauto with localai.
      - eexists. split; [done|]. by apply (embeds_in _ _ (g' :: st)). }
    destruct f; repeat (case_match; simplify_eq); eauto; eexists; (split; [done|]); by apply (embeds_in _ _ (_ :: st)).
Qed.

#[local] Arguments stateEndValue : simpl never.

Lemma embeds_push q f st x : q ≠ EndTop → pushParseState limit q f st = Some x →
  ∃ y, pushParseState limit' q f (st ++ base) = Some y ∧ embeds base x y.
Proof.
  unfold pushParseState. intros Hq H. case_match eqn:Hl; simplify_eq. apply N.leb_le in Hl.
  rewrite (proj2 (N.leb_le _ _)) by (simpl in *; rewrite length_app; lia).
  eexists. split; [done|]. by apply (embeds_in _ _ (f :: st)).
Qed.

Lemma embeds_begin st c x : stateBeginValue limit st c = Some x →
  ∃ y, stateBeginValue limit' (st ++ base) c = Some y ∧ embeds base x y.
Proof.
  unfold stateBeginValue. intros H. repeat (case_match; simplify_eq); try (eexists; split; [done|by constructor]).
  all: by apply embeds_push.
Qed.

Lemma embeds_step x y c x' : embeds base x y → scan_step limit x c = Some x' →
  ∃ y', scan_step limit' y c = Some y' ∧ embeds base x' y'.
Proof.
  intros [|q st Hq] H.
  - simpl in *. destruct base as [|f b]; [done|]. unfold stateEndValue. destruct (isWhitespace c); simplify_eq. eauto with localai.
  - destruct q as [| | | | | | | |n| | | | | | | | |[|a l]]; simpl in *; unfold stateBeginString in *;
      try done; try (by apply embeds_end); try (by apply embeds_begin);
      repeat (case_match; simplify_eq/=); try (eexists; split; [done|by constructor]);
      try (by apply embeds_end); try (by apply embeds_begin); by apply (embeds_end (parseObjectValue :: _)).
Qed.

Lemma embeds_scan l x y x' : embeds base x y → scan limit x l = Some x' →
  ∃ y', scan limit' y l = Some y' ∧ embeds base x' y'.
Proof.
  revert x y. induction l as [|c l IH]; intros x y He; simpl; [intros [= <-]; eauto|].
  unfold scan. simpl. destruct (scan_step limit x c) as [x1|] eqn:Hs; simpl; [|done].
  destruct (embeds_step _ _ _ _ He Hs) as (y1 & -> & He'). by apply IH.
Qed.

Lemma end_at_top st : stateEndValue st " " = Some (EndTop, []) → st = [].
Proof. by destruct st as [|[]]. Qed.

(** A complete value is followed by what may follow it in the frame below. *)
Lemma embeds_eof x y c : embeds base x y → scan_eof limit x = true → isNumberContinuation c = false →
  scan_step limit' y c = stateEndValue base c.
Proof.
  unfold isNumberContinuation. intros He Hx Hc.
  assert (Hn : isDigit c = false ∧ isE c = false ∧ Ascii.eqb c "." = false).
  { unfold isE. by repeat (apply orb_false_iff in Hc as [Hc ?]); split_and!; [|apply orb_false_iff|]. }
  destruct Hn as (Hd & HE & Hdot), He as [|q st Hq]; [done|]. unfold scan_eof in Hx.
  assert (Hst : scan_step limit (q, st) " " = stateEndValue st " " → st = []).
  { intros Heq. rewrite Heq in Hx. destruct (stateEndValue st " ") as [[[] st']|] eqn:Hv; try done.
    apply end_at_top. rewrite Hv. destruct st as [|[] ?]; simpl in Hv; by simplify_eq. }
  destruct q as [| | | | | | | |n| | | | | | | | |[|a l]]; cbn [scan_step] in Hx, Hst |- *; try discriminate Hx;
    try (rewrite (Hst eq_refl); rewrite ?Hd, ?HE, ?Hdot; reflexivity); [done|].
  by destruct (Ascii.eqb " " a), l.
Qed.
End Embedding.

Lemma scan_app limit s l1 l2 : scan limit s (l1 ++ l2) = s' ← scan limit s l1; scan limit s' l2.
Proof. apply foldM_app. Qed.

Lemma scan_cons limit s c l : scan limit s (c :: l) = s' ← scan_step limit s c; scan limit s' l.
Proof. done. Qed.

(** A valid text where a value is expected, and the byte that ends it. *)
Lemma checkValid_embeds limit base v c : base ≠ [] → checkValid limit v = true → isNumberContinuation c = false →
  scan (limit + N.of_nat (length base)) (BeginValue, base) (v ++ [c]) = stateEndValue base c.
Proof.
  unfold checkValid. intros Hb Hv Hc. destruct (scan limit (BeginValue, []) v) as [x|] eqn:Hx; [|done].
  destruct (embeds_scan limit base Hb v _ (BeginValue, base) x (embeds_in base BeginValue [] ltac:(done)) Hx) as (y & Hy & He).
  rewrite scan_app, Hy. simpl. rewrite scan_cons, (embeds_eof limit base _ _ _ He Hv Hc). by destruct (stateEndValue base c).
Qed.

(** ** Strings *)

Lemma string_byte limit st c : (0x80 <= code c)%Z → scan_step limit (InString, st) c = Some (InString, st).
Proof.
  intros H. simpl. destruct (Ascii.eqb_spec c cQuote) as [->|]; [by vm_compute in H|].
  destruct (Ascii.eqb_spec c cBackslash) as [->|]; [by vm_compute in H|]. by rewrite (proj2 (Z.ltb_ge _ _)) by lia.
Qed.

Lemma string_bytes limit st l : Forall (λ c, (0x80 <= code c)%Z) l → scan limit (InString, st) l = Some (InString, st).
Proof. induction 1 as [|c l Hc _ IH]; [done|]. rewrite scan_cons, string_byte by done. exact IH. Qed.

Lemma scan_escape_byte limit st c : (code c < 0x80)%Z → scan limit (InString, st) (escape_byte c) = Some (InString, st).
Proof.
  destruct c as [[] [] [] [] [] [] [] []]; intros H; try (exfalso; vm_compute in H; done); vm_compute; reflexivity.
Qed.

(** The cases of a rune that is not ASCII. *)
Lemma sequence_high l r : sequence (map code l) r → (∀ c, head l = Some c → (0x80 <= code c)%Z) → Forall (λ c, (0x80 <= code c)%Z) l.
Proof.
  intros Hs Hh. destruct l as [|c0 [|c1 [|c2 [|c3 [|c4 l]]]]]; inversion Hs; subst;
    repeat match goal with H : lead _ = Some _ |- _ => apply lead_cases in H end;
    specialize (Hh _ eq_refl); repeat constructor; try done; repeat case_match; lia.
Qed.

Lemma escape_rune_cases s c size : s ≠ [] → DecodeRuneInString s = (c, size) → (∀ b, head s = Some b → (0x80 <= code b)%Z) →
  1 ≤ size ≤ length s ∧
  (escape_rune c (take size s) = bytes "\ufffd" ∧ c = RuneError ∨
   escape_rune c (take size s) = bytes "\u2028" ∧ c = 0x2028%Z ∨ escape_rune c (take size s) = bytes "\u2029" ∧ c = 0x2029%Z ∨
   escape_rune c (take size s) = take size s ∧ sequence (map code (take size s)) c ∧ Forall (λ b, (0x80 <= code b)%Z) (take size s)).
Proof.
  intros Hs Hd Hh. destruct (decode_cases _ _ _ Hd) as [(pre & rest & -> & Hl & Hseq)|(-> & [[-> _]|[_ ->]])]; [|done|].
  - rewrite length_app, <- Hl, take_app_length. pose proof (sequence_length _ _ Hseq) as Hlen. rewrite length_map in Hlen.
    split; [lia|].
    unfold escape_rune. case_match eqn:H1; [left; split; [done|]; bool_hyps; lia|].
    case_match eqn:H2; [|do 3 right; split_and!; [done|done|]; apply (sequence_high _ _ Hseq); intros b Hb; apply Hh; by destruct pre].
    apply orb_true_iff in H2 as [->%Z.eqb_eq| ->%Z.eqb_eq]; auto.
  - destruct s as [|b s]; [done|]. split; [simpl; lia|]. left. done.
Qed.

Lemma scan_escape_loop limit st n s : scan limit (InString, st) (escape_loop n s) = Some (InString, st).
Proof.
  revert s. induction n as [|n IH]; intros [|b s]; try done. simpl.
  destruct (code b <? 0x80)%Z eqn:Hb.
  - rewrite scan_app, scan_escape_byte by lia. apply IH.
  - destruct (DecodeRuneInString (b :: s)) as [c size] eqn:Hd. rewrite scan_app.
    assert (Hh : ∀ x, head (b :: s) = Some x → (0x80 <= code x)%Z) by (intros ? [= <-]; lia).
    destruct (escape_rune_cases (b :: s) c size ltac:(done) Hd Hh) as (_ & [[-> _]|[[-> _]|[[-> _]|(-> & _ & Hall)]]]);
      [..|rewrite (string_bytes _ _ _ Hall)]; apply IH.
Qed.

Lemma scan_escape limit st s : scan limit (InString, st) (escape s) = Some (InString, st).
Proof. apply scan_escape_loop. Qed.

(** ** Reading back what was written *)

Lemma decode_size s r n : DecodeRuneInString s = (r, n) → s ≠ [] → 1 ≤ n.
Proof.
  intros Hd Hs. destruct (decode_cases _ _ _ Hd) as [(pre & rest & -> & <- & Hseq)|(_ & [[? _]|[_ ->]])]; [|done|lia].
  apply sequence_length in Hseq. by rewrite length_map in Hseq; lia.
Qed.

(** The number of bytes is fuel enough. *)
Lemma unquote_enough n m s t : length s ≤ m → unquote_loop n s = Some t → unquote_loop m s = Some t.
Proof.
  revert m s t. induction n as [|n IH]; intros m s t Hm; destruct s as [|c s]; try (by destruct m).
  destruct m as [|m]; simpl in Hm; [lia|]. assert (Hrec : ∀ s' (f : list ascii → list ascii), length s' ≤ length s →
    (t ← unquote_loop n s'; Some (f t)) = Some t → (t ← unquote_loop m s'; Some (f t)) = Some t).
  { intros s' f Hs'. destruct (unquote_loop n s') as [t'|] eqn:Ht; simpl; [|done]. by rewrite (IH m s' t') by (done || lia). }
  cbn [unquote_loop]. destruct (Ascii.eqb c cBackslash).
  - destruct s as [|e s]; [done|]. destruct (Ascii.eqb e "u").
    + destruct (getu4 (c :: e :: s)); simpl; [|done]. repeat case_match; try done; apply Hrec; simpl; rewrite ?length_drop; lia.
    + destruct (simple_escape e); simpl; [apply Hrec; simpl; lia|done].
  - repeat case_match; try done; apply Hrec; [lia|].
    match goal with H : DecodeRuneInString _ = _ |- _ => pose proof (decode_size _ _ _ H ltac:(done)) end.
    rewrite length_drop. simpl. lia.
Qed.

Lemma unquote_escape_byte c m rest : (code c < 0x80)%Z →
  unquote_loop (S m) (escape_byte c ++ rest) = t ← unquote_loop m rest; Some (c :: t).
Proof.
  destruct c as [[] [] [] [] [] [] [] []]; intros H; try (exfalso; vm_compute in H; done); vm_compute escape_byte; reflexivity.
Qed.

Lemma encode_ascii c : (code c < 0x80)%Z → EncodeRune (code c) = [c].
Proof. intros H. unfold EncodeRune. rewrite (proj2 (Z.ltb_lt _ _)) by done. simpl. by rewrite byte_of_code. Qed.

Lemma decode_ascii c s : (code c < 0x80)%Z → DecodeRuneInString (c :: s) = (code c, 1).
Proof. intros H. unfold DecodeRuneInString. simpl. by rewrite (proj2 (Z.ltb_lt _ _)). Qed.

Lemma unquote_escape_rune c size s m rest : s ≠ [] → DecodeRuneInString s = (c, size) →
  (∀ b, head s = Some b → (0x80 <= code b)%Z) →
  unquote_loop (S m) (escape_rune c (take size s) ++ rest) = t ← unquote_loop m rest; Some (EncodeRune c ++ t).
Proof.
  intros Hs Hd Hh. destruct (escape_rune_cases s c size Hs Hd Hh) as ([Hsz Hle] & [[-> ->]|[[-> ->]|[[-> ->]|(-> & Hseq & Hall)]]]);
    try reflexivity.
  pose proof (decode_sequence (take size s) rest c Hseq) as Hdec.
  destruct s as [|b s]; [done|]. destruct size as [|size]; [lia|]. simpl in *. pose proof (Hh b eq_refl) as Hb.
  destruct (Ascii.eqb_spec b cBackslash) as [->|]; [by vm_compute in Hb|].
  destruct (Ascii.eqb_spec b cQuote) as [->|]; [by vm_compute in Hb|]. simpl.
  rewrite !(proj2 (Z.ltb_ge _ _)) by lia. rewrite Hdec. cbn [drop]. by rewrite drop_app_length.
Qed.

Lemma unquote_escape_loop n s m : length (escape_loop n s) ≤ m → unquote_loop m (escape_loop n s) = Some (valid_loop n s).
Proof.
  revert s m. induction n as [|n IH]; intros [|b s] m Hm; [by destruct m..|]. revert Hm. cbn [escape_loop valid_loop].
  destruct (code b <? 0x80)%Z eqn:Hb.
  - intros Hm. rewrite length_app in Hm. destruct m as [|m]; [destruct (escape_byte b) eqn:He; simpl in Hm; [|lia]|].
    { exfalso. revert He Hb. clear. destruct b as [[] [] [] [] [] [] [] []]; vm_compute; done. }
    rewrite unquote_escape_byte, decode_ascii, encode_ascii by lia. rewrite IH; [done|].
    destruct (escape_byte b) eqn:He; simpl in Hm; [|lia].
    exfalso. revert He Hb. clear. destruct b as [[] [] [] [] [] [] [] []]; vm_compute; done.
  - assert (Hh : ∀ x, head (b :: s) = Some x → (0x80 <= code x)%Z) by (intros ? [= <-]; lia).
    destruct (DecodeRuneInString (b :: s)) as [c size] eqn:Hd. rewrite length_app. intros Hm.
    destruct (escape_rune c (take size (b :: s))) as [|x l] eqn:He.
    { exfalso. destruct (escape_rune_cases (b :: s) c size ltac:(done) Hd Hh) as ([? ?] & [[H ?]|[[H ?]|[[H ?]|(H & ? & ?)]]]);
        rewrite He in H; try done. symmetry in H. apply take_nil_inv in H as [?|?]; [lia|done]. }
    simpl in Hm. destruct m as [|m]; [lia|].
    rewrite <- He, (unquote_escape_rune c size (b :: s)) by done. rewrite IH by lia. done.
Qed.

(** What [json.Marshal] writes, [json.Unmarshal] reads back, but for bytes that
    are not UTF-8. *)
Lemma unquote_quoted s : unquote (cQuote :: s ++ [cQuote]) = unquote_loop (length s) s.
Proof. unfold unquote. rewrite last_snoc. simpl. rewrite length_app. simpl. rewrite Nat.add_sub, take_app_length. done. Qed.

Lemma unquote_Marshal s : unquote (Marshal s) = Some (ToValidUTF8 s).
Proof. unfold Marshal. rewrite unquote_quoted. by apply unquote_escape_loop. Qed.

Lemma scan_Marshal limit base s c : base ≠ [] →
  scan limit (BeginValue, base) (Marshal s ++ [c]) = stateEndValue base c.
Proof.
  intros Hb. unfold Marshal. simpl. rewrite scan_cons. simpl. rewrite <- app_assoc, scan_app, scan_escape. simpl.
  rewrite scan_cons. simpl. rewrite scan_cons. simpl. by destruct (stateEndValue base c).
Qed.

(** ** A valid string can be read *)

Definition readable (s : list ascii) : Prop := ∃ n t, unquote_loop n s = Some t.

Lemma readable_nil : readable [].
Proof. by exists 0, []. Qed.

(** One round of the loop, on the rest. *)
Lemma readable_step s s' f : (∀ n, unquote_loop (S n) s = t ← unquote_loop n s'; Some (f t)) → readable s' → readable s.
Proof. intros H (n & t & Ht). exists (S n), (f t). by rewrite H, Ht. Qed.

Lemma readable_unstep s s' f : s ≠ [] → (∀ n, unquote_loop (S n) s = t ← unquote_loop n s'; Some (f t)) → readable s → readable s'.
Proof.
  intros Hs H (n & t & Ht). destruct n as [|n]; [by destruct s|]. rewrite H in Ht.
  destruct (unquote_loop n s') as [t'|] eqn:Ht'; [|done]. by exists n, t'.
Qed.

Lemma decode_cont c s : (0x80 <= code c < 0xC0)%Z → DecodeRuneInString (c :: s) = (RuneError, 1).
Proof.
  intros H. unfold DecodeRuneInString. simpl. rewrite (proj2 (Z.ltb_ge _ _)) by lia.
  unfold lead. rewrite (proj2 (Z.ltb_lt _ _)) by lia. done.
Qed.

(** The test for the four kinds of bytes, on a byte that is not ASCII. *)
Lemma unquote_high n c s : (0x80 <= code c)%Z →
  unquote_loop (S n) (c :: s) = let '(r, size) := DecodeRuneInString (c :: s) in
    t ← unquote_loop n (drop size (c :: s)); Some (EncodeRune r ++ t).
Proof.
  intros H. cbn [unquote_loop]. destruct (Ascii.eqb_spec c cBackslash) as [->|]; [by vm_compute in H|].
  destruct (Ascii.eqb_spec c cQuote) as [->|]; [by vm_compute in H|]. cbn [orb]. by rewrite !(proj2 (Z.ltb_ge _ _)) by lia.
Qed.

Lemma readable_cont l s : Forall (λ c, (0x80 <= code c < 0xC0)%Z) l → readable (l ++ s) → readable s.
Proof.
  induction 1 as [|c l Hc _ IH]; [done|]. intros H. apply IH. simpl in H. revert H.
  apply (readable_unstep _ _ (λ t, EncodeRune RuneError ++ t)); [done|]. intros n.
  rewrite unquote_high, decode_cont by lia. done.
Qed.

Lemma sequence_tail c l r : sequence (map code (c :: l)) r → Forall (λ c, (0x80 <= code c < 0xC0)%Z) l.
Proof.
  intros Hs. destruct l as [|c1 [|c2 [|c3 [|c4 l]]]]; inversion Hs; subst;
    repeat match goal with H : lead _ = Some _ |- _ => apply lead_cases in H end;
    repeat constructor; repeat case_match; lia.
Qed.

Lemma readable_high c s : (0x80 <= code c)%Z → readable s → readable (c :: s).
Proof.
  intros Hc Hs. destruct (DecodeRuneInString (c :: s)) as [r size] eqn:Hd.
  apply (readable_step _ (drop size (c :: s)) (λ t, EncodeRune r ++ t)); [intros n; by rewrite unquote_high, Hd|].
  destruct (decode_cases _ _ _ Hd) as [(pre & rest & He & Hl & Hseq)|(_ & [[? _]|[_ ->]])]; [|done|done].
  destruct pre as [|c' pre]; [inversion Hseq|]. injection He as <- ->. rewrite <- Hl. cbn [length drop].
  rewrite drop_app_length. apply sequence_tail in Hseq. by apply (readable_cont pre).
Qed.

Lemma readable_ascii c s : (0x20 <= code c < 0x80)%Z → c ≠ cQuote → c ≠ cBackslash → readable s → readable (c :: s).
Proof.
  intros Hc Hq Hb. apply (readable_step _ s (cons c)). intros n. cbn [unquote_loop].
  rewrite (proj2 (Ascii.eqb_neq _ _) Hb), (proj2 (Ascii.eqb_neq _ _) Hq), (proj2 (Z.ltb_ge _ _)), (proj2 (Z.ltb_lt _ _)) by lia. done.
Qed.

Lemma readable_escape e s : json_escape e = true → readable s → readable (cBackslash :: e :: s).
Proof.
  intros He. assert (Hs : Ascii.eqb e "u" = false ∧ is_Some (simple_escape e)).
  { revert He. destruct e as [[] [] [] [] [] [] [] []]; vm_compute; intros H; try done; (split; [done|by eexists]). }
  destruct Hs as [Hu [b Hb]]. apply (readable_step _ s (cons b)). intros n. cbn [unquote_loop]. simpl. by rewrite Hu, Hb.
Qed.

Lemma hex_digit_some c : isHexDigit c = true → is_Some (hex_digit c).
Proof. unfold isHexDigit, hex_digit. by destruct (between 48 57 (code c)), (between 97 102 (code c)), (between 65 70 (code c)); eauto. Qed.

Lemma decode_low r o : between 0xD800 0xDBFF r = false → decode_surrogates r o = None.
Proof. intros H. unfold decode_surrogates. by rewrite H; destruct o. Qed.

(** A low surrogate on its own is replaced, so what follows can be read. *)
Lemma readable_low s r : getu4 s = Some r → between 0xDC00 0xDFFF r = true → readable s → readable (drop 6 s).
Proof.
  intros Hg Hr. destruct s as [|b [|u s]]; try done. unfold getu4 in Hg. destruct s as [|c1 [|c2 [|c3 [|c4 s]]]]; try done.
  destruct (Ascii.eqb_spec b cBackslash) as [->|]; [|done]. destruct (Ascii.eqb_spec u "u") as [->|]; [|done]. simpl in Hg.
  apply (readable_unstep _ _ (λ t, EncodeRune RuneError ++ t)); [done|]. intros n. cbn [unquote_loop].
  simpl Ascii.eqb. cbn iota. unfold getu4 at 1. simpl. rewrite Hg. simpl.
  apply between_spec in Hr. rewrite (proj2 (between_spec 0xD800 0xDFFF r)) by lia.
  rewrite decode_low; [done|]. destruct (between 0xD800 0xDBFF r) eqn:Hh; [apply between_spec in Hh; lia|done].
Qed.

Lemma readable_unicode c1 c2 c3 c4 s : forallb isHexDigit [c1; c2; c3; c4] = true → readable s →
  readable (cBackslash :: "u"%char :: c1 :: c2 :: c3 :: c4 :: s).
Proof.
  simpl. rewrite !andb_true_iff. intros (H1 & H2 & H3 & H4 & _) Hs.
  apply hex_digit_some in H1 as [d1 H1], H2 as [d2 H2], H3 as [d3 H3], H4 as [d4 H4].
  set (rr := (((d1 * 16 + d2) * 16 + d3) * 16 + d4)%Z).
  assert (Hone : ∀ n, unquote_loop (S n) (cBackslash :: "u"%char :: c1 :: c2 :: c3 :: c4 :: s) =
    if between 0xD800 0xDFFF rr then
      match decode_surrogates rr (getu4 s) with
      | Some dec => t ← unquote_loop n (drop 6 s); Some (EncodeRune dec ++ t)
      | None => t ← unquote_loop n s; Some (EncodeRune RuneError ++ t)
      end
    else t ← unquote_loop n s; Some (EncodeRune rr ++ t)).
  { intros n. cbn [unquote_loop]. simpl Ascii.eqb. cbn iota. unfold getu4 at 1. simpl. rewrite H1, H2, H3, H4. done. }
  destruct (between 0xD800 0xDFFF rr); [|by apply (readable_step _ s _ Hone)].
  destruct (decode_surrogates rr (getu4 s)) as [dec|] eqn:Hd; [|by apply (readable_step _ s _ Hone)].
  apply (readable_step _ (drop 6 s) _ Hone). unfold decode_surrogates in Hd.
  destruct (getu4 s) as [r2|] eqn:Hg; [|done]. apply (readable_low s r2 Hg); [|done].
  destruct (between 0xD800 0xDBFF rr), (between 0xDC00 0xDFFF r2) eqn:?; done.
Qed.

Lemma scan_spaces limit l x : scan limit (EndTop, []) l = Some x → forallb isWhitespace l = true ∧ x = (EndTop, []).
Proof.
  induction l as [|c l IH]; [by intros [= <-]|]. rewrite scan_cons. simpl. destruct (isWhitespace c); simpl; [exact IH|done].
Qed.

Lemma scan_end limit l x : scan limit (EndValue, []) l = Some x → forallb isWhitespace l = true.
Proof.
  destruct l as [|c l]; [done|]. rewrite scan_cons. simpl. unfold stateEndValue. destruct (isWhitespace c); simpl; [|done].
  by intros [H _]%scan_spaces.
Qed.

(** A string literal the scanner accepts: its inside can be read, and only
    space follows it. *)
Definition literal_end (rest : list ascii) : Prop :=
  ∃ inner tail, rest = inner ++ cQuote :: tail ∧ forallb isWhitespace tail = true ∧ readable inner.

Lemma literal_cons l rest : (∀ s, readable s → readable (l ++ s)) → literal_end rest → literal_end (l ++ rest).
Proof. intros H (inner & tail & -> & Ht & Hr). exists (l ++ inner), tail. split_and!; [by rewrite app_assoc|done|auto]. Qed.

Lemma string_readable limit n rest x : length rest ≤ n → scan limit (InString, []) rest = Some x → scan_eof limit x = true →
  literal_end rest.
Proof.
  revert rest. induction n as [|n IH]; intros [|c rest] Hn Hs Hx; simpl in Hn; try lia; try by injection Hs as <-.
  rewrite scan_cons in Hs. simpl in Hs. destruct (Ascii.eqb_spec c cQuote) as [->|Hq].
  { exists [], rest. split_and!; [done|by eapply scan_end|apply readable_nil]. }
  destruct (Ascii.eqb_spec c cBackslash) as [->|Hb].
  - simpl in Hs. destruct rest as [|e rest]; [by injection Hs as <-|]. rewrite scan_cons in Hs. simpl in Hn, Hs.
    destruct (json_escape e) eqn:He; simpl in Hs.
    { apply (literal_cons [cBackslash; e]); [intros s; by apply readable_escape|]. apply IH; [lia|done|done]. }
    destruct (Ascii.eqb_spec e "u") as [->|]; simpl in Hs; [|done].
    assert (Hhex : ∀ k rest, scan limit (InStringEscU k, []) rest = Some x → ∃ h l, rest = h :: l ∧ isHexDigit h = true ∧
      scan limit (match k with S k => InStringEscU k | O => InString end, []) l = Some x).
    { intros k [|h l]; [intros [= <-]; simpl in Hx; by destruct k|]. rewrite scan_cons. simpl. destruct (isHexDigit h) eqn:Hh; simpl; [by exists h, l|done]. }
    destruct (Hhex _ _ Hs) as (c1 & l1 & -> & H1 & Hs1). destruct (Hhex _ _ Hs1) as (c2 & l2 & -> & H2 & Hs2).
    destruct (Hhex _ _ Hs2) as (c3 & l3 & -> & H3 & Hs3). destruct (Hhex _ _ Hs3) as (c4 & l4 & -> & H4 & Hs4). simpl in *.
    apply (literal_cons [cBackslash; "u"%char; c1; c2; c3; c4]); [|apply IH; [lia|done|done]].
    intros s. apply readable_unicode. simpl. by rewrite H1, H2, H3, H4.
  - destruct (code c <? 0x20)%Z eqn:Hc; simpl in Hs; [done|].
    apply (literal_cons [c]); [|apply IH; [lia|done|done]]. intros s. destruct (Z.lt_ge_cases (code c) 0x80).
    + apply readable_ascii; [lia|done|done].
    + by apply readable_high.
Qed.

Lemma skip_space_spaces l1 l2 : forallb isWhitespace l1 = true → skip_space (l1 ++ l2) = skip_space l2.
Proof. induction l1 as [|c l1 IH]; [done|]. simpl. intros [-> ?]%andb_true_iff. auto. Qed.

Lemma forallb_reverse {A} (f : A → bool) l : forallb f l = true → forallb f (reverse l) = true.
Proof. rewrite !forallb_forall. intros H x Hx. apply H. apply list_elem_of_In, elem_of_reverse. by apply list_elem_of_In. Qed.

Lemma skip_space_head l c : head (skip_space l) = Some c → isWhitespace c = false.
Proof. induction l as [|d l IH]; [done|]. simpl. destruct (isWhitespace d) eqn:Hd; [exact IH|]. by intros [= <-]. Qed.

Lemma RawMessage_trim w1 c l d w2 : forallb isWhitespace w1 = true → forallb isWhitespace w2 = true →
  isWhitespace c = false → isWhitespace d = false → RawMessage (w1 ++ c :: l ++ [d] ++ w2) = c :: l ++ [d].
Proof.
  intros H1 H2 Hc Hd. unfold RawMessage. rewrite (skip_space_spaces w1) by done. cbn [skip_space]. rewrite Hc.
  change (c :: l ++ [d] ++ w2) with ((c :: l) ++ [d] ++ w2). rewrite app_assoc, reverse_app.
  rewrite skip_space_spaces by by apply forallb_reverse.
  rewrite reverse_snoc. cbn [skip_space]. rewrite Hd, reverse_cons, reverse_involutive. done.
Qed.

Lemma scan_skip limit l x : scan limit (BeginValue, []) l = Some x → scan_eof limit x = true →
  ∃ w, l = w ++ skip_space l ∧ forallb isWhitespace w = true ∧ scan limit (BeginValue, []) (skip_space l) = Some x.
Proof.
  induction l as [|c l IH]; intros Hs Hx; [by exists []|]. simpl. destruct (isWhitespace c) eqn:Hc; [|by exists []].
  rewrite scan_cons in Hs. simpl in Hs. unfold stateBeginValue in Hs. rewrite Hc in Hs.
  destruct (IH Hs Hx) as (w & Hw & Hsp & ?). exists (c :: w). split_and!; [by simpl; f_equal|by simpl; rewrite Hc|done].
Qed.

Lemma skip_space_last l c : isWhitespace c = false → ∃ k, skip_space (l ++ [c]) = k ++ [c].
Proof.
  intros Hc. induction l as [|d l [k IH]]; simpl; [rewrite Hc; by exists []|]. destruct (isWhitespace d); [by exists k|by exists (d :: l)].
Qed.

(** A valid text whose value starts with a quote is a string literal, and
    reading it succeeds. *)
Lemma valid_string l : Valid l = true → head (RawMessage l) = Some cQuote →
  ∃ inner, RawMessage l = cQuote :: inner ++ [cQuote] ∧ readable inner.
Proof.
  unfold Valid, checkValid. intros Hv Hh. destruct (scan _ _ l) as [x|] eqn:Hs; [|done].
  destruct (scan_skip _ _ _ Hs Hv) as (w & Hl & Hw & Hs').
  assert (Hhead : head (skip_space l) = Some cQuote).
  { destruct (skip_space l) as [|c k] eqn:Hk; [unfold RawMessage in Hh; by rewrite Hk in Hh|].
    pose proof (skip_space_head l c ltac:(by rewrite Hk)) as Hc. unfold RawMessage in Hh. rewrite Hk, reverse_cons in Hh.
    destruct (skip_space_last (reverse k) c Hc) as [k' Hk']. rewrite Hk', reverse_snoc in Hh. exact Hh. }
  destruct (skip_space l) as [|c k] eqn:Hk; [done|]. injection Hhead as ->.
  rewrite scan_cons in Hs'. simpl in Hs'.
  destruct (string_readable _ (length k) k x ltac:(lia) Hs' Hv) as (inner & tail & -> & Ht & Hr).
  exists inner. split; [|done]. rewrite Hl. by apply (RawMessage_trim w cQuote inner cQuote tail).
Qed.

Lemma unquote_readable inner : readable inner → ∃ t, unquote (cQuote :: inner ++ [cQuote]) = Some t.
Proof. intros (n & t & Ht). rewrite unquote_quoted. exists t. by apply (unquote_enough n). Qed.
