(* ===== verification/PegMapper.v ===== *)
(** * PegMapper: from the AST of a model's answer to tool calls

    Models [ChatPegMapper] of [pkg/functions/peg/chat.go].  The mapper keeps
    two pointers: [pendingToolCall] to the call being read, and [currentTool],
    which first points to the same object and then to an element of the slice
    of results, whose backing array [append] may replace.  Objects and arrays
    live in a store, and pointers are followed through it, so that a write
    through a stale pointer is what it is in Go; [None] is a nil or dangling
    pointer, which the theorems exclude. *)
From Stdlib Require Import Ascii.
From S2P Require Import Prelude GoMonad PegTypes PegJson GoJson.

(** ** Data *)

Record ToolCall := MkToolCall { Name : list ascii; Arguments : list ascii; call_ID : list ascii }.

Definition NewToolCall : ToolCall := MkToolCall [] [] [].

Definition set_Name (x : list ascii) (t : ToolCall) := MkToolCall x t.(Arguments) t.(call_ID).
Definition set_Arguments (x : list ascii) (t : ToolCall) := MkToolCall t.(Name) x t.(call_ID).
Definition set_call_ID (x : list ascii) (t : ToolCall) := MkToolCall t.(Name) t.(Arguments) x.

(** A pointer to an object of its own, or to an element of a backing array. *)
Inductive Ptr := PObject (n : nat) | PElem (array i : nat).

#[export] Instance Ptr_eq_dec : EqDecision Ptr.
Proof. solve_decision. Defined.

(** A slice of tool calls: a backing array and a length; its capacity is the
    length of the array.  [None] is the nil slice. *)
Record Slice := MkSlice { array : option nat; len : nat }.

Record Mapper := MkMapper {
  Content : list ascii;
  ReasoningContent : list ascii;
  ToolCalls : Slice;
  pendingToolCall : option Ptr;
  currentTool : option Ptr;
  argCount : Z;
  closingQuotePend : bool;
  argsBuffer : list ascii;
  objects : list ToolCall;
  arrays : list (list ToolCall);
}.

Definition NewMapper : Mapper := MkMapper [] [] (MkSlice None 0) None None 0 false [] [] [].

Definition set_Content x m := MkMapper x m.(ReasoningContent) m.(ToolCalls) m.(pendingToolCall) m.(currentTool) m.(argCount) m.(closingQuotePend) m.(argsBuffer) m.(objects) m.(arrays).
Definition set_ReasoningContent x m := MkMapper m.(Content) x m.(ToolCalls) m.(pendingToolCall) m.(currentTool) m.(argCount) m.(closingQuotePend) m.(argsBuffer) m.(objects) m.(arrays).
Definition set_ToolCalls x m := MkMapper m.(Content) m.(ReasoningContent) x m.(pendingToolCall) m.(currentTool) m.(argCount) m.(closingQuotePend) m.(argsBuffer) m.(objects) m.(arrays).
Definition set_pending x m := MkMapper m.(Content) m.(ReasoningContent) m.(ToolCalls) x m.(currentTool) m.(argCount) m.(closingQuotePend) m.(argsBuffer) m.(objects) m.(arrays).
Definition set_current x m := MkMapper m.(Content) m.(ReasoningContent) m.(ToolCalls) m.(pendingToolCall) x m.(argCount) m.(closingQuotePend) m.(argsBuffer) m.(objects) m.(arrays).
Definition set_argCount x m := MkMapper m.(Content) m.(ReasoningContent) m.(ToolCalls) m.(pendingToolCall) m.(currentTool) x m.(closingQuotePend) m.(argsBuffer) m.(objects) m.(arrays).
Definition set_quote x m := MkMapper m.(Content) m.(ReasoningContent) m.(ToolCalls) m.(pendingToolCall) m.(currentTool) m.(argCount) x m.(argsBuffer) m.(objects) m.(arrays).
Definition set_argsBuffer x m := MkMapper m.(Content) m.(ReasoningContent) m.(ToolCalls) m.(pendingToolCall) m.(currentTool) m.(argCount) m.(closingQuotePend) x m.(objects) m.(arrays).
Definition set_objects x m := MkMapper m.(Content) m.(ReasoningContent) m.(ToolCalls) m.(pendingToolCall) m.(currentTool) m.(argCount) m.(closingQuotePend) m.(argsBuffer) x m.(arrays).
Definition set_arrays x m := MkMapper m.(Content) m.(ReasoningContent) m.(ToolCalls) m.(pendingToolCall) m.(currentTool) m.(argCount) m.(closingQuotePend) m.(argsBuffer) m.(objects) x.

(** ** Helpers on strings *)

(** [for end > 0 && isWhitespace(s[end-1]) && count < max], from the end. *)
Fixpoint trim_head (max : option nat) (l : list ascii) : list ascii :=
  match l with
  | c :: l' =>
      if isWhitespace c then
        match max with
        | Some O => l
        | Some (S n) => trim_head (Some n) l'
        | None => trim_head None l'
        end
      else l
  | [] => []
  end.

Definition trimTrailingSpace (s : list ascii) : list ascii := reverse (trim_head None (reverse s)).

(** A negative [max] is no bound. *)
Definition trimLeadingSpace (s : list ascii) (max : Z) : list ascii :=
  trim_head (if (0 <=? max)%Z then Some (Z.to_nat max) else None) s.

Definition trimSpace (s : list ascii) : list ascii := trimTrailingSpace (trimLeadingSpace s 1).

Definition trimOneSpace (s : list ascii) : list ascii :=
  reverse (trim_head (Some 1) (reverse (trimLeadingSpace s 1))).

(** [str\[1:len-1\]] when [str] is at least two bytes between quotes. *)
Definition strip_quotes (str : list ascii) : list ascii :=
  if Nat.leb 2 (length str) && bool_decide (head str = Some cQuote) && bool_decide (last str = Some cQuote)
  then take (length str - 2) (drop 1 str) else str.

Definition EscapeJSONStringInner (s : list ascii) : list ascii := strip_quotes (Marshal s).

Definition escapeJSONString (s : list ascii) : list ascii := Marshal s.

(** The loop of [jsonBraceDepth]: depth, inside a string, after a backslash. *)
Record brace_state := MkBrace { depth : Z; inString : bool; escaped : bool }.

Definition brace_step (s : brace_state) (c : ascii) : brace_state :=
  if s.(escaped) then MkBrace s.(depth) s.(inString) false
  else if Ascii.eqb c cBackslash && s.(inString) then MkBrace s.(depth) s.(inString) true
  else if Ascii.eqb c cQuote then MkBrace s.(depth) (negb s.(inString)) false
  else if negb s.(inString) then
    if Ascii.eqb c "{" then MkBrace (s.(depth) + 1) s.(inString) false
    else if Ascii.eqb c "}" then MkBrace (s.(depth) - 1) s.(inString) false
    else s
  else s.

Definition jsonBraceDepth (s : list ascii) : Z := (foldl brace_step (MkBrace 0 false false) s).(depth).

(** [NormalizeQuotesToJSON]. *)
Fixpoint normalize_loop (inSingle inDouble : bool) (l : list ascii) : list ascii :=
  match l with
  | [] => []
  | c :: l' =>
      let plain :=
        if Ascii.eqb c cQuote then
          if inSingle then [cBackslash; cQuote] ++ normalize_loop inSingle inDouble l'
          else c :: normalize_loop inSingle (negb inDouble) l'
        else if Ascii.eqb c "'" then
          if inDouble then c :: normalize_loop inSingle inDouble l'
          else if inSingle then cQuote :: normalize_loop false inDouble l'
          else cQuote :: normalize_loop true inDouble l'
        else c :: normalize_loop inSingle inDouble l' in
      if Ascii.eqb c cBackslash then
        match l' with
        | next :: l'' =>
            if inSingle then
              (if Ascii.eqb next "'" then ["'"%char]
               else if Ascii.eqb next cQuote then [cBackslash; cQuote]
               else [c; next]) ++ normalize_loop inSingle inDouble l''
            else if inDouble then [c; next] ++ normalize_loop inSingle inDouble l''
            else c :: normalize_loop inSingle inDouble l'
        | [] => plain
        end
      else plain
  end.

Definition NormalizeQuotesToJSON (input : list ascii) : list ascii := normalize_loop false false input.

Example normalize_example : NormalizeQuotesToJSON (bytes "{'a': 'it\'s'}") =
  bytes "{" ++ Marshal (bytes "a") ++ bytes ": " ++ cQuote :: bytes "it's" ++ cQuote :: bytes "}".
Proof. reflexivity. Qed.

(** ** Pointers and slices *)

Definition deref (p : Ptr) : M Mapper ToolCall :=
  m ← get;
  lift match p with
       | PObject n => m.(objects) !! n
       | PElem a i => arr ← m.(arrays) !! a; arr !! i
       end.

(** Replace the object that [p] points to. *)
Definition update (p : Ptr) (f : ToolCall → ToolCall) : M Mapper unit :=
  _ ← deref p;
  modify (λ m, match p with
               | PObject n => set_objects (alter f n m.(objects)) m
               | PElem a i => set_arrays (alter (alter f i) a m.(arrays)) m
               end).

(** The backing array of a slice. *)
Definition backing (m : Mapper) (s : Slice) : option (list ToolCall) :=
  match s.(array) with None => Some [] | Some a => m.(arrays) !! a end.

Section Append.
(** How much spare room the runtime gives a slice it moves. *)
Context (spare : nat → nat).

(** [m.Result.ToolCalls = append(m.Result.ToolCalls, t)]: in place while there
    is room, else in a new array. *)
Definition append_call (t : ToolCall) : M Mapper unit :=
  m ← get;
  let s := m.(ToolCalls) in
  arr ← lift (backing m s);
  match s.(array) with
  | Some a =>
      if Nat.ltb s.(len) (length arr)
      then modify (λ m, set_ToolCalls (MkSlice (Some a) (S s.(len))) (set_arrays (alter <[s.(len) := t]> a m.(arrays)) m))
      else modify (λ m, set_ToolCalls (MkSlice (Some (length m.(arrays))) (S s.(len)))
                          (set_arrays (m.(arrays) ++ [take s.(len) arr ++ t :: replicate (spare s.(len)) NewToolCall]) m))
  | None =>
      modify (λ m, set_ToolCalls (MkSlice (Some (length m.(arrays))) (S s.(len)))
                     (set_arrays (m.(arrays) ++ [take s.(len) arr ++ t :: replicate (spare s.(len)) NewToolCall]) m))
  end.

(** [&m.Result.ToolCalls\[len-1\]] *)
Definition last_call : M Mapper Ptr :=
  m ← get;
  match m.(ToolCalls).(array), m.(ToolCalls).(len) with
  | Some a, S i => mret (PElem a i)
  | _, _ => panic
  end.

(** Where the arguments are written. *)
Inductive Target := ToArguments (p : Ptr) | ToBuffer.

Definition argsTarget : M Mapper Target :=
  m ← get;
  match m.(currentTool) with
  | Some p => t ← deref p; mret (if decide (t.(Name) = []) then ToBuffer else ToArguments p)
  | None => mret ToBuffer
  end.

Definition read_target (t : Target) : M Mapper (list ascii) :=
  match t with ToArguments p => t ← deref p; mret t.(Arguments) | ToBuffer => gets argsBuffer end.

Definition write_target (t : Target) (x : list ascii) : M Mapper unit :=
  match t with ToArguments p => update p (set_Arguments x) | ToBuffer => modify (set_argsBuffer x) end.

(** [*m.argsTarget() += x] *)
Definition add_args (x : list ascii) : M Mapper unit :=
  target ← argsTarget; old ← read_target target; write_target target (old ++ x).

(** ** mapNode, one definition per tag *)

(** [if m.currentTool != nil] *)
Definition with_current (f : Ptr → M Mapper unit) : M Mapper unit :=
  m ← get; match m.(currentTool) with Some p => f p | None => mret tt end.

Definition map_tool_open : M Mapper unit :=
  m ← get;
  let p := PObject (length m.(objects)) in
  modify (λ m, set_quote false (set_argsBuffer [] (set_argCount 0 (set_current (Some p) (set_pending (Some p)
    (set_objects (m.(objects) ++ [NewToolCall]) m)))))).

Definition map_tool_id (text : list ascii) : M Mapper unit :=
  with_current (λ p, update p (set_call_ID (strip_quotes (trimTrailingSpace text)))).

Definition map_tool_name (text : list ascii) : M Mapper unit :=
  with_current (λ p,
    _ ← update p (set_Name (trimTrailingSpace text));
    m ← get; t ← deref p;
    _ ← (if decide (m.(argsBuffer) = []) then when (bool_decide (t.(Arguments) = [])) (update p (set_Arguments (bytes "{")))
         else _ ← update p (set_Arguments m.(argsBuffer)); modify (set_argsBuffer []));
    match m.(pendingToolCall) with
    | Some q =>
        tc ← deref q; _ ← append_call tc; _ ← modify (set_pending None);
        e ← last_call; modify (set_current (Some e))
    | None => mret tt
    end).

Definition map_tool_args (text : list ascii) : M Mapper unit :=
  with_current (λ _,
    let text := trimTrailingSpace text in
    when (bool_decide (head text = Some "{"%char)) (target ← argsTarget; write_target target text)).

Definition map_arg_name (text : list ascii) : M Mapper unit :=
  with_current (λ _,
    m ← get;
    let entry := (if (0 <? m.(argCount))%Z then bytes "," else []) ++ escapeJSONString (trimSpace text) ++ bytes ":" in
    _ ← modify (set_argCount (wrap64 (m.(argCount) + 1)));
    target ← argsTarget;
    old ← read_target target;
    _ ← when (bool_decide (old = [])) (write_target target (bytes "{"));
    old ← read_target target;
    write_target target (old ++ entry)).

(** The opening quote, unless a string is open. *)
Definition open_quote : M Mapper (list ascii) :=
  m ← get;
  if m.(closingQuotePend) then mret [] else _ ← modify (set_quote true); mret [cQuote].

Definition map_arg_string (text : list ascii) : M Mapper unit :=
  with_current (λ _,
    let content := trimOneSpace text in
    valueToAdd ← (if decide (content = []) then _ ← modify (set_quote true); mret [cQuote]
                  else q ← open_quote; mret (q ++ EscapeJSONStringInner content));
    add_args valueToAdd).

(** The value of an argument as it is added: its text for JSON other than a
    string, else the inside of a string literal left open. *)
Definition map_arg_value (text : list ascii) (isPartial : bool) : M Mapper unit :=
  with_current (λ _,
    let content := trimOneSpace text in
    valueToAdd ← match content with
      | [] => mret []
      | c :: _ =>
          let container := Ascii.eqb c "[" || Ascii.eqb c "{" in
          let content := if container then NormalizeQuotesToJSON content else content in
          if Valid content then
            let parsed := RawMessage content in
            if decide (head parsed = Some cQuote) then
              str ← lift (unquote parsed);
              _ ← modify (set_quote true); mret (cQuote :: escape str)
            else mret content
          else if isPartial && container then mret content
          else q ← open_quote; mret (q ++ EscapeJSONStringInner content)
      end;
    add_args valueToAdd).

Definition map_arg_close : M Mapper unit :=
  with_current (λ _, m ← get; when m.(closingQuotePend) (_ ← add_args [cQuote]; modify (set_quote false))).

(** [for depth := ...; depth > 0; depth-- { Arguments += "}" }] *)
Definition close_braces (args : list ascii) : list ascii := args ++ replicate (Z.to_nat (jsonBraceDepth args)) "}"%char.

Definition map_tool_close : M Mapper unit :=
  with_current (λ p,
    t ← deref p; m ← get;
    _ ← when (bool_decide (t.(Name) = []) && negb (bool_decide (m.(argsBuffer) = [])))
          (_ ← update p (set_Arguments m.(argsBuffer)); modify (set_argsBuffer []));
    _ ← when m.(closingQuotePend) (_ ← update p (λ t, set_Arguments (t.(Arguments) ++ [cQuote]) t); modify (set_quote false));
    _ ← update p (λ t, set_Arguments (close_braces t.(Arguments)) t);
    m ← get;
    match m.(pendingToolCall) with
    | Some q =>
        t ← deref p;
        _ ← when (negb (bool_decide (t.(Name) = []))) (tc ← deref q; append_call tc);
        modify (set_pending None)
    | None => mret tt
    end).

Definition TagReasoning := "reasoning".
Definition TagContent := "content".
Definition TagToolOpen := "tool-open".
Definition TagToolClose := "tool-close".
Definition TagToolID := "tool-id".
Definition TagToolName := "tool-name".
Definition TagToolArgs := "tool-args".
Definition TagToolArgOpen := "tool-arg-open".
Definition TagToolArgClose := "tool-arg-close".
Definition TagToolArgName := "tool-arg-name".
Definition TagToolArgValue := "tool-arg-value".
Definition TagToolArgStrVal := "tool-arg-string-value".

Definition mapNode (node : AstNode) : M Mapper unit :=
  let tagged := String.eqb node.(Tag) in
  if tagged TagReasoning then modify (λ m, set_ReasoningContent (m.(ReasoningContent) ++ node.(Text)) m)
  else if tagged TagContent then modify (λ m, set_Content (m.(Content) ++ node.(Text)) m)
  else if tagged TagToolOpen then map_tool_open
  else if tagged TagToolID then map_tool_id node.(Text)
  else if tagged TagToolName then map_tool_name node.(Text)
  else if tagged TagToolArgs then map_tool_args node.(Text)
  else if tagged TagToolArgOpen then modify (set_quote false)
  else if tagged TagToolArgName then map_arg_name node.(Text)
  else if tagged TagToolArgStrVal then map_arg_string node.(Text)
  else if tagged TagToolArgValue then map_arg_value node.(Text) node.(node_IsPartial)
  else if tagged TagToolArgClose then map_arg_close
  else if tagged TagToolClose then map_tool_close
  else mret tt.

(** The flush at the end of [FromAST]. *)
Definition flush_pending : M Mapper unit :=
  m ← get;
  match m.(pendingToolCall) with
  | Some q =>
      t ← deref q;
      when (negb (bool_decide (t.(Name) = [])))
        (_ ← when (negb (bool_decide (m.(argsBuffer) = []))) (update q (set_Arguments m.(argsBuffer)));
         t ← deref q;
         _ ← when (m.(closingQuotePend) && negb (bool_decide (t.(Arguments) = [])))
               (update q (λ t, set_Arguments (t.(Arguments) ++ [cQuote]) t));
         tc ← deref q; _ ← append_call tc; modify (set_pending None))
  | None => mret tt
  end.

Definition FromAST (ast : AstArena) (result : ParseResult) : M Mapper unit :=
  nodes ← lift (VisitResult (S (length ast)) ast result);
  _ ← for_each nodes mapNode; flush_pending.
End Append.

(** [m.Result.ToolCalls] as a reader sees it. *)
Definition calls (m : Mapper) : list ToolCall := take m.(ToolCalls).(len) (default [] (backing m m.(ToolCalls))).
