(* ===== verification/PegText.v ===== *)
(** * PegText: what the mapper may do to a text

    Specifications, without the code's loops, of the three things that happen
    to the texts of a call before they become JSON: white space is trimmed at
    the ends, Python-style strings are requoted ([NormalizeQuotesToJSON] in
    [chat.go]), and what is not UTF-8 is replaced; and the proofs that the
    functions of [PegMapper] and [GoJson] do that and nothing else. *)
From Stdlib Require Import Ascii.
From S2P Require Import Prelude GoMonad PegTypes PegJson GoJson PegMapper.

(** ** Trimming *)

Definition blank (l : list ascii) : Prop := forallb isWhitespace l = true.
Definition starts_blank (l : list ascii) : Prop := ∃ c, head l = Some c ∧ isWhitespace c = true.
Definition ends_blank (l : list ascii) : Prop := ∃ c, last l = Some c ∧ isWhitespace c = true.

(** [t] is [text] without one character of white space at each end, where
    there is one. *)
Definition trims_one (text t : list ascii) : Prop :=
  ∃ a b, text = a ++ t ++ b ∧ blank a ∧ blank b ∧ length a ≤ 1 ∧ length b ≤ 1 ∧
    (a = [] → ¬ starts_blank text) ∧ (b = [] → ¬ ends_blank t).

(** [t] is [text] without all the white space at its end. *)
Definition trims_end (text t : list ascii) : Prop := ∃ b, text = t ++ b ∧ blank b ∧ ¬ ends_blank t.

(** The same, and without one character of it at the beginning. *)
Definition trims_key (text t : list ascii) : Prop :=
  ∃ a u, text = a ++ u ∧ blank a ∧ length a ≤ 1 ∧ (a = [] → ¬ starts_blank text) ∧ trims_end u t.

Lemma trim_head_spec max l :
  ∃ a, l = a ++ trim_head max l ∧ blank a ∧
    match max with
    | Some n => length a ≤ n ∧ (length a < n → ¬ starts_blank (trim_head max l))
    | None => ¬ starts_blank (trim_head max l)
    end.
Proof.
  revert max. induction l as [|c l IH]; intros max.
  { exists []. assert (¬ starts_blank []) by by intros (? & ? & _). by destruct max; split_and!; simpl; (done || lia). }
  assert (Hstay : isWhitespace c = false → ¬ starts_blank (c :: l)) by (intros Hc (x & [= <-] & Hx); congruence).
  simpl. destruct (isWhitespace c) eqn:Hc; [|by exists []; destruct max; split_and!; simpl; auto with lia].
  destruct max as [[|n]|].
  - exists []. split_and!; simpl; [done|done|lia|lia].
  - destruct (IH (Some n)) as (a & Hl & Ha & Hlen & Hne). exists (c :: a). unfold blank. simpl. rewrite Hc, Ha.
    split_and!; [by rewrite Hl at 1|done|lia|]. intros ?. apply Hne. lia.
  - destruct (IH None) as (a & Hl & Ha & Hne). exists (c :: a). unfold blank. simpl. rewrite Hc, Ha.
    split_and!; [by rewrite Hl at 1|done|done].
Qed.

Lemma blank_reverse l : blank l → blank (reverse l).
Proof.
  unfold blank. rewrite !forallb_forall. intros H x Hx. apply H. rewrite <- list_elem_of_In in Hx |- *. by rewrite <- elem_of_reverse.
Qed.

Lemma ends_reverse l : ends_blank (reverse l) ↔ starts_blank l.
Proof. unfold ends_blank, starts_blank. destruct l as [|c l]; [done|]. by rewrite reverse_cons, last_snoc. Qed.

Lemma trim_tail_spec max l : let t := reverse (trim_head max (reverse l)) in
  ∃ b, l = t ++ b ∧ blank b ∧
    match max with
    | Some n => length b ≤ n ∧ (length b < n → ¬ ends_blank t)
    | None => ¬ ends_blank t
    end.
Proof.
  cbv zeta. destruct (trim_head_spec max (reverse l)) as (a & Hl & Ha & H). exists (reverse a).
  split_and!; [by rewrite <- reverse_app, <- Hl, reverse_involutive|by apply blank_reverse|].
  rewrite length_reverse. by destruct max; rewrite ends_reverse.
Qed.

Lemma trimTrailingSpace_spec text : trims_end text (trimTrailingSpace text).
Proof. destruct (trim_tail_spec None text) as (b & H1 & H2 & H3). by exists b. Qed.

Lemma trim_leading text : ∃ a, text = a ++ trimLeadingSpace text 1 ∧ blank a ∧ length a ≤ 1 ∧ (a = [] → ¬ starts_blank text).
Proof.
  destruct (trim_head_spec (Some 1) text) as (a & Hl & Ha & Hlen & Hne). exists a. split_and!; try done.
  intros ->. rewrite Hl. apply Hne. simpl. lia.
Qed.

Lemma trimSpace_spec text : trims_key text (trimSpace text).
Proof. destruct (trim_leading text) as (a & ?). exists a, (trimLeadingSpace text 1). destruct_and?. split_and!; auto using trimTrailingSpace_spec. Qed.

Lemma trimOneSpace_spec text : trims_one text (trimOneSpace text).
Proof.
  destruct (trim_leading text) as (a & Hl & Ha & Hlen & Hne).
  destruct (trim_tail_spec (Some 1) (trimLeadingSpace text 1)) as (b & Hr & Hb & Hlb & Hnb).
  exists a, b. split_and!; try done; [by rewrite Hl at 1; rewrite Hr at 1|]. intros ->. apply Hnb. simpl. lia.
Qed.

(** ** Requoting *)

Abbreviation apostrophe := "'"%char.

(** The inside of a double-quoted string: characters, and characters after a
    backslash. *)
Inductive in_double : list ascii → Prop :=
| double_nil : in_double []
| double_char c l : c ≠ cQuote → c ≠ cBackslash → in_double l → in_double (c :: l)
| double_escape c l : in_double l → in_double (cBackslash :: c :: l).

(** The inside of a single-quoted string and of its double-quoted form: an
    apostrophe loses its backslash, a double quote gets one. *)
Inductive in_single : list ascii → list ascii → Prop :=
| single_nil : in_single [] []
| single_char c l l' : c ≠ apostrophe → c ≠ cQuote → c ≠ cBackslash → in_single l l' → in_single (c :: l) (c :: l')
| single_quote l l' : in_single l l' → in_single (cQuote :: l) (cBackslash :: cQuote :: l')
| single_apostrophe l l' : in_single l l' → in_single (cBackslash :: apostrophe :: l) (apostrophe :: l')
| single_escape c l l' : c ≠ apostrophe → in_single l l' → in_single (cBackslash :: c :: l) (cBackslash :: c :: l').

(** A text and the same with its single-quoted strings double-quoted.  A string
    may be cut off by the end of the text, also after a backslash. *)
Inductive requoted : list ascii → list ascii → Prop :=
| requoted_nil : requoted [] []
| requoted_char c l l' : c ≠ cQuote → c ≠ apostrophe → requoted l l' → requoted (c :: l) (c :: l')
| requoted_double s l l' : in_double s → requoted l l' → requoted (cQuote :: s ++ cQuote :: l) (cQuote :: s ++ cQuote :: l')
| requoted_single s s' l l' : in_single s s' → requoted l l' →
    requoted (apostrophe :: s ++ apostrophe :: l) (cQuote :: s' ++ cQuote :: l')
| requoted_double_open s e : in_double s → e = [] ∨ e = [cBackslash] → requoted (cQuote :: s ++ e) (cQuote :: s ++ e)
| requoted_single_open s s' e : in_single s s' → e = [] ∨ e = [cBackslash] →
    requoted (apostrophe :: s ++ e) (cQuote :: s' ++ e).

(** The loop in a double-quoted string, to its end or to that of the text. *)
Lemma normalize_double l :
  (∃ s l', l = s ++ cQuote :: l' ∧ in_double s ∧ normalize_loop false true l = s ++ cQuote :: normalize_loop false false l') ∨
  (∃ s e, l = s ++ e ∧ in_double s ∧ (e = [] ∨ e = [cBackslash]) ∧ normalize_loop false true l = l).
Proof.
  remember (length l) as n eqn:Hn. revert l Hn. induction (lt_wf n) as [n _ IH]. intros l ->.
  destruct l as [|c l]; [right; exists [], []; split_and!; auto; constructor|].
  assert (Hrec : ∀ pre l1, (∀ s, in_double s → in_double (pre ++ s)) → c :: l = pre ++ l1 → length l1 < length (c :: l) →
    normalize_loop false true (c :: l) = pre ++ normalize_loop false true l1 →
    (∃ s l', c :: l = s ++ cQuote :: l' ∧ in_double s ∧
       normalize_loop false true (c :: l) = s ++ cQuote :: normalize_loop false false l') ∨
    (∃ s e, c :: l = s ++ e ∧ in_double s ∧ (e = [] ∨ e = [cBackslash]) ∧ normalize_loop false true (c :: l) = c :: l)).
  { intros pre l1 Hpre Hl Hlen Heq. destruct (IH _ Hlen l1 eq_refl) as [(s & l' & -> & Hs & Hn)|(s & e & -> & Hs & He & Hn)].
    - left. exists (pre ++ s), l'. rewrite Heq, Hn, Hl, <- !app_assoc. auto.
    - right. exists (pre ++ s), e. rewrite Heq, Hn, Hl, <- !app_assoc. auto. }
  destruct (Ascii.eqb_spec c cBackslash) as [->|Hb].
  - destruct l as [|d l]; [right; exists [], [cBackslash]; split_and!; auto; constructor|].
    apply (Hrec [cBackslash; d] l); [intros; by constructor|done|simpl; lia|done].
  - destruct (Ascii.eqb_spec c cQuote) as [->|Hq]; [left; exists [], l; split_and!; [done|constructor|done]|].
    apply (Hrec [c] l); [intros; by constructor|done|simpl; lia|].
    cbn [normalize_loop]. rewrite (proj2 (Ascii.eqb_neq _ _) Hb), (proj2 (Ascii.eqb_neq _ _) Hq). by destruct (Ascii.eqb c apostrophe).
Qed.

Lemma normalize_single l :
  (∃ s s' l', l = s ++ apostrophe :: l' ∧ in_single s s' ∧ normalize_loop true false l = s' ++ cQuote :: normalize_loop false false l') ∨
  (∃ s s' e, l = s ++ e ∧ in_single s s' ∧ (e = [] ∨ e = [cBackslash]) ∧ normalize_loop true false l = s' ++ e).
Proof.
  remember (length l) as n eqn:Hn. revert l Hn. induction (lt_wf n) as [n _ IH]. intros l ->.
  destruct l as [|c l]; [right; exists [], [], []; split_and!; auto; constructor|].
  assert (Hrec : ∀ pre pre' l1, (∀ s s', in_single s s' → in_single (pre ++ s) (pre' ++ s')) → c :: l = pre ++ l1 →
    length l1 < length (c :: l) → normalize_loop true false (c :: l) = pre' ++ normalize_loop true false l1 →
    (∃ s s' l', c :: l = s ++ apostrophe :: l' ∧ in_single s s' ∧
       normalize_loop true false (c :: l) = s' ++ cQuote :: normalize_loop false false l') ∨
    (∃ s s' e, c :: l = s ++ e ∧ in_single s s' ∧ (e = [] ∨ e = [cBackslash]) ∧ normalize_loop true false (c :: l) = s' ++ e)).
  { intros pre pre' l1 Hpre Hl Hlen Heq.
    destruct (IH _ Hlen l1 eq_refl) as [(s & s' & l' & -> & Hs & Hn)|(s & s' & e & -> & Hs & He & Hn)].
    - left. exists (pre ++ s), (pre' ++ s'), l'. rewrite Heq, Hn, Hl, <- !app_assoc. auto.
    - right. exists (pre ++ s), (pre' ++ s'), e. rewrite Heq, Hn, Hl, <- !app_assoc. auto. }
  destruct (Ascii.eqb_spec c cBackslash) as [->|Hb].
  - destruct l as [|d l]; [right; exists [], [], [cBackslash]; split_and!; auto; constructor|].
    destruct (Ascii.eqb_spec d apostrophe) as [->|Hd].
    { apply (Hrec [cBackslash; apostrophe] [apostrophe] l); [intros; by constructor|done|simpl; lia|done]. }
    apply (Hrec [cBackslash; d] [cBackslash; d] l); [intros; by constructor|done|simpl; lia|].
    cbn [normalize_loop]. change (Ascii.eqb cBackslash cBackslash) with true. cbv iota. rewrite (proj2 (Ascii.eqb_neq _ _) Hd).
    by destruct (Ascii.eqb_spec d cQuote) as [->|].
  - destruct (Ascii.eqb_spec c cQuote) as [->|Hq].
    { apply (Hrec [cQuote] [cBackslash; cQuote] l); [intros; by constructor|done|simpl; lia|done]. }
    destruct (Ascii.eqb_spec c apostrophe) as [->|Ha]; [left; exists [], [], l; split_and!; [done|constructor|done]|].
    apply (Hrec [c] [c] l); [intros; by constructor|done|simpl; lia|].
    cbn [normalize_loop]. by rewrite (proj2 (Ascii.eqb_neq _ _) Hb), (proj2 (Ascii.eqb_neq _ _) Hq), (proj2 (Ascii.eqb_neq _ _) Ha).
Qed.

Lemma normalize_requoted l : requoted l (NormalizeQuotesToJSON l).
Proof.
  unfold NormalizeQuotesToJSON. remember (length l) as n eqn:Hn. revert l Hn. induction (lt_wf n) as [n _ IH]. intros l ->.
  destruct l as [|c l]; [constructor|].
  destruct (Ascii.eqb_spec c cQuote) as [->|Hq].
  { change (normalize_loop false false (cQuote :: l)) with (cQuote :: normalize_loop false true l).
    destruct (normalize_double l) as [(s & l' & -> & Hs & ->)|(s & e & Hl & Hs & He & ->)].
    - constructor; [done|]. eapply IH; [|done]. simpl. rewrite length_app. simpl. lia.
    - rewrite Hl. by constructor. }
  destruct (Ascii.eqb_spec c apostrophe) as [->|Ha].
  { change (normalize_loop false false (apostrophe :: l)) with (cQuote :: normalize_loop true false l).
    destruct (normalize_single l) as [(s & s' & l' & -> & Hs & ->)|(s & s' & e & -> & Hs & He & ->)].
    - constructor; [done|]. eapply IH; [|done]. simpl. rewrite length_app. simpl. lia.
    - by constructor. }
  replace (normalize_loop false false (c :: l)) with (c :: normalize_loop false false l).
  { constructor; [done|done|]. eapply IH; [|done]. simpl. lia. }
  cbn [normalize_loop]. rewrite (proj2 (Ascii.eqb_neq _ _) Hq), (proj2 (Ascii.eqb_neq _ _) Ha).
  by destruct (Ascii.eqb c cBackslash), l.
Qed.

(** The relation is a function: the one the code computes. *)
Lemma in_double_run s r : in_double s → normalize_loop false true (s ++ r) = s ++ normalize_loop false true r.
Proof.
  induction 1 as [|c s Hq Hb Hs IH|c s Hs IH]; [done| |simpl; by rewrite <- IH].
  simpl. rewrite (proj2 (Ascii.eqb_neq _ _) Hb), (proj2 (Ascii.eqb_neq _ _) Hq), IH. by destruct (Ascii.eqb c apostrophe).
Qed.

Lemma in_single_run s s' r : in_single s s' → normalize_loop true false (s ++ r) = s' ++ normalize_loop true false r.
Proof.
  induction 1 as [|c s s' Ha Hq Hb Hs IH|s s' Hs IH|s s' Hs IH|c s s' Hc Hs IH]; [done|..].
  - simpl. by rewrite (proj2 (Ascii.eqb_neq _ _) Hb), (proj2 (Ascii.eqb_neq _ _) Hq), (proj2 (Ascii.eqb_neq _ _) Ha), IH.
  - simpl. by rewrite IH.
  - simpl. by rewrite IH.
  - simpl. rewrite (proj2 (Ascii.eqb_neq _ _) Hc), IH. by destruct (Ascii.eqb_spec c cQuote) as [->|].
Qed.

Lemma requoted_normalize l l' : requoted l l' ↔ l' = NormalizeQuotesToJSON l.
Proof.
  split; [|intros ->; apply normalize_requoted]. unfold NormalizeQuotesToJSON.
  induction 1 as [|c l l' Hq Ha _ IH|s l l' Hs _ IH|s s' l l' Hs _ IH|s e Hs He|s s' e Hs He]; [done|..].
  - cbn [normalize_loop]. rewrite (proj2 (Ascii.eqb_neq _ _) Hq), (proj2 (Ascii.eqb_neq _ _) Ha), <- IH.
    by destruct (Ascii.eqb c cBackslash), l; inversion IH.
  - change (normalize_loop false false (cQuote :: ?x)) with (cQuote :: normalize_loop false true x).
    rewrite (in_double_run s _ Hs). simpl. by rewrite <- IH.
  - change (normalize_loop false false (apostrophe :: ?x)) with (cQuote :: normalize_loop true false x).
    rewrite (in_single_run s s' _ Hs). simpl. by rewrite <- IH.
  - change (normalize_loop false false (cQuote :: ?x)) with (cQuote :: normalize_loop false true x).
    rewrite (in_double_run s _ Hs). by destruct He as [-> | ->].
  - change (normalize_loop false false (apostrophe :: ?x)) with (cQuote :: normalize_loop true false x).
    rewrite (in_single_run s s' _ Hs). by destruct He as [-> | ->].
Qed.

(** A text without apostrophes stays as it is. *)
Lemma requoted_plain l l' : requoted l l' → apostrophe ∉ l → l' = l.
Proof.
  induction 1 as [|c l l' Hq Ha _ IH|s l l' Hs _ IH|s s' l l' Hs _ IH|s e Hs He|s s' e Hs He]; intros Hn; try done.
  - f_equal. apply IH. set_solver.
  - do 3 f_equal. apply IH. set_solver.
  - exfalso. apply Hn. by left.
  - exfalso. apply Hn. by left.
Qed.

(** ** UTF-8 *)

(** A text of characters in UTF-8. *)
Definition utf8 (s : list ascii) : Prop := ∃ rs, Forall (λ r, scalar r = true) rs ∧ s = concat (map EncodeRune rs).

Lemma utf8_nil : utf8 [].
Proof. by exists []. Qed.

Lemma utf8_cons r s : scalar r = true → utf8 s → utf8 (EncodeRune r ++ s).
Proof. intros Hr (rs & Hrs & ->). exists (r :: rs). split; [by constructor|done]. Qed.

Lemma utf8_ascii c s : (code c < 0x80)%Z → utf8 s → utf8 (c :: s).
Proof.
  intros Hc Hs.
  change (c :: s) with ([c] ++ s). rewrite <- (encode_ascii c Hc). apply utf8_cons; [|done].
  unfold scalar. pose proof (code_bound c). by rewrite (proj2 (between_spec _ _ _)) by lia.
Qed.

Lemma decode_encode r rest : scalar r = true → DecodeRuneInString (EncodeRune r ++ rest) = (r, length (EncodeRune r)).
Proof. intros Hr. apply decode_sequence. rewrite EncodeRune_bytes by done. by apply rune_sequence. Qed.

(** Nothing is replaced in UTF-8. *)
Lemma ToValidUTF8_id s : utf8 s → ToValidUTF8 s = s.
Proof.
  intros (rs & Hrs & ->). unfold ToValidUTF8.
  enough (∀ n, length (concat (map EncodeRune rs)) ≤ n → valid_loop n (concat (map EncodeRune rs)) = concat (map EncodeRune rs))
    as H by by apply H.
  induction Hrs as [|r rs Hr Hrs IH]; intros n Hn; [by destruct n|]. simpl in *. rewrite length_app in Hn.
  pose proof (decode_encode r (concat (map EncodeRune rs)) Hr) as Hd.
  destruct (EncodeRune r ++ concat (map EncodeRune rs)) as [|c l] eqn:Hl.
  { apply app_eq_nil in Hl as [He _]. pose proof (EncodeRune_bytes r Hr) as Hb. rewrite He in Hb.
    unfold rune_bytes in Hb. by repeat case_match. }
  assert (1 ≤ length (EncodeRune r)) by (eapply decode_size; [exact Hd|done]).
  destruct n as [|n]; [lia|]. cbn [valid_loop]. rewrite Hd, <- Hl, drop_app_length. f_equal. apply IH. lia.
Qed.

Lemma decode_scalar s r n : DecodeRuneInString s = (r, n) → scalar r = true.
Proof. intros [(pre & rest & _ & _ & [H _]%sequence_rune)|[-> _]]%decode_cases; done. Qed.

Lemma getu4_bound s r : getu4 s = Some r → (0 ≤ r < 0x10000)%Z.
Proof.
  unfold getu4. intros H. repeat (case_match; try done).
  assert (Hd : ∀ c d, hex_digit c = Some d → (0 ≤ d < 16)%Z).
  { intros c d. unfold hex_digit. repeat case_match; rewrite ?between_spec in *; intros [= <-]; lia. }
  repeat match type of H with context [hex_digit ?c] => destruct (hex_digit c) eqn:?; [|done]; simpl in H end.
  repeat match goal with E : hex_digit _ = Some _ |- _ => apply Hd in E end. injection H as <-. lia.
Qed.

Lemma surrogates_scalar r1 r2 d : decode_surrogates r1 r2 = Some d → scalar d = true.
Proof.
  unfold decode_surrogates. destruct r2 as [r2|]; [|done]. destruct (between _ _ r1 && between _ _ r2) eqn:Hb; [|done].
  apply andb_true_iff in Hb as [H1%between_spec H2%between_spec]. intros [= <-].
  unfold scalar. rewrite orb_true_iff, !between_spec. right.
  rewrite Z.shiftl_mul_pow2 by lia. rewrite <- Z.add_nocarry_lor by
    (apply Z.bits_inj'; intros i Hi; rewrite Z.land_spec, Z.bits_0;
     destruct (Z.ltb_spec i 10); [rewrite Z.mul_pow2_bits_low by lia; done|];
     rewrite andb_comm, (Z.bits_above_log2 (r2 - 0xDC00)); [done|lia|];
     destruct (Z.eqb_spec (r2 - 0xDC00) 0) as [->|]; [simpl; lia|];
     apply Z.log2_lt_pow2; [lia|]; apply Z.lt_le_trans with (2 ^ 10)%Z; [lia|apply Z.pow_le_mono_r; lia]).
  lia.
Qed.

(** What a string literal is read as is UTF-8. *)
Lemma unquote_loop_utf8 n s t : unquote_loop n s = Some t → utf8 t.
Proof.
  revert s t. induction n as [|n IH]; intros s t; [destruct s; [intros [= <-]; apply utf8_nil|done]|].
  destruct s as [|c s]; [intros [= <-]; apply utf8_nil|]. cbn [unquote_loop].
  assert (Hrune : ∀ r s', scalar r = true → (t ← unquote_loop n s'; Some (EncodeRune r ++ t)) = Some t → utf8 t).
  { intros r s' Hr. destruct (unquote_loop n s') as [t'|] eqn:Ht; [|done]. intros [= <-]. apply utf8_cons; [done|by eapply IH]. }
  assert (Hbyte : ∀ b s', (code b < 0x80)%Z → (t ← unquote_loop n s'; Some (b :: t)) = Some t → utf8 t).
  { intros b s' Hb. destruct (unquote_loop n s') as [t'|] eqn:Ht; [|done]. intros [= <-]. apply utf8_ascii; [done|by eapply IH]. }
  destruct (Ascii.eqb c cBackslash).
  - destruct s as [|e s]; [done|]. destruct (Ascii.eqb e "u").
    + destruct (getu4 (c :: e :: s)) as [rr|] eqn:Hg; [|done]. apply getu4_bound in Hg.
      change (Some rr ≫= ?f) with (f rr). cbv beta.
      destruct (between 0xD800 0xDFFF rr) eqn:Hb; [destruct (decode_surrogates _ _) eqn:Hd|].
      * apply Hrune. by eapply surrogates_scalar.
      * by apply (Hrune RuneError).
      * apply Hrune. unfold scalar. rewrite orb_true_iff, !between_spec. unfold between in Hb. lia.
    + destruct (simple_escape e) as [b|] eqn:Hs; [|done]. apply Hbyte. unfold simple_escape in Hs.
      repeat (case_match; simplify_eq); try done. rewrite !orb_true_iff, !Ascii.eqb_eq in *. by destruct_or!; subst.
  - destruct (_ || _); [done|]. destruct (code c <? 0x80)%Z eqn:Hc; [apply Hbyte; lia|].
    destruct (DecodeRuneInString (c :: s)) as [r size] eqn:Hd. apply Hrune. by eapply decode_scalar.
Qed.

Lemma unquote_utf8 s t : unquote s = Some t → utf8 t.
Proof.
  unfold unquote. intros H. repeat (case_match; try done). by eapply unquote_loop_utf8.
Qed.
