(* ===== verification/PegMapping.v ===== *)
(** * PegMapping: what the mapper computes, without its pointers

    The calls read so far and the place of the current one in a plain state
    [View], with one function per tag.  [mapNode] implements it whatever room
    the runtime gives its slices: the pointers of the mapper never dangle and
    never miss an update of the results. *)
From Stdlib Require Import Ascii.
From S2P Require Import Prelude GoMonad PegTypes PegJson GoJson PegMapper.

(** ** The specification *)

(** The current call: none, one without a name yet, one that was closed
    without a name, or the last of the results. *)
Inductive Cur := NoTool | Unnamed (t : ToolCall) | Dropped (t : ToolCall) | Listed.

Record View := MkView {
  v_content : list ascii;
  v_reasoning : list ascii;
  v_calls : list ToolCall;
  v_cur : Cur;
  v_count : Z;
  v_quote : bool;
  v_buffer : list ascii;
}.

Definition NewView : View := MkView [] [] [] NoTool 0 false [].

Definition v_set_content x v := MkView x v.(v_reasoning) v.(v_calls) v.(v_cur) v.(v_count) v.(v_quote) v.(v_buffer).
Definition v_set_reasoning x v := MkView v.(v_content) x v.(v_calls) v.(v_cur) v.(v_count) v.(v_quote) v.(v_buffer).
Definition v_set_calls x v := MkView v.(v_content) v.(v_reasoning) x v.(v_cur) v.(v_count) v.(v_quote) v.(v_buffer).
Definition v_set_cur x v := MkView v.(v_content) v.(v_reasoning) v.(v_calls) x v.(v_count) v.(v_quote) v.(v_buffer).
Definition v_set_count x v := MkView v.(v_content) v.(v_reasoning) v.(v_calls) v.(v_cur) x v.(v_quote) v.(v_buffer).
Definition v_set_quote x v := MkView v.(v_content) v.(v_reasoning) v.(v_calls) v.(v_cur) v.(v_count) x v.(v_buffer).
Definition v_set_buffer x v := MkView v.(v_content) v.(v_reasoning) v.(v_calls) v.(v_cur) v.(v_count) v.(v_quote) x.

Definition cur_get (v : View) : option ToolCall :=
  match v.(v_cur) with NoTool => None | Unnamed t | Dropped t => Some t | Listed => last v.(v_calls) end.

Definition update_last (f : ToolCall → ToolCall) (l : list ToolCall) : list ToolCall := alter f (length l - 1) l.

Definition cur_update (f : ToolCall → ToolCall) (v : View) : View :=
  match v.(v_cur) with
  | NoTool => v
  | Unnamed t => v_set_cur (Unnamed (f t)) v
  | Dropped t => v_set_cur (Dropped (f t)) v
  | Listed => v_set_calls (update_last f v.(v_calls)) v
  end.

(** Arguments go to the current call once it has a name, else to the buffer. *)
Definition named (v : View) : bool :=
  match cur_get v with Some t => negb (bool_decide (t.(Name) = [])) | None => false end.

Definition args_get (v : View) : list ascii :=
  if named v then match cur_get v with Some t => t.(Arguments) | None => [] end else v.(v_buffer).

Definition args_set (x : list ascii) (v : View) : View :=
  if named v then cur_update (set_Arguments x) v else v_set_buffer x v.

Definition args_add (x : list ascii) (v : View) : View := args_set (args_get v ++ x) v.

Definition if_current (f : View → View) (v : View) : View := match cur_get v with Some _ => f v | None => v end.

Definition view_open (v : View) : View := MkView v.(v_content) v.(v_reasoning) v.(v_calls) (Unnamed NewToolCall) 0 false [].

Definition view_id (text : list ascii) : View → View :=
  if_current (cur_update (set_call_ID (strip_quotes (trimTrailingSpace text)))).

(** Take over the buffered arguments, or start an object. *)
Definition start_args (v : View) : View :=
  if decide (v.(v_buffer) = [])
  then cur_update (λ t, if decide (t.(Arguments) = []) then set_Arguments (bytes "{") t else t) v
  else v_set_buffer [] (cur_update (set_Arguments v.(v_buffer)) v).

Definition list_current (v : View) : View :=
  match v.(v_cur) with Unnamed t => v_set_cur Listed (v_set_calls (v.(v_calls) ++ [t]) v) | _ => v end.

Definition view_name (text : list ascii) : View → View :=
  if_current (λ v, list_current (start_args (cur_update (set_Name (trimTrailingSpace text)) v))).

Definition view_args (text : list ascii) : View → View :=
  if_current (λ v, let text := trimTrailingSpace text in
    if decide (head text = Some "{"%char) then args_set text v else v).

(** The key of an argument, as it is added: the separator first. *)
Definition key_entry (count : Z) (text : list ascii) : list ascii :=
  (if (0 <? count)%Z then bytes "," else []) ++ escapeJSONString (trimSpace text) ++ bytes ":".

Definition view_arg_name (text : list ascii) : View → View :=
  if_current (λ v,
    let entry := key_entry v.(v_count) text in
    let v := v_set_count (wrap64 (v.(v_count) + 1)) v in
    let v := if decide (args_get v = []) then args_set (bytes "{") v else v in
    args_add entry v).

Definition quoted (open : bool) (s : list ascii) : list ascii := (if open then [] else [cQuote]) ++ s.

Definition view_arg_string (text : list ascii) : View → View :=
  if_current (λ v,
    let content := trimOneSpace text in
    let x := if decide (content = []) then [cQuote] else quoted v.(v_quote) (EscapeJSONStringInner content) in
    args_add x (v_set_quote true v)).

(** What the text of a value adds, and whether it leaves a string open. *)
Definition value_json (content : list ascii) : list ascii :=
  if decide (head content = Some "["%char ∨ head content = Some "{"%char) then NormalizeQuotesToJSON content else content.

Definition value_added (text : list ascii) (isPartial open : bool) : list ascii * bool :=
  match trimOneSpace text with
  | [] => ([], open)
  | c :: l =>
      let content := value_json (c :: l) in
      if Valid content then
        if decide (head (RawMessage content) = Some cQuote)
        then (cQuote :: escape (default [] (unquote (RawMessage content))), true)
        else (content, open)
      else if isPartial && (Ascii.eqb c "[" || Ascii.eqb c "{") then (content, open)
      else (quoted open (EscapeJSONStringInner content), true)
  end.

Definition view_arg_value (text : list ascii) (isPartial : bool) : View → View :=
  if_current (λ v, let '(x, q) := value_added text isPartial v.(v_quote) in args_add x (v_set_quote q v)).

Definition view_arg_close : View → View :=
  if_current (λ v, if v.(v_quote) then v_set_quote false (args_add [cQuote] v) else v).

Definition view_tool_close : View → View :=
  if_current (λ v,
    let v := if negb (named v) && negb (bool_decide (v.(v_buffer) = []))
             then v_set_buffer [] (cur_update (set_Arguments v.(v_buffer)) v) else v in
    let v := if v.(v_quote) then v_set_quote false (cur_update (λ t, set_Arguments (t.(Arguments) ++ [cQuote]) t) v) else v in
    let v := cur_update (λ t, set_Arguments (close_braces t.(Arguments)) t) v in
    match v.(v_cur) with
    | Unnamed t => v_set_cur (Dropped t) (if decide (t.(Name) = []) then v else v_set_calls (v.(v_calls) ++ [t]) v)
    | _ => v
    end).

Definition view_node (node : AstNode) (v : View) : View :=
  let tagged := String.eqb node.(Tag) in
  if tagged TagReasoning then v_set_reasoning (v.(v_reasoning) ++ node.(Text)) v
  else if tagged TagContent then v_set_content (v.(v_content) ++ node.(Text)) v
  else if tagged TagToolOpen then view_open v
  else if tagged TagToolID then view_id node.(Text) v
  else if tagged TagToolName then view_name node.(Text) v
  else if tagged TagToolArgs then view_args node.(Text) v
  else if tagged TagToolArgOpen then v_set_quote false v
  else if tagged TagToolArgName then view_arg_name node.(Text) v
  else if tagged TagToolArgStrVal then view_arg_string node.(Text) v
  else if tagged TagToolArgValue then view_arg_value node.(Text) node.(node_IsPartial) v
  else if tagged TagToolArgClose then view_arg_close v
  else if tagged TagToolClose then view_tool_close v
  else v.

Definition view_nodes (nodes : list AstNode) (v : View) : View := foldl (λ v n, view_node n v) v nodes.

(** ** The pointers implement it *)

Definition pointers (m : Mapper) (c : Cur) : Prop :=
  match c with
  | NoTool => m.(pendingToolCall) = None ∧ m.(currentTool) = None
  | Unnamed t => ∃ n, m.(pendingToolCall) = Some (PObject n) ∧ m.(currentTool) = Some (PObject n) ∧ m.(objects) !! n = Some t
  | Dropped t => ∃ n, m.(pendingToolCall) = None ∧ m.(currentTool) = Some (PObject n) ∧ m.(objects) !! n = Some t
  | Listed => ∃ a i, m.(pendingToolCall) = None ∧ m.(currentTool) = Some (PElem a i) ∧
      m.(ToolCalls).(array) = Some a ∧ m.(ToolCalls).(len) = S i
  end.

(** The slice of results holds [l]. *)
Definition listed (m : Mapper) (l : list ToolCall) : Prop :=
  ∃ arr, backing m m.(ToolCalls) = Some arr ∧ m.(ToolCalls).(len) ≤ length arr ∧ take m.(ToolCalls).(len) arr = l.

Record shows (m : Mapper) (v : View) : Prop := MkShows {
  shows_content : m.(Content) = v.(v_content);
  shows_reasoning : m.(ReasoningContent) = v.(v_reasoning);
  shows_count : m.(argCount) = v.(v_count);
  shows_quote : m.(closingQuotePend) = v.(v_quote);
  shows_buffer : m.(argsBuffer) = v.(v_buffer);
  shows_calls : listed m v.(v_calls);
  shows_cur : pointers m v.(v_cur);
}.

Lemma shows_new : shows NewMapper NewView.
Proof. split; try done. exists []. done. Qed.

Lemma shows_calls_eq m v : shows m v → calls m = v.(v_calls).
Proof. intros H. destruct (shows_calls _ _ H) as (arr & Ha & _ & Hl). unfold calls. by rewrite Ha. Qed.

(** Assignments to the fields that are no pointers. *)
Lemma shows_set_content m v x : shows m v → shows (set_Content x m) (v_set_content x v).
Proof. by intros []. Qed.
Lemma shows_set_reasoning m v x : shows m v → shows (set_ReasoningContent x m) (v_set_reasoning x v).
Proof. by intros []. Qed.
Lemma shows_set_count m v x : shows m v → shows (set_argCount x m) (v_set_count x v).
Proof. by intros []. Qed.
Lemma shows_set_quote m v x : shows m v → shows (set_quote x m) (v_set_quote x v).
Proof. by intros []. Qed.
Lemma shows_set_buffer m v x : shows m v → shows (set_argsBuffer x m) (v_set_buffer x v).
Proof. by intros []. Qed.

Create HintDb mapper.
#[local] Hint Resolve shows_set_content shows_set_reasoning shows_set_count shows_set_quote shows_set_buffer : mapper.

Lemma last_take {A} (l : list A) i x : i < length l → l !! i = Some x → last (take (S i) l) = Some x.
Proof. intros Hi Hx. by rewrite (take_S_r _ _ x), last_snoc. Qed.

(** The current call, through its pointer. *)
Lemma shows_current m v : shows m v →
  match m.(currentTool) with
  | None => v.(v_cur) = NoTool ∧ cur_get v = None
  | Some p => ∃ t, cur_get v = Some t ∧ deref p m = Some (t, m)
  end.
Proof.
  intros [_ _ _ _ _ (arr & Ha & Hlen & Hl) Hp]. unfold cur_get, deref, mbind, M_bind, get. destruct (v_cur v) as [|t|t|]; simpl in Hp.
  - destruct Hp as [_ ->]. done.
  - destruct Hp as (n & _ & -> & Hn). exists t. rewrite Hn. done.
  - destruct Hp as (n & _ & -> & Hn). exists t. rewrite Hn. done.
  - destruct Hp as (a & i & _ & -> & Harr & Hi). unfold backing in Ha. rewrite Harr in Ha. rewrite Ha. simpl.
    destruct (lookup_lt_is_Some_2 arr i) as [t Ht]; [lia|]. exists t. rewrite Ht. split; [|done].
    rewrite <- Hl, Hi. by apply last_take; [lia|].
Qed.

Lemma take_alter {A} (f : A → A) (l : list A) i : take (S i) (alter f i l) = alter f i (take (S i) l).
Proof.
  apply list_eq. intros j. destruct (decide (j < S i)).
  - rewrite lookup_take_lt by done. destruct (decide (i = j)) as [->|]; [by rewrite !list_lookup_alter_eq, lookup_take_lt|].
    by rewrite !list_lookup_alter_ne, lookup_take_lt by done.
  - rewrite lookup_take_ge by lia. destruct (decide (i = j)) as [->|]; [lia|].
    by rewrite list_lookup_alter_ne, lookup_take_ge by (done || lia).
Qed.

(** A write through the pointer is the update of the specification. *)
Lemma wp_update m v p f Q : shows m v → m.(currentTool) = Some p →
  (∀ m', shows m' (cur_update f v) → m'.(currentTool) = Some p → m'.(pendingToolCall) = m.(pendingToolCall) → Q tt m') →
  wp (update p f) Q m.
Proof.
  intros Hm Hp HQ. pose proof (shows_current _ _ Hm) as Hd. rewrite Hp in Hd. destruct Hd as (t & Ht & Hd).
  unfold update. apply wp_bind. unfold wp at 1. rewrite Hd. apply wp_modify. clear Hd.
  destruct Hm as [H1 H2 H3 H4 H5 Hl Hc]. unfold cur_get in Ht. unfold cur_update in HQ.
  destruct (v_cur v) as [|t'|t'|] eqn:Hv; simpl in Hc; [done|..].
  1,2: destruct Hc as (n & Hpend & Hcur & Hn); rewrite Hcur in Hp; injection Hp as <-; apply HQ; simpl; try done;
    split; try done; exists n; split_and!; try done; simpl; by rewrite list_lookup_alter_eq, Hn.
  destruct Hc as (a & i & Hpend & Hcur & Harr & Hi). rewrite Hcur in Hp. injection Hp as <-.
  apply HQ; simpl; try done. split; try done; [|simpl; rewrite Hv; by exists a, i].
  destruct Hl as (arr & Ha & Hlen & Hl). unfold backing in Ha. rewrite Harr in Ha.
  exists (alter f i arr). unfold backing. simpl. rewrite Harr, list_lookup_alter_eq, Ha. split_and!; [done|by rewrite length_alter|].
  rewrite Hi, take_alter. unfold update_last. rewrite <- Hl, Hi, length_take. f_equal. lia.
Qed.

(** [append] leaves the rest of the store as it is. *)
Lemma wp_append spare m v t (Q : unit → Mapper → Prop) : shows m v → v.(v_cur) ≠ Listed →
  (∀ m', shows m' (v_set_calls (v.(v_calls) ++ [t]) v) → m'.(currentTool) = m.(currentTool) →
     m'.(pendingToolCall) = m.(pendingToolCall) →
     (∃ a, m'.(ToolCalls) = MkSlice (Some a) (S (length v.(v_calls)))) → Q tt m') →
  wp (append_call spare t) Q m.
Proof.
  intros [H1 H2 H3 H4 H5 (arr & Ha & Hlen & Hl) Hc] Hv HQ.
  assert (Hlv : length (v_calls v) = m.(ToolCalls).(len)) by (rewrite <- Hl, length_take; lia).
  unfold append_call. apply wp_bind, wp_get, wp_bind. rewrite Ha. apply wp_ret.
  assert (Hnew : Q tt (set_ToolCalls (MkSlice (Some (length m.(arrays))) (S m.(ToolCalls).(len)))
    (set_arrays (m.(arrays) ++ [take m.(ToolCalls).(len) arr ++ t :: replicate (spare m.(ToolCalls).(len)) NewToolCall]) m))).
  { apply HQ; try done; [|eexists; simpl; by rewrite Hlv]. split; try done.
    - eexists. unfold backing. simpl. rewrite lookup_app_r, Nat.sub_diag by done. split; [done|].
      rewrite Hl, cons_middle, app_assoc, length_app, length_app. simpl. rewrite Hlv. split; [lia|].
      rewrite take_app_le by (rewrite length_app; simpl; lia). by rewrite take_ge by (rewrite length_app; simpl; lia).
    - simpl. destruct (v_cur v); done. }
  destruct (array (ToolCalls m)) as [a|] eqn:Harr; [|by apply wp_modify].
  apply wp_if; intros Hlt; [|by apply wp_modify]. apply Nat.ltb_lt in Hlt. apply wp_modify, HQ; try done; [|eexists; simpl; by rewrite Hlv].
  unfold backing in Ha. rewrite Harr in Ha. split; try done.
  - exists (<[len (ToolCalls m) := t]> arr). unfold backing. simpl. rewrite list_lookup_alter_eq, Ha. split; [done|].
    rewrite length_insert. split; [lia|]. rewrite (take_S_r _ _ t) by (by apply list_lookup_insert_eq).
    by rewrite take_insert_ge, Hl by lia.
  - simpl. destruct (v_cur v); done.
Qed.

Definition implements (c : M Mapper unit) (f : View → View) : Prop :=
  ∀ m v, shows m v → wp c (λ _ m', shows m' (f v)) m.

Lemma implements_current (f : Ptr → M Mapper unit) g :
  (∀ m v p t, shows m v → m.(currentTool) = Some p → cur_get v = Some t → wp (f p) (λ _ m', shows m' (g v)) m) →
  implements (with_current f) (if_current g).
Proof.
  intros H m v Hm. unfold with_current, if_current. apply wp_bind, wp_get. pose proof (shows_current _ _ Hm) as Hc.
  destruct (currentTool m) as [p|] eqn:Hp.
  - destruct Hc as (t & Ht & _). rewrite Ht. by eapply H.
  - destruct Hc as [_ ->]. by apply wp_ret.
Qed.

Lemma wp_deref m v p Q : shows m v → m.(currentTool) = Some p → (∀ t, cur_get v = Some t → Q t m) → wp (deref p) Q m.
Proof.
  intros Hm Hp HQ. pose proof (shows_current _ _ Hm) as Hc. rewrite Hp in Hc. destruct Hc as (t & Ht & Hd).
  unfold wp. rewrite Hd. by apply HQ.
Qed.

Lemma cur_update_get f v : cur_get (cur_update f v) = f <$> cur_get v.
Proof.
  unfold cur_get, cur_update. destruct (v_cur v) as [| | |] eqn:Hv; simpl; rewrite ?Hv; try done.
  unfold update_last. destruct (v_calls v) as [|c l _] using rev_ind; [done|].
  rewrite last_snoc, last_lookup, length_alter, length_app. simpl. rewrite Nat.add_1_r. simpl.
  rewrite Nat.sub_0_r, list_lookup_alter_eq, lookup_app_r, Nat.sub_diag by lia. done.
Qed.

Lemma named_set x v : named (args_set x v) = named v.
Proof.
  unfold args_set. destruct (named v) eqn:Hn; [|by rewrite <- Hn]. rewrite <- Hn. unfold named. rewrite cur_update_get.
  by destruct (cur_get v).
Qed.

Lemma args_get_set x v : args_get (args_set x v) = x.
Proof.
  unfold args_get. rewrite named_set. unfold args_set. destruct (named v) eqn:Hn; [|done]. rewrite cur_update_get.
  unfold named in Hn. by destruct (cur_get v).
Qed.

Definition target_ok (m : Mapper) (v : View) (t : Target) : Prop :=
  match t with
  | ToArguments p => named v = true ∧ m.(currentTool) = Some p
  | ToBuffer => named v = false
  end.

Lemma wp_argsTarget m v Q : shows m v → (∀ t, target_ok m v t → Q t m) → wp argsTarget Q m.
Proof.
  intros Hm HQ. unfold argsTarget. apply wp_bind, wp_get. pose proof (shows_current _ _ Hm) as Hc.
  destruct (currentTool m) as [p|] eqn:Hp.
  - apply wp_bind. apply (wp_deref m v); [done|done|]. intros t Ht. apply wp_ret, HQ.
    unfold target_ok, named. rewrite Ht. destruct (decide (Name t = [])); [by rewrite bool_decide_eq_true_2|].
    by rewrite bool_decide_eq_false_2.
  - apply wp_ret, HQ. destruct Hc as [_ Hc]. unfold target_ok, named. by rewrite Hc.
Qed.

Lemma wp_read m v t Q : shows m v → target_ok m v t → Q (args_get v) m → wp (read_target t) Q m.
Proof.
  intros Hm Ht HQ. unfold args_get in HQ. destruct t as [p|]; simpl in *.
  - destruct Ht as [Hn Hp]. rewrite Hn in HQ. apply wp_bind, (wp_deref m v); [done|done|]. intros t Ht. rewrite Ht in HQ. by apply wp_ret.
  - rewrite Ht in HQ. apply wp_gets. by rewrite (shows_buffer _ _ Hm).
Qed.

Lemma wp_write m v t x Q : shows m v → target_ok m v t →
  (∀ m', shows m' (args_set x v) → target_ok m' (args_set x v) t → Q tt m') → wp (write_target t x) Q m.
Proof.
  intros Hm Ht HQ. assert (Hn := named_set x v). destruct t as [p|]; simpl in *.
  - destruct Ht as [Hv Hp]. apply (wp_update m v); [done|done|]. intros m' Hm' Hp' _. apply HQ; [|by rewrite Hn, Hv].
    unfold args_set. by rewrite Hv.
  - apply wp_modify, HQ; [|by rewrite Hn]. unfold args_set. rewrite Ht. by apply shows_set_buffer.
Qed.

Lemma wp_add_args m v x Q : shows m v → (∀ m', shows m' (args_add x v) → Q tt m') → wp (add_args x) Q m.
Proof.
  intros Hm HQ. unfold add_args. apply wp_bind, (wp_argsTarget m v); [done|]. intros t Ht.
  apply wp_bind, (wp_read m v); [done|done|]. apply (wp_write m v); [done|done|]. intros m' Hm' _. by apply HQ.
Qed.

Lemma implements_open : implements map_tool_open view_open.
Proof.
  intros m v [H1 H2 H3 H4 H5 Hl Hc]. unfold map_tool_open. apply wp_bind, wp_get, wp_modify. split; try done.
  simpl. exists (length m.(objects)). split_and!; [done|done|]. by rewrite lookup_app_r, Nat.sub_diag.
Qed.

Lemma implements_id text : implements (map_tool_id text) (view_id text).
Proof. apply implements_current. intros m v p t Hm Hp _. by apply (wp_update m v). Qed.

Lemma implements_args text : implements (map_tool_args text) (view_args text).
Proof.
  apply implements_current. intros m v p t Hm Hp _. cbv zeta. apply wp_when; intros Hb; bool_hyps.
  - rewrite decide_True by done. apply wp_bind, (wp_argsTarget m v); [done|]. intros tg Htg. by apply (wp_write m v).
  - by rewrite decide_False by done.
Qed.

Lemma implements_arg_name text : implements (map_arg_name text) (view_arg_name text).
Proof.
  apply implements_current. intros m v p t Hm Hp _. apply wp_bind, wp_get. cbv zeta. apply wp_bind, wp_modify.
  rewrite (shows_count _ _ Hm). set (v1 := v_set_count (wrap64 (v_count v + 1)) v).
  set (m1 := set_argCount (wrap64 (v_count v + 1)) m). assert (Hm1 : shows m1 v1) by by apply shows_set_count.
  apply wp_bind, (wp_argsTarget m1 v1); [done|]. intros tg Htg. apply wp_bind, (wp_read m1 v1); [done|done|].
  apply wp_bind, wp_when; intros Hb; bool_hyps.
  - rewrite decide_True by done. apply (wp_write m1 v1); [done|done|]. intros m2 Hm2 Htg2.
    apply wp_bind, (wp_read m2 (args_set (bytes "{") v1)); [done|done|].
    apply (wp_write m2 (args_set (bytes "{") v1)); [done|done|]. by intros m3 Hm3 _.
  - rewrite decide_False by done. apply wp_bind, (wp_read m1 v1); [done|done|]. apply (wp_write m1 v1); [done|done|]. by intros m3 Hm3 _.
Qed.

Lemma wp_open_quote m v Q : shows m v →
  (∀ m', shows m' (v_set_quote true v) → Q (if v.(v_quote) then [] else [cQuote]) m') → wp open_quote Q m.
Proof.
  intros Hm HQ. unfold open_quote. apply wp_bind, wp_get. rewrite (shows_quote _ _ Hm). destruct (v_quote v) eqn:Hq.
  - apply wp_ret, HQ. destruct Hm. by split; try done; simpl; rewrite Hq in *.
  - apply wp_bind, wp_modify, wp_ret, HQ. by apply shows_set_quote.
Qed.

Lemma implements_arg_string text : implements (map_arg_string text) (view_arg_string text).
Proof.
  apply implements_current. intros m v p t Hm Hp _. cbv zeta. apply wp_bind. case_decide.
  - apply wp_bind, wp_modify, wp_ret. eapply wp_add_args; [by apply shows_set_quote|done].
  - apply wp_bind, (wp_open_quote m v); [done|]. intros m' Hm'. apply wp_ret. by apply (wp_add_args m' (v_set_quote true v)).
Qed.

Lemma value_json_cons c l : value_json (c :: l) =
  if Ascii.eqb c "[" || Ascii.eqb c "{" then NormalizeQuotesToJSON (c :: l) else c :: l.
Proof.
  unfold value_json. destruct (Ascii.eqb_spec c "[") as [->|]; [by rewrite decide_True by auto|].
  destruct (Ascii.eqb_spec c "{") as [->|]; [by rewrite decide_True by auto|]. rewrite decide_False; [done|]. by intros [[= ?]|[= ?]].
Qed.

Lemma implements_arg_value text isPartial : implements (map_arg_value text isPartial) (view_arg_value text isPartial).
Proof.
  apply implements_current. intros m v p t Hm Hp _. unfold value_added. cbv zeta.
  assert (Hsame : ∀ x, wp (add_args x) (λ _ m', shows m' (args_add x (v_set_quote (v_quote v) v))) m).
  { intros x. apply (wp_add_args m v); [done|]. intros m' Hm'. by destruct v. }
  destruct (trimOneSpace text) as [|c l]; [apply wp_bind, wp_ret, Hsame|].
  rewrite value_json_cons. set (content := if Ascii.eqb c "[" || Ascii.eqb c "{" then NormalizeQuotesToJSON (c :: l) else c :: l).
  destruct (Valid content) eqn:Hv.
  - case_decide as Hq; [|apply wp_bind, wp_ret, Hsame].
    destruct (valid_string _ Hv Hq) as (inner & Hraw & Hr). destruct (unquote_readable _ Hr) as [s Hs].
    rewrite Hraw, Hs. apply wp_bind, wp_bind, wp_ret, wp_bind, wp_modify, wp_ret. simpl.
    eapply wp_add_args; [by apply shows_set_quote|done].
  - destruct (isPartial && _); [apply wp_bind, wp_ret, Hsame|].
    apply wp_bind, wp_bind, (wp_open_quote m v); [done|]. intros m' Hm'. apply wp_ret. by apply (wp_add_args m' (v_set_quote true v)).
Qed.

Lemma implements_arg_close : implements map_arg_close view_arg_close.
Proof.
  apply implements_current. intros m v p t Hm Hp _. apply wp_bind, wp_get. rewrite (shows_quote _ _ Hm).
  apply wp_when; intros ->; [|done]. apply wp_bind, (wp_add_args m v); [done|]. intros m' Hm'. apply wp_modify. by apply shows_set_quote.
Qed.

Lemma pending_unnamed m v p : shows m v → m.(currentTool) = Some p →
  match m.(pendingToolCall) with
  | Some q => q = p ∧ ∃ t, v.(v_cur) = Unnamed t
  | None => match v.(v_cur) with Unnamed _ => False | _ => True end
  end.
Proof.
  intros [_ _ _ _ _ _ Hc] Hp. destruct (v_cur v) as [|t|t|]; simpl in Hc.
  - destruct Hc as [_ Hc]. by rewrite Hp in Hc.
  - destruct Hc as (n & -> & Hc & _). split; [|by eauto]. rewrite Hp in Hc. by injection Hc.
  - by destruct Hc as (n & -> & _).
  - by destruct Hc as (a & i & -> & _).
Qed.

Lemma wp_start_args m v p (Q : unit → Mapper → Prop) : shows m v → m.(currentTool) = Some p →
  (∀ m', shows m' (start_args v) → m'.(currentTool) = Some p → m'.(pendingToolCall) = m.(pendingToolCall) → Q tt m') →
  ∀ t, cur_get v = Some t →
  wp (if decide (m.(argsBuffer) = []) then when (bool_decide (t.(Arguments) = [])) (update p (set_Arguments (bytes "{")))
      else _ ← update p (set_Arguments m.(argsBuffer)); modify (set_argsBuffer [])) Q m.
Proof.
  intros Hm Hp HQ t Ht. unfold start_args in HQ. rewrite (shows_buffer _ _ Hm). case_decide as Hb.
  - apply wp_when; intros Ha; bool_hyps.
    + apply (wp_update m v); [done|done|]. intros m' Hm' ? ?. apply HQ; [|done|done].
      eassert (Heq : cur_update _ v = _); [|by rewrite Heq]. unfold cur_update. unfold cur_get in Ht.
      destruct (v_cur v) as [| | |]; simplify_eq; try by rewrite decide_True.
      unfold update_last. f_equal. destruct (v_calls v) as [|c l _] using rev_ind; [done|]. rewrite last_snoc in Ht. injection Ht as ->.
      rewrite length_app, Nat.add_sub, !alter_app_r_alt, Nat.sub_diag by lia. simpl. by rewrite decide_True.
    + apply HQ; [|done|done]. eassert (Heq : cur_update _ v = v); [|by rewrite Heq]. unfold cur_update. unfold cur_get in Ht.
      destruct v as [? ? cs [| | |] ? ? ?]; simpl in *; simplify_eq; try by rewrite decide_False.
      unfold update_last, v_set_calls. simpl. f_equal. destruct cs as [|c l _] using rev_ind; [done|].
      rewrite last_snoc in Ht. injection Ht as ->. rewrite length_app, Nat.add_sub, alter_app_r_alt, Nat.sub_diag by lia. simpl.
      by rewrite decide_False.
  - apply wp_bind, (wp_update m v); [done|done|]. intros m' Hm' ? ?. apply wp_modify, HQ; [by apply shows_set_buffer|done|done].
Qed.

Lemma implements_name spare text : implements (map_tool_name spare text) (view_name text).
Proof.
  apply implements_current. intros m v p t Hm Hp Ht. apply wp_bind, (wp_update m v); [done|done|].
  intros m1 Hm1 Hp1 _. apply wp_bind, wp_get, wp_bind, (wp_deref m1 _ p _ Hm1 Hp1). intros t1 Ht1.
  apply wp_bind, (wp_start_args m1 _ p _ Hm1 Hp1); [|done]. intros m2 Hm2 Hp2 Hpend.
  rewrite <- Hpend. pose proof (pending_unnamed _ _ _ Hm2 Hp2) as Hu. set (v2 := start_args _) in *. unfold list_current.
  destruct (pendingToolCall m2) as [q|] eqn:Hq; [|by destruct (v_cur v2); apply wp_ret].
  destruct Hu as (-> & t2 & Hv2). rewrite Hv2. apply wp_bind, (wp_deref m2 v2); [done|done|]. intros t3 Ht3.
  unfold cur_get in Ht3. rewrite Hv2 in Ht3. injection Ht3 as <-.
  apply wp_bind, (wp_append _ m2 v2); [done|by rewrite Hv2|]. intros m3 [? ? ? ? ? Hl _] Hp3 Hq3 (a & Hs).
  apply wp_bind, wp_modify, wp_bind. unfold last_call. apply wp_bind, wp_get. simpl. rewrite Hs. apply wp_ret, wp_modify.
  split; try done. simpl. rewrite Hs. by exists a, (length (v_calls v2)).
Qed.

Lemma implements_close spare : implements (map_tool_close spare) view_tool_close.
Proof.
  apply implements_current. intros m v p t Hm Hp Ht. apply wp_bind, (wp_deref m v); [done|done|]. intros t' Ht'.
  rewrite Ht in Ht'. injection Ht' as <-. apply wp_bind, wp_get. cbv zeta.
  assert (Hn : bool_decide (t.(Name) = []) = negb (named v)) by (unfold named; by rewrite Ht, negb_involutive).
  rewrite Hn, (shows_buffer _ _ Hm). set (v1 := if negb (named v) && _ then _ else v).
  apply wp_bind. eapply (wp_mono _ (λ _ m', shows m' v1 ∧ m'.(currentTool) = Some p ∧ m'.(closingQuotePend) = m.(closingQuotePend))).
  { subst v1. apply wp_when; intros ->; [|done]. apply wp_bind, (wp_update m v); [done|done|]. intros m' Hm' ? _. apply wp_modify.
    split_and!; [by apply shows_set_buffer|done|]. simpl. rewrite (shows_quote _ _ Hm'), (shows_quote _ _ Hm). unfold cur_update. by case_match. }
  intros [] m1 (Hm1 & Hp1 & Hq1). simpl. rewrite (shows_quote _ _ Hm).
  rewrite (shows_quote _ _ Hm), (shows_quote _ _ Hm1) in Hq1. rewrite <- Hq1. clear Hq1.
  set (v2 := if v_quote v1 then _ else v1). apply wp_bind.
  eapply (wp_mono _ (λ _ m', shows m' v2 ∧ m'.(currentTool) = Some p)).
  { subst v2. apply wp_when; intros ->; [|done]. apply wp_bind, (wp_update m1 v1); [done|done|]. intros m' Hm' ? _. apply wp_modify.
    split; [by apply shows_set_quote|done]. }
  intros [] m2 [Hm2 Hp2]. apply wp_bind, (wp_update m2 v2); [done|done|]. intros m3 Hm3 Hp3 _. set (v3 := cur_update _ v2) in *.
  apply wp_bind, wp_get. pose proof (pending_unnamed _ _ _ Hm3 Hp3) as Hu.
  destruct (pendingToolCall m3) as [q|] eqn:Hq; [|by destruct (v_cur v3); apply wp_ret].
  destruct Hu as (-> & t3 & Hv3). rewrite Hv3. apply wp_bind, (wp_deref m3 v3); [done|done|]. intros t4 Ht4.
  unfold cur_get in Ht4. rewrite Hv3 in Ht4. injection Ht4 as <-. apply wp_bind.
  assert (Hdrop : ∀ m' v', shows m' v' → v'.(v_cur) = Unnamed t3 → shows (set_pending None m') (v_set_cur (Dropped t3) v')).
  { intros m' v' [? ? ? ? ? ? Hc] Hv'. split; try done. rewrite Hv' in Hc. destruct Hc as (n & _ & ? & ?). by exists n. }
  apply wp_when; intros Hb; bool_hyps.
  - rewrite decide_False by done. apply wp_bind, (wp_deref m3 v3); [done|done|]. intros t5 Ht5.
    unfold cur_get in Ht5. rewrite Hv3 in Ht5. injection Ht5 as <-.
    apply (wp_append _ m3 v3); [done|by rewrite Hv3|]. intros m4 Hm4 _ _ _. apply wp_modify. by apply Hdrop.
  - rewrite decide_True by done. apply wp_modify. by apply Hdrop.
Qed.

Lemma implements_node spare node : implements (mapNode spare node) (view_node node).
Proof.
  intros m v Hm. unfold mapNode, view_node. cbv zeta.
  repeat (apply wp_if; intros ->); try apply wp_modify.
  - rewrite (shows_reasoning _ _ Hm). by apply shows_set_reasoning.
  - rewrite (shows_content _ _ Hm). by apply shows_set_content.
  - by apply implements_open.
  - by apply implements_id.
  - by apply implements_name.
  - by apply implements_args.
  - by apply shows_set_quote.
  - by apply implements_arg_name.
  - by apply implements_arg_string.
  - by apply implements_arg_value.
  - by apply implements_arg_close.
  - by apply implements_close.
  - by apply wp_ret.
Qed.

(** ** The whole mapper *)

(** A call without a name has no name: the results never gain a call when a
    call is closed or at the end. *)
Definition unnamed_ok (v : View) : Prop := match v.(v_cur) with Unnamed t => t.(Name) = [] | _ => True end.

Lemma unnamed_update f v : (∀ t, (f t).(Name) = t.(Name)) → unnamed_ok v → unnamed_ok (cur_update f v).
Proof. intros Hf. unfold unnamed_ok, cur_update. destruct (v_cur v) eqn:Hv; simpl; rewrite ?Hv; try done. by rewrite Hf. Qed.

Lemma unnamed_args_set x v : unnamed_ok v → unnamed_ok (args_set x v).
Proof. unfold args_set. destruct (named v); [by apply unnamed_update|done]. Qed.

Lemma unnamed_current f v : (unnamed_ok v → unnamed_ok (f v)) → unnamed_ok v → unnamed_ok (if_current f v).
Proof. intros H Hv. unfold if_current. destruct (cur_get v); auto. Qed.

#[local] Hint Resolve unnamed_update unnamed_args_set : mapper.

Lemma unnamed_drop v :
  unnamed_ok match v.(v_cur) with
             | Unnamed t => v_set_cur (Dropped t) (if decide (t.(Name) = []) then v else v_set_calls (v.(v_calls) ++ [t]) v)
             | _ => v
             end.
Proof. destruct (v_cur v) eqn:Hc; unfold unnamed_ok; simpl; by rewrite ?Hc. Qed.

Lemma unnamed_list v : unnamed_ok (list_current v).
Proof. unfold unnamed_ok, list_current. destruct (v_cur v) eqn:Hc; simpl; by rewrite ?Hc. Qed.

Lemma unnamed_node n v : unnamed_ok v → unnamed_ok (view_node n v).
Proof.
  unfold view_node. intros Hv. repeat (case_match; try done); try (apply unnamed_current; [|done]; clear Hv; intros Hv).
  - by apply unnamed_update.
  - apply unnamed_list.
  - cbv zeta. case_decide; auto with mapper.
  - unfold args_add. apply unnamed_args_set. case_decide; [by apply unnamed_args_set|done].
  - by apply unnamed_args_set.
  - destruct (value_added _ _ _). by apply unnamed_args_set.
  - destruct (v_quote v); [by apply (unnamed_args_set _ v)|done].
  - cbv zeta. apply unnamed_drop.
Qed.

Lemma unnamed_nodes l v : unnamed_ok v → unnamed_ok (view_nodes l v).
Proof. revert v. induction l as [|n l IH]; [done|]. intros v Hv. by apply IH, unnamed_node. Qed.

Lemma implements_nodes spare l : implements (for_each l (mapNode spare)) (view_nodes l).
Proof.
  induction l as [|n l IH]; intros m v Hm; simpl; [by apply wp_ret|]. apply wp_bind.
  eapply wp_mono; [by apply implements_node|]. intros [] m' Hm'. by apply IH.
Qed.

Lemma flush_nothing spare m v : shows m v → unnamed_ok v → wp (flush_pending spare) (λ _ m', m' = m) m.
Proof.
  intros Hm Hv. unfold flush_pending. apply wp_bind, wp_get. pose proof (shows_cur _ _ Hm) as Hc. unfold unnamed_ok in Hv.
  destruct (v_cur v) as [|t|t|] eqn:Hcur; simpl in Hc.
  - destruct Hc as [-> _]. by apply wp_ret.
  - destruct Hc as (n & -> & _ & Hn). apply wp_bind. unfold deref, wp at 1, mbind, M_bind, get. rewrite Hn. simpl.
    rewrite bool_decide_eq_true_2 by done. done.
  - destruct Hc as (n & -> & _). by apply wp_ret.
  - destruct Hc as (a & i & -> & _). by apply wp_ret.
Qed.

Lemma FromAST_view spare ast result nodes :
  VisitResult (S (length ast)) ast result = Some nodes →
  ∃ m, FromAST spare ast result NewMapper = Some (tt, m) ∧ shows m (view_nodes nodes NewView).
Proof.
  intros Hvis. set (v := view_nodes nodes NewView).
  assert (H : wp (FromAST spare ast result) (λ _ m, shows m v) NewMapper).
  { unfold FromAST. rewrite Hvis. apply wp_bind, wp_ret, wp_bind.
    eapply wp_mono; [apply implements_nodes, shows_new|]. intros [] m Hm.
    eapply wp_mono; [apply (flush_nothing _ _ v Hm), unnamed_nodes; done|]. by intros [] m' ->. }
  apply wp_Some in H as ([] & m & Hm & Hs). by exists m.
Qed.

(** C8. The mapper computes what its tags say, one node after the other, without
    ever following a nil or stale pointer: whatever room the runtime gives the
    slice of results when [append] moves it, content, reasoning and calls are
    those of the plain specification [view_nodes]; the flush at the end and the
    append on closing never add a call, since a call enters the results when it
    gets its name. *)
Theorem mapper_refines spare ast result nodes :
  VisitResult (S (length ast)) ast result = Some nodes →
  let v := view_nodes nodes NewView in
  ∃ m, FromAST spare ast result NewMapper = Some (tt, m) ∧
    m.(Content) = v.(v_content) ∧ m.(ReasoningContent) = v.(v_reasoning) ∧ calls m = v.(v_calls).
Proof.
  intros Hvis v. destruct (FromAST_view spare ast result nodes Hvis) as (m & Hm & Hs).
  exists m. split_and!; [done|by apply shows_content|by apply shows_reasoning|by apply shows_calls_eq].
Qed.
