(* ===== verification/PegArguments.v ===== *)
(** * PegArguments: the arguments of a tool call are JSON

    What the mapper makes of the tags of one call: of a call in the tagged
    format ([<param=key>value</param>]) a JSON object with one member per
    argument, of a call in JSON format the text it was given.  An argument
    with an empty value is the one exception. *)
From Stdlib Require Import Ascii.
From S2P Require Import Prelude GoMonad PegTypes PegJson GoJson PegMapper PegText PegMapping.

(** ** Traces *)

(** What the mapper looks at in a node. *)
Abbreviation event := (string * list ascii * bool)%type.

Definition event_of (n : AstNode) : event := (n.(Tag), n.(Text), n.(node_IsPartial)).

Definition view_event (e : event) : View → View :=
  let '(tag, text, partial) := e in view_node (MkNode 0 "" tag 0 0 text [] partial).

Definition mapped_tags : list string :=
  [TagReasoning; TagContent; TagToolOpen; TagToolID; TagToolName; TagToolArgs; TagToolArgOpen; TagToolArgName;
   TagToolArgStrVal; TagToolArgValue; TagToolArgClose; TagToolClose].

(** The events of the tags the mapper knows. *)
Definition trace (nodes : list AstNode) : list event := filter (λ e, e.1.1 ∈ mapped_tags) (map event_of nodes).

Definition view_events (l : list event) (v : View) : View := foldl (λ v e, view_event e v) v l.

Lemma view_unknown e v : e.1.1 ∉ mapped_tags → view_event e v = v.
Proof.
  destruct e as [[tag text] partial]. simpl. intros H. unfold view_node. simpl.
  assert (Hn : ∀ x, x ∈ mapped_tags → String.eqb tag x = false) by (intros x Hx; apply String.eqb_neq; by intros ->).
  rewrite !Hn; [done|unfold mapped_tags; set_solver..].
Qed.

Lemma view_trace nodes v : view_nodes nodes v = view_events (trace nodes) v.
Proof.
  revert v. induction nodes as [|n nodes IH]; intros v; [done|]. simpl. rewrite IH. unfold trace. simpl. rewrite filter_cons.
  change (view_node n v) with (view_event (event_of n) v).
  case_decide as Hn; [done|]. by rewrite view_unknown.
Qed.

(** ** One call in the tagged format *)

Record Argument := MkArgument { arg_key : list ascii; arg_value : list ascii }.

Section Tagged.
(** The texts of the markers around a call and its arguments. *)
Context (call_open call_close arg_open arg_close : list ascii).

Definition arg_events (a : Argument) : list event :=
  [(TagToolArgOpen, arg_open, false); (TagToolArgName, a.(arg_key), false);
   (TagToolArgValue, a.(arg_value), false); (TagToolArgClose, arg_close, false)].

Definition call_events (name args_text : list ascii) (args : list Argument) : list event :=
  [(TagToolOpen, call_open, false); (TagToolName, name, false); (TagToolArgs, args_text, false)] ++
  concat (map arg_events args) ++ [(TagToolClose, call_close, false)].

(** The member that an argument becomes. *)
Definition value_text (text : list ascii) : list ascii :=
  let '(x, open) := value_added text false false in x ++ if open : bool then [cQuote] else [].

Definition member_text (a : Argument) : list ascii := Marshal (trimSpace a.(arg_key)) ++ bytes ":" ++ value_text a.(arg_value).

Fixpoint members_text (args : list Argument) : list ascii :=
  match args with
  | [] => []
  | [a] => member_text a
  | a :: args => member_text a ++ bytes "," ++ members_text args
  end.

Definition object_text (args : list Argument) : list ascii := bytes "{" ++ members_text args ++ bytes "}".

(** Members after [i] others. *)
Definition more_members (i : Z) (args : list Argument) : list ascii :=
  match args with [] => [] | _ => (if (0 <? i)%Z then bytes "," else []) ++ members_text args end.

(** ** The current call is the last of the results *)

Definition in_call (c r : list ascii) (cs : list ToolCall) (n acc id : list ascii) (i : Z) (q : bool) : View :=
  MkView c r (cs ++ [MkToolCall n acc id]) Listed i q [].

Lemma in_call_get c r cs n acc id i q : cur_get (in_call c r cs n acc id i q) = Some (MkToolCall n acc id).
Proof. unfold cur_get. simpl. apply last_snoc. Qed.

Lemma update_last_snoc f cs t : update_last f (cs ++ [t]) = cs ++ [f t].
Proof. unfold update_last. rewrite length_app, Nat.add_sub, alter_app_r_alt, Nat.sub_diag by lia. done. Qed.

Lemma in_call_named c r cs n acc id i q : n ≠ [] → named (in_call c r cs n acc id i q) = true.
Proof. intros Hn. unfold named. rewrite in_call_get. simpl. by rewrite bool_decide_eq_false_2. Qed.

Lemma in_call_args c r cs n acc id i q : n ≠ [] → args_get (in_call c r cs n acc id i q) = acc.
Proof. intros Hn. unfold args_get. by rewrite in_call_named, in_call_get. Qed.

Lemma in_call_set c r cs n acc id i q x : n ≠ [] → args_set x (in_call c r cs n acc id i q) = in_call c r cs n x id i q.
Proof.
  intros Hn. unfold args_set. rewrite in_call_named by done. unfold cur_update, in_call, v_set_calls. simpl.
  by rewrite update_last_snoc.
Qed.

Lemma in_call_add c r cs n acc id i q x : n ≠ [] → args_add x (in_call c r cs n acc id i q) = in_call c r cs n (acc ++ x) id i q.
Proof. intros Hn. unfold args_add. by rewrite in_call_args, in_call_set. Qed.

Lemma arg_step c r cs n acc id i q a : n ≠ [] → acc ≠ [] →
  view_events (arg_events a) (in_call c r cs n acc id i q) =
  in_call c r cs n (acc ++ key_entry i a.(arg_key) ++ value_text a.(arg_value)) id (wrap64 (i + 1)) false.
Proof.
  intros Hn Hacc. unfold arg_events, view_events. cbn [foldl].
  change (view_event (TagToolArgOpen, arg_open, false) (in_call c r cs n acc id i q)) with (in_call c r cs n acc id i false).
  replace (view_event (TagToolArgName, _, false) (in_call c r cs n acc id i false))
    with (in_call c r cs n (acc ++ key_entry i a.(arg_key)) id (wrap64 (i + 1)) false).
  2:{ symmetry. unfold view_event, view_node. simpl. unfold view_arg_name, if_current. rewrite in_call_get. cbv zeta.
      change (v_set_count _ (in_call c r cs n acc id i false)) with (in_call c r cs n acc id (wrap64 (i + 1)) false).
      rewrite in_call_args, decide_False, in_call_add by done. done. }
  set (acc1 := acc ++ key_entry i a.(arg_key)).
  unfold value_text. destruct (value_added a.(arg_value) false false) as [x open] eqn:Hx.
  replace (view_event (TagToolArgValue, _, false) (in_call c r cs n acc1 id (wrap64 (i + 1)) false))
    with (in_call c r cs n (acc1 ++ x) id (wrap64 (i + 1)) open).
  2:{ symmetry. unfold view_event, view_node. simpl. unfold view_arg_value, if_current. rewrite in_call_get.
      change (v_quote (in_call c r cs n acc1 id (wrap64 (i + 1)) false)) with false. rewrite Hx.
      change (v_set_quote _ (in_call c r cs n acc1 id (wrap64 (i + 1)) false)) with (in_call c r cs n acc1 id (wrap64 (i + 1)) open).
      by rewrite in_call_add. }
  unfold view_event, view_node. simpl. unfold view_arg_close, if_current. rewrite in_call_get. simpl. destruct open.
  - rewrite in_call_add by done. subst acc1. by rewrite <- !app_assoc.
  - subst acc1. by rewrite app_nil_r, <- !app_assoc.
Qed.

Lemma args_steps c r cs n acc id i args : n ≠ [] → acc ≠ [] → (0 ≤ i)%Z → (i + Z.of_nat (length args) < 2 ^ 63)%Z →
  ∃ i', view_events (concat (map arg_events args)) (in_call c r cs n acc id i false) =
    in_call c r cs n (acc ++ more_members i args) id i' false.
Proof.
  intros Hn. revert acc i. induction args as [|a args IH]; intros acc i Hacc Hi Hlen.
  { exists i. simpl. by rewrite app_nil_r. }
  cbn [map concat]. unfold view_events. rewrite foldl_app. fold (view_events (arg_events a) (in_call c r cs n acc id i false)).
  rewrite arg_step by done. simpl in Hlen. rewrite wrap64_id by lia.
  destruct (IH (acc ++ key_entry i a.(arg_key) ++ value_text a.(arg_value)) (i + 1)%Z) as [i' Hi'].
  { by destruct acc. } { lia. } { lia. }
  exists i'. unfold view_events in Hi'. rewrite Hi'. f_equal.
  unfold more_members, key_entry, escapeJSONString. destruct args as [|b args].
  - cbn [members_text]. unfold member_text. by rewrite app_nil_r, <- !app_assoc.
  - rewrite (proj2 (Z.ltb_lt 0 (i + 1))) by lia. cbn [members_text]. unfold member_text. by rewrite <- !app_assoc.
Qed.

(** The calls after a call: one more, with the members and the braces that
    close them. *)
Lemma call_step name args_text args v : trimTrailingSpace name ≠ [] → head (trimTrailingSpace args_text) ≠ Some "{"%char →
  (Z.of_nat (length args) < 2 ^ 63)%Z →
  ∃ i, view_events (call_events name args_text args) v =
    in_call v.(v_content) v.(v_reasoning) v.(v_calls) (trimTrailingSpace name) (close_braces (bytes "{" ++ more_members 0 args)) [] i false.
Proof.
  intros Hname Hargs Hlen. unfold call_events, view_events. rewrite foldl_app. cbn [foldl].
  set (n := trimTrailingSpace name) in *. set (c := v_content v). set (r := v_reasoning v). set (cs := v_calls v).
  replace (view_event (TagToolArgs, _, false) _) with (in_call c r cs n (bytes "{") [] 0 false).
  2:{ symmetry. replace (view_event (TagToolName, _, false) _) with (in_call c r cs n (bytes "{") [] 0 false) by done.
      unfold view_event, view_node. simpl. unfold view_args, if_current. rewrite in_call_get. by rewrite decide_False. }
  rewrite foldl_app. destruct (args_steps c r cs n (bytes "{") [] 0 args Hname ltac:(done) ltac:(lia) ltac:(lia)) as [i Hi].
  unfold view_events in Hi. rewrite Hi. exists i. cbn [foldl]. unfold view_event, view_node. simpl. unfold view_tool_close, if_current.
  rewrite in_call_get, in_call_named by done. simpl. unfold cur_update. simpl. unfold v_set_calls. simpl.
  by rewrite update_last_snoc.
Qed.
End Tagged.

(** ** Brace depth and the scanner *)

Definition objects_open (st : list frame) : Z :=
  foldr (λ f n, match f with parseArrayValue => n | _ => n + 1 end)%Z 0%Z st.

Definition in_literal (q : scan_state) : bool :=
  match q with InString | InStringEsc | InStringEscU _ => true | _ => false end.

(** What [jsonBraceDepth] knows of the scanner. *)
Definition depth_of (s : scanner) : brace_state :=
  MkBrace (objects_open s.2) (in_literal s.1) match s.1 with InStringEsc => true | _ => false end.

Definition plain (c : ascii) : bool :=
  negb (Ascii.eqb c cBackslash || Ascii.eqb c cQuote || Ascii.eqb c "{" || Ascii.eqb c "}").

Lemma plain_class (f : ascii → bool) : forallb (λ c, implb (f c) (plain c)) all_bytes = true → ∀ c, f c = true → plain c = true.
Proof. intros H c Hc. pose proof (byte_cases _ H c) as Hp. cbv beta in Hp. by rewrite Hc in Hp. Qed.

Lemma plain_space c : isWhitespace c = true → plain c = true.
Proof. by apply plain_class. Qed.
Lemma plain_digit c : isDigit c = true → plain c = true.
Proof. by apply plain_class. Qed.
Lemma plain_hex c : isHexDigit c = true → plain c = true.
Proof. by apply plain_class. Qed.
Lemma plain_E c : isE c = true → plain c = true.
Proof. by apply plain_class. Qed.

Lemma brace_plain d i c : plain c = true → brace_step (MkBrace d i false) c = MkBrace d i false.
Proof.
  unfold plain, brace_step. simpl. intros [[[H1 H2]%orb_false_iff H3]%orb_false_iff H4]%negb_true_iff%orb_false_iff.
  rewrite H1, H2, H3, H4. by destruct i.
Qed.

Ltac eqb_subst := repeat match goal with H : Ascii.eqb _ _ = true |- _ => apply Ascii.eqb_eq in H; subst end.

Lemma brace_end st c s : stateEndValue st c = Some s → brace_step (MkBrace (objects_open st) false false) c = depth_of s.
Proof.
  unfold stateEndValue. intros H. destruct st as [|f st].
  - case_match eqn:Hw; simplify_eq. by rewrite brace_plain by by apply plain_space.
  - case_match eqn:Hw; simplify_eq; [by rewrite brace_plain by by apply plain_space|].
    assert (Hpop : ∀ f, popParseState (f :: st) = Some s → depth_of s = MkBrace (objects_open st) false false).
    { intros g. unfold popParseState. by destruct st; intros [= <-]. }
    destruct f; repeat (case_match; simplify_eq); eqb_subst; try done; rewrite (Hpop _ H); unfold brace_step; simpl; f_equal; lia.
Qed.

Lemma brace_begin limit st c s : stateBeginValue limit st c = Some s →
  brace_step (MkBrace (objects_open st) false false) c = depth_of s.
Proof.
  unfold stateBeginValue, pushParseState. intros H. repeat (case_match; simplify_eq); eqb_subst; try done.
  - by rewrite brace_plain by by apply plain_space.
  - by rewrite brace_plain by by apply plain_digit.
Qed.

Lemma brace_string st c s : stateBeginString st c = Some s → brace_step (MkBrace (objects_open st) false false) c = depth_of s.
Proof.
  unfold stateBeginString. intros H. repeat (case_match; simplify_eq); eqb_subst; [|done].
  by rewrite brace_plain by by apply plain_space.
Qed.

#[local] Arguments stateEndValue : simpl never.

Definition sane (s : scanner) : bool :=
  match s with
  | (InLiteral l, _) => forallb plain l
  | (BeginStringOrEmpty, parseArrayValue :: _) | (EndTop, _ :: _) => false
  | _ => true
  end.

Lemma end_plain st c s : stateEndValue st c = Some s → sane s = true.
Proof. unfold stateEndValue, popParseState. intros H. by repeat (case_match; simplify_eq/=). Qed.

Lemma step_plain limit s c s' : scan_step limit s c = Some s' → sane s = true → sane s' = true.
Proof.
  destruct s as [q st]. intros H Hp. destruct q as [| | | | | | | |n| | | | | | | | |[|x l]]; simpl in H, Hp;
    unfold stateBeginValue, stateBeginString, pushParseState in H; repeat (case_match; simplify_eq/=); try done;
    try (by eapply end_plain). by apply andb_true_iff in Hp as [_ ?].
Qed.

(** [jsonBraceDepth] follows the scanner. *)
Lemma brace_sim limit s c s' : scan_step limit s c = Some s' → sane s = true → brace_step (depth_of s) c = depth_of s'.
Proof.
  destruct s as [q st]. unfold depth_of at 1. simpl. intros H Hp.
  destruct q as [| | | | | | | |n| | | | | | | | |[|x l]]; simpl in H |- *;
    repeat (case_match; simplify_eq/=); eqb_subst; try done;
    try (by eapply brace_end); try (by eapply brace_begin); try (by eapply brace_string);
    try (by rewrite brace_plain by first [by apply plain_space|by apply plain_digit|by apply plain_hex|by apply plain_E]).
  all: try match goal with H : stateEndValue ?st _ = _ |- _ => exact (brace_end st _ _ H) end.
  all: try match goal with H : stateBeginString ?st _ = _ |- _ => exact (brace_string st _ _ H) end.
  - unfold brace_step. simpl. repeat match goal with H : Ascii.eqb c _ = false |- _ => rewrite H; clear H end. done.
  - rewrite brace_plain; [done|]. match goal with H : _ || _ = true |- _ => by apply orb_true_iff in H as [->%Ascii.eqb_eq| ->%Ascii.eqb_eq] end.
  - simpl in Hp. apply andb_true_iff in Hp as [? _]. by rewrite brace_plain.
  - simpl in Hp. apply andb_true_iff in Hp as [? _]. by rewrite brace_plain.
Qed.

Lemma brace_scan limit l s s' : scan limit s l = Some s' → sane s = true →
  foldl brace_step (depth_of s) l = depth_of s'.
Proof.
  revert s. induction l as [|c l IH]; intros s; [by intros [= ->]|]. rewrite scan_cons. intros H Hp.
  destruct (scan_step limit s c) as [s1|] eqn:Hs; [|done]. simpl. rewrite (brace_sim _ _ _ _ Hs Hp). apply IH; [done|].
  by eapply step_plain.
Qed.

(** An object that lacks only its last brace gets it. *)
Lemma close_last limit l : scan limit (BeginValue, []) (l ++ ["}"%char]) = Some (EndTop, []) →
  close_braces l = l ++ ["}"%char].
Proof.
  intros H. pose proof (brace_scan _ _ _ _ H eq_refl) as Hall. rewrite foldl_app in Hall.
  rewrite scan_app in H. destruct (scan limit (BeginValue, []) l) as [s|] eqn:Hs; [|done]. simpl in H.
  pose proof (brace_scan _ _ _ _ Hs eq_refl) as Hl. rewrite Hl in Hall. unfold close_braces, jsonBraceDepth.
  change (MkBrace 0 false false) with (depth_of (BeginValue, [])). rewrite Hl. f_equal.
  assert (Hin : in_literal s.1 = false).
  { destruct s as [[] st]; try done; simpl in H; simpl; repeat case_match; done. }
  unfold brace_step in Hall. simpl in Hall. rewrite Hin in Hall. simpl in Hall.
  destruct s as [[] st]; simpl in *; try done; injection Hall as Hall;
    replace (objects_open st) with 1%Z by lia; done.
Qed.

Lemma scan_plain limit l s s' : scan limit s l = Some s' → sane s = true → sane s' = true.
Proof.
  revert s. induction l as [|c l IH]; intros s; [by intros [= ->]|]. rewrite scan_cons. intros H Hp.
  destruct (scan_step limit s c) as [s1|] eqn:Hs; [|done]. apply (IH s1); [done|]. by eapply step_plain.
Qed.

(** A valid text needs no brace. *)
Lemma close_nothing limit l : checkValid limit l = true → close_braces l = l.
Proof.
  unfold checkValid. intros H. destruct (scan limit (BeginValue, []) l) as [s|] eqn:Hs; [|done].
  pose proof (scan_plain _ _ _ _ Hs eq_refl) as Hp.
  pose proof (brace_scan _ _ _ _ Hs eq_refl) as Hl. unfold close_braces, jsonBraceDepth.
  change (MkBrace 0 false false) with (depth_of (BeginValue, [])). rewrite Hl.
  unfold scan_eof in H. destruct (scan_step limit s " ") as [[q st]|] eqn:Hq; [|done].
  destruct q; try done. pose proof (brace_sim _ _ _ _ Hq Hp) as Hb.
  assert (Hst : st = []).
  { destruct s as [q0 st0]. destruct q0 as [| | | | | | | |n| | | | | | | | |[|x k]]; simpl in Hq; try done;
      unfold stateBeginValue, stateEndValue, stateBeginString in Hq; repeat (case_match; simplify_eq/=); try done.
    injection Hq as <-. by destruct st0. }
  subst st. assert (Hd : (depth_of s).(depth) = 0%Z).
  { transitivity (brace_step (depth_of s) " ").(depth); [|by rewrite Hb]. by destruct (depth_of s) as [d [] []]. }
  rewrite Hd. simpl. by rewrite app_nil_r.
Qed.

(** ** The object is JSON *)

Lemma escape_inner s : EscapeJSONStringInner s = escape s.
Proof.
  unfold EscapeJSONStringInner, strip_quotes, Marshal.
  assert (Hl : length (cQuote :: escape s ++ [cQuote]) = S (S (length (escape s)))) by (simpl; rewrite length_app; simpl; lia).
  assert (Hlast : last (cQuote :: escape s ++ [cQuote]) = Some cQuote) by by rewrite app_comm_cons, last_snoc.
  rewrite Hl, Hlast. simpl. by rewrite Nat.sub_0_r, drop_0, take_app_length.
Qed.

(** What the text of a value, without one space on each side, becomes. *)
Lemma value_text_cases text : trimOneSpace text ≠ [] →
  let content := value_json (trimOneSpace text) in
  if Valid content then
    if decide (head (RawMessage content) = Some cQuote)
    then value_text text = Marshal (default [] (unquote (RawMessage content)))
    else value_text text = content
  else value_text text = Marshal content.
Proof.
  intros Hne. unfold value_text, value_added. cbv zeta. destruct (trimOneSpace text) as [|c l]; [done|].
  destruct (Valid _); [case_decide|]; simpl; rewrite ?andb_false_l, ?app_nil_r; try done.
  unfold quoted. by rewrite escape_inner.
Qed.

Lemma scan_value text base c : base ≠ [] → trimOneSpace text ≠ [] → isNumberContinuation c = false →
  scan (maxNestingDepth + N.of_nat (length base)) (BeginValue, base) (value_text text ++ [c]) = stateEndValue base c.
Proof.
  intros Hb Hne Hc. pose proof (value_text_cases text Hne) as Hv. cbv zeta in Hv.
  destruct (Valid _) eqn:Hvalid; [case_decide|]; rewrite Hv; try by apply scan_Marshal. by apply checkValid_embeds.
Qed.

Lemma scan_member q a c : q = BeginStringOrEmpty ∨ q = BeginString → trimOneSpace a.(arg_value) ≠ [] → isNumberContinuation c = false →
  scan (maxNestingDepth + 1) (q, [parseObjectKey]) (member_text a ++ [c]) = stateEndValue [parseObjectValue] c.
Proof.
  intros Hq Hne Hc. unfold member_text, Marshal. rewrite <- app_assoc. simpl. rewrite scan_cons.
  replace (scan_step _ (q, [parseObjectKey]) cQuote) with (Some (InString, [parseObjectKey])) by (by destruct Hq as [-> | ->]).
  simpl. rewrite <- app_assoc, scan_app, scan_escape. simpl. do 2 (rewrite scan_cons; simpl).
  by apply (scan_value _ [parseObjectValue]).
Qed.

Lemma scan_members q args : q = BeginStringOrEmpty ∨ q = BeginString → args ≠ [] →
  Forall (λ a, trimOneSpace a.(arg_value) ≠ []) args →
  scan (maxNestingDepth + 1) (q, [parseObjectKey]) (members_text args ++ ["}"%char]) = Some (EndTop, []).
Proof.
  intros Hq Hne Hall. revert q Hq. induction Hall as [|a args Ha Hall IH]; intros q Hq; [done|].
  destruct args as [|b args]; [by apply scan_member|].
  change (members_text (a :: b :: args)) with (member_text a ++ bytes "," ++ members_text (b :: args)).
  replace ((member_text a ++ bytes "," ++ members_text (b :: args)) ++ ["}"%char])
    with ((member_text a ++ [","%char]) ++ members_text (b :: args) ++ ["}"%char]) by by rewrite <- !app_assoc.
  rewrite scan_app.
  rewrite scan_member by done. apply IH; [done|by right].
Qed.

Lemma object_valid args : Forall (λ a, trimOneSpace a.(arg_value) ≠ []) args →
  scan (maxNestingDepth + 1) (BeginValue, []) (object_text args) = Some (EndTop, []).
Proof.
  intros Hall. unfold object_text. destruct args as [|a args]; [reflexivity|].
  change (bytes "{" ++ ?l) with ("{"%char :: l). rewrite scan_cons. apply (scan_members BeginStringOrEmpty); auto.
Qed.

Lemma close_object args : Forall (λ a, trimOneSpace a.(arg_value) ≠ []) args →
  close_braces (bytes "{" ++ more_members 0 args) = object_text args.
Proof.
  intros Hall. pose proof (object_valid args Hall) as H. unfold object_text in *.
  replace (more_members 0 args) with (members_text args) by by destruct args.
  rewrite app_assoc in H |- *. by apply (close_last (maxNestingDepth + 1)).
Qed.

(** ** From the AST to the calls *)

Record Call := MkCall { call_name : list ascii; call_text : list ascii; call_args : list Argument }.

(** A call whose arguments arrive whole: a name, no text that starts an object
    before the arguments, and no argument without a value. *)
Record call_ok (c : Call) : Prop := MkCallOk {
  ok_name : trimTrailingSpace c.(call_name) ≠ [];
  ok_text : head (trimTrailingSpace c.(call_text)) ≠ Some "{"%char;
  ok_args : Forall (λ a, trimOneSpace a.(arg_value) ≠ []) c.(call_args);
  ok_count : (Z.of_nat (length c.(call_args)) < 2 ^ 63)%Z;
}.

Definition tagged_call (c : Call) : ToolCall := MkToolCall (trimTrailingSpace c.(call_name)) (object_text c.(call_args)) [].

(** The events of an answer: its content, then calls.  The text that opens a
    call contains its name. *)
Definition answer_events (co : Call → list ascii) (cc ao ac : list ascii) (content : list ascii) (cs : list Call) : list event :=
  (TagContent, content, false) ::
  concat (map (λ c, call_events (co c) cc ao ac c.(call_name) c.(call_text) c.(call_args)) cs).

Lemma answer_calls co cc ao ac cs v : Forall call_ok cs →
  let v' := view_events (concat (map (λ c, call_events (co c) cc ao ac c.(call_name) c.(call_text) c.(call_args)) cs)) v in
  v'.(v_calls) = v.(v_calls) ++ map tagged_call cs ∧ v'.(v_content) = v.(v_content).
Proof.
  intros Hall. revert v. induction Hall as [|c cs Hc Hall IH]; intros v; cbv zeta; [by simpl; rewrite app_nil_r|].
  cbn [map concat]. unfold view_events. rewrite foldl_app.
  destruct (call_step (co c) cc ao ac _ _ _ v (ok_name _ Hc) (ok_text _ Hc) (ok_count _ Hc)) as [i Hi].
  unfold view_events in Hi. rewrite Hi, close_object by apply ok_args, Hc.
  destruct (IH (in_call v.(v_content) v.(v_reasoning) v.(v_calls) (trimTrailingSpace c.(call_name)) (object_text c.(call_args)) [] i false)) as [H1 H2].
  unfold view_events in H1, H2. rewrite H1, H2. simpl. split; [|done]. unfold tagged_call. by rewrite <- app_assoc.
Qed.

(** A reader of the string literal [doc] gets [text]: exactly, when [text] is
    UTF-8, and otherwise with U+FFFD for what is not. *)
Definition reads_back (doc text : list ascii) : Prop :=
  unquote doc = Some (ToValidUTF8 text) ∧ (utf8 text → unquote doc = Some text).

Lemma reads_back_Marshal text : reads_back (Marshal text) text.
Proof. split; [apply unquote_Marshal|]. intros Hu. by rewrite unquote_Marshal, ToValidUTF8_id. Qed.

Definition container (t : list ascii) : Prop := head t = Some "["%char ∨ head t = Some "{"%char.

(** What an argument says and what a reader of the object gets: [t] is the
    text without one white space at each end.  A text that begins with a
    bracket or a brace is requoted, every other one is taken as it is.  What
    that gives arrives as it is when it is JSON other than a string, as a
    literal of the same string when it is a JSON string, and otherwise as a
    string of it. *)
Definition value_faithful (text : list ascii) : Prop :=
  ∃ t content, trims_one text t ∧ (container t → requoted t content) ∧ (¬ container t → content = t) ∧
    (apostrophe ∉ t → content = t) ∧
    if Valid content then
      if decide (head (RawMessage content) = Some cQuote)
      then ∃ s, unquote (RawMessage content) = Some s ∧ unquote (value_text text) = Some s
      else value_text text = content
    else reads_back (value_text text) content.

Lemma value_reads text : trimOneSpace text ≠ [] → value_faithful text.
Proof.
  intros Hne. pose proof (value_text_cases text Hne) as H. unfold value_faithful. cbv zeta in H.
  assert (Hc : container (trimOneSpace text) → requoted (trimOneSpace text) (value_json (trimOneSpace text))).
  { intros Hc. unfold value_json. rewrite decide_True by done. apply normalize_requoted. }
  assert (Hp : ¬ container (trimOneSpace text) → value_json (trimOneSpace text) = trimOneSpace text)
    by (intros Hn; unfold value_json; by rewrite decide_False).
  exists (trimOneSpace text), (value_json (trimOneSpace text)). split_and!; [apply trimOneSpace_spec|done|done| |].
  { intros Hn. destruct (decide (container (trimOneSpace text))) as [Hct|]; [|by apply Hp].
    apply requoted_plain; [by apply Hc|done]. }
  destruct (Valid _) eqn:Hv; [|rewrite H; apply reads_back_Marshal].
  case_decide as Hq; [|done].
  destruct (valid_string _ Hv Hq) as (inner & Hraw & Hr). destruct (unquote_readable _ Hr) as [s Hs].
  rewrite Hraw, Hs in H |- *. exists s. split; [done|]. rewrite H. apply reads_back_Marshal. by eapply unquote_utf8.
Qed.

(** The key that a reader gets: the text without one white space in front and
    without all of it at the end. *)
Definition key_faithful (key : list ascii) : Prop :=
  ∃ k, trims_key key k ∧ reads_back (Marshal (trimSpace key)) k.

Lemma tagged_mapping spare ast result nodes co cc ao ac content cs :
  VisitResult (S (length ast)) ast result = Some nodes →
  trace nodes = answer_events co cc ao ac content cs →
  Forall call_ok cs →
  ∃ m, FromAST spare ast result NewMapper = Some (tt, m) ∧ m.(Content) = content ∧ calls m = map tagged_call cs.
Proof.
  intros Hvis Htr Hall. destruct (FromAST_view spare ast result nodes Hvis) as (m & Hm & Hs).
  exists m. split; [done|]. rewrite (shows_content _ _ Hs), (shows_calls_eq _ _ Hs), view_trace, Htr. unfold answer_events.
  unfold view_events. cbn [foldl]. by destruct (answer_calls co cc ao ac cs (view_event (TagContent, content, false) NewView) Hall).
Qed.

Lemma call_object c : call_ok c →
  checkValid (maxNestingDepth + 1) (object_text c.(call_args)) = true ∧
  trims_end c.(call_name) (tagged_call c).(Name) ∧
  Forall (λ a, value_faithful a.(arg_value) ∧ key_faithful a.(arg_key)) c.(call_args).
Proof.
  intros Hc. split_and!.
  - unfold checkValid. by rewrite (object_valid _ (ok_args _ Hc)).
  - apply trimTrailingSpace_spec.
  - eapply Forall_impl; [exact (ok_args _ Hc)|]. intros a Ha. split; [by apply value_reads|].
    exists (trimSpace a.(arg_key)). split; [apply trimSpace_spec|apply reads_back_Marshal].
Qed.

(** C9. The arguments of tagged calls are JSON: for an AST whose tags are a
    content and calls with their arguments, the mapper lists one call per call,
    in order, under the name without the white space at its end, whose arguments
    are an object with one member per argument: valid JSON (one level of nesting
    above what a value may use), under the key that reads back as the trimmed
    key.  The value is the text without one white space at each end; when that
    begins with a brace or a bracket its single-quoted strings are requoted
    first (so a text without apostrophes is unchanged, and one with them that
    is not JSON arrives altered).  It arrives as it is when it is JSON other
    than a string, as a literal of the same string when it is a JSON string, and
    otherwise as a string that reads back as it, bytes that are not UTF-8
    replaced.  Calls with an argument whose value is empty or white space of at
    most two characters are excluded, and so are calls whose text starts with a
    brace. *)
Theorem tagged_arguments spare ast result nodes co cc ao ac content cs :
  VisitResult (S (length ast)) ast result = Some nodes →
  trace nodes = answer_events co cc ao ac content cs →
  Forall call_ok cs →
  (∃ m, FromAST spare ast result NewMapper = Some (tt, m) ∧
    m.(Content) = content ∧ calls m = map tagged_call cs) ∧
  Forall (λ c, checkValid (maxNestingDepth + 1) (tagged_call c).(Arguments) = true ∧
    trims_end c.(call_name) (tagged_call c).(Name) ∧
    Forall (λ a, value_faithful a.(arg_value) ∧ key_faithful a.(arg_key)) c.(call_args)) cs.
Proof.
  intros Hvis Htr Hall. split; [by eapply tagged_mapping|]. eapply Forall_impl; [exact Hall|]. apply call_object.
Qed.
