(* ===== verification/PegChat.v ===== *)
(** * PegChat: the grammars of tool calls

    Models the grammar half of [pkg/functions/peg/chat.go]: [ChatBuilder] with
    its tags and [StandardConstructedTools] and [StandardJSONTools], which
    build, on the operations of [PegBuilder], a parser for the calls of given
    tools in the tagged and in the JSON formats.  The order in which Go walks
    the properties of a tool is a parameter. *)
From Stdlib Require Import Ascii.
From S2P Require Import Prelude GoMonad PegTypes PegTrie PegJson PegParser PegBuilder PegMapper.

(** The arguments of a call, evaluated from left to right. *)
Fixpoint args_in_order (l : list (B ParserID)) : B (list ParserID) :=
  match l with
  | [] => mret []
  | m :: l => id ← m; ids ← args_in_order l; mret (id :: ids)
  end.

Definition SeqOf (l : list (B ParserID)) : B ParserID := ids ← args_in_order l; Seq ids.
Definition ChoiceOf (l : list (B ParserID)) : B ParserID := ids ← args_in_order l; Choice ids.

(** [f(m())] *)
Notation "m |> f" := (mbind (M := B) f m) (at level 61, left associativity, only parsing) : go_scope.

(** ** Tags *)

Definition TagReasoningBlock := "reasoning-block".
Definition TagTool := "tool".
Definition TagToolArg := "tool-arg".

Definition ReasoningBlock (child : ParserID) : B ParserID := Tag_ TagReasoningBlock child.
Definition Reasoning (child : ParserID) : B ParserID := Tag_ TagReasoning child.
Definition Content_ (child : ParserID) : B ParserID := Tag_ TagContent child.
Definition Tool (child : ParserID) : B ParserID := Tag_ TagTool child.
Definition ToolOpen (child : ParserID) : B ParserID := id ← Tag_ TagToolOpen child; Atomic id.
Definition ToolClose (child : ParserID) : B ParserID := id ← Tag_ TagToolClose child; Atomic id.
Definition ToolID (child : ParserID) : B ParserID := id ← Tag_ TagToolID child; Atomic id.
Definition ToolName (child : ParserID) : B ParserID := id ← Tag_ TagToolName child; Atomic id.
Definition ToolArgs (child : ParserID) : B ParserID := Tag_ TagToolArgs child.
Definition ToolArg (child : ParserID) : B ParserID := Tag_ TagToolArg child.
Definition ToolArgOpen (child : ParserID) : B ParserID := id ← Tag_ TagToolArgOpen child; Atomic id.
Definition ToolArgClose (child : ParserID) : B ParserID := id ← Tag_ TagToolArgClose child; Atomic id.
Definition ToolArgName (child : ParserID) : B ParserID := id ← Tag_ TagToolArgName child; Atomic id.
Definition ToolArgValue (child : ParserID) : B ParserID := Tag_ TagToolArgValue child.
Definition ToolArgStringValue (child : ParserID) : B ParserID := Tag_ TagToolArgStrVal child.
Definition ToolArgJSONValue (child : ParserID) : B ParserID := id ← Tag_ TagToolArgValue child; Atomic id.

Definition TagWithSafeContent (tagName marker : string) (p : ParserID) : B ParserID :=
  if String.eqb marker "" then
    ChoiceOf [mret p; Any |> Content_ |> Rule_ tagName] |> ZeroOrMore
  else
    contentChunk ← SeqOf [Literal marker |> Negate; Any; Until marker] |> Content_ |> Rule_ tagName;
    Choice [p; contentChunk] |> ZeroOrMore.

(** ** Tools *)

Record PropDef := MkPropDef { prop_Type : string }.
Record ToolDef := MkToolDef { tool_Name : string; tool_Properties : gmap string PropDef }.

Definition quote_with (q : ascii) (s : string) : string := String q (s +:+ String q "").
Definition json_key (s : string) : string := quote_with cQuote s.

Section Constructed.
Context (walk : gmap string PropDef → list string).

(** [<key_prefix NAME key_suffix VALUE closer>] *)
Definition tagged_arg (paramKeyPrefix paramKeySuffix paramCloser : string) (name : B ParserID) : B ParserID :=
  SeqOf [Literal paramKeyPrefix |> ToolArgOpen; name |> ToolArgName; Literal paramKeySuffix;
         Until paramCloser |> ToolArgValue; Literal paramCloser |> ToolArgClose] |> ToolArg.

Definition call_id_section (callIDPrefix callIDSuffix : string) : B ParserID :=
  eps ← Eps;
  if negb (String.eqb callIDPrefix "") && negb (String.eqb callIDSuffix "")
  then SeqOf [Literal callIDPrefix; Until callIDSuffix |> ToolID; Literal callIDSuffix] |> Optional
  else mret eps.

(** The parser of one function: opener, name, call id, arguments, closer. *)
Definition tagged_tool (funcOpener funcNameSuffix funcCloser : string) (name : B ParserID) (callIDSection : ParserID)
    (args : B ParserID) : B ParserID :=
  SeqOf [SeqOf [Literal funcOpener; name |> ToolName; Literal funcNameSuffix] |> ToolOpen;
         mret callIDSection; Space; args; Space; Literal funcCloser |> ToolClose] |> Tool.

Definition generic_args (paramKeyPrefix paramKeySuffix paramCloser funcCloser : string) : B ParserID :=
  if negb (String.eqb paramKeyPrefix "") then
    argRule ← tagged_arg paramKeyPrefix paramKeySuffix paramCloser (Until paramKeySuffix);
    SeqOf [mret argRule; Space] |> ZeroOrMore |> ToolArgs
  else Until funcCloser |> ToolArgs.

Definition prop_arg (paramKeyPrefix paramKeySuffix paramCloser propName : string) : B ParserID :=
  argNameParser ← ChoiceOf [Literal propName; Literal (json_key propName); Literal (quote_with "'" propName)];
  tagged_arg paramKeyPrefix paramKeySuffix paramCloser (mret argNameParser).

Definition tool_args (paramKeyPrefix paramKeySuffix paramCloser funcCloser : string) (tool : ToolDef) : B ParserID :=
  eps ← Eps;
  if negb (String.eqb paramKeyPrefix "") && Nat.ltb 0 (size tool.(tool_Properties)) then
    argParsers ← args_in_order (map (prop_arg paramKeyPrefix paramKeySuffix paramCloser) (walk tool.(tool_Properties)));
    argChoice ← Choice argParsers;
    SeqOf [mret argChoice; Space] |> ZeroOrMore
  else if String.eqb paramKeyPrefix "" then Until funcCloser
  else mret eps.

Definition StandardConstructedTools (markers : gmap string string) (tools : list ToolDef)
    (parallelToolCalls forceToolCalls : bool) : B ParserID :=
  let getMarker key defaultVal := default defaultVal (markers !! key) in
  let sectionStart := getMarker "tool_call_start_marker" "<tool_call>" in
  let sectionEnd := getMarker "tool_call_end_marker" "</tool_call>" in
  let funcOpener := getMarker "function_opener" "<function=" in
  let funcNameSuffix := getMarker "function_name_suffix" ">" in
  let funcCloser := getMarker "function_closer" "</function>" in
  let paramKeyPrefix := getMarker "parameter_key_prefix" "<param=" in
  let paramKeySuffix := getMarker "parameter_key_suffix" ">" in
  let paramCloser := getMarker "parameter_closer" "</param>" in
  let callIDPrefix := getMarker "call_id_prefix" "" in
  let callIDSuffix := getMarker "call_id_suffix" "" in
  toolChoices ←
    match tools with
    | [] =>
        args ← generic_args paramKeyPrefix paramKeySuffix paramCloser funcCloser;
        callIDSection ← call_id_section callIDPrefix callIDSuffix;
        toolParser ← tagged_tool funcOpener funcNameSuffix funcCloser (Until funcNameSuffix) callIDSection (mret args);
        id ← Rule_ "tool-generic" toolParser; mret [id]
    | _ =>
        args_in_order (map (λ tool,
          args ← tool_args paramKeyPrefix paramKeySuffix paramCloser funcCloser tool;
          toolCallIDSection ← call_id_section callIDPrefix callIDSuffix;
          toolParser ← tagged_tool funcOpener funcNameSuffix funcCloser (Literal tool.(tool_Name)) toolCallIDSection (ToolArgs args);
          Rule_ ("tool-" +:+ tool.(tool_Name)) toolParser) tools)
    end;
  toolChoice ← Choice toolChoices;
  section ←
    (if parallelToolCalls
     then SeqOf [Literal sectionStart; Space; SeqOf [mret toolChoice; Space] |> OneOrMore; Literal sectionEnd]
     else SeqOf [Literal sectionStart; Space; mret toolChoice; Space; Literal sectionEnd]) |> TriggerRule "tool-call";
  if forceToolCalls then mret section else Optional section.
End Constructed.

(** ** JSON tools *)

Record StandardJSONToolsOpts := MkJSONOpts {
  SectionStart : string;
  SectionEnd : string;
  Tools : list ToolDef;
  ParallelCalls : bool;
  ForceToolCalls : bool;
  NameKey : string;
  ArgsKey : string;
  ArrayWrapped : bool;
  FunctionIsKey : bool;
  CallIDKey : string;
  GenCallIDKey : string;
  ParametersOrder : list string;
}.

(** A key with a dot, split at the first one. *)
Record keySpec := MkKeySpec { spec_prefix : string; spec_field : string }.

Fixpoint key_loop (before key : string) : option keySpec :=
  match key with
  | EmptyString => None
  | String c rest =>
      if Ascii.eqb c "." then Some (MkKeySpec before rest) else key_loop (before +:+ String c "") rest
  end.

Definition parseKeySpec (key : string) : keySpec := default (MkKeySpec "" key) (key_loop "" key).

(** The field ["key": "id"], the quotes around the id included. *)
Definition quoted_string : list (B ParserID) :=
  [Literal (String cQuote ""); JSONString |> ToolID; Literal (String cQuote "")].

Definition string_or_number : B ParserID := ChoiceOf [SeqOf quoted_string; JSONNumber |> ToolID].

Definition key_colon (key : string) : list (B ParserID) := [Literal (json_key key); Space; Literal ":"; Space].

Definition id_field (key : string) : B ParserID := SeqOf (key_colon key ++ quoted_string) |> Atomic.
Definition gen_id_field (key : string) : B ParserID := SeqOf (key_colon key ++ [string_or_number]) |> Atomic.

Definition non_empty (s : string) : bool := negb (String.eqb s "").

Definition function_is_key_tool (argsKey effectiveArgsKey callIDKey genCallIDKey : string) (tool : ToolDef) : B ParserID :=
  let optional_field field := SeqOf [mret field; Space; SeqOf [Literal ","; Space] |> Optional] |> Optional in
  idFields ← (if non_empty callIDKey then idParser ← id_field callIDKey; f ← optional_field idParser; mret [f] else mret []);
  genFields ← (if non_empty genCallIDKey then genIDParser ← gen_id_field genCallIDKey; f ← optional_field genIDParser; mret [f] else mret []);
  argsParser ←
    (if String.eqb argsKey "" then JSON |> ToolArgs
     else SeqOf (key_colon effectiveArgsKey ++ [JSON |> ToolArgs]));
  let innerFields := idFields ++ genFields ++ [argsParser] in
  innerObject ←
    (if String.eqb argsKey "" && Nat.eqb (length innerFields) 1 then lift (innerFields !! 0)
     else
       brace ← Literal "{";
       inner ← for_acc (imap pair innerFields) brace (λ inner '(i, f),
         inner ← SeqOf [mret inner; Space; mret f];
         if Nat.ltb i (length innerFields - 1) then SeqOf [mret inner; Space] else mret inner);
       SeqOf [mret inner; Space; Literal "}"]);
  toolParser ← SeqOf [Literal "{" |> ToolOpen; Space; Literal (String cQuote ""); Literal tool.(tool_Name) |> ToolName;
    Literal (String cQuote ""); Space; Literal ":"; Space; mret innerObject; Space; Literal "}" |> ToolClose] |> Tool;
  Rule_ ("tool-" +:+ tool.(tool_Name)) toolParser.

Definition buildJSONToolsFunctionIsKey (tools : list ToolDef) (argsKey effectiveArgsKey callIDKey genCallIDKey : string) : B ParserID :=
  toolChoices ← args_in_order (map (function_is_key_tool argsKey effectiveArgsKey callIDKey genCallIDKey) tools);
  Choice toolChoices.

Definition nested_tool (nestedPrefix nestedNameField nestedArgsField callIDKey genCallIDKey : string) (tool : ToolDef) : B ParserID :=
  nestedName ← SeqOf (key_colon nestedNameField ++
    [Literal (String cQuote ""); Literal tool.(tool_Name) |> ToolName; Literal (String cQuote "")]);
  nestedArgs ← SeqOf (key_colon nestedArgsField ++ [JSON |> ToolArgs]);
  nestedObject ← SeqOf [Literal "{"; Space; mret nestedName; Space; Literal ","; Space; mret nestedArgs; Space; Literal "}"];
  body ← Literal "{" |> ToolOpen;
  body ←
    (if non_empty callIDKey && String.eqb (parseKeySpec callIDKey).(spec_prefix) "" then
       idParser ← id_field callIDKey;
       SeqOf [mret body; Space; SeqOf [mret idParser; Space; Literal ","; Space] |> Optional]
     else mret body);
  body ←
    (if non_empty genCallIDKey && String.eqb (parseKeySpec genCallIDKey).(spec_prefix) "" then
       genIDParser ← gen_id_field genCallIDKey;
       SeqOf [mret body; Space; SeqOf [mret genIDParser; Space; Literal ","; Space] |> Optional]
     else mret body);
  nestedField ← SeqOf (key_colon nestedPrefix ++ [mret nestedObject]);
  body ← SeqOf [mret body; Space; mret nestedField; Space; Literal "}" |> ToolClose];
  Tool body |> Rule_ ("tool-" +:+ tool.(tool_Name)).

Definition buildJSONToolsNestedKeys (tools : list ToolDef) (effectiveNameKey effectiveArgsKey callIDKey genCallIDKey : string) : B ParserID :=
  let nameSpec := parseKeySpec effectiveNameKey in
  let argsSpec := parseKeySpec effectiveArgsKey in
  let nestedPrefix := if String.eqb nameSpec.(spec_prefix) "" then argsSpec.(spec_prefix) else nameSpec.(spec_prefix) in
  let nestedNameField := if String.eqb nameSpec.(spec_prefix) "" then effectiveNameKey else nameSpec.(spec_field) in
  let nestedArgsField := if String.eqb argsSpec.(spec_prefix) "" then effectiveArgsKey else argsSpec.(spec_field) in
  toolChoices ← args_in_order (map (nested_tool nestedPrefix nestedNameField nestedArgsField callIDKey genCallIDKey) tools);
  Choice toolChoices.

(** [sortPairsByOrder]: insertion sort by the position of the key in [order],
    the keys that are not there last; an element moves down past those with a
    greater position. *)
Record parserPair := MkPair { pair_parser : ParserID; pair_key : string }.

Fixpoint indexOf (order : list string) (key : string) : nat :=
  match order with
  | [] => 0
  | o :: order => if String.eqb o key then 0 else S (indexOf order key)
  end.

Fixpoint sink (order : list string) (x : parserPair) (sorted_reversed : list parserPair) : list parserPair :=
  match sorted_reversed with
  | y :: l =>
      if Nat.ltb (indexOf order x.(pair_key)) (indexOf order y.(pair_key)) then y :: sink order x l else x :: sorted_reversed
  | [] => [x]
  end.

Definition sortPairsByOrder (pairs : list parserPair) (order : list string) : list parserPair :=
  reverse (foldl (λ acc x, sink order x acc) [] pairs).

Definition flat_tool (nameKeyParser argsKeyParser : ParserID) (effectiveNameKey effectiveArgsKey callIDKey genCallIDKey : string)
    (parametersOrder : list string) (tool : ToolDef) : B ParserID :=
  toolNameP ← SeqOf [mret nameKeyParser; Space; Literal ":"; Space; Literal (String cQuote "");
    Literal tool.(tool_Name) |> ToolName; Literal (String cQuote "")];
  toolArgsP ← SeqOf [mret argsKeyParser; Space; Literal ":"; Space; JSON |> ToolArgs];
  let optional_id key := gen_id_field key |> Optional in
  idPairs ← (if non_empty callIDKey then p ← optional_id callIDKey; mret [MkPair p callIDKey] else mret []);
  genPairs ← (if non_empty genCallIDKey then p ← optional_id genCallIDKey; mret [MkPair p genCallIDKey] else mret []);
  let pairs := [MkPair toolNameP effectiveNameKey; MkPair toolArgsP effectiveArgsKey] ++ idPairs ++ genPairs in
  let pairs := match parametersOrder with [] => pairs | _ => sortPairsByOrder pairs parametersOrder end in
  orderedBody ← Literal "{" |> ToolOpen;
  orderedBody ← for_acc (imap pair pairs) orderedBody (λ body '(i, p),
    body ← SeqOf [mret body; Space; mret p.(pair_parser)];
    if Nat.ltb i (length pairs - 1) then SeqOf [mret body; Space; Literal ","; Space] else mret body);
  orderedBody ← SeqOf [mret orderedBody; Space; Literal "}" |> ToolClose];
  Tool orderedBody |> Rule_ ("tool-" +:+ tool.(tool_Name)).

Definition buildJSONToolsFlatKeys (tools : list ToolDef) (effectiveNameKey effectiveArgsKey callIDKey genCallIDKey : string)
    (parametersOrder : list string) : B ParserID :=
  nameKeyParser ← Literal (json_key effectiveNameKey);
  argsKeyParser ← Literal (json_key effectiveArgsKey);
  toolChoices ← args_in_order (map (flat_tool nameKeyParser argsKeyParser effectiveNameKey effectiveArgsKey callIDKey genCallIDKey
    parametersOrder) tools);
  Choice toolChoices.

Definition StandardJSONTools (opts : StandardJSONToolsOpts) : B ParserID :=
  match opts.(Tools) with
  | [] => Eps
  | tools =>
      let effectiveNameKey := if String.eqb opts.(NameKey) "" then "name" else opts.(NameKey) in
      let effectiveArgsKey := if String.eqb opts.(ArgsKey) "" then "arguments" else opts.(ArgsKey) in
      toolChoices ←
        (if opts.(FunctionIsKey) then
           buildJSONToolsFunctionIsKey tools opts.(ArgsKey) effectiveArgsKey opts.(CallIDKey) opts.(GenCallIDKey)
         else if non_empty (parseKeySpec effectiveNameKey).(spec_prefix) || non_empty (parseKeySpec effectiveArgsKey).(spec_prefix) then
           buildJSONToolsNestedKeys tools effectiveNameKey effectiveArgsKey opts.(CallIDKey) opts.(GenCallIDKey)
         else buildJSONToolsFlatKeys tools effectiveNameKey effectiveArgsKey opts.(CallIDKey) opts.(GenCallIDKey) opts.(ParametersOrder));
      toolCalls ←
        (if opts.(ParallelCalls) then
           SeqOf [mret toolChoices; SeqOf [Space; Literal ","; Space; mret toolChoices] |> ZeroOrMore]
         else mret toolChoices);
      toolCalls ←
        (if opts.(ArrayWrapped) then SeqOf [Literal "["; Space; mret toolCalls; Space; Literal "]"] else mret toolCalls);
      section ← SeqOf [Literal opts.(SectionStart); Space; mret toolCalls; Space; Literal opts.(SectionEnd)] |> TriggerRule "tool-call";
      if opts.(ForceToolCalls) then mret section else Optional section
  end.

(** [BuildChatPegParser] *)
Definition BuildChatPegParser (fn : B ParserID) : option Arena := BuildPegParser fn.

Example key_spec_example : parseKeySpec "function.name" = MkKeySpec "function" "name".
Proof. reflexivity. Qed.
Example sort_example : map pair_key (sortPairsByOrder [MkPair 0 "name"; MkPair 1 "arguments"; MkPair 2 "id"] ["id"; "name"]) =
  ["id"; "name"; "arguments"].
Proof. reflexivity. Qed.
