(* ===== verification/PegIntegration.v ===== *)
(** * PegIntegration: from a model's answer to its tool calls

    Models [pkg/functions/peg_integration.go], with the formats and presets of
    [parse.go]: which grammar is built for a format or for the markers that the
    backend detected, and [ParseFunctionCallPEG], which tries them in order and
    maps the first parse that finds a call.  Parsing runs on the fuel of a
    grammar without references to later parsers, which [PegChatTotal] shows to
    be enough. *)
From Stdlib Require Import Ascii.
From S2P Require Import Prelude GoMonad PegTypes PegTrie PegJson PegParser PegTotal PegBuilder GoJson PegMapper PegChat.

Record XMLToolCallFormat := MkFormat {
  ScopeStart : string;
  ToolStart : string;
  ToolSep : string;
  KeyStart : string;
  KeyValSep : string;
  ValEnd : string;
  ToolEnd : string;
  ScopeEnd : string;
  KeyValSep2 : option string;
  RawArgVal : option bool;
  LastValEnd : option string;
  LastToolEnd : option string;
  TrimRawArgVal : bool;
  AllowToolcallInThink : bool;
}.

(** The fields that the grammars read. *)
Record ToolFormatMarkers := MkMarkers {
  FormatType : string;
  m_SectionStart : string;
  m_SectionEnd : string;
  PerCallStart : string;
  PerCallEnd : string;
  FuncNamePrefix : string;
  FuncNameSuffix : string;
  FuncClose : string;
  ArgNamePrefix : string;
  ArgNameSuffix : string;
  ArgValueSuffix : string;
  NameField : string;
  ArgsField : string;
  IDField : string;
  GenIDField : string;
  CallIDPosition : string;
  CallIDPrefix : string;
  CallIDSuffix : string;
}.

Definition getAllXMLFormats : list (string * XMLToolCallFormat) :=
  [("functionary", MkFormat "" "<function=" ">" "" "" "" "</function>" "" None (Some false) None None false false);
   ("qwen3-coder", MkFormat "<tool_call>" "<function=" ">" "<parameter=" ">" "</parameter>" "</function>" "</tool_call>" None None None None true false);
   ("qwen3.5", MkFormat "<tool_call>" "<function=" ">" "<parameter=" ">" "</parameter>" "</function>" "</tool_call>" None None None None true false);
   ("lfm3", MkFormat "<tool_call>" "<function=" ">" "<parameter=" ">" "</parameter>" "</function>" "</tool_call>" None None None None true false);
   ("glm-4.5", MkFormat "" "<tool_call>" "" "<arg_key>" "</arg_key>" "</arg_value>" "</tool_call>" "" (Some "<arg_value>") None None None false false);
   ("minimax-m2", MkFormat "<minimax:tool_call>" ("<invoke name=" +:+ (String cQuote "")) ((String cQuote "") +:+ ">") ("<parameter name=" +:+ (String cQuote "")) ((String cQuote "") +:+ ">") "</parameter>" "</invoke>" "</minimax:tool_call>" None None None None false false);
   ("kimi-k2", MkFormat "<|tool_calls_section_begin|>" "<|tool_call_begin|>" "<|tool_call_argument_begin|>{" (String cQuote "") ((String cQuote "") +:+ ":") "," "}<|tool_call_end|>" "<|tool_calls_section_end|>" None (Some false) (Some "") None false true);
   ("apriel-1.5", MkFormat "<tool_calls>[" ("{" +:+ (String cQuote "") +:+ "name" +:+ (String cQuote "") +:+ ": " +:+ (String cQuote "")) ((String cQuote "") +:+ ", " +:+ (String cQuote "") +:+ "arguments" +:+ (String cQuote "") +:+ ": {") (String cQuote "") ((String cQuote "") +:+ ": ") ", " "}, " "]</tool_calls>" None (Some false) (Some "") (Some "}") false false);
   ("xiaomi-mimo", MkFormat "" ("<tool_call>" +:+ (String "010" "") +:+ "{" +:+ (String cQuote "") +:+ "name" +:+ (String cQuote "") +:+ ": " +:+ (String cQuote "")) ((String cQuote "") +:+ ", " +:+ (String cQuote "") +:+ "arguments" +:+ (String cQuote "") +:+ ": {") (String cQuote "") ((String cQuote "") +:+ ": ") ", " ("}" +:+ (String "010" "") +:+ "</tool_call>") "" None (Some false) (Some "") None false false)].

Definition GetXMLFormatPreset (name : string) : option XMLToolCallFormat :=
  snd <$> List.find (λ f, String.eqb f.1 name) getAllXMLFormats.

Inductive PEGFormatType := FormatJSONNative | FormatTagWithJSON | FormatTagWithTagged.

#[export] Instance PEGFormatType_eq_dec : EqDecision PEGFormatType.
Proof. solve_decision. Defined.

Definition classifyXMLFormat (f : XMLToolCallFormat) : PEGFormatType :=
  let hasTagOpener := non_empty f.(ToolStart) && non_empty f.(ToolSep) in
  match f.(RawArgVal) with
  | Some false =>
      if hasTagOpener then FormatTagWithJSON
      else if String.eqb f.(KeyStart) "" || String.eqb f.(KeyStart) (String cQuote "") then FormatJSONNative
      else FormatTagWithJSON
  | _ => if non_empty f.(KeyStart) then FormatTagWithTagged else FormatTagWithJSON
  end.

(** [strings.TrimRight(s, " \t\n")] *)
Definition trim_right (s : string) : string :=
  let blank c := Ascii.eqb c " " || Ascii.eqb c "009" || Ascii.eqb c "010" in
  let fix drop_blank l := match l with c :: l' => if blank c then drop_blank l' else l | [] => [] end in
  String.string_of_list_ascii (reverse (drop_blank (reverse (bytes s)))).

(** ** Grammars *)

(** No property of a tool is walked: the tools are always empty here. *)
Definition no_walk (properties : gmap string PropDef) : list string := [].

(** Content up to a delimiter, perhaps calls, and the end of the input. *)
Definition answer_grammar (contentDelim : string) (toolCall : B ParserID) : B ParserID :=
  content ← Until contentDelim |> Content_;
  toolCall ← toolCall;
  SeqOf [mret content; SeqOf [Space; mret toolCall] |> Optional; End_].

Definition scope_markers (scopeStart scopeEnd : string) : gmap string string :=
  if non_empty scopeStart then <["tool_call_start_marker" := scopeStart]> (<["tool_call_end_marker" := scopeEnd]> ∅) else ∅.

Definition function_markers (opener suffix closer key_prefix key_suffix param_closer : string) (m : gmap string string) : gmap string string :=
  <["function_opener" := opener]> (<["function_name_suffix" := suffix]> (<["function_closer" := closer]>
  (<["parameter_key_prefix" := key_prefix]> (<["parameter_key_suffix" := key_suffix]> (<["parameter_closer" := param_closer]> m))))).

Definition buildTaggedPEGParser (f : XMLToolCallFormat) : option Arena :=
  let markers := function_markers f.(ToolStart) f.(ToolSep) f.(ToolEnd) f.(KeyStart) f.(KeyValSep) f.(ValEnd)
    (scope_markers f.(ScopeStart) f.(ScopeEnd)) in
  let contentDelim := if String.eqb f.(ScopeStart) "" then f.(ToolStart) else f.(ScopeStart) in
  BuildChatPegParser (answer_grammar contentDelim (
    if non_empty f.(ScopeStart) then StandardConstructedTools no_walk markers [] true false
    else
      args ← generic_args f.(KeyStart) f.(KeyValSep) f.(ValEnd) f.(ToolEnd);
      toolParser ← SeqOf [SeqOf [Literal f.(ToolStart); Until f.(ToolSep) |> ToolName; Literal f.(ToolSep)] |> ToolOpen;
        Space; mret args; Space; Literal f.(ToolEnd) |> ToolClose] |> Tool;
      SeqOf [mret toolParser; Space] |> OneOrMore |> TriggerRule "tool-call")).

(** A JSON object with the given known fields, in any order. *)
Definition native_call (sectionStart sectionEnd : string) (knownFields : B ParserID) : B ParserID :=
  SeqOf [Literal sectionStart; Space;
    SeqOf [Literal "{" |> ToolOpen; Space;
      SeqOf [knownFields; SeqOf [Space; Literal ","; Space] |> Optional] |> ZeroOrMore;
      Space; Literal "}" |> ToolClose] |> Tool;
    Space; Literal sectionEnd] |> TriggerRule "tool-call".

Definition name_field (key : string) : B ParserID :=
  SeqOf (key_colon key ++ [Literal (String cQuote ""); JSONString |> ToolName; Literal (String cQuote "")]).
Definition args_field (key : string) : B ParserID := SeqOf (key_colon key ++ [JSON |> ToolArgs]).
Definition any_field : B ParserID :=
  SeqOf [Literal (String cQuote ""); JSONString; Literal (String cQuote ""); Space; Literal ":"; Space; JSON].

(** The call comes before the content here. *)
Definition native_grammar (sectionStart : string) (toolCall : B ParserID) : B ParserID :=
  toolCall ← toolCall;
  content ← Until sectionStart |> Content_;
  SeqOf [mret content; SeqOf [Space; mret toolCall] |> Optional; End_].

Definition buildJSONNativePEGParser (f : XMLToolCallFormat) : option (option Arena) :=
  let sectionStart := if String.eqb f.(ScopeStart) "" && non_empty f.(ToolStart) then f.(ToolStart) else f.(ScopeStart) in
  let sectionEnd := if String.eqb f.(ScopeEnd) "" && non_empty f.(ToolEnd) then f.(ToolEnd) else f.(ScopeEnd) in
  if String.eqb sectionStart "" || String.eqb sectionEnd "" then Some None else
  a ← BuildChatPegParser (native_grammar sectionStart (native_call sectionStart sectionEnd
    (ChoiceOf [name_field "name"; args_field "arguments"; any_field])));
  Some (Some a).

(** [None] is a panic, [Some None] the nil arena. *)
Definition BuildPEGParserFromFormat (f : XMLToolCallFormat) (pegType : PEGFormatType) : option (option Arena) :=
  match pegType with
  | FormatTagWithTagged | FormatTagWithJSON => a ← buildTaggedPEGParser f; Some (Some a)
  | FormatJSONNative => buildJSONNativePEGParser f
  end.

Definition effectiveScope (m : ToolFormatMarkers) : string * string :=
  if non_empty m.(m_SectionStart) then (trim_right m.(m_SectionStart), trim_right m.(m_SectionEnd))
  else if non_empty m.(PerCallStart) then (trim_right m.(PerCallStart), trim_right m.(PerCallEnd))
  else ("", "").

Definition call_id_markers (m : ToolFormatMarkers) (markers : gmap string string) : gmap string string :=
  if String.eqb m.(CallIDPosition) "between_func_and_args"
  then <["call_id_prefix" := m.(CallIDPrefix)]> (<["call_id_suffix" := m.(CallIDSuffix)]> markers) else markers.

Definition buildCallIDParser (m : ToolFormatMarkers) : B ParserID :=
  if String.eqb m.(CallIDPosition) "between_func_and_args" && non_empty m.(CallIDPrefix) && non_empty m.(CallIDSuffix)
  then SeqOf [Literal m.(CallIDPrefix); Until m.(CallIDSuffix) |> ToolID; Literal m.(CallIDSuffix)] |> Optional
  else Eps.

Definition buildPEGFromMarkersTagJSON (m : ToolFormatMarkers) : option Arena :=
  let '(scopeStart, scopeEnd) := effectiveScope m in
  let markers := call_id_markers m (function_markers (trim_right m.(FuncNamePrefix)) (trim_right m.(FuncNameSuffix))
    (trim_right m.(FuncClose)) "" "" "" (scope_markers scopeStart scopeEnd)) in
  let contentDelim := if String.eqb scopeStart "" then trim_right m.(FuncNamePrefix) else scopeStart in
  BuildChatPegParser (answer_grammar contentDelim (
    if non_empty scopeStart then StandardConstructedTools no_walk markers [] true false
    else
      args ← Until m.(FuncClose) |> ToolArgs;
      callIDSection ← buildCallIDParser m;
      toolParser ← tagged_tool m.(FuncNamePrefix) m.(FuncNameSuffix) m.(FuncClose) (Until m.(FuncNameSuffix)) callIDSection (mret args);
      SeqOf [mret toolParser; Space] |> OneOrMore |> TriggerRule "tool-call")).

Definition buildPEGFromMarkersTagTagged (m : ToolFormatMarkers) : option Arena :=
  let '(scopeStart, scopeEnd) := effectiveScope m in
  let markers := call_id_markers m (function_markers (trim_right m.(FuncNamePrefix)) (trim_right m.(FuncNameSuffix))
    (trim_right m.(FuncClose)) (trim_right m.(ArgNamePrefix)) (trim_right m.(ArgNameSuffix)) (trim_right m.(ArgValueSuffix))
    (scope_markers scopeStart scopeEnd)) in
  let contentDelim := if String.eqb scopeStart "" then trim_right m.(FuncNamePrefix) else scopeStart in
  BuildChatPegParser (answer_grammar contentDelim (StandardConstructedTools no_walk markers [] true false)).

Definition buildPEGFromMarkersJSONNative (m : ToolFormatMarkers) : option (option Arena) :=
  let '(sectionStart, sectionEnd) := effectiveScope m in
  if String.eqb sectionStart "" || String.eqb sectionEnd "" then Some None else
  let nameKey := if String.eqb m.(NameField) "" then "name" else m.(NameField) in
  let argsKey := if String.eqb m.(ArgsField) "" then "arguments" else m.(ArgsField) in
  let idField := m.(IDField) in
  let genIDField := m.(GenIDField) in
  a ← BuildChatPegParser (
    knownFields ← args_in_order ([name_field nameKey; args_field argsKey] ++
      (if non_empty idField then [SeqOf (key_colon idField ++ quoted_string)] else []) ++
      (if non_empty genIDField && negb (String.eqb genIDField idField) then [SeqOf (key_colon genIDField ++ quoted_string)] else []) ++
      [any_field]);
    native_grammar sectionStart (native_call sectionStart sectionEnd (Choice knownFields)));
  Some (Some a).

Definition BuildPEGParserFromMarkers (m : ToolFormatMarkers) : option (option Arena) :=
  if String.eqb m.(FormatType) "tag_with_json" then a ← buildPEGFromMarkersTagJSON m; Some (Some a)
  else if String.eqb m.(FormatType) "tag_with_tagged" then a ← buildPEGFromMarkersTagTagged m; Some (Some a)
  else if String.eqb m.(FormatType) "json_native" then buildPEGFromMarkersJSONNative m
  else Some None.

(** ** Parsing *)

(** A rank by position: children come before their parents, and references
    after everything else, since nothing built refers to one. *)
Definition position_rank (n i : nat) (p : Parser) : nat := match p with RefParser _ => n + i | _ => i end.

Definition position_certificate (a : Arena) : certificate :=
  MkCertificate [] (imap (position_rank (length a.(parsers))) a.(parsers)).

(** [parsePEG]: the calls found; none when the parse does not succeed. *)
Definition parsePEG (spare : nat → nat) (arena : Arena) (input : list ascii) : option (list ToolCall) :=
  '(result, ast) ← ParseFrom (parse_fuel (position_certificate arena) (length input)) arena (MkContext input false) 0 [];
  if decide (result.(Type_) = Success) then
    '(_, m) ← FromAST spare ast result NewMapper; Some (calls m)
  else Some [].

Record FunctionsConfig := MkFunctionsConfig {
  cfg_ToolFormatMarkers : option ToolFormatMarkers;
  XMLFormatPreset : string;
  XMLFormat : option XMLToolCallFormat;
}.

(** The calls of the first attempt that finds any. *)
Fixpoint first_found (attempts : list (unit → option (list ToolCall))) : option (list ToolCall) :=
  match attempts with
  | [] => Some []
  | attempt :: attempts =>
      results ← attempt tt;
      match results with [] => first_found attempts | _ => Some results end
  end.

Definition parse_with (spare : nat → nat) (arena : option (option Arena)) (input : list ascii) : option (list ToolCall) :=
  a ← arena;
  match a with Some a => parsePEG spare a input | None => Some [] end.

Definition parse_format (spare : nat → nat) (input : list ascii) (f : XMLToolCallFormat) : option (list ToolCall) :=
  parse_with spare (BuildPEGParserFromFormat f (classifyXMLFormat f)) input.

Definition ParseFunctionCallPEG (spare : nat → nat) (llmresult : list ascii) (config : FunctionsConfig) : option (list ToolCall) :=
  let from_markers := match config.(cfg_ToolFormatMarkers) with
    | Some m => [λ _ : unit, parse_with spare (BuildPEGParserFromMarkers m) llmresult] | None => [] end in
  let from_preset := match (if non_empty config.(XMLFormatPreset) then GetXMLFormatPreset config.(XMLFormatPreset) else None) with
    | Some f => [λ _ : unit, parse_format spare llmresult f] | None => [] end in
  let from_format := match config.(XMLFormat) with Some f => [λ _ : unit, parse_format spare llmresult f] | None => [] end in
  let detect := concat (map (λ t,
    map (λ p _, parse_format spare llmresult p.2) (List.filter (λ p, bool_decide (classifyXMLFormat p.2 = t)) getAllXMLFormats))
    [FormatJSONNative; FormatTagWithJSON; FormatTagWithTagged]) in
  first_found (from_markers ++ from_preset ++ from_format ++ detect).
