(* ===== verification/PegChatTotal.v ===== *)
(** * PegChatTotal: the grammars of tool calls parse every answer

    Everything the chat builder builds refers only to parsers built before, and
    to rules; so the built grammars have no left recursion and parse every
    input, whatever the markers, the tools and the options, as long as no rule
    takes the name of a rule that is already referred to.  A tool named [call]
    does that: its rule is replaced by the one of the whole section. *)
From Stdlib Require Import Ascii.
From S2P Require Import Prelude GoMonad PegTypes PegTrie PegJson PegParser PegTotal PegBuilder PegBuilt GoJson PegMapper PegMapping PegChat PegIntegration.

(** ** Well-founded arenas *)

(** The names that may be referred to by other parsers. *)
Abbreviation names := (string → Prop) (only parsing).

Definition older (a b : Arena) : Prop := a.(parsers) `prefix_of` b.(parsers).

Lemma older_refl a : older a a.
Proof. by exists []; rewrite app_nil_r. Qed.

Lemma older_trans a b c : older a b → older b c → older a c.
Proof. unfold older. by intros ->. Qed.

(** An identifier that a parser may have as its child. *)
Definition good (U : names) (a : Arena) (id : ParserID) : Prop :=
  ∃ p, a.(parsers) !! id = Some p ∧ ∀ name, ref_name p = Some name → U name.

Lemma good_older U a b id : older a b → good U a id → good U b id.
Proof. intros Hab (p & Hp & H). exists p. split; [by eapply prefix_lookup_Some|done]. Qed.

Lemma good_weaken (U V : names) a id : (∀ name, U name → V name) → good U a id → good V a id.
Proof. intros HUV (p & Hp & H). exists p. split; [done|]. intros name Hn. by apply HUV, H. Qed.

Lemma goods_older U a b l : older a b → Forall (good U a) l → Forall (good U b) l.
Proof. intros Hab Hl. eapply Forall_impl; [exact Hl|]. intros id. by apply good_older. Qed.

(** The child [c] of the parser at [i]. *)
Definition child_ok (U : names) (a : Arena) (i c : nat) : Prop :=
  c < i ∧ good U a c ∧ ∀ q name, a.(parsers) !! c = Some q → ref_name q = Some name → ∃ r, a.(rules) !! name = Some r ∧ r < i.

Record grounded (U : names) (a : Arena) : Prop := MkGrounded {
  g_children : ∀ i p, a.(parsers) !! i = Some p → ref_name p = None → Forall (child_ok U a i) (all_children a p);
  g_refs : ∀ j name, a.(parsers) !! j = Some (RefParser name) → is_Some (a.(rules) !! name);
  g_rules : rules_ok a;
}.

Lemma grounded_new U : grounded U NewArena.
Proof. split; [by intros ? ? H|by intros ? ? H|by intros ? ? H]. Qed.

Lemma rule_in U a name r : grounded U a → a.(rules) !! name = Some r → r < length a.(parsers).
Proof. intros Hg Hr. destruct (g_rules _ _ Hg name r Hr) as (n & c & t & Hp). by eapply lookup_lt_Some. Qed.

(** The children do not depend on the arena. *)
Lemma children_same a b p : ref_name p = None → all_children a p = all_children b p.
Proof. by destruct p. Qed.

Lemma good_child U a id : grounded U a → good U a id → child_ok U a (length a.(parsers)) id.
Proof.
  intros Hg Hid. split_and!; [|done|].
  - destruct Hid as (p & Hp & _). by eapply lookup_lt_Some.
  - intros q name Hq Hn. destruct q; try done. injection Hn as ->. destruct (g_refs _ _ Hg _ _ Hq) as [r Hr]. exists r.
    split; [done|]. by eapply rule_in.
Qed.

Lemma lookup_snoc_cases {A} (l : list A) x i y : (l ++ [x]) !! i = Some y → l !! i = Some y ∨ i = length l ∧ y = x.
Proof.
  intros H. apply lookup_app_Some in H as [H|[Hge H]]; [by left|]. right. apply list_lookup_singleton_Some in H as [? ->]. split; [lia|done].
Qed.

Lemma child_ok_snoc U a p i c : child_ok U a i c → child_ok U (set_parsers (λ l, l ++ [p]) a) i c.
Proof.
  intros (Hc & Hg & Hr). split_and!; [done| |].
  - eapply good_older; [|done]. by eexists.
  - intros q name Hq Hn. simpl in Hq. apply lookup_snoc_cases in Hq as [Hq|[-> ->]]; [by eapply Hr|].
    destruct Hg as (q & Hq & _). apply lookup_lt_Some in Hq. lia.
Qed.

(** A parser whose children are there already. *)
Lemma grounded_add U a p : grounded U a → ref_name p = None → Forall (good U a) (all_children a p) →
  grounded U (set_parsers (λ l, l ++ [p]) a).
Proof.
  intros Hg Hn Hall. split.
  - intros i q Hq Hqn. simpl in Hq. rewrite (children_same _ a q Hqn). apply lookup_snoc_cases in Hq as [Hq|[-> ->]].
    + eapply Forall_impl; [by apply (g_children _ _ Hg)|]. intros c. apply child_ok_snoc.
    + eapply Forall_impl; [exact Hall|]. intros c Hc. apply child_ok_snoc. by apply good_child.
  - intros j name Hj. simpl in *. apply lookup_snoc_cases in Hj as [Hj|[_ <-]]; [by eapply (g_refs _ _ Hg)|done].
  - intros name id Hr. destruct (g_rules _ _ Hg name id Hr) as (n & c & t & Hp). exists n, c, t. simpl. by apply lookup_app_l_Some.
Qed.

(** ** What builders do *)

(** From a grounded arena that extends [a0], [m] extends it to a grounded one
    and returns something that satisfies [P] there. *)
Definition builds {A} (U : names) (a0 : Arena) (m : B A) (P : Arena → A → Prop) : Prop :=
  ∀ a, older a0 a → grounded U a → wp m (λ x a', grounded U a' ∧ older a a' ∧ P a' x) a.

Section Builds.
Context (U : names).

Lemma builds_bind {X Y} a0 (m : B X) (k : X → B Y) P Q :
  builds U a0 m P → (∀ a1 x, older a0 a1 → P a1 x → builds U a1 (k x) Q) → builds U a0 (m ≫= k) Q.
Proof.
  intros Hm Hk a Ha Hg. apply wp_bind. eapply wp_mono; [by apply Hm|]. intros x a1 (Hg1 & Ha1 & HP).
  eapply wp_mono; [apply (Hk a1); [by eapply older_trans|done|apply older_refl|done]|].
  intros y a2 (Hg2 & Ha2 & HQ). split_and!; [done|by eapply older_trans|done].
Qed.

Lemma builds_ret {X} a0 (x : X) (P : Arena → X → Prop) : (∀ a, older a0 a → P a x) → builds U a0 (mret x) P.
Proof. intros H a Ha Hg. apply wp_ret. split_and!; [done|apply older_refl|by apply H]. Qed.

Lemma builds_good a0 id : good U a0 id → builds U a0 (mret id) (good U).
Proof. intros H. apply builds_ret. intros a Ha. by eapply good_older. Qed.

Lemma builds_add a0 p : ref_name p = None → Forall (good U a0) (all_children NewArena p) → builds U a0 (addParser p) (good U).
Proof.
  intros Hn Hall a Ha Hg. unfold addParser. apply wp_bind, wp_get, wp_bind, wp_modify, wp_ret.
  assert (Hg' : grounded U (set_parsers (λ l, l ++ [p]) a)).
  { apply grounded_add; [done|done|]. rewrite (children_same _ NewArena p Hn). by eapply goods_older. }
  split_and!; [done|by eexists|]. exists p. simpl. split; [by rewrite lookup_app_r, Nat.sub_diag|]. by rewrite Hn.
Qed.

Lemma builds_args a0 l P : (∀ a b id, older a b → P a id → P b id) → Forall (λ m, builds U a0 m P) l →
  builds U a0 (args_in_order l) (λ a ids, Forall (P a) ids).
Proof.
  intros HP. revert a0. induction l as [|m l IH]; intros a0 Hall; simpl.
  { by apply builds_ret. }
  apply Forall_cons_1 in Hall as [Hm Hall]. eapply builds_bind; [exact Hm|]. intros a1 id Ha1 Hid.
  eapply builds_bind; [apply IH|].
  { eapply Forall_impl; [exact Hall|]. intros m' Hm' a Ha. apply Hm'. by eapply older_trans. }
  intros a2 ids Ha2 Hids. apply builds_ret. intros a3 Ha3. constructor.
  - eapply HP, Hid. by eapply older_trans.
  - eapply Forall_impl; [exact Hids|]. intros x. by apply HP.
Qed.

(** The splicing of nested sequences and choices. *)
Lemma builds_splice a0 (splice : ParserID → B (list ParserID)) (mk : list ParserID → Parser) ids :
  (∀ a id p, grounded U a → a.(parsers) !! id = Some p →
     ∃ l, splice id a = Some (l, a) ∧ (l = [id] ∨ p = mk l)) →
  (∀ l, ref_name (mk l) = None ∧ all_children NewArena (mk l) = l) →
  Forall (good U a0) ids → builds U a0 (flattened ← collect ids splice; addParser (mk flattened)) (good U).
Proof.
  intros Hs Hmk Hall. apply (builds_bind a0 _ _ (λ a l, Forall (good U a) l)).
  - intros a Ha Hg. eapply (wp_collect (λ l acc a', a' = a ∧ Forall (good U a) l ∧ Forall (good U a) acc)).
    + split_and!; [done|by eapply goods_older|done].
    + intros id l acc a' (-> & Hl & Hacc). apply Forall_cons_1 in Hl as [Hid Hl]. pose proof Hid as (p & Hp & _).
      destruct (Hs a id p Hg Hp) as (x & Hx & Hcase). unfold wp. rewrite Hx. split_and!; [done|done|].
      apply Forall_app; split; [done|]. destruct Hcase as [->| ->]; [by constructor|].
      destruct (Hmk x) as [Hn Hc]. pose proof (g_children _ _ Hg _ _ Hp Hn) as Hch.
      rewrite (children_same _ NewArena _ Hn), Hc in Hch. eapply Forall_impl; [exact Hch|]. by intros c (_ & ? & _).
    + intros acc a' (-> & _ & Hacc). split_and!; [done|apply older_refl|done].
  - intros a1 l Ha1 Hl. destruct (Hmk l) as [Hn Hc]. apply builds_add; [done|]. by rewrite Hc.
Qed.

Lemma builds_Seq a0 ids : Forall (good U a0) ids → builds U a0 (Seq ids) (good U).
Proof.
  intros Hall. apply (builds_splice a0 flat_sequence SequenceParser); [|done|done].
  intros a id p _ Hp. unfold flat_sequence, lookup_parser. unfold mbind, M_bind, get, lift, mret, M_ret. rewrite Hp.
  destruct p; eexists; (split; [done|]); auto.
Qed.

Lemma builds_Choice a0 ids : Forall (good U a0) ids → builds U a0 (Choice ids) (good U).
Proof.
  intros Hall. apply (builds_splice a0 flat_choice ChoiceParser); [|done|done].
  intros a id p _ Hp. unfold flat_choice, lookup_parser. unfold mbind, M_bind, get, lift, mret, M_ret. rewrite Hp.
  destruct p; eexists; (split; [done|]); auto.
Qed.

Lemma builds_SeqOf a0 l : Forall (λ m, builds U a0 m (good U)) l → builds U a0 (SeqOf l) (good U).
Proof.
  intros Hall. eapply builds_bind; [apply builds_args; [intros ? ? ?; apply good_older|exact Hall]|].
  intros a1 ids _ Hids. by apply builds_Seq.
Qed.

Lemma builds_ChoiceOf a0 l : Forall (λ m, builds U a0 m (good U)) l → builds U a0 (ChoiceOf l) (good U).
Proof.
  intros Hall. eapply builds_bind; [apply builds_args; [intros ? ? ?; apply good_older|exact Hall]|].
  intros a1 ids _ Hids. by apply builds_Choice.
Qed.

Lemma builds_for_acc {X Y} a0 (l : list X) (y : Y) (f : Y → X → B Y) (P : Arena → Y → Prop) :
  (∀ a b z, older a b → P a z → P b z) → P a0 y →
  (∀ a1 z x, older a0 a1 → P a1 z → x ∈ l → builds U a1 (f z x) P) → builds U a0 (for_acc l y f) P.
Proof.
  intros HP. revert a0 y. induction l as [|x l IH]; intros a0 y Hy Hf; simpl.
  { apply builds_ret. intros a Ha. by eapply HP. }
  eapply builds_bind; [apply (Hf a0); [apply older_refl|done|by left]|]. intros a1 z Ha1 Hz. apply IH; [done|].
  intros a2 z' x' Ha2 Hz' Hx'. apply Hf; [by eapply older_trans|done|by right].
Qed.
End Builds.

(** A new rule: nothing may refer to its name yet; its reference may be used
    where its name is allowed. *)
Definition also (U : names) (name : string) : names := λ n, U n ∨ n = name.

Lemma grounded_ref U a name : grounded U a → is_Some (a.(rules) !! name) → grounded U (set_parsers (λ l, l ++ [RefParser name]) a).
Proof.
  intros Hg Hname. split.
  - intros i q Hq Hqn. simpl in Hq. rewrite (children_same _ a q Hqn). apply lookup_snoc_cases in Hq as [Hq|[_ ->]]; [|done].
    eapply Forall_impl; [by apply (g_children _ _ Hg)|]. intros c. apply child_ok_snoc.
  - intros j n Hj. simpl in *. apply lookup_snoc_cases in Hj as [Hj|[_ [= ->]]]; [by eapply (g_refs _ _ Hg)|done].
  - intros n id Hr. destruct (g_rules _ _ Hg n id Hr) as (n' & c & t & Hp). exists n', c, t. simpl. by apply lookup_app_l_Some.
Qed.

Lemma grounded_rule U a name r : grounded U a → ¬ U name → (∃ n c t, a.(parsers) !! r = Some (RuleParser n c t)) →
  grounded U (MkArena a.(parsers) (<[name := r]> a.(rules)) a.(root)).
Proof.
  intros Hg Hnew Hr. split.
  - intros i q Hq Hqn. simpl in *. rewrite (children_same _ a q Hqn). eapply Forall_impl; [by apply (g_children _ _ Hg)|].
    intros c (Hc & Hgood & Href). split_and!; [done|done|]. intros q' n Hq' Hn. simpl.
    rewrite lookup_insert_ne; [by eapply Href|]. intros <-. apply Hnew. destruct Hgood as (q'' & Hq'' & HU).
    simpl in *. assert (q'' = q') as -> by congruence. by apply HU.
  - intros j n Hj. simpl in *. destruct (decide (name = n)) as [->|]; [by rewrite lookup_insert_eq|].
    rewrite lookup_insert_ne by done. by eapply (g_refs _ _ Hg).
  - intros n id. simpl. destruct (decide (name = n)) as [->|].
    + rewrite lookup_insert_eq. by intros [= <-].
    + rewrite lookup_insert_ne by done. apply (g_rules _ _ Hg).
Qed.

Lemma builds_rule (U : names) a0 name child trigger : ¬ U (cleanName name) → good U a0 child →
  builds U a0 (new_rule name child trigger) (good (also U (cleanName name))).
Proof.
  intros Hnew Hc. unfold new_rule. eapply (builds_bind _ _ _ _ (λ a r, ∃ n c t, a.(parsers) !! r = Some (RuleParser n c t))).
  { intros a Ha Hg. destruct (builds_add U a0 (RuleParser (cleanName name) child trigger) eq_refl ltac:(by constructor) a Ha Hg) as (H1 & H2 & _).
    unfold wp, addParser, mbind, M_bind, get, modify, mret, M_ret in *. split_and!; [done|done|].
    exists (cleanName name), child, trigger. simpl. by rewrite lookup_app_r, Nat.sub_diag. }
  intros a1 r Ha1 Hr. intros a Ha Hg.
  assert (Hra : ∃ n c t, a.(parsers) !! r = Some (RuleParser n c t)).
  { destruct Hr as (n & c & t & Hr). exists n, c, t. by eapply prefix_lookup_Some. }
  set (a2 := MkArena a.(parsers) (<[cleanName name := r]> a.(rules)) a.(root)).
  assert (Hg2 : grounded U a2) by by apply grounded_rule.
  assert (Hg3 : grounded U (set_parsers (λ l, l ++ [RefParser (cleanName name)]) a2)).
  { apply grounded_ref; [done|]. simpl. by rewrite lookup_insert_eq. }
  unfold wp, set_rule, addParser, mbind, M_bind, get, modify, mret, M_ret. split_and!; [exact Hg3|by eexists|].
  exists (RefParser (cleanName name)). simpl. split; [by rewrite lookup_app_r, Nat.sub_diag|]. intros n [= <-]. by right.
Qed.

(** ** Automation *)

Ltac head_of t := lazymatch t with ?f _ => head_of f | _ => t end.

Ltac weaken_goods :=
  repeat match goal with
  | Ha : older ?a ?b, H : good _ ?a _ |- _ => apply (good_older _ _ _ _ Ha) in H
  | Ha : older ?a ?b, H : Forall (good _ ?a) _ |- _ => apply (goods_older _ _ _ _ Ha) in H
  end.

Ltac build_step :=
  lazymatch goal with
  | |- builds _ _ (mret _) _ => apply builds_good; assumption
  | |- builds _ _ (SeqOf _) _ => apply builds_SeqOf; unfold key_colon, quoted_string; cbn [app]
  | |- builds _ _ (ChoiceOf _) _ => apply builds_ChoiceOf
  | |- builds _ _ (Seq _) _ => apply builds_Seq
  | |- builds _ _ (Choice _) _ => apply builds_Choice
  | |- builds _ _ (addParser _) _ => apply builds_add; [reflexivity|simpl]
  | |- builds _ _ (mbind _ _) _ => eapply builds_bind; [|intros ? ? ? ?; weaken_goods]
  | |- builds _ _ (if ?b then _ else _) _ => destruct b
  | |- Forall (λ m, builds _ _ m _) [] => constructor
  | |- Forall (λ m, builds _ _ m _) (_ :: _) => apply Forall_cons; split
  | |- Forall (good _ _) [] => constructor
  | |- Forall (good _ _) (_ :: _) => apply Forall_cons; split
  | |- good _ _ _ => assumption
  | |- Forall (good _ _) _ => assumption
  | |- builds _ _ ?m _ => let h := head_of m in progress unfold h
  end.

Ltac build := repeat first [eassumption | build_step].

Section Grammars.
Context (U : names).

Lemma builds_older {A} a0 a1 (m : B A) P : older a0 a1 → builds U a0 m P → builds U a1 m P.
Proof. intros H Hm a Ha. apply Hm. by eapply older_trans. Qed.

Lemma builds_tagged_arg a0 kp ks pc name : builds U a0 name (good U) → builds U a0 (tagged_arg kp ks pc name) (good U).
Proof. intros Hname. build. Qed.

Lemma builds_tagged_tool a0 fo fs fc name id args :
  builds U a0 name (good U) → good U a0 id → builds U a0 args (good U) → builds U a0 (tagged_tool fo fs fc name id args) (good U).
Proof. intros Hname Hid Hargs. build. Qed.

Lemma builds_call_id a0 p s : builds U a0 (call_id_section p s) (good U).
Proof. build. Qed.

Lemma builds_generic_args a0 kp ks pc fc : builds U a0 (generic_args kp ks pc fc) (good U).
Proof. build. Qed.

Lemma builds_tool_args walk a0 kp ks pc fc tool : builds U a0 (tool_args walk kp ks pc fc tool) (good U).
Proof.
  unfold tool_args. eapply builds_bind; [build|]. intros a1 eps Ha1 Heps. destruct (_ && _); [|build].
  eapply builds_bind; [apply (builds_args U _ _ (good U)); [intros ? ? ?; apply good_older|]|intros; weaken_goods; build].
  apply Forall_map, Forall_true. intros propName. simpl. build.
Qed.
End Grammars.

(** ** The grammars of the tools *)

Definition no_names : names := λ _, False.
Definition section_name : string := "tool-call".

(** No tool takes the name of the rule of the section. *)
Definition tools_ok (tools : list ToolDef) : Prop := Forall (λ t, cleanName ("tool-" +:+ t.(tool_Name)) ≠ section_name) tools.

Definition not_section : names := λ n, n ≠ section_name.

Lemma builds_named a0 child t : good no_names a0 child → cleanName ("tool-" +:+ t) ≠ section_name →
  builds no_names a0 (Rule_ ("tool-" +:+ t) child) (good not_section).
Proof.
  intros Hc Hne. unfold Rule_. intros a Ha Hg.
  eapply wp_mono; [apply (builds_rule no_names a0); [by intros []|done|done|done]|].
  intros id a' (Hg' & Ha' & Hid). split_and!; [done|done|]. eapply good_weaken; [|exact Hid]. intros n [[]| ->]. exact Hne.
Qed.

Lemma builds_tool_rule a0 (m : B ParserID) t :
  builds no_names a0 m (good no_names) → cleanName ("tool-" +:+ t) ≠ section_name →
  builds no_names a0 (m |> Rule_ ("tool-" +:+ t)) (good not_section).
Proof.
  intros Hm Hne. eapply builds_bind; [exact Hm|]. intros a1 child Ha1 Hc. apply builds_named; assumption.
Qed.

Lemma grounded_weaken (U V : names) a : (∀ n, U n → V n) → grounded U a → grounded V a.
Proof.
  intros HUV Hg. split; [|apply Hg|apply Hg]. intros i p Hp Hn. eapply Forall_impl; [by apply (g_children _ _ Hg)|].
  intros c (Hc & Hgood & Hr). split_and!; [done|by eapply good_weaken|done].
Qed.

(** From the names [U] to the names [V]. *)
Definition phased {A} (U V : names) (a0 : Arena) (m : B A) (P : Arena → A → Prop) : Prop :=
  ∀ a, older a0 a → grounded U a → wp m (λ x a', grounded V a' ∧ older a a' ∧ P a' x) a.

Lemma phased_bind {A Y} (U V W : names) a0 (m : B A) (k : A → B Y) P Q :
  phased U V a0 m P → (∀ a1 x, older a0 a1 → P a1 x → phased V W a1 (k x) Q) → phased U W a0 (m ≫= k) Q.
Proof.
  intros Hm Hk a Ha Hg. apply wp_bind. eapply wp_mono; [by apply Hm|]. intros x a1 (Hg1 & Ha1 & HP).
  eapply wp_mono; [apply (Hk a1); [by eapply older_trans|done|apply older_refl|done]|].
  intros y a2 (Hg2 & Ha2 & HQ). split_and!; [done|by eapply older_trans|done].
Qed.

Lemma phased_build {A} (U V : names) a0 (m : B A) P : (∀ n, U n → V n) → builds V a0 m P → phased U V a0 m P.
Proof. intros HUV Hm a Ha Hg. apply Hm; [done|]. by eapply grounded_weaken. Qed.

Definition any_name : names := λ _, True.

Lemma section_rule a0 child : good not_section a0 child →
  phased not_section any_name a0 (TriggerRule section_name child) (good any_name).
Proof.
  intros Hc a Ha Hg. unfold TriggerRule. eapply wp_mono; [apply (builds_rule not_section a0); [by intros H; apply H|done|done|done]|].
  intros id a' (Hg' & Ha' & Hid). split_and!; [by eapply grounded_weaken|done|]. by eapply good_weaken; [|exact Hid].
Qed.

(** The section of the calls around the parser [id] of the calls. *)
Lemma section_phased a0 (m : B ParserID) (last : ParserID → B ParserID) :
  builds not_section a0 m (good not_section) →
  (∀ a1 id, good any_name a1 id → builds any_name a1 (last id) (good any_name)) →
  phased not_section any_name a0 (section ← m |> TriggerRule section_name; last section) (good any_name).
Proof.
  intros Hm Hlast. eapply phased_bind; [eapply phased_bind; [by apply phased_build; [|exact Hm]|]|].
  - intros a1 id Ha1 Hid. by apply section_rule.
  - intros a1 id Ha1 Hid. apply phased_build; [done|]. by apply Hlast.
Qed.

Lemma force_or_optional (force : bool) a1 id : good any_name a1 id →
  builds any_name a1 (if force then mret id else Optional id) (good any_name).
Proof. intros Hid. build. Qed.

Lemma goods_weaken (U V : names) a l : (∀ n, U n → V n) → Forall (good U a) l → Forall (good V a) l.
Proof. intros HUV Hl. eapply Forall_impl; [exact Hl|]. intros id. by apply good_weaken. Qed.

Lemma tool_list a0 (f : ToolDef → B ParserID) tools :
  (∀ t, t ∈ tools → builds no_names a0 (f t) (good not_section)) →
  builds no_names a0 (args_in_order (map f tools)) (λ a ids, Forall (good not_section a) ids).
Proof.
  intros Hf. apply (builds_args no_names a0 _ (good not_section)); [intros ? ? ?; apply good_older|].
  apply Forall_forall. intros m (t & -> & Ht)%list_elem_of_fmap. by apply Hf.
Qed.

Lemma constructed_phased walk markers tools parallel force a0 : tools_ok tools →
  phased no_names any_name a0 (StandardConstructedTools walk markers tools parallel force) (good any_name).
Proof.
  intros Hok. unfold StandardConstructedTools. cbv zeta.
  eapply (phased_bind no_names no_names _ _ _ _ (λ a ids, Forall (good not_section a) ids)).
  - destruct tools as [|t tools].
    + eapply builds_bind; [apply builds_generic_args|]. intros a1 args Ha1 Hargs.
      eapply builds_bind; [apply builds_call_id|]. intros a2 cid Ha2 Hcid. weaken_goods.
      eapply builds_bind; [apply builds_tagged_tool; build|]. intros a3 tool Ha3 Htool. weaken_goods.
      assert (Hgen : cleanName ("tool-" +:+ "generic") ≠ section_name) by (vm_compute; discriminate).
      eapply builds_bind; [apply (builds_named a3 tool "generic" Htool Hgen)|].
      intros a4 id Ha4 Hid. apply builds_ret. intros a Ha. constructor; [by eapply good_older|constructor].
    + apply tool_list. intros t' Ht'. eapply builds_bind; [apply builds_tool_args|]. intros a1 args Ha1 Hargs.
      eapply builds_bind; [apply builds_call_id|]. intros a2 cid Ha2 Hcid. weaken_goods.
      apply builds_tool_rule; [apply builds_tagged_tool; build|]. unfold tools_ok in Hok. rewrite Forall_forall in Hok. by apply Hok.
  - intros a1 ids Ha1 Hids. eapply phased_bind; [apply (phased_build _ not_section); [by intros ? []|by apply builds_Choice]|].
    intros a2 choice Ha2 Hchoice.
    apply (section_phased a2 _ (λ section, if force then mret section else Optional section)).
    + build.
    + intros a3 id Hid. by apply force_or_optional.
Qed.

(** ** JSON tools *)

Lemma builds_lift U a0 (o : option ParserID) (P : Arena → ParserID → Prop) : (∃ id, o = Some id ∧ ∀ a, older a0 a → P a id) →
  builds U a0 (lift o) P.
Proof. intros (id & -> & H). by apply builds_ret. Qed.

(** An optional field, as a list of at most one. *)
Lemma builds_field {X} U a0 (b : bool) (m : B ParserID) (k : ParserID → B ParserID) (mk : ParserID → X) (P : Arena → X → Prop) :
  (∀ a a' x, older a a' → P a x → P a' x) → (∀ a f, good U a f → P a (mk f)) →
  builds U a0 m (good U) → (∀ a1 x, older a0 a1 → good U a1 x → builds U a1 (k x) (good U)) →
  builds U a0 (if b then x ← m; f ← k x; mret [mk f] else mret []) (λ a l, Forall (P a) l).
Proof.
  intros HP Hmk Hm Hk. destruct b; [|by apply builds_ret]. eapply builds_bind; [exact Hm|]. intros a1 x Ha1 Hx.
  eapply builds_bind; [by apply Hk|]. intros a2 f Ha2 Hf. apply builds_ret.
  intros a Ha. constructor; [|constructor]. by apply Hmk, (good_older _ a2).
Qed.

Lemma builds_field1 {X} U a0 (b : bool) (m : B ParserID) (mk : ParserID → X) (P : Arena → X → Prop) :
  (∀ a f, good U a f → P a (mk f)) → builds U a0 m (good U) →
  builds U a0 (if b then f ← m; mret [mk f] else mret []) (λ a l, Forall (P a) l).
Proof.
  intros Hmk Hm. destruct b; [|by apply builds_ret]. eapply builds_bind; [exact Hm|]. intros a1 f Ha1 Hf. apply builds_ret.
  intros a Ha. constructor; [|constructor]. by apply Hmk, (good_older _ a1).
Qed.

Section JSONTools.
Context (a0 : Arena).
Local Abbreviation U := no_names.

Lemma function_is_key_builds argsKey eff callIDKey genCallIDKey tool : cleanName ("tool-" +:+ tool.(tool_Name)) ≠ section_name →
  builds U a0 (function_is_key_tool argsKey eff callIDKey genCallIDKey tool) (good not_section).
Proof.
  intros Hname. unfold function_is_key_tool. cbv zeta.
  eapply (builds_bind _ _ _ _ (λ a l, Forall (good U a) l)).
  { apply (builds_field _ _ _ _ _ (λ f, f) (good U)); [intros ? ? ?; apply good_older|done|build|intros; build]. }
  intros a1 ids Ha1 Hids. eapply (builds_bind _ _ _ _ (λ a l, Forall (good U a) l)).
  { apply (builds_field _ _ _ _ _ (λ f, f) (good U)); [intros ? ? ?; apply good_older|done|build|intros; build]. }
  intros a2 gens Ha2 Hgens. weaken_goods. eapply builds_bind; [build|]. intros a3 args Ha3 Hargs. weaken_goods.
  assert (Hinner : Forall (good U a3) (ids ++ gens ++ [args])) by (rewrite !Forall_app; by repeat constructor).
  set (fields := ids ++ gens ++ [args]) in *. eapply (builds_bind _ _ _ _ (good U)).
  - destruct (_ && _) eqn:Hone.
    + apply builds_lift. apply andb_true_iff in Hone as [_ Hone%Nat.eqb_eq]. destruct fields as [|f l]; [done|].
      exists f. split; [done|]. apply Forall_cons_1 in Hinner as [Hf _]. intros a Ha. by eapply good_older.
    + eapply builds_bind; [build|]. intros a4 brace Ha4 Hbrace. weaken_goods.
      eapply (builds_bind _ _ _ _ (good U)); [|intros; weaken_goods; build].
      apply builds_for_acc; [intros ? ? ?; apply good_older|done|]. intros a5 inner [i f] Ha5 Hin Hf. weaken_goods.
      assert (Hgf : good U a5 f).
      { apply list_elem_of_lookup_1 in Hf as [k Hk]. rewrite list_lookup_imap in Hk. apply fmap_Some in Hk as (g & Hg & [= _ <-]).
        by eapply Forall_lookup_1. }
      build.
  - intros a4 inner Ha4 Hin. weaken_goods. eapply builds_bind; [build|]. intros a5 tp Ha5 Htp. apply builds_named; assumption.
Qed.

Lemma nested_builds p n g callIDKey genCallIDKey tool : cleanName ("tool-" +:+ tool.(tool_Name)) ≠ section_name →
  builds U a0 (nested_tool p n g callIDKey genCallIDKey tool) (good not_section).
Proof.
  intros Hname. unfold nested_tool.
  do 7 (eapply (builds_bind _ _ _ _ (good U)); [build|intros; weaken_goods]).
  eapply builds_bind; [build|]. intros. apply builds_tool_rule; [build|assumption].
Qed.

Lemma sink_in order x l : ∀ y, y ∈ sink order x l → y = x ∨ y ∈ l.
Proof.
  induction l as [|z l IH]; intros y; simpl; [set_solver|]. case_match; [|set_solver]. rewrite !elem_of_cons.
  intros [->|?%IH]; naive_solver.
Qed.

Lemma sort_in pairs order y : y ∈ sortPairsByOrder pairs order → y ∈ pairs.
Proof.
  unfold sortPairsByOrder. rewrite elem_of_reverse.
  enough (∀ acc, y ∈ foldl (λ acc x, sink order x acc) acc pairs → y ∈ acc ∨ y ∈ pairs) as H by (intros ?%H; set_solver).
  induction pairs as [|x pairs IH]; intros acc; simpl; [auto|]. intros [H|H]%IH; [|set_solver].
  apply sink_in in H as [->|H]; set_solver.
Qed.

Lemma flat_builds nk ak en ea callIDKey genCallIDKey order tool :
  good U a0 nk → good U a0 ak → cleanName ("tool-" +:+ tool.(tool_Name)) ≠ section_name →
  builds U a0 (flat_tool nk ak en ea callIDKey genCallIDKey order tool) (good not_section).
Proof.
  intros Hnk Hak Hname. unfold flat_tool. cbv zeta.
  eapply (builds_bind _ _ _ _ (good U)); [build|intros a1 np Ha1 Hnp; weaken_goods].
  eapply (builds_bind _ _ _ _ (good U)); [build|intros a2 ap Ha2 Hap; weaken_goods].
  set (pair_ok := λ a (p : parserPair), good U a p.(pair_parser)).
  assert (Hmono : ∀ a a' x, older a a' → pair_ok a x → pair_ok a' x) by (intros ? ? ?; apply good_older).
  eapply (builds_bind _ _ _ _ (λ a l, Forall (pair_ok a) l)).
  { apply (builds_field1 _ _ _ _ (λ p, MkPair p callIDKey)); [done|build]. }
  intros a3 ids Ha3 Hids. eapply (builds_bind _ _ _ _ (λ a l, Forall (pair_ok a) l)).
  { apply (builds_field1 _ _ _ _ (λ p, MkPair p genCallIDKey)); [done|build]. }
  intros a4 gens Ha4 Hgens. weaken_goods. set (pairs := [MkPair np en; MkPair ap ea] ++ ids ++ gens).
  assert (Hpairs : ∀ p, p ∈ match order with [] => pairs | _ => sortPairsByOrder pairs order end → pair_ok a4 p).
  { intros p Hp. assert (p ∈ pairs) as Hin by (destruct order; [done|by eapply sort_in]). clear Hp.
    assert (Hall : Forall (pair_ok a4) pairs).
    { unfold pairs. rewrite !Forall_app. split_and!; [by repeat constructor| |done]. eapply Forall_impl; [exact Hids|]. intros x. by apply Hmono. }
    rewrite Forall_forall in Hall. by apply Hall. }
  set (sorted := match order with [] => pairs | _ => sortPairsByOrder pairs order end) in *. clearbody sorted.
  eapply (builds_bind _ _ _ _ (good U)); [build|intros a5 body Ha5 Hbody].
  eapply (builds_bind _ _ _ _ (good U)).
  { apply builds_for_acc; [intros ? ? ?; apply good_older|done|]. intros a6 b [i p] Ha6 Hb Hp. weaken_goods.
    assert (Hgp : good U a6 p.(pair_parser)).
    { apply list_elem_of_lookup_1 in Hp as [k Hk]. rewrite list_lookup_imap in Hk. apply fmap_Some in Hk as (g & Hg & [= _ <-]).
      eapply (good_older _ a4); [by eapply older_trans|]. apply Hpairs. by eapply list_elem_of_lookup_2. }
    build. }
  intros a6 b Ha6 Hb. weaken_goods. eapply (builds_bind _ _ _ _ (good U)); [build|intros; weaken_goods].
  apply builds_tool_rule; [build|assumption].
Qed.
End JSONTools.

Lemma json_phased opts a0 : tools_ok opts.(Tools) →
  phased no_names any_name a0 (StandardJSONTools opts) (good any_name).
Proof.
  intros Hok. unfold StandardJSONTools. destruct (Tools opts) as [|t tools] eqn:Ht.
  { apply phased_build; [by intros ? []|]. build. }
  cbv zeta. assert (Hname : ∀ t', t' ∈ t :: tools → cleanName ("tool-" +:+ t'.(tool_Name)) ≠ section_name) by (by apply Forall_forall).
  eapply (phased_bind no_names not_section _ _ _ _ (good not_section)).
  - set (ts := t :: tools) in *. clearbody ts. destruct (FunctionIsKey opts); [|destruct (_ || _)].
    + unfold buildJSONToolsFunctionIsKey. eapply (phased_bind no_names no_names _ _ _ _ (λ a ids, Forall (good not_section a) ids)).
      * apply tool_list. intros t' Ht'. apply function_is_key_builds. by apply Hname.
      * intros a1 ids Ha1 Hids. apply phased_build; [by intros ? []|]. by apply builds_Choice.
    + unfold buildJSONToolsNestedKeys. cbv zeta. eapply (phased_bind no_names no_names _ _ _ _ (λ a ids, Forall (good not_section a) ids)).
      * apply tool_list. intros t' Ht'. apply nested_builds. by apply Hname.
      * intros a1 ids Ha1 Hids. apply phased_build; [by intros ? []|]. by apply builds_Choice.
    + unfold buildJSONToolsFlatKeys. eapply (phased_bind no_names no_names _ _ _ _ (good no_names)); [apply phased_build; [done|build]|intros a1 nk Ha1 Hnk].
      eapply (phased_bind no_names no_names _ _ _ _ (good no_names)); [apply phased_build; [done|build]|intros a2 ak Ha2 Hak; weaken_goods].
      eapply (phased_bind no_names no_names _ _ _ _ (λ a ids, Forall (good not_section a) ids)).
      * apply tool_list. intros t' Ht'. apply flat_builds; [assumption|assumption|by apply Hname].
      * intros a3 ids Ha3 Hids. apply phased_build; [by intros ? []|]. by apply builds_Choice.
  - intros a1 choices Ha1 Hch.
    eapply (phased_bind not_section not_section _ _ _ _ (good not_section)); [apply phased_build; [done|build]|intros a2 calls Ha2 Hcalls; weaken_goods].
    eapply (phased_bind not_section not_section _ _ _ _ (good not_section)); [apply phased_build; [done|build]|intros a3 calls' Ha3 Hcalls'; weaken_goods].
    apply (section_phased a3 _ (λ section, if opts.(ForceToolCalls) then mret section else Optional section)); [build|].
    intros a4 id Hid. by apply force_or_optional.
Qed.

(** ** Built grammars have no left recursion *)

Lemma resolveRef_good U a i c : child_ok U a i c → rules_ok a →
  ∃ c', resolveRef a c = Some c' ∧ c' < i ∧ ∃ q, a.(parsers) !! c' = Some q ∧ ref_name q = None.
Proof.
  intros (Hc & (q & Hq & _) & Href) Hrules. rewrite resolveRef_name, Hq. simpl. destruct (ref_name q) as [name|] eqn:Hn.
  - destruct (Href q name Hq Hn) as (r & Hr & Hlt). destruct (Hrules name r Hr) as (n & ch & t & Hp).
    exists r. split_and!; [done|done|]. by eexists.
  - exists c. split_and!; [done|done|]. by exists q.
Qed.

Lemma mapM_total {A B} (f : A → option B) l : Forall (λ x, is_Some (f x)) l → is_Some (mapM f l).
Proof. induction 1 as [|x l [y Hy] _ [ys IH]]; simpl; [by eexists|]. rewrite Hy. simpl. rewrite IH. by eexists. Qed.

Lemma map_children_total f p : Forall (λ c, is_Some (f c)) (all_children NewArena p) → is_Some (map_children f p).
Proof.
  destruct p; simpl; intros H; try by eexists.
  1,2: destruct (mapM_total f _ H) as [l ->]; by eexists.
  all: apply Forall_singleton in H as [c ->]; by eexists.
Qed.

Lemma resolve_step_agree a i p p' : a.(parsers) !! i = Some p → map_children (resolveRef a) p = Some p' →
  ∀ id, resolveRef (set_parsers <[i := p']> a) id = resolveRef a id.
Proof.
  intros Hp Hp' id. apply resolveRef_agree; [done|]. intros j. simpl. destruct (decide (i = j)) as [->|].
  - rewrite list_lookup_insert_eq, Hp by (by eapply lookup_lt_Some). simpl. f_equal. by eapply map_children_ref.
  - by rewrite list_lookup_insert_ne.
Qed.

Lemma resolve_loop_total n i a : i + n = length a.(parsers) →
  (∀ j p, i ≤ j → a.(parsers) !! j = Some p → is_Some (map_children (resolveRef a) p)) → is_Some (resolve_loop n i a).
Proof.
  revert i a. induction n as [|n IH]; intros i a Hi Hall; simpl; [by eexists|].
  destruct (lookup_lt_is_Some_2 a.(parsers) i) as [p Hp]; [lia|]. rewrite Hp. simpl.
  destruct (Hall i p ltac:(lia) Hp) as [p' Hp']. rewrite Hp'. simpl. apply IH; [simpl; rewrite length_insert; lia|].
  intros j q Hj Hq. simpl in Hq. rewrite list_lookup_insert_ne in Hq by lia.
  rewrite (map_children_ext _ (resolveRef a)) by by apply (resolve_step_agree a i p). apply (Hall j); [lia|done].
Qed.

Lemma grounded_children U a i p : grounded U a → a.(parsers) !! i = Some p → ref_name p = None →
  Forall (λ c, is_Some (resolveRef a c)) (all_children NewArena p).
Proof.
  intros Hg Hp Hn. rewrite <- (children_same a NewArena p Hn). eapply Forall_impl; [by apply (g_children _ _ Hg)|].
  intros c Hc. destruct (resolveRef_good U a i c Hc (g_rules _ _ Hg)) as (c' & -> & _). by eexists.
Qed.

Lemma resolveRefs_total U a id : grounded U a → a.(root) = Some id → good U a id → ∃ a', resolveRefs a = Some a'.
Proof.
  intros Hg Hroot Hid. unfold resolveRefs.
  destruct (resolve_loop_total (length a.(parsers)) 0 a eq_refl) as [a1 Ha1].
  { intros j p _ Hp. destruct (ref_name p) as [name|] eqn:Hn; [by destruct p; try done; eexists|].
    apply map_children_total. by eapply grounded_children. }
  rewrite Ha1. simpl. destruct (resolve_loop_spec _ _ _ _ Ha1 eq_refl) as (H1 & H2 & H3 & _ & H5). rewrite H2, Hroot.
  destruct (resolveRef_good U a _ id (good_child _ _ _ Hg Hid) (g_rules _ _ Hg)) as (id' & Hid' & _).
  assert (Hagree : resolveRef a1 id = resolveRef a id).
  { apply resolveRef_agree; [done|]. intros j. destruct (parsers a !! j) as [p|] eqn:Hp.
    - destruct (H5 j p) as (p' & Hp' & ->); [lia|done|]. simpl. f_equal. by eapply map_children_ref.
    - apply lookup_ge_None_1 in Hp. by rewrite lookup_ge_None_2 by lia. }
  rewrite Hagree, Hid'. by eexists.
Qed.

Lemma leading_all a p : leading_children a (position_certificate a) p = all_children a p.
Proof. destruct p; simpl; try done. induction Children as [|c l IH]; simpl; [done|]. by f_equal. Qed.

Lemma position_rank_at a i p : a.(parsers) !! i = Some p → rank_at (position_certificate a) i = position_rank (length a.(parsers)) i p.
Proof. intros Hp. unfold rank_at, position_certificate. simpl. by rewrite list_lookup_imap, Hp. Qed.

Lemma position_rank_plain n i p : ref_name p = None → position_rank n i p = i.
Proof. by destruct p. Qed.

Lemma map_children_lists f p p' : map_children f p = Some p' → ref_name p = None →
  ∀ a b, Forall2 (λ c c', f c = Some c') (all_children a p) (all_children b p').
Proof.
  intros H Hn a b. destruct p; simpl in H; simplify_option_eq; simpl; repeat constructor; try done; by apply mapM_Some_1.
Qed.

Lemma resolved_ranked U a a' : grounded U a → resolveRefs a = Some a' → ranked a' (position_certificate a') = true.
Proof.
  intros Hg Hres. destruct (resolveRefs_spec a a' Hres) as (Hrules & Hlen & Hall & _).
  unfold ranked. rewrite andb_true_iff, forallb_forall. split; [|apply Nat.eqb_eq; unfold position_certificate; simpl; by rewrite length_imap].
  intros [i p'] Hin. apply list_elem_of_In, list_elem_of_lookup_1 in Hin as [k Hk]. rewrite list_lookup_imap in Hk.
  apply fmap_Some in Hk as (q & Hq & [= -> ->]). simpl.
  destruct (lookup_lt_is_Some_2 (parsers a) k) as [p Hp]; [rewrite <- Hlen; by eapply lookup_lt_Some|].
  destruct (Hall k p Hp) as (p' & Hp' & Hat). assert (p' = q) as -> by congruence.
  pose proof (map_children_ref _ _ _ Hp') as Hname. unfold parser_ok. rewrite leading_all.
  assert (Hnull : implb (may_be_empty a' (position_certificate a') q) (nullable_at (position_certificate a') k) = true)
    by (unfold nullable_at; simpl; by destruct (may_be_empty _ _ _)).
  rewrite Hnull, andb_true_r, (position_rank_at a' k q Hq).
  destruct (ref_name p) as [name|] eqn:Hn.
  - destruct p; try done. injection Hn as ->. injection Hp' as <-. destruct (g_refs _ _ Hg _ _ Hp) as [r Hr].
    assert (Hget : GetRule a' name = Some r) by (unfold GetRule; by rewrite Hrules).
    pose proof (rule_in _ _ _ _ Hg Hr) as Hlt. destruct (g_rules _ _ Hg name r Hr) as (n & c & t & Hrp).
    destruct (Hall r _ Hrp) as (rp & Hrp' & Hrat). 
    assert (Hresolved : resolved a' (RefParser name) = true) by (unfold resolved; apply bool_decide_eq_true_2; rewrite Hget; by eexists).
    rewrite Hresolved. simpl. rewrite Hget. simpl.
    rewrite (position_rank_at a' r rp Hrat), position_rank_plain by (by rewrite (map_children_ref _ _ _ Hrp')).
    rewrite !andb_true_r. simpl. apply andb_true_iff; split; apply Nat.ltb_lt; lia.
  - rewrite position_rank_plain by done. assert (Hresolved : resolved a' q = true) by by destruct q. rewrite Hresolved. simpl.
    assert (Hch : Forall (λ c', c' < k ∧ ∃ p0, a'.(parsers) !! c' = Some p0 ∧ ref_name p0 = None) (all_children a' q)).
    { apply Forall_forall. intros c' Hc'. pose proof (map_children_lists _ _ _ Hp' Hn a a') as H2.
      apply list_elem_of_lookup_1 in Hc' as [j Hj]. destruct (Forall2_lookup_r _ _ _ _ _ H2 Hj) as (c & Hc & Hcc).
      pose proof (g_children _ _ Hg _ _ Hp Hn) as Hok. eapply Forall_lookup_1 in Hok; [|exact Hc].
      destruct (resolveRef_good _ _ _ _ Hok (g_rules _ _ Hg)) as (c2 & Hc2 & Hlt & q2 & Hq2 & Hn2).
      assert (c2 = c') as -> by congruence. split; [done|]. destruct (Hall c' q2 Hq2) as (q3 & Hq3 & Hat3). exists q3.
      split; [done|]. by rewrite (map_children_ref _ _ _ Hq3). }
    apply andb_true_iff; split; apply forallb_forall; intros c' Hc'%list_elem_of_In; rewrite Forall_forall in Hch;
      destruct (Hch c' Hc') as (Hlt & p0 & Hp0 & Hn0); apply Nat.ltb_lt.
    + by eapply lookup_lt_Some.
    + by rewrite (position_rank_at a' c' p0 Hp0), position_rank_plain.
Qed.

(** What a grammar built in phases gives. *)
Definition parses_all (arena : Arena) : Prop :=
  ranked arena (position_certificate arena) = true ∧ ∃ id, arena.(root) = Some id ∧ id < length arena.(parsers).

Definition well_built (m : B ParserID) : Prop := ∃ arena, BuildChatPegParser m = Some arena ∧ parses_all arena.

Lemma phased_well_built m : phased no_names any_name NewArena m (good any_name) → well_built m.
Proof.
  intros Hm. unfold well_built, BuildChatPegParser, BuildPegParser.
  pose proof (Hm NewArena (older_refl _) (grounded_new _)) as Hwp. apply wp_Some in Hwp as (id & a & Hrun & Hg & _ & Hid).
  unfold mbind, M_bind at 1. rewrite Hrun. unfold SetRoot, modify. set (a1 := MkArena a.(parsers) a.(rules) (Some id)).
  assert (Hg1 : grounded any_name a1) by (destruct Hg; by split).
  destruct (resolveRefs_total any_name a1 id Hg1 eq_refl) as [a' Ha']; [done|].
  unfold option_bind, M_bind, Build. cbv beta iota. fold a1. rewrite Ha'.
  destruct (resolveRefs_spec a1 a' Ha') as (_ & Hlen & _ & Hroot). destruct (Hroot id eq_refl) as (id' & Hid' & Hr').
  exists a'. split; [done|]. split; [by eapply resolved_ranked|]. exists id'. split; [done|].
  destruct (resolveRef_good any_name a1 _ id (good_child _ _ _ Hg1 Hid) (g_rules _ _ Hg1)) as (c & Hc & Hlt & _).
  assert (c = id') as -> by congruence. by rewrite Hlen.
Qed.

(** ** The grammars of the integration *)

Lemma section_only a0 (m : B ParserID) : builds not_section a0 m (good not_section) →
  phased not_section any_name a0 (m |> TriggerRule section_name) (good any_name).
Proof.
  intros Hm. eapply phased_bind; [by apply phased_build; [|exact Hm]|]. intros a1 id Ha1 Hid. by apply section_rule.
Qed.

Lemma phased_pre {A} U V a0 (m : B A) P : (∀ n, U n → V n) → phased V any_name a0 m P → phased U any_name a0 m P.
Proof. intros HUV Hm a Ha Hg. apply Hm; [done|]. by eapply grounded_weaken. Qed.

Lemma none_below (V : names) : ∀ n, no_names n → V n.
Proof. by intros n []. Qed.

Lemma answer_phased d (toolCall : B ParserID) :
  (∀ a0, phased no_names any_name a0 toolCall (good any_name)) →
  phased no_names any_name NewArena (answer_grammar d toolCall) (good any_name).
Proof.
  intros Htc. unfold answer_grammar. eapply (phased_bind no_names no_names _ _ _ _ (good no_names)); [apply phased_build; [done|build]|].
  intros a1 content Ha1 Hc. eapply phased_bind; [apply Htc|]. intros a2 tc Ha2 Htool. weaken_goods.
  apply (good_weaken _ any_name) in Hc; [|done]. apply phased_build; [done|]. build.
Qed.

Lemma native_phased s a0 (toolCall : B ParserID) :
  phased no_names any_name a0 toolCall (good any_name) →
  phased no_names any_name a0 (native_grammar s toolCall) (good any_name).
Proof.
  intros Htc. unfold native_grammar. eapply phased_bind; [apply Htc|]. intros a1 tc Ha1 Htool.
  eapply (phased_bind any_name any_name _ _ _ _ (good any_name)); [apply phased_build; [done|build]|].
  intros a2 content Ha2 Hc. weaken_goods. apply phased_build; [done|]. build.
Qed.

Lemma native_call_phased s e a0 fields : builds not_section a0 fields (good not_section) →
  phased no_names any_name a0 (native_call s e fields) (good any_name).
Proof. intros Hf. apply (phased_pre _ not_section); [apply none_below|]. unfold native_call. apply section_only. build. Qed.

Lemma tagged_built f : ∃ arena, buildTaggedPEGParser f = Some arena ∧ parses_all arena.
Proof.
  unfold buildTaggedPEGParser. cbv zeta. apply phased_well_built, answer_phased. intros a0. destruct (non_empty _).
  - apply constructed_phased. constructor.
  - apply (phased_pre _ not_section); [apply none_below|].
    eapply (phased_bind not_section not_section _ _ _ _ (good not_section)); [apply phased_build; [done|apply builds_generic_args]|].
    intros a1 args Ha1 Hargs. eapply (phased_bind not_section not_section _ _ _ _ (good not_section)); [apply phased_build; [done|build]|].
    intros a2 tool Ha2 Htool. weaken_goods. apply section_only. build.
Qed.

Lemma native_format_built f : ∃ o, buildJSONNativePEGParser f = Some o ∧ ∀ arena, o = Some arena → parses_all arena.
Proof.
  unfold buildJSONNativePEGParser. cbv zeta. set (s := if String.eqb (ScopeStart f) "" && _ then _ else _).
  set (e := if String.eqb (ScopeEnd f) "" && _ then _ else _). destruct (_ || _); [by exists None|].
  destruct (phased_well_built (native_grammar s (native_call s e (ChoiceOf [name_field "name"; args_field "arguments"; any_field]))))
    as (arena & -> & Hok).
  { apply native_phased, native_call_phased. build. }
  exists (Some arena). split; [done|]. by intros ? [= <-].
Qed.

Lemma markers_json_built m : ∃ arena, buildPEGFromMarkersTagJSON m = Some arena ∧ parses_all arena.
Proof.
  unfold buildPEGFromMarkersTagJSON. destruct (effectiveScope m) as [s e]. cbv zeta. apply phased_well_built, answer_phased. intros a0.
  destruct (non_empty s).
  - apply constructed_phased. constructor.
  - apply (phased_pre _ not_section); [apply none_below|].
    eapply (phased_bind not_section not_section _ _ _ _ (good not_section)); [apply phased_build; [done|build]|].
    intros a1 args Ha1 Hargs. eapply (phased_bind not_section not_section _ _ _ _ (good not_section)); [apply phased_build; [done|build]|].
    intros a2 cid Ha2 Hcid. weaken_goods.
    eapply (phased_bind not_section not_section _ _ _ _ (good not_section)); [apply phased_build; [done|apply builds_tagged_tool; build]|].
    intros a3 tool Ha3 Htool. weaken_goods. apply section_only. build.
Qed.

Lemma markers_tagged_built m : ∃ arena, buildPEGFromMarkersTagTagged m = Some arena ∧ parses_all arena.
Proof.
  unfold buildPEGFromMarkersTagTagged. destruct (effectiveScope m) as [s e]. cbv zeta. apply phased_well_built, answer_phased. intros a0.
  apply constructed_phased. constructor.
Qed.

Lemma markers_native_built m : ∃ o, buildPEGFromMarkersJSONNative m = Some o ∧ ∀ arena, o = Some arena → parses_all arena.
Proof.
  unfold buildPEGFromMarkersJSONNative. destruct (effectiveScope m) as [s e]. destruct (_ || _); [by exists None|]. cbv zeta.
  set (fields := [name_field _; args_field _] ++ _ ++ _ ++ _).
  destruct (phased_well_built (knownFields ← args_in_order fields; native_grammar s (native_call s e (Choice knownFields))))
    as (arena & -> & Hok).
  { eapply (phased_bind no_names no_names _ _ _ _ (λ a ids, Forall (good no_names a) ids)).
    - apply phased_build; [done|]. apply (builds_args _ _ _ (good no_names)); [intros ? ? ?; apply good_older|].
      unfold fields. rewrite !Forall_app. split_and!; [build|destruct (non_empty _); build|destruct (_ && _); build|build].
    - intros a1 ids Ha1 Hids. apply native_phased, native_call_phased, builds_Choice. eapply goods_weaken; [|exact Hids].
      apply none_below. }
  exists (Some arena). split; [done|]. by intros ? [= <-].
Qed.

Lemma format_built f t : ∃ o, BuildPEGParserFromFormat f t = Some o ∧ ∀ arena, o = Some arena → parses_all arena.
Proof.
  destruct t; simpl; [apply native_format_built|..]; destruct (tagged_built f) as (arena & -> & Hok); exists (Some arena);
    (split; [done|by intros ? [= <-]]).
Qed.

Lemma markers_built m : ∃ o, BuildPEGParserFromMarkers m = Some o ∧ ∀ arena, o = Some arena → parses_all arena.
Proof.
  unfold BuildPEGParserFromMarkers. repeat case_match; [| |apply markers_native_built|by exists None].
  - destruct (markers_json_built m) as (arena & -> & Hok). exists (Some arena). split; [done|by intros ? [= <-]].
  - destruct (markers_tagged_built m) as (arena & -> & Hok). exists (Some arena). split; [done|by intros ? [= <-]].
Qed.

(** ** The theorems *)

Lemma parse_total arena ctx start : parses_all arena → start ≤ length ctx.(Input) →
  ∃ r s, ParseFrom (parse_fuel (position_certificate arena) (length ctx.(Input))) arena ctx start [] = Some (r, s) ∧
    promise ctx true start [] r s.
Proof.
  intros (Hr & id & Hroot & Hid) Hs. destruct (ParseFrom_ok arena _ ctx id start Hr Hroot Hid Hs) as (r & s & Hp & Hpr).
  exists r, s. split; [done|]. by eapply promise_weaken; [|exact Hpr].
Qed.

Lemma parsePEG_total spare arena input : parses_all arena → ∃ l, parsePEG spare arena input = Some l.
Proof.
  intros Hok. unfold parsePEG. destruct (parse_total arena (MkContext input false) 0 Hok ltac:(simpl; lia)) as (r & s & Hp & Hpr).
  simpl in Hp. rewrite Hp. simpl. case_decide as Ht; [|by eexists].
  destruct Hpr as [_ _ _ _ Hast _ Hnodes].
  destruct (VisitResult_ok (MkContext input false) s r 0 Hast) as (l & Hl & _); [apply Hnodes; by rewrite Ht|].
  destruct (FromAST_view spare s r l Hl) as (m & -> & _). simpl. by eexists.
Qed.

Lemma parse_with_total spare o input : (∃ a, o = Some a ∧ ∀ arena, a = Some arena → parses_all arena) →
  ∃ l, parse_with spare o input = Some l.
Proof. intros ([a|] & -> & H); simpl; [by apply parsePEG_total, H|by eexists]. Qed.

Lemma first_found_total l : Forall (λ f : unit → option (list ToolCall), ∃ x, f tt = Some x) l → ∃ x, first_found l = Some x.
Proof. induction 1 as [|f l [x Hx] _ [y IH]]; simpl; [by eexists|]. rewrite Hx. simpl. destruct x; by eexists. Qed.

(** C7. The parser of tool calls never fails: whatever the model wrote, and for
    all markers, presets and formats of the configuration, the grammars build
    without a panic, parse the answer without an index out of range, an
    unknown rule or endless recursion, and the mapper turns the AST into calls
    without a nil or stale pointer, whatever room the runtime gives its slices. *)
Theorem tool_calls_total spare llmresult config :
  ∃ calls, ParseFunctionCallPEG spare llmresult config = Some calls.
Proof.
  assert (Hf : ∀ f, ∃ x, parse_format spare llmresult f = Some x) by (intros f; apply parse_with_total, format_built).
  unfold ParseFunctionCallPEG. cbv zeta. apply first_found_total. rewrite !Forall_app. split_and!.
  - destruct (cfg_ToolFormatMarkers config) as [m|]; constructor; [|constructor]. apply parse_with_total, markers_built.
  - destruct (if non_empty _ then _ else _) as [f|]; constructor; [apply Hf|constructor].
  - destruct (XMLFormat config) as [f|]; constructor; [apply Hf|constructor].
  - apply Forall_concat, Forall_map, Forall_true. intros t. apply Forall_map, Forall_true. intros p. apply Hf.
Qed.

(** C10. The grammars of given tools parse every answer: for all markers, tools
    and options (tagged or JSON, flat, nested or function keys, arrays,
    parallel calls), the grammar builds, and from every position of every
    input, in either mode, the parse returns, within the input; only partial
    mode asks for more.  The one condition is that no tool is called
    "call" (after cleaning), for its rule would take the name of the rule of
    the whole section. *)
Theorem tool_grammars_total walk markers parallel force opts ctx start :
  tools_ok opts.(Tools) → start ≤ length ctx.(Input) →
  ∀ m, m = StandardConstructedTools walk markers opts.(Tools) parallel force ∨ m = StandardJSONTools opts →
  ∃ arena r s, BuildChatPegParser m = Some arena ∧
    ParseFrom (parse_fuel (position_certificate arena) (length ctx.(Input))) arena ctx start [] = Some (r, s) ∧
    r.(Start) = start ∧ start ≤ r.(End) ≤ length ctx.(Input) ∧ (r.(Type_) = NeedMoreInput → ctx.(IsPartial) = true).
Proof.
  intros Htools Hs m Hm. assert (Hb : well_built m).
  { apply phased_well_built. destruct Hm as [-> | ->]; [by apply constructed_phased|by apply json_phased]. }
  destruct Hb as (arena & Ha & Hok). destruct (parse_total arena ctx start Hok Hs) as (r & s & Hp & []).
  exists arena, r, s. split_and!; (done || lia).
Qed.

(** ** A tool called "call" *)

Definition json_opts (sectionStart : string) (tool : string) : StandardJSONToolsOpts :=
  MkJSONOpts sectionStart "" [MkToolDef tool ∅] false true "" "" false false "" "" [].

Definition looping : Arena := Eval vm_compute in default NewArena (BuildChatPegParser (StandardJSONTools (json_opts "" "call"))).


Lemma ParseAt_S n a ctx id start s p : a.(parsers) !! id = Some p →
  ParseAt (S n) a ctx id start s = parse a ctx (ParseAt n a ctx) p start s.
Proof. intros Hp. cbn [ParseAt]. by rewrite Hp. Qed.

(** Without a marker before the section, its grammar calls itself without
    consuming anything: no fuel is enough, the parse overflows the stack. *)
Lemma tool_named_call_loops fuel b : ParseFrom fuel looping (MkContext [] b) 0 [] = None.
Proof.
  change (ParseFrom fuel looping (MkContext [] b) 0 []) with (ParseAt fuel looping (MkContext [] b) 42 0 []).
  induction (lt_wf fuel) as [n _ IH]. destruct n as [|n]; [done|].
  rewrite (ParseAt_S n _ _ 42 0 [] (RuleParser "tool-call" 41 true)) by reflexivity.
  cbn -[ParseAt looping]. unfold RuleParser_parse. unfold mbind, M_bind.
  assert (H41 : ParseAt n looping (MkContext [] b) 41 0 [] = None); [|by rewrite H41].
  destruct n as [|n]; [done|]. rewrite (ParseAt_S n _ _ 41 0 [] (SequenceParser [37; 38; 36; 39; 40])) by reflexivity.
  destruct n as [|n]; [done|].
  assert (H36 : ParseAt (S n) looping (MkContext [] b) 36 0 [] = None).
  { rewrite (ParseAt_S n _ _ 36 0 [] (ChoiceParser [42])) by reflexivity. cbn -[ParseAt looping]. unfold mbind, M_bind.
    by rewrite (IH n) by lia. }
  cbn -[ParseAt looping]. unfold mbind, M_bind.
  rewrite (ParseAt_S n _ _ 37 0 [] (LiteralParser "")) by reflexivity. cbn -[ParseAt looping].
  rewrite (ParseAt_S n _ _ 38 0 [] SpaceParser) by reflexivity. cbn -[ParseAt looping]. by rewrite H36.
Qed.

(** With a marker the section shadows the tool: it cannot be called, while the
    same call of a tool with another name parses. *)
Definition one_tool (name : string) : B ParserID := StandardConstructedTools no_walk ∅ [MkToolDef name ∅] false true.

Definition one_call (name : string) : list ascii :=
  bytes ("<tool_call><function=" +:+ name +:+ "></function></tool_call>").

Definition parse_one (tool : string) : option ParseResultType :=
  a ← BuildChatPegParser (one_tool tool); '(r, _) ← ParseFrom 400 a (MkContext (one_call tool) false) 0 []; Some r.(Type_).

Lemma tool_named_call_shadowed : parse_one "call" = Some Fail ∧ parse_one "cal" = Some Success.
Proof. split; vm_compute; reflexivity. Qed.

Lemma tool_grammars_total_witness :
  ∃ arena r s, BuildChatPegParser (StandardJSONTools (json_opts "" "search")) = Some arena ∧
    ParseFrom (parse_fuel (position_certificate arena) 1) arena (MkContext (bytes "{") true) 0 [] = Some (r, s) ∧ r.(Start) = 0.
Proof.
  destruct (tool_grammars_total no_walk ∅ false true (json_opts "" "search") (MkContext (bytes "{") true) 0)
    with (m := StandardJSONTools (json_opts "" "search")) as (arena & r & s & Ha & Hp & Hs & _).
  - apply Forall_singleton. vm_compute. discriminate.
  - simpl. lia.
  - by right.
  - exists arena, r, s. split; [exact Ha|]. split; [exact Hp|exact Hs].
Defined.

(** Rules go by the cleaned name: of two tools whose names differ in other
    characters only, the first cannot be called. *)
Definition two_tools : B ParserID :=
  StandardConstructedTools no_walk ∅ [MkToolDef "get_weather" ∅; MkToolDef "get-weather" ∅] false true.

Definition parse_two (tool : string) : option ParseResultType :=
  a ← BuildChatPegParser two_tools; '(r, _) ← ParseFrom 400 a (MkContext (one_call tool) false) 0 []; Some r.(Type_).

Lemma tools_shadowed : parse_two "get_weather" = Some Fail ∧ parse_two "get-weather" = Some Success.
Proof. split; vm_compute; reflexivity. Qed.
