(* ===== verification/PegDemo.v ===== *)
(** * PegDemo: an answer from text to calls

    Concrete answers in the ready-made formats: the witnesses of the theorems
    on the mapper, and the answers whose arguments or calls are not what the
    text says. *)
From Stdlib Require Import Ascii.
From S2P Require Import Prelude GoMonad PegTypes PegTrie PegJson PegParser PegTotal PegBuilder GoJson PegMapper PegMapping PegArguments PegChat PegIntegration.

Definition no_spare (n : nat) : nat := 0.

Definition preset (name : string) : XMLToolCallFormat :=
  default (MkFormat "" "" "" "" "" "" "" "" None None None None false false) (GetXMLFormatPreset name).

Definition calls_of (name : string) (text : string) : option (list (list ascii * list ascii)) :=
  l ← parse_format no_spare (bytes text) (preset name); Some (map (λ c, (c.(Name), c.(Arguments))) l).

(** The same answer as the AST that the mapper gets. *)
Definition ast_of (name : string) (text : string) : option (ParseResult * AstArena) :=
  a ← BuildPEGParserFromFormat (preset name) (classifyXMLFormat (preset name)); a ← a;
  ParseFrom (parse_fuel (position_certificate a) (String.length text)) a (MkContext (bytes text) false) 0 [].

Definition hello : string :=
  "Hi <tool_call><function=foo><parameter=a>1</parameter><parameter=b>x y</parameter></function></tool_call>".

Definition hello_parse : ParseResult * AstArena :=
  Eval vm_compute in default (NewParseResult Fail 0, []) (ast_of "qwen3-coder" hello).
Definition hello_nodes : list AstNode :=
  Eval vm_compute in default [] (VisitResult (S (length hello_parse.2)) hello_parse.2 hello_parse.1).

Definition hello_call : Call :=
  MkCall (bytes "foo") (bytes "<parameter=a>1</parameter><parameter=b>x y</parameter>")
    [MkArgument (bytes "a") (bytes "1"); MkArgument (bytes "b") (bytes "x y")].

Lemma hello_parsed : ast_of "qwen3-coder" hello = Some hello_parse.
Proof. vm_compute. reflexivity. Qed.

Definition example_calls : list ToolCall := [tagged_call hello_call].

Lemma mapper_refines_witness :
  VisitResult (S (length hello_parse.2)) hello_parse.2 hello_parse.1 = Some hello_nodes ∧
  ∃ m, FromAST no_spare hello_parse.2 hello_parse.1 NewMapper = Some (tt, m) ∧ m.(Content) = bytes "Hi ".
Proof.
  assert (H : VisitResult (S (length hello_parse.2)) hello_parse.2 hello_parse.1 = Some hello_nodes) by (vm_compute; reflexivity).
  split; [exact H|]. destruct (mapper_refines no_spare _ _ _ H) as (m & Hm & Hc & _).
  exists m. split; [exact Hm|]. rewrite Hc. vm_compute. reflexivity.
Defined.

Lemma tagged_arguments_witness :
  ∃ m, FromAST no_spare hello_parse.2 hello_parse.1 NewMapper = Some (tt, m) ∧ calls m = example_calls ∧
    map Arguments example_calls = [bytes "{" ++ Marshal (bytes "a") ++ bytes ":1," ++ Marshal (bytes "b") ++ bytes ":" ++
                                   Marshal (bytes "x y") ++ bytes "}"].
Proof.
  destruct (tagged_arguments no_spare hello_parse.2 hello_parse.1 hello_nodes (λ c, bytes "<function=" ++ c.(call_name) ++ bytes ">")
    (bytes "</function>") (bytes "<parameter=") (bytes "</parameter>") (bytes "Hi ") [hello_call]) as [(m & Hm & _ & Hc) _].
  - vm_compute. reflexivity.
  - vm_compute. reflexivity.
  - constructor; [|constructor]. constructor; [vm_compute; discriminate|vm_compute; discriminate| |simpl; lia].
    repeat constructor; vm_compute; discriminate.
  - exists m. split; [exact Hm|]. split; [exact Hc|]. vm_compute. reflexivity.
Defined.

(** ** Answers that do not arrive as they are written *)

(** An argument with an empty value: the arguments are not JSON. *)
Lemma empty_value :
  ∃ args, calls_of "qwen3-coder" "<tool_call><function=f><parameter=x></parameter></function></tool_call>" = Some [(bytes "f", args)] ∧
    args = bytes "{" ++ Marshal (bytes "x") ++ bytes ":}" ∧ Valid args = false.
Proof. eexists. split_and!; vm_compute; reflexivity. Qed.

(** A value that starts with a brace and is not JSON: its quotes change. *)
Definition normalized_value : list ascii := bytes "{ return " ++ cQuote :: bytes "a" ++ cQuote :: bytes "; }".

Lemma value_normalized :
  calls_of "qwen3-coder" "<tool_call><function=f><parameter=x>{ return 'a'; }</parameter></function></tool_call>" =
    Some [(bytes "f", bytes "{" ++ Marshal (bytes "x") ++ bytes ":" ++ Marshal normalized_value ++ bytes "}")].
Proof. vm_compute. reflexivity. Qed.

(** The preset of glm-4.5 has nothing between the name and the arguments:
    the name runs to the end of the answer and no call is found. *)
Lemma glm_never_found :
  calls_of "glm-4.5" "<tool_call>f<arg_key>a</arg_key><arg_value>1</arg_value></tool_call>" = Some [].
Proof. vm_compute. reflexivity. Qed.
