(* ===== verification/RealtimeProtocols.v ===== *)
(** * RealtimeProtocols: the contracts of the five realtime machines

    What the sinks of a session rely on, put together: each machine, over any
    sequence of events, emits effects that follow its protocol, and its state
    says which phase of the protocol this is. *)
From S2P Require Import Prelude Coordinator.
From S2P Require TurnCoord RespCoord ConnCoord CompactCoord TTSCoord.

(** C27. The five state machines of a session keep their protocols under every
    sequence of events.  Turns: the effects open, start, stop and commit or
    discard one turn at a time, and every opened turn is ended once, in order.
    Responses: at most one is live, and with fresh ids each one started gets
    exactly one terminal, in order.  Connection: the VAD goroutine is started
    only when none runs and stopped only when one runs, and the first close
    tears down exactly once, whatever follows.  Compaction: single flight.
    Speech output: the phases only move forward and the worker is woken at most
    once, after the pipeline has left Open. *)
Theorem machine_protocols :
  (∀ es, foldM TurnCoord.turn_monitor TurnCoord.NoTurn (run TurnCoord.Next TurnCoord.Idle es).2 =
           Some (TurnCoord.phase_of (run TurnCoord.Next TurnCoord.Idle es).1) ∧
         TurnCoord.opened (run TurnCoord.Next TurnCoord.Idle es).2 =
           TurnCoord.ended (run TurnCoord.Next TurnCoord.Idle es).2 ++
           option_list (TurnCoord.open_turn (TurnCoord.phase_of (run TurnCoord.Next TurnCoord.Idle es).1))) ∧
  (∀ es, foldM RespCoord.live_monitor None (run RespCoord.Next RespCoord.Idle es).2 =
           Some (RespCoord.live_of (run RespCoord.Next RespCoord.Idle es).1) ∧
         (NoDup (RespCoord.start_ids es) →
           RespCoord.started (run RespCoord.Next RespCoord.Idle es).2 =
             RespCoord.terminals (run RespCoord.Next RespCoord.Idle es).2 ++
             option_list (RespCoord.live_of (run RespCoord.Next RespCoord.Idle es).1) ∧
           NoDup (RespCoord.terminals (run RespCoord.Next RespCoord.Idle es).2))) ∧
  (∀ es es', foldM ConnCoord.conn_monitor ConnCoord.VadOff (run ConnCoord.Next (ConnCoord.Live false) es).2 =
           Some (ConnCoord.phase_of (run ConnCoord.Next (ConnCoord.Live false) es).1) ∧
         ConnCoord.teardowns (run ConnCoord.Next (ConnCoord.Live false) (es ++ ConnCoord.Close :: es')).2 = 1%nat ∧
         run ConnCoord.Next (run ConnCoord.Next (ConnCoord.Live false) (es ++ [ConnCoord.Close])).1 es' = (ConnCoord.Torn, [])) ∧
  (∀ es, foldM CompactCoord.flight_monitor CompactCoord.NoneRunning (CompactCoord.history CompactCoord.Idle es) =
           Some (CompactCoord.phase_of (run CompactCoord.Next CompactCoord.Idle es).1)) ∧
  (∀ es es', TTSCoord.rank (run TTSCoord.Next TTSCoord.Open es).1 ≤ TTSCoord.rank (run TTSCoord.Next TTSCoord.Open (es ++ es')).1 ∧
         length (run TTSCoord.Next TTSCoord.Open es).2 ≤ 1 ∧
         (length (run TTSCoord.Next TTSCoord.Open es).2 = 1%nat → (run TTSCoord.Next TTSCoord.Open es).1 ≠ TTSCoord.Open)).
Proof.
  split_and!.
  - intros es. split; [apply TurnCoord.turn_protocol|apply TurnCoord.turn_ended_once].
  - intros es. split; [apply RespCoord.resp_one_live|]. intros Hnd.
    by destruct (RespCoord.resp_one_terminal es Hnd) as (? & ? & _).
  - intros es es'. split; [apply ConnCoord.conn_vad_protocol|apply ConnCoord.conn_teardown_once].
  - apply CompactCoord.compact_single_flight.
  - apply TTSCoord.tts_wake_once.
Qed.
