(* ===== verification/AddonTraces.v ===== *)
(** * AddonTraces: the recorded scenarios of the add-on flows

    The fixtures that the two flows ship with are replayed by the models, so
    that the models and the code agree on every one of them. *)
From S2P Require Import Prelude.
From S2P Require ProposalFlow ProposalTraces ExecutionStatus ExecutionTraces.

(** The shipped scenarios are what the reducers do.  Every trace of the
    proposal flow replays without a mismatch of rule, effects or final state,
    and together they fire every transition rule of its table.  Every fixture
    of the eleven families of the execution status replays to its expected
    states, effects, rules and projection, each family has one, and the
    representative of each of the 49 state/event cells answers by the rule of
    the matrix. *)
Theorem addon_traces :
  (Forall (λ t, ProposalTraces.Verify t = Some []) ProposalTraces.Traces ∧
   ∀ r, In r ProposalFlow.Rules → r.(ProposalFlow.rule_Kind) = ProposalFlow.KindTransition →
        ∃ t, In t ProposalTraces.Traces ∧ In r.(ProposalFlow.rule_ID) (ProposalTraces.fired t)) ∧
  (forallb ExecutionTraces.trace_matches ExecutionTraces.Traces = true ∧
   map (λ s, map (λ e, (ExecutionStatus.Reduce s e).(ExecutionStatus.tr_Rule)) ExecutionTraces.AllEvents) ExecutionTraces.AllStates =
     ExecutionTraces.matrix ∧
   forallb (λ f, existsb (λ tr, (tr.(ExecutionTraces.Family) =? f)%Z) ExecutionTraces.Traces) (seqZ 1 11) = true).
Proof. split; [apply ProposalTraces.traces_verify|apply ExecutionTraces.status_traces_match]. Qed.
